(* ===== verification/_CoqProject ===== *)
-Q . S2P
Prelude.v
CppString.v
CppDouble.v
Messages.v
Common.v
Lattices.v
Serialization.v
Effects.v
Triggers.v
TriggerSpecs.v
Threads.v
Coordinator.v
Notify.v
DemeterScheduler.v
FuncCall.v
CoordRun.v
KvsClient.v
CommHelper.v
Cluster.v
LocalScheduler.v
LocalSpecs.v
LocalWaiting.v
LocalDelay.v
Executor.v
Reexecution.v
NodeFormats.v
NodeFlow.v
CallFlow.v
Manager.v
Interleaving.v
IoThreads.v
SafeLocks.v
IpcBase.v
IpcLock.v
IpcRing.v
IpcUnicast.v
IpcBroadcast.v
IpcBroadcastMulti.v
IpcConnect.v
IpcPosix.v
IpcWaiterOpen.v
IpcWaiter.v
IpcShm.v
IpcAlloc.v
IpcAllocSpecs.v
IpcChannel.v
IpcStorage.v
IpcMachine.v
IpcDelivery.v
