(* ===== verification/Prelude.v ===== *)
(** * Demeter / Pheromone: a verification library

    ** The program

    Pheromone is a serverless platform: functions write objects into buckets, and triggers
    on the buckets start further functions.  Its processes, all under [src/pheromone]:

    - a _coordinator_ thread ([src/coordinator]) keeps the registry of applications,
      buckets, triggers and object addresses, receives announcements of new objects, fires
      triggers and routes function calls to nodes;
    - on every node a _local scheduler_ ([src/scheduler]) with a _communication helper_
      ([include/scheduler/comm_helper.hpp]) runs calls on the executors of the node, keeps
      calls back until their arguments are there, fires the triggers of the node, and talks
      to the coordinators, the other nodes and the durable store;
    - _executors_ ([src/executor], [include/executor]) run the functions and exchange
      messages with the local scheduler over channels in shared memory ([common/shm-ipc]);
    - a _manager_ ([src/manager]) assigns applications to coordinators;
    - [common/include] holds what they share: names, triggers, lattices of the durable
      store and its client, addresses.

    ** Files

    Foundations.  [Prelude]: results that may throw, machine integers, unordered
    iteration, shared lemmas and tactics.  [CppString], [CppDouble]: the parts of the C++
    library the program uses (strings, [stoi], binary64).  [Effects]: the monad of methods
    that change an object and send messages, with weakest preconditions [wp] and [wlp].
    [Messages]: the protobuf messages as records.

    Shared data ([common/include]).  [Common]: object names, session ids, timestamps
    ([common.hpp]).  [Lattices]: the merges of [lattices/].  [Serialization]: lattices as
    payloads ([common.hpp]).  [Threads]: addresses ([anna_threads.hpp], [kvs_threads.hpp],
    [op_threads.hpp]).  [Triggers]: the trigger classes of [trigger.hpp], one Module each;
    [TriggerSpecs]: their specifications.  [KvsClient]: [anna_client/kvs_client.hpp].

    Coordinator ([src/coordinator]).  [Coordinator]: state and the handlers of buckets,
    triggers, applications, queries and status; [Notify]: [notify_handler.cpp];
    [DemeterScheduler]: [demeter_scheduler.cpp]; [FuncCall]: [func_call_handler.cpp];
    [CoordRun]: the event loop of [coordinator.cpp], as steps on messages; [Cluster]: the
    coordinator and a node, connected by the trigger updates.

    Node.  [CommHelper]: [comm_helper.hpp]; [LocalScheduler]: the loop of
    [scheduler_server.cpp] with [object_handlers.cpp]; [LocalSpecs], [LocalWaiting],
    [LocalDelay]: what it does with calls, with calls that wait for data, and with delayed
    calls; [Reexecution]: functions whose objects do not come run again; [Executor]:
    [executor_server.cpp] and [function_lib.hpp]; [NodeFormats]: the byte formats between
    them, writer against reader; [NodeFlow]: from an object that an
    executor sends to the functions it starts; [CallFlow]: from a request at the coordinator
    to the response at the client, through every process between them; [IoThreads]: the main
    thread and the I/O threads of the helper interleaved, over [safe_ptr.hpp]; [SafeLocks]:
    the locks of that file.

    [Manager]: [manager_server.cpp].

    [Interleaving]: threads over shared state and their invariants, for [IoThreads] and the
    files on IPC.

    Shared-memory IPC ([common/shm-ipc]).  [IpcBase]: [id_pool.h], [elem_def.h], [def.h]; [IpcLock]:
    [rw_lock.h].  The rings of [prod_cons.h]: [IpcRing] the one the program uses, many
    producers and consumers, unicast; [IpcUnicast] the unicast rings of one producer;
    [IpcBroadcast] and [IpcBroadcastMulti] the broadcast rings of one and many producers.
    [IpcConnect]: how handles connect to a ring and leave it ([elem_def.h],
    [elem_array.h], [queue.h], [ipc.cpp]).  [IpcPosix]: the mutex, the end of a wait and the
    semaphores of [waiter_linux.h], over the calls of POSIX as classes with laws; [IpcWaiter]:
    waking and waiting ([waiter_helper.h]); [IpcWaiterOpen]: opening and closing a waiter
    ([waiter_linux.h], [waiter_wrapper.h]).  [IpcShm]: segments of shared memory ([shm_linux.cpp], [shm.cpp]), over the calls of POSIX as a
    class with laws.  [IpcAlloc], [IpcAllocSpecs]: the pool allocator of [memory/], over
    [malloc] as a parameter with its contract.  [IpcChannel]: [ipc.cpp] with [queue.h] and
    the wrapper of [ipc.h], one access to the shared state at a time; [IpcMachine]: any
    number of channels and processes on one machine, which share the pools of blocks;
    [IpcStorage], [IpcDelivery]: the proof that what is sent over a channel is received.

    A file requires the files of the components it calls.  Handlers have the names of the
    functions they translate; the members of a class are the fields of a [Record] with the
    names of the source.

    ** How code is modelled

    - A handler is a function from the state of its process and a message to the new state
      and the messages sent, in order ([eff], or a state transformer of its own).  An
      exception or undefined behaviour is the result [Throw e]; the reads that can be out
      of range, null or past the end are explicit ([vec_at], [Undefined]).
    - [map] and [set] of [types.hpp] are [unordered_map] and [unordered_set]: their order
      of iteration is a parameter, a permutation of the entries ([UnorderedIter]); theorems
      hold for every order, witnesses use [sorted_iter].
    - Integers are [Z], reduced to their width where the code can leave it ([u8], [u32],
      [u64], [i32]); [double] is binary64 of the Standard Library ([spec_float]), without
      axioms.
    - The clock of a message is an argument, one value for a message or a round of the
      timers; [rand_r] is a parameter ([Rand]).  The free executors of all nodes together
      fit in an [int].
    - Whether the operating system lets a process map shared memory is an answer of its own
      at every step.
    - Serialization by protobuf is outside of the source: where the program keeps
      serialized bytes, the class [Message] has protobuf's round trip as its law.
    - Shared pointers to triggers are indices in a heap of triggers; bytes behind raw
      pointers are strings or lists of bytes; memory never written reads as [None].
    - A function of a user, loaded from a shared library, is a parameter of [Executor].
    - Threads interleave one atomic operation at a time, sequentially consistently
      ([Interleaving.step]); compare-and-exchange may fail spuriously.
    - Loops over a container are structural.  The others have fuel: [to_digits] one unit
      per bit of the number; [timestamp_pow] 11, where [timestamp_pow_spec] needs 10;
      [FuncCall.next_avail] one turn of the ring of nodes, after which a node with room
      has been met or the loop never ends ([next_avail_spec]); [process_secondary] the
      bound of the loop in the source; [count_bits] 32 bits; [IpcAlloc.free_all] the number
      of regions, [append_list] the number of words in memory.

    ** What the theorems show

    - Coordinator: accepted announcements are visible to every later query, the registry
      stays consistent, fired actions go to a node with data and a free executor, calls
      are split within the free executors and never lost silently, the Demeter scheduler
      respects capacity and picks a best node and a smallest allocation.  The triggers of a node are
      those the coordinator ships it, whatever happens in between.
    - Triggers: each class against an abstract machine or a law of its histories (sets
      complete per session, groups partitioned, batches conserved, windows apart, rounds,
      re-execution until the object comes), and the round trip of their messages.
    - Node: what becomes of a call in every state of the executors, the index of waiting
      calls is exact and the arrival of an object releases exactly the calls that waited
      for nothing else, objects are fetched byte for byte from other nodes, the formats
      between scheduler and executor are read as written, and an object sent by a function
      reaches the functions its triggers name; a function whose object does not come in time
      is called again.  From end to end, a request is answered with
      what its function puts out.  The queues between the main thread and the
      I/O threads deliver once and in order under every interleaving, and their loops end.
    - Durable store: no request is lost, time-outs answer everything, ids are distinct,
      replicas agree, causal merges keep the causal order, payloads survive.
    - IPC: the unicast rings are bounded queues under every interleaving, the broadcast
      rings give every receiver every value in order, handles keep their roles, locks
      exclude and progress, the mutex of a waiter survives the death of its owner, no wake-up
      is lost, the handles of a waiter share their semaphores while one is open, handles of a
      name are on one segment, a wait ends exactly when it should, ids
      of blocks are never shared, blocks of the allocator do not overlap, and over a
      channel every message is received whole and once, whatever the other channels of the
      machine do, unless a push timed out or the receiver could not map its block.
    - Errors: what the code does when it cannot serve is stated too; some theorems show
      defects ([IpcChannel.full_channel_dies], [LocalDelay.delayed_call_starves],
      [LocalDelay.delayed_key_call_fails], and lemmas such as
      [TriggerSpecs.by_set_clear_keeps_status], [FuncCall.batch_parts_lose_session],
      [NodeFormats.empty_object_lost], [IpcRing.spurious_full]), and runs in the Modules
      [Demo] show what the hypotheses of a theorem exclude.

    Bounds: where entries are compared by their counters the 32-bit counters of the rings
    are followed until they wrap around (fewer than 2^32 pushes or pops; the rings of one
    consumer and the broadcast ring of one producer for ever); in the broadcast ring of
    many producers 2^32 - 256 pushes and 2^24 changes of a read counter; request ids for
    2^31 requests; messages below 2^31 bytes; at most 32 threads of the allocator have
    ended.

    ** Not modelled

    Sockets, polling and the ZeroMQ wrappers ([zmq/]): a message sent is an output, a
    message received an argument.  Logging, environment variables, configuration files
    (their values are arguments).  Of the IPC: memory orders weaker than sequential
    consistency, pauses, condition variables and the classes for a mutex, a condition or a
    semaphore alone ([waiter_wrapper.h]), which nothing uses, thread-local storage, the
    calls of the operating system (parameters), the code for Windows.  Of [safe_ptr.hpp],
    whose classes but [safe_ptr] nothing uses: [safe_obj], the locks of several objects,
    the partitioned map.  The Python client,
    the training code, deployment, examples and tests are not part of the server. *)

From Stdlib Require Export ZArith Lia Ascii.
From stdpp Require Export base decidable gmap strings fin_maps fin_sets numbers.
From stdpp Require Export list_basics list_relations list_monad list_misc list_tactics list_numbers list.

#[export] Set Warnings "-clear-no-such-hyp".


(** ** Notations of the development *)

Declare Scope cpp_scope.
Delimit Scope cpp_scope with cpp.
Open Scope cpp_scope.
Open Scope Z_scope.

(** ** Fallible code

    A C++ expression either has a value, throws a standard exception, or has
    undefined behaviour (an out-of-range [operator[]], a null dereference, the
    dereference of an [end()] iterator).  The three outcomes are kept apart. *)

Inductive exn :=
| OutOfRange          (* std::out_of_range *)
| InvalidArgument     (* std::invalid_argument *)
| Undefined.          (* undefined behaviour *)

Inductive result (A : Type) :=
| Ok (a : A)
| Throw (e : exn).
Arguments Ok {A} a.
Arguments Throw {A} e.

#[export] Instance exn_eq_dec : EqDecision exn.
Proof. solve_decision. Defined.

#[export] Instance result_eq_dec {A} `{EqDecision A} : EqDecision (result A).
Proof. solve_decision. Defined.

#[export] Instance result_ret : MRet result := λ A a, Ok a.

#[export] Instance result_bind : MBind result := λ A B f m,
  match m with Ok a => f a | Throw e => Throw e end.

#[export] Instance result_fmap : FMap result := λ A B f m,
  match m with Ok a => Ok (f a) | Throw e => Throw e end.

Definition is_ok {A} (m : result A) : Prop := ∃ a, m = Ok a.

(** [v[i]] on a vector: reading out of range is undefined. *)
Definition vec_at {A} (l : list A) (i : nat) : result A :=
  match l !! i with Some a => Ok a | None => Throw Undefined end.

(** The remainder of unsigned numbers; by zero it is undefined. *)
Definition umod (a b : Z) : result Z :=
  if decide (b = 0)%Z then Throw Undefined else Ok (a `mod` b)%Z.

(** A loop [for (x : l) s = f(s, x)] whose body may throw. *)
Fixpoint foldM {A S} (f : S → A → result S) (l : list A) (s : S) : result S :=
  match l with
  | [] => Ok s
  | a :: l => match f s a with Ok s' => foldM f l s' | Throw e => Throw e end
  end.

(** ** Machine integers *)

Definition u8 (z : Z) : Z := z `mod` 2 ^ 8.
Definition u32 (z : Z) : Z := z `mod` 2 ^ 32.
Definition u64 (z : Z) : Z := z `mod` 2 ^ 64.
Definition i32 (z : Z) : Z := (z + 2 ^ 31) `mod` 2 ^ 32 - 2 ^ 31.

(** [std::chrono::duration_cast] rounds toward zero; the clock ticks in
    nanoseconds. *)
Definition to_ms (ns : Z) : Z := Z.quot ns 1000000.
Definition to_us (ns : Z) : Z := Z.quot ns 1000.

(** ** Unordered containers

    [types.hpp] defines [map] as [std::unordered_map] and [set] as
    [std::unordered_set].  Their iteration order is unspecified: a loop over
    one visits every element exactly once, in an order the program does not
    choose.  The order is a parameter of the model. *)

Class UnorderedIter := {
  map_iter : ∀ {K} `{EqDecision K, !Countable K} {V}, gmap K V → list (K * V);
  map_iter_perm : ∀ K `{EqDecision K, !Countable K} V (m : gmap K V),
    map_iter m ≡ₚ map_to_list m;
  set_iter : ∀ {K} `{EqDecision K, !Countable K}, gset K → list K;
  set_iter_perm : ∀ K `{EqDecision K, !Countable K} (s : gset K),
    set_iter s ≡ₚ elements s }.

(** One admissible order, for evaluation. *)
Definition sorted_iter : UnorderedIter := {|
  map_iter := λ K _ _ V m, map_to_list m;
  map_iter_perm := λ K _ _ V m, reflexivity _;
  set_iter := λ K _ _ s, elements s;
  set_iter_perm := λ K _ _ s, reflexivity _ |}.

(** [m[k]] inserts a value-initialised entry when [k] is absent. *)
Definition touch {V} (d : V) (k : string) (m : gmap string V) : gmap string V :=
  match m !! k with Some _ => m | None => <[k := d]> m end.

Definition at_default {V} (d : V) (k : string) (m : gmap string V) : V :=
  default d (m !! k).

(** [std::next(begin(c), n)] for [n] below the size. *)
Definition nth_iter {A} (l : list A) (n : Z) : result A := vec_at l (Z.to_nat n).

(** ** Shared lemmas and automation *)

Create HintDb cpp.
Create Rewrite HintDb cpp.

(** Case analysis on every [if] and [match] in sight, as the code branches. *)
Ltac branch :=
  repeat (case_decide || case_match); simplify_eq/=.

(** Close a decidable closed goal by evaluating its decision procedure. *)
Ltac evaluate := apply (bool_decide_unpack _); vm_compute; exact I.

(** Split a monadic computation known to have a value. *)
Ltac inv_result :=
  repeat match goal with
  | H : Ok _ = Ok _ |- _ => injection H as H; subst
  | H : Throw _ = Ok _ |- _ => discriminate H
  | H : Ok _ = Throw _ |- _ => discriminate H
  | H : (?m ≫= _) = Ok _ |- _ =>
      let a := fresh "a" in let E := fresh "E" in
      destruct m as [a|] eqn:E; [cbn in H | discriminate H]
  end.

Lemma bind_Ok {A B} (m : result A) (f : A → result B) b :
  (m ≫= f) = Ok b ↔ ∃ a, m = Ok a ∧ f a = Ok b.
Proof. destruct m; cbn; split; [eauto | by intros (? & [= <-] & ?) | done | by intros (? & ? & _)]. Qed.

Lemma umod_Ok a b : b ≠ 0%Z → umod a b = Ok (a `mod` b)%Z.
Proof. intros Hb. unfold umod. by rewrite decide_False. Qed.

Lemma vec_at_Ok {A} (l : list A) i a : vec_at l i = Ok a ↔ l !! i = Some a.
Proof. unfold vec_at. destruct (l !! i); naive_solver. Qed.

Lemma foldM_app {A S} (f : S → A → result S) l1 l2 s :
  foldM f (l1 ++ l2) s = foldM f l1 s ≫= foldM f l2.
Proof.
  revert s. induction l1 as [|a l1 IH]; intros s; cbn; [done|].
  destruct (f s a); [apply IH | done].
Qed.

(** Rule for a loop: an invariant over the processed prefix and the state. *)
Lemma foldM_ind {A S} (P : list A → S → Prop) (f : S → A → result S) l s s' :
  P [] s →
  (∀ pre a s1 s2, P pre s1 → f s1 a = Ok s2 → P (pre ++ [a]) s2) →
  foldM f l s = Ok s' → P l s'.
Proof.
  intros H0 Hstep. revert s' . induction l as [|a l IH] using rev_ind; intros s'.
  - cbn. intros [= <-]. done.
  - rewrite foldM_app. intros (s1 & H1 & H2)%bind_Ok. cbn in H2.
    destruct (f s1 a) eqn:E; simplify_eq. eauto.
Qed.

Lemma foldM_ext {A S} (f g : S → A → result S) l s :
  (∀ s a, a ∈ l → f s a = g s a) → foldM f l s = foldM g l s.
Proof.
  revert s. induction l as [|a l IH]; intros s Hfg; cbn; [done|].
  rewrite Hfg by set_solver. destruct (g s a); [|done].
  apply IH. intros; apply Hfg; set_solver.
Qed.

(** A loop whose body never throws is a [foldl]. *)
Lemma foldM_pure {A S} (f : S → A → S) l s :
  foldM (λ s a, Ok (f s a)) l s = Ok (foldl f s l).
Proof. revert s. induction l as [|a l IH]; intros s; cbn; [done|]. apply IH. Qed.

Lemma foldl_ind {A S} (P : list A → S → Prop) (f : S → A → S) l s :
  P [] s → (∀ pre a s1, P pre s1 → P (pre ++ [a]) (f s1 a)) → P l (foldl f s l).
Proof.
  intros H0 Hstep. induction l as [|a l IH] using rev_ind; [done|].
  rewrite foldl_app. cbn. auto.
Qed.

(** A loop that appends [f(v)] for every [v]. *)
Lemma foldl_snoc {A B} (f : A → B) (l : list A) acc :
  foldl (λ vs v, vs ++ [f v]) acc l = acc ++ map f l.
Proof.
  revert acc. induction l as [|a l IH]; intros acc; cbn; [by rewrite app_nil_r|].
  by rewrite IH, <- app_assoc.
Qed.

Lemma foldl_snoc_id {A} (l : list A) : foldl (λ vs v, vs ++ [v]) [] l = l.
Proof. rewrite (foldl_snoc id). apply map_id. Qed.

Lemma foldl_app_bind {A B} (f : A → list B) (l : list A) acc :
  foldl (λ vs v, vs ++ f v) acc l = acc ++ (l ≫= f).
Proof.
  revert acc. induction l as [|a l IH]; intros acc; cbn; [by rewrite app_nil_r|].
  by rewrite IH, <- app_assoc.
Qed.

Lemma foldl_set_insert (l : list string) :
  foldl (λ result value, {[value]} ∪ result) ∅ l = (list_to_set l : gset string).
Proof.
  apply (foldl_ind (λ pre acc, acc = list_to_set pre)); [done|].
  intros pre a s ->. rewrite list_to_set_app_L. set_solver.
Qed.

Lemma foldl_ext {A S} (f g : S → A → S) l s : (∀ s a, f s a = g s a) → foldl f s l = foldl g s l.
Proof. intros Hfg. revert s. induction l as [|a l IH]; intros s; cbn; [done|]. by rewrite Hfg. Qed.

(** A loop that keeps the first element with the greatest value above [mx]. *)
Definition argmax_step {A} (f : A → Z) (key : A → string) (acc : Z * string) (a : A) : Z * string :=
  if decide (f a > acc.1) then (f a, key a) else acc.

Lemma argmax_loop {A} (f : A → Z) (key : A → string) mx nd l :
  let r := foldl (argmax_step f key) (mx, nd) l in
  mx ≤ r.1 ∧ (∀ a, a ∈ l → f a ≤ r.1) ∧
  (r = (mx, nd) ∨ ∃ a, a ∈ l ∧ f a = r.1 ∧ key a = r.2 ∧ mx < r.1).
Proof.
  cbn. induction l as [|a l (H1 & H2 & H3)] using rev_ind; cbn; [split_and!; [lia|set_solver|by left]|].
  rewrite foldl_app. cbn. set (r := foldl _ _ l) in *. unfold argmax_step. case_decide; cbn.
  - split_and!; [lia| |right; exists a; split_and!; [set_solver|done|done|lia]].
    intros b [Hb|Hb%list_elem_of_singleton]%elem_of_app; [specialize (H2 b Hb); lia|subst; lia].
  - split_and!; [done| |destruct H3 as [|(b & ? & ?)]; [by left|right; exists b; set_solver]].
    intros b [Hb|Hb%list_elem_of_singleton]%elem_of_app; [by auto|subst; lia].
Qed.

Section iteration.
Context `{UI : UnorderedIter}.
Context {K} `{EqDecision K, !Countable K}.
Lemma map_iter_elem {V} (m : gmap K V) k v : (k, v) ∈ map_iter m ↔ m !! k = Some v.
Proof. rewrite map_iter_perm. apply elem_of_map_to_list. Qed.

Lemma map_iter_NoDup {V} (m : gmap K V) : NoDup (map_iter m).*1.
Proof. rewrite map_iter_perm. apply NoDup_fst_map_to_list. Qed.

Lemma map_iter_length {V} (m : gmap K V) : length (map_iter m) = size m.
Proof. by rewrite map_iter_perm, length_map_to_list. Qed.

Lemma set_iter_elem (s : gset K) k : k ∈ set_iter s ↔ k ∈ s.
Proof. rewrite set_iter_perm. apply elem_of_elements. Qed.

Lemma set_iter_NoDup (s : gset K) : NoDup (set_iter s).
Proof. rewrite set_iter_perm. apply NoDup_elements. Qed.

Lemma set_iter_length (s : gset K) : length (set_iter s) = size s.
Proof. by rewrite set_iter_perm. Qed.

Lemma set_iter_list_to_set (s : gset K) : list_to_set (set_iter s) = s.
Proof. apply set_eq. intros k. rewrite elem_of_list_to_set. apply set_iter_elem. Qed.

(** A loop [m[pair.first] = f(pair.second)] rebuilds the map, whatever the order. *)
Lemma foldl_insert_map {V W} (f : V → W) (mm : gmap K V) :
  foldl (λ m p, <[p.1 := f p.2]> m) ∅ (map_iter mm) = f <$> mm.
Proof.
  assert (∀ l (m : gmap K W), NoDup l.*1 →
    foldl (λ m p, <[p.1 := f p.2]> m) m l = (f <$> (list_to_map l : gmap K V)) ∪ m) as Hl.
  { induction l as [|[k v] l IH]; intros m; cbn; [by rewrite fmap_empty, (left_id_L ∅ (∪))|].
    intros [Hk Hl]%NoDup_cons. rewrite IH, fmap_insert by done.
    rewrite <- insert_union_l, insert_union_r; [done|].
    by rewrite lookup_fmap, not_elem_of_list_to_map_1. }
  rewrite Hl, (right_id_L ∅ (∪)) by apply map_iter_NoDup. f_equal.
  rewrite (list_to_map_proper (map_iter mm) (map_to_list mm));
    [apply list_to_map_to_list | apply map_iter_NoDup | apply map_iter_perm].
Qed.

End iteration.

(** Sums over lists and over the entries of a map. *)
Fixpoint zsum {A} (g : A → Z) (l : list A) : Z :=
  match l with [] => 0 | a :: l => g a + zsum g l end.

Section sums.
Context {K : Type} `{EqDecision K, !Countable K} {V : Type} (f : K → V → Z).

Definition msum (m : gmap K V) : Z := zsum (λ p, f p.1 p.2) (map_to_list m).

Lemma zsum_app {A} (g : A → Z) l1 l2 : zsum g (l1 ++ l2) = zsum g l1 + zsum g l2.
Proof. induction l1 as [|a l1 IH]; cbn; [done|]. rewrite IH. lia. Qed.

#[export] Instance zsum_perm {A} (g : A → Z) : Proper ((≡ₚ) ==> (=)) (zsum g).
Proof. intros l1 l2 Hp. induction Hp; cbn; lia. Qed.

Lemma zsum_ext {A} (g h : A → Z) l : (∀ a, a ∈ l → g a = h a) → zsum g l = zsum h l.
Proof.
  induction l as [|a l IH]; intros Hgh; cbn; [done|].
  rewrite IH, Hgh; [done|set_solver..].
Qed.

Lemma msum_empty : msum ∅ = 0.
Proof. unfold msum. by rewrite map_to_list_empty. Qed.

Lemma msum_insert k v (m : gmap K V) : m !! k = None → msum (<[k := v]> m) = f k v + msum m.
Proof. intros Hk. unfold msum. by rewrite map_to_list_insert. Qed.

Lemma msum_delete k v (m : gmap K V) : m !! k = Some v → msum m = f k v + msum (delete k m).
Proof.
  intros Hk. rewrite <- (insert_delete_id m k v Hk) at 1. apply msum_insert, lookup_delete_eq.
Qed.

Lemma msum_update k v0 v (m : gmap K V) :
  m !! k = Some v0 → msum (<[k := v]> m) = msum m - f k v0 + f k v.
Proof.
  intros Hk. rewrite <- insert_delete_eq, msum_insert, (msum_delete k v0 m Hk) by apply lookup_delete_eq. lia.
Qed.

(** A positive sum has a positive term. *)
Lemma msum_pos (m : gmap K V) : 0 < msum m → ∃ k v, m !! k = Some v ∧ 0 < f k v.
Proof.
  unfold msum. intros Hpos.
  assert (∀ l, 0 < zsum (λ p, f p.1 p.2) l → ∃ p, p ∈ l ∧ 0 < f p.1 p.2) as Hl.
  { induction l as [|p l IH]; cbn; [lia|]. intros Hs. destruct (decide (0 < f p.1 p.2)).
    - exists p. set_solver.
    - destruct IH as (q & ? & ?); [lia|]. exists q. set_solver. }
  destruct (Hl _ Hpos) as ([k v] & Hin%elem_of_map_to_list & Hf). eauto.
Qed.

End sums.

#[export] Hint Rewrite @map_iter_elem @set_iter_elem @map_iter_length @set_iter_length
  @set_iter_list_to_set : cpp.

Lemma lookup_touch {V} (d : V) k m : touch d k m !! k = Some (at_default d k m).
Proof. unfold touch, at_default. destruct (m !! k) eqn:E; [done|]. apply lookup_insert_eq. Qed.

Lemma touch_id {V} (d : V) k v m : m !! k = Some v → touch d k m = m.
Proof. unfold touch. by intros ->. Qed.

Lemma lookup_touch_ne {V} (d : V) k j m : k ≠ j → touch d k m !! j = m !! j.
Proof. intros. unfold touch. destruct (m !! k); [done|]. by apply lookup_insert_ne. Qed.

Lemma at_default_insert {V} (d v : V) k m : at_default d k (<[k := v]> m) = v.
Proof. unfold at_default. by rewrite lookup_insert_eq. Qed.

Lemma at_default_insert_ne {V} (d v : V) k j m :
  k ≠ j → at_default d j (<[k := v]> m) = at_default d j m.
Proof. intros. unfold at_default. by rewrite lookup_insert_ne. Qed.

Lemma at_default_touch {V} (d : V) k j m : at_default d j (touch d k m) = at_default d j m.
Proof.
  unfold at_default. destruct (decide (k = j)) as [->|].
  - by rewrite lookup_touch.
  - by rewrite lookup_touch_ne.
Qed.

#[export] Hint Rewrite @at_default_insert @at_default_touch : cpp.

(** Bounds of the machine integers. *)
Lemma u8_bound z : 0 ≤ u8 z < 256. Proof. apply Z.mod_pos_bound. lia. Qed.
Lemma u32_bound z : 0 ≤ u32 z < 2 ^ 32. Proof. apply Z.mod_pos_bound. lia. Qed.
Lemma u64_bound z : 0 ≤ u64 z < 2 ^ 64. Proof. apply Z.mod_pos_bound. lia. Qed.
Lemma i32_bound z : - 2 ^ 31 ≤ i32 z < 2 ^ 31.
Proof. unfold i32. pose proof (Z.mod_pos_bound (z + 2 ^ 31) (2 ^ 32)). lia. Qed.

Lemma u8_small z : 0 ≤ z < 256 → u8 z = z. Proof. intros. by apply Z.mod_small. Qed.
Lemma u32_small z : 0 ≤ z < 2 ^ 32 → u32 z = z. Proof. intros. by apply Z.mod_small. Qed.
Lemma u64_small z : 0 ≤ z < 2 ^ 64 → u64 z = z. Proof. intros. by apply Z.mod_small. Qed.
Lemma i32_small z : - 2 ^ 31 ≤ z < 2 ^ 31 → i32 z = z.
Proof. intros. unfold i32. rewrite Z.mod_small; lia. Qed.

(** The conversions [int -> uint32 -> int] keep every [int]. *)
Lemma i32_u32 z : i32 (u32 z) = i32 z.
Proof. unfold i32, u32. by rewrite Zplus_mod_idemp_l. Qed.

#[export] Hint Resolve u8_bound u32_bound u64_bound i32_bound : cpp.
