(* ===== verification/CppString.v ===== *)
(** * [std::string] and the conversions of the standard library the program uses

    Byte strings are [string]; positions are [size_t] as [Z].  [find], [substr],
    [getline]-based [split] (common.hpp), [std::to_string], [stoi], and reading a
    [char*] up to its terminator. *)

From S2P Require Import Prelude.

(** ** Definitions *)

Definition size_of (s : string) : Z := Z.of_nat (String.length s).

(** [std::string::npos] is the largest [size_t]. *)
Definition npos : Z := 2 ^ 64 - 1.

Fixpoint index_of_char (c : ascii) (s : string) : option nat :=
  match s with
  | EmptyString => None
  | String c' s' => if decide (c' = c) then Some O else S <$> index_of_char c s'
  end.

Fixpoint drop_string (n : nat) (s : string) : string :=
  match n, s with
  | O, _ => s
  | S n, String _ s => drop_string n s
  | S _, EmptyString => EmptyString
  end.

Fixpoint take_string (n : nat) (s : string) : string :=
  match n, s with
  | S n, String c s => String c (take_string n s)
  | _, _ => EmptyString
  end.

(** [s.find(c, pos)] for a one-character pattern. *)
Definition find (s : string) (c : ascii) (pos : Z) : Z :=
  match index_of_char c (drop_string (Z.to_nat pos) s) with
  | Some i => pos + Z.of_nat i
  | None => npos
  end.

(** [s.substr(pos, n)] throws when [pos] is past the end. *)
Definition substr (s : string) (pos n : Z) : result string :=
  if decide (size_of s < pos) then Throw OutOfRange
  else Ok (take_string (Z.to_nat (Z.min n (size_of s - pos)))
             (drop_string (Z.to_nat pos) s)).

(** [split(s, delim, elems)]: [std::getline] until it fails.  A trailing empty
    segment is not produced. *)
Fixpoint split (s : string) (delim : ascii) : list string :=
  match s with
  | EmptyString => []
  | String c s' =>
      if decide (c = delim) then EmptyString :: split s' delim
      else match split s' delim with
           | [] => [String c EmptyString]
           | w :: ws => String c w :: ws
           end
  end.

Fixpoint join (d : string) (l : list string) : string :=
  match l with
  | [] => EmptyString
  | [w] => w
  | w :: l => w +:+ d +:+ join d l
  end.

Definition nul : ascii := Ascii.zero.

(** [string(p)]: the bytes before the first NUL.  Reading a [char*] of a buffer
    without one is undefined; the callers add it. *)
Fixpoint c_str (s : string) : string :=
  match s with
  | EmptyString => EmptyString
  | String c s' => if decide (c = nul) then EmptyString else String c (c_str s')
  end.

Definition byte_of (z : Z) : ascii := ascii_of_N (Z.to_N (u8 z)).
Definition val_of (c : ascii) : Z := Z.of_N (N_of_ascii c).

(** One byte appended with [push_back(uint8_t)]. *)
Definition byte_string (z : Z) : string := String (byte_of z) EmptyString.

(** [std::to_string] on integers. *)
Definition digit (n : Z) : ascii := byte_of (48 + n).

Fixpoint to_digits (fuel : nat) (n : Z) (acc : string) : string :=
  match fuel with
  | O => acc
  | S fuel =>
      let acc := String (digit (n `mod` 10)) acc in
      if decide (n / 10 = 0) then acc else to_digits fuel (n / 10) acc
  end.

Definition to_string_nonneg (n : Z) : string :=
  to_digits (S (Z.to_nat (Z.log2 n))) n EmptyString.

Definition to_string (n : Z) : string :=
  if decide (n < 0) then "-" +:+ to_string_nonneg (- n) else to_string_nonneg n.

(** [stoi]: leading white space, a sign, then the longest run of digits. *)
Definition is_digit (c : ascii) : bool := bool_decide (48 ≤ val_of c ≤ 57).
Definition is_space (c : ascii) : bool :=
  bool_decide (val_of c = 32 ∨ 9 ≤ val_of c ≤ 13).

Fixpoint read_digits (acc : Z) (s : string) : Z :=
  match s with
  | EmptyString => acc
  | String c s' => if is_digit c then read_digits (10 * acc + (val_of c - 48)) s' else acc
  end.

Fixpoint skip_spaces (s : string) : string :=
  match s with
  | String c s' => if is_space c then skip_spaces s' else s
  | EmptyString => EmptyString
  end.

Definition read_unsigned (s : string) : result Z :=
  match s with
  | String c _ => if is_digit c then Ok (read_digits 0 s) else Throw InvalidArgument
  | EmptyString => Throw InvalidArgument
  end.

Definition in_int (n : Z) : result Z :=
  if decide (- 2 ^ 31 ≤ n < 2 ^ 31) then Ok n else Throw OutOfRange.

Definition stoi (s : string) : result Z :=
  match skip_spaces s with
  | String c s' =>
      if decide (c = "-"%char) then n ← read_unsigned s'; in_int (- n)
      else if decide (c = "+"%char) then n ← read_unsigned s'; in_int n
      else n ← read_unsigned (String c s'); in_int n
  | EmptyString => Throw InvalidArgument
  end.

(** Strings free of a character. *)
Fixpoint no_char (c : ascii) (s : string) : Prop :=
  match s with
  | EmptyString => True
  | String c' s' => c' ≠ c ∧ no_char c s'
  end.

#[export] Instance no_char_dec c s : Decision (no_char c s).
Proof. induction s; cbn; apply _. Defined.

(** ** Lemmas *)

Lemma size_of_app a b : size_of (a +:+ b) = size_of a + size_of b.
Proof.
  unfold size_of. induction a as [|c a IH]; [done|].
  change (String c a +:+ b) with (String c (a +:+ b)). cbn [String.length]. lia.
Qed.

Lemma size_of_nonneg a : 0 ≤ size_of a.
Proof. unfold size_of. lia. Qed.

Lemma append_nil_r a : a +:+ EmptyString = a.
Proof.
  induction a as [|c a IH]; [done|].
  change (String c a +:+ EmptyString) with (String c (a +:+ EmptyString)). by rewrite IH.
Qed.

Lemma append_nil_l a : EmptyString +:+ a = a.
Proof. done. Qed.

Lemma append_assoc a b c : (a +:+ b) +:+ c = a +:+ (b +:+ c).
Proof.
  induction a as [|x a IH]; [done|].
  change (String x ((a +:+ b) +:+ c) = String x (a +:+ (b +:+ c))). by rewrite IH.
Qed.

Lemma append_cons c a b : String c a +:+ b = String c (a +:+ b).
Proof. done. Qed.

Lemma append_inj_r a b c : a +:+ c = b +:+ c → String.length a = String.length b → a = b.
Proof.
  revert b. induction a as [|x a IH]; intros [|y b] E L; try done.
  rewrite !append_cons in E. injection E as -> E. f_equal. apply IH; [done|].
  cbn in L. lia.
Qed.

Lemma drop_string_app a b : drop_string (String.length a) (a +:+ b) = b.
Proof. induction a as [|c a IH]; [by destruct b | apply IH]. Qed.

Lemma append_inj_l a b c : a +:+ b = a +:+ c → b = c.
Proof. intros E. apply (f_equal (drop_string (String.length a))) in E. by rewrite !drop_string_app in E. Qed.

Lemma take_string_app a b : take_string (String.length a) (a +:+ b) = a.
Proof.
  induction a as [|c a IH]; [done|]. rewrite append_cons. cbn. by rewrite IH.
Qed.

Lemma take_string_all a n : (String.length a ≤ n)%nat → take_string n a = a.
Proof.
  revert n. induction a as [|c a IH]; intros [|n] Hn; cbn in *; try done; [lia|].
  rewrite IH; [done|lia].
Qed.

Lemma drop_string_0 a : drop_string 0 a = a.
Proof. by destruct a. Qed.

Lemma substr_prefix a b : substr (a +:+ b) 0 (size_of a) = Ok a.
Proof.
  unfold substr. rewrite size_of_app. pose proof (size_of_nonneg a).
  pose proof (size_of_nonneg b). rewrite decide_False by lia.
  rewrite Z.min_l by lia. cbn [Z.to_nat]. rewrite drop_string_0.
  unfold size_of. by rewrite Nat2Z.id, take_string_app.
Qed.

Lemma substr_suffix a b : size_of (a +:+ b) < npos → substr (a +:+ b) (size_of a) npos = Ok b.
Proof.
  unfold substr. rewrite size_of_app. intros Hn. pose proof (size_of_nonneg a).
  pose proof (size_of_nonneg b). rewrite decide_False by lia.
  rewrite Z.min_r by lia. replace (size_of a + size_of b - size_of a) with (size_of b) by lia.
  unfold size_of. by rewrite !Nat2Z.id, drop_string_app, take_string_all.
Qed.

Lemma index_of_char_app c a b :
  no_char c a → index_of_char c (a +:+ String c b) = Some (String.length a).
Proof.
  induction a as [|x a IH]; cbn [no_char].
  - intros _. rewrite append_nil_l. cbn. by rewrite decide_True.
  - intros [Hx Ha]. rewrite append_cons. cbn. rewrite decide_False by done. by rewrite IH.
Qed.

Lemma index_of_char_None c a : no_char c a → index_of_char c a = None.
Proof.
  induction a as [|x a IH]; [done|]. intros [Hx Ha]. cbn.
  rewrite decide_False by done. by rewrite IH.
Qed.

Lemma find_app c a b : no_char c a → find (a +:+ String c b) c 0 = size_of a.
Proof.
  intros Ha. unfold find. cbn [Z.to_nat]. rewrite drop_string_0.
  by rewrite index_of_char_app.
Qed.

Lemma find_none c a : no_char c a → find a c 0 = npos.
Proof.
  intros Ha. unfold find. cbn [Z.to_nat]. by rewrite drop_string_0, index_of_char_None.
Qed.

(** [substr(0, find(c))]: the segment before the first [c], or everything. *)
Lemma substr_before c a b : no_char c a → substr (a +:+ String c b) 0 (find (a +:+ String c b) c 0) = Ok a.
Proof. intros Ha. rewrite find_app by done. apply substr_prefix. Qed.

Lemma substr_npos a : size_of a < npos → substr a 0 npos = Ok a.
Proof. intros H. exact (substr_suffix EmptyString a H). Qed.

Lemma no_char_app c a b : no_char c (a +:+ b) ↔ no_char c a ∧ no_char c b.
Proof.
  induction a as [|x a IH]; [cbn; tauto|]. rewrite append_cons. cbn. rewrite IH. tauto.
Qed.

(** Splitting at the first delimiter. *)
Lemma split_segment d a b :
  no_char d a → split (a +:+ String d b) d = a :: split b d.
Proof.
  induction a as [|x a IH]; cbn [no_char].
  - intros _. rewrite append_nil_l. cbn. by rewrite decide_True.
  - intros [Hx Ha]. rewrite append_cons. cbn. rewrite decide_False by done. by rewrite IH.
Qed.

Lemma split_last d a : no_char d a → a ≠ EmptyString → split a d = [a].
Proof.
  induction a as [|x a IH]; [done|]. intros [Hx Ha] _. cbn. rewrite decide_False by done.
  destruct a as [|y a]; [done|]. by rewrite IH.
Qed.

(** [split] undoes joining with the delimiter, as long as no part holds it and
    the last part is not empty. *)
Lemma split_join d l w :
  Forall (no_char d) l → no_char d w → w ≠ EmptyString →
  split (join (String d EmptyString) (l ++ [w])) d = l ++ [w].
Proof.
  intros Hl Hw Hne. induction Hl as [|a l Ha Hl IH]; cbn [app].
  - by apply split_last.
  - assert (join (String d EmptyString) (a :: l ++ [w])
            = a +:+ String d (join (String d EmptyString) (l ++ [w]))) as ->.
    { by destruct l. }
    by rewrite split_segment, IH.
Qed.

Lemma c_str_no_nul a : no_char nul a → c_str a = a.
Proof.
  induction a as [|c a IH]; [done|]. intros [Hc Ha]. cbn. rewrite decide_False by done.
  by rewrite IH.
Qed.

Lemma val_byte_of z : val_of (byte_of z) = u8 z.
Proof.
  unfold val_of, byte_of. pose proof (u8_bound z).
  rewrite N_ascii_embedding; [apply Z2N.id; lia | lia].
Qed.

Lemma byte_of_inj a b : 0 ≤ a < 256 → 0 ≤ b < 256 → byte_of a = byte_of b → a = b.
Proof.
  intros Ha Hb E. apply (f_equal val_of) in E. rewrite !val_byte_of in E.
  by rewrite !u8_small in E.
Qed.

Lemma val_digit n : 0 ≤ n < 10 → val_of (digit n) = 48 + n.
Proof. intros. unfold digit. rewrite val_byte_of. apply u8_small. lia. Qed.

Lemma is_digit_digit n : 0 ≤ n < 10 → is_digit (digit n) = true.
Proof. intros. unfold is_digit. rewrite val_digit by done. apply bool_decide_eq_true. lia. Qed.

(** [stoi] reads back what [std::to_string] prints. *)
Lemma read_digits_digit acc n s :
  0 ≤ n < 10 → read_digits acc (String (digit n) s) = read_digits (10 * acc + n) s.
Proof.
  intros Hn. cbn [read_digits]. rewrite is_digit_digit, val_digit by done. f_equal. lia.
Qed.

Lemma read_to_digits fuel n acc :
  0 ≤ n < 2 ^ Z.of_nat fuel → (0 < fuel)%nat →
  read_digits 0 (to_digits fuel n acc) = read_digits n acc.
Proof.
  revert n acc. induction fuel as [|fuel IH]; intros n acc Hn Hf; [lia|].
  cbn [to_digits]. pose proof (Z.mod_pos_bound n 10 ltac:(lia)).
  pose proof (Z.div_mod n 10 ltac:(lia)). case_decide as Hz.
  - rewrite read_digits_digit by done. f_equal. lia.
  - rewrite Nat2Z.inj_succ, Z.pow_succ_r in Hn by lia.
    assert (0 ≤ n / 10 < 2 ^ Z.of_nat fuel) by (split; [apply Z.div_pos; lia|]; lia).
    assert (fuel ≠ 0%nat) by (intros ->; cbn in *; lia).
    rewrite IH by (done || lia). rewrite read_digits_digit by done. f_equal. lia.
Qed.

Lemma log2_fuel n : 0 ≤ n → n < 2 ^ Z.of_nat (S (Z.to_nat (Z.log2 n))).
Proof.
  intros Hn. destruct (decide (n = 0)) as [->|]; [done|].
  rewrite Nat2Z.inj_succ, Z2Nat.id by apply Z.log2_nonneg. apply Z.log2_spec. lia.
Qed.

Lemma read_digits_to_string n : 0 ≤ n → read_digits 0 (to_string_nonneg n) = n.
Proof.
  intros Hn. unfold to_string_nonneg.
  rewrite read_to_digits; [done| |lia]. pose proof (log2_fuel n Hn). lia.
Qed.

(** Every character of a printed natural number is a digit. *)
Fixpoint all_digits (s : string) : Prop :=
  match s with
  | EmptyString => True
  | String c s' => is_digit c = true ∧ all_digits s'
  end.

Lemma to_digits_all fuel n acc : 0 ≤ n → all_digits acc → all_digits (to_digits fuel n acc).
Proof.
  revert n acc. induction fuel as [|fuel IH]; intros n acc Hn Ha; [done|]. cbn.
  pose proof (Z.mod_pos_bound n 10 ltac:(lia)).
  assert (all_digits (String (digit (n `mod` 10)) acc)) by (split; [by apply is_digit_digit|done]).
  case_decide; [done|]. apply IH; [apply Z.div_pos; lia | done].
Qed.

Lemma to_string_digits n : 0 ≤ n → all_digits (to_string_nonneg n).
Proof. intros. by apply to_digits_all. Qed.

Lemma to_digits_cons fuel n acc : (0 < fuel)%nat ∨ acc ≠ EmptyString → to_digits fuel n acc ≠ EmptyString.
Proof.
  revert n acc. induction fuel as [|fuel IH]; intros n acc H; cbn.
  - destruct H; [lia|done].
  - case_decide; [done|]. apply IH. by right.
Qed.

Lemma to_string_nonempty n : to_string_nonneg n ≠ EmptyString.
Proof. apply to_digits_cons. left. lia. Qed.

Lemma all_digits_no_char c s : is_digit c = false → all_digits s → no_char c s.
Proof.
  intros Hc. induction s as [|x s IH]; [done|]. intros [Hx Hs]. split; [congruence|auto].
Qed.

Lemma stoi_to_string n : 0 ≤ n < 2 ^ 31 → stoi (to_string n) = Ok n.
Proof.
  intros Hn. unfold to_string. rewrite decide_False by lia.
  pose proof (to_string_digits n ltac:(lia)) as Hd.
  pose proof (to_string_nonempty n) as Hne.
  pose proof (read_digits_to_string n ltac:(lia)) as Hr.
  destruct (to_string_nonneg n) as [|c s]; [done|]. destruct Hd as [Hc _].
  unfold stoi. cbn [skip_spaces].
  assert (is_space c = false) as ->.
  { unfold is_space, is_digit in *. rewrite bool_decide_eq_true in Hc.
    apply bool_decide_eq_false. lia. }
  rewrite decide_False by (intros ->; vm_compute in Hc; done).
  rewrite decide_False by (intros ->; vm_compute in Hc; done).
  unfold read_unsigned. rewrite Hc, Hr. cbn. unfold in_int. by rewrite decide_True by lia.
Qed.

Lemma to_string_no_char c n : 0 ≤ n → is_digit c = false → no_char c (to_string n).
Proof.
  intros Hn Hc. unfold to_string. rewrite decide_False by lia.
  by apply all_digits_no_char, to_string_digits.
Qed.

Lemma to_string_inj m n : 0 ≤ m → 0 ≤ n → to_string m = to_string n → m = n.
Proof.
  intros Hm Hn. unfold to_string. rewrite !decide_False by lia. intros E.
  by rewrite <- (read_digits_to_string m), <- (read_digits_to_string n), E.
Qed.

#[export] Hint Resolve to_string_nonempty size_of_nonneg : cpp.
#[export] Hint Rewrite size_of_app append_nil_r : cpp.
