(* ===== verification/CppDouble.v ===== *)
(** * [double]

    IEEE 754 binary64 as the Standard Library's [spec_float], with rounding to
    nearest even; no axiom is involved.  A decimal literal of the program is the
    correctly rounded quotient of two exact integers. *)

From Stdlib Require Export SpecFloat.
From S2P Require Import Prelude CppString.

(** ** Definitions *)

Abbreviation double := spec_float.

Definition prec : Z := 53.
Definition emax : Z := 1024.

#[export] Instance double_eq_dec : EqDecision double.
Proof. solve_decision. Defined.

Definition dadd : double → double → double := SFadd prec emax.
Definition dmul : double → double → double := SFmul prec emax.
Definition ddiv : double → double → double := SFdiv prec emax.

(** Conversion of an integer. *)
Definition double_of_Z (z : Z) : double := binary_normalize prec emax z 0 false.

(** A literal [num / den]. *)
Definition dlit (num den : Z) : double := ddiv (double_of_Z num) (double_of_Z den).

(** [a < b], [a > b], [a >= b], [a == b]; comparisons with a NaN are false. *)
Definition dlt (a b : double) : bool := SFltb a b.
Definition dgt (a b : double) : bool := SFltb b a.
Definition dge (a b : double) : bool := SFleb b a.

Definition dmax (a b : double) : double := if dlt a b then b else a.

Definition minus_infinity : double := S754_infinity true.

Definition not_nan (a : double) : Prop := a ≠ S754_nan.
#[export] Instance not_nan_dec a : Decision (not_nan a).
Proof. unfold not_nan. apply _. Defined.

(** [std::to_string(double)], which prints with ["%f"]: the exact value rounded to
    six decimals, half to even. *)
Definition round_div (a b : Z) : Z :=
  let q := a / b in
  let r := a `mod` b in
  if decide (2 * r < b) then q else if decide (b < 2 * r) then q + 1
  else if Z.even q then q else q + 1.

Definition micros (m : positive) (e : Z) : Z :=
  if decide (0 <= e) then Z.pos m * 2 ^ e * 1000000 else round_div (Z.pos m * 1000000) (2 ^ (- e)).

Fixpoint fixed_digits (width : nat) (n : Z) (acc : string) : string :=
  match width with
  | O => acc
  | S width => fixed_digits width (n / 10) (String (digit (n `mod` 10)) acc)
  end.

Definition to_string_double (d : double) : string :=
  match d with
  | S754_nan => "nan"
  | S754_infinity s => if s then "-inf" else "inf"
  | S754_zero s => (if s then "-" else "") +:+ "0.000000"
  | S754_finite s m e =>
      let n := micros m e in
      (if s then "-" else "") +:+ to_string (n / 1000000) +:+ "." +:+ fixed_digits 6 (n `mod` 1000000) ""
  end.

Lemma to_string_double_ex :
  to_string_double (dlit 3 2) = "1.500000" /\ to_string_double (dlit 1 10) = "0.100000" /\
  to_string_double (double_of_Z 12) = "12.000000".
Proof. vm_compute. done. Qed.

(** ** Lemmas *)

(** The comparison of numbers is the lexicographic order of a key. *)
Definition dkey (a : double) : Z * Z * Z :=
  match a with
  | S754_infinity true => (-2, 0, 0)
  | S754_finite true m e => (-1, - e, Z.neg m)
  | S754_zero _ | S754_nan => (0, 0, 0)
  | S754_finite false m e => (1, e, Z.pos m)
  | S754_infinity false => (2, 0, 0)
  end.

Definition key_lt (a b : Z * Z * Z) : Prop :=
  a.1.1 < b.1.1 ∨ (a.1.1 = b.1.1 ∧ (a.1.2 < b.1.2 ∨ (a.1.2 = b.1.2 ∧ a.2 < b.2))).

Lemma dlt_key a b : not_nan a → not_nan b → dlt a b = true ↔ key_lt (dkey a) (dkey b).
Proof.
  intros Ha Hb. unfold dlt, SFltb, SFcompare, key_lt.
  destruct a as [sa|sa| |sa ma ea], b as [sb|sb| |sb mb eb]; try (by destruct Ha); try (by destruct Hb);
    try destruct sa; try destruct sb; cbn; try (split; [done || lia|lia || done]).
  - destruct (Z.compare_spec ea eb); cbn; try (split; [done||lia|done||lia]).
    change (Pcompare ma mb Eq) with (ma ?= mb)%positive.
    destruct (Pos.compare_spec ma mb); cbn; split; done || lia.
  - destruct (Z.compare_spec ea eb); cbn; try (split; [done||lia|done||lia]).
    change (Pcompare ma mb Eq) with (ma ?= mb)%positive.
    destruct (Pos.compare_spec ma mb); cbn; split; done || lia.
Qed.

(** What a search for a maximum or a minimum relies on. *)
Lemma dlt_irrefl a : not_nan a → dlt a a = false.
Proof.
  intros Ha. apply not_true_is_false. rewrite dlt_key by done. unfold key_lt. lia.
Qed.

Lemma dlt_neg_trans a b c :
  not_nan a → not_nan b → not_nan c → dlt a b = false → dlt b c = false → dlt a c = false.
Proof.
  intros Ha Hb Hc H1 H2. apply not_true_is_false. intros H3.
  apply not_true_iff_false in H1, H2. rewrite dlt_key in H1, H2, H3 by done. unfold key_lt in *. lia.
Qed.

Lemma dlt_asym a b : not_nan a → not_nan b → dlt a b = true → dlt b a = false.
Proof.
  intros Ha Hb H1. apply not_true_is_false. intros H2.
  rewrite dlt_key in H1, H2 by done. unfold key_lt in *. lia.
Qed.

Lemma minus_infinity_least a : not_nan a → dlt a minus_infinity = false.
Proof.
  intros Ha. apply not_true_is_false. rewrite dlt_key by done. unfold key_lt.
  destruct a as [| [] | |[]]; cbn; lia.
Qed.
