(* ===== verification/Messages.v ===== *)
(** * Protocol messages

    The messages of [common/proto] the modelled components exchange, as records
    with the fields of the [.proto] files.  The classes protobuf generates for
    them are not sources of the repository: a handler takes the message that
    [ParseFromString] returns and sends message values.  Where the program itself
    stores serialized bytes in a field ([TriggerEntity.primitive],
    [TriggerOperationRequest.primitive]), serialization is the class [Message],
    with protobuf's documented round trip as its law.

    proto3 enums are open: a value outside the listed constants is kept, which
    the program's "unknown type" branches rely on. *)

From S2P Require Import Prelude CppString CppDouble.

(** ** common.proto *)

Inductive KVSError :=
| SUCCESS | BUCKET_NE | KEY_NE | SESSION_NE | KVS_ND | TYPE_NM | BUCKET_EXIST | REQ_TIMEOUT.

#[export] Instance KVSError_eq_dec : EqDecision KVSError.
Proof. solve_decision. Defined.

Record BucketKeyAddress := {
  bka_bucket : string;
  bka_key : string;
  bka_session : string;
  bka_ips : list string;
  bka_payload : string }.

Record BucketKeyTuple := {
  bkt_bucket : string;
  bkt_key : string;
  bkt_session : string }.

(** ** kvs.proto *)

Record KeyQueryRequest := {
  kqr_response_address : string;
  kqr_addresses : list BucketKeyAddress;
  kqr_request_id : string }.

Record KeyQueryResponse := {
  kqs_addresses : list BucketKeyAddress;
  kqs_error : KVSError;
  kqs_response_id : string }.

Record KeyNotifyRequest := {
  knr_response_address : string;
  knr_addresses : list BucketKeyAddress;
  knr_active_trigger_names : list string;
  knr_request_id : string }.

(** ** operation.proto: applications and calls *)

Inductive DependencyType :=
| DIRECT | MANY_TO_ONE | K_OUT_OF_N | PERIODIC | DependencyType_other (n : Z).

#[export] Instance DependencyType_eq_dec : EqDecision DependencyType.
Proof. solve_decision. Defined.

Record DataDependency := {
  dd_type : DependencyType;
  dd_src_functions : list string;
  dd_tgt_functions : list string;
  dd_description : string }.

Record AppRegistration := {
  ar_app_name : string;
  ar_functions : list string;
  ar_dependencies : list DataDependency }.

Record Argument := {
  arg_body : string;
  arg_arg_flag : Z;
  arg_data_address : string }.

Record FunctionRequest := {
  fr_name : string;
  fr_arguments : list Argument;
  fr_cpu_cores : double;
  fr_memory_mb : Z }.

Record FunctionCall := {
  fc_app_name : string;
  fc_requests : list FunctionRequest;
  fc_source : string;
  fc_request_id : string;
  fc_resp_address : string;
  fc_session_id : string;
  fc_sync_data_status : bool }.

Record FunctionCallResponse := {
  fcr_app_name : string;
  fcr_request_id : string;
  fcr_output : string;
  fcr_error_no : Z }.

#[export] Instance Argument_eq_dec : EqDecision Argument.
Proof. solve_decision. Defined.
#[export] Instance FunctionRequest_eq_dec : EqDecision FunctionRequest.
Proof. solve_decision. Defined.
#[export] Instance FunctionCall_eq_dec : EqDecision FunctionCall.
Proof. solve_decision. Defined.

Record CoordSync := {
  cs_public_ip : string;
  cs_private_ip : string;
  cs_thread_id : Z }.

Record CoordQuery := {
  cq_application : string;
  cq_request_id : string }.

Record CoordResponse := {
  cr_coord_ip : string;
  cr_thread_id : Z;
  cr_request_id : string }.

(** ** Primitives of triggers *)

Inductive PrimitiveType :=
| IMMEDIATE | BY_NAME | BY_BATCH_SIZE | BY_SET | DYNAMIC_GROUP | REDUNDANT | BY_TIME
| PrimitiveType_other (n : Z).

#[export] Instance PrimitiveType_eq_dec : EqDecision PrimitiveType.
Proof. solve_decision. Defined.

Record ImmediatePrimitive := { imp_function : string }.
Record ByNamePrimitive := { bnp_function : string; bnp_key_name : string }.
Record ByBatchSizePrimitive := { bbp_function : string; bbp_count : Z }.
Record BySetPrimitive := { bsp_function : string; bsp_key_set : list string }.
Record DynamicGroupPrimitive := { dgp_function : string; dgp_control_group : list string }.
Record RedundantPrimitive := { rdp_function : string; rdp_k : Z; rdp_n : Z }.
Record ByTimePrimitive := { btp_function : string; btp_time_window : Z }.

(** Serialization of one message type.  [ParseFromString] leaves a message in any
    case (the program ignores the returned flag); parsing what was serialized
    gives the message back when its [uint32] fields hold 32-bit values. *)
Class Message (M : Type) := {
  SerializeToString : M → string;
  ParseFromString : string → M;
  msg_ok : M → Prop;
  Parse_Serialize : ∀ m, msg_ok m → ParseFromString (SerializeToString m) = m }.

(** The serializers of the primitives, as one interface. *)
Class PrimitiveMessages := {
  pm_immediate :: Message ImmediatePrimitive;
  pm_by_name :: Message ByNamePrimitive;
  pm_by_batch_size :: Message ByBatchSizePrimitive;
  pm_by_set :: Message BySetPrimitive;
  pm_dynamic_group :: Message DynamicGroupPrimitive;
  pm_redundant :: Message RedundantPrimitive;
  pm_by_time :: Message ByTimePrimitive;
  pm_immediate_ok : ∀ m : ImmediatePrimitive, msg_ok m;
  pm_by_name_ok : ∀ m : ByNamePrimitive, msg_ok m;
  pm_by_batch_size_ok : ∀ m : ByBatchSizePrimitive, 0 ≤ bbp_count m < 2 ^ 32 → msg_ok m;
  pm_by_set_ok : ∀ m : BySetPrimitive, msg_ok m;
  pm_dynamic_group_ok : ∀ m : DynamicGroupPrimitive, msg_ok m;
  pm_redundant_ok : ∀ m : RedundantPrimitive,
    0 ≤ rdp_k m < 2 ^ 32 → 0 ≤ rdp_n m < 2 ^ 32 → msg_ok m;
  pm_by_time_ok : ∀ m : ByTimePrimitive, 0 ≤ btp_time_window m < 2 ^ 32 → msg_ok m }.

Record RerunHint := {
  rh_source_function : string;
  rh_source_key : string;
  rh_timeout : Z }.

Record TriggerEntity := {
  te_bucket_name : string;
  te_trigger_name : string;
  te_trigger_option : Z;
  te_primitive_type : PrimitiveType;
  te_primitive : string;
  te_session : string;
  te_hints : list RerunHint }.

Record UpdateCoordMsg := {
  ucm_ip : string;
  ucm_thread_id : Z;
  ucm_app_name : string;
  ucm_functions : list string;
  ucm_dependencies : list DataDependency;
  ucm_triggers : list TriggerEntity;
  ucm_msg_type : Z }.

Record UpdateStatusMessage := {
  usm_ip : string;
  usm_avail_executors : Z;
  usm_functions : list string }.

(** ** Bucket and trigger operations *)

Inductive BucketOperationType :=
| CREATE_BUCKET | DELETE_BUCKET | BucketOperationType_other (n : Z).

Inductive TriggerOperationType :=
| ADD_TRIGGER | DELETE_TRIGGER | TriggerOperationType_other (n : Z).

Record BucketOperationRequest := {
  bor_operation_type : BucketOperationType;
  bor_app_name : string;
  bor_bucket_name : string;
  bor_request_id : string;
  bor_response_address : string }.

(** Fields a handler does not set keep the default of the type: an [error] that
    is never set reads as [SUCCESS]. *)
Record BucketOperationResponse := {
  bos_bucket_name : string;
  bos_response_id : string;
  bos_error : KVSError }.

Record TriggerOperationRequest := {
  tor_operation_type : TriggerOperationType;
  tor_app_name : string;
  tor_bucket_name : string;
  tor_trigger_name : string;
  tor_trigger_option : Z;
  tor_primitive_type : PrimitiveType;
  tor_primitive : string;
  tor_request_id : string;
  tor_response_address : string;
  tor_hints : list RerunHint }.

Record TriggerOperationResponse := {
  tos_bucket_name : string;
  tos_trigger_name : string;
  tos_response_id : string;
  tos_error : KVSError }.

(** A message with every field at its default. *)
Definition empty_TriggerEntity : TriggerEntity := {|
  te_bucket_name := ""; te_trigger_name := ""; te_trigger_option := 0;
  te_primitive_type := IMMEDIATE; te_primitive := ""; te_session := ""; te_hints := [] |}.

Definition empty_UpdateCoordMsg : UpdateCoordMsg := {|
  ucm_ip := ""; ucm_thread_id := 0; ucm_app_name := ""; ucm_functions := [];
  ucm_dependencies := []; ucm_triggers := []; ucm_msg_type := 0 |}.

Definition empty_FunctionCall : FunctionCall := {|
  fc_app_name := ""; fc_requests := []; fc_source := ""; fc_request_id := "";
  fc_resp_address := ""; fc_session_id := ""; fc_sync_data_status := false |}.

(** ** anna.proto *)

Inductive RequestType := RT_UNSPECIFIED | GET | PUT.

Inductive LatticeType :=
| NONE | LWW | SET | SINGLE_CAUSAL | MULTI_CAUSAL | ORDERED_SET | PRIORITY.

Inductive AnnaError := NO_ERROR | KEY_DNE | WRONG_THREAD | TIMEOUT | LATTICE | NO_SERVERS.

#[export] Instance RequestType_eq_dec : EqDecision RequestType.
Proof. solve_decision. Defined.
#[export] Instance LatticeType_eq_dec : EqDecision LatticeType.
Proof. solve_decision. Defined.
#[export] Instance AnnaError_eq_dec : EqDecision AnnaError.
Proof. solve_decision. Defined.

Record KeyTuple := {
  kt_key : string;
  kt_lattice_type : LatticeType;
  kt_error : AnnaError;
  kt_payload : string;
  kt_address_cache_size : Z;
  kt_invalidate : bool }.

Record KeyRequest := {
  kreq_type : RequestType;
  kreq_tuples : list KeyTuple;
  kreq_response_address : string;
  kreq_request_id : string }.

Record KeyResponse := {
  kres_type : RequestType;
  kres_tuples : list KeyTuple;
  kres_response_id : string;
  kres_error : AnnaError }.

Record KeyAddressRequest := {
  kareq_response_address : string;
  kareq_keys : list string;
  kareq_request_id : string }.

Record KeyAddress := { ka_key : string; ka_ips : list string }.

Record KeyAddressResponse := {
  kares_addresses : list KeyAddress;
  kares_error : AnnaError;
  kares_response_id : string }.

Record LWWValue := { lwwv_timestamp : Z; lwwv_value : string }.

Record SetValue := { setv_values : list string }.

Record SingleKeyCausalValue := {
  skcv_vector_clock : gmap string Z;
  skcv_values : list string }.

Record KeyVersion := {
  kv_key : string;
  kv_vector_clock : gmap string Z }.

Record MultiKeyCausalValue := {
  mkcv_vector_clock : gmap string Z;
  mkcv_dependencies : list KeyVersion;
  mkcv_values : list string }.

(** A message sent to a socket of the [SocketCache], by the address it is looked up
    with; the data servers exchange raw bytes. *)
Inductive Payload :=
| MBucketOperationResponse (m : BucketOperationResponse)
| MTriggerOperationResponse (m : TriggerOperationResponse)
| MKeyQueryResponse (m : KeyQueryResponse)
| MUpdateCoordMsg (m : UpdateCoordMsg)
| MFunctionCall (m : FunctionCall)
| MFunctionCallResponse (m : FunctionCallResponse)
| MKeyNotifyRequest (m : KeyNotifyRequest)
| MUpdateStatusMessage (m : UpdateStatusMessage)
| MKeyQueryRequest (m : KeyQueryRequest)
| MCoordResponse (m : CoordResponse)
| MKeyRequest (m : KeyRequest)
| MKeyAddressRequest (m : KeyAddressRequest)
| MBytes (s : string).

Record Send := {
  send_to : string;
  send_msg : Payload }.

(** The serializers of the lattices' messages. *)
Class LatticeMessages := {
  lm_lww :: Message LWWValue;
  lm_set :: Message SetValue;
  lm_sk_causal :: Message SingleKeyCausalValue;
  lm_mk_causal :: Message MultiKeyCausalValue;
  lm_lww_ok : ∀ m : LWWValue, 0 ≤ lwwv_timestamp m < 2 ^ 64 → msg_ok m;
  lm_set_ok : ∀ m : SetValue, msg_ok m;
  lm_sk_causal_ok : ∀ m : SingleKeyCausalValue,
    map_Forall (λ _ n, 0 ≤ n < 2 ^ 32) (skcv_vector_clock m) → msg_ok m;
  lm_mk_causal_ok : ∀ m : MultiKeyCausalValue,
    map_Forall (λ _ n, 0 ≤ n < 2 ^ 32) (mkcv_vector_clock m) →
    Forall (λ d, map_Forall (λ _ n, 0 ≤ n < 2 ^ 32) (kv_vector_clock d)) (mkcv_dependencies m) →
    msg_ok m }.

Record PriorityValue := { prv_priority : double; prv_value : string }.

Class PriorityMessages := {
  prm_priority :: Message PriorityValue;
  prm_priority_ok : ∀ m : PriorityValue, msg_ok m }.

(** ** A serializer, for evaluation

    The classes above have instances: any countable message type has an injective
    encoding as a byte string. *)

Fixpoint bits_of_pos (p : positive) : string :=
  match p with
  | xH => EmptyString
  | xO p => String "0"%char (bits_of_pos p)
  | xI p => String "1"%char (bits_of_pos p)
  end.

Fixpoint pos_of_bits (s : string) : positive :=
  match s with
  | EmptyString => xH
  | String c s => if decide (c = "0"%char) then xO (pos_of_bits s) else xI (pos_of_bits s)
  end.

Lemma pos_of_bits_of_pos p : pos_of_bits (bits_of_pos p) = p.
Proof. induction p as [p IH|p IH|]; cbn [bits_of_pos pos_of_bits]; [| |done]; case_decide; congruence. Qed.

(** A message type that a countable type represents. *)
Definition mapped_message {A} `{EqDecision A, Countable A} {M} (f : M → A) (g : A → M)
    (gf : ∀ m, g (f m) = m) (d : M) : Message M := {|
  SerializeToString m := bits_of_pos (encode (f m));
  ParseFromString s := default d (g <$> decode (pos_of_bits s));
  msg_ok _ := True;
  Parse_Serialize m _ :=
    ltac:(cbn; rewrite pos_of_bits_of_pos, decode_encode; cbn; f_equal; apply gf) |}.

Definition bits_lattice_messages : LatticeMessages.
Proof.
  refine {|
    lm_lww := mapped_message (λ m, (lwwv_timestamp m, lwwv_value m))
      (λ p, {| lwwv_timestamp := p.1; lwwv_value := p.2 |}) _ {| lwwv_timestamp := 0; lwwv_value := "" |};
    lm_set := mapped_message setv_values (λ l, {| setv_values := l |}) _ {| setv_values := [] |};
    lm_sk_causal := mapped_message (λ m, (skcv_vector_clock m, skcv_values m))
      (λ p, {| skcv_vector_clock := p.1; skcv_values := p.2 |}) _
      {| skcv_vector_clock := ∅; skcv_values := [] |};
    lm_mk_causal := mapped_message
      (λ m, (mkcv_vector_clock m,
             map (λ d, (kv_key d, kv_vector_clock d)) (mkcv_dependencies m), mkcv_values m))
      (λ p, {| mkcv_vector_clock := p.1.1;
               mkcv_dependencies := map (λ d, {| kv_key := d.1; kv_vector_clock := d.2 |}) p.1.2;
               mkcv_values := p.2 |}) _
      {| mkcv_vector_clock := ∅; mkcv_dependencies := []; mkcv_values := [] |} |};
    try done.
  Unshelve.
  all: intros []; cbn; try done.
  f_equal. rewrite map_map. etransitivity; [|apply map_id]. by apply map_ext; intros [].
Defined.

Definition bits_primitive_messages : PrimitiveMessages.
Proof.
  refine {|
    pm_immediate := mapped_message imp_function (λ f, {| imp_function := f |}) _ {| imp_function := "" |};
    pm_by_name := mapped_message (λ m, (bnp_function m, bnp_key_name m))
      (λ p, {| bnp_function := p.1; bnp_key_name := p.2 |}) _
      {| bnp_function := ""; bnp_key_name := "" |};
    pm_by_batch_size := mapped_message (λ m, (bbp_function m, bbp_count m))
      (λ p, {| bbp_function := p.1; bbp_count := p.2 |}) _ {| bbp_function := ""; bbp_count := 0 |};
    pm_by_set := mapped_message (λ m, (bsp_function m, bsp_key_set m))
      (λ p, {| bsp_function := p.1; bsp_key_set := p.2 |}) _ {| bsp_function := ""; bsp_key_set := [] |};
    pm_dynamic_group := mapped_message (λ m, (dgp_function m, dgp_control_group m))
      (λ p, {| dgp_function := p.1; dgp_control_group := p.2 |}) _
      {| dgp_function := ""; dgp_control_group := [] |};
    pm_redundant := mapped_message (λ m, (rdp_function m, rdp_k m, rdp_n m))
      (λ p, {| rdp_function := p.1.1; rdp_k := p.1.2; rdp_n := p.2 |}) _
      {| rdp_function := ""; rdp_k := 0; rdp_n := 0 |};
    pm_by_time := mapped_message (λ m, (btp_function m, btp_time_window m))
      (λ p, {| btp_function := p.1; btp_time_window := p.2 |}) _
      {| btp_function := ""; btp_time_window := 0 |} |};
    try done.
  Unshelve. all: by intros [].
Defined.
