(* ===== verification/Common.v ===== *)
(** * [common.hpp]: object names, session ids, timestamps

    [BucketKey] and its encodings: the name of an object in shared memory is
    [bucket|key+session], with a session id of 16 bytes.  [gen_random] makes the
    session ids and [generate_timestamp] the timestamps of durable objects. *)

From S2P Require Import Prelude CppString Messages.

(** ** Definitions *)

Definition kDelimiterChar : ascii := "|"%char.
Definition kDelimiter : string := String kDelimiterChar EmptyString.
Definition msgDataPackingThreshold : Z := 1024.
Definition bucketNameDirectInvoc : string := "direct_invoc".
Definition emptyString : string := "".
Definition kvsKeyPrefix : string := "KVS".

Definition get_key_session_name (key session : string) : string := key +:+ session.

Definition get_local_object_name (bucket key session : string) : string :=
  bucket +:+ kDelimiter +:+ get_key_session_name key session.

Record BucketKey := {
  bucket_ : string;
  key_ : string;
  session_ : string }.

#[export] Instance BucketKey_eq_dec : EqDecision BucketKey.
Proof. solve_decision. Defined.

(** The constructor [BucketKey(bucket, session_key)]: the last 16 bytes are the
    session; a name of at most 16 bytes leaves both the key and the session
    empty. *)
Definition BucketKey_of_session_key (bucket session_key : string) : result BucketKey :=
  let key_size := size_of session_key in
  if decide (key_size > 16) then
    session ← substr session_key (key_size - 16) npos;
    key ← substr session_key 0 (key_size - 16);
    Ok {| bucket_ := bucket; key_ := key; session_ := session |}
  else Ok {| bucket_ := bucket; key_ := ""; session_ := "" |}.

Definition shm_key_name (bk : BucketKey) : string :=
  get_local_object_name (bucket_ bk) (key_ bk) (session_ bk).

(** [splitter_index + 1] wraps to 0 when there is no delimiter. *)
Definition get_bucket_key_from_string (key_name : string) : result BucketKey :=
  let splitter_index := find key_name kDelimiterChar 0 in
  bucket ← substr key_name 0 splitter_index;
  session_key ← substr key_name (u64 (splitter_index + 1)) npos;
  BucketKey_of_session_key bucket session_key.

(** The address message keeps its other fields. *)
(** [tp] is overwritten. *)
Definition get_tuple_from_bucket_key (bk : BucketKey) (tp : BucketKeyTuple) : BucketKeyTuple :=
  {| bkt_bucket := bucket_ bk; bkt_key := key_ bk; bkt_session := session_ bk |}.

Definition get_bucket_key_from_tuple (tuple : BucketKeyTuple) : BucketKey :=
  {| bucket_ := bkt_bucket tuple; key_ := bkt_key tuple; session_ := bkt_session tuple |}.

Definition get_addr_from_bucket_key (bk : BucketKey) (addr : BucketKeyAddress) : BucketKeyAddress :=
  {| bka_bucket := bucket_ bk; bka_key := key_ bk; bka_session := session_ bk;
     bka_ips := bka_ips addr; bka_payload := bka_payload addr |}.

Definition get_bucket_key_from_addr (addr : BucketKeyAddress) : BucketKey :=
  {| bucket_ := bka_bucket addr; key_ := bka_key addr; session_ := bka_session addr |}.

(** [rand_r] of libc: a value and the next seed. *)
Class Rand := {
  rand_r : Z → Z * Z;
  rand_r_bound : ∀ seed, 0 ≤ (rand_r seed).1 < 2 ^ 31 }.

(** A linear congruential generator, for evaluation. *)
#[refine] Definition lcg_rand : Rand := {|
  rand_r seed := let s := u32 (seed * 1103515245 + 12345) in (s / 2, s) |}.
Proof. intros seed. cbn. pose proof (u32_bound (seed * 1103515245 + 12345)). Z.div_mod_to_equations. lia. Defined.

Definition alpha_num : string :=
  "0123456789ABCDEFGHIJKLMNOPQRSTUVWXYZabcdefghijklmnopqrstuvwxyz".

Definition char_at (s : string) (i : Z) : ascii :=
  default nul (String.get (Z.to_nat i) s).

Fixpoint gen_random `{Rand} (seed : Z) (len : nat) : string * Z :=
  match len with
  | O => (EmptyString, seed)
  | S len =>
      let '(r, seed) := rand_r seed in
      let '(s, seed) := gen_random seed len in
      (String (char_at alpha_num (r `mod` size_of alpha_num)) s, seed)
  end.

(** The loop [while (id >= pow) pow *= 10] on [unsigned]; [None] is a loop that
    has not ended within the fuel. *)
Fixpoint timestamp_pow (fuel : nat) (id pow : Z) : option Z :=
  match fuel with
  | O => None
  | S fuel => if decide (id >= pow) then timestamp_pow fuel id (u32 (pow * 10)) else Some pow
  end.

(** [time] is the value of [get_time()], milliseconds since the epoch. *)
Definition generate_timestamp (time id : Z) : option Z :=
  pow ← timestamp_pow 11 id 10; Some (u64 (u64 (time * pow) + id)).

(** ** Lemmas *)

Lemma shm_key_name_unfold bk :
  shm_key_name bk = bucket_ bk +:+ String kDelimiterChar (key_ bk +:+ session_ bk).
Proof.
  unfold shm_key_name, get_local_object_name, kDelimiter, get_key_session_name.
  by rewrite append_cons, append_nil_l.
Qed.

Lemma BucketKey_of_session_key_app bucket key session :
  size_of session = 16 → key ≠ "" → size_of (key +:+ session) < npos →
  BucketKey_of_session_key bucket (key +:+ session)
  = Ok {| bucket_ := bucket; key_ := key; session_ := session |}.
Proof.
  intros Hs Hk Hn. unfold BucketKey_of_session_key. rewrite size_of_app, Hs.
  assert (0 < size_of key).
  { destruct key; [done|]. unfold size_of. cbn [String.length]. lia. }
  rewrite decide_True by lia.
  replace (size_of key + 16 - 16) with (size_of key) by lia.
  by rewrite substr_suffix, substr_prefix.
Qed.

Lemma append_String_assoc a c b : (a +:+ String c EmptyString) +:+ b = a +:+ String c b.
Proof. by rewrite append_assoc, append_cons, append_nil_l. Qed.

Lemma get_bucket_key_from_name bucket rest :
  no_char kDelimiterChar bucket →
  size_of (bucket +:+ String kDelimiterChar rest) < npos →
  get_bucket_key_from_string (bucket +:+ String kDelimiterChar rest)
  = BucketKey_of_session_key bucket rest.
Proof.
  intros Hb Hn. unfold get_bucket_key_from_string.
  rewrite substr_before by done. cbn [mbind result_bind]. rewrite find_app by done.
  rewrite size_of_app in Hn. pose proof (size_of_nonneg bucket).
  pose proof (size_of_nonneg (String kDelimiterChar rest)).
  rewrite u64_small by (unfold npos in *; lia).
  rewrite <- append_String_assoc.
  replace (size_of bucket + 1) with (size_of (bucket +:+ String kDelimiterChar EmptyString))
    by (by rewrite size_of_app).
  rewrite substr_suffix; [done|]. by rewrite append_String_assoc, size_of_app.
Qed.

(** ** Properties *)

(** parsing the shared-memory name of an object gives the object back, for a
    bucket name without the delimiter, a non-empty key and a 16-byte session. *)
Theorem bucket_key_roundtrip (bk : BucketKey) :
  no_char kDelimiterChar (bucket_ bk) → key_ bk ≠ "" → size_of (session_ bk) = 16 →
  size_of (shm_key_name bk) < npos →
  get_bucket_key_from_string (shm_key_name bk) = Ok bk.
Proof.
  destruct bk as [b k s]; cbn. intros Hb Hk Hs. rewrite shm_key_name_unfold; cbn. intros Hn.
  rewrite get_bucket_key_from_name by done.
  apply BucketKey_of_session_key_app; [done..|].
  rewrite size_of_app in Hn. pose proof (size_of_nonneg b).
  unfold size_of in *. cbn [String.length] in Hn. lia.
Qed.

Lemma bucket_key_roundtrip_witness :
  get_bucket_key_from_string (shm_key_name
    {| bucket_ := "b_sum"; key_ := "k|1"; session_ := "0123456789abcdef" |})
  = Ok {| bucket_ := "b_sum"; key_ := "k|1"; session_ := "0123456789abcdef" |}.
Proof. apply bucket_key_roundtrip; [evaluate | done | reflexivity | reflexivity]. Defined.

(** An object name whose key and session have at most 16 bytes together loses
    both: [BucketKey(bucket, session_key)] leaves them empty, so two such objects
    of a bucket have one [BucketKey] and one name in shared memory. *)
Theorem short_session_key_lost (bucket k1 k2 : string) :
  size_of k1 ≤ 16 → size_of k2 ≤ 16 →
  BucketKey_of_session_key bucket k1 = BucketKey_of_session_key bucket k2 ∧
  (shm_key_name <$> BucketKey_of_session_key bucket k1) = Ok (bucket +:+ kDelimiter).
Proof.
  intros H1 H2. unfold BucketKey_of_session_key. rewrite !decide_False by lia.
  split; [done|]. cbn. by rewrite shm_key_name_unfold.
Qed.

Lemma short_session_key_lost_witness :
  BucketKey_of_session_key "b" "total" = BucketKey_of_session_key "b" "count" ∧
  (shm_key_name <$> BucketKey_of_session_key "b" "total") = Ok ("b" +:+ kDelimiter).
Proof. apply short_session_key_lost; vm_compute; discriminate. Defined.

Lemma tuple_roundtrip bk tp : get_bucket_key_from_tuple (get_tuple_from_bucket_key bk tp) = bk.
Proof. by destruct bk. Qed.

Lemma addr_roundtrip bk addr : get_bucket_key_from_addr (get_addr_from_bucket_key bk addr) = bk.
Proof. by destruct bk. Qed.

(** The smallest power of ten above [id], for an id of at most nine digits. *)
Lemma timestamp_pow_spec id k fuel :
  0 ≤ id < 10 ^ 9 → 1 ≤ Z.of_nat k ≤ 9 → (10 ≤ k + fuel)%nat →
  (k = 1%nat ∨ 10 ^ (Z.of_nat k - 1) ≤ id) →
  ∃ j, timestamp_pow fuel id (10 ^ Z.of_nat k) = Some (10 ^ Z.of_nat j) ∧
       id < 10 ^ Z.of_nat j ∧ (k ≤ j ≤ 9)%nat ∧ (j = 1%nat ∨ 10 ^ (Z.of_nat j - 1) ≤ id).
Proof.
  intros Hid. revert k. induction fuel as [|fuel IH]; intros k Hk Hf Hlo; [lia|].
  cbn [timestamp_pow]. case_decide as Hge; [|exists k; repeat split; try done; lia].
  assert (Z.of_nat k ≠ 9) by (intros E; rewrite E in Hge; lia).
  replace (u32 (10 ^ Z.of_nat k * 10)) with (10 ^ Z.of_nat (S k)).
  2:{ rewrite Nat2Z.inj_succ, Z.pow_succ_r, Z.mul_comm by lia. symmetry. apply u32_small.
      assert (0 < 10 ^ Z.of_nat k ≤ 10 ^ 8)
        by (split; [apply Z.pow_pos_nonneg; lia | apply Z.pow_le_mono_r; lia]). lia. }
  destruct (IH (S k)) as (j & Hj & Hlt & Hr & Hl); [lia|lia| |].
  - right. replace (Z.of_nat (S k) - 1) with (Z.of_nat k) by lia. lia.
  - exists j. repeat split; try done; lia.
Qed.

Lemma generate_timestamp_value time id :
  0 ≤ id < 10 ^ 9 → 0 ≤ time → time * 10 ^ 9 + 10 ^ 9 < 2 ^ 64 →
  ∃ j, generate_timestamp time id = Some (time * 10 ^ Z.of_nat j + id) ∧
       id < 10 ^ Z.of_nat j ∧ (1 ≤ j ≤ 9)%nat ∧ (j = 1%nat ∨ 10 ^ (Z.of_nat j - 1) ≤ id).
Proof.
  intros Hid Ht Hb. destruct (timestamp_pow_spec id 1 11) as (j & Hj & Hlt & Hr & Hl);
    [done|lia|lia|by left|].
  exists j. split; [|done]. unfold generate_timestamp. change (10 ^ Z.of_nat 1) with 10 in Hj.
  rewrite Hj. cbn. f_equal.
  assert (0 < 10 ^ Z.of_nat j ≤ 10 ^ 9)
    by (split; [apply Z.pow_pos_nonneg; lia | apply Z.pow_le_mono_r; lia]).
  assert (0 ≤ time * 10 ^ Z.of_nat j ≤ time * 10 ^ 9) by nia.
  rewrite (u64_small (time * _)) by lia. apply u64_small. lia.
Qed.
