(* ===== verification/Lattices.v ===== *)
(** * The lattices of [common/include/lattices]

    Values of the durable store are merged by [do_merge]; a lattice type is the
    revealed element with its merge ([Lattice], lattice.hpp).  [JoinLaws] states
    what a merge promises to the lattices built on top of it: [MapLattice] is
    proved a join semilattice from the laws of its values only, which gives
    [VectorClock]. *)

From stdpp Require Import sorting.
From S2P Require Import Prelude CppString Common.

(** ** Definitions *)

(** [lattice.hpp]: the pure virtual [do_merge] of [Lattice<T>], the element left
    in [this] by merging [e] into it. *)
Class Lattice (T : Type) := do_merge : T → T → T.

(** The promise of a merge on the well-formed elements. *)
Class JoinLaws (T : Type) `{Lattice T} := {
  lat_ok : T → Prop;
  merge_ok : ∀ x y, lat_ok x → lat_ok y → lat_ok (do_merge x y);
  merge_assoc : ∀ x y z, lat_ok x → lat_ok y → lat_ok z →
    do_merge (do_merge x y) z = do_merge x (do_merge y z);
  merge_comm : ∀ x y, lat_ok x → lat_ok y → do_merge x y = do_merge y x;
  merge_idem : ∀ x, lat_ok x → do_merge x x = x }.

(** *** [BoolLattice] *)
Definition BoolLattice_do_merge (element e : bool) : bool := orb element e.

(** *** [MaxLattice<unsigned>]: the element is copied to an [int] first; comparing
    it with an [unsigned] converts it back. *)
Definition MaxLattice_do_merge (element e : Z) : Z :=
  let current := i32 element in
  if decide (u32 current < e) then e else element.

Definition MaxLattice_add (element n : Z) : Z := u32 (element + n).
Definition MaxLattice_subtract (element n : Z) : Z := u32 (element - n).

(** *** [SetLattice<string>] *)
Section set_lattice.
Context `{UnorderedIter}.

Definition SetLattice_do_merge (element e : gset string) : gset string :=
  foldl (λ s x, {[x]} ∪ s) element (set_iter e).

Definition SetLattice_insert (element : gset string) (e : string) : gset string :=
  {[e]} ∪ element.

Definition SetLattice_intersect (element s : gset string) : gset string :=
  foldl (λ res that_elem,
      foldl (λ res this_elem,
          if decide (this_elem = that_elem) then {[this_elem]} ∪ res else res)
        res (set_iter element))
    ∅ (set_iter s).

Definition SetLattice_size (element : gset string) : Z := u32 (Z.of_nat (size element)).

Definition SetLattice_project (f : string → bool) (element : gset string) : gset string :=
  foldl (λ res x, if f x then {[x]} ∪ res else res) ∅ (set_iter element).

End set_lattice.

(** *** [OrderedSetLattice<string>]: [ordered_set] is [std::set], which iterates in the
    order of its elements *)
Section ordered_set_lattice.

Definition ordered_iter (s : gset string) : list string := merge_sort String.le (elements s).

Definition OrderedSetLattice_do_merge (element e : gset string) : gset string :=
  foldl (λ s x, {[x]} ∪ s) element (ordered_iter e).

Definition OrderedSetLattice_size (element : gset string) : Z := u32 (Z.of_nat (size element)).

Definition OrderedSetLattice_insert (element : gset string) (e : string) : gset string := {[e]} ∪ element.

Definition OrderedSetLattice_intersect (element s : gset string) : gset string :=
  foldl (λ res that_elem,
      foldl (λ res this_elem,
          if decide (this_elem = that_elem) then {[this_elem]} ∪ res else res)
        res (ordered_iter element))
    ∅ (ordered_iter s).

Definition OrderedSetLattice_project (f : string → bool) (element : gset string) : gset string :=
  foldl (λ res x, if f x then {[x]} ∪ res else res) ∅ (ordered_iter element).

End ordered_set_lattice.

(** *** [MapLattice<string, V>] *)
Section map_lattice.
Context `{UnorderedIter} {V : Type} `{Lattice V}.

Definition insert_pair (element : gmap string V) (k : string) (v : V) : gmap string V :=
  match element !! k with
  | Some x => <[k := do_merge x v]> element
  | None => <[k := v]> element
  end.

Definition MapLattice_do_merge (element m : gmap string V) : gmap string V :=
  foldl (λ el p, insert_pair el p.1 p.2) element (map_iter m).

Definition MapLattice_project (f : V → bool) (element : gmap string V) : gmap string V :=
  foldl (λ res p, if f p.2 then
           (match res !! p.1 with Some _ => res | None => <[p.1 := p.2]> res end) else res)
    ∅ (map_iter element).

Definition MapLattice_contains (element : gmap string V) (k : string) : bool :=
  match element !! k with None => false | Some _ => true end.

Definition MapLattice_key_set (element : gmap string V) : gset string :=
  foldl (λ res p, {[p.1]} ∪ res) ∅ (map_iter element).

Definition MapLattice_size (element : gmap string V) : Z := u32 (Z.of_nat (size element)).

(** [at] is only called on keys that are there. *)
Definition MapLattice_intersect (element other : gmap string V) : gmap string V :=
  foldl (λ res p,
      match element !! p.1 with
      | Some v => insert_pair (insert_pair res p.1 v) p.1 p.2
      | None => res
      end)
    ∅ (map_iter other).

Definition MapLattice_remove (element : gmap string V) (k : string) : gmap string V :=
  match element !! k with Some _ => delete k element | None => element end.

End map_lattice.

#[export] Instance max_lattice : Lattice Z := MaxLattice_do_merge.
#[export] Instance set_lattice_inst `{UnorderedIter} : Lattice (gset string) := SetLattice_do_merge.
#[export] Instance map_lattice_inst `{UnorderedIter} {V} `{Lattice V} :
  Lattice (gmap string V) := MapLattice_do_merge.

(** [VectorClock] of the causal lattices: a map of [MaxLattice<unsigned>]. *)
Abbreviation VectorClock := (gmap string Z).

(** *** [LWWPairLattice<string>] *)
Record TimestampValuePair := { timestamp : Z; tv_value : string }.

#[export] Instance TimestampValuePair_eq_dec : EqDecision TimestampValuePair.
Proof. solve_decision. Defined.

Definition LWWPairLattice_do_merge (element p : TimestampValuePair) : TimestampValuePair :=
  if decide (timestamp p >= timestamp element) then p else element.

Definition TimestampValuePair_size (p : TimestampValuePair) : Z := u32 (Z.of_nat (String.length (tv_value p)) + 8).

(** *** The causal lattices, over [SetLattice<string>] *)
Record VectorClockValuePair := {
  sk_vector_clock : VectorClock;
  sk_value : gset string }.

Record MultiKeyCausalPayload := {
  mk_vector_clock : VectorClock;
  mk_dependencies : gmap string VectorClock;
  mk_value : gset string }.

Section causal.
Context `{UnorderedIter}.

Definition SingleKeyCausalLattice_do_merge (element p : VectorClockValuePair) : VectorClockValuePair :=
  let prev := sk_vector_clock element in
  let vc := do_merge (sk_vector_clock element) (sk_vector_clock p) in
  if decide (vc = sk_vector_clock p) then
    {| sk_vector_clock := vc; sk_value := sk_value p |}
  else if decide (vc ≠ prev) then
    {| sk_vector_clock := vc; sk_value := do_merge (sk_value element) (sk_value p) |}
  else {| sk_vector_clock := vc; sk_value := sk_value element |}.

Definition MultiKeyCausalLattice_do_merge (element p : MultiKeyCausalPayload) : MultiKeyCausalPayload :=
  let prev := mk_vector_clock element in
  let vc := do_merge (mk_vector_clock element) (mk_vector_clock p) in
  if decide (vc = mk_vector_clock p) then
    {| mk_vector_clock := vc; mk_dependencies := mk_dependencies p; mk_value := mk_value p |}
  else if decide (vc ≠ prev) then
    {| mk_vector_clock := vc;
       mk_dependencies := do_merge (mk_dependencies element) (mk_dependencies p);
       mk_value := do_merge (mk_value element) (mk_value p) |}
  else {| mk_vector_clock := vc; mk_dependencies := mk_dependencies element;
          mk_value := mk_value element |}.

(** The sizes they report: two words for every entry of a clock. *)
Definition VectorClock_bytes (vc : VectorClock) : Z := u64 (MapLattice_size vc * 2 * 4).

Definition MultiKeyCausalPayload_size (p : MultiKeyCausalPayload) : Z :=
  let dep_size := foldl (λ n d,
      u32 (u32 (n + Z.of_nat (String.length d.1)) + VectorClock_bytes d.2)) 0 (map_iter (mk_dependencies p)) in
  u32 (VectorClock_bytes (mk_vector_clock p) + dep_size + SetLattice_size (mk_value p)).

Definition VectorClockValuePair_size (p : VectorClockValuePair) : Z :=
  u32 (VectorClock_bytes (sk_vector_clock p) + SetLattice_size (sk_value p)).

End causal.

(** *** [PriorityLattice<P, V, Compare>]: the smaller priority wins *)
Record PriorityValuePair (P : Type) := { priority : P; pv_value : string }.
Arguments priority {P} _.
Arguments pv_value {P} _.

Definition PriorityValuePair_size {P} (sizeof_P : Z) (p : PriorityValuePair P) : Z :=
  u32 (sizeof_P + Z.of_nat (String.length (pv_value p))).

Definition PriorityLattice_do_merge {P} (compare : P → P → bool)
    (element p : PriorityValuePair P) : PriorityValuePair P :=
  if compare (priority p) (priority element) then p else element.

(** ** Lemmas *)

Section loops.
Context `{UnorderedIter}.

Lemma SetLattice_merge_union (s e : gset string) : SetLattice_do_merge s e = s ∪ e.
Proof.
  unfold SetLattice_do_merge. rewrite <- (set_iter_list_to_set e) at 2.
  apply (foldl_ind (λ pre acc, acc = s ∪ list_to_set pre)); [set_solver|].
  intros pre a s1 ->. rewrite list_to_set_app_L. set_solver.
Qed.

Lemma SetLattice_project_filter f s x :
  x ∈ SetLattice_project f s ↔ x ∈ s ∧ f x = true.
Proof.
  unfold SetLattice_project. rewrite <- (set_iter_elem s).
  apply (foldl_ind (λ pre res, x ∈ res ↔ x ∈ pre ∧ f x = true)); [set_solver|].
  intros pre a s1 IH. rewrite elem_of_app, list_elem_of_singleton.
  destruct (f a) eqn:E; [set_solver | naive_solver congruence].
Qed.

Lemma SetLattice_intersect_spec s1 s2 : SetLattice_intersect s1 s2 = s1 ∩ s2.
Proof.
  apply set_eq. intros x. unfold SetLattice_intersect.
  rewrite elem_of_intersection, <- (set_iter_elem s2).
  apply (foldl_ind (λ pre res, x ∈ res ↔ x ∈ s1 ∧ x ∈ pre)); [set_solver|].
  intros pre a res IH. rewrite elem_of_app, list_elem_of_singleton.
  assert (x ∈ foldl (λ res this_elem, if decide (this_elem = a) then {[this_elem]} ∪ res else res)
              res (set_iter s1) ↔ x ∈ res ∨ (x = a ∧ x ∈ s1)) as ->; [|naive_solver].
  rewrite <- (set_iter_elem s1).
  apply (foldl_ind (λ pre acc, x ∈ acc ↔ x ∈ res ∨ (x = a ∧ x ∈ pre))); [set_solver|].
  intros pre' b acc IH'. case_decide; set_solver.
Qed.

(** The loops do not depend on the order of iteration: those of [OrderedSetLattice] are
    those of [SetLattice] with another order. *)
Lemma ordered_iter_perm s : ordered_iter s ≡ₚ elements s.
Proof. apply merge_sort_Permutation. Qed.

Lemma ordered_iter_sorted s : StronglySorted String.le (ordered_iter s).
Proof. apply StronglySorted_merge_sort; apply _. Qed.

Lemma ordered_iter_elem s x : x ∈ ordered_iter s ↔ x ∈ s.
Proof. rewrite ordered_iter_perm. apply elem_of_elements. Qed.

Lemma OrderedSetLattice_merge_union s e : OrderedSetLattice_do_merge s e = s ∪ e.
Proof.
  unfold OrderedSetLattice_do_merge. apply set_eq. intros x. rewrite elem_of_union, <- (ordered_iter_elem e).
  apply (foldl_ind (λ pre acc, x ∈ acc ↔ x ∈ s ∨ x ∈ pre)); [set_solver|].
  intros pre a acc IH. set_solver.
Qed.

Lemma foldl_insert_pair_lookup {V} `{Lattice V} (l : list (string * V)) m k :
  NoDup l.*1 →
  foldl (λ el p, insert_pair el p.1 p.2) m l !! k
  = union_with (λ x v, Some (do_merge x v)) (m !! k) ((list_to_map l : gmap string V) !! k).
Proof.
  revert m. induction l as [|[k' v] l IH]; intros m; cbn.
  { intros _. rewrite lookup_empty. by destruct (m !! k). }
  intros [Hk Hl]%NoDup_cons. rewrite IH by done.
  assert ((list_to_map l : gmap string V) !! k' = None) as Hn
    by (by apply not_elem_of_list_to_map_1).
  destruct (decide (k' = k)) as [->|].
  - rewrite Hn, lookup_insert_eq. unfold insert_pair.
    destruct (m !! k) eqn:E; by rewrite lookup_insert_eq.
  - rewrite lookup_insert_ne by done. unfold insert_pair.
    destruct (m !! k') eqn:E; by rewrite lookup_insert_ne.
Qed.

(** Whatever the iteration order, a map merge is the pointwise merge. *)
Lemma MapLattice_merge_lookup {V} `{Lattice V} (m e : gmap string V) k :
  MapLattice_do_merge m e !! k
  = union_with (λ x v, Some (do_merge x v)) (m !! k) (e !! k).
Proof.
  unfold MapLattice_do_merge. rewrite foldl_insert_pair_lookup by apply map_iter_NoDup.
  f_equal. transitivity ((list_to_map (map_to_list e) : gmap string V) !! k);
    [|by rewrite list_to_map_to_list].
  f_equal. apply list_to_map_proper; [apply map_iter_NoDup | apply map_iter_perm].
Qed.

Lemma MapLattice_key_set_dom {V} (m : gmap string V) : MapLattice_key_set m = dom m.
Proof.
  apply set_eq. intros k. unfold MapLattice_key_set.
  transitivity (k ∈ (map_iter m).*1).
  - apply (foldl_ind (λ pre res, k ∈ res ↔ k ∈ pre.*1)); [set_solver|].
    intros pre a res IH. rewrite fmap_app, elem_of_app. set_solver.
  - rewrite list_elem_of_fmap, elem_of_dom. split.
    + intros ([k' v] & -> & Hin%map_iter_elem). eauto.
    + intros [v Hv%map_iter_elem]. by exists (k, v).
Qed.

Lemma MapLattice_contains_spec {V} (m : gmap string V) k :
  MapLattice_contains m k = bool_decide (k ∈ MapLattice_key_set m).
Proof.
  rewrite MapLattice_key_set_dom. unfold MapLattice_contains. symmetry.
  destruct (m !! k) eqn:E.
  - apply bool_decide_eq_true, elem_of_dom. eauto.
  - apply bool_decide_eq_false, not_elem_of_dom. done.
Qed.

End loops.

(** ** Join laws of the instances *)

#[export] Instance bool_lattice : Lattice bool := BoolLattice_do_merge.

#[export, refine] Instance bool_join : JoinLaws bool := {| lat_ok _ := True |}.
Proof. all: intros; repeat match goal with b : bool |- _ => destruct b end; done. Defined.

Lemma MaxLattice_merge_max a e :
  0 ≤ a < 2 ^ 32 → MaxLattice_do_merge a e = a `max` e.
Proof.
  intros Ha. unfold MaxLattice_do_merge.
  assert (u32 (i32 a) = a) as ->.
  { unfold i32, u32. rewrite Zminus_mod, Zmod_mod, <- Zminus_mod.
    replace (a + 2 ^ 31 - 2 ^ 31) with a by lia. by apply Z.mod_small. }
  case_decide; lia.
Qed.

#[export, refine] Instance max_join : JoinLaws Z := {| lat_ok z := 0 ≤ z < 2 ^ 32 |}.
Proof.
  all: intros; unfold do_merge, max_lattice; rewrite ?MaxLattice_merge_max;
    try lia; rewrite ?MaxLattice_merge_max; lia.
Defined.

#[export, refine] Instance set_join `{UnorderedIter} : JoinLaws (gset string) := {| lat_ok _ := True |}.
Proof.
  all: intros; unfold do_merge, set_lattice_inst; rewrite ?SetLattice_merge_union; set_solver.
Defined.

Section map_join.
Context `{UnorderedIter} {V : Type} `{Lattice V, !JoinLaws V}.

Definition map_ok (m : gmap string V) : Prop := map_Forall (λ _ v, lat_ok v) m.

(** Pointwise reasoning about map merges, with the laws of the values. *)
Local Ltac pointwise :=
  unfold do_merge at 1, map_lattice_inst; try apply map_eq; intros;
  unfold do_merge, map_lattice_inst; rewrite ?MapLattice_merge_lookup;
  repeat match goal with
  | Hm : map_ok ?m |- context [?m !! ?k] =>
      let E := fresh "E" in let Hk := fresh in
      pose proof (Hm k) as Hk; destruct (m !! k) eqn:E; [specialize (Hk _ eq_refl)|]; clear Hm E
  end; cbn; try done; f_equal.

Lemma map_merge_ok m1 m2 : map_ok m1 → map_ok m2 → map_ok (MapLattice_do_merge m1 m2).
Proof.
  intros H1 H2 k v. rewrite MapLattice_merge_lookup.
  destruct (m1 !! k) eqn:E1, (m2 !! k) eqn:E2; cbn; intros; simplify_eq; eauto using merge_ok.
Qed.

#[export, refine] Instance map_join : JoinLaws (gmap string V) := {| lat_ok := map_ok |}.
Proof.
  - apply map_merge_ok.
  - intros x y z Hx Hy Hz. pointwise. by apply merge_assoc.
  - intros x y Hx Hy. pointwise. by apply merge_comm.
  - intros x Hx. pointwise. by apply merge_idem.
Defined.

End map_join.

(** Replicas that merge the same updates, in any order and any number of times,
    hold the same element. *)
Section convergence.
Context {T : Type} `{Lattice T, !JoinLaws T}.

Implicit Types (x : T) (l : list T).

Lemma merges_ok x l : lat_ok x → Forall lat_ok l → lat_ok (foldl do_merge x l).
Proof. intros Hx Hl. revert x Hx. induction Hl; cbn; eauto using merge_ok. Qed.

Lemma merges_swap x l u :
  lat_ok x → Forall lat_ok l → lat_ok u →
  do_merge (foldl do_merge x l) u = foldl do_merge (do_merge x u) l.
Proof.
  intros Hx Hl Hu. revert x Hx. induction Hl as [|v l Hv Hl IH]; intros x Hx; cbn; [done|].
  rewrite IH by eauto using merge_ok. f_equal.
  rewrite !merge_assoc by done. f_equal. by apply merge_comm.
Qed.

Lemma merges_absorb x l u :
  lat_ok x → Forall lat_ok l → u ∈ l → do_merge (foldl do_merge x l) u = foldl do_merge x l.
Proof.
  intros Hx Hl. revert x Hx. induction Hl as [|v l Hv Hl IH]; intros x Hx Hu; [set_solver|].
  cbn. apply elem_of_cons in Hu as [->|Hu]; [|eauto using merge_ok].
  rewrite merges_swap by eauto using merge_ok. f_equal.
  rewrite merge_assoc by done. f_equal. by apply merge_idem.
Qed.

Lemma merges_absorb_all x l l' :
  lat_ok x → Forall lat_ok l → l' ⊆ l →
  foldl do_merge (foldl do_merge x l) l' = foldl do_merge x l.
Proof.
  intros Hx Hl. induction l' as [|u l' IH]; intros Hsub; cbn; [done|].
  rewrite merges_absorb by set_solver. apply IH. set_solver.
Qed.

Lemma merges_comm x l l' :
  lat_ok x → Forall lat_ok l → Forall lat_ok l' →
  foldl do_merge (foldl do_merge x l) l' = foldl do_merge (foldl do_merge x l') l.
Proof.
  intros Hx Hl Hl'. revert x Hx. induction Hl' as [|u l' Hu Hl' IH]; intros x Hx; cbn; [done|].
  rewrite merges_swap by done. apply IH. eauto using merge_ok.
Qed.

Lemma merges_converge x l l' :
  lat_ok x → Forall lat_ok l → Forall lat_ok l' → l ⊆ l' → l' ⊆ l →
  foldl do_merge x l = foldl do_merge x l'.
Proof.
  intros Hx Hl Hl' H1 H2.
  rewrite <- (merges_absorb_all x l l') by done.
  rewrite <- (merges_absorb_all x l' l) by done.
  by apply merges_comm.
Qed.

End convergence.

(** The intersection of maps has the keys of both, with the values merged. *)
Lemma MapLattice_intersect_lookup `{UnorderedIter} {V} `{Lattice V} (m1 m2 : gmap string V) k :
  MapLattice_intersect m1 m2 !! k = (v1 ← m1 !! k; v2 ← m2 !! k; Some (do_merge v1 v2)).
Proof.
  unfold MapLattice_intersect. pose proof (map_iter_NoDup m2) as Hnd.
  assert (Hm : m2 !! k = (list_to_map (map_iter m2) : gmap string V) !! k).
  { rewrite <- (list_to_map_to_list m2) at 1. f_equal. symmetry. apply list_to_map_proper; [done|apply map_iter_perm]. }
  rewrite Hm. clear Hm.
  assert (Hgen : ∀ res, (∀ j, j ∈ (map_iter m2).*1 → res !! j = None) →
    foldl (λ res p, match m1 !! p.1 with Some v => insert_pair (insert_pair res p.1 v) p.1 p.2 | None => res end) res
      (map_iter m2) !! k =
    match res !! k with Some x => Some x | None => v1 ← m1 !! k; v2 ← (list_to_map (map_iter m2) : gmap string V) !! k; Some (do_merge v1 v2) end).
  { induction (map_iter m2) as [|[j v] l IH]; intros res Hres; cbn.
    - rewrite lookup_empty. by destruct (res !! k), (m1 !! k).
    - cbn in Hnd, Hres. apply NoDup_cons in Hnd as [Hj Hnd].
      assert (Hnone : res !! j = None) by (apply Hres; left).
      rewrite IH; [|done|].
      + destruct (m1 !! j) as [w|] eqn:Ej; unfold insert_pair; rewrite ?Hnone, ?lookup_insert_eq, ?insert_insert_eq;
          (destruct (decide (j = k)) as [->|Hjk];
           [rewrite ?lookup_insert_eq, ?Hnone, ?Ej; cbn; rewrite ?lookup_insert_eq; done
           |rewrite ?lookup_insert_ne by done; done]).
      + intros i Hi. assert (i ≠ j) by (by intros ->). specialize (Hres i ltac:(by right)).
        destruct (m1 !! j); [|done]. unfold insert_pair. rewrite Hnone, lookup_insert_eq, insert_insert_eq.
        by rewrite lookup_insert_ne. }
  rewrite Hgen; [by rewrite lookup_empty|]. intros j _. apply lookup_empty.
Qed.

(** ** Properties *)

(** The causal order of two clocks. *)
Definition vc_le (a b : VectorClock) : Prop :=
  map_Forall (λ k n, ∃ m, b !! k = Some m ∧ n ≤ m) a.

Definition vc_ok : VectorClock → Prop := map_Forall (λ _ n, 0 ≤ n < 2 ^ 32).

Section vector_clocks.
Context `{UnorderedIter}.

Lemma vc_merge_lookup (a b : VectorClock) k :
  vc_ok a → MapLattice_do_merge a b !! k = union_with (λ x y, Some (x `max` y)) (a !! k) (b !! k).
Proof.
  intros Ha. rewrite MapLattice_merge_lookup. destruct (a !! k) eqn:E, (b !! k); cbn; try done.
  f_equal. apply MaxLattice_merge_max, (Ha k _ E).
Qed.

Lemma vc_merge_dominated (a b : VectorClock) :
  vc_ok a → MapLattice_do_merge a b = b ↔ vc_le a b.
Proof.
  intros Ha. split.
  - intros <- k n Hk. rewrite vc_merge_lookup, Hk by done. destruct (b !! k); cbn; eexists; split; try done; lia.
  - intros Hle. apply map_eq. intros k. rewrite vc_merge_lookup by done.
    destruct (a !! k) as [n|] eqn:E; [|by destruct (b !! k)].
    destruct (Hle k n E) as (m & -> & Hm). cbn. f_equal. lia.
Qed.

Lemma vc_merge_dominates (a b : VectorClock) :
  vc_ok a → MapLattice_do_merge a b = a ↔ vc_le b a.
Proof.
  intros Ha. split.
  - intros Heq k n Hk. rewrite <- Heq, vc_merge_lookup, Hk by done.
    destruct (a !! k); cbn; eexists; split; try done; lia.
  - intros Hle. apply map_eq. intros k. rewrite vc_merge_lookup by done.
    destruct (b !! k) as [n|] eqn:E; [|by destruct (a !! k)].
    destruct (Hle k n E) as (m & -> & Hm). cbn. f_equal. lia.
Qed.

(** The merge is the least upper bound. *)
Lemma vc_le_trans (a b c : VectorClock) : vc_le a b → vc_le b c → vc_le a c.
Proof. intros Hab Hbc k n Hk. destruct (Hab k n Hk) as (m & Hm & ?). destruct (Hbc k m Hm) as (o & Ho & ?). exists o. split; [done|lia]. Qed.

Lemma vc_le_merge (a b : VectorClock) :
  vc_ok a → vc_le a (MapLattice_do_merge a b) ∧ vc_le b (MapLattice_do_merge a b).
Proof.
  intros Ha. split; intros k n Hk; rewrite vc_merge_lookup, Hk by done; [destruct (b !! k)|destruct (a !! k)];
    cbn; eexists; split; try done; lia.
Qed.

Lemma vc_merge_lub (a b u : VectorClock) : vc_ok a → vc_le a u → vc_le b u → vc_le (MapLattice_do_merge a b) u.
Proof.
  intros Ha Hau Hbu k n. rewrite vc_merge_lookup by done.
  destruct (a !! k) as [x|] eqn:Ea, (b !! k) as [y|] eqn:Eb; cbn; intros [= <-].
  - destruct (Hau k x Ea) as (m & Hm & ?), (Hbu k y Eb) as (m' & Hm' & ?). rewrite Hm in Hm'. injection Hm' as <-.
    exists m. split; [done|lia].
  - by apply Hau.
  - by apply Hbu.
Qed.

Lemma merges_lub (vc : VectorClock) (l : list VectorClock) :
  Forall vc_ok (vc :: l) →
  Forall (λ c, vc_le c (foldl MapLattice_do_merge vc l)) (vc :: l) ∧
  ∀ u, Forall (λ c, vc_le c u) (vc :: l) → vc_le (foldl MapLattice_do_merge vc l) u.
Proof.
  revert vc. induction l as [|c l IH]; intros vc [Hvc Hl]%Forall_cons; cbn [foldl].
  - split; [|by intros u [? _]%Forall_cons]. constructor; [|done]. intros k n Hk. by exists n.
  - apply Forall_cons in Hl as [Hc Hl]. destruct (vc_le_merge vc c Hvc) as [H1 H2].
    destruct (IH (MapLattice_do_merge vc c)) as [[Hup Hall]%Forall_cons Hleast].
    { constructor; [|done]. intros k n. rewrite vc_merge_lookup by done.
      specialize (Hvc k). specialize (Hc k). destruct (vc !! k), (c !! k); cbn; intros [= <-]; auto.
      specialize (Hvc _ eq_refl). specialize (Hc _ eq_refl). cbn in *. lia. }
    split.
    + repeat (constructor; [by eapply vc_le_trans|]). done.
    + intros u [Hu [Huc Hul]%Forall_cons]%Forall_cons. apply Hleast. constructor; [by apply vc_merge_lub|done].
Qed.

End vector_clocks.

(** C39: replicas of a [VectorClock] that received the same clocks, in whatever
    order and however often, agree, and what they agree on is the least clock above the
    one they started with and all that were received: a key is there exactly when one of
    these has it, with the largest of their counts. *)
Theorem vector_clock_replicas_agree `{UnorderedIter} (vc : VectorClock) (l l' : list VectorClock) :
  Forall (map_Forall (λ _ n, 0 ≤ n < 2 ^ 32)) (vc :: l ++ l') → l ⊆ l' → l' ⊆ l →
  let r := foldl MapLattice_do_merge vc l in
  r = foldl MapLattice_do_merge vc l' ∧
  Forall (λ c, vc_le c r) (vc :: l) ∧ (∀ u, Forall (λ c, vc_le c u) (vc :: l) → vc_le r u).
Proof.
  intros [Hvc [Hl Hl']%Forall_app]%Forall_cons H1 H2 r. split.
  - exact (merges_converge vc l l' Hvc Hl Hl' H1 H2).
  - apply merges_lub. by constructor.
Qed.

Lemma vector_clock_replicas_agree_witness :
  let a : VectorClock := {["x" := 3]} in
  let b : VectorClock := {["y" := 2 ^ 32 - 1; "x" := 1]} in
  let r := foldl (@MapLattice_do_merge sorted_iter _ _) ∅ [a; b; a] in
  r = {["x" := 3; "y" := 2 ^ 32 - 1]} ∧
  r = foldl (@MapLattice_do_merge sorted_iter _ _) ∅ [b; a] ∧
  Forall (λ c, vc_le c r) [∅; a; b; a] ∧ (∀ u, Forall (λ c, vc_le c u) [∅; a; b; a] → vc_le r u).
Proof.
  intros a b r. split; [by vm_compute|]. apply (@vector_clock_replicas_agree sorted_iter ∅ [a; b; a] [b; a]);
    [evaluate|set_solver..].
Defined.

(** A last-writer-wins value that received a set of timestamped writes holds
    the write with the greatest timestamp, in whatever order they arrived; among
    equal timestamps the last to arrive stays. *)
Theorem lww_holds_latest (e : TimestampValuePair) (l : list TimestampValuePair) :
  let r := foldl LWWPairLattice_do_merge e l in
  ∃ l1 l2, e :: l = l1 ++ r :: l2 ∧
    Forall (λ p, timestamp p ≤ timestamp r) l1 ∧ Forall (λ p, timestamp p < timestamp r) l2.
Proof.
  cbn. induction l as [|p l (l1 & l2 & Hl & H1 & H2)] using rev_ind; [by exists [], []|].
  rewrite foldl_app. cbn. set (r := foldl _ e l) in *.
  change (LWWPairLattice_do_merge r p) with (if decide (timestamp p >= timestamp r) then p else r).
  case_decide as Hp.
  - exists (e :: l), []. split; [done|]. split; [|done]. rewrite Hl.
    rewrite Forall_app, Forall_cons. split_and!; [eapply Forall_impl; [exact H1|]|lia|
      eapply Forall_impl; [exact H2|]]; cbn; intros; lia.
  - exists l1, (l2 ++ [p]). rewrite app_comm_cons, Hl, <- app_assoc. split; [done|].
    split; [done|]. rewrite Forall_app, Forall_singleton. split; [done|lia].
Qed.

Lemma lww_holds_latest_sanity :
  tv_value (foldl LWWPairLattice_do_merge {| timestamp := 3; tv_value := "a" |}
    [{| timestamp := 7; tv_value := "b" |}; {| timestamp := 5; tv_value := "c" |};
     {| timestamp := 7; tv_value := "d" |}]) = "d".
Proof. reflexivity. Qed.

(** merging a causal value keeps the causally later one, and keeps both values
    under the join of the clocks exactly when they are concurrent. *)
Theorem sk_causal_merge_causal `{UnorderedIter} (e p : VectorClockValuePair) :
  vc_ok (sk_vector_clock e) →
  (vc_le (sk_vector_clock e) (sk_vector_clock p) → SingleKeyCausalLattice_do_merge e p = p) ∧
  (¬ vc_le (sk_vector_clock e) (sk_vector_clock p) →
     vc_le (sk_vector_clock p) (sk_vector_clock e) → SingleKeyCausalLattice_do_merge e p = e) ∧
  (¬ vc_le (sk_vector_clock e) (sk_vector_clock p) →
     ¬ vc_le (sk_vector_clock p) (sk_vector_clock e) →
     sk_value (SingleKeyCausalLattice_do_merge e p) = sk_value e ∪ sk_value p ∧
     ∀ k, sk_vector_clock (SingleKeyCausalLattice_do_merge e p) !! k
          = union_with (λ x y, Some (x `max` y)) (sk_vector_clock e !! k) (sk_vector_clock p !! k)).
Proof.
  intros He. unfold SingleKeyCausalLattice_do_merge, do_merge, map_lattice_inst, set_lattice_inst.
  rewrite <- vc_merge_dominated, <- vc_merge_dominates by done.
  destruct e as [ve se], p as [vp sp]; cbn in *.
  split_and!; intros H1; [by rewrite decide_True, H1 | intros H2..].
  - by rewrite decide_False, decide_False, H2 by tauto.
  - rewrite decide_False, decide_True by done; cbn. split.
    + apply SetLattice_merge_union.
    + intros k. by apply vc_merge_lookup.
Qed.

Lemma sk_causal_merge_causal_witness :
  let e := {| sk_vector_clock := {["x" := 1]}; sk_value := {["A"]} |} in
  let p := {| sk_vector_clock := {["y" := 1]}; sk_value := {["B"]} |} in
  sk_value (@SingleKeyCausalLattice_do_merge sorted_iter e p) = {["A"; "B"]}.
Proof.
  intros e p. apply (@sk_causal_merge_causal sorted_iter e p); [evaluate|..];
    unfold vc_le; intros Hle; [specialize (Hle "x" 1 eq_refl) | specialize (Hle "y" 1 eq_refl)];
    destruct Hle as (m & Hm & _); discriminate Hm.
Defined.
