(* ===== verification/Serialization.v ===== *)
(** * Serialization of lattices ([common.hpp])

    The payload of a durable object is a lattice in its protobuf message
    ([serialize], [deserialize_*], [to_vector_clock_value_pair],
    [to_multi_key_causal_payload]). *)

From stdpp Require Import sorting.
From S2P Require Import Prelude CppString CppDouble Messages Lattices.

(** ** Definitions *)

Section serialization.
Context `{UnorderedIter, LatticeMessages}.

Definition serialize_lww (l : TimestampValuePair) : string :=
  SerializeToString {| lwwv_timestamp := timestamp l; lwwv_value := tv_value l |}.

Definition serialize_timestamp_value (ts : Z) (value : string) : string :=
  SerializeToString {| lwwv_timestamp := ts; lwwv_value := value |}.

(** [for (val : l.reveal()) set_value.add_values(val)]. *)
Definition serialize_set (l : gset string) : string :=
  SerializeToString {| setv_values := foldl (λ vs v, vs ++ [v]) [] (set_iter l) |}.

(** An ordered set is written in its order, as a set. *)
Definition serialize_ordered_set (l : gset string) : string :=
  SerializeToString {| setv_values := foldl (λ vs v, vs ++ [v]) [] (ordered_iter l) |}.

(** [ptr] is the field; its entry at [pair.first] is set to [pair.second.reveal()]. *)
Definition vector_clock_fields (vc : VectorClock) : gmap string Z :=
  foldl (λ m p, <[p.1 := p.2]> m) ∅ (map_iter vc).

Definition serialize_sk_causal (l : VectorClockValuePair) : string :=
  SerializeToString {|
    skcv_vector_clock := vector_clock_fields (sk_vector_clock l);
    skcv_values := foldl (λ vs v, vs ++ [v]) [] (set_iter (sk_value l)) |}.

Definition serialize_mk_causal (l : MultiKeyCausalPayload) : string :=
  SerializeToString {|
    mkcv_vector_clock := vector_clock_fields (mk_vector_clock l);
    mkcv_dependencies := foldl (λ ds p,
        ds ++ [{| kv_key := p.1; kv_vector_clock := vector_clock_fields p.2 |}])
      [] (map_iter (mk_dependencies l));
    mkcv_values := foldl (λ vs v, vs ++ [v]) [] (set_iter (mk_value l)) |}.

Definition deserialize_lww (serialized : string) : TimestampValuePair :=
  let lww : LWWValue := ParseFromString serialized in
  {| timestamp := lwwv_timestamp lww; tv_value := lwwv_value lww |}.

Definition deserialize_set (serialized : string) : gset string :=
  let s : SetValue := ParseFromString serialized in
  foldl (λ result value, {[value]} ∪ result) ∅ (setv_values s).

Definition deserialize_ordered_set (serialized : string) : gset string :=
  let s : SetValue := ParseFromString serialized in
  foldl (λ result value, {[value]} ∪ result) ∅ (setv_values s).

Definition deserialize_causal (serialized : string) : SingleKeyCausalValue :=
  ParseFromString serialized.

Definition deserialize_multi_key_causal (serialized : string) : MultiKeyCausalValue :=
  ParseFromString serialized.

(** [vc.insert(pair.first, pair.second)] for every pair. *)
Definition vector_clock_of_fields (m : gmap string Z) : VectorClock :=
  foldl (λ vc p, insert_pair vc p.1 p.2) ∅ (map_iter m).

Definition to_vector_clock_value_pair (cv : SingleKeyCausalValue) : VectorClockValuePair := {|
  sk_vector_clock := vector_clock_of_fields (skcv_vector_clock cv);
  sk_value := foldl SetLattice_insert ∅ (skcv_values cv) |}.

Definition to_multi_key_causal_payload (mkcv : MultiKeyCausalValue) : MultiKeyCausalPayload := {|
  mk_vector_clock := vector_clock_of_fields (mkcv_vector_clock mkcv);
  mk_dependencies := foldl (λ deps dep,
      insert_pair deps (kv_key dep) (vector_clock_of_fields (kv_vector_clock dep)))
    ∅ (mkcv_dependencies mkcv);
  mk_value := foldl SetLattice_insert ∅ (mkcv_values mkcv) |}.

End serialization.

Section priority.
Context `{PriorityMessages}.

Definition serialize_priority (l : PriorityValuePair double) : string :=
  SerializeToString {| prv_priority := priority l; prv_value := pv_value l |}.

Definition deserialize_priority (serialized : string) : PriorityValuePair double :=
  let pv : PriorityValue := ParseFromString serialized in
  {| priority := prv_priority pv; pv_value := prv_value pv |}.

End priority.

(** ** Lemmas *)

Section lemmas.
Context `{UnorderedIter}.

Lemma values_roundtrip (s : gset string) :
  foldl (λ result value, {[value]} ∪ result) ∅ (foldl (λ vs v, vs ++ [v]) [] (set_iter s)) = s.
Proof.
  rewrite foldl_snoc_id, foldl_set_insert. apply set_iter_list_to_set.
Qed.

Lemma vector_clock_fields_id vc : vector_clock_fields vc = vc.
Proof.
  unfold vector_clock_fields. rewrite (foldl_insert_map (λ n, n)). apply map_fmap_id.
Qed.

Lemma merge_empty_id {V} `{Lattice V} (m : gmap string V) : MapLattice_do_merge ∅ m = m.
Proof.
  apply map_eq. intros k. rewrite MapLattice_merge_lookup, lookup_empty. by destruct (m !! k).
Qed.

Lemma vector_clock_of_fields_id m : vector_clock_of_fields m = m.
Proof. apply merge_empty_id. Qed.

Lemma dependencies_roundtrip (deps : gmap string VectorClock) :
  foldl (λ ds dep, insert_pair ds (kv_key dep) (vector_clock_of_fields (kv_vector_clock dep))) ∅
    (foldl (λ ds p, ds ++ [{| kv_key := p.1; kv_vector_clock := vector_clock_fields p.2 |}])
       [] (map_iter deps)) = deps.
Proof.
  rewrite (foldl_snoc (λ p, {| kv_key := p.1; kv_vector_clock := vector_clock_fields p.2 |})). cbn.
  rewrite <- (merge_empty_id deps) at 2. unfold MapLattice_do_merge.
  generalize (∅ : gmap string VectorClock). induction (map_iter deps) as [|[k v] l IH]; [done|].
  intros m. cbn. by rewrite IH, vector_clock_of_fields_id, vector_clock_fields_id.
Qed.

End lemmas.

(** ** Properties *)

(** A multi-key causal value survives its serialization: clock, dependencies
    and values, whatever the iteration orders on the two sides. *)
Theorem mk_causal_roundtrip `{UnorderedIter, LatticeMessages} (l : MultiKeyCausalPayload) :
  map_Forall (λ _ n, 0 ≤ n < 2 ^ 32) (mk_vector_clock l) →
  map_Forall (λ _ vc, map_Forall (λ _ n, 0 ≤ n < 2 ^ 32) vc) (mk_dependencies l) →
  to_multi_key_causal_payload (deserialize_multi_key_causal (serialize_mk_causal l)) = l.
Proof.
  intros Hvc Hdeps. unfold deserialize_multi_key_causal, serialize_mk_causal.
  rewrite Parse_Serialize.
  - unfold to_multi_key_causal_payload; cbn.
    rewrite vector_clock_of_fields_id, vector_clock_fields_id, dependencies_roundtrip.
    unfold SetLattice_insert. rewrite values_roundtrip. by destruct l.
  - apply lm_mk_causal_ok; cbn; [by rewrite vector_clock_fields_id|].
    rewrite (foldl_snoc (λ p, {| kv_key := p.1; kv_vector_clock := vector_clock_fields p.2 |})).
    cbn. apply Forall_map, Forall_forall. intros [k vc] Hin%map_iter_elem. cbn.
    rewrite vector_clock_fields_id. by apply (Hdeps k).
Qed.

Lemma mk_causal_roundtrip_witness :
  let l := {| mk_vector_clock := {["x" := 7]};
              mk_dependencies := {["k" := {["x" := 6; "y" := 1]}]};
              mk_value := {["A"; "B"]} |} in
  @to_multi_key_causal_payload sorted_iter
    (@deserialize_multi_key_causal bits_lattice_messages
      (@serialize_mk_causal sorted_iter bits_lattice_messages l)) = l.
Proof. intros l. apply mk_causal_roundtrip; evaluate. Defined.

(** The same for the last-writer-wins, set and single-key causal values. *)
Lemma lww_roundtrip `{LatticeMessages} (l : TimestampValuePair) :
  0 ≤ timestamp l < 2 ^ 64 → deserialize_lww (serialize_lww l) = l.
Proof.
  intros Hl. unfold deserialize_lww, serialize_lww.
  rewrite Parse_Serialize by by apply lm_lww_ok. by destruct l.
Qed.

Lemma set_roundtrip `{UnorderedIter, LatticeMessages} (l : gset string) :
  deserialize_set (serialize_set l) = l.
Proof.
  unfold deserialize_set, serialize_set. rewrite Parse_Serialize by apply lm_set_ok.
  apply values_roundtrip.
Qed.

Lemma sk_causal_roundtrip `{UnorderedIter, LatticeMessages} (l : VectorClockValuePair) :
  map_Forall (λ _ n, 0 ≤ n < 2 ^ 32) (sk_vector_clock l) →
  to_vector_clock_value_pair (deserialize_causal (serialize_sk_causal l)) = l.
Proof.
  intros Hl. unfold deserialize_causal, serialize_sk_causal.
  rewrite Parse_Serialize by (apply lm_sk_causal_ok; cbn; by rewrite vector_clock_fields_id).
  unfold to_vector_clock_value_pair; cbn.
  rewrite vector_clock_of_fields_id, vector_clock_fields_id. unfold SetLattice_insert.
  rewrite values_roundtrip. by destruct l.
Qed.

Lemma ordered_set_roundtrip `{LatticeMessages} (l : gset string) :
  deserialize_ordered_set (serialize_ordered_set l) = l.
Proof.
  unfold deserialize_ordered_set, serialize_ordered_set. rewrite Parse_Serialize by apply lm_set_ok. cbn.
  rewrite foldl_snoc_id, foldl_set_insert. apply set_eq. intros x. by rewrite elem_of_list_to_set, ordered_iter_elem.
Qed.

(** The bytes of an ordered set do not depend on how it was built. *)
Lemma ordered_set_canonical `{LatticeMessages} (l : gset string) :
  ∃ vs, serialize_ordered_set l = SerializeToString {| setv_values := vs |} ∧ StronglySorted String.le vs.
Proof.
  exists (ordered_iter l). unfold serialize_ordered_set. rewrite foldl_snoc_id. split; [done|apply ordered_iter_sorted].
Qed.

Lemma priority_roundtrip `{PriorityMessages} (l : PriorityValuePair double) :
  deserialize_priority (serialize_priority l) = l.
Proof.
  unfold deserialize_priority, serialize_priority. rewrite Parse_Serialize by apply prm_priority_ok. by destruct l.
Qed.
