(* ===== verification/Effects.v ===== *)
(** * Effectful code

    A method of an object that sends messages is a function from the state of the
    object to its new state, the messages sent in order, and a value; or it throws.
    The monad [eff] composes such functions, and [wp], [wlp] are its total and
    partial weakest preconditions: [wp m s Q] says that [m] has a value from [s]
    and [Q] holds of what it leaves, [wlp m s Q] says that [Q] holds if it has. *)

From S2P Require Import Prelude.

(** ** Definitions *)

Definition eff (S O A : Type) : Type := S → result (S * list O * A).

#[export] Instance eff_ret S O : MRet (eff S O) := λ A a s, Ok (s, [], a).

#[export] Instance eff_bind S O : MBind (eff S O) := λ A B f m s,
  match m s with
  | Ok (s1, o1, a) =>
      match f a s1 with
      | Ok (s2, o2, b) => Ok (s2, o1 ++ o2, b)
      | Throw e => Throw e
      end
  | Throw e => Throw e
  end.

Section operations.
Context {S O : Type}.

Definition throw {A} (e : exn) : eff S O A := λ _, Throw e.
Definition gets {A} (f : S → A) : eff S O A := λ s, Ok (s, [], f s).
Definition modify (f : S → S) : eff S O unit := λ s, Ok (f s, [], tt).
Definition emit (o : O) : eff S O unit := λ s, Ok (s, [o], tt).
Definition emit_all (os : list O) : eff S O unit := λ s, Ok (s, os, tt).

(** A fallible expression without effects. *)
Definition lift {A} (m : result A) : eff S O A := λ s,
  match m with Ok a => Ok (s, [], a) | Throw e => Throw e end.

Definition when (b : bool) (m : eff S O unit) : eff S O unit := if b then m else mret tt.

(** [for (x : l) f(x)]. *)
Fixpoint for_each {A} (f : A → eff S O unit) (l : list A) : eff S O unit :=
  match l with
  | [] => mret tt
  | a :: l => f a ≫= λ _, for_each f l
  end.

(** The same with a local variable the body updates. *)
Fixpoint for_fold {A B} (f : B → A → eff S O B) (l : list A) (b : B) : eff S O B :=
  match l with
  | [] => mret b
  | a :: l => f b a ≫= λ b, for_fold f l b
  end.

Definition wp {A} (m : eff S O A) (s : S) (Q : S → list O → A → Prop) : Prop :=
  match m s with Ok (s', o, a) => Q s' o a | Throw _ => False end.

Definition wlp {A} (m : eff S O A) (s : S) (Q : S → list O → A → Prop) : Prop :=
  match m s with Ok (s', o, a) => Q s' o a | Throw _ => True end.

(** [m] keeps an invariant of the state, whenever it has a value. *)
Definition keeps {A} (P : S → Prop) (m : eff S O A) : Prop := ∀ s, P s → wlp m s (λ s' _ _, P s').

End operations.

(** Calling a component: its state is a part of the caller's, its messages are the
    caller's too. *)
Definition zoom {S T O A} (get : S → T) (put : T → S → S) (m : eff T O A) : eff S O A := λ s,
  match m (get s) with
  | Ok (t, o, a) => Ok (put t s, o, a)
  | Throw e => Throw e
  end.

(** ** Lemmas *)

Section lemmas.
Context {S O : Type}.

Lemma wp_bind {A B} (m : eff S O A) (f : A → eff S O B) s Q :
  wp m s (λ s1 o1 a, wp (f a) s1 (λ s2 o2 b, Q s2 (o1 ++ o2) b)) → wp (m ≫= f) s Q.
Proof.
  unfold wp, mbind, eff_bind. destruct (m s) as [[[s1 o1] a]|]; [|done].
  by destruct (f a s1) as [[[s2 o2] b]|].
Qed.

Lemma wlp_bind {A B} (m : eff S O A) (f : A → eff S O B) s Q :
  wlp m s (λ s1 o1 a, wlp (f a) s1 (λ s2 o2 b, Q s2 (o1 ++ o2) b)) → wlp (m ≫= f) s Q.
Proof.
  unfold wlp, mbind, eff_bind. destruct (m s) as [[[s1 o1] a]|]; [|done].
  by destruct (f a s1) as [[[s2 o2] b]|].
Qed.

Lemma wp_mono {A} (m : eff S O A) s (P Q : S → list O → A → Prop) :
  wp m s P → (∀ s' o a, P s' o a → Q s' o a) → wp m s Q.
Proof. unfold wp. destruct (m s) as [[[s' o] a]|]; naive_solver. Qed.

Lemma wlp_mono {A} (m : eff S O A) s (P Q : S → list O → A → Prop) :
  wlp m s P → (∀ s' o a, P s' o a → Q s' o a) → wlp m s Q.
Proof. unfold wlp. destruct (m s) as [[[s' o] a]|]; naive_solver. Qed.

Lemma wp_wlp {A} (m : eff S O A) s Q : wp m s Q → wlp m s Q.
Proof. unfold wp, wlp. by destruct (m s) as [[[s' o] a]|]. Qed.

Lemma wp_and {A} (m : eff S O A) s (P Q : S → list O → A → Prop) :
  wp m s P → wlp m s Q → wp m s (λ s' o a, P s' o a ∧ Q s' o a).
Proof. unfold wp, wlp. by destruct (m s) as [[[s' o] a]|]. Qed.

Lemma wlp_and {A} (m : eff S O A) s (P Q : S → list O → A → Prop) :
  wlp m s P → wlp m s Q → wlp m s (λ s' o a, P s' o a ∧ Q s' o a).
Proof. unfold wlp. by destruct (m s) as [[[s' o] a]|]. Qed.

Lemma wp_Ok {A} (m : eff S O A) s Q :
  wp m s Q ↔ ∃ s' o a, m s = Ok (s', o, a) ∧ Q s' o a.
Proof. unfold wp. destruct (m s) as [[[s' o] a]|]; naive_solver. Qed.

Lemma wlp_Ok {A} (m : eff S O A) s s' o a Q : wlp m s Q → m s = Ok (s', o, a) → Q s' o a.
Proof. unfold wlp. intros H E. by rewrite E in H. Qed.

(** Loops keep an invariant over the visited prefix, the state and the messages. *)
Lemma wp_for_each {A} (P : list A → S → list O → Prop) (f : A → eff S O unit) l s :
  P [] s [] →
  (∀ pre a s1 o1, (∃ post, l = pre ++ a :: post) → P pre s1 o1 →
     wp (f a) s1 (λ s2 o2 _, P (pre ++ [a]) s2 (o1 ++ o2))) →
  wp (for_each f l) s (λ s' o _, P l s' o).
Proof.
  intros H0 Hstep.
  assert (∀ post pre s1 o1, l = pre ++ post → P pre s1 o1 →
    wp (for_each f post) s1 (λ s' o _, P l s' (o1 ++ o))) as Hgen; [|by apply (Hgen l [] s [])].
  induction post as [|a post IH]; intros pre s1 o1 -> Hp; cbn.
  - unfold wp, mret, eff_ret. by rewrite !app_nil_r in *.
  - apply wp_bind. eapply wp_mono; [by apply Hstep; [eexists|]|]. cbn. intros s2 o2 _ H2.
    eapply wp_mono; [eapply (IH (pre ++ [a])); [by rewrite <- app_assoc|done]|].
    cbn. intros. by rewrite app_assoc.
Qed.

Lemma wlp_for_each {A} (P : list A → S → list O → Prop) (f : A → eff S O unit) l s :
  P [] s [] →
  (∀ pre a s1 o1, (∃ post, l = pre ++ a :: post) → P pre s1 o1 →
     wlp (f a) s1 (λ s2 o2 _, P (pre ++ [a]) s2 (o1 ++ o2))) →
  wlp (for_each f l) s (λ s' o _, P l s' o).
Proof.
  intros H0 Hstep.
  assert (∀ post pre s1 o1, l = pre ++ post → P pre s1 o1 →
    wlp (for_each f post) s1 (λ s' o _, P l s' (o1 ++ o))) as Hgen; [|by apply (Hgen l [] s [])].
  induction post as [|a post IH]; intros pre s1 o1 -> Hp; cbn.
  - unfold wlp, mret, eff_ret. by rewrite !app_nil_r in *.
  - apply wlp_bind. eapply wlp_mono; [by apply Hstep; [eexists|]|]. cbn. intros s2 o2 _ H2.
    eapply wlp_mono; [eapply (IH (pre ++ [a])); [by rewrite <- app_assoc|done]|].
    cbn. intros. by rewrite app_assoc.
Qed.

Lemma wp_for_fold {A B} (P : list A → S → list O → B → Prop) (f : B → A → eff S O B) l s b :
  P [] s [] b →
  (∀ pre a s1 o1 b1, (∃ post, l = pre ++ a :: post) → P pre s1 o1 b1 →
     wp (f b1 a) s1 (λ s2 o2 b2, P (pre ++ [a]) s2 (o1 ++ o2) b2)) →
  wp (for_fold f l b) s (λ s' o b', P l s' o b').
Proof.
  intros H0 Hstep.
  assert (∀ post pre s1 o1 b1, l = pre ++ post → P pre s1 o1 b1 →
    wp (for_fold f post b1) s1 (λ s' o b', P l s' (o1 ++ o) b')) as Hgen; [|by apply (Hgen l [] s [] b)].
  induction post as [|a post IH]; intros pre s1 o1 b1 -> Hp; cbn.
  - unfold wp, mret, eff_ret. by rewrite !app_nil_r in *.
  - apply wp_bind. eapply wp_mono; [by apply Hstep; [eexists|]|]. cbn. intros s2 o2 b2 H2.
    eapply wp_mono; [eapply (IH (pre ++ [a])); [by rewrite <- app_assoc|done]|].
    cbn. intros. by rewrite app_assoc.
Qed.

(** A loop of assignments. *)
Lemma for_each_modify {A} (f : A → S → S) l s :
  for_each (λ a, modify (f a) : eff S O unit) l s = Ok (foldl (λ s a, f a s) s l, [], tt).
Proof. revert s. induction l as [|a l IH]; intros s; [done|]. cbn. unfold mbind, eff_bind. cbn. by rewrite IH. Qed.

Lemma wp_for_each_modify {A} (f : A → S → S) l s (Q : S → list O → unit → Prop) :
  Q (foldl (λ s a, f a s) s l) [] tt → wp (for_each (λ a, modify (f a)) l) s Q.
Proof. unfold wp. by rewrite for_each_modify. Qed.

Lemma wlp_for_fold {A B} (P : list A → S → list O → B → Prop) (f : B → A → eff S O B) l s b :
  P [] s [] b →
  (∀ pre a s1 o1 b1, (∃ post, l = pre ++ a :: post) → P pre s1 o1 b1 →
     wlp (f b1 a) s1 (λ s2 o2 b2, P (pre ++ [a]) s2 (o1 ++ o2) b2)) →
  wlp (for_fold f l b) s (λ s' o b', P l s' o b').
Proof.
  intros H0 Hstep.
  assert (∀ post pre s1 o1 b1, l = pre ++ post → P pre s1 o1 b1 →
    wlp (for_fold f post b1) s1 (λ s' o b', P l s' (o1 ++ o) b')) as Hgen; [|by apply (Hgen l [] s [] b)].
  induction post as [|a post IH]; intros pre s1 o1 b1 -> Hp; cbn.
  - unfold wlp, mret, eff_ret. by rewrite !app_nil_r in *.
  - apply wlp_bind. eapply wlp_mono; [by apply Hstep; [eexists|]|]. cbn. intros s2 o2 b2 H2.
    eapply wlp_mono; [eapply (IH (pre ++ [a])); [by rewrite <- app_assoc|done]|].
    cbn. intros. by rewrite app_assoc.
Qed.

(** *** Invariants *)
Context (P : S → Prop).

Lemma keeps_ret {A} (a : A) : keeps P (mret a : eff S O A).
Proof. by intros s Hs. Qed.

Lemma keeps_throw {A} e : keeps P (throw e : eff S O A).
Proof. by intros s Hs. Qed.

Lemma keeps_gets {A} (f : S → A) : keeps P (gets f : eff S O A).
Proof. by intros s Hs. Qed.

Lemma keeps_emit (o : O) : keeps P (emit o).
Proof. by intros s Hs. Qed.

Lemma keeps_lift {A} (m : result A) : keeps P (lift m : eff S O A).
Proof. intros s Hs. unfold wlp, lift. by destruct m. Qed.

Lemma keeps_modify (f : S → S) : (∀ s, P s → P (f s)) → keeps P (modify f : eff S O unit).
Proof. intros Hf s Hs. by apply Hf. Qed.

Lemma keeps_bind {A B} (m : eff S O A) (f : A → eff S O B) :
  keeps P m → (∀ a, keeps P (f a)) → keeps P (m ≫= f).
Proof.
  intros Hm Hf s Hs. apply wlp_bind. eapply wlp_mono; [by apply Hm|]. cbn. intros. by apply Hf.
Qed.

Lemma keeps_for_each {A} (f : A → eff S O unit) l : (∀ a, keeps P (f a)) → keeps P (for_each f l).
Proof.
  intros Hf. induction l as [|a l IH]; cbn; [apply keeps_ret|]. apply keeps_bind; auto.
Qed.

Lemma keeps_for_fold {A B} (f : B → A → eff S O B) l b :
  (∀ b a, keeps P (f b a)) → keeps P (for_fold f l b).
Proof.
  intros Hf. revert b. induction l as [|a l IH]; intros b; cbn; [apply keeps_ret|].
  apply keeps_bind; auto.
Qed.

Lemma keeps_mapM {A B} (f : A → eff S O B) l : (∀ a, keeps P (f a)) → keeps P (mapM f l).
Proof. intros Hf. induction l as [|a l IH]; cbn; eauto using keeps_bind, keeps_ret. Qed.

Lemma keeps_when b (m : eff S O unit) : keeps P m → keeps P (when b m).
Proof. destruct b; [done|intros; apply keeps_ret]. Qed.

End lemmas.

Create HintDb eff.
#[export] Hint Resolve keeps_ret keeps_throw keeps_gets keeps_emit keeps_lift keeps_bind
  keeps_for_each keeps_for_fold keeps_mapM keeps_when : eff.

Section primitives.
Context {S O A : Type} (s : S) (Q : S → list O → A → Prop).

Lemma wp_ret (a : A) : Q s [] a → wp (mret a) s Q. Proof. done. Qed.
Lemma wlp_ret (a : A) : Q s [] a → wlp (mret a) s Q. Proof. done. Qed.
Lemma wp_gets (f : S → A) : Q s [] (f s) → wp (gets f) s Q. Proof. done. Qed.
Lemma wlp_gets (f : S → A) : Q s [] (f s) → wlp (gets f) s Q. Proof. done. Qed.
Lemma wp_lift (a : A) m : m = Ok a → Q s [] a → wp (lift m) s Q. Proof. by intros ->. Qed.
Lemma wlp_lift m : (∀ a, m = Ok a → Q s [] a) → wlp (lift m) s Q.
Proof. unfold wlp, lift. destruct m; [by intros HQ; apply HQ|done]. Qed.
Lemma wlp_throw e : wlp (throw e) s Q. Proof. done. Qed.

End primitives.

Lemma wlp_zoom {S T O A} (get : S → T) (put : T → S → S) (m : eff T O A) s Q :
  wlp m (get s) (λ t o a, Q (put t s) o a) → wlp (zoom get put m) s Q.
Proof. unfold wlp, zoom. by destruct (m (get s)) as [[[t o] a]|]. Qed.

Lemma wp_zoom {S T O A} (get : S → T) (put : T → S → S) (m : eff T O A) s Q :
  wp m (get s) (λ t o a, Q (put t s) o a) → wp (zoom get put m) s Q.
Proof. unfold wp, zoom. by destruct (m (get s)) as [[[t o] a]|]. Qed.

Section unit_primitives.
Context {S O : Type} (s : S) (Q : S → list O → unit → Prop).

Lemma wp_modify f : Q (f s) [] tt → wp (modify f) s Q. Proof. done. Qed.
Lemma wlp_modify f : Q (f s) [] tt → wlp (modify f) s Q. Proof. done. Qed.
Lemma wp_emit o : Q s [o] tt → wp (emit o) s Q. Proof. done. Qed.
Lemma wlp_emit o : Q s [o] tt → wlp (emit o) s Q. Proof. done. Qed.

End unit_primitives.

(** Evaluate the head of a [wp] or [wlp] goal: primitive operations and binds. *)
Ltac eff_step :=
  match goal with
  | |- wp (mbind _ _) _ _ => apply wp_bind
  | |- wlp (mbind _ _) _ _ => apply wlp_bind
  | |- wp (mret _) _ _ => apply wp_ret
  | |- wlp (mret _) _ _ => apply wlp_ret
  | |- wp (gets _) _ _ => apply wp_gets
  | |- wlp (gets _) _ _ => apply wlp_gets
  | |- wp (modify _) _ _ => apply wp_modify
  | |- wlp (modify _) _ _ => apply wlp_modify
  | |- wp (emit _) _ _ => apply wp_emit
  | |- wlp (emit _) _ _ => apply wlp_emit
  | |- wlp (throw _) _ _ => apply wlp_throw
  end; cbn beta iota.

(** Use a specification of the called function. *)
Tactic Notation "eff_call" uconstr(H) := first [ eapply wp_mono; [apply H|] | eapply wlp_mono; [apply H|] ]; cbn beta iota.
