(* ===== verification/Triggers.v ===== *)
(** * [common/include/trigger.hpp]: the triggers of a bucket

    One [Module] per primitive: the members of the class as a [Record], each
    overridden method as a definition.  The abstract class [Trigger] is the
    interface [TriggerOps], the classes are its instances, and a [TriggerPointer]
    is the base members with one of the implementations; a virtual call
    dispatches on it.  [gen_trigger_pointer] builds a trigger from a serialized
    primitive, [dump_pritimive] serializes one. *)

From S2P Require Import Prelude CppString Messages Common.

(** ** Data *)

Record TriggerAction := {
  function_ : string;
  session_keys_ : list (string * string) }.   (* pairs of session and key *)

#[export] Instance TriggerAction_eq_dec : EqDecision TriggerAction.
Proof. solve_decision. Defined.

Record TriggerFunctionMetadata := {
  func_name_ : string;
  func_args_ : list string;
  arg_flag_ : Z }.

#[export] Instance TriggerFunctionMetadata_eq_dec : EqDecision TriggerFunctionMetadata.
Proof. solve_decision. Defined.

Record RerunMetadata := {
  source_func_ : string;
  source_key_ : string;
  timeout_ : Z }.

Abbreviation StatusCache := (gmap string TriggerFunctionMetadata).

(** The virtual methods.  [target_function_] is the base member the methods read;
    [now] is the value of [system_clock::now()], used by one primitive. *)
Class TriggerOps (T : Type) := {
  action_for_new_object : string → Z → T → BucketKey → T * list TriggerAction;
  dump_pritimive : string → T → string;
  clear : T → string → T;
  notify_source_func : T → string → string → list string → Z → T;
  action_for_rerun : T → string → list TriggerFunctionMetadata;
  set_rerun_metadata : T → list RerunMetadata → T }.

(** The three primitives that remember the source function of a session. *)
Definition cache_notify (cache : StatusCache) (func_name session_id : string)
    (func_args : list string) (arg_flag : Z) : StatusCache :=
  <[session_id := {| func_name_ := func_name; func_args_ := func_args; arg_flag_ := arg_flag |}]> cache.

Definition cache_rerun (cache : StatusCache) (session_id : string) : list TriggerFunctionMetadata :=
  match cache !! session_id with Some m => [m] | None => [] end.

(** ** Immediate *)
Module Immediate.

Record ImmediateTrigger := { session_status_cache_ : StatusCache }.

Definition action_for_new_object (target : string) (t : ImmediateTrigger) (bucket_key : BucketKey)
    : ImmediateTrigger * list TriggerAction :=
  ({| session_status_cache_ := delete (session_ bucket_key) (session_status_cache_ t) |},
   [{| function_ := target; session_keys_ := [(session_ bucket_key, key_ bucket_key)] |}]).

Definition dump_pritimive `{PrimitiveMessages} (target : string) : string :=
  SerializeToString {| imp_function := target |}.

Definition clear (t : ImmediateTrigger) (session : string) : ImmediateTrigger := t.

Definition notify_source_func (t : ImmediateTrigger) (func_name session_id : string)
    (func_args : list string) (arg_flag : Z) : ImmediateTrigger :=
  {| session_status_cache_ := cache_notify (session_status_cache_ t) func_name session_id func_args arg_flag |}.

Definition action_for_rerun (t : ImmediateTrigger) (session_id : string) : list TriggerFunctionMetadata :=
  cache_rerun (session_status_cache_ t) session_id.

End Immediate.

(** ** By name *)
Module ByName.

Record ByNameTrigger := {
  key_name_ : string;
  session_status_cache_ : StatusCache }.

Definition action_for_new_object (target : string) (t : ByNameTrigger) (bucket_key : BucketKey)
    : ByNameTrigger * list TriggerAction :=
  ({| key_name_ := key_name_ t;
      session_status_cache_ := delete (session_ bucket_key) (session_status_cache_ t) |},
   if decide (key_ bucket_key = key_name_ t)
   then [{| function_ := target; session_keys_ := [(session_ bucket_key, key_ bucket_key)] |}]
   else []).

Definition dump_pritimive `{PrimitiveMessages} (target : string) (t : ByNameTrigger) : string :=
  SerializeToString {| bnp_function := target; bnp_key_name := key_name_ t |}.

Definition clear (t : ByNameTrigger) (session : string) : ByNameTrigger := t.

Definition notify_source_func (t : ByNameTrigger) (func_name session_id : string)
    (func_args : list string) (arg_flag : Z) : ByNameTrigger :=
  {| key_name_ := key_name_ t;
     session_status_cache_ := cache_notify (session_status_cache_ t) func_name session_id func_args arg_flag |}.

Definition action_for_rerun (t : ByNameTrigger) (session_id : string) : list TriggerFunctionMetadata :=
  cache_rerun (session_status_cache_ t) session_id.

End ByName.

(** ** By batch size *)
Module ByBatchSize.

Record ByBatchSizeTrigger := {
  count_ : Z;                                  (* int *)
  buffer_ : list (string * string);
  session_status_cache_ : StatusCache }.

(** [buffer_.size() >= count_] compares as [size_t]. *)
Definition action_for_new_object (target : string) (t : ByBatchSizeTrigger) (bucket_key : BucketKey)
    : ByBatchSizeTrigger * list TriggerAction :=
  let buffer := buffer_ t ++ [(session_ bucket_key, key_ bucket_key)] in
  let cache := delete (session_ bucket_key) (session_status_cache_ t) in
  if decide (Z.of_nat (length buffer) >= u64 (count_ t)) then
    ({| count_ := count_ t; buffer_ := []; session_status_cache_ := cache |},
     [{| function_ := target; session_keys_ := buffer |}])
  else ({| count_ := count_ t; buffer_ := buffer; session_status_cache_ := cache |}, []).

Definition dump_pritimive `{PrimitiveMessages} (target : string) (t : ByBatchSizeTrigger) : string :=
  SerializeToString {| bbp_function := target; bbp_count := u32 (count_ t) |}.

Definition clear (t : ByBatchSizeTrigger) (session : string) : ByBatchSizeTrigger :=
  {| count_ := count_ t; buffer_ := []; session_status_cache_ := ∅ |}.

Definition notify_source_func (t : ByBatchSizeTrigger) (func_name session_id : string)
    (func_args : list string) (arg_flag : Z) : ByBatchSizeTrigger :=
  {| count_ := count_ t; buffer_ := buffer_ t;
     session_status_cache_ := cache_notify (session_status_cache_ t) func_name session_id func_args arg_flag |}.

Definition action_for_rerun (t : ByBatchSizeTrigger) (session_id : string) : list TriggerFunctionMetadata :=
  cache_rerun (session_status_cache_ t) session_id.

End ByBatchSize.

(** ** By set *)
Module BySet.
Section by_set.
Context `{UnorderedIter}.

Record BySetTrigger := {
  key_set_ : gset string;
  session_prepared_keys_map_ : gmap string (gset string);
  func_key_map_ : gmap string string;
  session_status_cache_ : StatusCache }.

Definition action_for_new_object (target : string) (t : BySetTrigger) (bucket_key : BucketKey)
    : BySetTrigger * list TriggerAction :=
  let session := session_ bucket_key in
  if decide (key_ bucket_key ∈ key_set_ t) then
    let prepared := {[key_ bucket_key]} ∪ at_default ∅ session (session_prepared_keys_map_ t) in
    let prepared_map := <[session := prepared]> (session_prepared_keys_map_ t) in
    let cache := delete (key_ bucket_key +:+ session) (session_status_cache_ t) in
    if decide (size prepared = size (key_set_ t)) then
      ({| key_set_ := key_set_ t; session_prepared_keys_map_ := delete session prepared_map;
          func_key_map_ := func_key_map_ t; session_status_cache_ := cache |},
       [{| function_ := target;
           session_keys_ := foldl (λ sks key, sks ++ [(session, key)]) [] (set_iter (key_set_ t)) |}])
    else ({| key_set_ := key_set_ t; session_prepared_keys_map_ := prepared_map;
             func_key_map_ := func_key_map_ t; session_status_cache_ := cache |}, [])
  else (t, []).

(** [func_key_map_[func_name]] inserts an empty key for an unknown function. *)
Definition notify_source_func (t : BySetTrigger) (func_name session_id : string)
    (func_args : list string) (arg_flag : Z) : BySetTrigger :=
  if decide (func_key_map_ t = ∅) then t else
  {| key_set_ := key_set_ t; session_prepared_keys_map_ := session_prepared_keys_map_ t;
     func_key_map_ := touch "" func_name (func_key_map_ t);
     session_status_cache_ :=
       cache_notify (session_status_cache_ t) func_name
         (at_default "" func_name (func_key_map_ t) +:+ session_id) func_args arg_flag |}.

Definition action_for_rerun (t : BySetTrigger) (session_id : string) : list TriggerFunctionMetadata :=
  if decide (func_key_map_ t = ∅) then [] else
  foldl (λ rerun_funcs key, rerun_funcs ++ cache_rerun (session_status_cache_ t) (key +:+ session_id))
    [] (set_iter (key_set_ t)).

Definition set_rerun_metadata (t : BySetTrigger) (rerun_metadata : list RerunMetadata) : BySetTrigger :=
  {| key_set_ := key_set_ t; session_prepared_keys_map_ := session_prepared_keys_map_ t;
     func_key_map_ := foldl (λ m meta, <[source_func_ meta := source_key_ meta]> m)
                        (func_key_map_ t) rerun_metadata;
     session_status_cache_ := session_status_cache_ t |}.

Definition dump_pritimive `{PrimitiveMessages} (target : string) (t : BySetTrigger) : string :=
  SerializeToString {| bsp_function := target;
    bsp_key_set := foldl (λ ks key, ks ++ [key]) [] (set_iter (key_set_ t)) |}.

(** The cache is keyed by key and session; the session alone is erased. *)
Definition clear (t : BySetTrigger) (session : string) : BySetTrigger :=
  {| key_set_ := key_set_ t;
     session_prepared_keys_map_ := delete session (session_prepared_keys_map_ t);
     func_key_map_ := func_key_map_ t;
     session_status_cache_ := delete session (session_status_cache_ t) |}.

End by_set.
End BySet.

(** ** Dynamic group *)
Module DynamicGroup.
Section dynamic_group.
Context `{UnorderedIter}.

Definition group_delimiter : ascii := ":"%char.
Definition control_group_prefix : string := "ctrl".

Record DynamicGroupTrigger := {
  data_group_keys_map_ : gmap string (gset string);
  control_group_ : gset string;
  cur_control_keys_ : gset string }.

(** [key.substr(0, key.find(group_delimiter))]; position 0 is always in range. *)
Definition group_of (key : string) : string :=
  match substr key 0 (find key group_delimiter 0) with Ok g => g | Throw _ => "" end.

Definition group_action (target session : string) (group_keys : string * gset string) : TriggerAction :=
  {| function_ := target;
     session_keys_ := foldl (λ sks key, sks ++ [(session, key)]) [] (set_iter group_keys.2) |}.

Definition action_for_new_object (target : string) (t : DynamicGroupTrigger) (bucket_key : BucketKey)
    : DynamicGroupTrigger * list TriggerAction :=
  let key := key_ bucket_key in
  let group := group_of key in
  if decide (group = control_group_prefix) then
    let cur := if decide (key ∈ control_group_ t) then {[key]} ∪ cur_control_keys_ t
               else cur_control_keys_ t in
    if decide (size cur = size (control_group_ t)) then
      ({| data_group_keys_map_ := ∅; control_group_ := control_group_ t; cur_control_keys_ := ∅ |},
       foldl (λ actions gk, actions ++ [group_action target (session_ bucket_key) gk]) []
         (map_iter (data_group_keys_map_ t)))
    else ({| data_group_keys_map_ := data_group_keys_map_ t; control_group_ := control_group_ t;
             cur_control_keys_ := cur |}, [])
  else
    ({| data_group_keys_map_ :=
          <[group := {[key]} ∪ at_default ∅ group (data_group_keys_map_ t)]> (data_group_keys_map_ t);
        control_group_ := control_group_ t; cur_control_keys_ := cur_control_keys_ t |}, []).

Definition dump_pritimive `{PrimitiveMessages} (target : string) (t : DynamicGroupTrigger) : string :=
  SerializeToString {| dgp_function := target;
    dgp_control_group := foldl (λ ks key, ks ++ [key]) [] (set_iter (control_group_ t)) |}.

Definition clear (t : DynamicGroupTrigger) (session : string) : DynamicGroupTrigger :=
  {| data_group_keys_map_ := ∅; control_group_ := control_group_ t; cur_control_keys_ := ∅ |}.

End dynamic_group.
End DynamicGroup.

(** ** Redundant *)
Module Redundant.

Record RedundantTrigger := {
  k_ : Z;
  n_ : Z;
  count_ : Z;                                  (* unsigned, all three *)
  buffer_ : list (string * string) }.

Definition action_for_new_object (target : string) (t : RedundantTrigger) (bucket_key : BucketKey)
    : RedundantTrigger * list TriggerAction :=
  let count := u32 (count_ t + 1) in
  if decide (count <= k_ t) then
    let buffer := buffer_ t ++ [(session_ bucket_key, key_ bucket_key)] in
    if decide (count = k_ t) then
      ({| k_ := k_ t; n_ := n_ t; count_ := count; buffer_ := [] |},
       [{| function_ := target; session_keys_ := buffer |}])
    else ({| k_ := k_ t; n_ := n_ t; count_ := count; buffer_ := buffer |}, [])
  else if decide (count >= n_ t) then
    ({| k_ := k_ t; n_ := n_ t; count_ := 0; buffer_ := buffer_ t |}, [])
  else ({| k_ := k_ t; n_ := n_ t; count_ := count; buffer_ := buffer_ t |}, []).

Definition dump_pritimive `{PrimitiveMessages} (target : string) (t : RedundantTrigger) : string :=
  SerializeToString {| rdp_function := target; rdp_k := k_ t; rdp_n := n_ t |}.

Definition clear (t : RedundantTrigger) (session : string) : RedundantTrigger :=
  {| k_ := k_ t; n_ := n_ t; count_ := u32 (count_ t + k_ t); buffer_ := [] |}.

End Redundant.

(** ** By time *)
Module ByTime.

Record ByTimeTrigger := {
  time_window_ : Z;                            (* unsigned, milliseconds *)
  buffer_ : list (string * string);
  last_trigger_stamp_ : Z }.                   (* nanoseconds *)

Definition action_for_new_object (target : string) (now : Z) (t : ByTimeTrigger) (bucket_key : BucketKey)
    : ByTimeTrigger * list TriggerAction :=
  let buffer := buffer_ t ++ [(session_ bucket_key, key_ bucket_key)] in
  if decide (to_ms (now - last_trigger_stamp_ t) >= time_window_ t) then
    ({| time_window_ := time_window_ t; buffer_ := []; last_trigger_stamp_ := now |},
     [{| function_ := target; session_keys_ := buffer |}])
  else ({| time_window_ := time_window_ t; buffer_ := buffer;
           last_trigger_stamp_ := last_trigger_stamp_ t |}, []).

Definition dump_pritimive `{PrimitiveMessages} (target : string) (t : ByTimeTrigger) : string :=
  SerializeToString {| btp_function := target; btp_time_window := time_window_ t |}.

Definition clear (t : ByTimeTrigger) (session : string) : ByTimeTrigger :=
  {| time_window_ := time_window_ t; buffer_ := []; last_trigger_stamp_ := last_trigger_stamp_ t |}.

End ByTime.

(** ** The class hierarchy *)

(** The default bodies of the abstract class. *)
Definition default_notify {T} (t : T) (func_name session_id : string) (func_args : list string)
    (arg_flag : Z) : T := t.
Definition default_rerun {T} (t : T) (session_id : string) : list TriggerFunctionMetadata := [].
Definition default_set_rerun {T} (t : T) (rerun_metadata : list RerunMetadata) : T := t.

Section hierarchy.
Context `{UnorderedIter, PrimitiveMessages}.

#[export] Instance immediate_ops : TriggerOps Immediate.ImmediateTrigger := {|
  action_for_new_object target _ := Immediate.action_for_new_object target;
  dump_pritimive target _ := Immediate.dump_pritimive target;
  clear := Immediate.clear;
  notify_source_func := Immediate.notify_source_func;
  action_for_rerun := Immediate.action_for_rerun;
  set_rerun_metadata := default_set_rerun |}.

#[export] Instance by_name_ops : TriggerOps ByName.ByNameTrigger := {|
  action_for_new_object target _ := ByName.action_for_new_object target;
  dump_pritimive := ByName.dump_pritimive;
  clear := ByName.clear;
  notify_source_func := ByName.notify_source_func;
  action_for_rerun := ByName.action_for_rerun;
  set_rerun_metadata := default_set_rerun |}.

#[export] Instance by_batch_size_ops : TriggerOps ByBatchSize.ByBatchSizeTrigger := {|
  action_for_new_object target _ := ByBatchSize.action_for_new_object target;
  dump_pritimive := ByBatchSize.dump_pritimive;
  clear := ByBatchSize.clear;
  notify_source_func := ByBatchSize.notify_source_func;
  action_for_rerun := ByBatchSize.action_for_rerun;
  set_rerun_metadata := default_set_rerun |}.

#[export] Instance by_set_ops : TriggerOps BySet.BySetTrigger := {|
  action_for_new_object target _ := BySet.action_for_new_object target;
  dump_pritimive := BySet.dump_pritimive;
  clear := BySet.clear;
  notify_source_func := BySet.notify_source_func;
  action_for_rerun := BySet.action_for_rerun;
  set_rerun_metadata := BySet.set_rerun_metadata |}.

#[export] Instance dynamic_group_ops : TriggerOps DynamicGroup.DynamicGroupTrigger := {|
  action_for_new_object target _ := DynamicGroup.action_for_new_object target;
  dump_pritimive := DynamicGroup.dump_pritimive;
  clear := DynamicGroup.clear;
  notify_source_func := default_notify;
  action_for_rerun := default_rerun;
  set_rerun_metadata := default_set_rerun |}.

#[export] Instance redundant_ops : TriggerOps Redundant.RedundantTrigger := {|
  action_for_new_object target _ := Redundant.action_for_new_object target;
  dump_pritimive := Redundant.dump_pritimive;
  clear := Redundant.clear;
  notify_source_func := default_notify;
  action_for_rerun := default_rerun;
  set_rerun_metadata := default_set_rerun |}.

#[export] Instance by_time_ops : TriggerOps ByTime.ByTimeTrigger := {|
  action_for_new_object := ByTime.action_for_new_object;
  dump_pritimive := ByTime.dump_pritimive;
  clear := ByTime.clear;
  notify_source_func := default_notify;
  action_for_rerun := default_rerun;
  set_rerun_metadata := default_set_rerun |}.

(** The object a [TriggerPointer] points to, by its dynamic type. *)
Inductive TriggerImpl :=
| ImmediateImpl (t : Immediate.ImmediateTrigger)
| ByNameImpl (t : ByName.ByNameTrigger)
| ByBatchSizeImpl (t : ByBatchSize.ByBatchSizeTrigger)
| BySetImpl (t : BySet.BySetTrigger)
| DynamicGroupImpl (t : DynamicGroup.DynamicGroupTrigger)
| RedundantImpl (t : Redundant.RedundantTrigger)
| ByTimeImpl (t : ByTime.ByTimeTrigger).

Record Trigger := {
  target_function_ : string;
  trigger_name_ : string;
  type_ : PrimitiveType;
  trigger_option_ : Z;
  impl : TriggerImpl }.

Definition with_impl (t : Trigger) (i : TriggerImpl) : Trigger :=
  {| target_function_ := target_function_ t; trigger_name_ := trigger_name_ t;
     type_ := type_ t; trigger_option_ := trigger_option_ t; impl := i |}.

Definition set_trigger_option (t : Trigger) (option : Z) : Trigger :=
  {| target_function_ := target_function_ t; trigger_name_ := trigger_name_ t;
     type_ := type_ t; trigger_option_ := option; impl := impl t |}.

(** Virtual calls. *)
Definition trigger_action (now : Z) (t : Trigger) (bucket_key : BucketKey) : Trigger * list TriggerAction :=
  let call {T} `{TriggerOps T} (inj : T → TriggerImpl) (i : T) :=
    let '(i, actions) := action_for_new_object (target_function_ t) now i bucket_key in
    (with_impl t (inj i), actions) in
  match impl t with
  | ImmediateImpl i => call ImmediateImpl i
  | ByNameImpl i => call ByNameImpl i
  | ByBatchSizeImpl i => call ByBatchSizeImpl i
  | BySetImpl i => call BySetImpl i
  | DynamicGroupImpl i => call DynamicGroupImpl i
  | RedundantImpl i => call RedundantImpl i
  | ByTimeImpl i => call ByTimeImpl i
  end.

Definition trigger_dump (t : Trigger) : string :=
  match impl t with
  | ImmediateImpl i => dump_pritimive (target_function_ t) i
  | ByNameImpl i => dump_pritimive (target_function_ t) i
  | ByBatchSizeImpl i => dump_pritimive (target_function_ t) i
  | BySetImpl i => dump_pritimive (target_function_ t) i
  | DynamicGroupImpl i => dump_pritimive (target_function_ t) i
  | RedundantImpl i => dump_pritimive (target_function_ t) i
  | ByTimeImpl i => dump_pritimive (target_function_ t) i
  end.

(** The methods that only change the object. *)
Definition trigger_update (f : ∀ T, TriggerOps T → T → T) (t : Trigger) : Trigger :=
  with_impl t
    match impl t with
    | ImmediateImpl i => ImmediateImpl (f _ _ i)
    | ByNameImpl i => ByNameImpl (f _ _ i)
    | ByBatchSizeImpl i => ByBatchSizeImpl (f _ _ i)
    | BySetImpl i => BySetImpl (f _ _ i)
    | DynamicGroupImpl i => DynamicGroupImpl (f _ _ i)
    | RedundantImpl i => RedundantImpl (f _ _ i)
    | ByTimeImpl i => ByTimeImpl (f _ _ i)
    end.

Definition trigger_clear (t : Trigger) (session : string) : Trigger :=
  trigger_update (λ T _ i, clear i session) t.

Definition trigger_notify (t : Trigger) (func_name session_id : string) (func_args : list string)
    (arg_flag : Z) : Trigger :=
  trigger_update (λ T _ i, notify_source_func i func_name session_id func_args arg_flag) t.

Definition trigger_set_rerun (t : Trigger) (metadata : list RerunMetadata) : Trigger :=
  trigger_update (λ T _ i, set_rerun_metadata i metadata) t.

Definition trigger_rerun (t : Trigger) (session_id : string) : list TriggerFunctionMetadata :=
  match impl t with
  | ImmediateImpl i => action_for_rerun i session_id
  | ByNameImpl i => action_for_rerun i session_id
  | ByBatchSizeImpl i => action_for_rerun i session_id
  | BySetImpl i => action_for_rerun i session_id
  | DynamicGroupImpl i => action_for_rerun i session_id
  | RedundantImpl i => action_for_rerun i session_id
  | ByTimeImpl i => action_for_rerun i session_id
  end.

(** [std::make_shared<XTrigger>(function, trigger_name, ...)]. *)
Definition make_trigger (function trigger_name : string) (type : PrimitiveType) (i : TriggerImpl) : Trigger :=
  {| target_function_ := function; trigger_name_ := trigger_name; type_ := type;
     trigger_option_ := 0; impl := i |}.

Definition set_of (l : list string) : gset string := foldl (λ s key, {[key]} ∪ s) ∅ l.

(** [nullptr] for a type outside the enum; [now] is read by the constructor of
    [ByTimeTrigger]. *)
Definition gen_trigger_pointer (now : Z) (type : PrimitiveType) (trigger_name serialized : string)
    : option Trigger :=
  match type with
  | IMMEDIATE =>
      let primitive : ImmediatePrimitive := ParseFromString serialized in
      Some (make_trigger (imp_function primitive) trigger_name type
        (ImmediateImpl {| Immediate.session_status_cache_ := ∅ |}))
  | BY_NAME =>
      let primitive : ByNamePrimitive := ParseFromString serialized in
      Some (make_trigger (bnp_function primitive) trigger_name type
        (ByNameImpl {| ByName.key_name_ := bnp_key_name primitive;
                       ByName.session_status_cache_ := ∅ |}))
  | BY_BATCH_SIZE =>
      let primitive : ByBatchSizePrimitive := ParseFromString serialized in
      Some (make_trigger (bbp_function primitive) trigger_name type
        (ByBatchSizeImpl {| ByBatchSize.count_ := i32 (bbp_count primitive); ByBatchSize.buffer_ := [];
                            ByBatchSize.session_status_cache_ := ∅ |}))
  | BY_SET =>
      let primitive : BySetPrimitive := ParseFromString serialized in
      Some (make_trigger (bsp_function primitive) trigger_name type
        (BySetImpl {| BySet.key_set_ := set_of (bsp_key_set primitive);
                      BySet.session_prepared_keys_map_ := ∅; BySet.func_key_map_ := ∅;
                      BySet.session_status_cache_ := ∅ |}))
  | DYNAMIC_GROUP =>
      let primitive : DynamicGroupPrimitive := ParseFromString serialized in
      Some (make_trigger (dgp_function primitive) trigger_name type
        (DynamicGroupImpl {| DynamicGroup.data_group_keys_map_ := ∅;
                             DynamicGroup.control_group_ := set_of (dgp_control_group primitive);
                             DynamicGroup.cur_control_keys_ := ∅ |}))
  | REDUNDANT =>
      let primitive : RedundantPrimitive := ParseFromString serialized in
      Some (make_trigger (rdp_function primitive) trigger_name type
        (RedundantImpl {| Redundant.k_ := u32 (rdp_k primitive); Redundant.n_ := u32 (rdp_n primitive);
                          Redundant.count_ := 0; Redundant.buffer_ := [] |}))
  | BY_TIME =>
      let primitive : ByTimePrimitive := ParseFromString serialized in
      Some (make_trigger (btp_function primitive) trigger_name type
        (ByTimeImpl {| ByTime.time_window_ := u32 (btp_time_window primitive); ByTime.buffer_ := [];
                       ByTime.last_trigger_stamp_ := now |}))
  | PrimitiveType_other _ => None
  end.

End hierarchy.
