(* ===== verification/TriggerSpecs.v ===== *)
(** * What the triggers promise

    A trigger is fed a history of objects; the theorems relate the actions of the
    whole history to the objects that arrived.  The by-set trigger has an abstract
    specification, a set of pending keys per session, which it refines. *)

From S2P Require Import Prelude CppString Messages Common Triggers.

(** ** Definitions *)

(** A history of objects through one trigger: the final state and all actions. *)
Fixpoint feed {T} (f : T → BucketKey → T * list TriggerAction) (t : T) (hist : list BucketKey)
    : T * list TriggerAction :=
  match hist with
  | [] => (t, [])
  | bk :: hist =>
      let '(t, a) := f t bk in
      let '(t, out) := feed f t hist in (t, a ++ out)
  end.

Definition object_of (bk : BucketKey) : string * string := (session_ bk, key_ bk).

(** The specification of the by-set trigger: the keys each session waits for. *)
Definition pending := string → gset string.

Definition set_pending (p : pending) (s : string) (ks : gset string) : pending :=
  λ s', if decide (s' = s) then ks else p s'.

(** An object of the key set completes its session or is pending. *)
Definition spec_step (ks : gset string) (p : pending) (bk : BucketKey) : pending * list string :=
  if decide (key_ bk ∈ ks) then
    let now := {[key_ bk]} ∪ p (session_ bk) in
    if decide (now = ks) then (set_pending p (session_ bk) ∅, [session_ bk])
    else (set_pending p (session_ bk) now, [])
  else (p, []).

Fixpoint spec_run (ks : gset string) (p : pending) (hist : list BucketKey) : pending * list string :=
  match hist with
  | [] => (p, [])
  | bk :: hist =>
      let '(p, a) := spec_step ks p bk in
      let '(p, out) := spec_run ks p hist in (p, a ++ out)
  end.

(** The action of a completed session: every key of the set, once. *)
Definition completes (target : string) (ks : gset string) (a : TriggerAction) (session : string) : Prop :=
  function_ a = target ∧ session_keys_ a ≡ₚ (pair session <$> elements ks).

Definition fresh_by_set (ks : gset string) : BySet.BySetTrigger := {|
  BySet.key_set_ := ks; BySet.session_prepared_keys_map_ := ∅; BySet.func_key_map_ := ∅;
  BySet.session_status_cache_ := ∅ |}.

Definition fresh_batch (count : Z) : ByBatchSize.ByBatchSizeTrigger := {|
  ByBatchSize.count_ := count; ByBatchSize.buffer_ := []; ByBatchSize.session_status_cache_ := ∅ |}.

Definition fresh_redundant (k n : Z) : Redundant.RedundantTrigger := {|
  Redundant.k_ := k; Redundant.n_ := n; Redundant.count_ := 0; Redundant.buffer_ := [] |}.

(** The actions of a history, object by object. *)
Fixpoint trace {T} (f : T → BucketKey → T * list TriggerAction) (t : T) (hist : list BucketKey)
    : list (list TriggerAction) :=
  match hist with
  | [] => []
  | bk :: hist => let '(t, a) := f t bk in a :: trace f t hist
  end.

(** The specification of the dynamic-group trigger: the data keys and the control
    keys of the current round.  The control key that completes the control group
    ends the round and releases its data. *)
Fixpoint group_rounds (ctl data seen : gset string) (hist : list BucketKey)
    : list (option (string * gset string)) :=
  match hist with
  | [] => []
  | bk :: hist =>
      if decide (DynamicGroup.group_of (key_ bk) = DynamicGroup.control_group_prefix) then
        let seen := if decide (key_ bk ∈ ctl) then {[key_ bk]} ∪ seen else seen in
        if decide (seen = ctl) then Some (session_ bk, data) :: group_rounds ctl ∅ ∅ hist
        else None :: group_rounds ctl data seen hist
      else None :: group_rounds ctl ({[key_ bk]} ∪ data) seen hist
  end.

(** The groups of some data keys. *)
Definition groups (data : gset string) : gset string := set_map DynamicGroup.group_of data.

(** The actions that release a round: one for every group of its data, with the keys of
    that group; together they hold every data key once. *)
Definition releases (target : string) (acts : list TriggerAction) (round : option (string * gset string)) : Prop :=
  match round with
  | None => acts = []
  | Some (session, data) =>
      (acts ≫= session_keys_) ≡ₚ (pair session <$> elements data) ∧
      ∃ gs, gs ≡ₚ elements (groups data) ∧
        Forall2 (λ g a, function_ a = target ∧ ∀ sk,
          sk ∈ session_keys_ a ↔ sk.1 = session ∧ sk.2 ∈ data ∧ DynamicGroup.group_of sk.2 = g) gs acts
  end.

Definition fresh_group (ctl : gset string) : DynamicGroup.DynamicGroupTrigger := {|
  DynamicGroup.data_group_keys_map_ := ∅; DynamicGroup.control_group_ := ctl;
  DynamicGroup.cur_control_keys_ := ∅ |}.

(** ** Lemmas *)

Lemma feed_app {T} (f : T → BucketKey → T * list TriggerAction) t h1 h2 :
  feed f t (h1 ++ h2)
  = let '(t, o1) := feed f t h1 in let '(t, o2) := feed f t h2 in (t, o1 ++ o2).
Proof.
  revert t. induction h1 as [|bk h1 IH]; intros t; cbn; [by destruct (feed f t h2)|].
  destruct (f t bk) as [t' a]. rewrite IH.
  destruct (feed f t' h1) as [t1 o1]. destruct (feed f t1 h2) as [t2 o2].
  by rewrite app_assoc.
Qed.

(** An invariant of the state, related to the history and the actions so far. *)
Lemma feed_ind {T} (f : T → BucketKey → T * list TriggerAction)
    (P : list BucketKey → T → list TriggerAction → Prop) t hist :
  P [] t [] →
  (∀ pre t1 out bk, P pre t1 out → P (pre ++ [bk]) (f t1 bk).1 (out ++ (f t1 bk).2)) →
  P hist (feed f t hist).1 (feed f t hist).2.
Proof.
  intros H0 Hstep. induction hist as [|bk hist IH] using rev_ind; [done|].
  rewrite feed_app. cbn. destruct (feed f t hist) as [t1 o1]; cbn in *.
  specialize (Hstep _ _ _ bk IH). destruct (f t1 bk); cbn in *. by rewrite app_nil_r.
Qed.

Section by_set.
Context `{UnorderedIter}.

(** The prepared keys of every session are a proper part of the key set. *)
Definition by_set_inv (ks : gset string) (p : pending) (t : BySet.BySetTrigger) : Prop :=
  BySet.key_set_ t = ks ∧
  (∀ s, at_default ∅ s (BySet.session_prepared_keys_map_ t) = p s) ∧
  (∀ s, p s ⊆ ks).

Lemma size_eq_subseteq (a ks : gset string) : a ⊆ ks → size a = size ks ↔ a = ks.
Proof.
  intros Hsub. split; [|by intros ->]. intros Hsz.
  apply set_subseteq_size_eq; [done|lia].
Qed.

Lemma at_default_delete (s s' : string) (m : gmap string (gset string)) (v : gset string) :
  at_default ∅ s (delete s' (<[s' := v]> m)) = if decide (s = s') then ∅ else at_default ∅ s m.
Proof.
  unfold at_default. case_decide as Hs; [subst; by rewrite lookup_delete_eq|].
  by rewrite lookup_delete_ne, lookup_insert_ne.
Qed.

Lemma by_set_step target ks p t bk :
  by_set_inv ks p t →
  let '(t', acts) := BySet.action_for_new_object target t bk in
  let '(p', ss) := spec_step ks p bk in
  by_set_inv ks p' t' ∧ Forall2 (completes target ks) acts ss.
Proof.
  intros (Hks & Hp & Hsub). unfold BySet.action_for_new_object, spec_step.
  rewrite Hks, Hp. case_decide as Hin; [|by split; [split_and!|constructor]].
  set (now := {[key_ bk]} ∪ p (session_ bk)).
  assert (now ⊆ ks) as Hnow by (specialize (Hsub (session_ bk)); set_solver).
  destruct (decide (now = ks)) as [E|E].
  - rewrite decide_True by by apply size_eq_subseteq. split.
    + split_and!; cbn; [done| |]; intros s; unfold set_pending; [rewrite at_default_delete|];
        case_decide; set_solver.
    + repeat constructor; cbn. rewrite (foldl_snoc (pair (session_ bk))). cbn.
      by rewrite set_iter_perm.
  - rewrite decide_False by by rewrite size_eq_subseteq. split; [|constructor].
    split_and!; cbn; [done| |]; intros s; unfold set_pending; case_decide; subst; try done.
    + by rewrite at_default_insert.
    + by rewrite at_default_insert_ne by congruence.
Qed.

End by_set.

Section dynamic_group.
Context `{UnorderedIter}.

(** The groups partition the data keys of the round. *)
Definition group_inv (ctl data seen : gset string) (t : DynamicGroup.DynamicGroupTrigger) : Prop :=
  DynamicGroup.control_group_ t = ctl ∧ DynamicGroup.cur_control_keys_ t = seen ∧ seen ⊆ ctl ∧
  dom (DynamicGroup.data_group_keys_map_ t) = groups data ∧
  (∀ g k, k ∈ at_default ∅ g (DynamicGroup.data_group_keys_map_ t)
          ↔ k ∈ data ∧ DynamicGroup.group_of k = g).

Lemma group_inv_entry ctl data seen t g ks k :
  group_inv ctl data seen t → DynamicGroup.data_group_keys_map_ t !! g = Some ks →
  k ∈ ks ↔ k ∈ data ∧ DynamicGroup.group_of k = g.
Proof. intros (_ & _ & _ & _ & Hm) Hg. rewrite <- Hm. unfold at_default. by rewrite Hg. Qed.

Lemma group_action_keys target session gk :
  session_keys_ (DynamicGroup.group_action target session gk) = pair session <$> set_iter gk.2.
Proof. cbn. by rewrite (foldl_snoc (pair session)). Qed.

#[local] Instance pair_inj (session : string) : Inj (=@{string}) (=) (pair session).
Proof. by intros ?? [= ->]. Qed.

Lemma group_actions_release target session ctl data seen t :
  group_inv ctl data seen t →
  releases target
    (map (DynamicGroup.group_action target session) (map_iter (DynamicGroup.data_group_keys_map_ t)))
    (Some (session, data)).
Proof.
  intros Hinv. pose proof Hinv as (_ & _ & _ & Hdom & Hm).
  assert (∀ gk sk, gk ∈ map_iter (DynamicGroup.data_group_keys_map_ t) →
    sk ∈ session_keys_ (DynamicGroup.group_action target session gk)
    ↔ sk.1 = session ∧ sk.2 ∈ data ∧ DynamicGroup.group_of sk.2 = gk.1) as Hsk.
  { intros [g ks] [s k] Hg%map_iter_elem. rewrite group_action_keys, list_elem_of_fmap. cbn.
    rewrite <- (group_inv_entry _ _ _ _ _ _ _ Hinv Hg). split.
    - intros (k' & [= -> ->] & Hk%set_iter_elem). done.
    - intros [-> Hk]. exists k. by rewrite set_iter_elem. }
  split.
  - rewrite list_fmap_bind. apply NoDup_Permutation.
    + apply NoDup_bind.
      * intros [g ks] [g' ks'] sk Hg Hg'. unfold compose. rewrite !Hsk by done. cbn.
        intros (_ & _ & Hg1) (_ & _ & Hg2). rewrite Hg1 in Hg2. subst g'.
        apply map_iter_elem in Hg, Hg'. by simplify_eq.
      * intros gk _. unfold compose. rewrite group_action_keys.
        apply (NoDup_fmap_2 (pair session)), set_iter_NoDup.
      * eapply NoDup_fmap_1, map_iter_NoDup.
    + apply (NoDup_fmap_2 (pair session)), NoDup_elements.
    + intros [s k]. rewrite list_elem_of_bind, list_elem_of_fmap. unfold compose. split.
      * intros (gk & Hin & Hg). apply Hsk in Hin as (Hs & Hk & _); [|done]. cbn in Hs, Hk. subst.
        exists k. by rewrite elem_of_elements.
      * intros (k' & [= -> ->] & Hk%elem_of_elements).
        pose proof (Hm (DynamicGroup.group_of k') k') as Hk'. unfold at_default in Hk'.
        destruct (_ !! _) as [ks|] eqn:E; [|set_solver].
        exists (DynamicGroup.group_of k', ks). rewrite Hsk, map_iter_elem; [done|].
        by rewrite map_iter_elem.
  - exists (map_iter (DynamicGroup.data_group_keys_map_ t)).*1. split.
    + apply NoDup_Permutation; [apply map_iter_NoDup|apply NoDup_elements|]. intros g.
      rewrite elem_of_elements, <- Hdom, elem_of_dom, list_elem_of_fmap. split.
      * intros ([g' ks] & -> & Hg%map_iter_elem). by exists ks.
      * intros [ks Hg]. exists (g, ks). by rewrite map_iter_elem.
    + apply Forall2_fmap_l, Forall2_fmap_r, Forall_Forall2_diag, Forall_forall. intros gk Hg.
      split; [done|]. intros sk. by apply Hsk.
Qed.

Lemma group_trace target ctl data seen t hist :
  group_inv ctl data seen t →
  Forall2 (releases target) (trace (DynamicGroup.action_for_new_object target) t hist)
    (group_rounds ctl data seen hist).
Proof.
  revert data seen t. induction hist as [|bk hist IH]; intros data seen t Hinv; cbn; [constructor|].
  pose proof Hinv as (Hc & Hs & Hsub & Hdom & Hm).
  unfold DynamicGroup.action_for_new_object at 1. rewrite Hc, Hs.
  case_decide as Hgroup.
  - set (seen' := if decide (key_ bk ∈ ctl) then {[key_ bk]} ∪ seen else seen).
    assert (seen' ⊆ ctl) by (unfold seen'; case_decide; set_solver).
    destruct (decide (seen' = ctl)) as [E|E].
    + rewrite decide_True by by rewrite E. constructor.
      * rewrite foldl_snoc. by eapply group_actions_release.
      * apply IH. split_and!; cbn; [done..|set_solver|done|]. intros g k. unfold at_default.
        rewrite lookup_empty. cbn. set_solver.
    + rewrite decide_False by by rewrite size_eq_subseteq. constructor; [done|]. by apply IH.
  - constructor; [done|]. apply IH. split_and!; cbn; [done..| |].
    { rewrite dom_insert_L, Hdom. unfold groups. set_solver. }
    intros g k.
    destruct (decide (g = DynamicGroup.group_of (key_ bk))) as [->|Hg].
    + rewrite at_default_insert. set_solver.
    + rewrite at_default_insert_ne, Hm by done. set_solver.
Qed.

End dynamic_group.

(** ** Properties *)

(** C4: the by-set trigger refines its specification.  Whatever the interleaving
    of the sessions, it fires for exactly the sessions and at exactly the objects
    that complete the key set since the session last fired, each time with every
    key of the set once. *)
Theorem by_set_refines_spec `{UnorderedIter} target ks hist :
  let '(t, acts) := feed (BySet.action_for_new_object target) (fresh_by_set ks) hist in
  let '(p, ss) := spec_run ks (λ _, ∅) hist in
  Forall2 (completes target ks) acts ss ∧
  ∀ s, at_default ∅ s (BySet.session_prepared_keys_map_ t) = p s.
Proof.
  assert (∀ t p, by_set_inv ks p t →
    let '(t, acts) := feed (BySet.action_for_new_object target) t hist in
    let '(p, ss) := spec_run ks p hist in
    by_set_inv ks p t ∧ Forall2 (completes target ks) acts ss) as Hsim.
  { induction hist as [|bk hist IH]; intros t p Hinv; cbn; [by split; [|constructor]|].
    pose proof (by_set_step target ks p t bk Hinv) as Hstep.
    destruct (BySet.action_for_new_object target t bk) as [t1 a1], (spec_step ks p bk) as [p1 s1].
    destruct Hstep as [Hinv1 Ha1]. specialize (IH t1 p1 Hinv1).
    destruct (feed _ t1 hist), (spec_run ks p1 hist). destruct IH. auto using Forall2_app. }
  specialize (Hsim (fresh_by_set ks) (λ _, ∅)).
  destruct (feed _ _ hist), (spec_run _ _ hist). destruct Hsim as [(_ & ? & _) ?]; [|done].
  split_and!; [done| |set_solver]. intros s. unfold at_default; cbn. by rewrite lookup_empty.
Qed.

(** C37: a batch trigger with a positive count neither loses nor duplicates an
    object: the batches, then the buffer, are the objects in the order of their
    arrival, and every batch has exactly [count] of them. *)
Theorem by_batch_size_conserves target count hist :
  0 < count < 2 ^ 31 →
  let '(t, acts) := feed (ByBatchSize.action_for_new_object target) (fresh_batch count) hist in
  concat (session_keys_ <$> acts) ++ ByBatchSize.buffer_ t = object_of <$> hist ∧
  Forall (λ a, function_ a = target ∧ Z.of_nat (length (session_keys_ a)) = count) acts ∧
  Z.of_nat (length (ByBatchSize.buffer_ t)) < count.
Proof.
  intros Hc.
  pose proof (feed_ind (ByBatchSize.action_for_new_object target)
    (λ pre t acts, ByBatchSize.count_ t = count ∧
       concat (session_keys_ <$> acts) ++ ByBatchSize.buffer_ t = object_of <$> pre ∧
       Forall (λ a, function_ a = target ∧ Z.of_nat (length (session_keys_ a)) = count) acts ∧
       Z.of_nat (length (ByBatchSize.buffer_ t)) < count) (fresh_batch count) hist) as Hinv.
  destruct (feed _ _ hist) as [t acts]. cbn in Hinv. apply Hinv; clear Hinv; [split_and!; done || lia|].
  clear t acts. intros pre t acts bk (Ht & Hcat & Hall & Hlen).
  unfold ByBatchSize.action_for_new_object. rewrite Ht, u64_small by lia.
  rewrite length_app. cbn [length]. case_decide; cbn; rewrite (fmap_app object_of), <- Hcat.
  - split_and!; try done; try lia.
    + rewrite fmap_app, concat_app. cbn. by rewrite !app_nil_r, !app_assoc.
    + rewrite Forall_app, Forall_singleton; cbn. split_and!; try done. rewrite length_app; cbn; lia.
  - split_and!; try done; [by rewrite app_nil_r, app_assoc | by rewrite app_nil_r|].
    rewrite length_app; cbn; lia.
Qed.

Lemma by_batch_size_conserves_witness :
  let o i := {| bucket_ := "b"; key_ := i; session_ := "s" |} in
  (λ r, length r.2) (feed (ByBatchSize.action_for_new_object "f") (fresh_batch 2) [o "1"; o "2"; o "3"])
  = 1%nat ∧
  let '(t, acts) := feed (ByBatchSize.action_for_new_object "f") (fresh_batch 2)
                      [o "1"; o "2"; o "3"] in
  concat (session_keys_ <$> acts) ++ ByBatchSize.buffer_ t = [("s", "1"); ("s", "2"); ("s", "3")].
Proof.
  intros o. split; [reflexivity|].
  apply (by_batch_size_conserves "f" 2 [o "1"; o "2"; o "3"]). lia.
Defined.

(** C5: the dynamic-group trigger partitions the data of a round.  Exactly the
    object that completes the control group fires; the actions are one for every group
    of the data keys since the last completion, none for another group, each with
    exactly the keys of its group; no data key is lost or repeated. *)
Theorem dynamic_group_partitions `{UnorderedIter} target ctl hist :
  Forall2 (releases target)
    (trace (DynamicGroup.action_for_new_object target) (fresh_group ctl) hist)
    (group_rounds ctl ∅ ∅ hist).
Proof.
  apply group_trace. split_and!; cbn; [done..|set_solver|done|].
  intros g k. unfold at_default. rewrite lookup_empty. cbn. set_solver.
Qed.

Section redundant.
Context (target : string) (k n : nat) (Hk : (0 < k)%nat) (Hn : Z.of_nat n < 2 ^ 32 - 1)
  (Hkn : Z.of_nat k < 2 ^ 32 - 1).

(** A round: the [k] objects that are used, then those that are dropped. *)
Definition redundant_round : nat := n `max` S k.

Definition redundant_state (h : list BucketKey) : Redundant.RedundantTrigger :=
  let j := length h in {|
    Redundant.k_ := Z.of_nat k; Redundant.n_ := Z.of_nat n;
    Redundant.count_ := if decide (j < redundant_round)%nat then Z.of_nat j else 0;
    Redundant.buffer_ := if decide (j < k)%nat then object_of <$> h else [] |}.

Definition redundant_actions (h : list BucketKey) : list TriggerAction :=
  if decide (length h < k)%nat then []
  else [{| function_ := target; session_keys_ := object_of <$> take k h |}].

Lemma redundant_round_feed h :
  (length h ≤ redundant_round)%nat →
  feed (Redundant.action_for_new_object target) (fresh_redundant (Z.of_nat k) (Z.of_nat n)) h
  = (redundant_state h, redundant_actions h).
Proof using Hk Hn Hkn.
  unfold redundant_round. induction h as [|bk h IH] using rev_ind; intros Hlen.
  { unfold redundant_state, redundant_actions, redundant_round; cbn.
    by rewrite !decide_True by lia. }
  rewrite length_app in Hlen; cbn [length] in Hlen. rewrite feed_app, IH by lia. cbn.
  unfold Redundant.action_for_new_object, redundant_state, redundant_actions, redundant_round. cbn.
  rewrite length_app; cbn [length]. rewrite (decide_True (P := (length h < _)%nat)) by lia.
  rewrite u32_small by lia. destruct (decide (length h < k)%nat) as [Hlt|Hge].
  - rewrite (decide_True (P := _ <= _)) by lia. rewrite (decide_True (P := (_ < n `max` S k)%nat)) by lia.
    destruct (decide (S (length h) = k)) as [E|E].
    + rewrite decide_True by lia. rewrite !decide_False by lia. rewrite take_ge by (rewrite length_app; cbn; lia).
      cbn. rewrite fmap_app. repeat f_equal. lia.
    + rewrite decide_False by lia. rewrite !decide_True by lia. rewrite fmap_app. repeat f_equal. lia.
  - rewrite (decide_False (P := _ <= _)) by lia. rewrite !(decide_False (P := (_ + 1 < k)%nat)) by lia.
    rewrite take_app_le by lia. destruct (decide (Z.of_nat (length h) + 1 >= Z.of_nat n)).
    + rewrite decide_False by lia. done.
    + rewrite decide_True by lia. repeat f_equal. lia.
Qed.

End redundant.

Lemma redundant_state_full k n h :
  length h = redundant_round k n → redundant_state k n h = fresh_redundant (Z.of_nat k) (Z.of_nat n).
Proof.
  unfold redundant_state, redundant_round, fresh_redundant. intros ->.
  by rewrite !decide_False by lia.
Qed.

(** C38: the k-out-of-n trigger works in rounds of [n] objects (of [k + 1] when
    [n <= k]): each round fires once, with its first [k] objects, and drops the
    others. *)
Theorem redundant_fires_once_per_round target k n rounds :
  (0 < k)%nat → Z.of_nat n < 2 ^ 32 - 1 → Z.of_nat k < 2 ^ 32 - 1 →
  Forall (λ r, length r = (n `max` S k)%nat) rounds →
  feed (Redundant.action_for_new_object target) (fresh_redundant (Z.of_nat k) (Z.of_nat n)) (concat rounds)
  = (fresh_redundant (Z.of_nat k) (Z.of_nat n),
     (λ r, {| function_ := target; session_keys_ := object_of <$> take k r |}) <$> rounds).
Proof.
  intros Hk Hn Hkn Hr. induction Hr as [|r rounds Hr Hrs IH]; cbn [concat fmap list_fmap]; [done|].
  rewrite feed_app, redundant_round_feed by (try done; unfold redundant_round; lia).
  rewrite redundant_state_full by done. rewrite IH. cbn.
  unfold redundant_actions. by rewrite decide_False by lia.
Qed.

Lemma redundant_fires_once_per_round_witness :
  let o i := {| bucket_ := "b"; key_ := i; session_ := "s" |} in
  feed (Redundant.action_for_new_object "f") (fresh_redundant 2 3)
    (concat [[o "1"; o "2"; o "3"]; [o "4"; o "5"; o "6"]])
  = (fresh_redundant 2 3,
     [{| function_ := "f"; session_keys_ := [("s", "1"); ("s", "2")] |};
      {| function_ := "f"; session_keys_ := [("s", "4"); ("s", "5")] |}]).
Proof.
  intros o.
  apply (redundant_fires_once_per_round "f" 2 3 [[o "1"; o "2"; o "3"]; [o "4"; o "5"; o "6"]]);
    [lia..|by repeat constructor].
Defined.

(** With [k = n] (every object needed) the object after each complete group of
    [n] is dropped, so the next group is formed from the objects behind it: of
    [n + 1] objects the trigger uses the first [n] and keeps none. *)
Theorem redundant_all_drops_next target (n : nat) (h : list BucketKey) (bk : BucketKey) :
  (0 < n)%nat → Z.of_nat n < 2 ^ 32 - 1 → length h = n →
  feed (Redundant.action_for_new_object target) (fresh_redundant (Z.of_nat n) (Z.of_nat n)) (h ++ [bk])
  = (fresh_redundant (Z.of_nat n) (Z.of_nat n),
     [{| function_ := target; session_keys_ := object_of <$> h |}]).
Proof.
  intros Hn Hb Hh. rewrite redundant_round_feed; try done.
  - rewrite redundant_state_full by (rewrite length_app; unfold redundant_round; cbn; lia).
    unfold redundant_actions. rewrite length_app. cbn. rewrite decide_False by lia.
    by rewrite take_app_length' by done.
  - rewrite length_app; unfold redundant_round; cbn; lia.
Qed.

Lemma redundant_all_drops_next_witness :
  let o i := {| bucket_ := "b"; key_ := i; session_ := "s" |} in
  feed (Redundant.action_for_new_object "f") (fresh_redundant 2 2) ([o "1"; o "2"] ++ [o "3"])
  = (fresh_redundant 2 2, [{| function_ := "f"; session_keys_ := [("s", "1"); ("s", "2")] |}]).
Proof. intros o. apply (redundant_all_drops_next "f" 2 [o "1"; o "2"] (o "3")); [lia..|done]. Defined.

(** ** Triggers travel between nodes as serialized primitives *)

(** A trigger as [gen_trigger_pointer] leaves it: no object seen, no status. *)
Definition same_config (t t' : Trigger) : Prop :=
  target_function_ t = target_function_ t' ∧ trigger_name_ t = trigger_name_ t' ∧
  type_ t = type_ t' ∧
  match impl t, impl t' with
  | ImmediateImpl _, ImmediateImpl _ => True
  | ByNameImpl i, ByNameImpl i' => ByName.key_name_ i = ByName.key_name_ i'
  | ByBatchSizeImpl i, ByBatchSizeImpl i' => ByBatchSize.count_ i = ByBatchSize.count_ i'
  | BySetImpl i, BySetImpl i' => BySet.key_set_ i = BySet.key_set_ i'
  | DynamicGroupImpl i, DynamicGroupImpl i' =>
      DynamicGroup.control_group_ i = DynamicGroup.control_group_ i'
  | RedundantImpl i, RedundantImpl i' =>
      Redundant.k_ i = Redundant.k_ i' ∧ Redundant.n_ i = Redundant.n_ i'
  | ByTimeImpl i, ByTimeImpl i' => ByTime.time_window_ i = ByTime.time_window_ i'
  | _, _ => False
  end.

(** The type tag agrees with the class and the integers fit their types, as the
    constructors leave them. *)
Definition trigger_wf (t : Trigger) : Prop :=
  match impl t with
  | ImmediateImpl _ => type_ t = IMMEDIATE
  | ByNameImpl _ => type_ t = BY_NAME
  | ByBatchSizeImpl i => type_ t = BY_BATCH_SIZE ∧ - 2 ^ 31 ≤ ByBatchSize.count_ i < 2 ^ 31
  | BySetImpl _ => type_ t = BY_SET
  | DynamicGroupImpl _ => type_ t = DYNAMIC_GROUP
  | RedundantImpl i => type_ t = REDUNDANT ∧ 0 ≤ Redundant.k_ i < 2 ^ 32 ∧ 0 ≤ Redundant.n_ i < 2 ^ 32
  | ByTimeImpl i => type_ t = BY_TIME ∧ 0 ≤ ByTime.time_window_ i < 2 ^ 32
  end.

Lemma set_of_iter `{UnorderedIter} (s : gset string) :
  set_of (foldl (λ ks key, ks ++ [key]) [] (set_iter s)) = s.
Proof. unfold set_of. rewrite foldl_snoc_id, foldl_set_insert. apply set_iter_list_to_set. Qed.

(** A trigger as its constructor leaves it, with the same parameters: what the nodes
    share about a trigger, the objects and statuses it has seen being local. *)
Definition config_impl (i : TriggerImpl) : TriggerImpl :=
  match i with
  | ImmediateImpl _ => ImmediateImpl {| Immediate.session_status_cache_ := ∅ |}
  | ByNameImpl i => ByNameImpl {| ByName.key_name_ := ByName.key_name_ i; ByName.session_status_cache_ := ∅ |}
  | ByBatchSizeImpl i => ByBatchSizeImpl {| ByBatchSize.count_ := ByBatchSize.count_ i;
      ByBatchSize.buffer_ := []; ByBatchSize.session_status_cache_ := ∅ |}
  | BySetImpl i => BySetImpl {| BySet.key_set_ := BySet.key_set_ i;
      BySet.session_prepared_keys_map_ := ∅; BySet.func_key_map_ := ∅; BySet.session_status_cache_ := ∅ |}
  | DynamicGroupImpl i => DynamicGroupImpl {| DynamicGroup.data_group_keys_map_ := ∅;
      DynamicGroup.control_group_ := DynamicGroup.control_group_ i; DynamicGroup.cur_control_keys_ := ∅ |}
  | RedundantImpl i => RedundantImpl {| Redundant.k_ := Redundant.k_ i; Redundant.n_ := Redundant.n_ i;
      Redundant.count_ := 0; Redundant.buffer_ := [] |}
  | ByTimeImpl i => ByTimeImpl {| ByTime.time_window_ := ByTime.time_window_ i; ByTime.buffer_ := [];
      ByTime.last_trigger_stamp_ := 0 |}
  end.

Definition config_of (t : Trigger) : Trigger := with_impl t (config_impl (impl t)).

Lemma config_of_same t t' : config_of t = config_of t' → same_config t t'.
Proof.
  destruct t as [? ? ? ? i], t' as [? ? ? ? i']. unfold config_of, same_config, with_impl. cbn.
  intros [= -> -> -> _ Hi]. destruct i, i'; cbn in Hi; try discriminate Hi; by simplify_eq.
Qed.

Lemma config_of_set_option t t' option :
  config_of t = config_of t' → config_of (set_trigger_option t option) = config_of (set_trigger_option t' option).
Proof. unfold config_of, with_impl, set_trigger_option. cbn. by intros [= -> -> -> _ ->]. Qed.

Section config.
Context `{UnorderedIter, PrimitiveMessages}.

(** What the nodes call on a trigger keeps its parameters. *)
Lemma trigger_action_config now t bk : config_of (trigger_action now t bk).1 = config_of t.
Proof.
  destruct t as [target name ty opt [i|i|i|i|i|i|i]]; unfold trigger_action, config_of; cbn;
    unfold ByBatchSize.action_for_new_object, BySet.action_for_new_object, DynamicGroup.action_for_new_object,
      Redundant.action_for_new_object, ByTime.action_for_new_object; repeat case_match; simplify_eq; done.
Qed.

Lemma trigger_clear_config t session : config_of (trigger_clear t session) = config_of t.
Proof. by destruct t as [target name ty opt [i|i|i|i|i|i|i]]. Qed.

Lemma trigger_notify_config t func session args flag :
  config_of (trigger_notify t func session args flag) = config_of t.
Proof.
  destruct t as [target name ty opt [i|i|i|i|i|i|i]]; unfold trigger_notify, trigger_update, config_of; cbn;
    unfold BySet.notify_source_func; repeat case_match; done.
Qed.

Lemma trigger_set_rerun_config t metadata : config_of (trigger_set_rerun t metadata) = config_of t.
Proof.
  destruct t as [target name ty opt [i|i|i|i|i|i|i]]; unfold trigger_set_rerun, trigger_update, config_of; cbn;
    unfold BySet.set_rerun_metadata; repeat case_match; done.
Qed.

Lemma gen_dump_config (now : Z) (t : Trigger) :
  trigger_wf t →
  ∃ t', gen_trigger_pointer now (type_ t) (trigger_name_ t) (trigger_dump t) = Some t' ∧
        config_of t' = config_of (set_trigger_option t 0) ∧ trigger_wf t'.
Proof.
  destruct t as [target name ty opt [i|i|i|i|i|i|i]]; unfold trigger_wf, trigger_dump; cbn;
    [intros ->|intros ->|intros [-> Hc]|intros ->|intros ->|intros (-> & Hk & Hn)|intros [-> Hw]]; cbn;
    eexists; (split; [reflexivity|]); unfold config_of; cbn;
    unfold Immediate.dump_pritimive, ByName.dump_pritimive, ByBatchSize.dump_pritimive,
      BySet.dump_pritimive, DynamicGroup.dump_pritimive, Redundant.dump_pritimive, ByTime.dump_pritimive;
    rewrite Parse_Serialize by
      (first [apply pm_immediate_ok | apply pm_by_name_ok | apply pm_by_set_ok | apply pm_dynamic_group_ok
             | apply pm_by_batch_size_ok, u32_bound | by apply pm_redundant_ok | by apply pm_by_time_ok]); cbn;
    rewrite ?set_of_iter, ?i32_u32, ?i32_small, ?u32_small by done; done.
Qed.

End config.

(** A node that receives a serialized trigger builds a trigger with the same
    target, name, type and parameters, whatever the iteration orders. *)
Theorem gen_dump_roundtrip `{UnorderedIter, PrimitiveMessages} (now : Z) (t : Trigger) :
  trigger_wf t →
  ∃ t', gen_trigger_pointer now (type_ t) (trigger_name_ t) (trigger_dump t) = Some t' ∧
        same_config t t' ∧ trigger_wf t'.
Proof.
  intros (t' & Hgen & Hc & Hwf)%(gen_dump_config now). exists t'. split_and!; try done.
  symmetry in Hc. apply config_of_same in Hc. exact Hc.
Qed.

(** Everything [gen_trigger_pointer] builds is well formed. *)
Lemma gen_wf `{PrimitiveMessages} now type name serialized t :
  gen_trigger_pointer now type name serialized = Some t →
  trigger_wf t ∧ type_ t = type ∧ trigger_name_ t = name ∧ trigger_option_ t = 0.
Proof.
  destruct type; cbn; intros [= <-]; unfold trigger_wf; cbn; split_and!; try done;
    first [apply u32_bound | apply i32_bound].
Qed.

Lemma gen_dump_roundtrip_witness :
  let t := {| target_function_ := "sum"; trigger_name_ := "t_1_sum"; type_ := BY_SET; trigger_option_ := 1;
              impl := BySetImpl (fresh_by_set {["k_a"; "k_b"]}) |} in
  ∃ t', @gen_trigger_pointer bits_primitive_messages 0 BY_SET "t_1_sum"
          (@trigger_dump sorted_iter bits_primitive_messages t) = Some t' ∧
        same_config t t' ∧ trigger_wf t'.
Proof. intros t. apply (@gen_dump_roundtrip sorted_iter bits_primitive_messages 0 t). reflexivity. Defined.

(** ** Re-execution *)

(** The status an announced source function leaves. *)
Definition source_status (func : string) (args : list string) (flag : Z) : TriggerFunctionMetadata :=
  {| func_name_ := func; func_args_ := args; arg_flag_ := flag |}.

(** The classes that remember one source function per session. *)
Definition caches_session (t : Trigger) : Prop :=
  match impl t with ImmediateImpl _ | ByNameImpl _ | ByBatchSizeImpl _ => True | _ => False end.

(** After a source function of a session is announced, and until an object of
    that session arrives, a re-execution is offered with the announced function and
    arguments; the arrival of the object cancels it. *)
Theorem rerun_until_object `{UnorderedIter, PrimitiveMessages} t func session args flag now bk :
  caches_session t →
  let t1 := trigger_notify t func session args flag in
  let t2 := (trigger_action now t1 bk).1 in
  trigger_rerun t1 session = [source_status func args flag] ∧
  trigger_rerun t2 session =
    (if decide (session_ bk = session) then [] else [source_status func args flag]).
Proof.
  destruct t as [target name ty opt [[]|[]|[]|i|i|i|i]]; intros Hc; try (by destruct Hc); cbn;
    unfold Immediate.action_for_rerun, ByName.action_for_rerun, ByBatchSize.action_for_rerun,
      Immediate.notify_source_func, ByName.notify_source_func, ByBatchSize.notify_source_func,
      ByBatchSize.action_for_new_object, cache_rerun, cache_notify;
    cbn; (split; [by rewrite lookup_insert_eq|]);
    repeat case_decide; subst; cbn;
    unfold ByBatchSize.action_for_rerun, cache_rerun; cbn;
    first [by rewrite lookup_delete_eq | by rewrite lookup_delete_ne, lookup_insert_eq].
Qed.

Lemma rerun_until_object_witness :
  let t := make_trigger "f" "t" BY_BATCH_SIZE (ByBatchSizeImpl (fresh_batch 2)) in
  let t1 := @trigger_notify sorted_iter bits_primitive_messages t "src" "s1" ["1"] 0 in
  @trigger_rerun sorted_iter bits_primitive_messages t1 "s1" = [{| func_name_ := "src"; func_args_ := ["1"]; arg_flag_ := 0 |}].
Proof.
  intros t t1.
  apply (@rerun_until_object sorted_iter bits_primitive_messages t "src" "s1" ["1"] 0 0
    {| bucket_ := "b"; key_ := "k"; session_ := "s1" |} I).
Defined.

(** [BySetTrigger::clear] of a session leaves the statuses of that session: they
    are stored under key and session, and erased under the session alone, so the
    source functions of a cleared session are still offered for re-execution. *)
Theorem by_set_clear_keeps_status `{UnorderedIter} (t : BySet.BySetTrigger) func key session args flag :
  BySet.func_key_map_ t !! func = Some key → key ∈ BySet.key_set_ t → key ≠ "" →
  let t1 := BySet.notify_source_func t func session args flag in
  source_status func args flag ∈ BySet.action_for_rerun (BySet.clear t1 session) session.
Proof.
  intros Hf Hin Hk. cbn. unfold BySet.notify_source_func.
  rewrite decide_False by (intros E; by rewrite E in Hf).
  unfold BySet.action_for_rerun; cbn. rewrite decide_False.
  2:{ unfold touch. rewrite Hf. intros E. by rewrite E in Hf. }
  rewrite (foldl_app_bind (λ key, cache_rerun _ (key +:+ session))). cbn.
  unfold at_default. rewrite Hf. cbn. apply list_elem_of_bind.
  exists key. split; [|by apply set_iter_elem].
  - unfold cache_rerun, cache_notify. rewrite lookup_delete_ne, lookup_insert_eq; [by left|].
    intros E. apply Hk. apply (append_inj_r _ "" session); [by rewrite append_nil_l|].
    apply (f_equal String.length) in E. pose proof (size_of_app key session) as Hl.
    unfold size_of in Hl. rewrite <- E in Hl. cbn. lia.
Qed.

Lemma by_set_clear_keeps_status_witness :
  let t := BySet.set_rerun_metadata (fresh_by_set {["k"]})
             [{| source_func_ := "src"; source_key_ := "k"; timeout_ := 10 |}] in
  {| func_name_ := "src"; func_args_ := ["1"]; arg_flag_ := 0 |}
    ∈ @BySet.action_for_rerun sorted_iter
        (BySet.clear (BySet.notify_source_func t "src" "s1" ["1"] 0) "s1") "s1".
Proof.
  intros t. apply (@by_set_clear_keeps_status sorted_iter t "src" "k" "s1" ["1"] 0);
    [reflexivity | evaluate | done].
Defined.

(** ** Time windows *)

(** A history of objects with the clock at their arrival; actions with their time. *)
Fixpoint feed_at (target : string) (t : ByTime.ByTimeTrigger) (hist : list (Z * BucketKey))
    : ByTime.ByTimeTrigger * list (Z * TriggerAction) :=
  match hist with
  | [] => (t, [])
  | (now, bk) :: hist =>
      let '(t, a) := ByTime.action_for_new_object target now t bk in
      let '(t, out) := feed_at target t hist in (t, map (pair now) a ++ out)
  end.

(** Times at least [w] nanoseconds apart, the first after [t0]. *)
Fixpoint spaced (w t0 : Z) (l : list Z) : Prop :=
  match l with [] => True | t :: l => w ≤ t - t0 ∧ spaced w t l end.

Lemma to_ms_at_least d w : 0 < w → to_ms d >= w → w * 1000000 ≤ d.
Proof. unfold to_ms. intros Hw Hd. pose proof (Z.quot_le_upper_bound d 1000000 (w - 1)).
  destruct (Z.le_gt_cases (w * 1000000) d) as [|Hlt]; [done|].
  assert (d ÷ 1000000 < w); [|lia].
  destruct (Z.le_gt_cases 0 d).
  - rewrite Z.quot_div_nonneg by lia. apply Z.div_lt_upper_bound; lia.
  - pose proof (Z.quot_opp_l d 1000000). pose proof (Z.quot_pos (- d) 1000000). lia.
Qed.

(** a time-window trigger passes every object on, in the order of arrival, and
    its actions are at least one window apart. *)
Theorem by_time_windows target t hist :
  0 < ByTime.time_window_ t →
  let '(t', acts) := feed_at target t hist in
  concat ((λ a, session_keys_ a.2) <$> acts) ++ ByTime.buffer_ t'
    = ByTime.buffer_ t ++ ((λ p, object_of p.2) <$> hist) ∧
  spaced (ByTime.time_window_ t * 1000000) (ByTime.last_trigger_stamp_ t) acts.*1.
Proof.
  revert t. induction hist as [|[now bk] hist IH]; intros t Hw; cbn; [by rewrite app_nil_r|].
  unfold ByTime.action_for_new_object. case_decide as Hfire.
  - set (t1 := {| ByTime.time_window_ := _ |}). specialize (IH t1 Hw).
    destruct (feed_at target t1 hist) as [t' out]. cbn in *. destruct IH as [Hcat Hsp]. split.
    + by rewrite <- app_assoc, Hcat, <- app_assoc.
    + split; [by apply to_ms_at_least | done].
  - set (t1 := {| ByTime.time_window_ := _ |}). specialize (IH t1 Hw).
    destruct (feed_at target t1 hist) as [t' out]. cbn in *. destruct IH as [Hcat Hsp].
    split; [|done]. by rewrite Hcat, <- app_assoc.
Qed.

Lemma by_time_windows_witness :
  let t := {| ByTime.time_window_ := 5; ByTime.buffer_ := []; ByTime.last_trigger_stamp_ := 0 |} in
  let o i := {| bucket_ := "b"; key_ := i; session_ := "s" |} in
  (feed_at "f" t [(1000000, o "1"); (6000000, o "2"); (7000000, o "3")]).2
    = [(6000000, {| function_ := "f"; session_keys_ := [("s", "1"); ("s", "2")] |})] ∧
  let '(t', acts) := feed_at "f" t [(1000000, o "1"); (6000000, o "2"); (7000000, o "3")] in
  concat ((λ a, session_keys_ a.2) <$> acts) ++ ByTime.buffer_ t' = [("s", "1"); ("s", "2"); ("s", "3")]
  ∧ spaced 5000000 0 acts.*1.
Proof.
  intros t o. split; [reflexivity|].
  apply (by_time_windows "f" t [(1000000, o "1"); (6000000, o "2"); (7000000, o "3")]). reflexivity.
Defined.
