(* ===== verification/Threads.v ===== *)
(** * Threads and their addresses ([anna_threads.hpp], [kvs_threads.hpp],
    [op_threads.hpp])

    A thread is an ip and a number; each service of it listens on the port of the
    service plus the number.  The classes differ only in their services: one
    [Record] for their members, one [Module] per class for its addresses. *)

From S2P Require Import Prelude CppString.

(** ** Definitions *)

Record Thread := {
  thread_ip : string;
  thread_tid : Z }.

#[export] Instance Thread_eq_dec : EqDecision Thread.
Proof. solve_decision. Defined.

Definition kBindBase : string := "tcp://*:".

(** The member [ip_base_] of every class. *)
Definition ip_base_ (t : Thread) : string := "tcp://" +:+ thread_ip t +:+ ":".

(** [ip_base_ + std::to_string(tid_ + port)] and its bound counterpart. *)
Definition connect_at (port : Z) (t : Thread) : string := ip_base_ t +:+ to_string (u32 (thread_tid t + port)).
Definition bind_at (port : Z) (t : Thread) : string := kBindBase +:+ to_string (u32 (thread_tid t + port)).

(** *** Ports *)
Definition kKeyAddressPort : Z := 6450.
Definition kUserResponsePort : Z := 6800.
Definition kUserKeyAddressPort : Z := 6850.
Definition kCacheUpdatePort : Z := 7150.
Definition funcExecPort : Z := 4300.
Definition internalFuncCallPort : Z := 4350.
Definition dataAccessServerPort : Z := 4400.
Definition dataAccessClientPort : Z := 4450.
Definition forwardFuncPort : Z := 4500.
Definition kRemoteResponsePort : Z := 7500.
Definition kRemoteGetPort : Z := 7550.
Definition kNotifyPort : Z := 7600.
Definition kQueryPort : Z := 7650.
Definition kNotifyHandlerPort : Z := 7350.
Definition kQueryHandlerPort : Z := 7400.
Definition TriggerUpdatePort : Z := 7700.
Definition updateStatusHandlerPort : Z := 7750.
Definition bucketQueryPort : Z := 8150.
Definition bucketUpdatePort : Z := 8250.
Definition funcCreatePort : Z := 5000.
Definition appRegistPort : Z := 5020.
Definition funcCallPort : Z := 5050.
Definition coordSyncPort : Z := 6001.
Definition coordQueryPort : Z := 6002.
Definition oBucketPort : Z := 7800.
Definition oTriggerPort : Z := 7900.

(** *** [CacheThread] *)
Module CacheThread.
Definition cache_get_bind_address (t : Thread) : string := "ipc:///requests/get".
Definition cache_get_connect_address (t : Thread) : string := "ipc:///requests/get".
Definition cache_put_bind_address (t : Thread) : string := "ipc:///requests/put".
Definition cache_put_connect_address (t : Thread) : string := "ipc:///requests/put".
Definition cache_update_bind_address : Thread → string := bind_at kCacheUpdatePort.
Definition cache_update_connect_address : Thread → string := connect_at kCacheUpdatePort.
End CacheThread.

(** *** [UserRoutingThread] *)
Module UserRoutingThread.
Definition key_address_connect_address : Thread → string := connect_at kKeyAddressPort.
Definition key_address_bind_address : Thread → string := bind_at kKeyAddressPort.
End UserRoutingThread.

(** *** [UserThread] *)
Module UserThread.
Definition response_connect_address : Thread → string := connect_at kUserResponsePort.
Definition response_bind_address : Thread → string := bind_at kUserResponsePort.
Definition key_address_connect_address : Thread → string := connect_at kUserKeyAddressPort.
Definition key_address_bind_address : Thread → string := bind_at kUserKeyAddressPort.
End UserThread.

(** *** [KVSThread] *)
Module KVSThread.
Definition local_get_bind_address (t : Thread) : string := "ipc:///requests/get".
Definition local_get_connect_address (t : Thread) : string := "ipc:///requests/get".
Definition local_put_bind_address (t : Thread) : string := "ipc:///requests/put".
Definition local_put_connect_address (t : Thread) : string := "ipc:///requests/put".
Definition remote_get_bind_address : Thread → string := bind_at kRemoteGetPort.
Definition remote_get_connect_address : Thread → string := connect_at kRemoteGetPort.
End KVSThread.

(** *** [CommHelperThread] *)
Module CommHelperThread.
Definition remote_response_bind_address : Thread → string := bind_at kRemoteResponsePort.
Definition remote_response_connect_address : Thread → string := connect_at kRemoteResponsePort.
Definition key_query_bind_address : Thread → string := bind_at kQueryPort.
Definition key_query_connect_address : Thread → string := connect_at kQueryPort.
Definition notify_put_bind_address : Thread → string := bind_at kNotifyPort.
Definition notify_put_connect_address : Thread → string := connect_at kNotifyPort.
Definition trigger_update_bind_address : Thread → string := bind_at TriggerUpdatePort.
Definition trigger_update_connect_address : Thread → string := connect_at TriggerUpdatePort.
Definition data_access_server_bind_address : Thread → string := bind_at dataAccessServerPort.
Definition data_access_server_connect_address : Thread → string := connect_at dataAccessServerPort.
Definition data_access_client_bind_address : Thread → string := bind_at dataAccessClientPort.
Definition data_access_client_connect_address : Thread → string := connect_at dataAccessClientPort.
End CommHelperThread.

(** *** [HandlerThread] *)
Module HandlerThread.
Definition notify_handler_connect_address : Thread → string := connect_at kNotifyHandlerPort.
Definition notify_handler_bind_address : Thread → string := bind_at kNotifyHandlerPort.
Definition key_query_handler_connect_address : Thread → string := connect_at kQueryHandlerPort.
Definition key_query_handler_bind_address : Thread → string := bind_at kQueryHandlerPort.
Definition update_handler_bind_address : Thread → string := bind_at updateStatusHandlerPort.
Definition update_handler_connect_address : Thread → string := connect_at updateStatusHandlerPort.
Definition forward_func_bind_address : Thread → string := bind_at forwardFuncPort.
Definition forward_func_connect_address : Thread → string := connect_at forwardFuncPort.
Definition has_same_ip_tid (t : Thread) (ip : string) (tid : Z) : bool :=
  bool_decide (thread_ip t = ip ∧ thread_tid t = tid).
End HandlerThread.

(** *** [ManagementServerThread] *)
Module ManagementServerThread.
Definition bucket_query_connect_address : Thread → string := connect_at bucketQueryPort.
Definition bucket_query_bind_address : Thread → string := bind_at bucketQueryPort.
Definition bucket_update_connect_address : Thread → string := connect_at bucketUpdatePort.
Definition bucket_update_bind_address : Thread → string := bind_at bucketUpdatePort.
End ManagementServerThread.

(** *** [OperationThread] *)
Module OperationThread.
Definition bucket_op_bind_address : Thread → string := bind_at oBucketPort.
Definition bucket_op_connect_address : Thread → string := connect_at oBucketPort.
Definition trigger_op_bind_address : Thread → string := bind_at oTriggerPort.
Definition trigger_op_connect_address : Thread → string := connect_at oTriggerPort.
Definition func_create_bind_address : Thread → string := bind_at funcCreatePort.
Definition app_regist_bind_address : Thread → string := bind_at appRegistPort.
Definition func_call_bind_address : Thread → string := bind_at funcCallPort.
End OperationThread.

(** ** Lemmas *)

(** The address a notification carries is cut back to the ip: the text between
    ["tcp://"] and the next colon. *)
Definition ip_of_address (addr : string) : result string :=
  substr addr 6 (find addr ":"%char 6 - 6).

Lemma find_from_6 (b c : string) :
  no_char ":"%char b → find ("tcp://" +:+ b +:+ String ":"%char c) ":"%char 6 = 6 + size_of b.
Proof.
  intros Hb. unfold find.
  change (Z.to_nat 6) with (String.length "tcp://"). rewrite drop_string_app.
  by rewrite index_of_char_app by done.
Qed.

Lemma ip_of_connect_address port t :
  no_char ":"%char (thread_ip t) → ip_of_address (connect_at port t) = Ok (thread_ip t).
Proof.
  intros Hip. unfold ip_of_address, connect_at, ip_base_.
  rewrite !append_assoc. rewrite (append_cons ":"%char ""), append_nil_l.
  rewrite find_from_6 by done. replace (6 + size_of (thread_ip t) - 6) with (size_of (thread_ip t)) by lia.
  unfold substr. rewrite decide_False.
  2:{ rewrite size_of_app. pose proof (size_of_nonneg (thread_ip t +:+ String ":"%char (to_string (u32 (thread_tid t + port))))).
      change (size_of "tcp://") with 6. lia. }
  change (Z.to_nat 6) with (String.length "tcp://"). rewrite drop_string_app. f_equal.
  set (rest := String ":"%char (to_string _)). rewrite !size_of_app. change (size_of "tcp://") with 6.
  pose proof (size_of_nonneg (thread_ip t)). pose proof (size_of_nonneg rest).
  rewrite Z.min_l by lia. unfold size_of. rewrite Nat2Z.id. apply take_string_app.
Qed.


(** The ports of one machine's services, whose thread numbers stay below 50. *)
Definition node_ports : list Z :=
  [funcExecPort; internalFuncCallPort; dataAccessServerPort; dataAccessClientPort; forwardFuncPort;
   kNotifyHandlerPort; kQueryHandlerPort; kRemoteResponsePort; kRemoteGetPort; kNotifyPort; kQueryPort;
   TriggerUpdatePort; updateStatusHandlerPort; kUserResponsePort; kUserKeyAddressPort; kCacheUpdatePort;
   oBucketPort; oTriggerPort; funcCallPort; bucketQueryPort; bucketUpdatePort; kKeyAddressPort].

Lemma node_ports_apart p q : p ∈ node_ports → q ∈ node_ports → p = q ∨ 50 ≤ Z.abs (p - q).
Proof.
  assert (Forall (λ p, Forall (λ q, p = q ∨ 50 ≤ Z.abs (p - q)) node_ports) node_ports) as Hall by evaluate.
  intros Hp Hq. by eapply Forall_forall in Hall; [eapply Forall_forall in Hall|].
Qed.

Lemma connect_at_inj p q t u :
  no_char ":"%char (thread_ip t) → no_char ":"%char (thread_ip u) →
  connect_at p t = connect_at q u →
  thread_ip t = thread_ip u ∧ u32 (thread_tid t + p) = u32 (thread_tid u + q).
Proof.
  intros Ht Hu E.
  assert (thread_ip t = thread_ip u) as Hip.
  { apply (f_equal ip_of_address) in E. rewrite !ip_of_connect_address in E by done. by injection E. }
  split; [done|]. unfold connect_at, ip_base_ in E. rewrite Hip in E. rewrite !append_assoc in E.
  apply append_inj_l in E. apply append_inj_l in E. apply append_inj_l in E.
  apply to_string_inj in E; [done|apply u32_bound..].
Qed.

(** ** Properties *)

(** No two services of a machine share an address: distinct services, or one
    service of distinct threads, have distinct addresses, and threads of distinct
    machines too. *)
Theorem service_addresses_distinct p q t u :
  p ∈ node_ports → q ∈ node_ports → 0 ≤ thread_tid t < 50 → 0 ≤ thread_tid u < 50 →
  no_char ":"%char (thread_ip t) → no_char ":"%char (thread_ip u) →
  connect_at p t = connect_at q u → p = q ∧ t = u.
Proof.
  intros Hp Hq Ht Hu Hit Hiu E. apply connect_at_inj in E as [Hip E]; [|done..].
  pose proof (node_ports_apart p q Hp Hq) as Hpq.
  assert (Forall (λ p, 0 ≤ p < 10000) node_ports) as Hb by evaluate.
  assert (0 ≤ p < 10000) by exact (proj1 (Forall_forall _ _) Hb p Hp).
  assert (0 ≤ q < 10000) by exact (proj1 (Forall_forall _ _) Hb q Hq).
  rewrite !u32_small in E by lia. destruct t, u; cbn in *. subst.
  assert (p = q) as -> by lia. split; [done|]. f_equal. lia.
Qed.

Lemma service_addresses_distinct_witness :
  CommHelperThread.key_query_connect_address {| thread_ip := "10.0.0.1"; thread_tid := 1 |}
  ≠ HandlerThread.key_query_handler_connect_address {| thread_ip := "10.0.0.1"; thread_tid := 1 |}.
Proof.
  intros E. eapply service_addresses_distinct in E; [destruct E as [E _]; discriminate E|evaluate|evaluate|..];
    cbn; lia || (repeat split; discriminate).
Defined.
