(* ===== verification/Coordinator.v ===== *)
(** * The coordinator ([coordinator.cpp], [coord_handlers.hpp])

    The state of one coordinator thread and what its handlers share: the address
    map, the status of the nodes, the effects.  A handler takes the message that
    [ParseFromString] gives and returns the new state with the messages it sends,
    or throws; an exception ends the process.  [now] is the clock of the message,
    in nanoseconds; log lines are not modelled. *)

From S2P Require Import Prelude CppString CppDouble Messages Common Triggers Threads.

(** ** State *)

Record NodeStatus := {
  tp_ : Z;
  avail_executors_ : Z;                        (* int *)
  functions_ : gset string }.

(** The entry [operator[]] value-initialises. *)
Definition zero_NodeStatus : NodeStatus := {| tp_ := 0; avail_executors_ := 0; functions_ := ∅ |}.

Definition update_status (now : Z) (avail_executors : Z) (functions : gset string) : NodeStatus :=
  {| tp_ := now; avail_executors_ := avail_executors; functions_ := functions |}.

Record GetAddressResult := {
  error_ : KVSError;
  addr_ : gset string }.

Abbreviation AddressMap := (gmap string (gmap string (gset string))).

(** The maps [run] keeps, and the seed of its thread. *)
Record CoordState := {
  bucket_key_address_map : AddressMap;
  bucket_key_val_map : gmap string string;
  bucket_node_map : gmap string (gset string);
  bucket_triggers_map : gmap string (list Trigger);
  app_buckets_map : gmap string (gset string);
  bucket_app_map : gmap string string;
  node_status_map : gmap string NodeStatus;
  seed : Z }.

Definition initial_CoordState (seed : Z) : CoordState := {|
  bucket_key_address_map := ∅; bucket_key_val_map := ∅; bucket_node_map := ∅;
  bucket_triggers_map := ∅; app_buckets_map := ∅; bucket_app_map := ∅; node_status_map := ∅;
  seed := seed |}.

(** What does not change after start-up. *)
Record CoordConf := {
  private_ip : string;
  thread_id : Z;
  io_thread_num : Z }.

Section setters.
Context (st : CoordState).

Definition set_addresses (m : AddressMap) : CoordState :=
  {| bucket_key_address_map := m; bucket_key_val_map := bucket_key_val_map st;
     bucket_node_map := bucket_node_map st; bucket_triggers_map := bucket_triggers_map st;
     app_buckets_map := app_buckets_map st; bucket_app_map := bucket_app_map st;
     node_status_map := node_status_map st; seed := seed st |}.

Definition set_vals (m : gmap string string) : CoordState :=
  {| bucket_key_address_map := bucket_key_address_map st; bucket_key_val_map := m;
     bucket_node_map := bucket_node_map st; bucket_triggers_map := bucket_triggers_map st;
     app_buckets_map := app_buckets_map st; bucket_app_map := bucket_app_map st;
     node_status_map := node_status_map st; seed := seed st |}.

Definition set_bucket_nodes (m : gmap string (gset string)) : CoordState :=
  {| bucket_key_address_map := bucket_key_address_map st; bucket_key_val_map := bucket_key_val_map st;
     bucket_node_map := m; bucket_triggers_map := bucket_triggers_map st;
     app_buckets_map := app_buckets_map st; bucket_app_map := bucket_app_map st;
     node_status_map := node_status_map st; seed := seed st |}.

Definition set_triggers (m : gmap string (list Trigger)) : CoordState :=
  {| bucket_key_address_map := bucket_key_address_map st; bucket_key_val_map := bucket_key_val_map st;
     bucket_node_map := bucket_node_map st; bucket_triggers_map := m;
     app_buckets_map := app_buckets_map st; bucket_app_map := bucket_app_map st;
     node_status_map := node_status_map st; seed := seed st |}.

Definition set_app_buckets (m : gmap string (gset string)) : CoordState :=
  {| bucket_key_address_map := bucket_key_address_map st; bucket_key_val_map := bucket_key_val_map st;
     bucket_node_map := bucket_node_map st; bucket_triggers_map := bucket_triggers_map st;
     app_buckets_map := m; bucket_app_map := bucket_app_map st;
     node_status_map := node_status_map st; seed := seed st |}.

Definition set_bucket_apps (m : gmap string string) : CoordState :=
  {| bucket_key_address_map := bucket_key_address_map st; bucket_key_val_map := bucket_key_val_map st;
     bucket_node_map := bucket_node_map st; bucket_triggers_map := bucket_triggers_map st;
     app_buckets_map := app_buckets_map st; bucket_app_map := m;
     node_status_map := node_status_map st; seed := seed st |}.

Definition set_nodes (m : gmap string NodeStatus) : CoordState :=
  {| bucket_key_address_map := bucket_key_address_map st; bucket_key_val_map := bucket_key_val_map st;
     bucket_node_map := bucket_node_map st; bucket_triggers_map := bucket_triggers_map st;
     app_buckets_map := app_buckets_map st; bucket_app_map := bucket_app_map st;
     node_status_map := m; seed := seed st |}.

Definition set_seed (z : Z) : CoordState :=
  {| bucket_key_address_map := bucket_key_address_map st; bucket_key_val_map := bucket_key_val_map st;
     bucket_node_map := bucket_node_map st; bucket_triggers_map := bucket_triggers_map st;
     app_buckets_map := app_buckets_map st; bucket_app_map := bucket_app_map st;
     node_status_map := node_status_map st; seed := z |}.

End setters.

(** ** Shared operations *)

Definition get_func_exec_address (ip : string) (io_thread : Z) : string :=
  "tcp://" +:+ ip +:+ ":" +:+ to_string (u32 (funcExecPort + io_thread)).

(** ["tcp://" + ip + ":" + std::to_string(TriggerUpdatePort)]. *)
Definition trigger_update_address (ip : string) : string :=
  "tcp://" +:+ ip +:+ ":" +:+ to_string TriggerUpdatePort.

Definition update_address (bucket_key : BucketKey) (addr : string) (m : AddressMap) : AddressMap :=
  let keys := at_default ∅ (bucket_ bucket_key) m in
  <[bucket_ bucket_key := <[key_ bucket_key := {[addr]} ∪ at_default ∅ (key_ bucket_key) keys]> keys]> m.

Definition get_address (bucket_key : BucketKey) (m : AddressMap) : GetAddressResult :=
  match m !! bucket_ bucket_key with
  | Some keys =>
      match keys !! key_ bucket_key with
      | Some addrs => {| error_ := SUCCESS; addr_ := addrs |}
      | None => {| error_ := KEY_NE; addr_ := ∅ |}
      end
  | None => {| error_ := KEY_NE; addr_ := ∅ |}
  end.

(** [node_status_map[ip].avail_executors_--]. *)
Definition take_executor (ip : string) (m : gmap string NodeStatus) : gmap string NodeStatus :=
  let s := at_default zero_NodeStatus ip m in
  <[ip := {| tp_ := tp_ s; avail_executors_ := avail_executors_ s - 1; functions_ := functions_ s |}]> m.

Section broadcast.
Context `{UnorderedIter}.

(** A message to the trigger update port of every node. *)
Definition broadcast (m : gmap string NodeStatus) (msg : UpdateCoordMsg) : list Send :=
  map (λ p, {| send_to := trigger_update_address p.1; send_msg := MUpdateCoordMsg msg |}) (map_iter m).

End broadcast.

(** The branch of the event loop that records the status a node reports. *)
Definition status_handler (now : Z) (st : CoordState) (msg : UpdateStatusMessage) : CoordState :=
  let ip := usm_ip msg in
  let avail_executors := i32 (usm_avail_executors msg) in
  let functions := foldl (λ s func, {[func]} ∪ s) ∅ (usm_functions msg) in
  match node_status_map st !! ip with
  | Some _ => set_nodes st (<[ip := update_status now avail_executors functions]> (node_status_map st))
  | None =>
      set_nodes st (<[ip := {| tp_ := now; avail_executors_ := avail_executors;
                               functions_ := functions |}]> (node_status_map st))
  end.

(** ** Buckets ([bucket_op_handler.cpp]) *)

Definition bucket_op_handler (st : CoordState) (request : BucketOperationRequest)
    : CoordState * list Send :=
  let bucket_name := bor_bucket_name request in
  let app_name := bor_app_name request in
  let '(st, error) :=
    match bor_operation_type request with
    | CREATE_BUCKET =>
        match bucket_app_map st !! bucket_name with
        | Some _ => (st, BUCKET_EXIST)
        | None =>
            let st := set_app_buckets st
              (<[app_name := {[bucket_name]} ∪ at_default ∅ app_name (app_buckets_map st)]>
                 (app_buckets_map st)) in
            let st := set_bucket_apps st (<[bucket_name := app_name]> (bucket_app_map st)) in
            (st, SUCCESS)
        end
    | DELETE_BUCKET =>
        match bucket_app_map st !! bucket_name with
        | None => (st, BUCKET_NE)
        | Some _ =>
            let st := set_app_buckets st
              (<[app_name := at_default ∅ app_name (app_buckets_map st) ∖ {[bucket_name]}]>
                 (app_buckets_map st)) in
            let st := set_bucket_apps st (delete bucket_name (bucket_app_map st)) in
            let st := set_triggers st (delete bucket_name (bucket_triggers_map st)) in
            (st, SUCCESS)
        end
    | BucketOperationType_other _ => (st, SUCCESS)   (* the error field is not set *)
    end in
  (st, [{| send_to := bor_response_address request;
           send_msg := MBucketOperationResponse {|
             bos_bucket_name := bucket_name; bos_response_id := bor_request_id request;
             bos_error := error |} |}]).

(** ** Triggers ([trigger_op_handler.cpp]) *)

Section trigger_op.
Context `{UnorderedIter, PrimitiveMessages}.

(** The loop that erases every trigger of the name while it walks the vector. *)
Fixpoint erase_triggers (trigger_name : string) (l : list Trigger) : list Trigger * bool :=
  match l with
  | [] => ([], false)
  | t :: l =>
      let '(l, found) := erase_triggers trigger_name l in
      if decide (trigger_name_ t = trigger_name) then (l, true) else (t :: l, found)
  end.

Definition trigger_op_handler (conf : CoordConf) (now : Z) (st : CoordState)
    (request : TriggerOperationRequest) : result (CoordState * list Send) :=
  let bucket_name := tor_bucket_name request in
  let trigger_name := tor_trigger_name request in
  let msg msg_type triggers := {|
    ucm_ip := private_ip conf; ucm_thread_id := thread_id conf; ucm_app_name := tor_app_name request;
    ucm_functions := []; ucm_dependencies := []; ucm_triggers := triggers; ucm_msg_type := msg_type |} in
  '(st, error, trigger_msg) ←
    match tor_operation_type request with
    | ADD_TRIGGER =>
        match bucket_app_map st !! bucket_name with
        | Some _ =>
            match gen_trigger_pointer now (tor_primitive_type request) trigger_name (tor_primitive request) with
            | Some trigger_ptr =>
                let trigger_ptr := set_trigger_option trigger_ptr (i32 (tor_trigger_option request)) in
                let st := set_triggers st
                  (<[bucket_name := at_default [] bucket_name (bucket_triggers_map st) ++ [trigger_ptr]]>
                     (bucket_triggers_map st)) in
                let entity := {|
                  te_bucket_name := bucket_name; te_trigger_name := trigger_name;
                  te_trigger_option := tor_trigger_option request;
                  te_primitive_type := tor_primitive_type request;
                  te_primitive := trigger_dump trigger_ptr; te_session := "";
                  te_hints := tor_hints request |} in
                let triggers := if decide (type_ trigger_ptr ≠ BY_TIME) then [entity] else [] in
                Ok (st, SUCCESS, msg 0 triggers)
            | None => Throw Undefined            (* trigger_ptr->get_type() on nullptr *)
            end
        | None => Ok (st, BUCKET_NE, msg 0 [])
        end
    | DELETE_TRIGGER =>
        match bucket_app_map st !! bucket_name with
        | Some _ =>
            let '(triggers, find_trigger) :=
              erase_triggers trigger_name (at_default [] bucket_name (bucket_triggers_map st)) in
            let st := set_triggers st (<[bucket_name := triggers]> (bucket_triggers_map st)) in
            if find_trigger : bool then
              let entity := {|
                te_bucket_name := bucket_name; te_trigger_name := trigger_name; te_trigger_option := 0;
                te_primitive_type := IMMEDIATE; te_primitive := ""; te_session := ""; te_hints := [] |} in
              Ok (st, SUCCESS, msg 2 [entity])
            else Ok (st, SUCCESS, msg 0 [])      (* the error field is not set *)
        | None => Ok (st, BUCKET_NE, msg 0 [])
        end
    | TriggerOperationType_other _ => Ok (st, SUCCESS, msg 0 [])
    end;
  Ok (st,
    {| send_to := tor_response_address request;
       send_msg := MTriggerOperationResponse {|
         tos_bucket_name := bucket_name; tos_trigger_name := trigger_name;
         tos_response_id := tor_request_id request; tos_error := error |} |}
    :: broadcast (node_status_map st) trigger_msg).

End trigger_op.

(** ** Applications ([app_register_handler.cpp]) *)

Section app_register.
Context `{UnorderedIter, PrimitiveMessages}.

(** [app_buckets_map[app].insert(bucket); bucket_app_map[bucket] = app]. *)
Definition register_bucket (app bucket_name : string) (st : CoordState) : CoordState :=
  let st := set_app_buckets st
    (<[app := {[bucket_name]} ∪ at_default ∅ app (app_buckets_map st)]> (app_buckets_map st)) in
  set_bucket_apps st (<[bucket_name := app]> (bucket_app_map st)).

Definition push_trigger (bucket_name : string) (t : Trigger) (st : CoordState) : CoordState :=
  set_triggers st
    (<[bucket_name := at_default [] bucket_name (bucket_triggers_map st) ++ [t]]> (bucket_triggers_map st)).

(** The entity of a new trigger; [empty_TriggerEntity] with the bucket for the
    types that fill in nothing. *)
Definition trigger_entity (bucket_name : string) (t : Trigger) (type : PrimitiveType) : TriggerEntity := {|
  te_bucket_name := bucket_name; te_trigger_name := trigger_name_ t;
  te_trigger_option := u32 (trigger_option_ t); te_primitive_type := type;
  te_primitive := trigger_dump t; te_session := ""; te_hints := [] |}.

Definition bucket_entity (bucket_name : string) : TriggerEntity := {|
  te_bucket_name := bucket_name; te_trigger_name := ""; te_trigger_option := 0;
  te_primitive_type := IMMEDIATE; te_primitive := ""; te_session := ""; te_hints := [] |}.

(** One dependency: the state and the lists of [coord_msg] it extends. *)
Definition register_dependency (now : Z) (app : string)
    (acc : CoordState * list DataDependency * list TriggerEntity) (dependency : DataDependency)
    : result (CoordState * list DataDependency * list TriggerEntity) :=
  let '(st, deps, entities) := acc in
  if decide (dd_type dependency = DIRECT) then Ok (st, deps ++ [dependency], entities) else
  tgt_function ← vec_at (dd_tgt_functions dependency) 0;
  let bucket_name := "b_" +:+ tgt_function in
  let st := register_bucket app bucket_name st in
  match dd_type dependency with
  | MANY_TO_ONE =>
      let key_names := foldl (λ ks func, {["k_" +:+ func]} ∪ ks) ∅ (dd_src_functions dependency) in
      let trigger_name := "t_" +:+ to_string 1 +:+ "_" +:+ tgt_function in
      let trigger_ptr := make_trigger tgt_function trigger_name BY_SET
        (BySetImpl {| BySet.key_set_ := key_names; BySet.session_prepared_keys_map_ := ∅;
                      BySet.func_key_map_ := ∅; BySet.session_status_cache_ := ∅ |}) in
      Ok (push_trigger bucket_name trigger_ptr st, deps,
          entities ++ [trigger_entity bucket_name trigger_ptr BY_SET])
  | K_OUT_OF_N =>
      let metadata := split (dd_description dependency) ","%char in
      m0 ← vec_at metadata 0;
      k ← stoi m0;
      m1 ← vec_at metadata 1;
      n ← stoi m1;
      let trigger_name := "t_" +:+ to_string 2 +:+ "_" +:+ tgt_function in
      let trigger_ptr := make_trigger tgt_function trigger_name REDUNDANT
        (RedundantImpl {| Redundant.k_ := u32 k; Redundant.n_ := u32 n;
                          Redundant.count_ := 0; Redundant.buffer_ := [] |}) in
      Ok (push_trigger bucket_name trigger_ptr st, deps,
          entities ++ [trigger_entity bucket_name trigger_ptr REDUNDANT])
  | PERIODIC =>
      (* the target and the bucket are computed and registered a second time *)
      let st := register_bucket app bucket_name st in
      time_window ← stoi (dd_description dependency);
      let trigger_name := "t_" +:+ to_string 3 +:+ "_" +:+ tgt_function in
      let trigger_ptr := make_trigger tgt_function trigger_name BY_TIME
        (ByTimeImpl {| ByTime.time_window_ := u32 time_window; ByTime.buffer_ := [];
                       ByTime.last_trigger_stamp_ := now |}) in
      Ok (push_trigger bucket_name trigger_ptr st, deps, entities ++ [bucket_entity bucket_name])
  | _ => Ok (st, deps, entities ++ [bucket_entity bucket_name])
  end.

Definition app_register_handler (conf : CoordConf) (now : Z) (st : CoordState) (appRegist : AppRegistration)
    : result (CoordState * list Send) :=
  let app := ar_app_name appRegist in
  '(st, deps, entities) ← foldM (register_dependency now app) (ar_dependencies appRegist) (st, [], []);
  let coord_msg := {|
    ucm_ip := private_ip conf; ucm_thread_id := thread_id conf; ucm_app_name := app;
    ucm_functions := foldl (λ fs func, fs ++ [func]) [] (ar_functions appRegist);
    ucm_dependencies := deps; ucm_triggers := entities; ucm_msg_type := 0 |} in
  Ok (st, broadcast (node_status_map st) coord_msg).

End app_register.

(** ** Queries ([query_handler.cpp]) *)

Section query.
Context `{UnorderedIter}.

(** The loop over the requested addresses stops at the first error. *)
Fixpoint query_loop (m : AddressMap) (addresses : list BucketKeyAddress)
    : list (BucketKey * GetAddressResult) * KVSError :=
  match addresses with
  | [] => ([], SUCCESS)
  | address :: addresses =>
      let bucket_key := get_bucket_key_from_addr address in
      match m !! bucket_ bucket_key with
      | Some _ =>
          let get_result := get_address bucket_key m in
          if decide (error_ get_result = SUCCESS) then
            let '(results, error) := query_loop m addresses in
            ((bucket_key, get_result) :: results, error)
          else ([(bucket_key, get_result)], error_ get_result)
      | None => ([(bucket_key, {| error_ := BUCKET_NE; addr_ := ∅ |})], BUCKET_NE)
      end
  end.

Definition empty_address : BucketKeyAddress := {|
  bka_bucket := ""; bka_key := ""; bka_session := ""; bka_ips := []; bka_payload := "" |}.

Definition query_address (reported_error : KVSError) (p : BucketKey * GetAddressResult) : BucketKeyAddress :=
  let addr := get_addr_from_bucket_key p.1 empty_address in
  if decide (reported_error = SUCCESS) then
    {| bka_bucket := bka_bucket addr; bka_key := bka_key addr; bka_session := bka_session addr;
       bka_ips := foldl (λ ips ip, ips ++ [ip]) (bka_ips addr) (set_iter (addr_ p.2));
       bka_payload := bka_payload addr |}
  else addr.

Definition query_handler (st : CoordState) (query_request : KeyQueryRequest) : list Send :=
  let '(query_results, reported_error) :=
    query_loop (bucket_key_address_map st) (kqr_addresses query_request) in
  [{| send_to := kqr_response_address query_request;
      send_msg := MKeyQueryResponse {|
        kqs_addresses := map (query_address reported_error) query_results;
        kqs_error := reported_error; kqs_response_id := kqr_request_id query_request |} |}].

End query.
