(* ===== verification/Notify.v ===== *)
(** * New objects at the coordinator ([notify_handler.cpp])

    Each announced object is recorded, offered to the triggers of its bucket, and
    the actions that fire are sent to a worker as function calls: with the values
    themselves when every object of the action is small, otherwise with the names
    and addresses of the objects, to a node that holds one if it has an executor. *)

From S2P Require Import Prelude CppString CppDouble Messages Common Triggers Threads Coordinator.

(** ** Definitions *)

Section notify.
Context `{UnorderedIter, PrimitiveMessages, Rand}.

(** [ip.substr(6, ip.find(":", 6) - 6)] is [ip_of_address]. *)

(** The object is stored: at once with a payload, otherwise for a created bucket
    only; [None] stops the loop over the addresses ([BUCKET_NE]). *)
Definition record_object (st : CoordState) (bucket_key : BucketKey) (addr payload : string)
    : result (option CoordState) :=
  let insert_node st ip :=
    set_bucket_nodes st
      (<[bucket_ bucket_key := {[ip]} ∪ at_default ∅ (bucket_ bucket_key) (bucket_node_map st)]>
         (bucket_node_map st)) in
  let update st := set_addresses st (update_address bucket_key addr (bucket_key_address_map st)) in
  if decide (payload ≠ "") then
    ip ← ip_of_address addr;
    let st := update (insert_node st ip) in
    Ok (Some (set_vals st (<[shm_key_name bucket_key := payload]> (bucket_key_val_map st))))
  else
    match bucket_app_map st !! bucket_ bucket_key with
    | Some _ => ip ← ip_of_address addr; Ok (Some (update (insert_node st ip)))
    | None => Ok None
    end.

(** The loop that collects the values of an action; [None] when one is missing. *)
Fixpoint val_to_batch (vals : gmap string string) (bucket : string) (session_keys : list (string * string))
    : option (list string) :=
  match session_keys with
  | [] => Some []
  | sk :: sks =>
      match vals !! get_local_object_name bucket sk.2 sk.1 with
      | Some v => l ← val_to_batch vals bucket sks; Some (v :: l)
      | None => None
      end
  end.

(** [std::copy] to an [ostream_iterator]: the delimiter after every value. *)
Definition implode (vals : list string) : string :=
  foldl (λ s v, s +:+ v +:+ "|") "" vals.

(** One argument per object, by name: the address is the first of its set, and an
    object without one dereferences [end()]. *)
Fixpoint key_arguments (st : CoordState) (bucket : string) (arg_flag : Z)
    (session_keys : list (string * string))
    : result (CoordState * list Argument * gset string) :=
  match session_keys with
  | [] => Ok (st, [], ∅)
  | sk :: sks =>
      let keys := at_default ∅ bucket (bucket_key_address_map st) in
      let st := set_addresses st
        (<[bucket := touch ∅ sk.2 keys]> (bucket_key_address_map st)) in
      data_address ← nth_iter (set_iter (at_default ∅ sk.2 keys)) 0;
      ip ← ip_of_address data_address;
      '(st, args, data_node) ← key_arguments st bucket arg_flag sks;
      Ok (st,
          {| arg_body := get_local_object_name bucket sk.2 sk.1; arg_arg_flag := u32 arg_flag;
             arg_data_address := data_address |} :: args,
          {[ip]} ∪ data_node)
  end.

(** The two searches for a worker; the first reads [node_status_map[ip]] and so
    adds an entry for an unknown ip. *)
Definition pick_data_node (m : gmap string NodeStatus) (data_node : gset string)
    : gmap string NodeStatus * Z * string :=
  foldl (λ '(m, max_executors, routed_worker) ip,
      let avail := avail_executors_ (at_default zero_NodeStatus ip m) in
      if decide (avail > max_executors) then (touch zero_NodeStatus ip m, avail, ip)
      else (touch zero_NodeStatus ip m, max_executors, routed_worker))
    (m, 0, "") (set_iter data_node).

Definition pick_any_node (m : gmap string NodeStatus) (max_executors : Z) : Z * string :=
  foldl (λ '(max_executors, routed_worker) p,
      if decide (avail_executors_ p.2 > max_executors) then (avail_executors_ p.2, p.1)
      else (max_executors, routed_worker))
    (max_executors, "") (map_iter m).

Definition pick_worker (m : gmap string NodeStatus) (data_node : gset string)
    : gmap string NodeStatus * string :=
  let '(m, max_executors, routed_worker) := pick_data_node m data_node in
  if decide (routed_worker = "") then (m, (pick_any_node m max_executors).2) else (m, routed_worker).

(** One action of a trigger: the call is built and sent to the picked worker. *)
Definition fire_action (conf : CoordConf) (resp_address : string) (bucket_key : BucketKey) (arg_flag : Z)
    (st : CoordState) (action : TriggerAction) : result (CoordState * list Send) :=
  let bucket := bucket_ bucket_key in
  let app_name := at_default "" bucket (bucket_app_map st) in
  let st := set_bucket_apps st (touch "" bucket (bucket_app_map st)) in
  '(st, args, data_node) ←
    match val_to_batch (bucket_key_val_map st) bucket (session_keys_ action) with
    | Some vals =>
        Ok (st, [{| arg_body := implode vals; arg_arg_flag := 0; arg_data_address := "" |}], ∅)
    | None => key_arguments st bucket arg_flag (session_keys_ action)
    end;
  let '(nodes, routed_worker) := pick_worker (node_status_map st) data_node in
  let st := set_nodes st nodes in
  if decide (routed_worker = "") then Ok (st, [])
  else
    let '(r, seed) := rand_r (seed st) in
    tid ← umod r (io_thread_num conf);
    let st := set_nodes (set_seed st seed) (take_executor routed_worker (node_status_map st)) in
    Ok (st, [{| send_to := get_func_exec_address routed_worker tid;
                send_msg := MFunctionCall {|
                  fc_app_name := app_name;
                  fc_requests := [{| fr_name := function_ action; fr_arguments := args;
                                     fr_cpu_cores := S754_zero false; fr_memory_mb := 0 |}];
                  fc_source := ""; fc_request_id := ""; fc_resp_address := resp_address;
                  fc_session_id := session_ bucket_key; fc_sync_data_status := true |} |}]).

Fixpoint fire_actions (conf : CoordConf) (resp_address : string) (bucket_key : BucketKey) (arg_flag : Z)
    (st : CoordState) (actions : list TriggerAction) : result (CoordState * list Send) :=
  match actions with
  | [] => Ok (st, [])
  | action :: actions =>
      '(st, s1) ← fire_action conf resp_address bucket_key arg_flag st action;
      '(st, s2) ← fire_actions conf resp_address bucket_key arg_flag st actions;
      Ok (st, s1 ++ s2)
  end.

(** The loop over the triggers of the bucket; [done] are the ones already offered
    the object, in their new state.  An active trigger sees the object too, but
    its actions were taken by the local scheduler. *)
Fixpoint fire_triggers (conf : CoordConf) (now : Z) (resp_address : string) (active : gset string)
    (bucket_key : BucketKey) (st : CoordState) (done triggers : list Trigger)
    : result (CoordState * list Send * list string) :=
  match triggers with
  | [] => Ok (st, [], [])
  | trigger :: triggers =>
      let '(trigger, actions) := trigger_action now trigger bucket_key in
      let st := set_triggers st
        (<[bucket_ bucket_key := done ++ trigger :: triggers]> (bucket_triggers_map st)) in
      if decide (trigger_name_ trigger ∈ active) then
        fire_triggers conf now resp_address active bucket_key st (done ++ [trigger]) triggers
      else
        let names := match actions with
                     | [] => []
                     | _ => if decide (type_ trigger ≠ BY_TIME) then [trigger_name_ trigger] else []
                     end in
        '(st, s1) ← fire_actions conf resp_address bucket_key (i32 (trigger_option_ trigger + 1)) st actions;
        '(st, s2, names') ←
          fire_triggers conf now resp_address active bucket_key st (done ++ [trigger]) triggers;
        Ok (st, s1 ++ s2, names ++ names')
  end.

(** The nodes that hold objects of the bucket clear the triggers that fired. *)
Definition sync_nodes (bucket_key : BucketKey) (st : CoordState) (triggered_name : list string) : list Send :=
  match triggered_name with
  | [] => []
  | _ =>
      let msg := {|
        ucm_ip := ""; ucm_thread_id := 0; ucm_app_name := ""; ucm_functions := []; ucm_dependencies := [];
        ucm_triggers := map (λ name, {|
            te_bucket_name := bucket_ bucket_key; te_trigger_name := name; te_trigger_option := 0;
            te_primitive_type := IMMEDIATE; te_primitive := ""; te_session := session_ bucket_key;
            te_hints := [] |}) triggered_name;
        ucm_msg_type := 1 |} in
      map (λ ip, {| send_to := trigger_update_address ip; send_msg := MUpdateCoordMsg msg |})
        (set_iter (at_default ∅ (bucket_ bucket_key) (bucket_node_map st)))
  end.

Fixpoint notify_loop (conf : CoordConf) (now : Z) (resp_address : string) (active : gset string)
    (st : CoordState) (addresses : list BucketKeyAddress) : result (CoordState * list Send) :=
  match addresses with
  | [] => Ok (st, [])
  | address :: addresses =>
      let bucket_key := get_bucket_key_from_addr address in
      ip ← vec_at (bka_ips address) 0;
      recorded ← record_object st bucket_key ip (bka_payload address);
      match recorded with
      | None => Ok (st, [])                      (* break *)
      | Some st =>
          let st := set_triggers st (touch [] (bucket_ bucket_key) (bucket_triggers_map st)) in
          '(st, s1, triggered_name) ←
            fire_triggers conf now resp_address active bucket_key st []
              (at_default [] (bucket_ bucket_key) (bucket_triggers_map st));
          '(st, s2) ← notify_loop conf now resp_address active
                        (match triggered_name with
                         | [] => st
                         | _ => set_bucket_nodes st (touch ∅ (bucket_ bucket_key) (bucket_node_map st))
                         end) addresses;
          Ok (st, s1 ++ sync_nodes bucket_key st triggered_name ++ s2)
      end
  end.

Definition notify_handler (conf : CoordConf) (now : Z) (st : CoordState) (request : KeyNotifyRequest)
    : result (CoordState * list Send) :=
  let active_triggers := foldl (λ s trigger, {[trigger]} ∪ s) ∅ (knr_active_trigger_names request) in
  notify_loop conf now (knr_response_address request) active_triggers st (knr_addresses request).

End notify.
