(* ===== verification/DemeterScheduler.v ===== *)
(** * The Demeter scheduler ([demeter_scheduler.cpp])

    An alternative placement of a call's requests: each request gets the smallest
    allocation that holds its input and goes to the node with the highest affinity
    among those with a free executor.  Scores are binary64, computed as the code
    computes them.  The YAML document is given by the values its keys hold
    ([YamlDemeter]), absent keys as [None]. *)

From S2P Require Import Prelude CppString CppDouble Messages Common Coordinator.

(** ** Definitions *)

Record DemeterAllocation := {
  name_ : string;
  cpu_cores_ : double;
  memory_mb_ : Z }.                            (* unsigned *)

Record DemeterNodeProfile := {
  dc_ : string;
  warm_weight_ : double;
  load_weight_ : double;
  locality_weight_ : double }.

Record DemeterSchedulerConfig := {
  enabled_ : bool;
  memory_loss_factor_ : double;
  allocations_ : list DemeterAllocation;
  node_profiles_ : gmap string DemeterNodeProfile }.

Definition default_config : DemeterSchedulerConfig := {|
  enabled_ := false; memory_loss_factor_ := dlit 8 10; allocations_ := []; node_profiles_ := ∅ |}.

Definition clamp_positive (value fallback : double) : double :=
  if dgt value (double_of_Z 0) then value else fallback.

Definition estimate_request_input_mb (req : FunctionRequest) : double :=
  let total_bytes := foldl (λ total arg,
      if decide (arg_body arg ≠ "") then dadd total (double_of_Z (size_of (arg_body arg))) else total)
    (double_of_Z 0) (fr_arguments req) in
  dmax (ddiv total_bytes (dmul (double_of_Z 1024) (double_of_Z 1024))) (double_of_Z 1).

(** The test that [alloc] replaces [best]. *)
Definition better_allocation (alloc best : DemeterAllocation) : bool :=
  bool_decide (memory_mb_ alloc < memory_mb_ best)
  || (bool_decide (memory_mb_ alloc = memory_mb_ best) && dlt (cpu_cores_ alloc) (cpu_cores_ best)).

Definition required_memory (req : FunctionRequest) (config : DemeterSchedulerConfig) : double :=
  ddiv (estimate_request_input_mb req) (clamp_positive (memory_loss_factor_ config) (dlit 8 10)).

Definition allocation_step (required_mb : double) (found : option DemeterAllocation)
    (alloc : DemeterAllocation) : option DemeterAllocation :=
  if dge (double_of_Z (memory_mb_ alloc)) required_mb then
    match found with
    | None => Some alloc
    | Some best => if better_allocation alloc best then Some alloc else found
    end
  else found.

(** [found] and [best] of the code are one option; [front()] is only its initial
    value and is never returned. *)
Definition choose_allocation (req : FunctionRequest) (config : DemeterSchedulerConfig) : DemeterAllocation :=
  match last (allocations_ config) with
  | None => {| name_ := "default"; cpu_cores_ := double_of_Z 1; memory_mb_ := 128 |}
  | Some back =>
      default back (foldl (allocation_step (required_memory req config)) None (allocations_ config))
  end.

Definition node_affinity (addr : string) (status : NodeStatus) (req : FunctionRequest)
    (alloc : DemeterAllocation) (config : DemeterSchedulerConfig) : double :=
  let profile := default {| dc_ := addr; warm_weight_ := dlit 15 100; load_weight_ := dlit 35 100;
                            locality_weight_ := double_of_Z 1 |} (node_profiles_ config !! addr) in
  let warm := bool_decide (fr_name req ∈ functions_ status) in
  let warm_bonus := if warm then warm_weight_ profile else double_of_Z 0 in
  let load_score := dmul (load_weight_ profile) (double_of_Z (avail_executors_ status)) in
  let resource_score := dadd (dmul (dlit 1 100) (cpu_cores_ alloc))
                             (dmul (dlit 1 100000) (double_of_Z (memory_mb_ alloc))) in
  dadd (dadd (dadd load_score warm_bonus) resource_score) (locality_weight_ profile).

(** *** Configuration *)

Record YamlAllocation := {
  ya_name : option string;
  ya_cpu_cores : option double;
  ya_memory_mb : option Z }.

Record YamlNode := {
  yn_ip : option string;
  yn_dc : option string;
  yn_warm_weight : option double;
  yn_load_weight : option double;
  yn_locality_weight : option double }.

Record YamlDemeter := {
  yd_enabled : option Z;
  yd_memory_loss_factor : option double;
  yd_allocations : option (list YamlAllocation);
  yd_nodes : option (list YamlNode) }.

Definition load_allocation (item : YamlAllocation) : DemeterAllocation := {|
  name_ := default "custom" (ya_name item);
  cpu_cores_ := default (double_of_Z 1) (ya_cpu_cores item);
  memory_mb_ := default 128 (ya_memory_mb item) |}.

(** The built-in grid, cores outermost. *)
Definition default_allocations : list DemeterAllocation :=
  c ← [1; 2; 4; 8];
  m ← [128; 512; 1024; 2048; 4096; 8192; 10240];
  [{| name_ := to_string c +:+ "c-" +:+ to_string m +:+ "m"; cpu_cores_ := double_of_Z c; memory_mb_ := m |}].

Definition load_node (profiles : gmap string DemeterNodeProfile) (item : YamlNode)
    : gmap string DemeterNodeProfile :=
  match yn_ip item with
  | None => profiles
  | Some ip =>
      <[ip := {| dc_ := default ip (yn_dc item);
                 warm_weight_ := default (dlit 15 100) (yn_warm_weight item);
                 load_weight_ := default (dlit 35 100) (yn_load_weight item);
                 locality_weight_ := default (double_of_Z 1) (yn_locality_weight item) |}]> profiles
  end.

Definition load_demeter_scheduler_config (conf : option YamlDemeter) : DemeterSchedulerConfig :=
  match conf with
  | None => default_config
  | Some demeter =>
      let allocations := map load_allocation (default [] (yd_allocations demeter)) in
      {| enabled_ := match yd_enabled demeter with Some e => bool_decide (e ≠ 0) | None => false end;
         memory_loss_factor_ := default (dlit 8 10) (yd_memory_loss_factor demeter);
         allocations_ := match allocations with [] => default_allocations | _ => allocations end;
         node_profiles_ := foldl load_node ∅ (default [] (yd_nodes demeter)) |}
  end.

(** *** Scheduling *)

Section schedule.
Context `{UnorderedIter, Rand}.

(** A node the search considers. *)
Definition eligible (source : string) (p : string * NodeStatus) : bool :=
  negb (bool_decide (source ≠ "" ∧ source = p.1)) && negb (bool_decide (avail_executors_ p.2 <= 0)).

Definition affinity_step (config : DemeterSchedulerConfig) (source : string) (req : FunctionRequest)
    (alloc : DemeterAllocation) (acc : double * string) (p : string * NodeStatus) : double * string :=
  let '(best_score, best_node) := acc in
  if eligible source p then
    let score := node_affinity p.1 p.2 req alloc config in
    if dgt score best_score then (score, p.1) else (best_score, best_node)
  else (best_score, best_node).

(** The node with the highest affinity; empty when none scores above minus infinity. *)
Definition best_affinity (config : DemeterSchedulerConfig) (source : string) (req : FunctionRequest)
    (nodes : list (string * NodeStatus)) : string :=
  (foldl (affinity_step config source req (choose_allocation req config)) (minus_infinity, "") nodes).2.

(** [std::advance(it, rand_r(&seed) % size)]. *)
Definition random_node (m : gmap string NodeStatus) (seed : Z) : result string * Z :=
  let '(r, seed) := rand_r seed in
  (p ← nth_iter (map_iter m) (r `mod` Z.of_nat (size m)); Ok p.1, seed).

(** [if (avail > 0) avail--] of [node_status_map[node]]. *)
Definition reserve_executor (node : string) (m : gmap string NodeStatus) : gmap string NodeStatus :=
  if decide (avail_executors_ (at_default zero_NodeStatus node m) > 0) then take_executor node m
  else touch zero_NodeStatus node m.

Record ScheduleState := {
  ss_nodes : gmap string NodeStatus;
  ss_reqs : gmap string (list FunctionRequest);
  ss_seed : Z }.

(** One request of the call. *)
Definition schedule_request (config : DemeterSchedulerConfig) (source : string)
    (st : ScheduleState) (req : FunctionRequest) : result ScheduleState :=
  let best_node := best_affinity config source req (map_iter (ss_nodes st)) in
  '(best_node, seed) ←
    (if decide (best_node = "" ∧ size (ss_nodes st) ≠ 0%nat) then
       let '(n, seed) := random_node (ss_nodes st) (ss_seed st) in n ← n; Ok (n, seed)
     else Ok (best_node, ss_seed st));
  Ok (if decide (best_node ≠ "") then
        {| ss_nodes := reserve_executor best_node (ss_nodes st);
           ss_reqs := <[best_node := at_default [] best_node (ss_reqs st) ++ [req]]> (ss_reqs st);
           ss_seed := seed |}
      else {| ss_nodes := ss_nodes st; ss_reqs := ss_reqs st; ss_seed := seed |}).

(** [CopyFrom], then the resources of the allocation. *)
Definition with_allocation (config : DemeterSchedulerConfig) (req : FunctionRequest) : FunctionRequest :=
  let alloc := choose_allocation req config in
  {| fr_name := fr_name req; fr_arguments := fr_arguments req;
     fr_cpu_cores := cpu_cores_ alloc; fr_memory_mb := memory_mb_ alloc |}.

Definition routed_call (config : DemeterSchedulerConfig) (call_msg : FunctionCall)
    (reqs : list FunctionRequest) : FunctionCall := {|
  fc_app_name := fc_app_name call_msg;
  fc_requests := foldl (λ rs req, rs ++ [with_allocation config req]) [] reqs;
  fc_source := fc_source call_msg; fc_request_id := fc_request_id call_msg;
  fc_resp_address := fc_resp_address call_msg; fc_session_id := fc_session_id call_msg;
  fc_sync_data_status := true |}.

(** The calls by node, the nodes with their reserved executors, the seed. *)
Definition demeter_schedule_function_call (call_msg : FunctionCall) (source : string)
    (nodes : gmap string NodeStatus) (config : DemeterSchedulerConfig) (seed : Z)
    : result (gmap string FunctionCall * gmap string NodeStatus * Z) :=
  if decide (enabled_ config = false ∨ size nodes = 0%nat) then Ok (∅, nodes, seed)
  else
    st ← foldM (schedule_request config source) (fc_requests call_msg)
           {| ss_nodes := nodes; ss_reqs := ∅; ss_seed := seed |};
    Ok (foldl (λ m p, <[p.1 := routed_call config call_msg p.2]> m) ∅ (map_iter (ss_reqs st)),
        ss_nodes st, ss_seed st).

End schedule.

(** ** Lemmas *)

Lemma better_allocation_false a b :
  not_nan (cpu_cores_ a) → not_nan (cpu_cores_ b) →
  better_allocation a b = false ↔
    memory_mb_ b < memory_mb_ a ∨
    (memory_mb_ b = memory_mb_ a ∧ dlt (cpu_cores_ a) (cpu_cores_ b) = false).
Proof.
  intros Ha Hb. unfold better_allocation.
  rewrite orb_false_iff, andb_false_iff, !bool_decide_eq_false.
  split.
  - intros [? [?|Hd]]; [left; lia|]. destruct (decide (memory_mb_ b = memory_mb_ a)); [by right|left; lia].
  - intros [?|[? Hd]]; (split; [lia|]); [left; lia|by right].
Qed.

(** Among the allocations seen, the one kept is the smallest that fits. *)
Lemma allocation_loop required l :
  Forall (λ a, not_nan (cpu_cores_ a)) l →
  match foldl (allocation_step required) None l with
  | None => Forall (λ a, dge (double_of_Z (memory_mb_ a)) required = false) l
  | Some best =>
      best ∈ l ∧ dge (double_of_Z (memory_mb_ best)) required = true ∧
      Forall (λ a, dge (double_of_Z (memory_mb_ a)) required = true → better_allocation a best = false) l
  end.
Proof.
  induction l as [|a l IH] using rev_ind; intros Hn; [constructor|].
  apply Forall_app in Hn as [Hl Ha]. rewrite Forall_singleton in Ha. specialize (IH Hl).
  rewrite foldl_app. cbn. unfold allocation_step at 1.
  destruct (foldl _ None l) as [best|].
  - destruct IH as (Hin & Hfit & Hmin).
    assert (not_nan (cpu_cores_ best)) as Hbest by (rewrite Forall_forall in Hl; auto).
    destruct (dge (double_of_Z (memory_mb_ a)) required) eqn:Hfa.
    + destruct (better_allocation a best) eqn:Hbetter.
      * split_and!; [set_solver|done|]. rewrite Forall_app, Forall_singleton. split.
        -- rewrite Forall_forall in Hl, Hmin |- *. intros x Hx Hfx. specialize (Hmin x Hx Hfx).
           specialize (Hl x Hx). rewrite better_allocation_false in Hmin by done.
           rewrite better_allocation_false by done.
           unfold better_allocation in Hbetter.
           rewrite orb_true_iff, andb_true_iff, !bool_decide_eq_true in Hbetter.
           destruct Hbetter as [|[? Hcpu]], Hmin as [|[? Hcpu']]; [left; lia..|right].
           split; [lia|]. eapply dlt_neg_trans; [| | |exact Hcpu'|]; try done. by apply dlt_asym.
        -- intros _. rewrite better_allocation_false by done. right. split; [done|by apply dlt_irrefl].
      * split_and!; [set_solver|done|]. rewrite Forall_app, Forall_singleton. split; [done|]. auto.
    + split_and!; [set_solver|done|]. rewrite Forall_app, Forall_singleton. split; [done|]. congruence.
  - destruct (dge (double_of_Z (memory_mb_ a)) required) eqn:Hfa.
    + split_and!; [set_solver|done|]. rewrite Forall_app, Forall_singleton. split.
      * eapply Forall_impl; [exact IH|]. cbn. congruence.
      * intros _. rewrite better_allocation_false by done. right. split; [done|by apply dlt_irrefl].
    + rewrite Forall_app, Forall_singleton. done.
Qed.

(** ** Properties *)

(** The allocation of a request is one of the configured ones, and when any of
    them fits the request the chosen one fits and has the least memory, then the
    fewest cores, among those that fit. *)
Theorem choose_allocation_smallest_fit (req : FunctionRequest) (config : DemeterSchedulerConfig) :
  allocations_ config ≠ [] → Forall (λ a, not_nan (cpu_cores_ a)) (allocations_ config) →
  let fits a := dge (double_of_Z (memory_mb_ a)) (required_memory req config) = true in
  let best := choose_allocation req config in
  best ∈ allocations_ config ∧
  ∀ a, a ∈ allocations_ config → fits a →
    fits best ∧ memory_mb_ best ≤ memory_mb_ a ∧
    (memory_mb_ best = memory_mb_ a → dlt (cpu_cores_ a) (cpu_cores_ best) = false).
Proof.
  intros Hne Hn. cbn. pose proof (allocation_loop (required_memory req config) _ Hn) as Hloop.
  unfold choose_allocation. destruct (last (allocations_ config)) as [back|] eqn:Hlast.
  2:{ by apply last_None in Hlast. }
  destruct (foldl _ None _) as [best|]; cbn.
  - destruct Hloop as (Hin & Hfit & Hmin). split; [done|]. intros a Ha Hfa. split; [done|].
    rewrite Forall_forall in Hmin, Hn. specialize (Hmin a Ha Hfa).
    rewrite better_allocation_false in Hmin by auto.
    destruct Hmin as [|[? Hcpu]]; split; (lia || done).
  - split.
    + apply last_Some in Hlast as [l' ->]. set_solver.
    + intros a Ha Hfa. rewrite Forall_forall in Hloop. specialize (Hloop a Ha). congruence.
Qed.

Lemma choose_allocation_smallest_fit_witness :
  let config := load_demeter_scheduler_config
    (Some {| yd_enabled := Some 1; yd_memory_loss_factor := None; yd_allocations := None; yd_nodes := None |}) in
  let req := {| fr_name := "f"; fr_arguments := []; fr_cpu_cores := double_of_Z 0; fr_memory_mb := 0 |} in
  choose_allocation req config ∈ allocations_ config ∧
  memory_mb_ (choose_allocation req config) = 128.
Proof.
  intros config req. split; [|vm_compute; reflexivity].
  apply (choose_allocation_smallest_fit req config); [vm_compute; discriminate | evaluate].
Defined.

(** ** Placement *)

Section placement.
Context `{UnorderedIter, Rand}.
Context (config : DemeterSchedulerConfig) (source : string).

(** The affinity of a node is a number above minus infinity. *)
Definition proper_score (s : double) : bool :=
  bool_decide (not_nan s) && dgt s minus_infinity.

Definition eligible_node (p : string * NodeStatus) : Prop := eligible source p = true.

Definition score_of (req : FunctionRequest) (p : string * NodeStatus) : double :=
  node_affinity p.1 p.2 req (choose_allocation req config) config.

Definition scores_proper (req : FunctionRequest) (nodes : list (string * NodeStatus)) : Prop :=
  Forall (λ p, eligible source p = true → proper_score (score_of req p) = true) nodes.

Lemma eligible_iff p :
  eligible source p = true ↔ ¬ (source ≠ "" ∧ source = p.1) ∧ 0 < avail_executors_ p.2.
Proof.
  unfold eligible. rewrite andb_true_iff, !negb_true_iff, !bool_decide_eq_false.
  split; (intros [? ?]; split; [done|lia]).
Qed.

(** The search over the nodes: a maximum of the eligible ones seen. *)
Lemma affinity_loop req nodes :
  scores_proper req nodes →
  let '(score, node) := foldl (affinity_step config source req (choose_allocation req config))
                          (minus_infinity, "") nodes in
  (score = minus_infinity ∧ node = "" ∧ Forall (λ p, eligible source p = false) nodes) ∨
  (∃ p, p ∈ nodes ∧ node = p.1 ∧ score = score_of req p ∧ eligible source p = true ∧
     proper_score score = true ∧
     Forall (λ q, eligible source q = true → dgt (score_of req q) score = false) nodes).
Proof.
  induction nodes as [|q nodes IH] using rev_ind; intros Hs; [left; split_and!; done|].
  unfold scores_proper in Hs. rewrite Forall_app, Forall_singleton in Hs. destruct Hs as [Hs Hq].
  specialize (IH Hs). rewrite foldl_app. cbn.
  destruct (foldl _ _ nodes) as [score node]. unfold affinity_step.
  destruct (eligible source q) eqn:Eq.
  - specialize (Hq eq_refl). unfold proper_score in Hq. rewrite andb_true_iff, bool_decide_eq_true in Hq.
    destruct Hq as [Hqn Hqi]. fold (score_of req q). destruct IH as [(-> & -> & Hnone)|(p & Hp & -> & -> & Hpe & Hps & Hmax)].
    + rewrite Hqi. right. exists q. split_and!; try done; [set_solver| |].
      * unfold proper_score. by rewrite Hqi, bool_decide_eq_true_2.
      * rewrite Forall_app, Forall_singleton. split.
        -- eapply Forall_impl; [exact Hnone|]. cbn. congruence.
        -- intros _. by apply dlt_irrefl.
    + pose proof Hps as Hps'. unfold proper_score in Hps'. rewrite andb_true_iff, bool_decide_eq_true in Hps'.
      destruct Hps' as [Hpn _]. destruct (dgt (score_of req q) (score_of req p)) eqn:Hgt; right.
      * exists q. split_and!; try done; [set_solver| |].
        -- unfold proper_score. by rewrite Hqi, bool_decide_eq_true_2.
        -- rewrite Forall_app, Forall_singleton. split; [|intros _; by apply dlt_irrefl].
           rewrite Forall_forall in Hmax, Hs |- *. intros x Hx Hxe.
           specialize (Hs x Hx Hxe). unfold proper_score in Hs. rewrite andb_true_iff, bool_decide_eq_true in Hs.
           eapply dlt_neg_trans; [| | |apply dlt_asym, Hgt|by apply Hmax]; tauto.
      * exists p. split_and!; try done; [set_solver|]. rewrite Forall_app, Forall_singleton. done.
  - destruct IH as [(-> & -> & Hnone)|(p & Hp & -> & -> & Hpe & Hps & Hmax)]; [left|right].
    + rewrite Forall_app, Forall_singleton. done.
    + exists p. split_and!; try done; [set_solver|]. rewrite Forall_app, Forall_singleton.
      split; [done|congruence].
Qed.

(** The executors a call can use, and the requests placed on a node. *)
Definition capacity (m : gmap string NodeStatus) : Z :=
  msum (λ n s, if eligible source (n, s) then avail_executors_ s else 0) m.

Lemma capacity_eligible m : 0 < capacity m → ∃ n s, m !! n = Some s ∧ eligible source (n, s) = true.
Proof.
  intros (n & s & Hn & Hs)%msum_pos. exists n, s. split; [done|].
  destruct (eligible source (n, s)); [done|lia].
Qed.

Definition minus_executors (s : NodeStatus) (k : Z) : NodeStatus :=
  {| tp_ := tp_ s; avail_executors_ := avail_executors_ s - k; functions_ := functions_ s |}.

(** Every score the placement of [reqs] may compute is proper. *)
Definition all_scores_proper (m : gmap string NodeStatus) (reqs : list FunctionRequest) : Prop :=
  Forall (λ req, map_Forall (λ n s,
    Forall (λ k, proper_score (score_of req (n, minus_executors s k)) = true)
      (seqZ 0 (avail_executors_ s))) m) reqs.

Definition routed_all (reqs : gmap string (list FunctionRequest)) : list FunctionRequest :=
  map_to_list reqs ≫= snd.

Lemma routed_all_insert n req (reqs : gmap string (list FunctionRequest)) :
  routed_all (<[n := at_default [] n reqs ++ [req]]> reqs) ≡ₚ routed_all reqs ++ [req].
Proof.
  unfold routed_all, at_default. rewrite <- insert_delete_eq, map_to_list_insert by apply lookup_delete_eq.
  cbn. destruct (reqs !! n) as [l|] eqn:E; cbn.
  - rewrite <- (insert_delete_id reqs n l E) at 2. rewrite map_to_list_insert by apply lookup_delete_eq.
    cbn. rewrite <- !app_assoc. by rewrite (Permutation_app_comm [req]).
  - rewrite delete_id by done. by rewrite (Permutation_app_comm _ [req]).
Qed.

(** The invariant of the placement loop. *)
Definition placed (m : gmap string NodeStatus) (pre : list FunctionRequest) (sd : Z) (st : ScheduleState) : Prop :=
  ss_seed st = sd ∧ routed_all (ss_reqs st) ≡ₚ pre ∧
  capacity (ss_nodes st) = capacity m - Z.of_nat (length pre) ∧
  (∀ n, ss_nodes st !! n
        = (λ s, minus_executors s (Z.of_nat (length (at_default [] n (ss_reqs st))))) <$> m !! n) ∧
  (∀ n, at_default [] n (ss_reqs st) ≠ [] → ¬ (source ≠ "" ∧ source = n) ∧
     ∃ s, m !! n = Some s ∧ Z.of_nat (length (at_default [] n (ss_reqs st))) ≤ avail_executors_ s) ∧
  map_Forall (λ _ rs, rs ≠ []) (ss_reqs st).

Lemma reserve_executor_eq n s (m : gmap string NodeStatus) :
  m !! n = Some s → 0 < avail_executors_ s → reserve_executor n m = <[n := minus_executors s 1]> m.
Proof.
  intros Hn Hs. unfold reserve_executor, take_executor, at_default. rewrite Hn. cbn.
  by rewrite decide_True by lia.
Qed.

Lemma placed_step m pre sd st req :
  placed m pre sd st → "" ∉ dom m → all_scores_proper m [req] → 0 < capacity (ss_nodes st) →
  ∃ st', schedule_request config source st req = Ok st' ∧ placed m (pre ++ [req]) sd st'.
Proof.
  intros (Hsd & Hall & Hcap & Hnodes & Hreqs & Hnil) Hne Hprop Hpos.
  unfold all_scores_proper in Hprop. rewrite Forall_singleton in Hprop.
  assert (scores_proper req (map_iter (ss_nodes st))) as Hs.
  { apply Forall_forall. intros [n s] Hin%map_iter_elem He. rewrite Hnodes in Hin.
    apply fmap_Some in Hin as (s0 & Hs0 & ->). apply eligible_iff in He as [_ He]. cbn in He.
    specialize (Hprop n s0 Hs0). rewrite Forall_forall in Hprop. apply Hprop, elem_of_seqZ. lia. }
  pose proof (affinity_loop req _ Hs) as Hloop. unfold schedule_request, best_affinity.
  destruct (foldl _ _ _) as [score node]. cbn.
  destruct Hloop as [(_ & _ & Hnone)|([n s] & Hin & -> & _ & He & _)].
  { apply capacity_eligible in Hpos as (n & s & Hn & He).
    rewrite Forall_forall in Hnone. rewrite (Hnone (n, s)) in He; [done|by apply map_iter_elem]. }
  cbn in Hin |- *. apply map_iter_elem in Hin. pose proof He as [Hsrc Hav]%eligible_iff. cbn in Hsrc, Hav.
  rewrite Hnodes in Hin. apply fmap_Some in Hin as (s0 & Hs0 & ->). cbn in Hav.
  assert (n ≠ "") as Hnn by (intros ->; apply Hne, elem_of_dom; eauto).
  rewrite decide_False by tauto. cbn. rewrite decide_True by done. eexists. split; [reflexivity|].
  set (k := Z.of_nat (length (at_default [] n (ss_reqs st)))) in *.
  assert (ss_nodes st !! n = Some (minus_executors s0 k)) as Hn by (rewrite Hnodes, Hs0; done).
  rewrite (reserve_executor_eq n _ _ Hn) by (cbn; lia). split_and!; cbn.
  - done.
  - by rewrite routed_all_insert, Hall.
  - unfold capacity. rewrite (msum_update _ n _ _ _ Hn). fold (capacity (ss_nodes st)) (capacity m).
    rewrite Hcap, length_app, He. cbn [length avail_executors_ minus_executors].
    destruct (eligible source (n, minus_executors (minus_executors s0 k) 1)) eqn:E1; [lia|].
    apply not_true_iff_false in E1. rewrite eligible_iff in E1. cbn in E1.
    assert (avail_executors_ s0 - k - 1 = 0); [|lia].
    destruct (decide (0 < avail_executors_ s0 - k - 1)); [tauto|lia].
  - intros n'. destruct (decide (n = n')) as [<-|].
    + rewrite lookup_insert_eq, Hs0, at_default_insert, length_app. cbn. f_equal. unfold minus_executors.
      f_equal. cbn. lia.
    + by rewrite lookup_insert_ne, at_default_insert_ne, Hnodes by done.
  - intros n'. destruct (decide (n = n')) as [<-|].
    + intros _. split; [done|]. exists s0. split; [done|]. rewrite at_default_insert, length_app. cbn.
      fold k. lia.
    + rewrite at_default_insert_ne by done. apply Hreqs.
  - apply map_Forall_insert_2; [|done]. by destruct (at_default [] n (ss_reqs st)).
Qed.

Lemma placed_loop m reqs sd :
  "" ∉ dom m → all_scores_proper m reqs → Z.of_nat (length reqs) ≤ capacity m →
  ∃ st, foldM (schedule_request config source) reqs {| ss_nodes := m; ss_reqs := ∅; ss_seed := sd |} = Ok st ∧
        placed m reqs sd st.
Proof.
  intros Hne. induction reqs as [|req reqs IH] using rev_ind; intros Hprop Hcap.
  - eexists. split; [reflexivity|]. split_and!; cbn; [done|done|lia| | |apply map_Forall_empty].
    + intros n. unfold at_default. rewrite lookup_empty. cbn. destruct (m !! n) as [[]|]; cbn; [|done].
      unfold minus_executors; cbn. f_equal. f_equal. lia.
    + intros n. unfold at_default. rewrite lookup_empty. done.
  - unfold all_scores_proper in Hprop. rewrite Forall_app in Hprop. destruct Hprop as [Hprop Hreq].
    rewrite length_app in Hcap. cbn in Hcap. destruct IH as (st & Hst & Hplaced); [done|lia|].
    rewrite foldM_app, Hst. cbn. pose proof Hplaced as (_ & _ & Hc & _).
    destruct (placed_step m reqs sd st req) as (st' & Hst' & Hp'); [done..|lia|].
    rewrite Hst'. eauto.
Qed.

End placement.

(** A request goes to an eligible node (not the source, with a free executor)
    that no other eligible node has a higher affinity than; no node is picked
    exactly when none is eligible. *)
Theorem best_affinity_is_maximal `{UnorderedIter} (config : DemeterSchedulerConfig) source req
    (m : gmap string NodeStatus) :
  scores_proper config source req (map_to_list m) →
  let n := best_affinity config source req (map_iter m) in
  (n = "" ∧ ∀ n' s', m !! n' = Some s' → eligible source (n', s') = false) ∨
  (∃ s, m !! n = Some s ∧ eligible source (n, s) = true ∧
     ∀ n' s', m !! n' = Some s' → eligible source (n', s') = true →
       dgt (score_of config req (n', s')) (score_of config req (n, s)) = false).
Proof.
  intros Hs. assert (scores_proper config source req (map_iter m)) as Hs'.
  { unfold scores_proper in *. by rewrite map_iter_perm. }
  pose proof (affinity_loop config source req _ Hs') as Hloop. cbn. unfold best_affinity.
  destruct (foldl _ _ _) as [score node]. cbn.
  destruct Hloop as [(_ & -> & Hnone)|([n s] & Hin & -> & -> & He & _ & Hmax)]; [left|right].
  - split; [done|]. intros n' s' Hn. rewrite Forall_forall in Hnone. by apply Hnone, map_iter_elem.
  - exists s. apply map_iter_elem in Hin. split_and!; [done..|]. intros n' s' Hn He'.
    rewrite Forall_forall in Hmax. apply (Hmax (n', s')); [by apply map_iter_elem|done].
Qed.

(** C7: with enough free executors outside the source, Demeter places every request
    of the call exactly once, never on the source, never more on a node than it has
    executors, and books one executor for each. *)
Theorem demeter_respects_capacity `{UnorderedIter, Rand} (call : FunctionCall) source
    (m : gmap string NodeStatus) config sd :
  enabled_ config = true → m ≠ ∅ → "" ∉ dom m →
  all_scores_proper config m (fc_requests call) →
  Z.of_nat (length (fc_requests call)) ≤ capacity source m →
  ∃ calls m', demeter_schedule_function_call call source m config sd = Ok (calls, m', sd) ∧
    (map_to_list calls ≫= λ p, fc_requests p.2) ≡ₚ map (with_allocation config) (fc_requests call) ∧
    (∀ n c, calls !! n = Some c →
       ¬ (source ≠ "" ∧ source = n) ∧ fc_session_id c = fc_session_id call ∧
       ∃ s, m !! n = Some s ∧ Z.of_nat (length (fc_requests c)) ≤ avail_executors_ s ∧
            m' !! n = Some (minus_executors s (Z.of_nat (length (fc_requests c))))).
Proof.
  intros Hen Hm Hne Hprop Hcap. unfold demeter_schedule_function_call.
  rewrite decide_False by (rewrite map_size_empty_iff; intros [E|E]; congruence).
  destruct (placed_loop config source m (fc_requests call) sd Hne Hprop Hcap) as (st & Hst & Hp).
  rewrite Hst. cbn. destruct Hp as (-> & Hall & _ & Hnodes & Hreqs & Hnil).
  rewrite (foldl_insert_map (routed_call config call)).
  assert (∀ rs, fc_requests (routed_call config call rs) = map (with_allocation config) rs) as Hrc.
  { intros rs. unfold routed_call. cbn. by rewrite foldl_snoc. }
  eexists _, _. split; [reflexivity|]. split.
  - rewrite <- Hall. unfold routed_all. rewrite map_to_list_fmap.
    induction (map_to_list (ss_reqs st)) as [|[n rs] l IH]; cbn; [done|].
    rewrite foldl_snoc. cbn. by rewrite map_app, <- IH.
  - intros n c. rewrite lookup_fmap. intros (rs & Hrs & ->)%fmap_Some. rewrite Hrc, length_map.
    specialize (Hnodes n). specialize (Hreqs n). unfold at_default in Hnodes, Hreqs. rewrite Hrs in Hnodes, Hreqs.
    cbn in Hnodes, Hreqs. specialize (Hnil n rs Hrs). destruct Hreqs as [Hsrc (s & Hs & Hle)]; [done|].
    split_and!; [done..|]. exists s. by rewrite Hnodes, Hs.
Qed.

(** A small deployment, for the witnesses. *)
Definition demo_config : DemeterSchedulerConfig :=
  load_demeter_scheduler_config
    (Some {| yd_enabled := Some 1; yd_memory_loss_factor := None; yd_allocations := None;
             yd_nodes := Some [{| yn_ip := Some "n2"; yn_dc := None; yn_warm_weight := Some (dlit 3 10);
                                  yn_load_weight := None; yn_locality_weight := None |}] |}).

Definition demo_nodes : gmap string NodeStatus :=
  {["n1" := {| tp_ := 0; avail_executors_ := 2; functions_ := ∅ |};
    "n2" := {| tp_ := 0; avail_executors_ := 1; functions_ := {["f"]} |};
    "n3" := {| tp_ := 0; avail_executors_ := 9; functions_ := {["f"]} |}]}.

Definition demo_request : FunctionRequest :=
  {| fr_name := "f"; fr_arguments := []; fr_cpu_cores := S754_zero false; fr_memory_mb := 0 |}.

Definition demo_call : FunctionCall := {|
  fc_app_name := "app"; fc_requests := [demo_request; demo_request; demo_request]; fc_source := "n3";
  fc_request_id := "7"; fc_resp_address := ""; fc_session_id := "0123456789abcdef";
  fc_sync_data_status := false |}.

Lemma best_affinity_is_maximal_witness :
  let n := @best_affinity demo_config "n3" demo_request (@map_iter sorted_iter _ _ _ _ demo_nodes) in
  (n = "" ∧ ∀ n' s', demo_nodes !! n' = Some s' → eligible "n3" (n', s') = false) ∨
  (∃ s, demo_nodes !! n = Some s ∧ eligible "n3" (n, s) = true ∧
     ∀ n' s', demo_nodes !! n' = Some s' → eligible "n3" (n', s') = true →
       dgt (score_of demo_config demo_request (n', s')) (score_of demo_config demo_request (n, s)) = false).
Proof.
  apply (@best_affinity_is_maximal sorted_iter). unfold scores_proper. evaluate.
Defined.

Lemma demeter_respects_capacity_witness :
  ∃ calls m', @demeter_schedule_function_call sorted_iter lcg_rand demo_call "n3" demo_nodes demo_config 1
                = Ok (calls, m', 1) ∧
    (map_to_list calls ≫= λ p, fc_requests p.2)
      ≡ₚ map (with_allocation demo_config) [demo_request; demo_request; demo_request].
Proof.
  destruct (@demeter_respects_capacity sorted_iter lcg_rand demo_call "n3" demo_nodes demo_config 1)
    as (calls & m' & Hrun & Hperm & _).
  - reflexivity.
  - vm_compute. discriminate.
  - evaluate.
  - unfold all_scores_proper. evaluate.
  - vm_compute. discriminate.
  - exists calls, m'. split; [exact Hrun | exact Hperm].
Defined.
