(* ===== verification/FuncCall.v ===== *)
(** * Function calls at the coordinator ([func_call_handler.cpp])

    A call is routed to the local schedulers: by the Demeter scheduler when it is
    enabled, else a single request goes to the node with the most free executors,
    and a batch goes to one node that can take it whole or is spread round-robin
    over the free executors of all nodes. *)

From S2P Require Import Prelude CppString CppDouble Messages Common Threads Coordinator DemeterScheduler.

(** ** Definitions *)

Section func_call.
Context `{UnorderedIter, Rand}.

(** [if (!source.empty() && source == pair.first) continue]. *)
Definition is_source (source : string) (ip : string) : bool := bool_decide (source ≠ "" ∧ source = ip).

Record AvailNodes := {
  total_executors : Z;
  avail_nodes : list (string * Z);
  max_executors : Z;
  node_with_max_executors : string }.

(** The loop over the nodes before a batch; the sum of the free executors is an [int] that
    is taken not to overflow. *)
Definition collect_step (source : string) (acc : AvailNodes) (p : string * NodeStatus) : AvailNodes :=
  if is_source source p.1 then acc else
  let avail := avail_executors_ p.2 in
  let acc :=
    if decide (avail > 0) then
      {| total_executors := total_executors acc + avail; avail_nodes := avail_nodes acc ++ [(p.1, avail)];
         max_executors := max_executors acc; node_with_max_executors := node_with_max_executors acc |}
    else acc in
  if decide (avail > max_executors acc) then
    {| total_executors := total_executors acc; avail_nodes := avail_nodes acc;
       max_executors := avail; node_with_max_executors := p.1 |}
  else acc.

Definition collect_nodes (source : string) (m : gmap string NodeStatus) : AvailNodes :=
  foldl (collect_step source)
    {| total_executors := 0; avail_nodes := []; max_executors := 0; node_with_max_executors := "" |}
    (map_iter m).

(** [while (avail_nodes[node_idx].second <= 0) node_idx = (node_idx + 1) % size]:
    the fuel bounds the turns; a loop with no effect that never ends is undefined. *)
Fixpoint next_avail (fuel : nat) (avail : list (string * Z)) (node_idx : nat) : result nat :=
  match fuel with
  | O => Throw Undefined
  | S fuel =>
      n ← vec_at avail node_idx;
      if decide (n.2 <= 0) then next_avail fuel avail (S node_idx `mod` length avail)%nat
      else Ok node_idx
  end.

Record Spread := {
  sp_avail : list (string * Z);
  sp_loads : list Z;                           (* node_loads *)
  sp_idx : nat }.

(** One turn of the assignment loop: one request for the next node with a slot. *)
Definition assign_step (s : Spread) : result Spread :=
  idx ← next_avail (length (sp_avail s)) (sp_avail s) (sp_idx s);
  load ← vec_at (sp_loads s) idx;
  n ← vec_at (sp_avail s) idx;
  Ok {| sp_avail := <[idx := (n.1, n.2 - 1)]> (sp_avail s);
        sp_loads := <[idx := load + 1]> (sp_loads s);
        sp_idx := (S idx `mod` length (sp_avail s))%nat |}.

Definition node_loads (avail : list (string * Z)) (req_num : nat) : result Spread :=
  foldM (λ s _, assign_step s) (seq 0 req_num)
    {| sp_avail := avail; sp_loads := replicate (length avail) 0; sp_idx := 0 |}.

Record Parts := {
  pt_requests : list FunctionRequest;          (* routed_call.requests() *)
  pt_load : Z;
  pt_idx : nat;
  pt_msgs : gmap string FunctionCall }.

(** A part of a split call: its name, response address and requests are set. *)
Definition part_call (call : FunctionCall) (reqs : list FunctionRequest) : FunctionCall := {|
  fc_app_name := fc_app_name call; fc_requests := reqs; fc_source := ""; fc_request_id := "";
  fc_resp_address := fc_resp_address call; fc_session_id := ""; fc_sync_data_status := true |}.

Definition split_step (call : FunctionCall) (avail : list (string * Z)) (loads : list Z)
    (s : Parts) (req : FunctionRequest) : result Parts :=
  let reqs := pt_requests s ++ [req] in
  let cur_load := pt_load s + 1 in
  load ← vec_at loads (pt_idx s);
  if decide (cur_load = load) then
    n ← vec_at avail (pt_idx s);
    Ok {| pt_requests := []; pt_load := 0; pt_idx := S (pt_idx s);
          pt_msgs := <[n.1 := part_call call reqs]> (pt_msgs s) |}
  else Ok {| pt_requests := reqs; pt_load := cur_load; pt_idx := pt_idx s; pt_msgs := pt_msgs s |}.

Definition split_call (call : FunctionCall) (s : Spread) : result (gmap string FunctionCall) :=
  parts ← foldM (split_step call (sp_avail s) (sp_loads s)) (fc_requests call)
            {| pt_requests := []; pt_load := 0; pt_idx := 0; pt_msgs := ∅ |};
  Ok (pt_msgs parts).

Definition batch_schedule (call : FunctionCall) (m : gmap string NodeStatus)
    : result (gmap string FunctionCall) :=
  let req_num := Z.of_nat (length (fc_requests call)) in
  let c := collect_nodes (fc_source call) m in
  if decide (max_executors c >= req_num) then Ok {[node_with_max_executors c := call]}
  else if decide (total_executors c >= req_num) then
    s ← node_loads (avail_nodes c) (length (fc_requests call));
    split_call call s
  else Ok ∅.

Definition max_step (source : string) (acc : Z * string) (p : string * NodeStatus) : Z * string :=
  if is_source source p.1 then acc
  else if decide (avail_executors_ p.2 > acc.1) then (avail_executors_ p.2, p.1) else acc.

Definition single_schedule (call : FunctionCall) (m : gmap string NodeStatus) (seed : Z)
    : result (gmap string FunctionCall) * Z :=
  let '(max_executors, node) := foldl (max_step (fc_source call)) (0, "") (map_iter m) in
  if decide (max_executors > 0) then (Ok {[node := call]}, seed)
  else if decide (size m ≠ 0%nat) then
    let '(n, seed) := random_node m seed in (n ← n; Ok {[n := call]}, seed)
  else (Ok ∅, seed).

(** The messages to the schedulers, each to a random io thread. *)
Fixpoint send_calls (io_thread_num : Z) (seed : Z) (msgs : list (string * FunctionCall)) : result (list Send * Z) :=
  match msgs with
  | [] => Ok ([], seed)
  | (ip, call) :: msgs =>
      let '(r, seed) := rand_r seed in
      tid ← umod r io_thread_num;
      '(sends, seed) ← send_calls io_thread_num seed msgs;
      Ok ({| send_to := get_func_exec_address ip tid; send_msg := MFunctionCall call |} :: sends, seed)
  end.

(** [if (session_id().empty())]: a random session id in 16 bytes. *)
Definition with_session (call : FunctionCall) (seed : Z) : FunctionCall * Z :=
  if decide (fc_session_id call = "") then
    let '(session_id, seed) := gen_random seed 16 in
    ({| fc_app_name := fc_app_name call; fc_requests := fc_requests call; fc_source := fc_source call;
        fc_request_id := fc_request_id call; fc_resp_address := fc_resp_address call;
        fc_session_id := session_id; fc_sync_data_status := fc_sync_data_status call |}, seed)
  else (call, seed).

Definition func_call_handler (conf : CoordConf) (demeter_config : DemeterSchedulerConfig) (st : CoordState)
    (request : FunctionCall) : result (CoordState * list Send) :=
  let '(call_msg, seed) := with_session request (seed st) in
  let st := set_seed st seed in
  '(scheduled, st) ←
    (if enabled_ demeter_config then
       '(calls, nodes, seed) ← demeter_schedule_function_call call_msg (fc_source call_msg)
                                 (node_status_map st) demeter_config seed;
       Ok (calls, set_nodes (set_seed st seed) nodes)
     else Ok (∅, st));
  '(scheduled, st) ←
    (if decide (size scheduled ≠ 0%nat) then Ok (scheduled, st)
     else if decide (1 < length (fc_requests call_msg))%nat then
       calls ← batch_schedule call_msg (node_status_map st); Ok (calls, st)
     else
       let '(calls, seed) := single_schedule call_msg (node_status_map st) (Coordinator.seed st) in
       calls ← calls; Ok (calls, set_seed st seed));
  if decide (size scheduled = 0%nat) then
    Ok (st,
      if decide (fc_resp_address call_msg ≠ "") then
        [{| send_to := fc_resp_address call_msg;
            send_msg := MFunctionCallResponse {|
              fcr_app_name := fc_app_name call_msg; fcr_request_id := fc_request_id call_msg;
              fcr_output := ""; fcr_error_no := 1 |} |}]
      else [])
  else
    '(sends, seed) ← send_calls (io_thread_num conf) (Coordinator.seed st) (map_iter scheduled);
    Ok (set_seed st seed, sends).

End func_call.

(** ** Lemmas: the nodes a batch can use *)

Lemma is_source_false source ip : is_source source ip = false ↔ ¬ (source ≠ "" ∧ source = ip).
Proof. apply bool_decide_eq_false. Qed.

Section collect.
Context `{UnorderedIter} (source : string) (m : gmap string NodeStatus).

Lemma collect_nodes_spec :
  let c := collect_nodes source m in
  NoDup (avail_nodes c).*1 ∧
  (∀ n a, (n, a) ∈ avail_nodes c ↔
     ¬ (source ≠ "" ∧ source = n) ∧ 0 < a ∧ ∃ s, m !! n = Some s ∧ avail_executors_ s = a) ∧
  total_executors c = zsum snd (avail_nodes c) ∧
  (∀ n a, (n, a) ∈ avail_nodes c → a ≤ max_executors c) ∧
  (max_executors c = 0 ∨ (node_with_max_executors c, max_executors c) ∈ avail_nodes c).
Proof.
  cbn. unfold collect_nodes.
  assert (∀ l, NoDup l.*1 → let c := foldl (collect_step source)
      {| total_executors := 0; avail_nodes := []; max_executors := 0; node_with_max_executors := "" |} l in
    avail_nodes c = (λ p, (p.1, avail_executors_ p.2)) <$>
      filter (λ p, is_source source p.1 = false ∧ 0 < avail_executors_ p.2) l ∧
    total_executors c = zsum snd (avail_nodes c) ∧ 0 ≤ max_executors c ∧
    (∀ n a, (n, a) ∈ avail_nodes c → a ≤ max_executors c) ∧
    (max_executors c = 0 ∨ (node_with_max_executors c, max_executors c) ∈ avail_nodes c)) as Hloop.
  { intros l Hl. induction l as [|p l IH] using rev_ind; cbn; [split_and!; try done; [set_solver|by left]|].
    rewrite fmap_app, NoDup_app in Hl. specialize (IH (proj1 Hl)). rewrite foldl_app. cbn.
    destruct (foldl _ _ l) as [t av mx nd]; cbn in IH. destruct IH as (-> & -> & H0 & Hmax & Hnode).
    unfold collect_step. rewrite filter_app, fmap_app. destruct (is_source source p.1) eqn:Es.
    - rewrite (filter_cons_False _ p) by (intros [? _]; congruence). rewrite app_nil_r. done.
    - destruct (decide (avail_executors_ p.2 > 0)) as [Hpos|Hpos].
      + rewrite (filter_cons_True _ p) by (split; [done|lia]). cbn.
        destruct (decide (avail_executors_ p.2 > mx)); cbn; (split; [done|]);
          rewrite zsum_app; cbn; (split_and!; [lia|lia| |]).
        * intros ip a [Hin|Hin%list_elem_of_singleton]%elem_of_app; [specialize (Hmax ip a Hin); lia|].
          injection Hin as -> ->. lia.
        * right. set_solver.
        * intros ip a [Hin|Hin%list_elem_of_singleton]%elem_of_app; [by eauto|].
          injection Hin as -> ->. lia.
        * destruct Hnode; [by left|right; set_solver].
      + rewrite (filter_cons_False _ p) by (intros [_ ?]; lia). rewrite app_nil_r.
        cbn. rewrite decide_False by lia. done. }
  destruct (Hloop (map_iter m) (map_iter_NoDup m)) as (-> & -> & _ & Hmax & Hnode).
  split_and!; [| |done..].
  - rewrite <- list_fmap_compose. apply (sublist_NoDup _ (map_iter m).*1); [apply map_iter_NoDup|].
    apply (fmap_sublist fst), sublist_filter.
  - intros n a. rewrite list_elem_of_fmap. split.
    + intros ([n' s] & [= -> ->] & [[Hs%is_source_false Hp] Hin]%list_elem_of_filter).
      apply map_iter_elem in Hin. cbn in *. eauto.
    + intros (Hs & Hp & s & Hm & <-). exists (n, s). split; [done|].
      rewrite list_elem_of_filter, map_iter_elem. cbn. rewrite is_source_false. done.
Qed.

End collect.

(** ** Lemmas: the round-robin assignment *)

Section round_robin.
Context (A : list (string * Z)) (Hpos : Forall (λ p, 0 < p.2) A).

Lemma next_avail_spec fuel avail idx d p :
  (d < fuel)%nat → (idx < length avail)%nat →
  avail !! ((idx + d) `mod` length avail)%nat = Some p → 0 < p.2 →
  ∃ i q, next_avail fuel avail idx = Ok i ∧ avail !! i = Some q ∧ 0 < q.2 ∧
         (∀ q', avail !! idx = Some q' → 0 < q'.2 → i = idx).
Proof.
  revert d idx. induction fuel as [|fuel IH]; intros d idx Hd Hidx Hp Hpp; [lia|]. cbn [next_avail].
  destruct (lookup_lt_is_Some_2 avail idx Hidx) as [q Hq]. unfold vec_at. rewrite Hq. cbn.
  case_decide as Hq0; [|exists idx, q; split_and!; [done..|lia|done]].
  destruct d as [|d].
  { rewrite Nat.add_0_r, Nat.mod_small in Hp by done. rewrite Hp in Hq. injection Hq as ->. lia. }
  destruct (IH d (S idx `mod` length avail)%nat) as (i & q' & Hi & Hqi & Hqp & _); [lia| | |done|].
  - apply Nat.mod_upper_bound. lia.
  - rewrite Nat.Div0.add_mod_idemp_l. replace (S idx + d)%nat with (idx + S d)%nat by lia. done.
  - exists i, q'. split_and!; [done..|]. intros q'' [= <-]. lia.
Qed.

Lemma ring_distance N i j : (i < N)%nat → (j < N)%nat → ∃ d, (d < N)%nat ∧ ((i + d) `mod` N)%nat = j.
Proof.
  intros Hi Hj. destruct (decide (i ≤ j)%nat).
  - exists (j - i)%nat. split; [lia|]. replace (i + (j - i))%nat with j by lia. by apply Nat.mod_small.
  - exists (N - i + j)%nat. split; [lia|]. replace (i + (N - i + j))%nat with (j + 1 * N)%nat by lia.
    rewrite Nat.Div0.mod_add. by apply Nat.mod_small.
Qed.

(** Loads and remaining slots; until every node has a request the loads are ones
    up to the index and zeros behind it. *)
Definition spread_inv (i : nat) (s : Spread) : Prop :=
  length (sp_loads s) = length A ∧ (sp_idx s < length A)%nat ∧
  sp_avail s = zip_with (λ a l, (a.1, a.2 - l)) A (sp_loads s) ∧
  (∀ j a l, A !! j = Some a → sp_loads s !! j = Some l → 0 ≤ l ≤ a.2) ∧
  zsum id (sp_loads s) = Z.of_nat i ∧
  (Forall (λ l, 0 < l) (sp_loads s) ∨
   ∀ j l, sp_loads s !! j = Some l → ((j < sp_idx s)%nat → 0 < l) ∧ ((sp_idx s ≤ j)%nat → l = 0)).

Lemma zsum_insert (g : Z → Z) l j x y :
  l !! j = Some x → zsum g (<[j := y]> l) = zsum g l - g x + g y.
Proof.
  revert j. induction l as [|z l IH]; intros [|j]; cbn; intros Hj; [done..| |].
  - injection Hj as ->. lia.
  - pose proof (IH j Hj) as E. unfold insert in *. lia.
Qed.

Lemma zsum_zip (l : list Z) :
  length l = length A →
  zsum snd (zip_with (λ a l, (a.1, a.2 - l)) A l) = zsum snd A - zsum id l.
Proof.
  clear Hpos. revert l. induction A as [|a A' IH]; intros [|x l]; cbn; intros Hl; try done.
  rewrite IH by lia. unfold id. lia.
Qed.

Lemma zsum_pos_elem (l : list (string * Z)) : 0 < zsum snd l → ∃ j p, l !! j = Some p ∧ 0 < p.2.
Proof.
  induction l as [|p l IH]; cbn; [lia|]. intros Hs. destruct (decide (0 < p.2)).
  - by exists 0%nat, p.
  - destruct IH as (j & q & ? & ?); [lia|]. by exists (S j), q.
Qed.

Lemma zip_with_insert (l : list Z) j a x :
  A !! j = Some a → zip_with (λ a l, (a.1, a.2 - l)) A (<[j := x]> l)
  = <[j := (a.1, a.2 - x)]> (zip_with (λ a l, (a.1, a.2 - l)) A l).
Proof.
  clear Hpos. revert j l. induction A as [|b A' IH]; intros [|j] [|y l]; cbn; intros Hj; try done.
  - by injection Hj as ->.
  - by rewrite IH.
Qed.

Lemma assign_step_spec i s :
  spread_inv i s → Z.of_nat i < zsum snd A → ∃ s', assign_step s = Ok s' ∧ spread_inv (S i) s'.
Proof using Hpos.
  intros (Hlen & Hidx & Hav & Hb & Hsum & Hpre) Hi.
  assert (length (sp_avail s) = length A) as HlenA by (rewrite Hav, length_zip_with; lia).
  assert (0 < zsum snd (sp_avail s)) as Hrem by (rewrite Hav, zsum_zip by done; lia).
  apply zsum_pos_elem in Hrem as (j & p & Hj & Hp).
  assert (j < length A)%nat as HjA by (rewrite <- HlenA; by eapply lookup_lt_Some).
  destruct (ring_distance (length A) (sp_idx s) j Hidx HjA) as (d & Hd & Hdj).
  destruct (next_avail_spec (length A) (sp_avail s) (sp_idx s) d p) as (k & q & Hk & Hq & Hqp & Hstay);
    [done|by rewrite HlenA|by rewrite HlenA, Hdj|done|].
  assert (k < length A)%nat as HkA by (rewrite <- HlenA; by eapply lookup_lt_Some).
  destruct (lookup_lt_is_Some_2 A k HkA) as [a Ha].
  destruct (lookup_lt_is_Some_2 (sp_loads s) k) as [l Hl]; [lia|].
  assert (q = (a.1, a.2 - l)) as -> by (rewrite Hav, lookup_zip_with, Ha in Hq; cbn in Hq; rewrite Hl in Hq; by injection Hq).
  cbn in Hqp. unfold assign_step. rewrite HlenA, Hk. cbn. unfold vec_at. rewrite Hl, Hq. cbn.
  eexists. split; [reflexivity|]. pose proof (Hb k a l Ha Hl).
  split_and!; cbn; [by rewrite length_insert| |..].
  - apply Nat.mod_upper_bound. lia.
  - rewrite (zip_with_insert _ _ a) by done. rewrite Hav. f_equal. f_equal. lia.
  - intros j' a' l' Ha' [[-> [<- _]]|[Hne Hl']]%list_lookup_insert_Some; [|by eauto].
    rewrite Ha in Ha'. injection Ha' as <-. lia.
  - rewrite (zsum_insert id _ k l) by done. unfold id in *. lia.
  - destruct Hpre as [Hall|Hpre].
    + left. apply Forall_insert; [done|]. rewrite Forall_lookup in Hall. specialize (Hall _ _ Hl). lia.
    + assert (k = sp_idx s) as ->.
      { destruct (lookup_lt_is_Some_2 (sp_avail s) (sp_idx s)) as [q' Hq']; [lia|].
        apply (Hstay q' Hq'). rewrite Hav, lookup_zip_with in Hq'.
        destruct (lookup_lt_is_Some_2 A (sp_idx s) Hidx) as [a' Ha'].
        destruct (lookup_lt_is_Some_2 (sp_loads s) (sp_idx s)) as [l' Hl']; [lia|].
        rewrite Ha' in Hq'. cbn in Hq'. rewrite Hl' in Hq'. injection Hq' as <-. cbn.
        destruct (Hpre _ _ Hl') as [_ Hz]. rewrite (Hz (le_n _)).
        rewrite Forall_lookup in Hpos. specialize (Hpos _ _ Ha'). lia. }
      destruct (Hpre _ _ Hl) as [_ Hz]. rewrite (Hz (le_n _)).
      destruct (decide (S (sp_idx s) = length A)) as [Hlast|Hmore].
      * left. apply Forall_lookup. intros j' l' [[<- [<- _]]|[Hne Hl']]%list_lookup_insert_Some; [lia|].
        destruct (Hpre _ _ Hl') as [Hlt _]. apply Hlt. apply lookup_lt_Some in Hl'. lia.
      * right. rewrite Nat.mod_small by lia.
        intros j' l' [[<- [<- _]]|[Hne Hl']]%list_lookup_insert_Some; [split; lia|].
        destruct (Hpre _ _ Hl') as [Hlt Hge]. split; intros; [apply Hlt|apply Hge]; lia.
Qed.

Lemma node_loads_spec n :
  (0 < n)%nat → Z.of_nat n ≤ zsum snd A →
  ∃ s, node_loads A n = Ok s ∧ spread_inv n s.
Proof using Hpos.
  intros Hn Hle. assert (A ≠ []) as HA by (intros E; rewrite E in Hle; cbn in Hle; lia).
  assert (∀ k, (k ≤ n)%nat → ∃ s, foldM (λ s _, assign_step s) (seq 0 k)
    {| sp_avail := A; sp_loads := replicate (length A) 0; sp_idx := 0 |} = Ok s ∧ spread_inv k s) as Hk.
  { induction k as [|k IH]; intros Hk.
    - eexists. split; [reflexivity|]. split_and!; cbn.
      + by rewrite length_replicate.
      + destruct A; [done|]. cbn. lia.
      + clear. induction A as [|[? ?] A' IH]; cbn; [done|]. rewrite <- IH. f_equal. f_equal. lia.
      + intros j a l Ha [-> _]%lookup_replicate. rewrite Forall_lookup in Hpos.
        specialize (Hpos _ _ Ha). lia.
      + clear. induction A; cbn; [done|]. unfold id in *. lia.
      + right. intros j l [-> _]%lookup_replicate. lia.
    - destruct IH as (s & Hs & Hinv); [lia|]. rewrite seq_S, foldM_app, Hs. cbn.
      destruct (assign_step_spec k s Hinv) as (s' & Hs' & Hinv'); [lia|]. rewrite Hs'. eauto. }
  apply Hk. lia.
Qed.

End round_robin.

(** ** Lemmas: the parts of a split call *)

(** The requests of all the calls of a placement. *)
Definition all_requests (calls : gmap string FunctionCall) : list FunctionRequest :=
  map_to_list calls ≫= λ p, fc_requests p.2.

Lemma all_requests_insert n c calls :
  calls !! n = None → all_requests (<[n := c]> calls) ≡ₚ fc_requests c ++ all_requests calls.
Proof. intros Hn. unfold all_requests. by rewrite map_to_list_insert. Qed.

Section split.
Context (call : FunctionCall) (avail : list (string * Z)) (loads : list Z).
Context (Hlen : length loads = length avail) (Hnd : NoDup avail.*1)
  (Hnonneg : Forall (λ l, 0 ≤ l) loads)
  (Hprefix : ∀ j k lj lk, (j < k)%nat → loads !! j = Some lj → loads !! k = Some lk → 0 < lk → 0 < lj).

Definition parts_inv (pre : list FunctionRequest) (s : Parts) : Prop :=
  Z.of_nat (length pre) = zsum id (take (pt_idx s) loads) + pt_load s ∧
  pt_load s = Z.of_nat (length (pt_requests s)) ∧
  (pt_load s = 0 ∨ ∃ l, loads !! pt_idx s = Some l ∧ pt_load s < l) ∧
  all_requests (pt_msgs s) ++ pt_requests s ≡ₚ pre ∧
  (∀ n c, pt_msgs s !! n = Some c → ∃ j p l, (j < pt_idx s)%nat ∧ avail !! j = Some p ∧ n = p.1 ∧
     loads !! j = Some l ∧ l = Z.of_nat (length (fc_requests c)) ∧ c = part_call call (fc_requests c)).

Lemma zsum_take_more k :
  zsum id (take k loads) < zsum id loads →
  ∃ j l, (k ≤ j)%nat ∧ loads !! j = Some l ∧ 0 < l.
Proof.
  clear Hlen Hprefix Hnonneg.
  intros Hlt. rewrite <- (take_drop k loads) in Hlt at 2. rewrite zsum_app in Hlt.
  assert (0 < zsum id (drop k loads)) as Hp by lia. revert Hp.
  assert (∀ l : list Z, 0 < zsum id l → ∃ j x, l !! j = Some x ∧ 0 < x) as Hex.
  { induction l as [|x l IH]; cbn; [lia|]. unfold id in *. intros Hs. destruct (decide (0 < x)).
    - by exists 0%nat, x.
    - destruct IH as (j & y & ? & ?); [lia|]. by exists (S j), y. }
  intros (j & x & Hj & Hx)%Hex. rewrite lookup_drop in Hj. exists (k + j)%nat, x. split_and!; [lia|done..].
Qed.

Lemma split_step_spec pre s req :
  parts_inv pre s → Z.of_nat (length pre) < zsum id loads →
  ∃ s', split_step call avail loads s req = Ok s' ∧ parts_inv (pre ++ [req]) s'.
Proof using All.
  intros (Hn & Hload & Hcur & Hall & Hmsgs) Hlt.
  assert (∃ l, loads !! pt_idx s = Some l ∧ pt_load s < l) as (l & Hl & Hll).
  { destruct Hcur as [H0|]; [|done]. destruct (zsum_take_more (pt_idx s)) as (j & x & Hj & Hx & Hxp); [lia|].
    destruct (lookup_lt_is_Some_2 loads (pt_idx s)) as [l Hl]; [apply lookup_lt_Some in Hx; lia|].
    exists l. split; [done|]. rewrite H0. destruct (decide (pt_idx s = j)) as [E|E]; [subst; congruence|].
    eapply Hprefix; [|exact Hl|exact Hx|done]. lia. }
  unfold split_step, vec_at. rewrite Hl. cbn.
  destruct (lookup_lt_is_Some_2 avail (pt_idx s)) as [p Hp]; [apply lookup_lt_Some in Hl; lia|].
  case_decide as Hfull.
  - rewrite Hp. cbn. eexists. split; [reflexivity|].
    assert (pt_msgs s !! p.1 = None) as Hfresh.
    { apply eq_None_not_Some. intros [c Hc]. destruct (Hmsgs _ _ Hc) as (j & q & l' & Hj & Hq & Heq & _).
      assert (pt_idx s = j); [|lia].
      eapply NoDup_lookup; [exact Hnd|rewrite list_lookup_fmap, Hp; done|rewrite list_lookup_fmap, Hq; cbn; by rewrite Heq]. }
    split_and!; cbn.
    + rewrite length_app. cbn. rewrite (take_S_r _ _ l), zsum_app by done. cbn. unfold id in *. lia.
    + done.
    + by left.
    + rewrite all_requests_insert, app_nil_r, <- Hall by done. cbn.
      rewrite <- !app_assoc. rewrite Permutation_app_comm, <- app_assoc.
      by rewrite (Permutation_app_comm [req]), app_assoc, (Permutation_app_comm (all_requests _)), <- app_assoc, app_assoc.
    + intros n c [[<- <-]|[Hne Hc]]%lookup_insert_Some.
      * exists (pt_idx s), p, l. split_and!; try done; [lia|]. cbn. rewrite length_app. cbn. lia.
      * destruct (Hmsgs _ _ Hc) as (j & q & l' & Hj & ?). exists j, q, l'. split; [lia|done].
  - eexists. split; [reflexivity|]. split_and!; cbn.
    + rewrite length_app. cbn. lia.
    + rewrite length_app. cbn. lia.
    + right. exists l. split; [done|lia].
    + by rewrite app_assoc, Hall.
    + done.
Qed.


Lemma split_loop_spec :
  Z.of_nat (length (fc_requests call)) = zsum id loads →
  ∃ s, foldM (split_step call avail loads) (fc_requests call)
         {| pt_requests := []; pt_load := 0; pt_idx := 0; pt_msgs := ∅ |} = Ok s ∧
    all_requests (pt_msgs s) ≡ₚ fc_requests call ∧
    ∀ n c, pt_msgs s !! n = Some c → ∃ j p l, avail !! j = Some p ∧ n = p.1 ∧ loads !! j = Some l ∧
      l = Z.of_nat (length (fc_requests c)) ∧ c = part_call call (fc_requests c).
Proof using All.
  intros Htotal.
  assert (∀ pre suf, fc_requests call = pre ++ suf →
    ∃ s, foldM (split_step call avail loads) pre
           {| pt_requests := []; pt_load := 0; pt_idx := 0; pt_msgs := ∅ |} = Ok s ∧ parts_inv pre s) as Hpre.
  { induction pre as [|req pre IH] using rev_ind; intros suf Hsuf.
    - eexists. split; [reflexivity|]. split_and!; cbn; try done. by left.
    - destruct (IH (req :: suf)) as (s & Hs & Hinv); [by rewrite Hsuf, <- app_assoc|].
      destruct (split_step_spec pre s req Hinv) as (s' & Hs' & Hinv').
      { rewrite <- Htotal, Hsuf, !length_app. cbn. lia. }
      exists s'. split; [|done]. rewrite foldM_app, Hs. cbn. by rewrite Hs'. }
  destruct (Hpre (fc_requests call) []) as (s & Hs & Hn & Hload & Hcur & Hall & Hmsgs); [by rewrite app_nil_r|].
  exists s. split; [done|].
  assert (pt_load s = 0) as H0.
  { destruct Hcur as [|(l & Hl & Hlt)]; [done|].
    rewrite <- (take_drop (pt_idx s) loads) in Htotal. rewrite zsum_app, (drop_S _ l) in Htotal by done.
    cbn in Htotal. unfold id in *.
    assert (0 ≤ zsum (λ x : Z, x) (drop (S (pt_idx s)) loads)); [|lia].
    assert (Forall (λ l, 0 ≤ l) (drop (S (pt_idx s)) loads)) as Hd by by apply Forall_drop.
    clear -Hd. induction Hd; cbn; lia. }
  split.
  - destruct (pt_requests s); [by rewrite app_nil_r in Hall|cbn in Hload; lia].
  - intros n c Hc. destruct (Hmsgs n c Hc) as (j & p & l & _ & ?). by exists j, p, l.
Qed.

End split.

(** ** Properties *)

(** C6: a batch that no node can take whole, and that fits the free executors of
    the nodes other than its source, is split: every request is in exactly one part,
    and each part goes to a node that is not the source and has a free executor for
    every request of the part.  The assignment and splitting loops end and stay in
    range. *)
Theorem batch_split_fits `{UnorderedIter} (call : FunctionCall) (m : gmap string NodeStatus) :
  let c := collect_nodes (fc_source call) m in
  let n := Z.of_nat (length (fc_requests call)) in
  0 < n → max_executors c < n → n ≤ total_executors c →
  ∃ calls, batch_schedule call m = Ok calls ∧
    all_requests calls ≡ₚ fc_requests call ∧
    ∀ ip part, calls !! ip = Some part →
      ¬ (fc_source call ≠ "" ∧ fc_source call = ip) ∧
      ∃ s, m !! ip = Some s ∧ Z.of_nat (length (fc_requests part)) ≤ avail_executors_ s.
Proof.
  cbn. intros Hn Hmax Htotal. unfold batch_schedule. rewrite decide_False by lia. rewrite decide_True by lia.
  destruct (collect_nodes_spec (fc_source call) m) as (Hnd & Hin & Ht & _).
  set (A := avail_nodes (collect_nodes (fc_source call) m)) in *.
  assert (Forall (λ p, 0 < p.2) A) as Hpos.
  { apply Forall_forall. intros [ip a] Ha. apply Hin in Ha. tauto. }
  destruct (node_loads_spec A Hpos (length (fc_requests call))) as (s & Hs & Hlen & _ & Hav & Hb & Hsum & Hpre);
    [lia|by rewrite <- Ht|]. rewrite Hs. cbn. unfold split_call.
  assert (∀ j p', sp_avail s !! j = Some p' →
    ∃ a l, A !! j = Some a ∧ sp_loads s !! j = Some l ∧ p'.1 = a.1) as Hname.
  { intros j p'. rewrite Hav, lookup_zip_with. destruct (A !! j) as [a|] eqn:Ea; [|done]. cbn.
    destruct (sp_loads s !! j) as [l|] eqn:El; [|done]. intros [= <-]. by exists a, l. }
  destruct (split_loop_spec call (sp_avail s) (sp_loads s)) as (ps & Hps & Hall & Hmsgs).
  - rewrite Hav, length_zip_with. lia.
  - replace (sp_avail s).*1 with A.*1; [done|]. rewrite Hav. clear -Hlen. revert Hlen.
    generalize (sp_loads s). induction A as [|a A' IH]; intros [|l ls]; cbn; intros Hl; try done.
    f_equal. apply IH. lia.
  - apply Forall_lookup. intros j l Hl.
    destruct (lookup_lt_is_Some_2 A j) as [a Ha]; [apply lookup_lt_Some in Hl; lia|].
    by apply (Hb j a l).
  - intros j k lj lk Hjk Hj Hk Hlk. destruct Hpre as [Hp|Hp].
    + rewrite Forall_lookup in Hp. eauto.
    + destruct (Hp _ _ Hk) as [_ Hz]. apply (Hp _ _ Hj). destruct (decide (sp_idx s ≤ k)%nat); [|lia].
      rewrite Hz in Hlk by done. lia.
  - by rewrite Hsum.
  - rewrite Hps. cbn. exists (pt_msgs ps). split_and!; [done..|].
    intros ip part Hpart. destruct (Hmsgs _ _ Hpart) as (j & p & l & Hp & -> & Hl & Hlen' & _).
    destruct (Hname _ _ Hp) as ([ip a] & l' & HA & Hl' & ->). cbn.
    rewrite Hl in Hl'. injection Hl' as <-.
    assert ((ip, a) ∈ A) as HinA by (by eapply list_elem_of_lookup_2).
    apply Hin in HinA as (Hsrc & _ & st & Hst & <-). split; [done|]. exists st. split; [done|].
    destruct (Hb j _ _ HA Hl) as [_ Hle]. cbn in Hle. lia.
Qed.

Lemma batch_split_fits_witness :
  ∃ calls, @batch_schedule sorted_iter demo_call demo_nodes = Ok calls ∧
    all_requests calls ≡ₚ [demo_request; demo_request; demo_request].
Proof.
  destruct (@batch_split_fits sorted_iter demo_call demo_nodes) as (calls & Hrun & Hall & _);
    [reflexivity..|vm_compute; discriminate|].
  exists calls. split; [exact Hrun|exact Hall].
Defined.

(** The parts of a split batch carry neither the session id nor the request id of
    the call: the coordinator generated a session for it, and no part has one. *)
Theorem batch_parts_lose_session `{UnorderedIter} (call : FunctionCall) (m : gmap string NodeStatus) calls :
  let c := collect_nodes (fc_source call) m in
  let n := Z.of_nat (length (fc_requests call)) in
  0 < n → max_executors c < n → n ≤ total_executors c →
  batch_schedule call m = Ok calls →
  map_Forall (λ _ part, fc_session_id part = "" ∧ fc_request_id part = "") calls.
Proof.
  cbn. intros Hn Hmax Htotal. unfold batch_schedule. rewrite decide_False by lia. rewrite decide_True by lia.
  intros (s & _ & Hsplit)%bind_Ok. apply bind_Ok in Hsplit as (ps & Hps & [= <-]).
  apply (foldM_ind (λ _ ps, map_Forall (λ _ part, fc_session_id part = "" ∧ fc_request_id part = "")
    (pt_msgs ps))) in Hps; [done|apply map_Forall_empty|].
  intros pre req s1 s2 Hinv. unfold split_step. intros (l & _ & Hstep)%bind_Ok.
  case_decide; [apply bind_Ok in Hstep as (p & _ & Hstep)|]; injection Hstep as <-; cbn; [|done].
  by apply map_Forall_insert_2.
Qed.

Lemma batch_parts_lose_session_witness :
  ∃ calls, @batch_schedule sorted_iter demo_call demo_nodes = Ok calls ∧ calls ≠ ∅ ∧
    map_Forall (λ _ part, fc_session_id part = "" ∧ fc_request_id part = "") calls.
Proof.
  eexists. split; [vm_compute; reflexivity|]. split; [vm_compute; discriminate|].
  apply (@batch_parts_lose_session sorted_iter demo_call demo_nodes); [reflexivity..| |].
  - vm_compute. discriminate.
  - vm_compute. reflexivity.
Defined.

Lemma max_step_collect source (l : list (string * NodeStatus)) :
  let c := foldl (collect_step source)
    {| total_executors := 0; avail_nodes := []; max_executors := 0; node_with_max_executors := "" |} l in
  foldl (max_step source) (0, "") l = (max_executors c, node_with_max_executors c).
Proof.
  cbn. induction l as [|p l IH] using rev_ind; [done|]. rewrite !foldl_app. cbn. rewrite IH.
  destruct (foldl (collect_step source) _ l) as [t av mx nd]. unfold max_step, collect_step. cbn.
  destruct (is_source source p.1); [done|].
  destruct (decide (avail_executors_ p.2 > 0)), (decide (avail_executors_ p.2 > mx)); cbn;
    by case_decide.
Qed.

(** A call that nothing can take: no node is known, or a batch exceeds the free
    executors of all nodes but the source. *)
Definition unschedulable `{UnorderedIter} (call : FunctionCall) (m : gmap string NodeStatus) : Prop :=
  let n := Z.of_nat (length (fc_requests call)) in
  (m = ∅ ∧ 0 < n) ∨
  (1 < n ∧ total_executors (collect_nodes (fc_source call) m) < n ∧
   max_executors (collect_nodes (fc_source call) m) < n).

Lemma with_session_fields `{Rand} call sd :
  let c := (with_session call sd).1 in
  fc_app_name c = fc_app_name call ∧ fc_requests c = fc_requests call ∧ fc_source c = fc_source call ∧
  fc_request_id c = fc_request_id call ∧ fc_resp_address c = fc_resp_address call.
Proof. cbn. unfold with_session. case_decide; [destruct (gen_random _ _)|]; done. Qed.

(** With the default scheduler, a call that nothing can take is answered: the
    client gets a response with its request id and error 1, when it gave an address,
    and no other message is sent. *)
Theorem unschedulable_call_reported `{UnorderedIter, Rand} conf config st request :
  enabled_ config = false → unschedulable request (node_status_map st) →
  ∃ st', func_call_handler conf config st request = Ok (st',
    if decide (fc_resp_address request ≠ "") then
      [{| send_to := fc_resp_address request;
          send_msg := MFunctionCallResponse {|
            fcr_app_name := fc_app_name request; fcr_request_id := fc_request_id request;
            fcr_output := ""; fcr_error_no := 1 |} |}]
    else []) ∧ node_status_map st' = node_status_map st.
Proof.
  intros Hen Hun. unfold func_call_handler. pose proof (with_session_fields request (seed st)) as Hf.
  destruct (with_session request (seed st)) as [call sd]. cbn in Hf.
  destruct Hf as (Happ & Hreqs & Hsrc & Hid & Haddr). rewrite Hen. cbn.
  rewrite (decide_False (P := size (∅ : gmap string FunctionCall) ≠ 0%nat)) by (intros E; exact (E eq_refl)). rewrite Hreqs, Happ, Hid, Haddr.
  set (resp := if decide (fc_resp_address request ≠ "") then _ else []). clearbody resp.
  destruct Hun as [[Hm Hn]|(Hn & Ht & Hmx)].
  - case_decide as Hb.
    + unfold batch_schedule, collect_nodes. rewrite Hm, Hreqs.
      pose proof (map_iter_perm string NodeStatus ∅) as Hp. rewrite map_to_list_empty in Hp.
      apply Permutation_nil_r in Hp. rewrite Hp. cbn.
      rewrite !decide_False by lia. cbn. eexists. by split.
    + unfold single_schedule. rewrite Hm.
      pose proof (map_iter_perm string NodeStatus ∅) as Hp. rewrite map_to_list_empty in Hp.
      apply Permutation_nil_r in Hp. rewrite Hp. cbn.
      rewrite !decide_False by (lia || (intros E; exact (E eq_refl))). cbn. eexists. by split.
  - rewrite decide_True by lia. unfold batch_schedule. rewrite Hreqs, Hsrc.
    rewrite !decide_False by lia. cbn. eexists. by split.
Qed.

Lemma unschedulable_call_reported_witness :
  let conf := {| private_ip := "c"; thread_id := 0; io_thread_num := 1 |} in
  let call := {| fc_app_name := "a"; fc_requests := [demo_request]; fc_source := ""; fc_request_id := "r1";
                 fc_resp_address := "tcp://client:1"; fc_session_id := "s"; fc_sync_data_status := false |} in
  ∃ st', @func_call_handler sorted_iter lcg_rand conf default_config (initial_CoordState 1) call
         = Ok (st', [{| send_to := "tcp://client:1";
                        send_msg := MFunctionCallResponse {| fcr_app_name := "a"; fcr_request_id := "r1";
                                                             fcr_output := ""; fcr_error_no := 1 |} |}]).
Proof.
  intros conf call.
  destruct (@unschedulable_call_reported sorted_iter lcg_rand conf default_config (initial_CoordState 1) call)
    as (st' & Hrun & _); [reflexivity|left; split; [reflexivity|reflexivity]|].
  exists st'. exact Hrun.
Defined.

(** with the default scheduler, a single request is sent whole, with its session,
    to exactly one local scheduler: one of the nodes other than the source with the
    most free executors, when any of them has one. *)
Theorem single_request_to_freest_node `{UnorderedIter, Rand} conf config st request n0 s0 :
  enabled_ config = false → io_thread_num conf ≠ 0 → (length (fc_requests request) ≤ 1)%nat →
  node_status_map st !! n0 = Some s0 → ¬ (fc_source request ≠ "" ∧ fc_source request = n0) →
  0 < avail_executors_ s0 →
  ∃ st' ip s io, func_call_handler conf config st request
    = Ok (st', [{| send_to := get_func_exec_address ip (io `mod` io_thread_num conf);
                   send_msg := MFunctionCall (with_session request (seed st)).1 |}]) ∧
    node_status_map st !! ip = Some s ∧ ¬ (fc_source request ≠ "" ∧ fc_source request = ip) ∧
    ∀ n' s', node_status_map st !! n' = Some s' → ¬ (fc_source request ≠ "" ∧ fc_source request = n') →
      avail_executors_ s' ≤ avail_executors_ s.
Proof.
  intros Hen Hio Hlen Hn0 Hs0 Ha0. unfold func_call_handler. pose proof (with_session_fields request (seed st)) as Hf.
  destruct (with_session request (seed st)) as [call sd]. cbn in Hf |- *.
  destruct Hf as (_ & Hreqs & Hsrc & _ & _). rewrite Hen. cbn.
  rewrite (decide_False (P := size (∅ : gmap string FunctionCall) ≠ 0%nat)) by (intros E; exact (E eq_refl)).
  rewrite Hreqs, (decide_False (P := (1 < length (fc_requests request))%nat)) by lia.
  unfold single_schedule. rewrite max_step_collect, Hsrc. cbn.
  destruct (collect_nodes_spec (fc_source request) (node_status_map st)) as (_ & Hin & _ & Hmax & Hnode).
  fold (collect_nodes (fc_source request) (node_status_map st)).
  set (c := collect_nodes _ _) in *.
  assert ((n0, avail_executors_ s0) ∈ avail_nodes c) as Hin0 by (apply Hin; eauto).
  pose proof (Hmax _ _ Hin0). rewrite (decide_True (P := max_executors c > 0)) by lia. destruct Hnode as [|Hnode]; [lia|].
  apply Hin in Hnode as (Hns & _ & s & Hs & Hse). cbn.
  rewrite map_size_singleton. cbn.
  pose proof (map_iter_perm string FunctionCall {[node_with_max_executors c := call]}) as Hp.
  rewrite map_to_list_singleton in Hp. apply Permutation_singleton_r in Hp. rewrite Hp. cbn.
  destruct (rand_r sd) as [r sd'] eqn:Er. rewrite umod_Ok by done. cbn.
  eexists _, (node_with_max_executors c), s, r. split; [reflexivity|]. split_and!; [done..|].
  intros n' s' Hn' Hs'. rewrite Hse. destruct (decide (0 < avail_executors_ s')); [|lia].
  apply (Hmax n'), Hin. eauto.
Qed.

Lemma single_request_to_freest_node_witness :
  let conf := {| private_ip := "c"; thread_id := 0; io_thread_num := 2 |} in
  let call := {| fc_app_name := "a"; fc_requests := [demo_request]; fc_source := "n3"; fc_request_id := "r1";
                 fc_resp_address := ""; fc_session_id := "s"; fc_sync_data_status := false |} in
  let st := set_nodes (initial_CoordState 1) demo_nodes in
  ∃ st' ip s io, @func_call_handler sorted_iter lcg_rand conf default_config st call
    = Ok (st', [{| send_to := get_func_exec_address ip (io `mod` 2); send_msg := MFunctionCall call |}]) ∧
    demo_nodes !! ip = Some s ∧ 2 ≤ avail_executors_ s.
Proof.
  intros conf call st.
  destruct (@single_request_to_freest_node sorted_iter lcg_rand conf default_config st call "n1"
    {| tp_ := 0; avail_executors_ := 2; functions_ := ∅ |})
    as (st' & ip & s & io & Hrun & Hs & _ & Hmax);
    [reflexivity|discriminate|vm_compute; lia|vm_compute; reflexivity|intros [_ E]; discriminate E|reflexivity|].
  exists st', ip, s, io. split; [exact Hrun|]. split; [exact Hs|].
  apply (Hmax "n1" {| tp_ := 0; avail_executors_ := 2; functions_ := ∅ |});
    [vm_compute; reflexivity|intros [_ E]; discriminate E].
Defined.
