(* ===== verification/CoordRun.v ===== *)
(** * The event loop of a coordinator thread ([coordinator.cpp], [run])

    One iteration handles at most one message of every socket, in a fixed order;
    handling one message is [coord_step].  The theorems are about every sequence
    of messages: the registry of buckets stays consistent, recorded addresses stay
    visible to queries, fired actions go to a node with data and a free executor. *)

From S2P Require Import Prelude CppString CppDouble Messages Common Triggers TriggerSpecs Threads.
From S2P Require Import Coordinator Notify DemeterScheduler FuncCall.

(** ** Definitions *)

(** A message by the socket it arrives on. *)
Inductive CoordEvent :=
| NotifyEvent (m : KeyNotifyRequest)
| QueryEvent (m : KeyQueryRequest)
| BucketEvent (m : BucketOperationRequest)
| TriggerEvent (m : TriggerOperationRequest)
| StatusEvent (m : UpdateStatusMessage)
| FuncCreateEvent
| AppEvent (m : AppRegistration)
| CallEvent (m : FunctionCall)
| ForwardEvent (m : FunctionCall).

Section run.
Context `{UnorderedIter, PrimitiveMessages, Rand}.
Context (conf : CoordConf) (demeter_config : DemeterSchedulerConfig).

(** The branch of the loop body for one message, at clock [now]. *)
Definition coord_step (st : CoordState) (ev : Z * CoordEvent) : result (CoordState * list Send) :=
  let '(now, ev) := ev in
  match ev with
  | NotifyEvent m => notify_handler conf now st m
  | QueryEvent m => Ok (st, query_handler st m)
  | BucketEvent m => Ok (bucket_op_handler st m)
  | TriggerEvent m => trigger_op_handler conf now st m
  | StatusEvent m => Ok (status_handler now st m, [])
  | FuncCreateEvent => Ok (st, [])             (* received and dropped *)
  | AppEvent m => app_register_handler conf now st m
  | CallEvent m => func_call_handler conf demeter_config st m
  | ForwardEvent m => func_call_handler conf demeter_config st m
  end.

(** A whole run: the state after the events, none of which threw. *)
Definition coord_run (st : CoordState) (evs : list (Z * CoordEvent)) : result CoordState :=
  foldM (λ st ev, fst <$> coord_step st ev) evs st.

(** ** The registry *)

(** Every registered bucket belongs to its application, and only registered buckets
    have triggers. *)
Definition registry_ok (st : CoordState) : Prop :=
  (∀ b a, bucket_app_map st !! b = Some a → b ∈ at_default ∅ a (app_buckets_map st)) ∧
  (∀ b, at_default [] b (bucket_triggers_map st) ≠ [] → is_Some (bucket_app_map st !! b)).

(** A state with the same registered buckets, owners and triggered buckets. *)
Definition same_registry (st st' : CoordState) : Prop :=
  bucket_app_map st' = bucket_app_map st ∧ app_buckets_map st' = app_buckets_map st ∧
  ∀ b, at_default [] b (bucket_triggers_map st') = [] ↔ at_default [] b (bucket_triggers_map st) = [].

#[export] Instance same_registry_preorder : PreOrder same_registry.
Proof.
  split; [by intros st|]. intros s1 s2 s3 (H11 & H12 & H13) (H21 & H22 & H23).
  split_and!; [congruence..|]. intros b. by rewrite H23.
Qed.

Lemma same_registry_ok st st' : same_registry st st' → registry_ok st → registry_ok st'.
Proof.
  intros (Ha & Hb & Ht) [H1' H2']. unfold registry_ok. rewrite Ha, Hb. split; [done|].
  intros b Hne. apply H2'. by rewrite <- Ht.
Qed.

Lemma record_object_registry st bk addr payload st' :
  record_object st bk addr payload = Ok (Some st') → same_registry st st'.
Proof.
  unfold record_object. case_decide.
  - intros (ip & _ & [= <-])%bind_Ok. done.
  - destruct (bucket_app_map st !! _); [|done]. intros (ip & _ & [= <-])%bind_Ok. done.
Qed.

(** The addresses recorded for a key of a bucket. *)
Definition addresses_of (st : CoordState) (b k : string) : gset string :=
  at_default ∅ k (at_default ∅ b (bucket_key_address_map st)).

(** What handling an action leaves alone. *)
Definition action_frame (st st' : CoordState) : Prop :=
  bucket_app_map st' = bucket_app_map st ∧ app_buckets_map st' = app_buckets_map st ∧
  bucket_triggers_map st' = bucket_triggers_map st ∧ bucket_key_val_map st' = bucket_key_val_map st ∧
  bucket_node_map st' = bucket_node_map st ∧ ∀ b k, addresses_of st' b k = addresses_of st b k.

#[local] Instance action_frame_preorder : PreOrder action_frame.
Proof.
  split; [by intros st|]. intros s1 s2 s3 (H11 & H12 & H13 & H14 & H15 & H16) (H21 & H22 & H23 & H24 & H25 & H26).
  split_and!; [congruence..|]. intros b k. by rewrite H26.
Qed.

Lemma action_frame_registry st st' : action_frame st st' → same_registry st st'.
Proof. intros (Ha & Hb & Ht & _). split_and!; [done..|]. intros b. by rewrite Ht. Qed.

Lemma key_arguments_frame st b flag sks st' args nodes :
  key_arguments st b flag sks = Ok (st', args, nodes) →
  action_frame st st' ∧ node_status_map st' = node_status_map st ∧ seed st' = seed st.
Proof.
  revert st st' args nodes. induction sks as [|sk sks IH]; intros st st' args nodes; cbn; [by intros [= <- <- <-]|].
  intros (a & _ & (ip & _ & ([[st1 args1] nodes1] & Hrec & [= <- <- <-])%bind_Ok)%bind_Ok)%bind_Ok.
  apply IH in Hrec as (Hsame & Hn & Hs). split; [|done]. etransitivity; [|exact Hsame].
  split_and!; try done. intros b' k. unfold addresses_of. cbn. destruct (decide (b = b')) as [<-|].
  - by rewrite at_default_insert, at_default_touch.
  - by rewrite at_default_insert_ne.
Qed.

Lemma fire_action_frame resp bk flag st action st' sends :
  is_Some (bucket_app_map st !! bucket_ bk) →
  fire_action conf resp bk flag st action = Ok (st', sends) → action_frame st st'.
Proof.
  intros [a Ha]. unfold fire_action. rewrite (touch_id "" (bucket_ bk) a) by done.
  intros ([[st1 args] nodes] & Hargs & Hrest)%bind_Ok.
  assert (action_frame st st1) as Hs1.
  { destruct (val_to_batch _ _ _); [by injection Hargs as <- _ _|].
    by apply key_arguments_frame in Hargs as [Hs _]. }
  etransitivity; [exact Hs1|]. destruct (pick_worker _ _) as [nodes' worker]. case_decide.
  - by injection Hrest as <- _.
  - destruct (rand_r _). by apply bind_Ok in Hrest as (? & _ & [= <- _]).
Qed.

Lemma fire_actions_frame resp bk flag st actions st' sends :
  is_Some (bucket_app_map st !! bucket_ bk) →
  fire_actions conf resp bk flag st actions = Ok (st', sends) → action_frame st st'.
Proof.
  revert st st' sends. induction actions as [|a actions IH]; intros st st' sends Hb; cbn; [by intros [= <- _]|].
  intros ([st1 s1] & H1' & ([st2 s2] & H2' & [= <- _])%bind_Ok)%bind_Ok.
  apply fire_action_frame in H1'; [|done]. etransitivity; [exact H1'|].
  eapply IH; [|done]. by rewrite (proj1 H1').
Qed.

(** Offering an object to the triggers keeps the registry and the addresses. *)
Lemma fire_triggers_frame now resp active bk st ts1 ts2 st' sends names :
  registry_ok st → at_default [] (bucket_ bk) (bucket_triggers_map st) = ts1 ++ ts2 →
  fire_triggers conf now resp active bk st ts1 ts2 = Ok (st', sends, names) →
  same_registry st st' ∧ ∀ b k, addresses_of st' b k = addresses_of st b k.
Proof.
  revert st ts1 st' sends names. induction ts2 as [|t ts2 IH]; intros st ts1 st' sends names Hok Hts; cbn;
    [by intros [= <- _ _]|].
  destruct (trigger_action now t bk) as [t' actions].
  set (st1 := set_triggers st _).
  assert (same_registry st st1) as Hs1.
  { split_and!; [done..|]. intros b. cbn. destruct (decide (b = bucket_ bk)) as [->|].
    - rewrite at_default_insert, Hts. by destruct ts1.
    - by rewrite at_default_insert_ne. }
  assert (is_Some (bucket_app_map st !! bucket_ bk)) as Hb.
  { apply Hok. rewrite Hts. by destruct ts1. }
  assert (at_default [] (bucket_ bk) (bucket_triggers_map st1) = (ts1 ++ [t']) ++ ts2) as Hts1
    by (cbn; by rewrite at_default_insert, <- app_assoc).
  case_decide.
  - intros Hrec. apply IH in Hrec as [Hr Ha]; [|by eapply same_registry_ok|done].
    split; [by etransitivity|]. intros b k. by rewrite Ha.
  - intros ([st2 s1] & Hact & ([[st3 s2] names'] & Hrec & [= <- _ _])%bind_Ok)%bind_Ok.
    apply fire_actions_frame in Hact as Hf; [|done].
    assert (same_registry st st2) as Hs2 by (etransitivity; [exact Hs1|by apply action_frame_registry]).
    apply IH in Hrec as [Hr Ha]; [|by eapply same_registry_ok|].
    + split; [by etransitivity|]. intros b k. rewrite Ha. apply Hf.
    + destruct Hf as (_ & _ & -> & _). done.
Qed.

(** ** Effects of the other handlers *)

(** No address is ever forgotten. *)
Definition addresses_kept (st st' : CoordState) : Prop :=
  ∀ b k, addresses_of st b k ⊆ addresses_of st' b k.

#[local] Instance addresses_kept_preorder : PreOrder addresses_kept.
Proof. split; [by intros st b k|]. intros s1 s2 s3 H12 H23 b k. exact (transitivity (H12 b k) (H23 b k)). Qed.

Definition keeps (st st' : CoordState) : Prop :=
  (registry_ok st → registry_ok st') ∧ addresses_kept st st'.

#[local] Instance keeps_preorder : PreOrder keeps.
Proof. split; [by intros st|]. intros s1 s2 s3 [? ?] [? ?]. split; [tauto|by etransitivity]. Qed.

Lemma update_address_kept st bk addr :
  addresses_kept st (set_addresses st (update_address bk addr (bucket_key_address_map st))) ∧
  addr ∈ addresses_of (set_addresses st (update_address bk addr (bucket_key_address_map st)))
           (bucket_ bk) (key_ bk).
Proof.
  unfold addresses_kept, addresses_of, update_address. cbn. split.
  - intros b k. destruct (decide (bucket_ bk = b)) as [<-|]; [|by rewrite at_default_insert_ne].
    rewrite at_default_insert. destruct (decide (key_ bk = k)) as [<-|].
    + rewrite at_default_insert. set_solver.
    + by rewrite at_default_insert_ne.
  - rewrite !at_default_insert. set_solver.
Qed.

Lemma record_object_keeps st bk addr payload st' :
  record_object st bk addr payload = Ok (Some st') →
  same_registry st st' ∧ addresses_kept st st' ∧ addr ∈ addresses_of st' (bucket_ bk) (key_ bk).
Proof.
  intros Hrec. split; [by eapply record_object_registry|]. revert Hrec. unfold record_object.
  case_decide; [|destruct (bucket_app_map st !! _); [|done]]; intros (ip & _ & [= <-])%bind_Ok;
    apply (update_address_kept (set_bucket_nodes st _)).
Qed.

Lemma notify_loop_keeps now resp active st addrs st' sends :
  registry_ok st → notify_loop conf now resp active st addrs = Ok (st', sends) →
  registry_ok st' ∧ addresses_kept st st'.
Proof.
  revert st st' sends. induction addrs as [|a addrs IH]; intros st st' sends Hok; cbn; [by intros [= <- _]|].
  intros (ip & _ & (rec & Hrec & Hrest)%bind_Ok)%bind_Ok.
  destruct rec as [st1|]; [|by injection Hrest as <- _].
  apply record_object_keeps in Hrec as (Hr & Hk & _). pose proof (same_registry_ok _ _ Hr Hok) as Hok1.
  apply bind_Ok in Hrest as ([[st3 s1] names] & Hfire & Hrest).
  apply fire_triggers_frame in Hfire as [Hr3 Ha3]; [| |done].
  - apply bind_Ok in Hrest as ([st4 s2] & Hloop & [= <- _]).
    assert (registry_ok st3) as Hok3.
    { eapply same_registry_ok; [exact Hr3|]. eapply same_registry_ok; [|exact Hok1].
      split_and!; [done..|]. intros b. cbn. by rewrite at_default_touch. }
    apply IH in Hloop as [Hok4 Hk4].
    + split; [done|]. intros b k. etransitivity; [apply Hk|]. etransitivity; [|apply Hk4].
      destruct names; unfold addresses_of in *; cbn; by rewrite Ha3.
    + by destruct names.
  - eapply same_registry_ok; [|exact Hok1]. split_and!; [done..|]. intros b. cbn. by rewrite at_default_touch.
Qed.

Lemma register_bucket_keeps app b st : keeps st (register_bucket app b st).
Proof.
  split; [|by intros ??]. intros [H1' H2']. split; cbn.
  - intros b' a. rewrite lookup_insert_Some. intros [[<- <-]|[Hne Ha]]; [rewrite at_default_insert; set_solver|].
    destruct (decide (app = a)) as [<-|]; [rewrite at_default_insert; set_solver|].
    rewrite at_default_insert_ne by done. auto.
  - intros b' Ht. destruct (decide (b = b')) as [<-|]; [by rewrite lookup_insert_eq|].
    rewrite lookup_insert_ne by done. auto.
Qed.

Lemma push_trigger_keeps b t st :
  (registry_ok st → is_Some (bucket_app_map st !! b)) → keeps st (push_trigger b t st).
Proof.
  intros Hb. split; [|by intros ??]. intros Hok. pose proof Hok as [H1' H2']. split; cbn; [done|].
  intros b'. destruct (decide (b = b')) as [<-|]; [by auto|]. rewrite at_default_insert_ne by done. auto.
Qed.

Lemma register_dependency_keeps now app acc dep acc' :
  register_dependency now app acc dep = Ok acc' → keeps acc.1.1 acc'.1.1.
Proof.
  destruct acc as [[st deps] ents]. unfold register_dependency. case_decide; [by intros [= <-]|].
  intros (tgt & _ & Hrest)%bind_Ok. pose proof (register_bucket_keeps app ("b_" +:+ tgt) st) as Hr.
  assert (∀ st1, is_Some (bucket_app_map (register_bucket app ("b_" +:+ tgt) st1) !! ("b_" +:+ tgt))) as Hb
    by (intros; cbn; rewrite lookup_insert_eq; eauto).
  destruct (dd_type dep); try (injection Hrest as <-; cbn; done).
  - injection Hrest as <-. cbn. etransitivity; [exact Hr|]. by apply push_trigger_keeps.
  - repeat (apply bind_Ok in Hrest as (? & _ & Hrest)). injection Hrest as <-. cbn.
    etransitivity; [exact Hr|]. by apply push_trigger_keeps.
  - apply bind_Ok in Hrest as (? & _ & Hrest). injection Hrest as <-. cbn.
    etransitivity; [exact Hr|]. etransitivity; [apply register_bucket_keeps|]. by apply push_trigger_keeps.
Qed.

Lemma app_register_keeps now st m st' sends :
  app_register_handler conf now st m = Ok (st', sends) → keeps st st'.
Proof.
  unfold app_register_handler. intros ([[st1 deps] ents] & Hloop & [= <- _])%bind_Ok.
  apply (foldM_ind (λ _ acc, keeps st acc.1.1)) in Hloop; [done|done|].
  intros pre d a1 a2 Hk Hstep%register_dependency_keeps. by etransitivity.
Qed.

Lemma bucket_op_keeps st m : keeps st (bucket_op_handler st m).1.
Proof.
  unfold bucket_op_handler. destruct (bor_operation_type m).
  - destruct (bucket_app_map st !! bor_bucket_name m); [done|]. apply register_bucket_keeps.
  - destruct (bucket_app_map st !! bor_bucket_name m); [|done]. cbn. split; [|by intros ??].
    intros [H1' H2']. split; cbn.
    + intros b a. rewrite lookup_delete_Some. intros [Hne Ha].
      destruct (decide (bor_app_name m = a)) as [<-|]; [rewrite at_default_insert; set_solver|].
      rewrite at_default_insert_ne by done. auto.
    + intros b. unfold at_default. destruct (decide (bor_bucket_name m = b)) as [<-|];
        [by rewrite lookup_delete_eq|]. rewrite !lookup_delete_ne by done. apply H2'.
  - done.
Qed.

Lemma erase_triggers_filter name l :
  erase_triggers name l = (filter (λ t, trigger_name_ t ≠ name) l,
                           bool_decide (name ∈ trigger_name_ <$> l)).
Proof.
  induction l as [|t l IH]; [done|]. cbn [erase_triggers fmap list_fmap]. rewrite IH.
  destruct (decide (trigger_name_ t = name)) as [E|E].
  - rewrite filter_cons_False by tauto. by rewrite bool_decide_eq_true_2 by set_solver.
  - rewrite filter_cons_True by done. f_equal. apply bool_decide_ext. set_solver.
Qed.

Lemma trigger_op_keeps now st m st' sends :
  trigger_op_handler conf now st m = Ok (st', sends) → keeps st st'.
Proof.
  unfold trigger_op_handler. intros ([[st1 err] msg] & Hop & [= <- _])%bind_Ok.
  destruct (tor_operation_type m).
  - destruct (bucket_app_map st !! tor_bucket_name m) eqn:Hb; [|by injection Hop as <- _ _].
    destruct (gen_trigger_pointer _ _ _ _) as [t|]; [|done]. injection Hop as <- _ _.
    apply (push_trigger_keeps (tor_bucket_name m)). by rewrite Hb.
  - destruct (bucket_app_map st !! tor_bucket_name m) eqn:Hb; [|by injection Hop as <- _ _].
    rewrite erase_triggers_filter in Hop. cbn in Hop.
    assert (∀ ts, keeps st (set_triggers st (<[tor_bucket_name m := ts]> (bucket_triggers_map st)))) as Hk.
    { intros ts. split; [|by intros ??]. intros [H1' H2']. split; cbn; [done|]. intros b.
      destruct (decide (tor_bucket_name m = b)) as [<-|]; [by rewrite Hb|].
      rewrite at_default_insert_ne by done. auto. }
    case_bool_decide; injection Hop as <- _ _; apply Hk.
  - by injection Hop as <- _ _.
Qed.

(** Scheduling changes the status of the nodes and the seed only. *)
Lemma scheduling_keeps st st' :
  bucket_app_map st' = bucket_app_map st → app_buckets_map st' = app_buckets_map st →
  bucket_triggers_map st' = bucket_triggers_map st → bucket_key_address_map st' = bucket_key_address_map st →
  keeps st st'.
Proof.
  intros Ha Hb Ht Hk. split.
  - unfold registry_ok. by rewrite Ha, Hb, Ht.
  - intros b k. unfold addresses_of. by rewrite Hk.
Qed.

Lemma func_call_keeps st m st' sends :
  func_call_handler conf demeter_config st m = Ok (st', sends) → keeps st st'.
Proof.
  unfold func_call_handler. destruct (with_session m (seed st)) as [call sd].
  intros ([calls st1] & H1' & ([calls2 st2] & H2' & Hrest)%bind_Ok)%bind_Ok.
  assert (keeps st st1) as Hk1.
  { destruct (enabled_ demeter_config); [|injection H1' as _ <-; by apply scheduling_keeps].
    apply bind_Ok in H1' as ([[? ?] ?] & _ & [= _ <-]). by apply scheduling_keeps. }
  assert (keeps st1 st2) as Hk2.
  { destruct (decide (size calls ≠ 0%nat)); [injection H2' as _ <-; by apply scheduling_keeps|]. destruct (decide (1 < length (fc_requests call))%nat).
    - apply bind_Ok in H2' as (? & _ & [= _ <-]). by apply scheduling_keeps.
    - destruct (single_schedule _ _ _). apply bind_Ok in H2' as (? & _ & [= _ <-]). by apply scheduling_keeps. }
  etransitivity; [exact Hk1|]. etransitivity; [exact Hk2|]. case_decide; [injection Hrest as <- _; by apply scheduling_keeps|].
  apply bind_Ok in Hrest as ([? ?] & _ & [= <- _]). by apply scheduling_keeps.
Qed.

Lemma coord_step_keeps st ev st' sends :
  registry_ok st → coord_step st ev = Ok (st', sends) → registry_ok st' ∧ addresses_kept st st'.
Proof.
  intros Hok. destruct ev as [now ev]. destruct ev; cbn; intros Hstep.
  - by eapply notify_loop_keeps.
  - by injection Hstep as <- _.
  - injection Hstep as Hstep. pose proof (bucket_op_keeps st m) as [Hk ?]. rewrite Hstep in *. tauto.
  - apply trigger_op_keeps in Hstep as [Hk ?]. tauto.
  - injection Hstep as <- _. unfold status_handler. destruct (node_status_map st !! _); (split; [exact Hok|by intros ??]).
  - by injection Hstep as <- _.
  - apply app_register_keeps in Hstep as [Hk ?]. tauto.
  - apply func_call_keeps in Hstep as [Hk ?]. tauto.
  - apply func_call_keeps in Hstep as [Hk ?]. tauto.
Qed.

Lemma coord_run_keeps st evs st' :
  registry_ok st → coord_run st evs = Ok st' → registry_ok st' ∧ addresses_kept st st'.
Proof.
  intros Hok Hrun. apply (foldM_ind (λ _ st', registry_ok st' ∧ addresses_kept st st')) in Hrun; [done|done|].
  intros pre ev s1 s2 [Hok1 Hk1]. destruct (coord_step s1 ev) as [[s3 sends]|] eqn:Hs; [|done].
  cbn. intros [= <-]. apply coord_step_keeps in Hs as [? ?]; [|done]. split; [done|by etransitivity].
Qed.

End run.

(** ** Properties *)

(** C2: the registry of a coordinator is consistent after every sequence of
    messages: a registered bucket is in the bucket set of its application, and no
    trigger survives for a bucket that is not registered. *)
Theorem registry_consistent `{UnorderedIter, PrimitiveMessages, Rand} conf dconf sd evs st :
  coord_run conf dconf (initial_CoordState sd) evs = Ok st →
  (∀ b a, bucket_app_map st !! b = Some a → b ∈ at_default ∅ a (app_buckets_map st)) ∧
  (∀ b, at_default [] b (bucket_triggers_map st) ≠ [] → is_Some (bucket_app_map st !! b)).
Proof.
  intros Hrun. apply coord_run_keeps in Hrun as [Hok _]; [exact Hok|].
  split; cbn; intros b; [by rewrite lookup_empty|]. unfold at_default. by rewrite lookup_empty.
Qed.

Lemma registry_consistent_witness :
  let conf := {| private_ip := "c"; thread_id := 0; io_thread_num := 1 |} in
  let create := {| bor_operation_type := CREATE_BUCKET; bor_app_name := "a"; bor_bucket_name := "b";
                   bor_request_id := "1"; bor_response_address := "x" |} in
  ∃ st, @coord_run sorted_iter bits_primitive_messages lcg_rand conf default_config (initial_CoordState 1)
          [(0, BucketEvent create)] = Ok st ∧
    (∀ b a, bucket_app_map st !! b = Some a → b ∈ at_default ∅ a (app_buckets_map st)).
Proof.
  intros conf create. eexists. split; [reflexivity|].
  apply (@registry_consistent sorted_iter bits_primitive_messages lcg_rand conf default_config 1
    [(0, BucketEvent create)]). reflexivity.
Defined.

(** C1: once the coordinator has accepted the announcement of one object with an address
    (it carries the value, or its bucket is registered), a query for the object alone is
    answered with success and addresses among which is the announced one, whatever
    messages it has handled without an exception in between.  These may delete the bucket:
    [bucket_op_handler] leaves its addresses, which a comment there says are to be deleted
    ([deleted_bucket_queryable]). *)
Theorem announced_object_queryable `{UnorderedIter, PrimitiveMessages, Rand} conf dconf sd evs1 st1
    now resp active addr ip rest id st2 sends evs2 st3 query :
  coord_run conf dconf (initial_CoordState sd) evs1 = Ok st1 →
  bka_ips addr = ip :: rest →
  bka_payload addr ≠ "" ∨ is_Some (bucket_app_map st1 !! bka_bucket addr) →
  notify_handler conf now st1 {| knr_response_address := resp; knr_addresses := [addr];
      knr_active_trigger_names := active; knr_request_id := id |} = Ok (st2, sends) →
  coord_run conf dconf st2 evs2 = Ok st3 →
  kqr_addresses query = [addr] →
  ∃ a, query_handler st3 query =
      [{| send_to := kqr_response_address query;
          send_msg := MKeyQueryResponse {| kqs_addresses := [a]; kqs_error := SUCCESS;
                                           kqs_response_id := kqr_request_id query |} |}] ∧
    bka_bucket a = bka_bucket addr ∧ bka_key a = bka_key addr ∧ ip ∈ bka_ips a.
Proof.
  intros Hrun1 Hips Hacc Hnotify Hrun2 Hquery.
  apply coord_run_keeps in Hrun1 as [Hok1 _].
  2:{ split; cbn; intros b; [by rewrite lookup_empty|]. unfold at_default. by rewrite lookup_empty. }
  unfold notify_handler in Hnotify. cbn [knr_addresses knr_response_address knr_active_trigger_names] in Hnotify.
  pose proof Hnotify as Hloop. apply (notify_loop_keeps conf) in Hnotify as [Hok2 _]; [|done].
  apply coord_run_keeps in Hrun2 as [_ Hk]; [|done].
  assert (ip ∈ addresses_of st2 (bka_bucket addr) (bka_key addr)) as Hin.
  { cbn in Hloop. rewrite Hips in Hloop. cbn in Hloop. apply bind_Ok in Hloop as (rec & Hrec & Hrest).
    destruct rec as [st|].
    - apply record_object_keeps in Hrec as (Hr & _ & Hin).
      apply bind_Ok in Hrest as ([[st4 s1] names] & Hfire & [= <- _]).
      apply (fire_triggers_frame conf) in Hfire as [_ Ha]; [| |done].
      + destruct names; unfold addresses_of in *; cbn; rewrite Ha; exact Hin.
      + eapply same_registry_ok; [|eapply same_registry_ok; [exact Hr|exact Hok1]].
        split_and!; [done..|]. intros b. cbn. by rewrite at_default_touch.
    - unfold record_object in Hrec. case_decide as Hp; [by apply bind_Ok in Hrec as (? & _ & ?)|].
      destruct Hacc as [|[app Happ]]; [done|]. cbn in Hrec. rewrite Happ in Hrec.
      by apply bind_Ok in Hrec as (? & _ & ?). }
  apply Hk in Hin. unfold addresses_of in Hin. unfold query_handler. rewrite Hquery. cbn.
  destruct (bucket_key_address_map st3 !! bka_bucket addr) as [keys|] eqn:Eb.
  2:{ unfold at_default in Hin. rewrite Eb in Hin. cbn in Hin. rewrite lookup_empty in Hin. set_solver. }
  unfold at_default at 2 in Hin. rewrite Eb in Hin. cbn in Hin.
  unfold get_address. cbn. rewrite Eb. unfold at_default in Hin.
  destruct (keys !! bka_key addr) as [addrs|] eqn:Ek; [|set_solver]. cbn.
  eexists. split; [reflexivity|]. unfold query_address; cbn. split_and!; [done..|].
  rewrite foldl_snoc_id. by apply set_iter_elem.
Qed.

Lemma announced_object_queryable_witness :
  let conf := {| private_ip := "c"; thread_id := 0; io_thread_num := 1 |} in
  let addr := {| bka_bucket := "b"; bka_key := "k"; bka_session := "0123456789abcdef";
                 bka_ips := ["tcp://10.0.0.7:4400"]; bka_payload := "v" |} in
  let query := {| kqr_response_address := "q"; kqr_addresses := [addr]; kqr_request_id := "1" |} in
  ∃ st2 sends a,
    @notify_handler sorted_iter bits_primitive_messages lcg_rand conf 0 (initial_CoordState 1)
      {| knr_response_address := ""; knr_addresses := [addr]; knr_active_trigger_names := [];
         knr_request_id := "" |} = Ok (st2, sends) ∧
    @query_handler sorted_iter st2 query =
      [{| send_to := "q"; send_msg := MKeyQueryResponse {| kqs_addresses := [a]; kqs_error := SUCCESS;
                                                           kqs_response_id := "1" |} |}] ∧
    "tcp://10.0.0.7:4400" ∈ bka_ips a.
Proof.
  intros conf addr query. eexists _, _.
  destruct (@announced_object_queryable sorted_iter bits_primitive_messages lcg_rand conf default_config 1 []
    (initial_CoordState 1) 0 "" [] addr "tcp://10.0.0.7:4400" [] "" _ _ [] _ query eq_refl eq_refl
    (or_introl (λ E, eq_ind "v" (λ s, match s with EmptyString => False | _ => True end) I "" E))
    eq_refl eq_refl eq_refl) as (a & Hq & _ & _ & Hin).
  exists a. split; [reflexivity|]. split; [exact Hq|exact Hin].
Defined.

(** DELETE_BUCKET keeps the addresses of the bucket: an object of a bucket that is gone is
    still found. *)
Example deleted_bucket_queryable :
  let conf := {| private_ip := "c"; thread_id := 0; io_thread_num := 1 |} in
  let op ty := {| bor_operation_type := ty; bor_app_name := "a"; bor_bucket_name := "b";
                  bor_request_id := "1"; bor_response_address := "x" |} in
  let addr ips := {| bka_bucket := "b"; bka_key := "k"; bka_session := "0123456789abcdef";
                     bka_ips := ips; bka_payload := "" |} in
  let announce := {| knr_response_address := ""; knr_addresses := [addr ["tcp://10.0.0.7:4400"]];
                     knr_active_trigger_names := []; knr_request_id := "" |} in
  ∃ st, @coord_run sorted_iter bits_primitive_messages lcg_rand conf default_config (initial_CoordState 1)
          [(0, BucketEvent (op CREATE_BUCKET)); (0, NotifyEvent announce); (0, BucketEvent (op DELETE_BUCKET))] = Ok st ∧
    bucket_app_map st !! "b" = None ∧
    map (λ s, match send_msg s with
              | MKeyQueryResponse r => (kqs_error r, bka_ips <$> kqs_addresses r)
              | _ => (BUCKET_NE, [])
              end)
      (@query_handler sorted_iter st {| kqr_response_address := "q"; kqr_addresses := [addr []]; kqr_request_id := "1" |})
    = [(SUCCESS, [["tcp://10.0.0.7:4400"]])].
Proof. eexists. split_and!; by vm_compute. Qed.

(** ** Where a fired action goes *)

(** The free executors of a node; none for an unknown one. *)
Definition free_executors (m : gmap string NodeStatus) (ip : string) : Z :=
  avail_executors_ (at_default zero_NodeStatus ip m).

Lemma pick_data_node_argmax `{UnorderedIter} (m : gmap string NodeStatus) l mx nd m0 :
  (∀ ip, at_default zero_NodeStatus ip m0 = at_default zero_NodeStatus ip m) →
  let r := foldl (λ '(m, max_executors, routed_worker) ip,
      let avail := avail_executors_ (at_default zero_NodeStatus ip m) in
      if decide (avail > max_executors) then (touch zero_NodeStatus ip m, avail, ip)
      else (touch zero_NodeStatus ip m, max_executors, routed_worker)) (m0, mx, nd) l in
  (∀ ip, at_default zero_NodeStatus ip r.1.1 = at_default zero_NodeStatus ip m) ∧
  (r.1.2, r.2) = foldl (argmax_step (λ ip, avail_executors_ (at_default zero_NodeStatus ip m)) id) (mx, nd) l.
Proof.
  revert m0 mx nd. induction l as [|ip l IH]; intros m0 mx nd Hm; cbn; [done|].
  rewrite Hm. unfold argmax_step at 2. cbn. case_decide; apply IH; intros ip'; by rewrite at_default_touch.
Qed.

(** The worker of a fired action: a node that holds data of the action and has
    the most free executors among those, if any has one; otherwise a node with the
    most free executors of all; none exactly when no known node has a free
    executor, and then the action is dropped. *)
Theorem pick_worker_prefers_data `{UnorderedIter} (m : gmap string NodeStatus) (data_node : gset string) :
  "" ∉ data_node → "" ∉ dom m →
  let avail := free_executors m in
  let w := (pick_worker m data_node).2 in
  (w ∈ data_node ∧ 0 < avail w ∧ ∀ ip, ip ∈ data_node → avail ip ≤ avail w) ∨
  ((∀ ip, ip ∈ data_node → avail ip ≤ 0) ∧ w ∈ dom m ∧ 0 < avail w ∧ ∀ ip, avail ip ≤ avail w) ∨
  ((∀ ip, avail ip ≤ 0) ∧ w = "").
Proof.
  intros Hd Hm. cbn. unfold pick_worker, pick_data_node, free_executors.
  pose proof (pick_data_node_argmax m (set_iter data_node) 0 "" m (λ _, eq_refl)) as Hloop. cbn in Hloop.
  destruct (foldl _ (m, 0, "") _) as [[m1 mx] nd]. cbn in Hloop. destruct Hloop as [Hm1 Hr].
  pose proof (argmax_loop (λ ip, avail_executors_ (at_default zero_NodeStatus ip m)) id 0 ""
    (set_iter data_node)) as Hmax. cbn in Hmax. rewrite <- Hr in Hmax. cbn in Hmax.
  destruct Hmax as (Hmx & Hall & Hsel). setoid_rewrite set_iter_elem in Hall.
  destruct Hsel as [[= -> ->]|(ip & Hip%set_iter_elem & Hav & <- & Hpos)].
  - rewrite decide_True by done. cbn. unfold pick_any_node.
    pose proof (argmax_loop (λ p : string * NodeStatus, avail_executors_ p.2) fst 0 "" (map_iter m1)) as Hmax.
    replace (foldl _ (0, "") (map_iter m1)) with
      (foldl (argmax_step (λ p : string * NodeStatus, avail_executors_ p.2) fst) (0, "") (map_iter m1)).
    2:{ apply foldl_ext. intros [mx nd] p. unfold argmax_step. cbn. done. }
    destruct (foldl _ (0, "") (map_iter m1)) as [mx nd]. cbn in Hmax |- *.
    destruct Hmax as (_ & Hall1 & Hsel).
    assert (∀ ip, avail_executors_ (at_default zero_NodeStatus ip m) ≤ mx ∨
                  avail_executors_ (at_default zero_NodeStatus ip m) ≤ 0) as Hbound.
    { intros ip. rewrite <- Hm1. unfold at_default at 1. destruct (m1 !! ip) as [s|] eqn:E.
      - left. by apply (Hall1 (ip, s)), map_iter_elem.
      - right. unfold at_default. by rewrite E. }
    destruct Hsel as [[= -> ->]|([ip s] & Hin%map_iter_elem & Hav & <- & Hpos)]; right.
    + right. split; [|done]. intros ip. destruct (Hbound ip); lia.
    + left. cbn in Hav |- *. assert (avail_executors_ (at_default zero_NodeStatus ip m) = mx) as Hw
        by (rewrite <- Hm1; unfold at_default; by rewrite Hin).
      rewrite Hw. split_and!; [done| |done|].
      * apply elem_of_dom. unfold at_default in Hw. destruct (m !! ip); [eauto|cbn in Hw; lia].
      * intros ip'. destruct (Hbound ip'); lia.
  - unfold id in *. cbn in *. rewrite decide_False by (intros ->; by apply Hd). left. cbn. rewrite Hav. split_and!; [done..|].
    intros ip' Hip'. by apply Hall.
Qed.

Lemma pick_worker_prefers_data_witness :
  let w := (@pick_worker sorted_iter demo_nodes {["n1"; "n2"]}).2 in
  w = "n1" ∧ (w ∈ ({["n1"; "n2"]} : gset string) ∨ w = "n3" ∨ w = "").
Proof.
  cbn. split; [vm_compute; reflexivity|].
  destruct (@pick_worker_prefers_data sorted_iter demo_nodes {["n1"; "n2"]}) as [(Hw & _)|[(Hno & _)|(Hno & _)]];
    [evaluate|evaluate|by left|..].
  - exfalso. specialize (Hno "n1" ltac:(evaluate)). vm_compute in Hno. by apply Hno.
  - exfalso. specialize (Hno "n1"). vm_compute in Hno. by apply Hno.
Defined.
