(* ===== verification/KvsClient.v ===== *)
(** * The client of the key-value store ([anna_client/kvs_client.hpp])

    [KvsClient] issues asynchronous GET and PUT requests.  A request for a key with
    no known server waits in [pending_request_map_] while the routing tier is asked;
    a request that was sent waits in one of the response maps; [receive_async]
    matches what arrives with what is pending, re-issues, and gives up on what is
    too old.  Every method is an [eff] function of the object; [now] is the clock of
    one call.  The sockets' messages are arguments, the log is not modelled. *)

From S2P Require Import Prelude CppString Messages Common Threads Effects.

(** ** State *)

Record PendingRequest := {
  tp_ : Z;
  worker_addr_ : string;
  request_ : KeyRequest }.

Definition empty_KeyTuple : KeyTuple := {|
  kt_key := ""; kt_lattice_type := NONE; kt_error := NO_ERROR; kt_payload := "";
  kt_address_cache_size := 0; kt_invalidate := false |}.

Definition empty_KeyRequest : KeyRequest := {|
  kreq_type := RT_UNSPECIFIED; kreq_tuples := []; kreq_response_address := "";
  kreq_request_id := "" |}.

(** The entry [operator[]] value-initialises. *)
Definition empty_PendingRequest : PendingRequest := {|
  tp_ := 0; worker_addr_ := ""; request_ := empty_KeyRequest |}.

Record KvsClient := {
  routing_threads_ : list Thread;
  rid_ : Z;
  seed_ : Z;
  ut_ : Thread;
  timeout_ : Z;
  key_address_cache_ : gmap string (gset string);
  pending_request_map_ : gmap string (Z * list KeyRequest);
  pending_get_response_map_ : gmap string PendingRequest;
  pending_put_response_map_ : gmap string (gmap string PendingRequest) }.

Definition new_KvsClient (routing_threads : list Thread) (ip : string) (tid timeout seed : Z) : KvsClient := {|
  routing_threads_ := routing_threads; rid_ := 0; seed_ := seed;
  ut_ := {| thread_ip := ip; thread_tid := tid |}; timeout_ := timeout;
  key_address_cache_ := ∅; pending_request_map_ := ∅; pending_get_response_map_ := ∅;
  pending_put_response_map_ := ∅ |}.

Section setters.
Context (c : KvsClient).

Definition set_rand (rid seed : Z) : KvsClient := {|
  routing_threads_ := routing_threads_ c; rid_ := rid; seed_ := seed; ut_ := ut_ c;
  timeout_ := timeout_ c; key_address_cache_ := key_address_cache_ c;
  pending_request_map_ := pending_request_map_ c;
  pending_get_response_map_ := pending_get_response_map_ c;
  pending_put_response_map_ := pending_put_response_map_ c |}.

Definition set_cache (m : gmap string (gset string)) : KvsClient := {|
  routing_threads_ := routing_threads_ c; rid_ := rid_ c; seed_ := seed_ c; ut_ := ut_ c;
  timeout_ := timeout_ c; key_address_cache_ := m;
  pending_request_map_ := pending_request_map_ c;
  pending_get_response_map_ := pending_get_response_map_ c;
  pending_put_response_map_ := pending_put_response_map_ c |}.

Definition set_pending (m : gmap string (Z * list KeyRequest)) : KvsClient := {|
  routing_threads_ := routing_threads_ c; rid_ := rid_ c; seed_ := seed_ c; ut_ := ut_ c;
  timeout_ := timeout_ c; key_address_cache_ := key_address_cache_ c;
  pending_request_map_ := m;
  pending_get_response_map_ := pending_get_response_map_ c;
  pending_put_response_map_ := pending_put_response_map_ c |}.

Definition set_pending_get (m : gmap string PendingRequest) : KvsClient := {|
  routing_threads_ := routing_threads_ c; rid_ := rid_ c; seed_ := seed_ c; ut_ := ut_ c;
  timeout_ := timeout_ c; key_address_cache_ := key_address_cache_ c;
  pending_request_map_ := pending_request_map_ c;
  pending_get_response_map_ := m;
  pending_put_response_map_ := pending_put_response_map_ c |}.

Definition set_pending_put (m : gmap string (gmap string PendingRequest)) : KvsClient := {|
  routing_threads_ := routing_threads_ c; rid_ := rid_ c; seed_ := seed_ c; ut_ := ut_ c;
  timeout_ := timeout_ c; key_address_cache_ := key_address_cache_ c;
  pending_request_map_ := pending_request_map_ c;
  pending_get_response_map_ := pending_get_response_map_ c;
  pending_put_response_map_ := m |}.

End setters.

Abbreviation kvs := (eff KvsClient Send).

(** Assignments to one container. *)
Definition upd_cache f : kvs unit := modify (λ c, set_cache c (f (key_address_cache_ c))).
Definition upd_pending f : kvs unit := modify (λ c, set_pending c (f (pending_request_map_ c))).
Definition upd_get f : kvs unit := modify (λ c, set_pending_get c (f (pending_get_response_map_ c))).
Definition upd_put f : kvs unit := modify (λ c, set_pending_put c (f (pending_put_response_map_ c))).

(** Members of a pending request. *)
Definition with_tp (tp : Z) (p : PendingRequest) : PendingRequest :=
  {| tp_ := tp; worker_addr_ := worker_addr_ p; request_ := request_ p |}.
Definition with_worker (worker : string) (p : PendingRequest) : PendingRequest :=
  {| tp_ := tp_ p; worker_addr_ := worker; request_ := request_ p |}.
Definition with_request (r : KeyRequest) (p : PendingRequest) : PendingRequest :=
  {| tp_ := tp_ p; worker_addr_ := worker_addr_ p; request_ := r |}.

(** ** Methods *)

(** [if (++rid_ % 10000 == 0) rid_ = 0; ... rid_++]: the id and the next counter. *)
Definition next_rid (rid : Z) : Z * Z :=
  let rid := u32 (rid + 1) in
  let rid := if decide (rid `mod` 10000 = 0) then 0 else rid in
  (rid, u32 (rid + 1)).

Definition request_id_of (t : Thread) (rid : Z) : string :=
  thread_ip t +:+ ":" +:+ to_string (thread_tid t) +:+ "_" +:+ to_string rid.

Section methods.
Context `{UnorderedIter, Rand}.

Definition get_request_id : kvs string :=
  t ← gets ut_;
  rid ← gets rid_;
  seed ← gets seed_;
  modify (λ c, set_rand c (next_rid rid).2 seed);;
  mret (request_id_of t (next_rid rid).1).

(** [rand_r(&seed_) % n]; the remainder by zero is undefined. *)
Definition rand_below (n : Z) : kvs Z :=
  if decide (n = 0) then throw Undefined
  else
    seed ← gets seed_;
    rid ← gets rid_;
    modify (λ c, set_rand c rid (rand_r seed).2);;
    mret ((rand_r seed).1 `mod` n).

Definition get_routing_thread : kvs string :=
  threads ← gets routing_threads_;
  r ← rand_below (Z.of_nat (length threads));
  t ← lift (vec_at threads (Z.to_nat r));
  mret (UserRoutingThread.key_address_connect_address t).

Definition query_routing_async (key : string) : kvs unit :=
  t ← gets ut_;
  id ← get_request_id;
  rt_thread ← get_routing_thread;
  emit {| send_to := rt_thread;
          send_msg := MKeyAddressRequest {|
            kareq_response_address := UserThread.key_address_connect_address t;
            kareq_keys := [key]; kareq_request_id := id |} |}.

Definition get_all_worker_threads (key : string) : kvs (gset string) :=
  cache ← gets key_address_cache_;
  pending ← gets pending_request_map_;
  if decide (at_default ∅ key cache = ∅) then
    when (bool_decide (pending !! key = None)) (query_routing_async key);;
    mret ∅
  else mret (at_default ∅ key cache).

Definition get_worker_thread (key : string) : kvs string :=
  local_cache ← get_all_worker_threads key;
  if decide (size local_cache = 0%nat) then mret ""
  else
    r ← rand_below (Z.of_nat (size local_cache));
    lift (nth_iter (set_iter local_cache) r).

Definition prepare_data_request (key : string) : kvs KeyRequest :=
  t ← gets ut_;
  id ← get_request_id;
  mret {| kreq_type := RT_UNSPECIFIED;
          kreq_tuples := [{| kt_key := key; kt_lattice_type := NONE; kt_error := NO_ERROR;
                             kt_payload := ""; kt_address_cache_size := 0; kt_invalidate := false |}];
          kreq_response_address := UserThread.response_connect_address t;
          kreq_request_id := id |}.

(** [request.mutable_tuples(0)->set_address_cache_size(n)]. *)
Definition set_address_cache_size (n : Z) (request : KeyRequest) : KeyRequest :=
  {| kreq_type := kreq_type request;
     kreq_tuples :=
       match kreq_tuples request with
       | [] => []
       | t :: ts =>
           {| kt_key := kt_key t; kt_lattice_type := kt_lattice_type t; kt_error := kt_error t;
              kt_payload := kt_payload t; kt_address_cache_size := u32 n;
              kt_invalidate := kt_invalidate t |} :: ts
       end;
     kreq_response_address := kreq_response_address request;
     kreq_request_id := kreq_request_id request |}.

(** The two halves of [try_request] once a request has been sent. *)
Definition await_get (now : Z) (key worker : string) (request : KeyRequest)
    (m : gmap string PendingRequest) : gmap string PendingRequest :=
  let p :=
    match m !! key with
    | Some p => p
    | None => {| tp_ := now; worker_addr_ := ""; request_ := request |}
    end in
  <[key := with_worker worker p]> m.

Definition await_put (now : Z) (key worker : string) (request : KeyRequest)
    (m : gmap string (gmap string PendingRequest)) : gmap string (gmap string PendingRequest) :=
  <[key := await_get now (kreq_request_id request) worker request (at_default ∅ key m)]> m.

(** [try_request(request)]: the argument is a reference, its new value is the
    result. *)
Definition try_request (now : Z) (request : KeyRequest) : kvs KeyRequest :=
  tuple ← lift (vec_at (kreq_tuples request) 0);
  let key := kt_key tuple in
  worker ← get_worker_thread key;
  if decide (size_of worker = 0) then
    upd_pending (λ m,
      let p := at_default (now, []) key m in <[key := (p.1, p.2 ++ [request])]> m);;
    mret request
  else
    cache ← gets key_address_cache_;
    let request := set_address_cache_size (Z.of_nat (size (at_default ∅ key cache))) request in
    emit {| send_to := worker; send_msg := MKeyRequest request |};;
    (if decide (kreq_type request = GET) then upd_get (await_get now key worker request)
     else upd_put (await_put now key worker request));;
    mret request.

Definition with_put_tuple (lattice_type : LatticeType) (payload : string) (request : KeyRequest) : KeyRequest :=
  {| kreq_type := PUT;
     kreq_tuples := map (λ t, {| kt_key := kt_key t; kt_lattice_type := lattice_type;
         kt_error := kt_error t; kt_payload := payload;
         kt_address_cache_size := kt_address_cache_size t; kt_invalidate := kt_invalidate t |})
       (kreq_tuples request);
     kreq_response_address := kreq_response_address request;
     kreq_request_id := kreq_request_id request |}.

Definition with_get_type (request : KeyRequest) : KeyRequest :=
  {| kreq_type := GET; kreq_tuples := kreq_tuples request;
     kreq_response_address := kreq_response_address request;
     kreq_request_id := kreq_request_id request |}.

Definition put_async (now : Z) (key payload : string) (lattice_type : LatticeType) : kvs string :=
  request ← prepare_data_request key;
  request ← try_request now (with_put_tuple lattice_type payload request);
  mret (kreq_request_id request).

Definition get_async (now : Z) (key : string) : kvs unit :=
  pending ← gets pending_get_response_map_;
  match pending !! key with
  | Some _ => mret tt
  | None =>
      request ← prepare_data_request key;
      _ ← try_request now (with_get_type request);
      mret tt
  end.

Definition invalidate_cache_for_key (key : string) : kvs unit := upd_cache (delete key).

Definition check_tuple (tuple : KeyTuple) : kvs bool :=
  if decide (kt_error tuple = WRONG_THREAD) then
    invalidate_cache_for_key (kt_key tuple);; mret true
  else
    when (kt_invalidate tuple) (invalidate_cache_for_key (kt_key tuple));;
    mret false.

(** The ip part of an address, [split(address, ':')[1]]. *)
Definition signature_of (address : string) : result string := vec_at (split address ":"%char) 1.

Definition invalidate_cache_for_worker (worker : string) : kvs unit :=
  signature ← lift (signature_of worker);
  cache ← gets key_address_cache_;
  remove_set ← for_fold (λ remove_set key_pair,
      for_fold (λ remove_set address,
          v ← lift (signature_of address);
          mret (if decide (v = signature) then {[key_pair.1]} ∪ remove_set else remove_set))
        (set_iter key_pair.2) remove_set)
    (map_iter cache) (∅ : gset string);
  for_each (λ key, upd_cache (delete key)) (set_iter remove_set).

Definition generate_bad_response (req : KeyRequest) : result KeyResponse :=
  t ← vec_at (kreq_tuples req) 0;
  Ok {| kres_type := kreq_type req;
        kres_tuples := [
          if decide (kreq_type req = PUT) then
            {| kt_key := kt_key t; kt_lattice_type := kt_lattice_type t; kt_error := NO_ERROR;
               kt_payload := kt_payload t; kt_address_cache_size := 0; kt_invalidate := false |}
          else
            {| kt_key := kt_key t; kt_lattice_type := NONE; kt_error := NO_ERROR;
               kt_payload := ""; kt_address_cache_size := 0; kt_invalidate := false |}];
        kres_response_id := kreq_request_id req; kres_error := TIMEOUT |}.

(** *** [receive_async] *)

(** [for (auto& req : pending_request_map_[key].second) try_request(req)]: a
    [try_request] that finds no server appends to the vector the loop runs over,
    which invalidates its iterators. *)
Definition retry_pending (now : Z) (key : string) (reqs : list KeyRequest) : kvs unit :=
  for_each (λ req,
    _ ← try_request now req;
    pending ← gets pending_request_map_;
    if decide (length (at_default (0, []) key pending).2 = length reqs) then mret tt
    else throw Undefined) reqs.

Definition receive_address (now : Z) (response : KeyAddressResponse) : kvs unit :=
  address ← lift (vec_at (kares_addresses response) 0);
  let key := ka_key address in
  pending ← gets pending_request_map_;
  match pending !! key with
  | None => mret tt
  | Some (_, reqs) =>
      if decide (kares_error response = NO_SERVERS) then
        upd_pending (λ m, <[key := (now, reqs)]> m);;
        query_routing_async key
      else
        for_each (λ ip, upd_cache (λ m, <[key := {[ip]} ∪ at_default ∅ key m]> m)) (ka_ips address);;
        retry_pending now key reqs;;
        upd_pending (delete key)
  end.

Definition receive_response (now : Z) (response : KeyResponse) : kvs (list KeyResponse) :=
  tuple ← lift (vec_at (kres_tuples response) 0);
  let key := kt_key tuple in
  if decide (kres_type response = GET) then
    pending ← gets pending_get_response_map_;
    match pending !! key with
    | None => mret []
    | Some p =>
        reissue ← check_tuple tuple;
        if (reissue : bool) then
          upd_get (λ m, <[key := with_tp now p]> m);;
          request ← try_request now (request_ p);
          upd_get (alter (with_request request) key);;
          mret []
        else
          upd_get (delete key);;
          mret [response]
    end
  else
    pending ← gets pending_put_response_map_;
    let id := kres_response_id response in
    match at_default ∅ key pending !! id with
    | None => mret []
    | Some p =>
        reissue ← check_tuple tuple;
        if (reissue : bool) then
          upd_put (alter (insert id (with_tp now p)) key);;
          request ← try_request now (request_ p);
          upd_put (alter (alter (with_request request) id) key);;
          mret []
        else
          upd_put (alter (delete id) key);;
          upd_put (λ m, if decide (size (at_default ∅ key m) = 0%nat) then delete key m else m);;
          mret [response]
    end.

Definition expired (now timeout tp : Z) : bool := bool_decide (to_ms (now - tp) > timeout).

(** The three collections of what has waited for more than [timeout_]. *)
Definition gc_pending (now : Z) : kvs (list KeyResponse) :=
  timeout ← gets timeout_;
  pending ← gets pending_request_map_;
  '(result, to_remove) ← for_fold (λ '(result, to_remove) pair,
      if expired now timeout pair.2.1 then
        bad ← lift (mapM generate_bad_response pair.2.2);
        mret (result ++ bad, {[pair.1]} ∪ to_remove)
      else mret (result, to_remove))
    (map_iter pending) ([], ∅ : gset string);
  for_each (λ key, upd_pending (delete key)) (set_iter to_remove);;
  mret result.

Definition gc_get (now : Z) : kvs (list KeyResponse) :=
  timeout ← gets timeout_;
  pending ← gets pending_get_response_map_;
  '(result, to_remove) ← for_fold (λ '(result, to_remove) pair,
      if expired now timeout (tp_ pair.2) then
        bad ← lift (generate_bad_response (request_ pair.2));
        invalidate_cache_for_worker (worker_addr_ pair.2);;
        mret (result ++ [bad], {[pair.1]} ∪ to_remove)
      else mret (result, to_remove))
    (map_iter pending) ([], ∅ : gset string);
  for_each (λ key, upd_get (delete key)) (set_iter to_remove);;
  mret result.

(** [to_remove_put] holds the ids by key; here the pairs of key and id. *)
Definition gc_put (now : Z) : kvs (list KeyResponse) :=
  timeout ← gets timeout_;
  pending ← gets pending_put_response_map_;
  '(result, to_remove) ← for_fold (λ acc key_map_pair,
      for_fold (λ '(result, to_remove) id_map_pair,
          if expired now timeout (tp_ id_map_pair.2) then
            bad ← lift (generate_bad_response (request_ id_map_pair.2));
            invalidate_cache_for_worker (worker_addr_ id_map_pair.2);;
            mret (result ++ [bad],
              <[key_map_pair.1 := {[id_map_pair.1]} ∪ at_default ∅ key_map_pair.1 to_remove]> to_remove)
          else mret (result, to_remove))
        (map_iter key_map_pair.2) acc)
    (map_iter pending) ([], ∅ : gmap string (gset string));
  for_each (λ key_set_pair,
      for_each (λ id, upd_put (alter (delete id) key_set_pair.1)) (set_iter key_set_pair.2))
    (map_iter to_remove);;
  mret result.

(** [addr] and [resp] are what the two sockets deliver, if anything. *)
Definition receive_async (now : Z) (addr : option KeyAddressResponse) (resp : option KeyResponse)
    : kvs (list KeyResponse) :=
  (match addr with Some response => receive_address now response | None => mret tt end);;
  r0 ← (match resp with Some response => receive_response now response | None => mret [] end);
  r1 ← gc_pending now;
  r2 ← gc_get now;
  r3 ← gc_put now;
  mret (r0 ++ r1 ++ r2 ++ r3).

Definition clear_cache : kvs unit := upd_cache (λ _, ∅).

End methods.

(** ** Lemmas *)

Section lemmas.
Context `{UnorderedIter, Rand}.

Definition key_of (r : KeyRequest) : option string := kt_key <$> kreq_tuples r !! 0%nat.

(** A request the client has issued and neither delivered nor given up: by key for
    a GET, by key and id for a PUT. *)
Definition is_request (ty : RequestType) (id : string) (r : KeyRequest) : Prop :=
  kreq_type r = ty ∧ (ty = PUT → kreq_request_id r = id).

Definition sent (c : KvsClient) (key : string) (ty : RequestType) (id : string) : Prop :=
  match ty with
  | GET => is_Some (pending_get_response_map_ c !! key)
  | _ => is_Some (at_default ∅ key (pending_put_response_map_ c) !! id)
  end.

Definition outstanding (c : KvsClient) (key : string) (ty : RequestType) (id : string) : Prop :=
  sent c key ty id ∨ ∃ r, r ∈ (at_default (0, []) key (pending_request_map_ c)).2 ∧ is_request ty id r.

(** A response to such a request. *)
Definition answers (key : string) (ty : RequestType) (id : string) (r : KeyResponse) : Prop :=
  (kt_key <$> kres_tuples r !! 0%nat) = Some key ∧
  match ty with GET => kres_type r = GET | _ => kres_type r ≠ GET ∧ kres_response_id r = id end.

(** *** Frames: what a method leaves alone *)
Definition same_pending (c c' : KvsClient) : Prop :=
  pending_request_map_ c' = pending_request_map_ c ∧
  pending_get_response_map_ c' = pending_get_response_map_ c ∧
  pending_put_response_map_ c' = pending_put_response_map_ c ∧ timeout_ c' = timeout_ c.

Definition same_cache (c c' : KvsClient) : Prop :=
  same_pending c c' ∧ key_address_cache_ c' = key_address_cache_ c.

Lemma same_pending_outstanding c c' key ty id :
  same_pending c c' → outstanding c key ty id → outstanding c' key ty id.
Proof. intros (E1 & E2 & E3 & _). unfold outstanding, sent. by rewrite E1, E2, E3. Qed.

#[local] Instance same_cache_preorder : PreOrder same_cache.
Proof.
  split; [done|]. intros x y z (( ? & ? & ? & ?) & ?) ((? & ? & ? & ?) & ?).
  split; [split_and!|]; congruence.
Qed.

#[local] Instance same_pending_preorder : PreOrder same_pending.
Proof. split; [done|]. intros x y z (? & ? & ? & ?) (? & ? & ? & ?). split_and!; congruence. Qed.

Lemma get_request_id_frame c : wlp get_request_id c (λ c' _ _, same_cache c c').
Proof. done. Qed.

Lemma prepare_data_request_frame key c :
  wlp (prepare_data_request key) c (λ c' _ r, same_cache c c' ∧
    (kt_key <$> kreq_tuples r !! 0%nat) = Some key ∧
    kreq_request_id r = request_id_of (ut_ c) (next_rid (rid_ c)).1).
Proof. done. Qed.

Lemma rand_below_frame c n :
  wlp (rand_below n) c (λ c' o r, same_cache c c' ∧ o = [] ∧ (0 < n → 0 ≤ r < n)).
Proof.
  unfold rand_below. case_decide; [done|]. repeat eff_step. split_and!; [done|done|].
  intros. apply Z.mod_pos_bound. lia.
Qed.

Lemma query_routing_async_frame c key : wlp (query_routing_async key) c (λ c' _ _, same_cache c c').
Proof.
  unfold query_routing_async, get_routing_thread. repeat eff_step.
  eff_call get_request_id_frame. intros c1 _ id H1.
  repeat eff_step. eff_call rand_below_frame. intros c2 _ r (H2 & _).
  eff_step. apply wlp_lift. intros t _. repeat eff_step. by transitivity c1.
Qed.

(** A server of the cache, or [""] with the routing tier asked. *)
Lemma get_worker_thread_spec c key :
  wlp (get_worker_thread key) c (λ c' _ worker, same_cache c c' ∧
    (at_default ∅ key (key_address_cache_ c) = ∅ ∧ worker = "" ∨
     worker ∈ at_default ∅ key (key_address_cache_ c))).
Proof.
  unfold get_worker_thread, get_all_worker_threads. repeat eff_step. case_decide as Hc.
  - eff_step. unfold when. case_bool_decide.
    + eff_call query_routing_async_frame. intros c1 _ _ Hf.
      repeat eff_step. split; [done|by left].
    + repeat eff_step. split; [done|by left].
  - repeat eff_step. case_decide as Hs.
    { apply size_empty_inv in Hs. set_solver. }
    eff_step. eff_call rand_below_frame. intros c1 _ r (H1 & _ & Hr).
    apply wlp_lift. intros a Ha%vec_at_Ok. split; [done|right].
    apply set_iter_elem. by eapply list_elem_of_lookup_2.
Qed.

(** The two outcomes of [try_request]. *)
Definition queued (now : Z) (key : string) (req : KeyRequest) (c : KvsClient) : KvsClient :=
  let p := at_default (now, []) key (pending_request_map_ c) in
  set_pending c (<[key := (p.1, p.2 ++ [req])]> (pending_request_map_ c)).

Definition awaiting (now : Z) (key worker : string) (req : KeyRequest) (c : KvsClient) : KvsClient :=
  if decide (kreq_type req = GET)
  then set_pending_get c (await_get now key worker req (pending_get_response_map_ c))
  else set_pending_put c (await_put now key worker req (pending_put_response_map_ c)).

Lemma try_request_spec now req c :
  wlp (try_request now req) c (λ c' _ req', ∃ key c1,
    key_of req = Some key ∧ same_cache c c1 ∧
    ((at_default ∅ key (key_address_cache_ c) = ∅ ∨ "" ∈ at_default ∅ key (key_address_cache_ c)) ∧
       c' = queued now key req c1 ∧ req' = req ∨
     ∃ worker n, worker ∈ at_default ∅ key (key_address_cache_ c) ∧
       req' = set_address_cache_size n req ∧ c' = awaiting now key worker req' c1)).
Proof.
  unfold try_request. eff_step. apply wlp_lift. intros t Ht%vec_at_Ok. eff_step.
  eff_call get_worker_thread_spec. intros c1 o1 worker [Hsame Hw]. case_decide as Hs.
  - unfold upd_pending. repeat eff_step. exists (kt_key t), c1. unfold key_of. rewrite Ht.
    split_and!; [done..|left]. split_and!; [|done..].
    destruct Hw as [[Hw _]|Hw]; [by left|right]. by destruct worker.
  - destruct Hw as [[_ ->]|Hw]; [by destruct Hs|]. do 3 eff_step.
    destruct Hsame as [Hp Hc]. unfold upd_get, upd_put. eff_step.
    destruct (decide (kreq_type (set_address_cache_size _ req) = GET)) as [Hg|Hg]; repeat eff_step;
      (exists (kt_key t), c1; unfold key_of; rewrite Ht; split_and!; [done..|right];
       eexists worker, _; split_and!; [done|done|]; unfold awaiting).
    + by rewrite decide_True.
    + by rewrite decide_False.
Qed.

Lemma queued_outstanding now key req c k ty id :
  outstanding c k ty id ∨ k = key ∧ is_request ty id req → outstanding (queued now key req c) k ty id.
Proof.
  unfold outstanding, queued, sent; cbn. intros [[Hs|(r & Hr & Hi)]|(-> & Hi)]; [by left|right..].
  - exists r. split; [|done]. unfold at_default in *. destruct (decide (k = key)) as [->|].
    + rewrite lookup_insert_eq. cbn. destruct (_ !! key); cbn in *; set_solver.
    + by rewrite lookup_insert_ne.
  - exists req. split; [|done]. unfold at_default. rewrite lookup_insert_eq. cbn. set_solver.
Qed.

Lemma await_get_lookup now key worker req m k :
  is_Some (await_get now key worker req m !! k) ↔ k = key ∨ is_Some (m !! k).
Proof.
  unfold await_get. destruct (decide (k = key)) as [->|].
  - rewrite lookup_insert_eq. naive_solver.
  - rewrite lookup_insert_ne by done. naive_solver.
Qed.

Lemma await_put_lookup now key worker req m k id :
  is_Some (at_default ∅ k (await_put now key worker req m) !! id) ↔
  k = key ∧ id = kreq_request_id req ∨ is_Some (at_default ∅ k m !! id).
Proof.
  unfold await_put. destruct (decide (k = key)) as [->|].
  - rewrite at_default_insert, await_get_lookup. naive_solver.
  - rewrite at_default_insert_ne by done. naive_solver.
Qed.

Lemma awaiting_sent now key worker req c k ty id :
  ty = GET ∨ ty = PUT → sent c k ty id ∨ k = key ∧ is_request ty id req →
  sent (awaiting now key worker req c) k ty id.
Proof.
  unfold awaiting, is_request. intros [-> | ->] Hs; case_decide as Hg; cbn -[at_default].
  - apply await_get_lookup. naive_solver.
  - destruct Hs as [Hs|(_ & Hs & _)]; [done|congruence].
  - destruct Hs as [Hs|(_ & Hs & _)]; [done|congruence].
  - apply await_put_lookup. naive_solver.
Qed.

Lemma awaiting_pending now key worker req c :
  pending_request_map_ (awaiting now key worker req c) = pending_request_map_ c.
Proof. unfold awaiting. by case_decide. Qed.

(** No request is lost by issuing one, and the one issued is outstanding. *)
Lemma try_request_outstanding now req c k ty id :
  ty = GET ∨ ty = PUT →
  outstanding c k ty id ∨ key_of req = Some k ∧ is_request ty id req →
  wlp (try_request now req) c (λ c' _ _, outstanding c' k ty id).
Proof.
  intros Hty Hout. eff_call try_request_spec. intros c' _ req' (key & c1 & Hk & [Hsame _] & Hcase).
  assert (outstanding c1 k ty id ∨ k = key ∧ is_request ty id req) as Hout1.
  { destruct Hout as [Hout|[E ?]]; [left; by eapply same_pending_outstanding|right]. naive_solver. }
  destruct Hcase as [(_ & -> & _)|(worker & n & _ & -> & ->)]; [by apply queued_outstanding|].
  unfold outstanding. rewrite awaiting_pending.
  destruct Hout1 as [[Hs|Hq]|[-> Hi]]; [left; apply awaiting_sent; by auto|by right|].
  left. apply awaiting_sent; auto.
Qed.

(** *** The invariant of the client

    A request is filed under its key and id, a sent GET among the GETs; every
    address the client may send to has an ip part. *)
Definition entry_ok (key : string) (p : PendingRequest) : Prop :=
  key_of (request_ p) = Some key ∧ is_ok (signature_of (worker_addr_ p)).

Record kvs_ok (c : KvsClient) : Prop := {
  ok_cache : ∀ k a, a ∈ at_default ∅ k (key_address_cache_ c) → is_ok (signature_of a);
  ok_pending : ∀ k r, r ∈ (at_default (0, []) k (pending_request_map_ c)).2 → key_of r = Some k;
  ok_get : ∀ k p, pending_get_response_map_ c !! k = Some p →
    entry_ok k p ∧ kreq_type (request_ p) = GET;
  ok_put : ∀ k id p, at_default ∅ k (pending_put_response_map_ c) !! id = Some p →
    entry_ok k p ∧ kreq_type (request_ p) ≠ GET ∧ kreq_request_id (request_ p) = id }.

Lemma new_KvsClient_ok threads ip tid timeout seed : kvs_ok (new_KvsClient threads ip tid timeout seed).
Proof. split; cbn; unfold at_default; intros *; rewrite ?lookup_empty; cbn; set_solver. Qed.

Lemma same_cache_ok c c' : same_cache c c' → kvs_ok c → kvs_ok c'.
Proof.
  intros [(E1 & E2 & E3 & _) E4] [H1 H2 H3 H4]. split; rewrite ?E1, ?E2, ?E3, ?E4; done.
Qed.

Lemma no_signature_of_empty : ¬ is_ok (signature_of "").
Proof. by intros [? ?]. Qed.

Lemma key_of_set_size n r : key_of (set_address_cache_size n r) = key_of r.
Proof. unfold key_of. cbn. by destruct (kreq_tuples r). Qed.

Lemma queued_ok now key req c : kvs_ok c → key_of req = Some key → kvs_ok (queued now key req c).
Proof.
  intros [H1 H2 H3 H4] Hk. split; cbn; [done| |done|done]. intros k r.
  destruct (decide (k = key)) as [->|].
  - rewrite at_default_insert. cbn. intros [Hr|Hr%list_elem_of_singleton]%elem_of_app; [|by subst].
    apply H2. unfold at_default in *. by destruct (_ !! key).
  - rewrite at_default_insert_ne by done. apply H2.
Qed.

Lemma awaiting_ok now key worker req c :
  kvs_ok c → key_of req = Some key → is_ok (signature_of worker) → kvs_ok (awaiting now key worker req c).
Proof.
  intros [H1 H2 H3 H4] Hk Hw. unfold awaiting. case_decide as Hg; split; cbn; try done.
  - unfold await_get. intros k p. destruct (decide (k = key)) as [->|];
      [rewrite lookup_insert_eq | rewrite lookup_insert_ne by done; apply H3].
    intros [= <-]. unfold entry_ok. destruct (_ !! key) eqn:E; [apply H3 in E as [[? _] ?]|]; cbn; auto.
  - unfold await_put. intros k id p. destruct (decide (k = key)) as [->|];
      [rewrite at_default_insert | rewrite at_default_insert_ne by done; apply H4].
    unfold await_get. destruct (decide (id = kreq_request_id req)) as [->|];
      [rewrite lookup_insert_eq | rewrite lookup_insert_ne by done; apply H4].
    intros [= <-]. unfold entry_ok.
    destruct (_ !! kreq_request_id req) eqn:E; [apply H4 in E as [[? _] ?]|]; cbn; auto.
Qed.

Lemma try_request_ok now req : keeps kvs_ok (try_request now req).
Proof.
  intros c Hok. eff_call try_request_spec. intros c' _ req' (key & c1 & Hk & Hsame & Hcase).
  apply (same_cache_ok c c1) in Hok as Hok1; [|done].
  destruct Hcase as [(_ & -> & _)|(worker & n & Hw & -> & ->)]; [by apply queued_ok|].
  apply awaiting_ok; [done|by rewrite key_of_set_size|]. exact (ok_cache c Hok _ _ Hw).
Qed.

Lemma frame_ok {A} (m : kvs A) : (∀ c, wlp m c (λ c' _ _, same_cache c c')) → keeps kvs_ok m.
Proof. intros Hm c Hok. eff_call Hm. intros c' _ a Hs. by eapply same_cache_ok. Qed.

Lemma query_routing_async_ok key : keeps kvs_ok (query_routing_async key).
Proof. apply frame_ok. intros. apply query_routing_async_frame. Qed.

Lemma prepare_data_request_ok key : keeps kvs_ok (prepare_data_request key).
Proof. by apply frame_ok. Qed.

Lemma put_async_ok now key payload lt : keeps kvs_ok (put_async now key payload lt).
Proof.
  unfold put_async. apply keeps_bind; [apply prepare_data_request_ok|]. intros r.
  apply keeps_bind; [apply try_request_ok|auto with eff].
Qed.

Lemma get_async_ok now key : keeps kvs_ok (get_async now key).
Proof.
  unfold get_async. apply keeps_bind; [auto with eff|]. intros m. case_match; [auto with eff|].
  apply keeps_bind; [apply prepare_data_request_ok|]. intros r.
  apply keeps_bind; [apply try_request_ok|auto with eff].
Qed.

(** Erasing keeps the invariant. *)
Lemma delete_cache_ok k : keeps kvs_ok (upd_cache (delete k)).
Proof.
  apply keeps_modify. intros c [H1 H2 H3 H4]. split; [|done..]. intros k' a. cbn. unfold at_default.
  destruct (decide (k = k')) as [->|]; [by rewrite lookup_delete_eq|].
  rewrite lookup_delete_ne by done. apply H1.
Qed.

Lemma delete_pending_ok k : keeps kvs_ok (upd_pending (delete k)).
Proof.
  apply keeps_modify. intros c [H1 H2 H3 H4]. split; [done| |done..]. intros k' a. cbn. unfold at_default.
  destruct (decide (k = k')) as [->|]; [rewrite lookup_delete_eq; cbn; set_solver|].
  rewrite lookup_delete_ne by done. apply H2.
Qed.

Lemma delete_get_ok k : keeps kvs_ok (upd_get (delete k)).
Proof.
  apply keeps_modify. intros c [H1 H2 H3 H4]. split; [done|done| |done]. intros k' p. cbn.
  intros [_ Hp]%lookup_delete_Some. by apply H3.
Qed.

(** An update of the PUTs of one key that only keeps or erases entries. *)
Lemma upd_put_ok f :
  (∀ m k id, at_default ∅ k (f m : gmap string (gmap string PendingRequest)) !! id = None ∨
             at_default ∅ k (f m) !! id = at_default ∅ k m !! id) →
  keeps kvs_ok (upd_put f).
Proof.
  intros Hf. apply keeps_modify. intros c [H1 H2 H3 H4]. split; [done|done|done|]. cbn.
  intros k id p. destruct (Hf (pending_put_response_map_ c) k id) as [-> | ->]; [done|apply H4].
Qed.

Lemma alter_delete_lookup (m : gmap string (gmap string PendingRequest)) k id k' id' :
  at_default ∅ k' (alter (delete id) k m) !! id' =
  (if decide (k' = k ∧ id' = id) then None else at_default ∅ k' m !! id').
Proof.
  unfold at_default. destruct (decide (k' = k)) as [->|].
  - rewrite lookup_alter_eq. destruct (m !! k) as [x|]; cbn; [|case_decide; by rewrite ?lookup_empty].
    destruct (decide (id' = id)) as [->|]; [rewrite lookup_delete_eq; case_decide; naive_solver|].
    rewrite lookup_delete_ne by done. rewrite decide_False; naive_solver.
  - rewrite lookup_alter_ne by done. rewrite decide_False; naive_solver.
Qed.

Lemma delete_put_ok k id : keeps kvs_ok (upd_put (alter (delete id) k)).
Proof. apply upd_put_ok. intros m k' id'. rewrite alter_delete_lookup. case_decide; auto. Qed.

Lemma check_tuple_ok t : keeps kvs_ok (check_tuple t).
Proof.
  unfold check_tuple. case_decide; (apply keeps_bind; [|auto with eff]);
    [|apply keeps_when]; apply delete_cache_ok.
Qed.

Lemma invalidate_cache_for_worker_ok w : keeps kvs_ok (invalidate_cache_for_worker w).
Proof.
  unfold invalidate_cache_for_worker. repeat (apply keeps_bind; [auto 6 with eff|intros ?]).
  apply keeps_for_each. intros. apply delete_cache_ok.
Qed.

(** *** No request is lost *)
Lemma try_request_sent now req c :
  wlp (try_request now req) c (λ c' _ _, ∃ key, key_of req = Some key ∧
    (∀ k ty id, ty = GET ∨ ty = PUT → sent c k ty id → sent c' k ty id) ∧
    (length (at_default (0, []) key (pending_request_map_ c')).2
       = S (length (at_default (0, []) key (pending_request_map_ c)).2) ∨
     pending_request_map_ c' = pending_request_map_ c ∧
     ∀ ty id, ty = GET ∨ ty = PUT → is_request ty id req → sent c' key ty id)).
Proof.
  eff_call try_request_spec. intros c' _ req' (key & c1 & Hk & [(E1 & E2 & E3 & _) _] & Hcase).
  exists key. split; [done|].
  destruct Hcase as [(_ & -> & _)|(worker & n & _ & -> & ->)]; split; cbn.
  - unfold sent. cbn. by rewrite E2, E3.
  - left. rewrite at_default_insert, E1. cbn. rewrite length_app. cbn. unfold at_default.
    destruct (_ !! key); cbn; lia.
  - intros k ty id Hty Hs. apply awaiting_sent; [done|left]. unfold sent in *. by rewrite E2, E3.
  - right. rewrite awaiting_pending. split; [done|]. intros. apply awaiting_sent; auto.
Qed.

Lemma retry_pending_spec now key reqs c :
  (∀ r, r ∈ reqs → key_of r = Some key) → (at_default (0, []) key (pending_request_map_ c)).2 = reqs →
  wlp (retry_pending now key reqs) c (λ c' _ _,
    pending_request_map_ c' = pending_request_map_ c ∧
    (∀ k ty id, ty = GET ∨ ty = PUT → sent c k ty id → sent c' k ty id) ∧
    (∀ r ty id, r ∈ reqs → ty = GET ∨ ty = PUT → is_request ty id r → sent c' key ty id)).
Proof.
  intros Hkeys Hreqs. unfold retry_pending.
  apply (wlp_for_each (λ pre c' _, pending_request_map_ c' = pending_request_map_ c ∧
    (∀ k ty id, ty = GET ∨ ty = PUT → sent c k ty id → sent c' k ty id) ∧
    (∀ r ty id, r ∈ pre → ty = GET ∨ ty = PUT → is_request ty id r → sent c' key ty id))).
  { split_and!; [done|done|set_solver]. }
  intros pre r c1 o1 [post Hpre] (E & Hsent & Hdone). eff_step. eff_call try_request_sent.
  intros c2 o2 r' (key' & Hk & Hsent' & Hcase). repeat eff_step.
  assert (key' = key) as -> by (rewrite Hkeys in Hk by (rewrite Hpre; set_solver); congruence).
  case_decide as Hlen; [|by eff_step].
  destruct Hcase as [Hcase|[E' Hreq]]; [rewrite E, Hreqs in Hcase; lia|]. eff_step.
  split_and!; [congruence|auto|]. intros r0 ty id [Hr|Hr%list_elem_of_singleton]%elem_of_app;
    [intros; apply Hsent'; eauto | subst; eauto].
Qed.

Lemma upd_cache_keeps f (P : KvsClient → Prop) :
  (∀ c m, P c → P (set_cache c m)) → keeps P (upd_cache f).
Proof. intros HP. apply keeps_modify. auto. Qed.

Lemma receive_address_outstanding now response c k ty id :
  kvs_ok c → ty = GET ∨ ty = PUT → outstanding c k ty id →
  wlp (receive_address now response) c (λ c' _ _, outstanding c' k ty id).
Proof.
  intros Hok Hty Hout. unfold receive_address. eff_step. apply wlp_lift. intros addr _. eff_step. eff_step.
  destruct (pending_request_map_ c !! ka_key addr) as [[t reqs]|] eqn:Ep; [|by eff_step].
  case_decide; eff_step.
  - unfold upd_pending. eff_step. eff_call query_routing_async_frame. intros c' _ _ [Hs _].
    eapply same_pending_outstanding; [done|]. destruct Hout as [|(r & Hr & Hi)]; [by left|right].
    exists r. split; [|done]. cbn. unfold at_default in *. destruct (decide (k = ka_key addr)) as [->|].
    + rewrite lookup_insert_eq. by rewrite Ep in Hr.
    + by rewrite lookup_insert_ne.
  - set (P c' := same_pending c c').
    eapply wlp_mono; [by apply (keeps_for_each P); [intros; by apply upd_cache_keeps|]|].
    intros c1 _ _ (E1 & E2 & E3 & _). eff_step.
    eapply wlp_mono; [apply retry_pending_spec|].
    + intros r Hr. apply (ok_pending c Hok). unfold at_default. by rewrite Ep.
    + unfold at_default. by rewrite E1, Ep.
    + intros c2 _ _ (E4 & Hsent & Hreqs). unfold upd_pending. eff_step.
      assert (sent c k ty id → sent c2 k ty id) as Hsent0.
      { intros. apply Hsent; [done|]. unfold sent in *. by rewrite E2, E3. }
      destruct Hout as [|(r & Hr & Hi)]; [left; by apply Hsent0|].
      unfold at_default in Hr. destruct (decide (k = ka_key addr)) as [->|].
      * rewrite Ep in Hr. left. by apply (Hreqs r).
      * right. exists r. split; [|done]. cbn. unfold at_default. by rewrite lookup_delete_ne, E4, E1.
Qed.

Lemma check_tuple_frame t c : wlp (check_tuple t) c (λ c' _ _, same_pending c c').
Proof.
  assert (∀ k, keeps (same_pending c) (upd_cache (delete k))) as Hd by (intros; by apply upd_cache_keeps).
  assert (keeps (same_pending c) (check_tuple t)) as Hk; [|by apply Hk].
  unfold check_tuple. case_decide; (apply keeps_bind; [|auto with eff]); [|apply keeps_when]; apply Hd.
Qed.

Lemma invalidate_frame w c : wlp (invalidate_cache_for_worker w) c (λ c' _ _, same_pending c c').
Proof.
  assert (keeps (same_pending c) (invalidate_cache_for_worker w)) as Hk; [|by apply Hk].
  unfold invalidate_cache_for_worker. repeat (apply keeps_bind; [auto 6 with eff|intros ?]).
  apply keeps_for_each. intros. by apply upd_cache_keeps.
Qed.

Lemma bad_response_answers r bad k ty id :
  key_of r = Some k → is_request ty id r → ty = GET ∨ ty = PUT →
  generate_bad_response r = Ok bad → answers k ty id bad.
Proof.
  unfold generate_bad_response, key_of. intros Hk [Ht Hid] Hty (t & Htt%vec_at_Ok & [= <-])%bind_Ok.
  rewrite Htt in Hk. injection Hk as <-. split; cbn; [by case_decide|].
  destruct Hty as [-> | ->]; [done|]. split; [congruence|auto].
Qed.

(** The outcome of one step for one request: still outstanding, or answered. *)
Definition tracked (k : string) (ty : RequestType) (id : string) (c : KvsClient)
    (rs : list KeyResponse) : Prop :=
  outstanding c k ty id ∨ Exists (answers k ty id) rs.

(** An update of the sent requests that keeps every key and id in place. *)
Lemma keeps_sent_outstanding c c' k ty id :
  pending_request_map_ c' = pending_request_map_ c → (sent c k ty id → sent c' k ty id) →
  outstanding c k ty id → outstanding c' k ty id.
Proof. unfold outstanding. intros -> Hs. naive_solver. Qed.

Lemma alter_insert_sent (m : gmap string (gmap string PendingRequest)) key i p k id :
  is_Some (at_default ∅ key m !! i) → is_Some (at_default ∅ k m !! id) →
  is_Some (at_default ∅ k (alter (insert i p) key m) !! id).
Proof.
  unfold at_default. intros Hi Hk. destruct (decide (k = key)) as [->|];
    [rewrite lookup_alter_eq | by rewrite lookup_alter_ne].
  destruct (m !! key); cbn in *; [|done]. destruct (decide (id = i)) as [->|];
    [by rewrite lookup_insert_eq | by rewrite lookup_insert_ne].
Qed.

Lemma alter_alter_sent (m : gmap string (gmap string PendingRequest)) f key i k id :
  is_Some (at_default ∅ k m !! id) → is_Some (at_default ∅ k (alter (alter f i) key m) !! id).
Proof.
  unfold at_default. intros Hk. destruct (decide (k = key)) as [->|];
    [rewrite lookup_alter_eq | by rewrite lookup_alter_ne].
  destruct (m !! key); cbn in *; [|done]. by rewrite lookup_alter_is_Some.
Qed.

Lemma receive_get_outstanding now response tuple p c k ty id :
  kres_tuples response !! 0%nat = Some tuple → kres_type response = GET →
  pending_get_response_map_ c !! kt_key tuple = Some p →
  ty = GET ∨ ty = PUT → outstanding c k ty id →
  wlp (receive_response now response) c (λ c' _ rs, tracked k ty id c' rs).
Proof.
  intros Htu Hget Hp Hty Hout. unfold receive_response. eff_step. apply wlp_lift.
  intros t' Ht'%vec_at_Ok. simplify_eq. rewrite decide_True by done. do 2 eff_step. rewrite Hp.
  eff_step. eff_call check_tuple_frame. intros c1 _ b Hs.
  apply (same_pending_outstanding c c1) in Hout; [|done]. destruct Hs as (_ & E2 & _ & _).
  destruct b; unfold upd_get; repeat eff_step.
  - eff_call (try_request_outstanding now (request_ p) _ k ty id); [done|left|].
    { eapply keeps_sent_outstanding; [..|exact Hout]; [done|]. unfold sent; cbn. destruct ty; try done.
      destruct (decide (k = kt_key tuple)) as [->|]; [by rewrite lookup_insert_eq|by rewrite lookup_insert_ne]. }
    intros c2 _ r Hout2. repeat eff_step. left.
    eapply keeps_sent_outstanding; [..|exact Hout2]; [done|]. unfold sent; cbn. destruct ty; try done.
    by rewrite lookup_alter_is_Some.
  - destruct (decide (k = kt_key tuple ∧ ty = GET)) as [[-> ->]|Hne].
    + right. apply Exists_cons_hd. unfold answers. by rewrite Htu.
    + left. eapply keeps_sent_outstanding; [..|exact Hout]; [done|]. unfold sent; cbn. destruct ty; try done.
      rewrite lookup_delete_ne by naive_solver. done.
Qed.

Lemma receive_put_outstanding now response tuple p c k ty id :
  kres_tuples response !! 0%nat = Some tuple → kres_type response ≠ GET →
  at_default ∅ (kt_key tuple) (pending_put_response_map_ c) !! kres_response_id response = Some p →
  ty = GET ∨ ty = PUT → outstanding c k ty id →
  wlp (receive_response now response) c (λ c' _ rs, tracked k ty id c' rs).
Proof.
  intros Htu Hput Hp Hty Hout. unfold receive_response. eff_step. apply wlp_lift.
  intros t' Ht'%vec_at_Ok. simplify_eq. rewrite decide_False by done. do 2 eff_step. rewrite Hp.
  eff_step. eff_call check_tuple_frame. intros c1 _ b Hs.
  apply (same_pending_outstanding c c1) in Hout; [|done]. destruct Hs as (_ & _ & E3 & _).
  destruct b; unfold upd_put; repeat eff_step.
  - eff_call (try_request_outstanding now (request_ p) _ k ty id); [done|left|].
    { eapply keeps_sent_outstanding; [..|exact Hout]; [done|]. unfold sent; cbn.
      destruct ty; try done; apply alter_insert_sent; by rewrite E3, Hp. }
    intros c2 _ r Hout2. repeat eff_step. left.
    eapply keeps_sent_outstanding; [..|exact Hout2]; [done|]. unfold sent; cbn.
    destruct ty; try done; apply alter_alter_sent.
  - destruct (decide (k = kt_key tuple ∧ id = kres_response_id response ∧ ty = PUT)) as [(-> & -> & ->)|Hne].
    { right. apply Exists_cons_hd. unfold answers. by rewrite Htu. }
    left. eapply keeps_sent_outstanding; [..|exact Hout]; [done|]. unfold sent; cbn.
    destruct Hty as [-> | ->]; [done|]. intros [q Hq].
    assert (at_default ∅ k (alter (delete (kres_response_id response)) (kt_key tuple)
      (pending_put_response_map_ c1)) !! id = Some q) as Hq'.
    { rewrite alter_delete_lookup, decide_False by naive_solver. done. }
    case_decide as Hz; [|by eexists]. apply map_size_empty_inv in Hz.
    destruct (decide (k = kt_key tuple)) as [->|]; [by rewrite Hz, lookup_empty in Hq'|].
    unfold at_default in *. rewrite lookup_delete_ne by done. by eexists.
Qed.

Lemma receive_response_outstanding now response c k ty id :
  ty = GET ∨ ty = PUT → outstanding c k ty id →
  wlp (receive_response now response) c (λ c' _ rs, tracked k ty id c' rs).
Proof.
  intros Hty Hout. destruct (kres_tuples response !! 0%nat) as [tuple|] eqn:Htu.
  2:{ unfold receive_response. eff_step. apply wlp_lift. intros t Ht%vec_at_Ok. congruence. }
  destruct (decide (kres_type response = GET)) as [Hg|Hg].
  - destruct (pending_get_response_map_ c !! kt_key tuple) as [p|] eqn:Ep;
      [by eapply receive_get_outstanding|].
    unfold receive_response. eff_step. apply wlp_lift. intros t' Ht'%vec_at_Ok. simplify_eq.
    rewrite decide_True by done. do 2 eff_step. rewrite Ep. eff_step. by left.
  - destruct (at_default ∅ (kt_key tuple) (pending_put_response_map_ c) !! kres_response_id response)
      as [p|] eqn:Ep; [by eapply receive_put_outstanding|].
    unfold receive_response. eff_step. apply wlp_lift. intros t' Ht'%vec_at_Ok. simplify_eq.
    rewrite decide_False by done. do 2 eff_step. rewrite Ep. eff_step. by left.
Qed.

(** *** Giving up *)
Lemma foldl_delete_lookup {K V} `{Countable K} (l : list K) (m : gmap K V) k :
  foldl (λ m k, delete k m) m l !! k = (if decide (k ∈ l) then None else m !! k).
Proof.
  revert m. induction l as [|a l IH]; intros m; cbn [foldl].
  - case_decide as Hk; [by apply not_elem_of_nil in Hk|done].
  - rewrite IH. destruct (decide (k = a)) as [->|].
    + rewrite lookup_delete_eq. repeat case_decide; set_solver.
    + rewrite lookup_delete_ne by done. repeat case_decide; set_solver.
Qed.

Lemma fold_set {A T} (g : KvsClient → T) (put : KvsClient → T → KvsClient) (f : A → T → T) l c :
  (∀ c m, g (put c m) = m) → (∀ c m m', put (put c m) m' = put c m') → (∀ c, put c (g c) = c) →
  foldl (λ c a, put c (f a (g c))) c l = put c (foldl (λ m a, f a m) (g c) l).
Proof.
  intros H1 H2 H3. revert c. induction l as [|a l IH]; intros c; cbn; [by rewrite H3|].
  by rewrite IH, H1, H2.
Qed.

Lemma delete_pending_loop l c :
  foldl (λ c key, set_pending c (delete key (pending_request_map_ c))) c l =
  set_pending c (foldl (λ m key, delete key m) (pending_request_map_ c) l).
Proof. apply (fold_set pending_request_map_ set_pending delete); [done..|]. by intros []. Qed.

Lemma delete_get_loop l c :
  foldl (λ c key, set_pending_get c (delete key (pending_get_response_map_ c))) c l =
  set_pending_get c (foldl (λ m key, delete key m) (pending_get_response_map_ c) l).
Proof. apply (fold_set pending_get_response_map_ set_pending_get delete); [done..|]. by intros []. Qed.

Lemma mapM_bad rs bads r :
  mapM generate_bad_response rs = Ok bads → r ∈ rs → ∃ bad, bad ∈ bads ∧ generate_bad_response r = Ok bad.
Proof.
  revert bads. induction rs as [|a rs IH]; intros bads; cbn; [set_solver|].
  destruct (generate_bad_response a) eqn:E; [|done]. cbn. destruct (mapM _ rs); [|done].
  intros [= <-] [->|Hr]%elem_of_cons; [set_solver|]. destruct (IH _ eq_refl Hr) as (bad & ? & ?). set_solver.
Qed.

(** What the collection of the waiting requests answers and leaves. *)
Lemma gc_pending_spec now c :
  wlp (gc_pending now) c (λ c' _ rs, ∃ removed : list string,
    c' = set_pending c (foldl (λ m key, delete key m) (pending_request_map_ c) removed) ∧
    (∀ key r, key ∈ removed → r ∈ (at_default (0, []) key (pending_request_map_ c)).2 →
      ∃ bad, bad ∈ rs ∧ generate_bad_response r = Ok bad) ∧
    ∀ key p, pending_request_map_ c !! key = Some p → expired now (timeout_ c) p.1 → key ∈ removed).
Proof.
  unfold gc_pending. do 5 eff_step. eapply wlp_mono.
  { apply (wlp_for_fold (λ pre c1 _ '(rs, rem), c1 = c ∧ (∀ key r, key ∈ (rem : gset string) →
      r ∈ (at_default (0, []) key (pending_request_map_ c)).2 →
      ∃ bad, bad ∈ rs ∧ generate_bad_response r = Ok bad) ∧
      ∀ key p, (key, p) ∈ pre → expired now (timeout_ c) p.1 → key ∈ rem)); [split; [done|set_solver]|].
    intros pre [k [t reqs]] c1 o1 [rs rem] [post Hpre] (-> & Hrem & Hall). cbn.
    assert (pending_request_map_ c !! k = Some (t, reqs)) as Hk.
    { apply map_iter_elem. rewrite Hpre. set_solver. }
    case_match eqn:Hexp.
    2:{ eff_step. split_and!; [done..|]. intros key p [Hin|Hin%list_elem_of_singleton]%elem_of_app Hx;
          [by eapply Hall|]. simplify_eq. cbn in Hx. by rewrite Hexp in Hx. }
    eff_step. apply wlp_lift. intros bads Hb. eff_step. split_and!; [done| |].
    - intros key r [->%elem_of_singleton|Hin]%elem_of_union Hr.
      + unfold at_default in Hr. rewrite Hk in Hr. destruct (mapM_bad _ _ _ Hb Hr) as (bad & ? & ?). set_solver.
      + destruct (Hrem key r Hin Hr) as (bad & ? & ?). set_solver.
    - intros key p [Hin|Hin%list_elem_of_singleton]%elem_of_app Hx; simplify_eq; set_solver. }
  intros c1 o1 [rs rem] (-> & Hrem & Hall). eff_step. unfold upd_pending. apply wp_wlp, wp_for_each_modify.
  rewrite delete_pending_loop. exists (set_iter rem). split_and!; [done| |].
  - intros key r Hkey%set_iter_elem. by apply Hrem.
  - intros key p Hp Hx. apply set_iter_elem. eapply Hall; [|done]. by apply map_iter_elem.
Qed.

Lemma gc_get_spec now c :
  wlp (gc_get now) c (λ c' _ rs, ∃ (removed : list string) c1, same_pending c c1 ∧
    c' = set_pending_get c1 (foldl (λ m key, delete key m) (pending_get_response_map_ c1) removed) ∧
    (∀ key p, key ∈ removed → pending_get_response_map_ c !! key = Some p →
      ∃ bad, bad ∈ rs ∧ generate_bad_response (request_ p) = Ok bad) ∧
    ∀ key p, pending_get_response_map_ c !! key = Some p → expired now (timeout_ c) (tp_ p) → key ∈ removed).
Proof.
  unfold gc_get. do 5 eff_step. eapply wlp_mono.
  { apply (wlp_for_fold (λ pre c1 _ '(rs, rem), same_pending c c1 ∧ (∀ key p, key ∈ (rem : gset string) →
      pending_get_response_map_ c !! key = Some p →
      ∃ bad, bad ∈ rs ∧ generate_bad_response (request_ p) = Ok bad) ∧
      ∀ key p, (key, p) ∈ pre → expired now (timeout_ c) (tp_ p) → key ∈ rem)); [split; [done|set_solver]|].
    intros pre [k p] c1 o1 [rs rem] [post Hpre] (Hs & Hrem & Hall). cbn.
    assert (pending_get_response_map_ c !! k = Some p) as Hk.
    { apply map_iter_elem. rewrite Hpre. set_solver. }
    case_match eqn:Hexp.
    2:{ eff_step. split_and!; [done..|]. intros key q [Hin|Hin%list_elem_of_singleton]%elem_of_app Hx;
          [by eapply Hall|]. simplify_eq. by rewrite Hexp in Hx. }
    eff_step. apply wlp_lift. intros bad Hb. eff_step.
    eff_call invalidate_frame. intros c2 _ _ Hs2. eff_step. split_and!; [by transitivity c1| |].
    - intros key q [->%elem_of_singleton|Hin]%elem_of_union Hr; [exists bad; set_solver|].
      destruct (Hrem key q Hin Hr) as (b & ? & ?). set_solver.
    - intros key q [Hin|Hin%list_elem_of_singleton]%elem_of_app Hx; simplify_eq; set_solver. }
  intros c1 o1 [rs rem] (Hs & Hrem & Hall). eff_step. unfold upd_get. apply wp_wlp, wp_for_each_modify.
  rewrite delete_get_loop. exists (set_iter rem), c1. split_and!; [done..| |].
  - intros key p Hkey%set_iter_elem. by apply Hrem.
  - intros key p Hp Hx. apply set_iter_elem. eapply Hall; [|done]. by apply map_iter_elem.
Qed.

Definition bad_of (c : KvsClient) (rem : gmap string (gset string)) (rs : list KeyResponse) : Prop :=
  ∀ key id p, id ∈ at_default ∅ key rem →
    at_default ∅ key (pending_put_response_map_ c) !! id = Some p →
    ∃ bad, bad ∈ rs ∧ generate_bad_response (request_ p) = Ok bad.

Lemma bad_of_extend c rem rs key id p bad :
  bad_of c rem rs → at_default ∅ key (pending_put_response_map_ c) !! id = Some p →
  generate_bad_response (request_ p) = Ok bad →
  bad_of c (<[key := {[id]} ∪ at_default ∅ key rem]> rem) (rs ++ [bad]).
Proof.
  intros Hrem Hp Hb k' id' p'. destruct (decide (k' = key)) as [->|].
  - rewrite at_default_insert. intros [->%elem_of_singleton|Hin]%elem_of_union Hp'.
    + exists bad. split; [set_solver|]. congruence.
    + destruct (Hrem _ _ _ Hin Hp') as (b & ? & ?). set_solver.
  - rewrite at_default_insert_ne by done. intros Hin Hp'.
    destruct (Hrem _ _ _ Hin Hp') as (b & ? & ?). set_solver.
Qed.

(** The loops that erase the PUTs in [removed]. *)
Definition rest_put (c c' : KvsClient) (removed : string → string → Prop) : Prop :=
  pending_request_map_ c' = pending_request_map_ c ∧
  pending_get_response_map_ c' = pending_get_response_map_ c ∧
  ∀ k id, (removed k id → at_default ∅ k (pending_put_response_map_ c') !! id = None) ∧
    (¬ removed k id →
      at_default ∅ k (pending_put_response_map_ c') !! id =
      at_default ∅ k (pending_put_response_map_ c) !! id).

Lemma rest_put_iff c c' R R' : (∀ k id, R k id ↔ R' k id) → rest_put c c' R → rest_put c c' R'.
Proof. intros HR (E1 & E2 & E3). split_and!; [done..|]. intros k id. specialize (E3 k id). naive_solver. Qed.

Lemma rest_put_erase c c' key i (R : string → string → Prop) :
  rest_put c c' R →
  rest_put c (set_pending_put c' (alter (delete i) key (pending_put_response_map_ c')))
    (λ k id, R k id ∨ k = key ∧ id = i).
Proof.
  intros (E1 & E2 & E3). split_and!; [done..|]. intros k id. cbn. rewrite alter_delete_lookup.
  specialize (E3 k id). case_decide; naive_solver.
Qed.

Lemma erase_puts_spec (rem : gmap string (gset string)) c :
  wlp (for_each (λ key_set_pair,
         for_each (λ id, upd_put (alter (delete id) key_set_pair.1)) (set_iter key_set_pair.2))
       (map_iter rem)) c
    (λ c' _ _, rest_put c c' (λ k id, id ∈ at_default ∅ k rem)).
Proof.
  eapply wlp_mono.
  { apply (wlp_for_each (λ pre c' _, rest_put c c' (λ k id, ∃ ids : gset string, (k, ids) ∈ pre ∧ id ∈ ids))).
    { split_and!; [done..|]. intros k id. split; [set_solver|done]. }
    intros pre [k ids] c1 o1 _ Hc1. cbn. eapply wlp_mono.
    { apply (wlp_for_each (λ pre' c' _, rest_put c c' (λ k' id,
        (∃ ids : gset string, (k', ids) ∈ pre ∧ id ∈ ids) ∨ k' = k ∧ id ∈ pre'))).
      { eapply rest_put_iff; [|done]. set_solver. }
      intros pre' id c2 o2 _ Hc2. unfold upd_put. eff_step.
      eapply rest_put_iff; [|by apply rest_put_erase]. set_solver. }
    cbn. intros c2 _ _ Hc2. eapply rest_put_iff; [|exact Hc2]. intros k' id. setoid_rewrite elem_of_app.
    rewrite set_iter_elem. set_solver. }
  cbn. intros c' _ _ Hc'. eapply rest_put_iff; [|exact Hc']. intros k id. setoid_rewrite map_iter_elem.
  unfold at_default. destruct (rem !! k); cbn; [naive_solver|set_solver].
Qed.

(** The inner loop of [gc_put], over the ids of one key. *)
Definition gc_put_key (now timeout : Z) (k : string) (m : gmap string PendingRequest)
    (acc : list KeyResponse * gmap string (gset string))
    : kvs (list KeyResponse * gmap string (gset string)) :=
  for_fold (λ '(result, to_remove) id_map_pair,
      if expired now timeout (tp_ id_map_pair.2) then
        bad ← lift (generate_bad_response (request_ id_map_pair.2));
        invalidate_cache_for_worker (worker_addr_ id_map_pair.2);;
        mret (result ++ [bad], <[k := {[id_map_pair.1]} ∪ at_default ∅ k to_remove]> to_remove)
      else mret (result, to_remove))
    (map_iter m) acc.

(** What the loop has done after it has visited [visited]. *)
Definition put_collected (now : Z) (c : KvsClient) (visited : string → string → PendingRequest → Prop)
    (c1 : KvsClient) (acc : list KeyResponse * gmap string (gset string)) : Prop :=
  same_pending c c1 ∧ bad_of c acc.2 acc.1 ∧
  ∀ k id p, visited k id p → expired now (timeout_ c) (tp_ p) → id ∈ at_default ∅ k acc.2.

Lemma gc_put_key_spec now c k m acc V c1 :
  pending_put_response_map_ c !! k = Some m → put_collected now c V c1 acc →
  wlp (gc_put_key now (timeout_ c) k m acc) c1 (λ c2 _ acc2,
    put_collected now c (λ k' id p, V k' id p ∨ k' = k ∧ m !! id = Some p) c2 acc2).
Proof.
  intros Hk Hacc. unfold gc_put_key. eapply wlp_mono.
  { apply (wlp_for_fold (λ pre c1 _ acc,
      put_collected now c (λ k' id p, V k' id p ∨ k' = k ∧ (id, p) ∈ pre) c1 acc)).
    { destruct Hacc as (? & ? & Hall). split_and!; [done..|]. intros k' id p [Hp|[_ Hp]]; [by apply Hall|set_solver]. }
    intros pre [id p] c2 o2 [rs rem] [post Hpre] (Hs & Hrem & Hall). cbn in *.
    assert (m !! id = Some p) as Hid by (apply map_iter_elem; rewrite Hpre; set_solver).
    assert (∀ k' id' p', V k' id' p' ∨ k' = k ∧ (id', p') ∈ pre ++ [(id, p)] →
      expired now (timeout_ c) (tp_ p') → id' ∈ at_default ∅ k' rem ∨ k' = k ∧ id' = id ∧ p' = p) as Hcov.
    { intros k' id' p' Hp Hx.
      destruct Hp as [Hp|[-> [Hp|Hp%list_elem_of_singleton]%elem_of_app]]; [left..|right; by simplify_eq];
        eapply Hall; eauto. }
    case_match eqn:Hexp.
    2:{ eff_step. split_and!; [done..|]. intros k' id' p' Hp Hx.
        destruct (Hcov k' id' p' Hp Hx) as [|(-> & -> & ->)]; [done|]. by rewrite Hexp in Hx. }
    eff_step. apply wlp_lift. intros bad Hb. eff_step.
    eff_call invalidate_frame. intros c3 _ _ Hs3. eff_step. split_and!; [by transitivity c2| |].
    - cbn. eapply bad_of_extend; [done| |done]. unfold at_default. by rewrite Hk.
    - intros k' id' p' Hp Hx. cbn. destruct (decide (k' = k)) as [->|].
      + rewrite at_default_insert. destruct (Hcov k id' p' Hp Hx) as [|(_ & -> & _)]; set_solver.
      + rewrite at_default_insert_ne by done. destruct (Hcov k' id' p' Hp Hx) as [|(-> & _)]; done. }
  cbn. intros c2 _ acc2 (Hs & Hb & Hall). split_and!; [done..|]. intros k' id p Hp Hx.
  eapply Hall; [|done]. setoid_rewrite map_iter_elem. naive_solver.
Qed.

Lemma gc_put_spec now c :
  wlp (gc_put now) c (λ c' _ rs, ∃ rem : gmap string (gset string),
    rest_put c c' (λ k id, id ∈ at_default ∅ k rem) ∧ bad_of c rem rs ∧
    ∀ k id p, at_default ∅ k (pending_put_response_map_ c) !! id = Some p →
      expired now (timeout_ c) (tp_ p) → id ∈ at_default ∅ k rem).
Proof.
  unfold gc_put. do 5 eff_step. eapply wlp_mono.
  { apply (wlp_for_fold (λ pre c1 _ acc,
      put_collected now c (λ k id p, ∃ m, (k, m) ∈ pre ∧ m !! id = Some p) c1 acc)).
    { split_and!; [done| |set_solver]. intros key id p. cbn. unfold at_default. rewrite lookup_empty. set_solver. }
    intros pre [k m] c1 o1 acc [post Hpre] Hacc.
    assert (pending_put_response_map_ c !! k = Some m) as Hk.
    { apply map_iter_elem. rewrite Hpre. set_solver. }
    eapply wlp_mono; [eapply (gc_put_key_spec now c k m acc _ c1 Hk Hacc)|].
    cbn. intros c2 _ acc2 (Hs & Hb & Hall). split_and!; [done..|]. intros k' id p (m' & Hm & Hp) Hx.
    eapply Hall; [|done]. apply elem_of_app in Hm as [Hm|Hm%list_elem_of_singleton]; [by eauto|right].
    by simplify_eq. }
  cbn. intros c1 o1 [rs rem] ((E1 & E2 & E3 & _) & Hrem & Hall). eff_step. eff_call erase_puts_spec.
  intros c2 _ _ (E4 & E5 & E6). eff_step. exists rem. split_and!; [|done|].
  - unfold rest_put. rewrite E4, E5, E1, E2. split_and!; [done..|]. intros k id. by rewrite <- E3.
  - intros k id p Hp Hx. eapply Hall; [|done]. unfold at_default in Hp.
    destruct (_ !! k) as [m|] eqn:Em; [|cbn in Hp; by rewrite lookup_empty in Hp]. exists m.
    by rewrite map_iter_elem.
Qed.

(** *** Every step keeps track of a request *)
Lemma gc_pending_tracked now c k ty id :
  kvs_ok c → ty = GET ∨ ty = PUT → outstanding c k ty id →
  wlp (gc_pending now) c (λ c' _ rs, tracked k ty id c' rs).
Proof.
  intros Hok Hty Hout. eff_call gc_pending_spec. intros c' _ rs (removed & -> & Hbad & _).
  destruct Hout as [Hs|(r & Hr & Hi)]; [left; by left|].
  destruct (decide (k ∈ removed)) as [Hk|Hk].
  - destruct (Hbad k r Hk Hr) as (bad & Hin & Hb). right. apply Exists_exists. exists bad.
    split; [done|]. eapply bad_response_answers; [by eapply ok_pending|done..].
  - left. right. exists r. split; [|done]. cbn. unfold at_default.
    by rewrite foldl_delete_lookup, decide_False.
Qed.

Lemma gc_get_tracked now c k ty id :
  kvs_ok c → ty = GET ∨ ty = PUT → outstanding c k ty id →
  wlp (gc_get now) c (λ c' _ rs, tracked k ty id c' rs).
Proof.
  intros Hok Hty Hout. eff_call gc_get_spec. intros c' _ rs (removed & c1 & Hs & -> & Hbad & _).
  destruct (decide (k ∈ removed ∧ ty = GET)) as [[Hk ->]|Hk].
  - destruct Hout as [[p Hp]|Hq]; [|left; right; cbn; by destruct Hs as [-> _]].
    destruct (Hbad k p Hk Hp) as (bad & Hin & Hb). right. apply Exists_exists. exists bad.
    destruct (ok_get c Hok k p Hp) as [[? _] ?]. split; [done|]. by eapply bad_response_answers.
  - left. destruct Hs as (E1 & E2 & E3 & _). eapply keeps_sent_outstanding; [..|exact Hout]; [done|].
    unfold sent. cbn. destruct Hty as [-> | ->]; [|by rewrite E3].
    rewrite foldl_delete_lookup, decide_False, E2 by naive_solver. done.
Qed.

Lemma gc_put_tracked now c k ty id :
  kvs_ok c → ty = GET ∨ ty = PUT → outstanding c k ty id →
  wlp (gc_put now) c (λ c' _ rs, tracked k ty id c' rs).
Proof.
  intros Hok Hty Hout. eff_call gc_put_spec. intros c' _ rs (rem & (E1 & E2 & E3) & Hbad & _).
  destruct (decide (id ∈ at_default ∅ k rem ∧ ty = PUT)) as [[Hk ->]|Hk].
  - destruct Hout as [[p Hp]|Hq]; [|left; right; by rewrite E1].
    destruct (Hbad k id p Hk Hp) as (bad & Hin & Hb). right. apply Exists_exists. exists bad.
    destruct (ok_put c Hok k id p Hp) as ([? _] & ? & Hid). split; [done|].
    assert (kt_key <$> kreq_tuples (request_ p) !! 0%nat = Some k) as Hk' by done.
    unfold generate_bad_response in Hb. apply bind_Ok in Hb as (t & Ht%vec_at_Ok & [= <-]).
    rewrite Ht in Hk'. injection Hk' as <-. split; cbn; [by case_decide|done].
  - left. eapply keeps_sent_outstanding; [..|exact Hout]; [done|].
    unfold sent. destruct Hty as [-> | ->]; [by rewrite E2|].
    rewrite (proj2 (E3 k id)) by naive_solver. done.
Qed.

(** *** The steps keep the invariant *)
Lemma try_request_result now req c :
  wlp (try_request now req) c (λ c' _ req', key_of req' = key_of req ∧
    kreq_type req' = kreq_type req ∧ kreq_request_id req' = kreq_request_id req).
Proof.
  eff_call try_request_spec. intros c' _ req' (key & c1 & _ & _ & Hcase).
  destruct Hcase as [(_ & _ & ->)|(worker & n & _ & -> & _)]; [done|by rewrite key_of_set_size].
Qed.

Lemma upd_get_ok f c :
  kvs_ok c →
  (∀ k p, f (pending_get_response_map_ c) !! k = Some p → entry_ok k p ∧ kreq_type (request_ p) = GET) →
  wlp (upd_get f) c (λ c' _ _, kvs_ok c').
Proof. intros [H1 H2 H3 H4] Hf. unfold upd_get. eff_step. by split. Qed.

Lemma upd_put_entries_ok f c :
  kvs_ok c →
  (∀ k id p, at_default ∅ k (f (pending_put_response_map_ c)) !! id = Some p →
     entry_ok k p ∧ kreq_type (request_ p) ≠ GET ∧ kreq_request_id (request_ p) = id) →
  wlp (upd_put f) c (λ c' _ _, kvs_ok c').
Proof. intros [H1 H2 H3 H4] Hf. unfold upd_put. eff_step. by split. Qed.

Lemma receive_response_ok now response : keeps kvs_ok (receive_response now response).
Proof.
  intros c Hok. unfold receive_response. eff_step. apply wlp_lift. intros tuple _.
  case_decide as Hg; do 2 eff_step; (case_match eqn:Hp; [|by eff_step]); eff_step;
    eff_call (wlp_and _ _ _ _ (check_tuple_ok tuple c Hok) (check_tuple_frame tuple c));
    intros c1 _ b (Hok1 & _ & E2 & E3 & _).
  - apply (ok_get c Hok) in Hp as [[Hk Hw] Ht]. destruct b; eff_step.
    + eff_call upd_get_ok; [done| |].
      { intros k q. destruct (decide (k = kt_key tuple)) as [->|];
          [rewrite lookup_insert_eq; by intros [= <-] | rewrite lookup_insert_ne by done; apply ok_get, Hok1]. }
      intros c2 _ _ Hok2. eff_step.
      eff_call (wlp_and _ _ _ _ (try_request_ok _ _ _ Hok2) (try_request_result _ _ _)).
      intros c3 _ r (Hok3 & Ek & Et & _). eff_step. eff_call upd_get_ok; [done| |].
      { intros k q. destruct (decide (k = kt_key tuple)) as [->|];
          [rewrite lookup_alter_eq | rewrite lookup_alter_ne by done; apply ok_get, Hok3].
        intros (q' & Hq' & ->)%fmap_Some. apply (ok_get c3 Hok3) in Hq' as [[_ ?] _].
        split; [split|]; cbn; congruence. }
      intros. by eff_step.
    + eff_call (delete_get_ok (kt_key tuple) c1 Hok1). intros. by eff_step.
  - apply (ok_put c Hok) in Hp as ([Hk Hw] & Ht & Hid). destruct b; eff_step.
    + eff_call upd_put_entries_ok; [done| |].
      { intros k id q. unfold at_default. destruct (decide (k = kt_key tuple)) as [->|];
          [rewrite lookup_alter_eq | rewrite lookup_alter_ne by done; apply (ok_put c1 Hok1)].
        destruct (_ !! kt_key tuple) eqn:Em; cbn; [|by rewrite lookup_empty].
        intros [[<- <-]|[_ Hq]]%lookup_insert_Some; [done|]. apply (ok_put c1 Hok1). unfold at_default. by rewrite Em. }
      intros c2 _ _ Hok2. eff_step.
      eff_call (wlp_and _ _ _ _ (try_request_ok _ _ _ Hok2) (try_request_result _ _ _)).
      intros c3 _ r (Hok3 & Ek & Et & Ei). eff_step. eff_call upd_put_entries_ok; [done| |].
      { intros k id q. unfold at_default. destruct (decide (k = kt_key tuple)) as [->|];
          [rewrite lookup_alter_eq | rewrite lookup_alter_ne by done; apply (ok_put c3 Hok3)].
        destruct (_ !! kt_key tuple) eqn:Em; cbn; [|by rewrite lookup_empty].
        intros Hq. assert (Hall := λ id p, ok_put c3 Hok3 (kt_key tuple) id p). unfold at_default in Hall.
        rewrite Em in Hall. cbn in Hall. apply lookup_alter_Some in Hq as [(<- & q' & Hq' & ->)|[_ Hq]]; [|by apply Hall].
        apply Hall in Hq' as ([_ ?] & _ & _). split_and!; [split|..]; cbn; congruence. }
      intros. by eff_step.
    + eff_call (delete_put_ok _ _ _ Hok1). intros c2 _ _ Hok2. eff_step.
      eff_call upd_put_ok; [|done|intros; by eff_step]. intros m k id. case_decide; [|by right].
      unfold at_default. destruct (decide (k = kt_key tuple)) as [->|];
        [rewrite lookup_delete_eq; by left | rewrite lookup_delete_ne by done; by right].
Qed.

Lemma insert_address_ok key ip :
  is_ok (signature_of ip) → keeps kvs_ok (upd_cache (λ m, <[key := {[ip]} ∪ at_default ∅ key m]> m)).
Proof.
  intros Hip. apply keeps_modify. intros c [H1 H2 H3 H4]. split; [|done..]. intros k a. cbn.
  destruct (decide (k = key)) as [->|]; [rewrite at_default_insert | rewrite at_default_insert_ne by done; apply H1].
  intros [->%elem_of_singleton|Ha]%elem_of_union; [done|by eapply H1].
Qed.

(** An address message that names servers [split] finds the ip of. *)
Definition address_response_ok (response : KeyAddressResponse) : Prop :=
  ∀ a ip, a ∈ kares_addresses response → ip ∈ ka_ips a → is_ok (signature_of ip).

Lemma receive_address_ok now response :
  address_response_ok response → keeps kvs_ok (receive_address now response).
Proof.
  intros Hresp c Hok. unfold receive_address. eff_step. apply wlp_lift. intros addr Ha%vec_at_Ok.
  apply list_elem_of_lookup_2 in Ha. do 2 eff_step. case_match eqn:Hp; [|by eff_step].
  destruct p as [t reqs]. case_decide; eff_step.
  - unfold upd_pending. eff_step. apply query_routing_async_ok. split; cbn; try apply Hok. intros k r.
    destruct (decide (k = ka_key addr)) as [->|];
      [rewrite at_default_insert | rewrite at_default_insert_ne by done; by apply ok_pending].
    cbn. intros Hr. apply (ok_pending c Hok). unfold at_default. by rewrite Hp.
  - eapply wlp_mono.
    { apply (wlp_for_each (λ _ c1 _, kvs_ok c1)); [done|]. intros pre ip c1 o1 [post Hpre] Hok1.
      apply insert_address_ok; [|done]. eapply Hresp; [done|]. rewrite Hpre. set_solver. }
    intros c1 ? ? Hok1. eff_step.
    assert (keeps kvs_ok (retry_pending now (ka_key addr) reqs)) as Hretry.
    { apply keeps_for_each. intros r. apply keeps_bind; [apply try_request_ok|]. intros _.
      apply keeps_bind; [auto with eff|]. intros m. case_decide; auto with eff. }
    eff_call (Hretry c1 Hok1). intros c2 _ _ Hok2. by apply delete_pending_ok.
Qed.

Lemma gc_pending_ok now : keeps kvs_ok (gc_pending now).
Proof.
  unfold gc_pending. do 2 (apply keeps_bind; [auto with eff|intros ?]). apply keeps_bind.
  - apply keeps_for_fold. intros [] ?. case_match; [apply keeps_bind; auto with eff|auto with eff].
  - intros []. apply keeps_bind; [|auto with eff]. apply keeps_for_each. intros. apply delete_pending_ok.
Qed.

Lemma gc_get_ok now : keeps kvs_ok (gc_get now).
Proof.
  unfold gc_get. do 2 (apply keeps_bind; [auto with eff|intros ?]). apply keeps_bind.
  - apply keeps_for_fold. intros [] ?. case_match; [|auto with eff]. apply keeps_bind; [auto with eff|].
    intros. apply keeps_bind; [apply invalidate_cache_for_worker_ok|auto with eff].
  - intros []. apply keeps_bind; [|auto with eff]. apply keeps_for_each. intros. apply delete_get_ok.
Qed.

Lemma gc_put_ok now : keeps kvs_ok (gc_put now).
Proof.
  unfold gc_put. do 2 (apply keeps_bind; [auto with eff|intros ?]). apply keeps_bind.
  - apply keeps_for_fold. intros ? ?. apply keeps_for_fold. intros [] ?. case_match; [|auto with eff].
    apply keeps_bind; [auto with eff|]. intros. apply keeps_bind; [apply invalidate_cache_for_worker_ok|auto with eff].
  - intros []. apply keeps_bind; [|auto with eff]. apply keeps_for_each. intros.
    apply keeps_for_each. intros. apply delete_put_ok.
Qed.

(** *** Totality of the collections *)
Lemma invalidate_total w c :
  kvs_ok c → is_ok (signature_of w) → wp (invalidate_cache_for_worker w) c (λ _ _ _, True).
Proof.
  intros Hok [sig Hsig]. unfold invalidate_cache_for_worker. eff_step.
  apply (wp_lift _ _ sig); [done|]. do 3 eff_step. eapply wp_mono.
  { apply (wp_for_fold (λ _ c1 _ _, c1 = c)); [done|]. intros pre [k ips] c1 o1 rem [post Hpre] ->. cbn.
    assert (key_address_cache_ c !! k = Some ips) as Hk by (apply map_iter_elem; rewrite Hpre; set_solver).
    apply (wp_for_fold (λ _ c1 _ _, c1 = c)); [done|]. intros pre' a c1 o2 rem' [post' Hpre'] ->.
    eff_step. destruct (ok_cache c Hok k a) as [v Hv].
    { unfold at_default. rewrite Hk. cbn. apply set_iter_elem. rewrite Hpre'. set_solver. }
    apply (wp_lift _ _ v); [done|]. by eff_step. }
  intros c1 _ rem ->. unfold upd_cache. by apply wp_for_each_modify.
Qed.

Lemma generate_bad_total r k : key_of r = Some k → is_ok (generate_bad_response r).
Proof.
  unfold key_of, generate_bad_response, vec_at. destruct (_ !! _); [|done]. by eexists.
Qed.

Lemma gc_pending_total now c : kvs_ok c → wp (gc_pending now) c (λ _ _ _, True).
Proof.
  intros Hok. unfold gc_pending. do 5 eff_step. eapply wp_mono.
  { apply (wp_for_fold (λ _ c1 _ _, c1 = c)); [done|]. intros pre [k [t reqs]] c1 o1 [rs rem] [post Hpre] ->. cbn.
    case_match; [|by eff_step]. eff_step.
    assert (pending_request_map_ c !! k = Some (t, reqs)) as Hk by (apply map_iter_elem; rewrite Hpre; set_solver).
    assert (∀ l, (∀ r, r ∈ l → key_of r = Some k) → is_ok (mapM generate_bad_response l)) as Hm.
    { induction l as [|r l IH]; intros Hl; cbn; [by eexists|].
      destruct (generate_bad_total r k) as [b ->]; [apply Hl; set_solver|]. cbn.
      destruct IH as [bs ->]; [intros; apply Hl; set_solver|]. by eexists. }
    destruct (Hm reqs) as [bs Hbs].
    { intros r Hr. apply (ok_pending c Hok). unfold at_default. by rewrite Hk. }
    apply (wp_lift _ _ bs); [done|]. by eff_step. }
  intros c1 _ [rs rem] ->. eff_step. unfold upd_pending. apply wp_for_each_modify. by eff_step.
Qed.

(** The step the other two collections share. *)
Lemma timed_out_step {B} c p k (f : KeyResponse → B) :
  kvs_ok c → entry_ok k p →
  wp (bad ← lift (generate_bad_response (request_ p));
      invalidate_cache_for_worker (worker_addr_ p);; mret (f bad)) c (λ c' _ _, kvs_ok c').
Proof.
  intros Hok [Hk Hw]. eff_step. destruct (generate_bad_total _ _ Hk) as [b Hb].
  apply (wp_lift _ _ b); [done|]. eff_step.
  eapply wp_mono; [apply (wp_and _ _ _ _ (invalidate_total _ c Hok Hw) (invalidate_cache_for_worker_ok _ c Hok))|].
  intros c1 _ _ [_ Hok1]. by eff_step.
Qed.

Lemma gc_get_total now c : kvs_ok c → wp (gc_get now) c (λ _ _ _, True).
Proof.
  intros Hok. unfold gc_get. do 5 eff_step. eapply wp_mono.
  { apply (wp_for_fold (λ _ c1 _ _, kvs_ok c1)); [done|]. intros pre [k p] c1 o1 [rs rem] [post Hpre] Hok1. cbn.
    case_match; [|by eff_step]. apply (timed_out_step c1 p k); [done|]. apply (ok_get c Hok).
    apply map_iter_elem. rewrite Hpre. set_solver. }
  intros c1 _ [rs rem] _. eff_step. unfold upd_get. apply wp_for_each_modify. by eff_step.
Qed.

Lemma gc_put_total now c : kvs_ok c → wp (gc_put now) c (λ _ _ _, True).
Proof.
  intros Hok. unfold gc_put. do 5 eff_step. eapply wp_mono.
  { apply (wp_for_fold (λ _ c1 _ _, kvs_ok c1)); [done|]. intros pre [k m] c1 o1 acc [post Hpre] Hok1. cbn.
    apply (wp_for_fold (λ _ c1 _ _, kvs_ok c1)); [done|].
    intros pre' [id p] c2 o2 [rs rem] [post' Hpre'] Hok2. cbn.
    case_match; [|by eff_step]. apply (timed_out_step c2 p k); [done|].
    assert (pending_put_response_map_ c !! k = Some m) as Hk by (apply map_iter_elem; rewrite Hpre; set_solver).
    apply (ok_put c Hok k id). unfold at_default. rewrite Hk. cbn. apply map_iter_elem. rewrite Hpre'. set_solver. }
  intros c1 _ [rs rem] _. eff_step. eapply wp_mono.
  { apply (wp_for_each (λ _ _ _, True)); [done|]. intros. cbn. unfold upd_put. by apply wp_for_each_modify. }
  intros. by eff_step.
Qed.

End lemmas.

(** ** Runs of a client *)

Section runs.
Context `{UnorderedIter, Rand}.

Inductive KvsEvent :=
| PutAsync (now : Z) (key payload : string) (lattice_type : LatticeType)
| GetAsync (now : Z) (key : string)
| ReceiveAsync (now : Z) (addr : option KeyAddressResponse) (resp : option KeyResponse)
| ClearCache.

Definition kvs_step (ev : KvsEvent) : kvs (list KeyResponse) :=
  match ev with
  | PutAsync now key payload lt => put_async now key payload lt;; mret []
  | GetAsync now key => get_async now key;; mret []
  | ReceiveAsync now addr resp => receive_async now addr resp
  | ClearCache => clear_cache;; mret []
  end.

Definition kvs_run (evs : list KvsEvent) : kvs (list KeyResponse) :=
  for_fold (λ rs ev, r ← kvs_step ev; mret (rs ++ r)) evs [].

Definition event_ok (ev : KvsEvent) : Prop :=
  match ev with ReceiveAsync _ (Some a) _ => address_response_ok a | _ => True end.

Lemma receive_async_ok now addr resp :
  match addr with Some a => address_response_ok a | None => True end → keeps kvs_ok (receive_async now addr resp).
Proof.
  intros Ha. unfold receive_async. apply keeps_bind; [destruct addr; [by apply receive_address_ok|auto with eff]|].
  intros _. apply keeps_bind; [destruct resp; [apply receive_response_ok|auto with eff]|]. intros r0.
  apply keeps_bind; [apply gc_pending_ok|]. intros r1. apply keeps_bind; [apply gc_get_ok|]. intros r2.
  apply keeps_bind; [apply gc_put_ok|auto with eff].
Qed.

Lemma kvs_step_ok ev : event_ok ev → keeps kvs_ok (kvs_step ev).
Proof.
  intros Hev. destruct ev; cbn; [..|apply keeps_bind; [|auto with eff]].
  - apply keeps_bind; [apply put_async_ok|auto with eff].
  - apply keeps_bind; [apply get_async_ok|auto with eff].
  - by apply receive_async_ok.
  - apply keeps_modify. intros c [H1 H2 H3 H4]. split; [|done..]. cbn. unfold at_default.
    intros k a. rewrite lookup_empty. cbn. set_solver.
Qed.

Lemma tracked_app_l k ty id c rs rs' : tracked k ty id c rs → tracked k ty id c (rs ++ rs').
Proof. intros [|]; [by left|right]. apply Exists_app. by left. Qed.

Lemma tracked_answered k ty id c c' rs : Exists (answers k ty id) rs → tracked k ty id c rs → tracked k ty id c' rs.
Proof. intros. by right. Qed.

(** A step of a composition: what is answered stays answered. *)
Lemma tracked_bind {B} (m : kvs (list KeyResponse)) (f : list KeyResponse → kvs B) c k ty id
    (rs : list KeyResponse) (Q : KvsClient → list Send → B → Prop) :
  tracked k ty id c rs → kvs_ok c →
  keeps kvs_ok m → (outstanding c k ty id → wlp m c (λ c' _ r, tracked k ty id c' r)) →
  (∀ c' o r, kvs_ok c' → tracked k ty id c' (rs ++ r) → wlp (f r) c' (λ c2 o2 b, Q c2 (o ++ o2) b)) →
  wlp (m ≫= f) c Q.
Proof.
  intros Ht Hok Hkeep Hm Hf. eff_step.
  assert (wlp m c (λ c' _ r, tracked k ty id c' (rs ++ r))) as Hm'.
  { destruct Ht as [Ho|He].
    - eapply wlp_mono; [by apply Hm|]. cbn. intros c' _ r [|]; [by left|right]. apply Exists_app. by right.
    - unfold wlp. destruct (m c) as [[[? ?] ?]|]; [|done]. right. apply Exists_app. by left. }
  eff_call (wlp_and _ _ _ _ (Hkeep c Hok) Hm'). intros c' o r [Hok' Ht']. by apply Hf.
Qed.

Lemma receive_async_tracked now addr resp c k ty id :
  kvs_ok c → match addr with Some a => address_response_ok a | None => True end →
  ty = GET ∨ ty = PUT → outstanding c k ty id →
  wlp (receive_async now addr resp) c (λ c' _ rs, tracked k ty id c' rs).
Proof.
  intros Hok Ha Hty Hout. unfold receive_async. eff_step.
  assert (wlp (match addr with Some response => receive_address now response | None => mret tt end) c
    (λ c' _ _, kvs_ok c' ∧ outstanding c' k ty id)) as H1.
  { destruct addr; [|done]. apply wlp_and; [by apply receive_address_ok|by apply receive_address_outstanding]. }
  eff_call H1. intros c1 _ _ [Hok1 Hout1].
  apply (tracked_bind _ _ _ k ty id []); [by left|done|destruct resp; [apply receive_response_ok|auto with eff]| |].
  { intros. destruct resp; [by apply receive_response_outstanding|by left]. }
  intros c2 _ r0 Hok2 Ht2. cbn in Ht2.
  apply (tracked_bind _ _ _ k ty id r0); [done|done|apply gc_pending_ok|intros; by apply gc_pending_tracked|].
  intros c3 _ r1 Hok3 Ht3.
  apply (tracked_bind _ _ _ k ty id (r0 ++ r1)); [done|done|apply gc_get_ok|intros; by apply gc_get_tracked|].
  intros c4 _ r2 Hok4 Ht4.
  apply (tracked_bind _ _ _ k ty id ((r0 ++ r1) ++ r2)); [done|done|apply gc_put_ok|intros; by apply gc_put_tracked|].
  intros c5 _ r3 Hok5 Ht5. eff_step. by rewrite !app_assoc.
Qed.

Lemma kvs_step_tracked ev c k ty id :
  kvs_ok c → event_ok ev → ty = GET ∨ ty = PUT → outstanding c k ty id →
  wlp (kvs_step ev) c (λ c' _ rs, tracked k ty id c' rs).
Proof.
  intros Hok Hev Hty Hout. destruct ev; cbn; [..|repeat eff_step; by left].
  - unfold put_async. do 2 eff_step. eff_call prepare_data_request_frame. intros c1 _ r [[Hs _] _]. eff_step. eff_call (try_request_outstanding _ _ _ k ty id); [done|left|].
    { by eapply same_pending_outstanding. }
    intros. repeat eff_step. by left.
  - unfold get_async. do 3 eff_step. case_match; [by repeat eff_step; left|]. eff_step.
    eff_call prepare_data_request_frame. intros c1 _ r [[Hs _] _]. eff_step. eff_call (try_request_outstanding _ _ _ k ty id); [done|left|].
    { by eapply same_pending_outstanding. }
    intros. repeat eff_step. by left.
  - by apply receive_async_tracked.
Qed.

End runs.

(** ** Properties *)

Section issue.
Context `{UnorderedIter, Rand}.

Lemma put_async_outstanding now key payload lt c :
  wlp (put_async now key payload lt) c (λ c' _ id, outstanding c' key PUT id).
Proof.
  unfold put_async. eff_step. eff_call prepare_data_request_frame. intros c1 _ r (_ & Hk & _). eff_step.
  set (req := with_put_tuple lt payload r).
  assert (key_of req = Some key) as Hkey.
  { unfold key_of. cbn. rewrite list_lookup_fmap. by destruct (kreq_tuples r !! 0%nat). }
  assert (wlp (try_request now req) c1 (λ c' _ _, outstanding c' key PUT (kreq_request_id req))) as Ho.
  { apply try_request_outstanding; [by right|right]. done. }
  eff_call (wlp_and _ _ _ _ Ho (try_request_result now req c1)). intros c2 _ req' [Hout (_ & _ & Hid)].
  eff_step. by rewrite Hid.
Qed.

Lemma get_async_outstanding now key id c :
  wlp (get_async now key) c (λ c' _ _, outstanding c' key GET id).
Proof.
  unfold get_async. do 2 eff_step. case_match eqn:Hp; [eff_step; left; by eexists|].
  eff_step. eff_call prepare_data_request_frame. intros c1 _ r (_ & Hk & _). eff_step.
  eff_call (try_request_outstanding now _ c1 key GET id); [by left|right; done|]. intros. by eff_step.
Qed.

Lemma kvs_run_tracked evs c k ty id :
  kvs_ok c → Forall event_ok evs → ty = GET ∨ ty = PUT → outstanding c k ty id →
  wlp (kvs_run evs) c (λ c' _ rs, kvs_ok c' ∧ tracked k ty id c' rs).
Proof.
  intros Hok Hevs Hty Hout. unfold kvs_run.
  apply (wlp_for_fold (λ _ c' _ rs, kvs_ok c' ∧ tracked k ty id c' rs)); [by split; [|left]|].
  intros pre ev c1 o1 rs [post Hpre] [Hok1 Ht1].
  assert (event_ok ev) as Hev by (rewrite Hpre in Hevs; by apply Forall_app in Hevs as [_ [? _]%Forall_cons]).
  pose proof (kvs_step_ok ev Hev) as Hkeep.
  assert (keeps kvs_ok (r ← kvs_step ev; mret (rs ++ r))) as Hkeep' by (apply keeps_bind; auto with eff).
  apply wlp_and; [by apply Hkeep'|].
  apply (tracked_bind _ _ _ k ty id rs); [done|done|done|intros; by apply kvs_step_tracked|].
  intros c2 o2 r _ Ht2. by eff_step.
Qed.

End issue.

(** C8: no request to the store is lost: after [put_async] or [get_async], whatever
    messages arrive and whatever else the client does, the request is still
    pending in one of the client's maps or its response, possibly a time-out, has
    been returned; the invariant of the maps holds throughout. *)
Theorem kvs_no_request_lost `{UnorderedIter, Rand} now key payload lt evs c :
  kvs_ok c → Forall event_ok evs →
  wlp (id ← put_async now key payload lt; rs ← kvs_run evs; mret (id, rs)) c
    (λ c' _ r, kvs_ok c' ∧ (outstanding c' key PUT r.1 ∨ Exists (answers key PUT r.1) r.2)) ∧
  wlp (get_async now key;; kvs_run evs) c
    (λ c' _ rs, kvs_ok c' ∧ (outstanding c' key GET "" ∨ Exists (answers key GET "") rs)).
Proof.
  intros Hok Hevs. split; eff_step.
  - eff_call (wlp_and _ _ _ _ (put_async_ok now key payload lt c Hok) (put_async_outstanding now key payload lt c)).
    intros c1 _ id [Hok1 Hout1]. eff_step.
    eff_call (kvs_run_tracked evs c1 key PUT id Hok1 Hevs); [by right|done|]. intros. by eff_step.
  - eff_call (wlp_and _ _ _ _ (get_async_ok now key c Hok) (get_async_outstanding now key "" c)).
    intros c1 _ id [Hok1 Hout1].
    eff_call (kvs_run_tracked evs c1 key GET "" Hok1 Hevs); [by left|done|]. done.
Qed.

(** A client, the address of the server of ["k"], and the response to its first
    request. *)
Definition demo_client : KvsClient :=
  new_KvsClient [{| thread_ip := "10.0.0.9"; thread_tid := 0 |}] "10.0.0.1" 0 10000 7.

Definition demo_address : KeyAddressResponse := {|
  kares_addresses := [{| ka_key := "k"; ka_ips := ["tcp://10.0.0.5:6200"] |}];
  kares_error := NO_ERROR; kares_response_id := "" |}.

Definition demo_response : KeyResponse := {|
  kres_type := PUT;
  kres_tuples := [{| kt_key := "k"; kt_lattice_type := LWW; kt_error := NO_ERROR; kt_payload := "";
                     kt_address_cache_size := 1; kt_invalidate := false |}];
  kres_response_id := "10.0.0.1:0_1"; kres_error := NO_ERROR |}.

Lemma kvs_no_request_lost_witness :
  let evs := [@ReceiveAsync 5 (Some demo_address) None; ReceiveAsync 6 None (Some demo_response)] in
  is_ok ((λ r, length r.2.2) <$> (id ← @put_async sorted_iter lcg_rand 1 "k" "v" LWW;
         rs ← @kvs_run sorted_iter lcg_rand evs; mret (id, rs)) demo_client) ∧
  wlp (id ← @put_async sorted_iter lcg_rand 1 "k" "v" LWW;
       rs ← @kvs_run sorted_iter lcg_rand evs; mret (id, rs)) demo_client
    (λ c' _ r, kvs_ok c' ∧ (outstanding c' "k" PUT r.1 ∨ Exists (answers "k" PUT r.1) r.2)).
Proof.
  intros evs. split; [eexists; vm_compute; reflexivity|].
  apply kvs_no_request_lost; [apply new_KvsClient_ok|]. repeat constructor.
  intros a ip ->%list_elem_of_singleton ->%list_elem_of_singleton. eexists. vm_compute. reflexivity.
Defined.

(** Everything the client waits for has waited for more than [timeout_]. *)
Definition all_expired (now : Z) (c : KvsClient) : Prop :=
  (∀ k p, pending_request_map_ c !! k = Some p → expired now (timeout_ c) p.1) ∧
  (∀ k p, pending_get_response_map_ c !! k = Some p → expired now (timeout_ c) (tp_ p)) ∧
  (∀ k id p, at_default ∅ k (pending_put_response_map_ c) !! id = Some p → expired now (timeout_ c) (tp_ p)).

Definition nothing_pending (c : KvsClient) : Prop :=
  pending_request_map_ c = ∅ ∧ pending_get_response_map_ c = ∅ ∧
  ∀ k id, at_default ∅ k (pending_put_response_map_ c) !! id = None.

Section timed_out.
Context `{UnorderedIter, Rand}.

Lemma gc_pending_all now c :
  kvs_ok c → (∀ k p, pending_request_map_ c !! k = Some p → expired now (timeout_ c) p.1) →
  wp (gc_pending now) c (λ c' _ _, kvs_ok c' ∧ c' = set_pending c ∅).
Proof.
  intros Hok Hexp. eapply wp_mono.
  { apply wp_and; [by apply gc_pending_total|]. apply wlp_and; [by apply gc_pending_ok|apply gc_pending_spec]. }
  cbn. intros c' _ rs (_ & Hok' & removed & -> & _ & Hall). split; [done|]. f_equal. apply map_empty. intros k.
  rewrite foldl_delete_lookup. case_decide as Hk; [done|].
  destruct (_ !! k) eqn:E; [|done]. destruct Hk. by eapply Hall, Hexp.
Qed.

Lemma gc_get_all now c :
  kvs_ok c → (∀ k p, pending_get_response_map_ c !! k = Some p → expired now (timeout_ c) (tp_ p)) →
  wp (gc_get now) c (λ c' _ _, kvs_ok c' ∧ pending_request_map_ c' = pending_request_map_ c ∧
    pending_get_response_map_ c' = ∅ ∧ pending_put_response_map_ c' = pending_put_response_map_ c ∧
    timeout_ c' = timeout_ c).
Proof.
  intros Hok Hexp. eapply wp_mono.
  { apply wp_and; [by apply gc_get_total|]. apply wlp_and; [by apply gc_get_ok|apply gc_get_spec]. }
  cbn. intros c' _ rs (_ & Hok' & removed & c1 & (E1 & E2 & E3 & E4) & -> & _ & Hall).
  split; [done|]. cbn. split_and!; [done| |done|done]. apply map_empty. intros k.
  rewrite foldl_delete_lookup. case_decide as Hk; [done|]. rewrite E2.
  destruct (_ !! k) eqn:E; [|done]. destruct Hk. by eapply Hall, Hexp.
Qed.

Lemma gc_put_all now c :
  kvs_ok c →
  (∀ k id p, at_default ∅ k (pending_put_response_map_ c) !! id = Some p → expired now (timeout_ c) (tp_ p)) →
  wp (gc_put now) c (λ c' _ _, pending_request_map_ c' = pending_request_map_ c ∧
    pending_get_response_map_ c' = pending_get_response_map_ c ∧
    ∀ k id, at_default ∅ k (pending_put_response_map_ c') !! id = None).
Proof.
  intros Hok Hexp. eapply wp_mono; [apply wp_and; [by apply gc_put_total|apply gc_put_spec]|].
  cbn. intros c' _ rs (_ & rem & (E1 & E2 & E3) & _ & Hall). split_and!; [done..|]. intros k id.
  destruct (decide (id ∈ at_default ∅ k rem)) as [Hin|Hin]; [by apply (E3 k id)|].
  rewrite (proj2 (E3 k id)) by done. destruct (_ !! id) eqn:E; [|done]. destruct Hin. by eapply Hall, Hexp.
Qed.

End timed_out.

(** C9: a client that hears nothing gives up on everything, once: when all it waits
    for is older than the time-out, [receive_async] without messages succeeds,
    leaves nothing pending and returns a response for every outstanding request. *)
Theorem kvs_gives_up `{UnorderedIter, Rand} now c :
  kvs_ok c → all_expired now c →
  wp (receive_async now None None) c (λ c' _ rs, nothing_pending c' ∧
    ∀ k ty id, ty = GET ∨ ty = PUT → outstanding c k ty id → Exists (answers k ty id) rs).
Proof.
  intros Hok (H1 & H2 & H3).
  assert (wp (receive_async now None None) c (λ c' _ _, nothing_pending c')) as Hidle.
  { unfold receive_async. do 5 eff_step. eff_call (gc_pending_all now c Hok H1). intros c1 _ r1 [Hok1 ->].
    eff_step. eff_call (gc_get_all now _ Hok1 H2). intros c2 _ r2 (Hok2 & E1 & E2 & E3 & E4). cbn in *.
    eff_step. eff_call (gc_put_all now c2 Hok2); [by rewrite E3, E4|]. intros c3 _ r3 (E5 & E6 & E7).
    eff_step. unfold nothing_pending. split_and!; [congruence..|done]. }
  apply wp_Ok in Hidle as (c' & o & rs & E & Hidle). apply wp_Ok. exists c', o, rs.
  split_and!; [done..|]. intros k ty id Hty Hout.
  assert (wlp (receive_async now None None) c (λ c' _ rs, tracked k ty id c' rs)) as Ht
    by by apply receive_async_tracked.
  eapply wlp_Ok in Ht; [|exact E]. destruct Ht as [[Hs|(r & Hr & _)]|]; [exfalso..|done];
    destruct Hidle as (E1 & E2 & E3).
  - unfold sent in Hs. destruct Hty as [-> | ->]; [rewrite E2, lookup_empty in Hs | rewrite E3 in Hs];
      by destruct Hs.
  - rewrite E1 in Hr. unfold at_default in Hr. rewrite lookup_empty in Hr. cbn in Hr. set_solver.
Qed.

(** A client that has asked for the server of ["k"] and waits for 20 s. *)
Definition waiting_client : KvsClient :=
  match @get_async sorted_iter lcg_rand 1 "k" demo_client with
  | Ok (c, _, _) => c
  | Throw _ => demo_client
  end.

Lemma kvs_gives_up_witness :
  size (pending_request_map_ waiting_client) = 1%nat ∧
  wp (@receive_async sorted_iter lcg_rand (20 * 10 ^ 9) None None) waiting_client (λ c' _ rs,
    nothing_pending c' ∧ ∀ k ty id, ty = GET ∨ ty = PUT → outstanding waiting_client k ty id →
      Exists (answers k ty id) rs).
Proof.
  assert (kvs_ok waiting_client) as Hok.
  { apply (wlp_Ok (@get_async sorted_iter lcg_rand 1 "k") demo_client _ (match
      @get_async sorted_iter lcg_rand 1 "k" demo_client with Ok (_, o, _) => o | _ => [] end) tt (λ c _ _, kvs_ok c));
      [apply get_async_ok, new_KvsClient_ok|vm_compute; reflexivity]. }
  split; [vm_compute; reflexivity|]. apply kvs_gives_up; [exact Hok|].
  assert (map_Forall (λ _ p, expired (20 * 10 ^ 9) (timeout_ waiting_client) p.1)
    (pending_request_map_ waiting_client)) as Hexp by evaluate.
  split_and!; [exact Hexp|intros k p Hp; vm_compute in Hp; by destruct k|].
  intros k id p Hp. unfold at_default in Hp.
  assert (pending_put_response_map_ waiting_client = ∅) as Hz by (vm_compute; reflexivity).
  rewrite Hz, lookup_empty in Hp. cbn in Hp. by rewrite lookup_empty in Hp.
Defined.

(** The ids of successive requests. *)
Fixpoint request_ids (t : Thread) (rid : Z) (n : nat) : list string :=
  match n with
  | O => []
  | S n => request_id_of t (next_rid rid).1 :: request_ids t (next_rid rid).2 n
  end.

(** Between calls the counter is even, so the incremented counter is odd and the
    remainder by 10000 is never zero. *)
Lemma next_rid_even k : 0 ≤ k → 2 * k + 1 < 2 ^ 32 →
  next_rid (2 * k) = (2 * k + 1, u32 (2 * (k + 1))).
Proof.
  intros Hk Hb. unfold next_rid. rewrite u32_small by lia. rewrite decide_False.
  - f_equal. f_equal. lia.
  - intros Hm. apply Z.mod_divide in Hm as [q Hq]; lia.
Qed.

Lemma request_id_of_inj t a b : 0 ≤ a → 0 ≤ b → request_id_of t a = request_id_of t b → a = b.
Proof.
  intros Ha Hb E. unfold request_id_of in E. do 4 apply append_inj_l in E. by apply to_string_inj.
Qed.

(** C40: the ids of the first 2^31 requests of a client (or of a [CommHelper], which
    has the same code) are pairwise distinct: the counter advances by two, and its
    reset every 10000 requests never happens. *)
Theorem request_ids_distinct (t : Thread) (n : nat) :
  Z.of_nat n ≤ 2 ^ 31 → NoDup (request_ids t 0 n).
Proof.
  intros Hn.
  assert (∀ n k, 0 ≤ k → k + Z.of_nat n ≤ 2 ^ 31 → NoDup (request_ids t (2 * k) n) ∧
    ∀ i, i ∈ request_ids t (2 * k) n → ∃ j, i = request_id_of t (2 * j + 1) ∧ k ≤ j) as Hgen.
  { clear n Hn. induction n as [|n IH]; intros k Hk Hb; [split; [constructor|set_solver]|].
    cbn [request_ids]. rewrite next_rid_even by lia. cbn [fst snd].
    destruct n as [|n]; [cbn; split; [apply NoDup_singleton|]|].
    { intros i ->%list_elem_of_singleton. by exists k. }
    rewrite u32_small by lia. destruct (IH (k + 1)) as [Hnd Hin]; [lia|lia|]. split.
    - constructor; [|done]. intros (j & E & Hj)%Hin. apply request_id_of_inj in E; lia.
    - intros i [->|(j & -> & Hj)%Hin]%elem_of_cons; [by exists k|]. exists j. split; [done|lia]. }
  by apply (Hgen n 0).
Qed.

Lemma request_ids_distinct_witness :
  NoDup (request_ids {| thread_ip := "10.0.0.1"; thread_tid := 3 |} 0 50).
Proof. apply request_ids_distinct. cbn. lia. Defined.

(** The ids are those [get_request_id] returns. *)
Lemma get_request_id_next c :
  get_request_id c = Ok (set_rand c (next_rid (rid_ c)).2 (seed_ c), [], request_id_of (ut_ c) (next_rid (rid_ c)).1).
Proof. done. Qed.

(** An address response that names no server for a key with waiting requests has
    no defined outcome: [try_request] appends to the vector it iterates over. *)
Lemma empty_addresses_undefined `{UnorderedIter, Rand} now c key t r reqs id :
  pending_request_map_ c !! key = Some (t, r :: reqs) → key_of r = Some key →
  at_default ∅ key (key_address_cache_ c) = ∅ →
  wlp (receive_address now {| kares_addresses := [{| ka_key := key; ka_ips := [] |}];
                              kares_error := NO_ERROR; kares_response_id := id |}) c (λ _ _ _, False).
Proof.
  intros Hp Hk Hc. unfold receive_address. eff_step. apply wlp_lift. intros a Ha%vec_at_Ok. cbn in Ha.
  injection Ha as <-. do 2 eff_step. cbn [ka_key]. rewrite Hp. cbn [kares_error ka_ips]. rewrite decide_False by done.
  eff_step. cbn [for_each]. eff_step. eff_step. unfold retry_pending. cbn [for_each]. do 2 eff_step.
  eff_call try_request_spec. intros c' _ r' (key' & c1 & Hk' & [(E1 & _) _] & Hcase).
  rewrite Hk in Hk'. injection Hk' as <-. rewrite Hc in Hcase.
  destruct Hcase as [(_ & -> & _)|(w & n & Hw & _)]; [|set_solver]. do 2 eff_step.
  rewrite decide_False; [by eff_step|]. cbn. rewrite at_default_insert, E1. unfold at_default. rewrite Hp.
  cbn. rewrite length_app. cbn. lia.
Qed.

(** Until a server of the key is known, a second [get_async] queues a second
    request. *)
Lemma get_async_repeats `{UnorderedIter, Rand} now key c :
  at_default ∅ key (key_address_cache_ c) = ∅ → pending_get_response_map_ c !! key = None →
  wlp (get_async now key) c (λ c' _ _,
    length (at_default (0, []) key (pending_request_map_ c')).2
      = S (length (at_default (0, []) key (pending_request_map_ c)).2) ∧
    at_default ∅ key (key_address_cache_ c') = ∅ ∧ pending_get_response_map_ c' !! key = None).
Proof.
  intros Hc Hg. unfold get_async. do 2 eff_step. rewrite Hg. eff_step.
  eff_call prepare_data_request_frame. intros c1 _ r ([(E1 & E2 & E3 & _) E4] & Hk & _). eff_step.
  eff_call try_request_spec. intros c2 _ r' (key' & c3 & Hk' & [(E5 & E6 & E7 & _) E8] & Hcase). eff_step.
  unfold key_of in Hk'. cbn in Hk'. rewrite Hk in Hk'. injection Hk' as <-.
  rewrite E4 in Hcase. destruct Hcase as [(_ & -> & _)|(w & n & Hw & _)]; [|rewrite Hc in Hw; set_solver].
  cbn. rewrite at_default_insert, E5, E1, E6, E2, E8, E4. cbn. split_and!; [|done|done].
  rewrite length_app. unfold at_default. destruct (pending_request_map_ c !! key); cbn; lia.
Qed.
