(* ===== verification/CommHelper.v ===== *)
(** * The communication helper of a node ([include/scheduler/comm_helper.hpp])

    [CommHelper] is what the local scheduler talks to the cluster with: it keeps
    the coordinators of applications and buckets, the addresses of remote objects
    and the clients of the key-value store, and turns what arrives into [RecvMsg]s.
    Methods of the object alone are [eff CommHelper Send]; [try_recv_msg] also
    changes the maps of the scheduler it is given references to, and copies objects
    with the function pointers of the constructor, so it acts on a [World].

    Triggers are shared by pointer between the maps of the scheduler: a
    [TriggerPointer] is an index in the heap of triggers, never freed. *)

From S2P Require Import Prelude CppString CppDouble Messages Common Triggers Threads Effects.
From S2P Require Import Lattices Serialization.
From S2P Require Import KvsClient.

(** ** Data *)

Inductive RecvMsgType := Null | Call | DataResp | KvsGetResp | KvsPutResp.

#[export] Instance RecvMsgType_eq_dec : EqDecision RecvMsgType.
Proof. solve_decision. Defined.

Record RecvMsg := {
  msg_type_ : RecvMsgType;
  app_name_ : string;
  resp_address_ : string;
  func_names_ : list string;                   (* [func_name_] *)
  func_argss_ : list (list string);            (* [func_args_] *)
  is_func_arg_keys_ : list Z;
  cpu_coress_ : list double;                   (* [cpu_cores_] *)
  memory_mbs_ : list Z;                        (* [memory_mb_] *)
  session_id_ : string;
  sync_data_status_ : bool;
  data_key_ : string;
  data_size_ : Z }.

(** Members not assigned are never read. *)
Definition empty_RecvMsg (t : RecvMsgType) : RecvMsg := {|
  msg_type_ := t; app_name_ := ""; resp_address_ := ""; func_names_ := []; func_argss_ := [];
  is_func_arg_keys_ := []; cpu_coress_ := []; memory_mbs_ := []; session_id_ := "";
  sync_data_status_ := false; data_key_ := ""; data_size_ := 0 |}.

Record AppInfo := {
  app_functions_ : gset string;                (* [functions_] *)
  direct_deps_ : gmap string (gset string);
  buckets_ : list string }.

Definition empty_AppInfo : AppInfo := {| app_functions_ := ∅; direct_deps_ := ∅; buckets_ := [] |}.

Abbreviation TriggerPointer := nat.

Record RerunTriggerTimeout := {
  trigger_ptr_ : TriggerPointer;
  rerun_timeout_ : Z }.                        (* [timeout_] *)

Inductive SecondaryThreadMsg :=
| SendReq (key_ : string)
| GetKvs (key_ : string)
| PutKvs (key_ data_ : string).                (* the bytes at [data_ptr_] *)

(** The maps of the scheduler that [try_recv_msg] gets by reference. *)
Record Registry := {
  trigger_heap : list Trigger;
  bucket_triggers_map : gmap string (list TriggerPointer);
  app_info_map : gmap string AppInfo;
  func_app_map : gmap string string;
  bucket_app_map : gmap string string;
  func_trigger_timeout_map : gmap string (list RerunTriggerTimeout) }.

Definition empty_Registry : Registry := {|
  trigger_heap := []; bucket_triggers_map := ∅; app_info_map := ∅; func_app_map := ∅;
  bucket_app_map := ∅; func_trigger_timeout_map := ∅ |}.

(** The object, with the global vectors its threads share. *)
Record CommHelper := {
  routing_threads_ : list Thread;
  ip_ : string;
  io_thread_count_ : Z;
  io_thread_id_ : Z;
  rid_ : Z;
  key_address_cache_ : gmap string string;
  app_coord_map_ : gmap string Thread;
  bucket_coord_map_ : gmap string Thread;
  kvs_clients : list KvsClient.KvsClient;
  secondary_thread_msg_queues : list (list SecondaryThreadMsg);
  resp_queues : list (list RecvMsg) }.

Definition new_CommHelper (routing_threads : list Thread) (ip : string) (io_thread_count : Z)
    (clients : list KvsClient.KvsClient) : CommHelper := {|
  routing_threads_ := routing_threads; ip_ := ip; io_thread_count_ := io_thread_count;
  io_thread_id_ := 0; rid_ := 0; key_address_cache_ := ∅; app_coord_map_ := ∅; bucket_coord_map_ := ∅;
  kvs_clients := clients;
  secondary_thread_msg_queues := repeat [] (Z.to_nat (io_thread_count - 1));
  resp_queues := repeat [] (Z.to_nat (io_thread_count - 1)) |}.

Section setters.
Context (h : CommHelper).

Definition set_ids (rid io_thread_id : Z) : CommHelper := {|
  routing_threads_ := routing_threads_ h; ip_ := ip_ h; io_thread_count_ := io_thread_count_ h;
  io_thread_id_ := io_thread_id; rid_ := rid; key_address_cache_ := key_address_cache_ h;
  app_coord_map_ := app_coord_map_ h; bucket_coord_map_ := bucket_coord_map_ h;
  kvs_clients := kvs_clients h; secondary_thread_msg_queues := secondary_thread_msg_queues h;
  resp_queues := resp_queues h |}.

Definition set_addresses (m : gmap string string) : CommHelper := {|
  routing_threads_ := routing_threads_ h; ip_ := ip_ h; io_thread_count_ := io_thread_count_ h;
  io_thread_id_ := io_thread_id_ h; rid_ := rid_ h; key_address_cache_ := m;
  app_coord_map_ := app_coord_map_ h; bucket_coord_map_ := bucket_coord_map_ h;
  kvs_clients := kvs_clients h; secondary_thread_msg_queues := secondary_thread_msg_queues h;
  resp_queues := resp_queues h |}.

Definition set_coords (apps buckets : gmap string Thread) : CommHelper := {|
  routing_threads_ := routing_threads_ h; ip_ := ip_ h; io_thread_count_ := io_thread_count_ h;
  io_thread_id_ := io_thread_id_ h; rid_ := rid_ h; key_address_cache_ := key_address_cache_ h;
  app_coord_map_ := apps; bucket_coord_map_ := buckets;
  kvs_clients := kvs_clients h; secondary_thread_msg_queues := secondary_thread_msg_queues h;
  resp_queues := resp_queues h |}.

Definition set_clients (clients : list KvsClient.KvsClient) : CommHelper := {|
  routing_threads_ := routing_threads_ h; ip_ := ip_ h; io_thread_count_ := io_thread_count_ h;
  io_thread_id_ := io_thread_id_ h; rid_ := rid_ h; key_address_cache_ := key_address_cache_ h;
  app_coord_map_ := app_coord_map_ h; bucket_coord_map_ := bucket_coord_map_ h;
  kvs_clients := clients; secondary_thread_msg_queues := secondary_thread_msg_queues h;
  resp_queues := resp_queues h |}.

Definition set_queues (msgs : list (list SecondaryThreadMsg)) (resps : list (list RecvMsg)) : CommHelper := {|
  routing_threads_ := routing_threads_ h; ip_ := ip_ h; io_thread_count_ := io_thread_count_ h;
  io_thread_id_ := io_thread_id_ h; rid_ := rid_ h; key_address_cache_ := key_address_cache_ h;
  app_coord_map_ := app_coord_map_ h; bucket_coord_map_ := bucket_coord_map_ h;
  kvs_clients := kvs_clients h; secondary_thread_msg_queues := msgs; resp_queues := resps |}.

End setters.

Abbreviation comm := (eff CommHelper Send).

(** The address [operator[]] value-initialises: a [HandlerThread] without ip. *)
Definition empty_thread : Thread := {| thread_ip := ""; thread_tid := 0 |}.

(** ** Methods of the object *)

Section helper.
Context `{UnorderedIter, Rand, LatticeMessages}.

(** [++io_thread_id_ % io_thread_count_ == 0]. *)
Definition get_io_thread_id (exclude_main_thread : bool) : comm Z :=
  count ← gets io_thread_count_;
  id ← gets io_thread_id_;
  if decide (count = 0) then throw Undefined
  else
    let id := u32 (id + 1) in
    let id := if decide (id `mod` count = 0) then (if exclude_main_thread then 1 else 0) else id in
    modify (λ h, set_ids h (rid_ h) id);;
    mret id.

Definition get_data_server_addr (key_name : string) (exclude_main_thread : bool) : comm string :=
  thread_id ← get_io_thread_id exclude_main_thread;
  ip ← gets ip_;
  mret ("tcp://" +:+ ip +:+ ":" +:+ to_string (u32 (thread_id + dataAccessServerPort))).

Definition get_key_address (key : string) : comm string :=
  cache ← gets key_address_cache_;
  mret (default "" (cache !! key)).

Definition get_request_id : comm string :=
  h ← gets id;
  modify (λ h, set_ids h (KvsClient.next_rid (rid_ h)).2 (io_thread_id_ h));;
  mret (KvsClient.request_id_of {| thread_ip := ip_ h; thread_tid := 0 |} (KvsClient.next_rid (rid_ h)).1).

Definition get_querying_thread (bucket : string) : comm string :=
  m ← gets bucket_coord_map_;
  mret (match m !! bucket with
        | None => "" | Some t => HandlerThread.key_query_handler_connect_address t end).

Definition get_notifying_thread (bucket : string) : comm string :=
  m ← gets bucket_coord_map_;
  mret (match m !! bucket with
        | None => "" | Some t => HandlerThread.notify_handler_connect_address t end).

Definition empty_BucketKeyAddress : BucketKeyAddress := {|
  bka_bucket := ""; bka_key := ""; bka_session := ""; bka_ips := []; bka_payload := "" |}.

Definition notify_put_base (bucket_key : BucketKey) (active_triggers : list string)
    (resp_address payload : string) : comm unit :=
  notif_thread ← get_notifying_thread (bucket_ bucket_key);
  if decide (notif_thread = "") then mret tt
  else
    req_id ← get_request_id;
    let addr := get_addr_from_bucket_key bucket_key empty_BucketKeyAddress in
    server ← get_data_server_addr (shm_key_name bucket_key) true;
    emit {| send_to := notif_thread;
            send_msg := MKeyNotifyRequest {|
              knr_response_address := resp_address;
              knr_addresses := [{| bka_bucket := bka_bucket addr; bka_key := bka_key addr;
                bka_session := bka_session addr; bka_ips := bka_ips addr ++ [server];
                bka_payload := if decide (payload = "") then bka_payload addr else payload |}];
              knr_active_trigger_names := active_triggers;
              knr_request_id := req_id |} |}.

Definition notify_put := notify_put_base.

Definition key_query_async (bucket_key : BucketKey) : comm unit :=
  req_id ← get_request_id;
  ip ← gets ip_;
  qry_thread ← get_querying_thread (bucket_ bucket_key);
  emit {| send_to := qry_thread;
          send_msg := MKeyQueryRequest {|
            kqr_response_address :=
              CommHelperThread.key_query_connect_address {| thread_ip := ip; thread_tid := 0 |};
            kqr_addresses := [get_addr_from_bucket_key bucket_key empty_BucketKeyAddress];
            kqr_request_id := req_id |} |}.

Definition client_response (resp_address app_name output_data : string) : comm unit :=
  emit {| send_to := resp_address;
          send_msg := MFunctionCallResponse {|
            fcr_app_name := app_name; fcr_request_id := ""; fcr_output := output_data;
            fcr_error_no := 0 |} |}.

Definition update_status (avail_executors : Z) (function_cache : gset string) : comm unit :=
  ip ← gets ip_;
  threads ← gets routing_threads_;
  for_each (λ ht, emit {|
      send_to := HandlerThread.update_handler_connect_address ht;
      send_msg := MUpdateStatusMessage {|
        usm_ip := ip; usm_avail_executors := u32 avail_executors;
        usm_functions := foldl (λ fs f, fs ++ [f]) [] (set_iter function_cache) |} |}) threads.

(** The loop [for (int i = 0; i < func_args.size(); i += 3)] over keys; each reads
    the two arguments at [i] and [i + 1]. *)
Fixpoint key_args (arg_flag : Z) (args : list string) : comm (list Argument) :=
  match args with
  | [] => mret []
  | [_] => throw Undefined
  | a :: b :: rest =>
      let key_name := a +:+ kDelimiter +:+ b in
      address ← get_data_server_addr key_name false;
      l ← match rest with [] => mret [] | _ :: rest => key_args arg_flag rest end;
      mret ({| arg_body := key_name; arg_arg_flag := u32 arg_flag; arg_data_address := address |} :: l)
  end.

Definition forward_request (arg_flag : Z) (name_args : string * list string) : comm FunctionRequest :=
  args ← (if decide (arg_flag > 0) then key_args arg_flag name_args.2
          else mret (map (λ a, {| arg_body := a; arg_arg_flag := u32 arg_flag; arg_data_address := "" |})
                 name_args.2));
  mret {| fr_name := name_args.1; fr_arguments := args; fr_cpu_cores := S754_zero false; fr_memory_mb := 0 |}.

(** [func_args_vec[func_i]] exists for every name: the callers build both vectors
    together. *)
Definition forward_func_call (resp_address app_name : string) (func_name_vec : list string)
    (func_args_vec : list (list string)) (arg_flag : Z) (session_id : string) : comm unit :=
  ip ← gets ip_;
  if decide (length func_args_vec < length func_name_vec)%nat then throw Undefined
  else
    requests ← mapM (forward_request arg_flag) (zip func_name_vec func_args_vec);
    apps ← gets app_coord_map_;
    buckets ← gets bucket_coord_map_;
    let coord := default empty_thread (apps !! app_name) in
    modify (λ h, set_coords h (<[app_name := coord]> apps) buckets);;
    emit {| send_to := HandlerThread.forward_func_connect_address coord;
            send_msg := MFunctionCall {|
              fc_app_name := app_name; fc_requests := requests; fc_source := ip;
              fc_request_id := ""; fc_resp_address := resp_address; fc_session_id := session_id;
              fc_sync_data_status := true |} |}.

(** *** Remote data: [key length (1 byte) | key | address or value] *)
Definition data_message (key rest : string) : string :=
  byte_string (size_of key) +:+ key +:+ rest.

(** The head of a message: the key and what follows it; reading past the end of
    the buffer is undefined. *)
Definition parse_data_message (message : string) : result (string * string) :=
  match message with
  | EmptyString => Throw Undefined
  | String c rest =>
      let key_len := val_of c in
      if decide (size_of rest < key_len) then Throw Undefined
      else Ok (take_string (Z.to_nat key_len) rest, drop_string (Z.to_nat key_len) rest)
  end.

Definition send_data_req_base (key : string) (tid : Z) : comm unit :=
  data_address ← get_key_address key;
  if decide (size_of data_address = 0) then mret tt
  else
    ip ← gets ip_;
    emit {| send_to := data_address;
            send_msg := MBytes (data_message key
              ("tcp://" +:+ ip +:+ ":" +:+ to_string (u32 (tid + dataAccessClientPort)))) |}.

(** A member of the [kvs_clients] vector. *)
Definition on_client {A} (tid : Z) (m : KvsClient.kvs A) : comm A := λ h,
  match kvs_clients h !! Z.to_nat tid with
  | None => Throw Undefined
  | Some c =>
      match m c with
      | Ok (c', o, a) => Ok (set_clients h (<[Z.to_nat tid := c']> (kvs_clients h)), o, a)
      | Throw e => Throw e
      end
  end.

Definition get_kvs_async_base (now : Z) (key : string) (tid : Z) : comm unit :=
  on_client tid (KvsClient.get_async now key).

(** [generate_timestamp] ends for every thread id the program has. *)
Definition put_kvs_async_base (now : Z) (key value : string) (tid : Z) : comm unit :=
  ts ← lift (match generate_timestamp (to_ms now) tid with Some ts => Ok ts | None => Throw Undefined end);
  _ ← on_client tid (KvsClient.put_async now key (serialize_timestamp_value ts value) LWW);
  mret tt.

(** [secondary_thread_msg_queues[thread_id - 1]->push(msg)]. *)
Definition push_secondary (thread_id : Z) (msg : SecondaryThreadMsg) : comm unit :=
  queues ← gets secondary_thread_msg_queues;
  queue ← lift (vec_at queues (Z.to_nat (thread_id - 1)));
  modify (λ h, set_queues h (<[Z.to_nat (thread_id - 1) := queue ++ [msg]]> queues) (resp_queues h)).

(** On this thread, or on another one in turn. *)
Definition dispatch_io (here : comm unit) (msg : SecondaryThreadMsg) : comm unit :=
  count ← gets io_thread_count_;
  if decide (count > 1) then
    thread_id ← get_io_thread_id true;
    if decide (thread_id = 0) then here else push_secondary thread_id msg
  else here.

Definition send_data_req (key : string) : comm unit :=
  dispatch_io (send_data_req_base key 0) (SendReq key).

Definition get_kvs_async (now : Z) (key : string) : comm unit :=
  dispatch_io (get_kvs_async_base now key 0) (GetKvs key).

Definition put_kvs_async (now : Z) (key value : string) : comm unit :=
  dispatch_io (put_kvs_async_base now key value 0) (PutKvs key value).

(** The calls carry the addresses of the objects they name; [emplace] keeps an
    address that is already known. *)
Definition cache_address (arg : Argument) : comm unit :=
  modify (λ h, set_addresses h
    (if decide (is_Some (key_address_cache_ h !! arg_body arg)) then key_address_cache_ h
     else <[arg_body arg := arg_data_address arg]> (key_address_cache_ h))).

Definition request_args (arguments : list Argument) : comm (list string * Z) :=
  for_fold (λ '(args, arg_flag) arg,
      if decide (arg_arg_flag arg > 0) then
        cache_address arg;; mret (args ++ [arg_body arg], i32 (arg_arg_flag arg))
      else mret (args ++ [arg_body arg], arg_flag)) arguments ([], 0).

Definition handle_function_call (call : FunctionCall) : comm RecvMsg :=
  parts ← mapM (λ req, request_args (fr_arguments req)) (fc_requests call);
  mret {| msg_type_ := Call; app_name_ := fc_app_name call; resp_address_ := fc_resp_address call;
          func_names_ := map fr_name (fc_requests call); func_argss_ := map fst parts;
          is_func_arg_keys_ := map snd parts;
          cpu_coress_ := map fr_cpu_cores (fc_requests call);
          memory_mbs_ := map fr_memory_mb (fc_requests call);
          session_id_ := fc_session_id call; sync_data_status_ := fc_sync_data_status call;
          data_key_ := ""; data_size_ := 0 |}.

End helper.

(** ** Updates of the scheduler's maps *)

Section registry.
Context (reg : Registry).

Definition set_trigger_maps (heap : list Trigger) (buckets : gmap string (list TriggerPointer))
    (timeouts : gmap string (list RerunTriggerTimeout)) : Registry := {|
  trigger_heap := heap; bucket_triggers_map := buckets; app_info_map := app_info_map reg;
  func_app_map := func_app_map reg; bucket_app_map := bucket_app_map reg;
  func_trigger_timeout_map := timeouts |}.

Definition set_app_maps (infos : gmap string AppInfo) (funcs buckets : gmap string string) : Registry := {|
  trigger_heap := trigger_heap reg; bucket_triggers_map := bucket_triggers_map reg;
  app_info_map := infos; func_app_map := funcs; bucket_app_map := buckets;
  func_trigger_timeout_map := func_trigger_timeout_map reg |}.

(** A change of [app_info_map[app_name]]. *)
Definition update_app (app_name : string) (f : AppInfo → AppInfo) : gmap string AppInfo :=
  <[app_name := f (at_default empty_AppInfo app_name (app_info_map reg))]> (app_info_map reg).

Definition add_function (app_name func : string) : Registry :=
  set_app_maps
    (update_app app_name (λ a, {| app_functions_ := {[func]} ∪ app_functions_ a;
       direct_deps_ := direct_deps_ a; buckets_ := buckets_ a |}))
    (<[func := app_name]> (func_app_map reg)) (bucket_app_map reg).

Definition add_target (app_name src_func tgt : string) : Registry :=
  set_app_maps
    (update_app app_name (λ a, {| app_functions_ := app_functions_ a;
       direct_deps_ := <[src_func := {[tgt]} ∪ at_default ∅ src_func (direct_deps_ a)]> (direct_deps_ a);
       buckets_ := buckets_ a |}))
    (func_app_map reg) (bucket_app_map reg).

Definition add_bucket (app_name bucket_name : string) : Registry :=
  set_app_maps
    (update_app app_name (λ a, {| app_functions_ := app_functions_ a; direct_deps_ := direct_deps_ a;
       buckets_ := buckets_ a ++ [bucket_name] |}))
    (func_app_map reg) (<[bucket_name := app_name]> (bucket_app_map reg)).

(** A method of the trigger a pointer points to. *)
Definition update_trigger (f : Trigger → Trigger) (p : TriggerPointer) : Registry :=
  set_trigger_maps (alter f p (trigger_heap reg)) (bucket_triggers_map reg) (func_trigger_timeout_map reg).

End registry.

Section registry_messages.
Context `{UnorderedIter, PrimitiveMessages}.

(** [gen_trigger_pointer] for one entity of the message: the new trigger is in the
    bucket and, for each hint, in the map of timeouts of its source function. *)
Definition install_trigger (now : Z) (reg : Registry) (entity : TriggerEntity) : Registry :=
  match gen_trigger_pointer now (te_primitive_type entity) (te_trigger_name entity) (te_primitive entity) with
  | None => reg
  | Some trigger =>
      let p := length (trigger_heap reg) in
      let trigger := set_trigger_option trigger (i32 (te_trigger_option entity)) in
      let rerun_meta := map (λ hint, {| source_func_ := rh_source_function hint;
        source_key_ := rh_source_key hint; Triggers.timeout_ := rh_timeout hint |}) (te_hints entity) in
      set_trigger_maps reg
        (trigger_heap reg ++ [trigger_set_rerun trigger rerun_meta])
        (<[te_bucket_name entity :=
           at_default [] (te_bucket_name entity) (bucket_triggers_map reg) ++ [p]]> (bucket_triggers_map reg))
        (foldl (λ m hint, <[rh_source_function hint :=
             at_default [] (rh_source_function hint) m ++
               [{| trigger_ptr_ := p; rerun_timeout_ := rh_timeout hint |}]]> m)
           (func_trigger_timeout_map reg) (te_hints entity))
  end.

Definition add_dependency (app_name : string) (reg : Registry) (dep : DataDependency) : result Registry :=
  if decide (dd_type dep = DIRECT) then
    src_func ← vec_at (dd_src_functions dep) 0;
    Ok (foldl (λ reg tgt, add_target reg app_name src_func tgt) reg (dd_tgt_functions dep))
  else Ok reg.

Definition add_entity (now : Z) (app_name : string) (reg : Registry) (entity : TriggerEntity) : Registry :=
  let reg := add_bucket reg app_name (te_bucket_name entity) in
  if decide (te_trigger_name entity = "") then reg else install_trigger now reg entity.

(** Message type 1: every trigger of the name clears the session.
    [bucket_triggers_map[bucket_name]] adds an entry for an unknown bucket. *)
Definition clear_session (reg : Registry) (entity : TriggerEntity) : Registry :=
  let bucket := te_bucket_name entity in
  let ptrs := at_default [] bucket (bucket_triggers_map reg) in
  let reg := set_trigger_maps reg (trigger_heap reg) (touch [] bucket (bucket_triggers_map reg))
               (func_trigger_timeout_map reg) in
  foldl (λ reg p, update_trigger reg
      (λ t, if decide (trigger_name_ t = te_trigger_name entity) then trigger_clear t (te_session entity) else t) p)
    reg ptrs.

(** Message type 2: the loop that advances the iterator to the trigger of the name
    has no test for the end of the vector, and dereferences [end()] when no trigger
    has the name. *)
Fixpoint erase_first (heap : list Trigger) (name : string) (ptrs : list TriggerPointer)
    : result (list TriggerPointer) :=
  match ptrs with
  | [] => Throw Undefined
  | p :: ps =>
      t ← vec_at heap p;
      if decide (trigger_name_ t = name) then Ok ps else ps ← erase_first heap name ps; Ok (p :: ps)
  end.

Definition delete_trigger (reg : Registry) (entity : TriggerEntity) : result Registry :=
  let bucket := te_bucket_name entity in
  ptrs ← erase_first (trigger_heap reg) (te_trigger_name entity) (at_default [] bucket (bucket_triggers_map reg));
  Ok (set_trigger_maps reg (trigger_heap reg) (<[bucket := ptrs]> (bucket_triggers_map reg))
        (func_trigger_timeout_map reg)).

End registry_messages.

(** ** Receiving *)

Section world.
Context `{UnorderedIter, Rand, LatticeMessages, PrimitiveMessages}.

(** The function pointers of the constructor, over the memory [E] they act on:
    [copy_func_(key, data, size)] and [get_func_(key)], whose size 0 stands for no
    local object. *)
Context {E : Type} (copy_func_ : string → string → E → result E) (get_func_ : string → E → result string).

Record World := {
  w_helper : CommHelper;
  w_registry : Registry;
  w_env : E }.

Abbreviation world := (eff World Send).

Definition on_helper {A} (m : comm A) : world A :=
  zoom w_helper (λ h w, {| w_helper := h; w_registry := w_registry w; w_env := w_env w |}) m.

Definition set_registry (r : Registry) : world unit :=
  modify (λ w, {| w_helper := w_helper w; w_registry := r; w_env := w_env w |}).

Definition copy (key data : string) : world unit :=
  env ← gets w_env;
  env ← lift (copy_func_ key data env);
  modify (λ w, {| w_helper := w_helper w; w_registry := w_registry w; w_env := env |}).

(** The reply: [msg_len] is [unsigned], and a message longer than it counts is written
    past the end of its buffer. *)
Definition data_reply (key data : string) : result string :=
  let msg_len := u32 (size_of key + size_of data + 1) in
  if decide (msg_len < size_of key + 1 + size_of data) then Throw Undefined
  else Ok (data_message key data).

Definition handle_data_request (message : string) : world unit :=
  '(key, resp_address) ← lift (parse_data_message message);
  env ← gets w_env;
  data ← lift (get_func_ key env);
  when (bool_decide (size_of data > 0))
    (msg ← lift (data_reply key data);
     emit {| send_to := resp_address; send_msg := MBytes msg |}).

Definition handle_data_response (message : string) : world RecvMsg :=
  '(key, data) ← lift (parse_data_message message);
  copy key data;;
  mret {| msg_type_ := DataResp; app_name_ := ""; resp_address_ := ""; func_names_ := [];
          func_argss_ := []; is_func_arg_keys_ := []; cpu_coress_ := []; memory_mbs_ := [];
          session_id_ := ""; sync_data_status_ := false; data_key_ := key;
          data_size_ := u32 (size_of data) |}.

Definition kvs_RecvMsg (t : RecvMsgType) (key : string) (size : Z) : RecvMsg := {|
  msg_type_ := t; app_name_ := ""; resp_address_ := ""; func_names_ := []; func_argss_ := [];
  is_func_arg_keys_ := []; cpu_coress_ := []; memory_mbs_ := []; session_id_ := "";
  sync_data_status_ := false; data_key_ := key; data_size_ := size |}.

(** One response of the key-value store. *)
Definition kvs_response (now : Z) (tid : Z) (response : KeyResponse) : world (list RecvMsg) :=
  tuple ← lift (vec_at (kres_tuples response) 0);
  let key := kt_key tuple in
  if decide (kres_error response = TIMEOUT) then
    (if decide (kres_type response = GET) then on_helper (get_kvs_async_base now key tid) else mret tt);;
    mret []
  else if decide (kres_type response = GET ∧ kt_error tuple ≠ KEY_DNE) then
    let value := tv_value (deserialize_lww (kt_payload tuple)) in
    copy (kvsKeyPrefix +:+ kDelimiter +:+ key) (take_string (Z.to_nat (u32 (size_of value))) value);;
    mret [kvs_RecvMsg KvsGetResp key (u32 (size_of value))]
  else if decide (kres_type response = PUT) then mret [kvs_RecvMsg KvsPutResp key 0]
  else mret [].

Definition get_kvs_responses (now : Z) (addr : option KeyAddressResponse) (resp : option KeyResponse)
    (tid : Z) : world (list RecvMsg) :=
  responses ← on_helper (on_client tid (KvsClient.receive_async now addr resp));
  for_fold (λ comm_resps response, r ← kvs_response now tid response; mret (comm_resps ++ r)) responses [].

(** The first branch of [try_recv_msg]. *)
Definition handle_update (now : Z) (coord_msg : UpdateCoordMsg) : world unit :=
  reg ← gets w_registry;
  if decide (ucm_msg_type coord_msg = 0) then
    let coord_thread := {| thread_ip := ucm_ip coord_msg; thread_tid := ucm_thread_id coord_msg |} in
    let app_name := ucm_app_name coord_msg in
    on_helper (modify (λ h, set_coords h (<[app_name := coord_thread]> (app_coord_map_ h))
      (foldl (λ m t, <[te_bucket_name t := coord_thread]> m) (bucket_coord_map_ h) (ucm_triggers coord_msg))));;
    let reg := foldl (λ reg func, add_function reg app_name func) reg (ucm_functions coord_msg) in
    reg ← lift (foldM (add_dependency app_name) (ucm_dependencies coord_msg) reg);
    set_registry (foldl (add_entity now app_name) reg (ucm_triggers coord_msg))
  else if decide (ucm_msg_type coord_msg = 1) then
    set_registry (foldl clear_session reg (ucm_triggers coord_msg))
  else if decide (ucm_msg_type coord_msg = 2) then
    reg ← lift (foldM delete_trigger (ucm_triggers coord_msg) reg);
    set_registry reg
  else mret tt.

(** What the sockets deliver in one round. *)
Record Inbox := {
  in_update : option UpdateCoordMsg;
  in_call : option FunctionCall;
  in_data_request : option string;
  in_data_response : option string;
  in_key_address : option KeyAddressResponse;
  in_kvs_response : option KeyResponse }.

Definition drain_resp_queues : comm (list RecvMsg) :=
  queues ← gets resp_queues;
  modify (λ h, set_queues h (secondary_thread_msg_queues h) (map (λ _, []) queues));;
  mret (concat queues).

(** An optional message. *)
Definition on_input {A B} (d : B) (f : A → world B) (input : option A) : world B :=
  match input with Some a => f a | None => mret d end.

Definition try_recv_msg (now : Z) (inbox : Inbox) : world (list RecvMsg) :=
  on_input tt (handle_update now) (in_update inbox);;
  r1 ← on_input [] (λ call, r ← on_helper (handle_function_call call); mret [r]) (in_call inbox);
  on_input tt handle_data_request (in_data_request inbox);;
  r2 ← on_input [] (λ message, r ← handle_data_response message; mret [r]) (in_data_response inbox);
  r3 ← get_kvs_responses now (in_key_address inbox) (in_kvs_response inbox) 0;
  r4 ← on_helper drain_resp_queues;
  mret (r1 ++ r2 ++ r3 ++ r4).

(** *** The loop of an additional I/O thread *)
Definition msg_process_batch : nat := 10.

Definition secondary_message (now : Z) (tid : Z) (msg : SecondaryThreadMsg) : comm unit :=
  match msg with
  | SendReq key => send_data_req_base key tid
  | GetKvs key => get_kvs_async_base now key tid
  | PutKvs key data => put_kvs_async_base now key data tid
  end.

(** [resp_queues[queue_idx]->push(resp)]. *)
Definition push_resp (queue_idx : nat) (resp : RecvMsg) : comm unit :=
  queues ← gets resp_queues;
  queue ← lift (vec_at queues queue_idx);
  modify (λ h, set_queues h (secondary_thread_msg_queues h) (<[queue_idx := queue ++ [resp]]> queues)).

(** The inner loop, at most [msg_process_batch] messages; each is popped after it
    is processed. *)
Fixpoint process_secondary (fuel : nat) (now : Z) (tid : Z) (queue_idx : nat) : comm unit :=
  match fuel with
  | O => mret tt
  | S fuel =>
      queues ← gets secondary_thread_msg_queues;
      queue ← lift (vec_at queues queue_idx);
      match queue with
      | [] => mret tt
      | msg :: _ =>
          secondary_message now tid msg;;
          queues ← gets secondary_thread_msg_queues;
          queue ← lift (vec_at queues queue_idx);
          modify (λ h, set_queues h (<[queue_idx := tail queue]> queues) (resp_queues h));;
          process_secondary fuel now tid queue_idx
      end
  end.

(** One iteration of [run_io_thread_loop]. *)
Definition io_thread_round (now : Z) (tid : Z) (inbox : Inbox) : world unit :=
  let queue_idx := Z.to_nat (tid - 1) in
  on_input tt (λ call, r ← on_helper (handle_function_call call); on_helper (push_resp queue_idx r)) (in_call inbox);;
  on_input tt handle_data_request (in_data_request inbox);;
  on_input tt (λ message, r ← handle_data_response message; on_helper (push_resp queue_idx r))
    (in_data_response inbox);;
  on_helper (process_secondary msg_process_batch now tid queue_idx);;
  comm_resps ← get_kvs_responses now (in_key_address inbox) (in_kvs_response inbox) tid;
  for_each (λ r, on_helper (push_resp queue_idx r)) comm_resps.

End world.

(** ** Lemmas *)

Section lemmas.
Context `{UnorderedIter, Rand, LatticeMessages, PrimitiveMessages}.

Lemma parse_data_message_app key rest :
  size_of key ≤ 255 → parse_data_message (data_message key rest) = Ok (key, rest).
Proof.
  intros Hk. pose proof (size_of_nonneg key). unfold data_message, byte_string.
  rewrite append_cons, append_nil_l. cbn [parse_data_message]. rewrite val_byte_of, u8_small by lia.
  rewrite size_of_app. pose proof (size_of_nonneg rest). rewrite decide_False by lia.
  unfold size_of. rewrite Nat2Z.id. by rewrite take_string_app, drop_string_app.
Qed.

(** The length byte of a longer key is its length modulo 256. *)
Lemma parse_data_message_long key rest :
  256 ≤ size_of key →
  ∀ key' rest', parse_data_message (data_message key rest) = Ok (key', rest') → key' ≠ key.
Proof.
  intros Hk key' rest'. unfold data_message, byte_string. rewrite append_cons, append_nil_l.
  cbn [parse_data_message]. rewrite val_byte_of. case_decide; [done|]. intros [= <- _] E.
  apply (f_equal size_of) in E. pose proof (u8_bound (size_of key)) as Hu8.
  assert (∀ n s, (String.length (take_string n s) ≤ n)%nat) as Hlen.
  { induction n as [|n IH]; intros [|c s]; cbn; try lia. specialize (IH s). lia. }
  specialize (Hlen (Z.to_nat (u8 (size_of key))) (key +:+ rest)). unfold size_of in *. lia.
Qed.

(** *** Pointers of the registry *)
Definition registry_ok (reg : Registry) : Prop :=
  (∀ b p, p ∈ at_default [] b (bucket_triggers_map reg) → (p < length (trigger_heap reg))%nat) ∧
  (∀ f r, r ∈ at_default [] f (func_trigger_timeout_map reg) →
     (trigger_ptr_ r < length (trigger_heap reg))%nat).

Lemma empty_Registry_ok : registry_ok empty_Registry.
Proof. split; cbn; unfold at_default; intros ? ?; rewrite lookup_empty; cbn; set_solver. Qed.

Lemma set_app_maps_ok reg i f b : registry_ok reg → registry_ok (set_app_maps reg i f b).
Proof. done. Qed.

Lemma update_trigger_ok reg f p : registry_ok reg → registry_ok (update_trigger reg f p).
Proof. unfold registry_ok, update_trigger. cbn. by rewrite length_alter. Qed.

Lemma foldl_ok {A} (P : Registry → Prop) (f : Registry → A → Registry) l reg :
  (∀ reg a, P reg → P (f reg a)) → P reg → P (foldl f reg l).
Proof. intros Hf Hr. apply (foldl_ind (λ _ reg, P reg)); auto. Qed.

Lemma install_trigger_ok now reg entity : registry_ok reg → registry_ok (install_trigger now reg entity).
Proof.
  intros [HB HT]. unfold install_trigger. case_match; [|done]. split; cbn; rewrite length_app; cbn.
  - intros b p. destruct (decide (b = te_bucket_name entity)) as [->|].
    + rewrite at_default_insert. intros [Hp%HB| ->%list_elem_of_singleton]%elem_of_app; lia.
    + rewrite at_default_insert_ne by done. intros Hp%HB. lia.
  - set (n := length (trigger_heap reg)) in *.
    apply (foldl_ind (λ _ m, ∀ f r, r ∈ at_default [] f m → (trigger_ptr_ r < n + 1)%nat)).
    { intros f r Hr%HT. lia. }
    intros _ hint m Hm f r. destruct (decide (f = rh_source_function hint)) as [->|].
    + rewrite at_default_insert. intros [Hr%Hm| ->%list_elem_of_singleton]%elem_of_app; cbn; lia.
    + rewrite at_default_insert_ne by done. apply Hm.
Qed.

Lemma add_dependency_ok app reg dep reg' :
  registry_ok reg → add_dependency app reg dep = Ok reg' → registry_ok reg'.
Proof.
  intros Hr. unfold add_dependency. case_decide; [|by intros [= <-]].
  intros (src & _ & [= <-])%bind_Ok. by apply foldl_ok.
Qed.

Lemma erase_first_elem heap name ps ps' p : erase_first heap name ps = Ok ps' → p ∈ ps' → p ∈ ps.
Proof.
  revert ps'. induction ps as [|q ps IH]; intros ps'; cbn; [done|]. intros (t & _ & E)%bind_Ok.
  case_decide; [simplify_eq; set_solver|]. apply bind_Ok in E as (qs & E & [= <-]).
  rewrite !elem_of_cons. naive_solver.
Qed.

Lemma delete_trigger_ok reg entity reg' :
  registry_ok reg → delete_trigger reg entity = Ok reg' → registry_ok reg'.
Proof.
  intros [HB HT]. unfold delete_trigger. intros (ps & E & [= <-])%bind_Ok. split; cbn; [|done].
  intros b p. destruct (decide (b = te_bucket_name entity)) as [->|];
    [rewrite at_default_insert | rewrite at_default_insert_ne by done; apply HB].
  intros Hp. eapply HB, erase_first_elem; done.
Qed.

Lemma clear_session_ok reg entity : registry_ok reg → registry_ok (clear_session reg entity).
Proof.
  intros [HB HT]. unfold clear_session. apply foldl_ok; [intros; by apply update_trigger_ok|].
  split; cbn; [|done]. intros b p. rewrite at_default_touch. apply HB.
Qed.

Context {E : Type} (copy_func_ : string → string → E → result E) (get_func_ : string → E → result string).

(** No message leaves a dangling trigger pointer. *)
Lemma handle_update_ok now coord_msg :
  keeps (λ w : World (E := E), registry_ok (w_registry w)) (handle_update now coord_msg).
Proof.
  intros w Hok. unfold handle_update. do 2 eff_step. case_decide; [|case_decide; [|case_decide]].
  - eff_step. apply wlp_zoom. do 2 eff_step. apply wlp_lift. intros reg' Hf. unfold set_registry. eff_step. cbn.
    apply foldl_ok.
    + intros reg a Hr. unfold add_entity. case_decide; [done|]. by apply install_trigger_ok.
    + eapply (foldM_ind (λ _ reg, registry_ok reg)); [..|exact Hf].
      * by apply foldl_ok.
      * intros pre dep r1 r2 Hr Hd. by eapply add_dependency_ok.
  - unfold set_registry. eff_step. cbn. apply foldl_ok; [intros; by apply clear_session_ok|done].
  - eff_step. apply wlp_lift. intros reg' Hf. unfold set_registry. eff_step. cbn.
    eapply (foldM_ind (λ _ reg, registry_ok reg)); [..|exact Hf]; [done|].
    intros pre entity r1 r2 Hr Hd. by eapply delete_trigger_ok.
  - by eff_step.
Qed.

End lemmas.

(** ** Properties *)

(** The [HandlerThread]-style address of one service of a thread. *)
Lemma service_address ip port tid :
  "tcp://" +:+ ip +:+ ":" +:+ to_string (u32 (tid + port))
  = connect_at port {| thread_ip := ip; thread_tid := tid |}.
Proof. unfold connect_at, ip_base_. cbn [thread_ip thread_tid]. by rewrite !append_assoc. Qed.

Lemma data_reply_Ok key data :
  size_of key + 1 + size_of data < 2 ^ 32 → data_reply key data = Ok (data_message key data).
Proof.
  intros Hn. pose proof (size_of_nonneg key). pose proof (size_of_nonneg data). unfold data_reply.
  by rewrite u32_small, decide_False by lia.
Qed.

(** The length of the reply wraps around: for an object of nearly 2^32 bytes the buffer is
    too short. *)
Lemma data_reply_overflow key data :
  size_of data < 2 ^ 32 ≤ size_of key + size_of data + 1 → size_of key ≤ 255 → data_reply key data = Throw Undefined.
Proof.
  intros Hd Hk. pose proof (size_of_nonneg key). pose proof (size_of_nonneg data). unfold data_reply, u32.
  rewrite decide_True; [done|]. pose proof (Z.mod_le (size_of key + size_of data + 1) (2 ^ 32) ltac:(lia) ltac:(lia)).
  pose proof (Z.mod_pos_bound (size_of key + size_of data + 1) (2 ^ 32) ltac:(lia)). lia.
Qed.

(** C10: a remote object arrives as it is stored: the request of thread [tid] of one
    node, answered by a node that has the object and read by the requester, copies
    exactly the object's bytes under its name and reports its size; the messages
    go to the address known for the object and back to the requesting thread.  The name
    has at most 255 bytes, the object is not empty, the reply has less than 2^32 bytes
    ([data_reply_overflow]), and the requester knows an address of the object. *)
Theorem remote_fetch_roundtrip {E F : Type} (copy_func_ : string → string → E → result E)
    (get_func_ : string → F → result string) (requester : CommHelper) (server : World (E := F))
    (key address data : string) (tid : Z) :
  size_of key ≤ 255 → size_of key + 1 + size_of data < 2 ^ 32 → address ≠ "" → data ≠ "" →
  key_address_cache_ requester !! key = Some address → get_func_ key (w_env server) = Ok data →
  ∃ request response,
    send_data_req_base key tid requester
      = Ok (requester, [{| send_to := address; send_msg := MBytes request |}], tt) ∧
    handle_data_request get_func_ request server
      = Ok (server, [{| send_to := connect_at dataAccessClientPort {| thread_ip := ip_ requester; thread_tid := tid |};
                        send_msg := MBytes response |}], tt) ∧
    ∀ w env', copy_func_ key data (w_env w) = Ok env' →
      handle_data_response copy_func_ response w
        = Ok ({| w_helper := w_helper w; w_registry := w_registry w; w_env := env' |}, [],
              {| msg_type_ := DataResp; app_name_ := ""; resp_address_ := ""; func_names_ := [];
                 func_argss_ := []; is_func_arg_keys_ := []; cpu_coress_ := []; memory_mbs_ := [];
                 session_id_ := ""; sync_data_status_ := false; data_key_ := key;
                 data_size_ := size_of data |}).
Proof.
  intros Hk Hd Ha Hne Hc Hg.
  exists (data_message key (connect_at dataAccessClientPort {| thread_ip := ip_ requester; thread_tid := tid |})),
    (data_message key data). split_and!.
  - unfold send_data_req_base, get_key_address, mbind, eff_bind, gets, mret, eff_ret, emit. cbn.
    rewrite Hc. cbn. rewrite decide_False by (by destruct address). by rewrite service_address.
  - unfold handle_data_request, mbind, eff_bind, gets, lift, when, emit. rewrite parse_data_message_app by done.
    rewrite Hg. rewrite bool_decide_true; [by rewrite data_reply_Ok|].
    destruct data; [done|]. unfold size_of. cbn [String.length]. lia.
  - intros w env' Henv. unfold handle_data_response, copy, mbind, eff_bind, gets, lift, modify, mret, eff_ret.
    rewrite parse_data_message_app by done. rewrite Henv. cbn.
    rewrite u32_small; [done|]. pose proof (size_of_nonneg data). pose proof (size_of_nonneg key). lia.
Qed.

Definition demo_helper : CommHelper :=
  set_addresses (new_CommHelper [] "10.0.0.1" 2 []) {["b|k" := "tcp://10.0.0.2:4400"]}.

Definition demo_server : World (E := gmap string string) := {|
  w_helper := new_CommHelper [] "10.0.0.2" 2 []; w_registry := empty_Registry;
  w_env := {["b|k" := "value"]} |}.

Lemma remote_fetch_roundtrip_witness :
  let get k (m : gmap string string) := Ok (default "" (m !! k)) in
  let put k v (m : gmap string string) := Ok (<[k := v]> m) in
  ∃ request response,
    send_data_req_base "b|k" 1 demo_helper
      = Ok (demo_helper, [{| send_to := "tcp://10.0.0.2:4400"; send_msg := MBytes request |}], tt) ∧
    handle_data_request get request demo_server
      = Ok (demo_server, [{| send_to := connect_at dataAccessClientPort {| thread_ip := "10.0.0.1"; thread_tid := 1 |};
                             send_msg := MBytes response |}], tt) ∧
    ∀ w env', put "b|k" "value" (w_env w) = Ok env' →
      handle_data_response put response w
        = Ok ({| w_helper := w_helper w; w_registry := w_registry w; w_env := env' |}, [],
              {| msg_type_ := DataResp; app_name_ := ""; resp_address_ := ""; func_names_ := [];
                 func_argss_ := []; is_func_arg_keys_ := []; cpu_coress_ := []; memory_mbs_ := [];
                 session_id_ := ""; sync_data_status_ := false; data_key_ := "b|k";
                 data_size_ := size_of "value" |}).
Proof.
  intros get put. apply (remote_fetch_roundtrip put get demo_helper demo_server); try reflexivity;
    first [discriminate | vm_compute; discriminate].
Defined.

(** The threads that [get_io_thread_id] picks in successive calls. *)
Fixpoint io_threads (exclude : bool) (n : nat) (h : CommHelper) : result (list Z) :=
  match n with
  | O => Ok []
  | S n =>
      match get_io_thread_id exclude h with
      | Ok (h, _, t) => ts ← io_threads exclude n h; Ok (t :: ts)
      | Throw e => Throw e
      end
  end.

Lemma get_io_thread_id_value (exclude : bool) h :
  io_thread_count_ h ≠ 0 →
  let j := u32 (io_thread_id_ h + 1) in
  let t := if decide (j `mod` io_thread_count_ h = 0) then (if exclude then 1 else 0) else j in
  get_io_thread_id exclude h = Ok (set_ids h (rid_ h) t, [], t).
Proof.
  intros Hc. cbn. unfold get_io_thread_id, mbind, eff_bind, gets, modify, mret, eff_ret.
  by rewrite decide_False.
Qed.

(** Before the counter wraps, the threads come in order. *)
Lemma io_threads_run exclude k rest h :
  0 ≤ io_thread_id_ h → io_thread_id_ h + Z.of_nat k < io_thread_count_ h → io_thread_count_ h < 2 ^ 32 →
  io_threads exclude (k + rest) h
  = ts ← io_threads exclude rest (set_ids h (rid_ h) (io_thread_id_ h + Z.of_nat k));
    Ok (seqZ (io_thread_id_ h + 1) (Z.of_nat k) ++ ts).
Proof.
  revert h. induction k as [|k IH]; intros h Hlo Hhi Hc; cbn [Nat.add io_threads].
  - replace (io_thread_id_ h + Z.of_nat 0) with (io_thread_id_ h) by lia.
    replace (set_ids h (rid_ h) (io_thread_id_ h)) with h by by destruct h.
    destruct (io_threads exclude rest h); done.
  - rewrite get_io_thread_id_value by lia. rewrite u32_small by lia.
    rewrite decide_False by (rewrite Z.mod_small by lia; lia). cbn.
    rewrite IH by (cbn; lia). cbn.
    replace (io_thread_id_ h + 1 + Z.of_nat k) with (io_thread_id_ h + Z.of_nat (S k)) by lia.
    replace (Z.of_nat (S k)) with (Z.succ (Z.of_nat k)) by lia.
    change (set_ids (set_ids h (rid_ h) (io_thread_id_ h + 1)) (rid_ h)) with (set_ids h (rid_ h)).
    destruct (io_threads exclude rest _); cbn; [|done]. f_equal.
    rewrite (seqZ_cons (io_thread_id_ h + 1)) by lia. cbn. by rewrite Z.pred_succ.
Qed.

Lemma seqZ_rotate m n i : 0 ≤ n → m ≤ i → i < m + n →
  seqZ (i + 1) (m + n - 1 - i) ++ m :: seqZ (m + 1) (i - m) ≡ₚ seqZ m n.
Proof.
  intros Hn Hlo Hhi. replace n with ((i - m + 1) + (m + n - 1 - i)) at 2 by lia.
  rewrite seqZ_app, (Permutation_app_comm (seqZ m _)) by lia.
  replace (m + (i - m + 1)) with (i + 1) by lia. rewrite (seqZ_cons m (i - m + 1)) by lia.
  by replace (Z.pred (i - m + 1)) with (i - m) by lia.
Qed.

(** The I/O threads are used in turn: over [count] calls every thread is picked
    once, and over [count - 1] calls that exclude the main thread every other
    thread is, from whatever thread the turn starts. *)
Theorem io_threads_in_turn (h : CommHelper) (exclude : bool) :
  1 < io_thread_count_ h < 2 ^ 31 → 0 ≤ io_thread_id_ h < io_thread_count_ h →
  ∃ ts, io_threads exclude (Z.to_nat (io_thread_count_ h - (if exclude then 1 else 0))) h = Ok ts ∧
        ts ≡ₚ (if exclude then seqZ 1 (io_thread_count_ h - 1) else seqZ 0 (io_thread_count_ h)).
Proof.
  intros Hc Hi. set (n := io_thread_count_ h) in *. set (i := io_thread_id_ h) in *.
  assert (∀ t rest, t = (if exclude then 1 else 0) → 0 ≤ rest → t + rest = i → ∃ ts,
    io_threads exclude (Z.to_nat (n - 1 - i) + S (Z.to_nat rest)) h = Ok ts ∧
    ts = seqZ (i + 1) (n - 1 - i) ++ t :: seqZ (t + 1) rest) as Hwrap.
  { intros t rest Ht Hr Hti. assert (0 ≤ t) by (destruct exclude; lia). eexists. split; [|done].
    rewrite io_threads_run by (fold n i; lia). cbn [io_threads]. fold i.
    rewrite get_io_thread_id_value by (cbn; fold n; lia). cbn. fold n.
    rewrite u32_small by lia.
    replace (i + Z.of_nat (Z.to_nat (n - 1 - i)) + 1) with n by lia.
    rewrite Z.mod_same, decide_True by lia. rewrite <- Ht.
    replace (Z.to_nat rest) with (Z.to_nat rest + 0)%nat by lia.
    rewrite io_threads_run by (cbn; fold n; lia). cbn. rewrite app_nil_r.
    by replace (Z.of_nat (Z.to_nat (n - 1 - i))) with (n - 1 - i) by lia;
      replace (Z.of_nat (Z.to_nat rest)) with rest by lia. }
  destruct exclude.
  - destruct (decide (i = 0)) as [Hz|Hz].
    + pose proof (io_threads_run true (Z.to_nat (n - 1)) 0 h) as Hrun. fold n i in Hrun.
      rewrite Nat.add_0_r in Hrun. rewrite Hrun by lia. cbn. eexists. split; [done|].
      rewrite app_nil_r, Hz. by replace (Z.of_nat (Z.to_nat (n - 1))) with (n - 1) by lia.
    + destruct (Hwrap 1 (i - 1)) as (ts & E & ->); [done|lia|lia|].
      replace (Z.to_nat (n - 1)) with (Z.to_nat (n - 1 - i) + S (Z.to_nat (i - 1)))%nat by lia.
      eexists. split; [exact E|].
      pose proof (seqZ_rotate 1 (n - 1) i) as Hrot. replace (1 + (n - 1) - 1 - i) with (n - 1 - i) in Hrot by lia.
      apply Hrot; lia.
  - destruct (Hwrap 0 i) as (ts & E & ->); [done|lia|lia|].
    replace (Z.to_nat (n - 0)) with (Z.to_nat (n - 1 - i) + S (Z.to_nat i))%nat by lia.
    eexists. split; [exact E|].
    pose proof (seqZ_rotate 0 n i) as Hrot. replace (0 + n - 1 - i) with (n - 1 - i) in Hrot by lia.
    rewrite Z.sub_0_r in Hrot. apply Hrot; lia.
Qed.

Lemma io_threads_in_turn_witness :
  ∃ ts, io_threads true 3 (set_ids (new_CommHelper [] "10.0.0.1" 4 []) 0 2) = Ok ts ∧ ts ≡ₚ seqZ 1 3.
Proof. apply (io_threads_in_turn (set_ids (new_CommHelper [] "10.0.0.1" 4 []) 0 2) true); cbn; lia. Defined.

(** With one I/O thread, the default of the deployment, a node announces its
    objects at the data port of thread 1, which does not exist: the announced
    address is not the one the node's only thread listens on. *)
Theorem single_io_thread_announces_unbound_port (h : CommHelper) (bk : BucketKey)
    (coord : Thread) (active : list string) (resp_address payload : string) :
  io_thread_count_ h = 1 → 0 ≤ io_thread_id_ h < 2 ^ 32 - 1 →
  bucket_coord_map_ h !! bucket_ bk = Some coord →
  wp (notify_put bk active resp_address payload) h (λ _ sends _, ∃ req addr,
    sends = [{| send_to := HandlerThread.notify_handler_connect_address coord; send_msg := MKeyNotifyRequest req |}] ∧
    knr_addresses req = [addr] ∧
    bka_ips addr = [CommHelperThread.data_access_server_connect_address {| thread_ip := ip_ h; thread_tid := 1 |}] ∧
    bka_ips addr ≠ [CommHelperThread.data_access_server_connect_address {| thread_ip := ip_ h; thread_tid := 0 |}]).
Proof.
  intros Hc Hi Hb. unfold notify_put, notify_put_base, get_notifying_thread. do 4 eff_step. rewrite Hb.
  rewrite decide_False by (intros E; discriminate E). eff_step. unfold get_request_id. do 5 eff_step. unfold get_data_server_addr.
  do 2 eff_step. apply wp_Ok. do 3 eexists. split; [apply get_io_thread_id_value; cbn; by rewrite Hc|].
  cbn [io_thread_count_ set_ids]. rewrite Hc, Z.mod_1_r, decide_True by done. repeat eff_step.
  unfold CommHelperThread.data_access_server_connect_address.
  eexists _, _. split_and!; [done|done|cbn; by rewrite <- service_address|cbn].
  rewrite service_address. intros E. apply (f_equal (λ l, default "" (head l))) in E. cbn -[connect_at] in E.
  unfold connect_at in E. apply append_inj_l in E. discriminate E.
Qed.

Lemma single_io_thread_announces_unbound_port_witness :
  let h := set_coords (new_CommHelper [] "10.0.0.1" 1 []) ∅ {["b" := {| thread_ip := "10.0.0.9"; thread_tid := 0 |}]} in
  wp (notify_put {| bucket_ := "b"; key_ := "k"; session_ := "0123456789abcdef" |} ["t"] "" "") h (λ _ sends _, ∃ req addr,
    sends = [{| send_to := HandlerThread.notify_handler_connect_address {| thread_ip := "10.0.0.9"; thread_tid := 0 |};
                send_msg := MKeyNotifyRequest req |}] ∧
    knr_addresses req = [addr] ∧
    bka_ips addr = [CommHelperThread.data_access_server_connect_address {| thread_ip := ip_ h; thread_tid := 1 |}] ∧
    bka_ips addr ≠ [CommHelperThread.data_access_server_connect_address {| thread_ip := ip_ h; thread_tid := 0 |}]).
Proof.
  intros h. apply (single_io_thread_announces_unbound_port h); [reflexivity|cbn; lia|vm_compute; reflexivity].
Defined.

(** Erasing a trigger: the first of the name goes, and without one the loop runs
    past the end of the vector. *)
Lemma erase_first_spec heap name ps :
  (∀ p, p ∈ ps → (p < length heap)%nat) →
  match erase_first heap name ps with
  | Ok ps' => ∃ l p r t, ps = l ++ p :: r ∧ ps' = l ++ r ∧ heap !! p = Some t ∧ trigger_name_ t = name ∧
      ∀ q u, q ∈ l → heap !! q = Some u → trigger_name_ u ≠ name
  | Throw e => e = Undefined ∧ ∀ q u, q ∈ ps → heap !! q = Some u → trigger_name_ u ≠ name
  end.
Proof.
  induction ps as [|p ps IH]; intros Hps; cbn; [split; [done|set_solver]|].
  destruct (lookup_lt_is_Some_2 heap p) as [t Ht]; [apply Hps; set_solver|].
  unfold vec_at. rewrite Ht. cbn. case_decide as Hn.
  - exists [], p, ps, t. split_and!; try done. set_solver.
  - specialize (IH ltac:(set_solver)). destruct (erase_first heap name ps) as [ps'|e]; cbn.
    + destruct IH as (l & q & r & u & -> & -> & Hu & Hun & Hl). exists (p :: l), q, r, u.
      split_and!; try done. intros q' u' [->|Hq']%elem_of_cons Hu'; [by simplify_eq|by eapply Hl].
    + destruct IH as [-> Hl]. split; [done|]. intros q' u' [->|Hq']%elem_of_cons Hu'; [by simplify_eq|by eapply Hl].
Qed.
