(* ===== verification/Cluster.v ===== *)
(** * A coordinator and a node together

    The coordinator keeps the triggers of every bucket ([trigger_op_handler.cpp],
    [app_register_handler.cpp]) and sends each change to the trigger update port of
    every node it knows; a node builds its own copy of the triggers from these
    messages (first branch of [try_recv_msg], [comm_helper.hpp]).  [ByTime] triggers
    stay at the coordinator.  This file composes the two: a coordinator thread, one
    node, and the queue of the socket between them.  [View] is what they share, the
    configurations of the triggers of each bucket; [applies] says what a message
    means for a view; the handlers of both sides refine it, and so the copies agree
    whenever no message is in flight. *)

From S2P Require Import Prelude CppString CppDouble Messages Common Triggers TriggerSpecs Threads Effects.
From S2P Require Import Coordinator Notify DemeterScheduler FuncCall CoordRun KvsClient CommHelper.

(** ** Views *)

(** The configurations of the triggers of each bucket, in order. *)
Abbreviation View := (string → list Trigger).

(** The triggers of a bucket at the coordinator that its nodes have too. *)
Definition view_coord (st : CoordState) : View := λ b,
  config_of <$> filter (λ t, type_ t ≠ BY_TIME) (at_default [] b (Coordinator.bucket_triggers_map st)).

(** The triggers of a bucket at a node, through its pointers. *)
Definition view_node (reg : Registry) : View := λ b,
  omap (λ p, config_of <$> trigger_heap reg !! p) (at_default [] b (CommHelper.bucket_triggers_map reg)).

(** Without the first trigger of a name. *)
Inductive first_removed (name : string) : list Trigger → list Trigger → Prop :=
| removed_here t l : trigger_name_ t = name → first_removed name (t :: l) l
| removed_later t l l' :
    trigger_name_ t ≠ name → first_removed name l l' → first_removed name (t :: l) (t :: l').

Section view.
Context `{UnorderedIter, PrimitiveMessages}.

(** The configuration of the trigger an entity of a message describes, if it is for
    the bucket. *)
Definition entity_config (b : string) (e : TriggerEntity) : option Trigger :=
  if decide (te_bucket_name e = b ∧ te_trigger_name e ≠ "") then
    t ← gen_trigger_pointer 0 (te_primitive_type e) (te_trigger_name e) (te_primitive e);
    Some (config_of (set_trigger_option t (i32 (te_trigger_option e))))
  else None.

Fixpoint removes (es : list TriggerEntity) (v v' : View) : Prop :=
  match es with
  | [] => ∀ b, v' b = v b
  | e :: es => ∃ v1,
      first_removed (te_trigger_name e) (v (te_bucket_name e)) (v1 (te_bucket_name e)) ∧
      (∀ b, b ≠ te_bucket_name e → v1 b = v b) ∧ removes es v1 v'
  end.

(** What an update message means: new triggers are added (type 0), sessions are
    cleared (1), triggers are removed (2). *)
Definition applies (m : UpdateCoordMsg) (v v' : View) : Prop :=
  if decide (ucm_msg_type m = 0) then
    Forall (λ d, dd_type d = DIRECT → dd_src_functions d ≠ []) (ucm_dependencies m) ∧
    ∀ b, v' b = v b ++ omap (entity_config b) (ucm_triggers m)
  else if decide (ucm_msg_type m = 2) then removes (ucm_triggers m) v v'
  else ∀ b, v' b = v b.

Fixpoint applies_all (ms : list UpdateCoordMsg) (v v' : View) : Prop :=
  match ms with
  | [] => ∀ b, v' b = v b
  | m :: ms => ∃ v1, applies m v v1 ∧ applies_all ms v1 v'
  end.

Lemma omap_ext_in {A B} (f g : A → option B) (l : list A) : (∀ a, a ∈ l → f a = g a) → omap f l = omap g l.
Proof. induction l as [|a l IH]; intros Hfg; cbn; [done|]. rewrite Hfg, IH by set_solver. done. Qed.

(** *** Views are compared pointwise *)
Lemma removes_ext es v1 v2 w1 w2 :
  (∀ b, v1 b = v2 b) → (∀ b, w1 b = w2 b) → removes es v1 w1 → removes es v2 w2.
Proof.
  revert v1 v2. induction es as [|e es IH]; intros v1 v2 Hv Hw; cbn.
  - intros Hr b. by rewrite <- Hw, Hr, Hv.
  - intros (u & Hf & Hne & Hr). exists u. rewrite <- Hv. split_and!; [done| |by eapply IH].
    intros b Hb. by rewrite <- Hv, Hne.
Qed.

Lemma applies_ext m v1 v2 w1 w2 :
  (∀ b, v1 b = v2 b) → (∀ b, w1 b = w2 b) → applies m v1 w1 → applies m v2 w2.
Proof.
  unfold applies. intros Hv Hw. case_decide; [|case_decide].
  - intros [Hd Ha]. split; [done|]. intros b. by rewrite <- Hw, <- Hv.
  - by apply removes_ext.
  - intros Ha b. by rewrite <- Hw, Ha.
Qed.

Lemma applies_all_ext ms v1 v2 w1 w2 :
  (∀ b, v1 b = v2 b) → (∀ b, w1 b = w2 b) → applies_all ms v1 w1 → applies_all ms v2 w2.
Proof.
  revert v1 v2. induction ms as [|m ms IH]; intros v1 v2 Hv Hw; cbn.
  - intros Ha b. by rewrite <- Hw, Ha.
  - intros (u & Hm & Hms). exists u. split; [by eapply applies_ext|by eapply IH].
Qed.

Lemma applies_all_app ms1 ms2 v v1 v2 :
  applies_all ms1 v v1 → applies_all ms2 v1 v2 → applies_all (ms1 ++ ms2) v v2.
Proof.
  revert v. induction ms1 as [|m ms1 IH]; intros v; cbn.
  - intros Hv. apply applies_all_ext; [done|done].
  - intros (u & Hm & H1) H2. eauto.
Qed.

(** ** The node *)

Lemma view_node_ext reg reg' :
  (∀ b, at_default [] b (CommHelper.bucket_triggers_map reg') = at_default [] b (CommHelper.bucket_triggers_map reg)) →
  (∀ p, config_of <$> trigger_heap reg' !! p = config_of <$> trigger_heap reg !! p) →
  ∀ b, view_node reg' b = view_node reg b.
Proof. intros Hb Hp b. unfold view_node. rewrite Hb. by apply omap_ext_in. Qed.

Lemma update_trigger_view reg f p :
  (∀ t, config_of (f t) = config_of t) → ∀ b, view_node (update_trigger reg f p) b = view_node reg b.
Proof.
  intros Hf. apply view_node_ext; [done|]. intros q. cbn. destruct (decide (p = q)) as [->|].
  - rewrite list_lookup_alter_eq. destruct (trigger_heap reg !! q); cbn; [by rewrite Hf|done].
  - by rewrite list_lookup_alter_ne.
Qed.

Lemma set_app_maps_view reg i f bk b : view_node (set_app_maps reg i f bk) b = view_node reg b.
Proof. done. Qed.

Lemma gen_config_now now now' type name s :
  config_of <$> gen_trigger_pointer now type name s = config_of <$> gen_trigger_pointer now' type name s.
Proof. by destruct type. Qed.

Lemma add_entity_view now app reg e b :
  CommHelper.registry_ok reg →
  view_node (add_entity now app reg e) b = view_node reg b ++ omap (entity_config b) [e].
Proof.
  intros [HB _]. unfold add_entity, entity_config. cbn [omap list_omap]. case_decide as Hn.
  { rewrite decide_False by tauto. by rewrite app_nil_r. }
  unfold install_trigger.
  pose proof (gen_config_now now 0 (te_primitive_type e) (te_trigger_name e) (te_primitive e)) as Hg.
  destruct (gen_trigger_pointer now _ _ _) as [t|], (gen_trigger_pointer 0 _ _ _) as [t0|]; try discriminate Hg.
  2:{ cbn. case_decide; by rewrite app_nil_r. }
  apply (inj Some) in Hg.
  assert (∀ u p, p ∈ at_default [] b (CommHelper.bucket_triggers_map reg) →
    (trigger_heap reg ++ [u]) !! p = trigger_heap reg !! p) as Hheap.
  { intros u p Hp%HB. by rewrite lookup_app_l. }
  unfold view_node. cbn. destruct (decide (te_bucket_name e = b)) as [<-|Hne].
  - rewrite decide_True by done. cbn. rewrite at_default_insert, omap_app. f_equal.
    + apply omap_ext_in. intros p Hp. by rewrite (Hheap _ _ Hp).
    + cbn. rewrite lookup_app_r, Nat.sub_diag by lia. cbn.
      rewrite trigger_set_rerun_config. f_equal. by apply config_of_set_option.
  - rewrite decide_False by tauto. rewrite app_nil_r, at_default_insert_ne by done.
    apply omap_ext_in. intros p Hp. by rewrite (Hheap _ _ Hp).
Qed.

Lemma add_entity_ok now app reg e : CommHelper.registry_ok reg → CommHelper.registry_ok (add_entity now app reg e).
Proof. intros Hok. unfold add_entity. case_decide; [done|]. by apply install_trigger_ok. Qed.

Lemma add_entities_view now app reg es b :
  CommHelper.registry_ok reg →
  view_node (foldl (add_entity now app) reg es) b = view_node reg b ++ omap (entity_config b) es.
Proof.
  revert reg. induction es as [|e es IH]; intros reg Hok; [cbn; by rewrite app_nil_r|].
  cbn [foldl]. rewrite IH by (by apply add_entity_ok). rewrite add_entity_view by done.
  by rewrite <- app_assoc, <- omap_app.
Qed.

Lemma add_dependencies_view app deps reg :
  Forall (λ d, dd_type d = DIRECT → dd_src_functions d ≠ []) deps →
  ∃ reg', foldM (add_dependency app) deps reg = Ok reg' ∧ trigger_heap reg' = trigger_heap reg ∧
    CommHelper.bucket_triggers_map reg' = CommHelper.bucket_triggers_map reg ∧
    func_trigger_timeout_map reg' = func_trigger_timeout_map reg.
Proof.
  intros Hdeps. revert reg. induction Hdeps as [|d deps Hd Hdeps IH]; intros reg; [by exists reg|].
  cbn [foldM]. unfold add_dependency at 1. case_decide as Hdir.
  - destruct (dd_src_functions d) as [|src srcs] eqn:Hsrc; [by destruct Hd|]. cbn.
    set (reg1 := foldl _ reg (dd_tgt_functions d)). destruct (IH reg1) as (reg' & Hf & Hh & Hb & Ht).
    exists reg'. rewrite Hf, Hh, Hb, Ht.
    assert (trigger_heap reg1 = trigger_heap reg ∧
            CommHelper.bucket_triggers_map reg1 = CommHelper.bucket_triggers_map reg ∧
            func_trigger_timeout_map reg1 = func_trigger_timeout_map reg) as (-> & -> & ->); [|done].
    unfold reg1. apply (foldl_ind (λ _ r, trigger_heap r = trigger_heap reg ∧
      CommHelper.bucket_triggers_map r = CommHelper.bucket_triggers_map reg ∧
      func_trigger_timeout_map r = func_trigger_timeout_map reg)); [done|]. done.
  - cbn. apply IH.
Qed.

Lemma erase_first_view heap name ps l' :
  (∀ p, p ∈ ps → (p < length heap)%nat) →
  first_removed name (omap (λ p, config_of <$> heap !! p) ps) l' →
  ∃ ps', erase_first heap name ps = Ok ps' ∧ omap (λ p, config_of <$> heap !! p) ps' = l'.
Proof.
  revert l'. induction ps as [|p ps IH]; intros l' Hps Hr; cbn in Hr; [by inversion Hr|].
  destruct (lookup_lt_is_Some_2 heap p) as [t Ht]; [apply Hps; set_solver|].
  cbn [erase_first]. unfold vec_at. rewrite Ht in *. cbn in *.
  inversion Hr as [? ? Hn|? ? l1 Hn Hl]; subst.
  - rewrite decide_True by done. eauto.
  - rewrite decide_False by done. destruct (IH l1) as (ps' & -> & <-); [set_solver|done|].
    cbn. eexists. split; [done|]. cbn. by rewrite Ht.
Qed.

Lemma delete_triggers_view es reg v :
  CommHelper.registry_ok reg → removes es (view_node reg) v →
  ∃ reg', foldM delete_trigger es reg = Ok reg' ∧ ∀ b, view_node reg' b = v b.
Proof.
  revert reg. induction es as [|e es IH]; intros reg Hok; cbn [removes foldM]; [intros Hv; eauto|].
  intros (v1 & Hf & Hne & Hr). destruct (delete_trigger reg e) as [reg1|] eqn:Hd.
  - pose proof (delete_trigger_ok _ _ _ Hok Hd) as Hok1. cbn. apply IH; [done|].
    eapply removes_ext; [|done|exact Hr]. intros b. unfold delete_trigger in Hd.
    apply erase_first_view in Hf as (ps' & Hps' & Hv1); [|by apply Hok].
    rewrite Hps' in Hd. injection Hd as <-. unfold view_node. cbn.
    destruct (decide (b = te_bucket_name e)) as [->|Hb].
    + by rewrite at_default_insert, Hv1.
    + rewrite at_default_insert_ne by done. by rewrite (Hne b Hb).
  - unfold delete_trigger in Hd. apply erase_first_view in Hf as (ps' & Hps' & _); [|by apply Hok].
    by rewrite Hps' in Hd.
Qed.

(** The handler of the node does what the message means, and does not fail. *)
Lemma handle_update_applies {E} now m (w : World (E := E)) v :
  CommHelper.registry_ok (w_registry w) → applies m (view_node (w_registry w)) v →
  ∃ w' o, handle_update now m w = Ok (w', o, tt) ∧ CommHelper.registry_ok (w_registry w') ∧
    ∀ b, view_node (w_registry w') b = v b.
Proof.
  intros Hok Ha.
  assert (∃ w' o, handle_update now m w = Ok (w', o, tt) ∧ ∀ b, view_node (w_registry w') b = v b)
    as (w' & o & Hw & Hv).
  2:{ exists w', o. split_and!; [done| |done]. exact (wlp_Ok _ _ _ _ _ _ (handle_update_ok now m w Hok) Hw). }
  unfold handle_update. cbv beta delta [mbind eff_bind gets]. unfold applies in Ha.
  case_decide; [|case_decide; [|case_decide]]; cbn.
  - destruct Ha as [Hd Ha]. unfold on_helper, zoom, modify. cbn.
    set (reg := foldl _ (w_registry w) (ucm_functions m)).
    assert (CommHelper.registry_ok reg ∧ ∀ b, view_node reg b = view_node (w_registry w) b) as [Hok1 Hv1].
    { unfold reg. apply (foldl_ind (λ _ r, CommHelper.registry_ok r ∧ ∀ b, view_node r b = view_node (w_registry w) b));
        done. }
    destruct (add_dependencies_view (ucm_app_name m) (ucm_dependencies m) reg Hd) as (reg' & Hdeps & Hh & Hb & Ht).
    unfold lift. rewrite Hdeps. cbn. do 2 eexists. split; [reflexivity|]. intros b. cbn.
    rewrite add_entities_view.
    + rewrite Ha, <- Hv1. f_equal. unfold view_node. by rewrite Hh, Hb.
    + unfold CommHelper.registry_ok. rewrite Hh, Hb, Ht. exact Hok1.
  - rewrite decide_False by lia. destruct (delete_triggers_view _ _ _ Hok Ha) as (reg' & Hd & Hv).
    unfold lift. rewrite Hd. cbn. eauto.
  - do 2 eexists. split; [reflexivity|]. intros b. cbn.
    rewrite Ha. apply (foldl_ind (λ _ r, view_node r b = view_node (w_registry w) b)); [done|].
    intros _ e r Hr. rewrite <- Hr. unfold clear_session.
    apply (foldl_ind (λ _ r', view_node r' b = view_node r b)).
    + apply view_node_ext; [|done]. intros b'. cbn. by rewrite at_default_touch.
    + intros _ p r' <-. apply update_trigger_view. intros t. case_decide; [apply trigger_clear_config|done].
  - cbn. eauto.
Qed.

End view.

(** ** The coordinator *)

(** The messages that reach the trigger update port of a node. *)
Definition update_to (ip : string) (s : Send) : option UpdateCoordMsg :=
  if decide (send_to s = trigger_update_address ip) then
    match send_msg s with MUpdateCoordMsg m => Some m | _ => None end
  else None.

Definition updates_to (ip : string) (sends : list Send) : list UpdateCoordMsg := omap (update_to ip) sends.

Definition known (ip : string) (st : CoordState) : Prop := is_Some (node_status_map st !! ip).

(** The operations after which the copies agree: a new trigger has a name; a deleted
    trigger is on the nodes, and the only one of its name in the bucket; a deleted
    bucket has no trigger on the nodes; a direct dependency has a source function. *)
Definition well_used (st : CoordState) (ev : CoordEvent) : Prop :=
  match ev with
  | TriggerEvent m =>
      match tor_operation_type m with
      | ADD_TRIGGER => tor_trigger_name m ≠ ""
      | DELETE_TRIGGER =>
          let named := filter (λ t, trigger_name_ t = tor_trigger_name m)
                         (at_default [] (tor_bucket_name m) (Coordinator.bucket_triggers_map st)) in
          (length named <= 1)%nat ∧ Forall (λ t, type_ t ≠ BY_TIME) named
      | _ => True
      end
  | BucketEvent m => bor_operation_type m = DELETE_BUCKET → view_coord st (bor_bucket_name m) = []
  | AppEvent m => Forall (λ d, dd_type d = DIRECT → dd_src_functions d ≠ []) (ar_dependencies m)
  | _ => True
  end.

Lemma trigger_update_address_inj ip ip' : trigger_update_address ip = trigger_update_address ip' → ip = ip'.
Proof.
  unfold trigger_update_address. intros E%append_inj_l. eapply append_inj_r; [exact E|].
  apply (f_equal size_of) in E. rewrite !size_of_app in E. unfold size_of in E. lia.
Qed.

Lemma updates_to_app ip s1 s2 : updates_to ip (s1 ++ s2) = updates_to ip s1 ++ updates_to ip s2.
Proof. apply omap_app. Qed.

Definition is_update (s : Send) : bool := match send_msg s with MUpdateCoordMsg _ => true | _ => false end.

Lemma updates_to_other ip s l : is_update s = false → updates_to ip (s :: l) = updates_to ip l.
Proof.
  unfold is_update. intros Hs. cbn. unfold update_to at 1. case_decide; [|done].
  by destruct (send_msg s).
Qed.

Lemma filter_all {A} (P : A → Prop) `{∀ x, Decision (P x)} (l : list A) :
  (∀ x, x ∈ l → P x) → filter P l = l.
Proof.
  induction l as [|x l IH]; intros Hl; [done|]. rewrite filter_cons_True by (apply Hl; set_solver).
  rewrite IH by set_solver. done.
Qed.

Section coordinator.
Context `{UnorderedIter, PrimitiveMessages, Rand}.
Context (conf : CoordConf) (demeter_config : DemeterSchedulerConfig) (ip : string).

Lemma updates_to_broadcast m msg : is_Some (m !! ip) → updates_to ip (broadcast m msg) = [msg].
Proof.
  intros [s Hs%map_iter_elem]. unfold broadcast. pose proof (map_iter_NoDup m) as Hnd.
  induction (map_iter m) as [|[ip' s'] l IH]; [set_solver|]. cbn in *. apply NoDup_cons in Hnd as [Hni Hnd].
  unfold update_to at 1. cbn. destruct (decide (ip' = ip)) as [->|Hne].
  - rewrite decide_True by done. f_equal.
    assert (∀ l : list (string * NodeStatus), ip ∉ l.*1 →
      updates_to ip (map (λ p, {| send_to := trigger_update_address p.1; send_msg := MUpdateCoordMsg msg |}) l) = [])
      as Hnone; [|by apply Hnone].
    clear. intros l. induction l as [|[ip' s'] l IH]; cbn; [done|]. intros Hni.
    unfold update_to at 1. cbn. rewrite decide_False; [apply IH; set_solver|].
    intros ->%trigger_update_address_inj. set_solver.
  - rewrite decide_False by (by intros ?%trigger_update_address_inj). apply IH; [|done]. set_solver.
Qed.

(** *** Adding and removing triggers *)

Lemma view_set_bucket st b ts b' :
  view_coord (set_triggers st (<[b := ts]> (Coordinator.bucket_triggers_map st))) b' =
    if decide (b = b') then config_of <$> filter (λ t, type_ t ≠ BY_TIME) ts else view_coord st b'.
Proof.
  unfold view_coord. cbn. case_decide as Hb; [subst; by rewrite at_default_insert|].
  by rewrite at_default_insert_ne.
Qed.

Lemma view_push st b t b' :
  view_coord (push_trigger b t st) b' =
    view_coord st b' ++ (if decide (b = b' ∧ type_ t ≠ BY_TIME) then [config_of t] else []).
Proof.
  unfold push_trigger. rewrite view_set_bucket. case_decide as Hb; [subst b'|].
  - unfold view_coord. rewrite filter_app, fmap_app. f_equal. destruct (decide (type_ t = BY_TIME)) as [E|E].
    + rewrite decide_False by tauto. by rewrite filter_cons_False by tauto.
    + rewrite decide_True by done. by rewrite filter_cons_True by done.
  - rewrite decide_False by tauto. by rewrite app_nil_r.
Qed.

(** An entity made from a trigger describes it. *)
Lemma entity_config_of b e t :
  trigger_wf t → te_trigger_name e = trigger_name_ t → te_primitive_type e = type_ t →
  te_primitive e = trigger_dump t → i32 (te_trigger_option e) = trigger_option_ t → trigger_name_ t ≠ "" →
  entity_config b e = if decide (te_bucket_name e = b) then Some (config_of t) else None.
Proof.
  intros Hwf Hn Hty Hp Ho Hne. unfold entity_config. rewrite Hn, Hty, Hp, Ho. case_decide as Hb.
  - rewrite decide_True by tauto. destruct (gen_dump_config 0 t Hwf) as (t' & -> & Hc & _). cbn. f_equal.
    apply (config_of_set_option _ _ (trigger_option_ t)) in Hc. rewrite Hc. by destruct t.
  - by rewrite decide_False by tauto.
Qed.

Lemma first_removed_filter name (ts : list Trigger) :
  let named := filter (λ t, trigger_name_ t = name) ts in
  name ∈ trigger_name_ <$> ts → (length named <= 1)%nat → Forall (λ t, type_ t ≠ BY_TIME) named →
  first_removed name (config_of <$> filter (λ t, type_ t ≠ BY_TIME) ts)
    (config_of <$> filter (λ t, type_ t ≠ BY_TIME) (filter (λ t, trigger_name_ t ≠ name) ts)).
Proof.
  cbn. induction ts as [|t ts IH]; [set_solver|]. cbn [fmap list_fmap]. intros Hin Hlen Hall.
  destruct (decide (trigger_name_ t = name)) as [Hn|Hn].
  - rewrite (filter_cons_False (λ t, trigger_name_ t ≠ name) t) by tauto. rewrite filter_cons_True in Hlen, Hall by done. cbn in Hlen.
    apply Forall_cons in Hall as [Ht _]. rewrite (filter_cons_True _ t) by done.
    rewrite (filter_all (λ t, trigger_name_ t ≠ name)); [by constructor|].
    intros t' Hin' Hn'. assert (t' ∈ filter (λ t, trigger_name_ t = name) ts) as Hf by (by apply list_elem_of_filter).
    destruct (filter _ ts); [set_solver|cbn in Hlen; lia].
  - rewrite (filter_cons_True (λ t, trigger_name_ t ≠ name) t) by done. rewrite filter_cons_False in Hlen, Hall by done.
    assert (name ∈ trigger_name_ <$> ts) as Hin' by set_solver.
    destruct (decide (type_ t = BY_TIME)) as [E|E].
    + rewrite !(filter_cons_False _ t) by tauto. by apply IH.
    + rewrite !(filter_cons_True _ t) by done. cbn. constructor; [done|by apply IH].
Qed.

Lemma trigger_op_applies now st m st' sends :
  known ip st → well_used st (TriggerEvent m) → trigger_op_handler conf now st m = Ok (st', sends) →
  known ip st' ∧ applies_all (updates_to ip sends) (view_coord st) (view_coord st').
Proof.
  intros Hk Hwu. unfold trigger_op_handler. intros ([[st1 err] msg] & Hop & [= <- <-])%bind_Ok.
  assert (node_status_map st1 = node_status_map st ∧ applies msg (view_coord st) (view_coord st1)) as [Hns Ha].
  2:{ unfold known. rewrite Hns. split; [done|]. rewrite updates_to_other by done.
      rewrite updates_to_broadcast by done. exists (view_coord st1). by split. }
  cbn in Hwu. destruct (tor_operation_type m).
  - destruct (Coordinator.bucket_app_map st !! tor_bucket_name m).
    2:{ injection Hop as <- _ <-. split; [done|]. unfold applies. cbn. split; [constructor|].
        intros b. by rewrite app_nil_r. }
    destruct (gen_trigger_pointer _ _ _ _) as [t|] eqn:Hgen; [|done]. injection Hop as <- _ <-. split; [done|].
    apply gen_wf in Hgen as (Hwf & Hty & Hname & _). unfold applies. cbn. split; [constructor|]. intros b.
    set (t1 := set_trigger_option t _).
    etransitivity; [exact (view_push st (tor_bucket_name m) t1 b)|]. f_equal.
    destruct (decide (type_ t1 = BY_TIME)) as [E|E]; [by rewrite !decide_False by tauto|].
    rewrite (decide_True (P := type_ t1 ≠ BY_TIME)) by done. cbn.
    rewrite (entity_config_of _ _ t1) by (first [exact Hwf | reflexivity | unfold t1; cbn; congruence]). cbn.
    destruct (decide (tor_bucket_name m = b)); [by rewrite decide_True|by rewrite decide_False by tauto].
  - destruct (Coordinator.bucket_app_map st !! tor_bucket_name m).
    2:{ injection Hop as <- _ <-. split; [done|]. unfold applies. cbn. split; [constructor|].
        intros b. by rewrite app_nil_r. }
    rewrite erase_triggers_filter in Hop. cbn in Hop. destruct Hwu as [Hlen Hall].
    case_bool_decide as Hin; injection Hop as <- _ <-; (split; [done|]); unfold applies; cbn.
    + eexists. split_and!; [| |done].
      * rewrite view_set_bucket, decide_True by done. by apply first_removed_filter.
      * intros b Hb. by rewrite view_set_bucket, decide_False.
    + split; [constructor|]. intros b. rewrite app_nil_r, view_set_bucket. case_decide as Hb; [|done].
      subst b. unfold view_coord. rewrite (filter_all (λ t, trigger_name_ t ≠ _)); [done|].
      intros t Ht Hn. apply Hin. rewrite <- Hn. by apply list_elem_of_fmap_2.
  - injection Hop as <- _ <-. split; [done|]. unfold applies. cbn. split; [constructor|].
    intros b. by rewrite app_nil_r.
Qed.

(** *** Applications *)

Lemma register_bucket_view app b st : view_coord (register_bucket app b st) = view_coord st.
Proof. done. Qed.

Lemma bucket_entity_config b b' : omap (entity_config b) [bucket_entity b'] = [].
Proof. cbn. unfold entity_config. by rewrite decide_False by (cbn; tauto). Qed.

(** A trigger of a dependency and the entity that describes it. *)
Lemma push_entity_view st b t type b' :
  trigger_wf t → type_ t = type → type ≠ BY_TIME → trigger_option_ t = 0 → trigger_name_ t ≠ "" →
  view_coord (push_trigger b t st) b' = view_coord st b' ++ omap (entity_config b') [trigger_entity b t type].
Proof.
  intros Hwf <- Hty Ho Hn. rewrite view_push. f_equal. cbn.
  rewrite (entity_config_of _ _ t) by (first [done | unfold trigger_entity; cbn; by rewrite Ho]). cbn.
  destruct (decide (b = b')); [by rewrite decide_True|by rewrite decide_False by tauto].
Qed.

Lemma register_dependency_view now app st deps es dep st' deps' es' :
  register_dependency now app (st, deps, es) dep = Ok (st', deps', es') →
  node_status_map st' = node_status_map st ∧
  deps' = deps ++ (if decide (dd_type dep = DIRECT) then [dep] else []) ∧
  ∃ new, es' = es ++ new ∧ ∀ b, view_coord st' b = view_coord st b ++ omap (entity_config b) new.
Proof.
  unfold register_dependency. case_decide as Hd.
  { intros [= <- <- <-]. split_and!; [done..|]. exists []. split; [by rewrite app_nil_r|].
    intros b. cbn. by rewrite app_nil_r. }
  rewrite app_nil_r. intros (tgt & _ & Hrest)%bind_Ok.
  assert (∀ st1, view_coord st1 = view_coord st → ∀ b, view_coord st1 b =
    view_coord st b ++ omap (entity_config b) [bucket_entity ("b_" +:+ tgt)]) as Hbucket.
  { intros st1 -> b. by rewrite bucket_entity_config, app_nil_r. }
  destruct (dd_type dep); try (injection Hrest as <- <- <-; split_and!; [done..|];
    eexists; split; [reflexivity|]; by apply Hbucket).
  - injection Hrest as <- <- <-. split_and!; [done..|]. eexists. split; [reflexivity|]. intros b.
    by apply (push_entity_view (register_bucket app _ st)).
  - repeat (apply bind_Ok in Hrest as (? & _ & Hrest)). injection Hrest as <- <- <-. split_and!; [done..|].
    eexists. split; [reflexivity|]. intros b.
    apply (push_entity_view (register_bucket app _ st)); try done. split_and!; [done|apply u32_bound..].
  - apply bind_Ok in Hrest as (w & _ & Hrest). injection Hrest as <- <- <-. split_and!; [done..|].
    eexists. split; [reflexivity|]. intros b. rewrite bucket_entity_config. etransitivity; [apply view_push|].
    by rewrite decide_False by (cbn; tauto).
Qed.

Lemma register_dependencies_view now app ds st deps es st' deps' es' :
  foldM (register_dependency now app) ds (st, deps, es) = Ok (st', deps', es') →
  node_status_map st' = node_status_map st ∧
  deps' = deps ++ filter (λ d, dd_type d = DIRECT) ds ∧
  ∃ new, es' = es ++ new ∧ ∀ b, view_coord st' b = view_coord st b ++ omap (entity_config b) new.
Proof.
  revert st deps es. induction ds as [|d ds IH]; intros st deps es; cbn [foldM].
  { intros [= <- <- <-]. split_and!; [done|by rewrite app_nil_r|]. exists []. split; [by rewrite app_nil_r|].
    intros b. cbn. by rewrite app_nil_r. }
  intros ([[st1 deps1] es1] & (Hn1 & -> & new1 & -> & Hv1)%register_dependency_view & Hrest)%bind_Ok.
  apply IH in Hrest as (Hn & -> & new & -> & Hv). split_and!; [congruence| |].
  - rewrite <- app_assoc. f_equal. case_decide; [by rewrite filter_cons_True|by rewrite filter_cons_False].
  - exists (new1 ++ new). split; [by rewrite app_assoc|]. intros b. by rewrite Hv, Hv1, omap_app, app_assoc.
Qed.

Lemma app_register_applies now st m st' sends :
  known ip st → well_used st (AppEvent m) → app_register_handler conf now st m = Ok (st', sends) →
  known ip st' ∧ applies_all (updates_to ip sends) (view_coord st) (view_coord st').
Proof.
  intros Hk Hwu. unfold app_register_handler.
  intros ([[st1 deps] es] & (Hn & -> & new & -> & Hv)%register_dependencies_view & [= <- <-])%bind_Ok.
  unfold known. rewrite Hn. split; [done|]. rewrite updates_to_broadcast by done.
  exists (view_coord st1). split; [|done]. unfold applies. cbn. split; [|done].
  cbn in Hwu. rewrite Forall_forall in Hwu |- *. intros d [_ Hd]%list_elem_of_filter. auto.
Qed.

Lemma bucket_op_applies st m st' sends :
  known ip st → well_used st (BucketEvent m) → bucket_op_handler st m = (st', sends) →
  known ip st' ∧ applies_all (updates_to ip sends) (view_coord st) (view_coord st').
Proof.
  intros Hk Hwu. unfold bucket_op_handler.
  match goal with |- context [let '(_, _) := ?x in _] => destruct x as [st1 err] eqn:Hop end.
  intros [= <- <-]. rewrite updates_to_other by done. cbn in Hwu.
  destruct (bor_operation_type m).
  - destruct (Coordinator.bucket_app_map st !! _); injection Hop as <- _; by split.
  - destruct (Coordinator.bucket_app_map st !! _); injection Hop as <- _; [|by split]. split; [done|].
    intros b. unfold view_coord. cbn. unfold at_default. destruct (decide (bor_bucket_name m = b)) as [<-|].
    + rewrite lookup_delete_eq. symmetry. by apply Hwu.
    + by rewrite lookup_delete_ne.
  - injection Hop as <- _. by split.
Qed.

(** *** Objects and calls leave the triggers alone *)

(** The same triggers, except for the objects and statuses they have seen, and the
    same or more nodes. *)
Definition quiet (st st' : CoordState) : Prop :=
  (known ip st → known ip st') ∧ ∀ b, view_coord st' b = view_coord st b.

#[local] Instance quiet_preorder : PreOrder quiet.
Proof.
  split; [by intros st|]. intros s1 s2 s3 [Hk1 Hv1] [Hk2 Hv2]. split; [tauto|]. intros b. by rewrite Hv2.
Qed.

Lemma known_insert (m : gmap string NodeStatus) k s : is_Some (m !! ip) → is_Some (<[k := s]> m !! ip).
Proof. destruct (decide (k = ip)) as [->|]; [by rewrite lookup_insert_eq; eauto|by rewrite lookup_insert_ne]. Qed.

Lemma known_touch (m : gmap string NodeStatus) k s : is_Some (m !! ip) → is_Some (touch s k m !! ip).
Proof. unfold touch. destruct (m !! k); [done|]. apply known_insert. Qed.

Lemma pick_worker_known m data : is_Some (m !! ip) → is_Some ((pick_worker m data).1 !! ip).
Proof.
  intros Hm. unfold pick_worker. destruct (pick_data_node m data) as [[m' ?] ?] eqn:Hp.
  assert (is_Some (m' !! ip)); [|by case_decide].
  change m' with (m', z, s).1.1. rewrite <- Hp. unfold pick_data_node.
  apply (foldl_ind (λ _ (acc : gmap string NodeStatus * Z * string), is_Some (acc.1.1 !! ip))); [done|].
  intros _ ip' [[m1 mx] w] Hm1. case_decide; by apply known_touch.
Qed.

Lemma same_triggers_view st st' :
  Coordinator.bucket_triggers_map st' = Coordinator.bucket_triggers_map st → ∀ b, view_coord st' b = view_coord st b.
Proof. unfold view_coord. by intros ->. Qed.

Lemma fire_action_quiet resp bk flag st action st' sends :
  is_Some (Coordinator.bucket_app_map st !! bucket_ bk) →
  fire_action conf resp bk flag st action = Ok (st', sends) → quiet st st' ∧ Forall (λ s, is_update s = false) sends.
Proof.
  intros Hb Hf. pose proof (fire_action_frame _ _ _ _ _ _ _ _ Hb Hf) as (_ & _ & Ht & _).
  revert Hf. unfold fire_action.
  intros ([[st1 args] nodes] & Hargs & Hrest)%bind_Ok.
  assert (node_status_map st1 = node_status_map st) as Hn.
  { destruct (val_to_batch _ _ _); [by injection Hargs as <- _ _|].
    by apply key_arguments_frame in Hargs as (_ & Hn & _). }
  pose proof (pick_worker_known (node_status_map st1) nodes) as Hw.
  destruct (pick_worker _ _) as [nodes' worker]. cbn in Hw. rewrite Hn in Hw.
  assert (known ip st → known ip st') as Hk.
  { revert Hrest. case_decide; [intros [= <- _]; exact Hw|]. destruct (rand_r _). intros (? & _ & [= <- _])%bind_Ok Hk.
    unfold known, take_executor. cbn. apply known_insert. by apply Hw. }
  split.
  - split; [done|]. by apply same_triggers_view.
  - revert Hrest. case_decide; [by intros [= _ <-]|]. destruct (rand_r _).
    intros (? & _ & [= _ <-])%bind_Ok. by repeat constructor.
Qed.

Lemma fire_actions_quiet resp bk flag st actions st' sends :
  is_Some (Coordinator.bucket_app_map st !! bucket_ bk) →
  fire_actions conf resp bk flag st actions = Ok (st', sends) → quiet st st' ∧ Forall (λ s, is_update s = false) sends.
Proof.
  revert st st' sends. induction actions as [|a actions IH]; intros st st' sends Hb; cbn; [by intros [= <- <-]|].
  intros ([st1 s1] & H1' & ([st2 s2] & H2' & [= <- <-])%bind_Ok)%bind_Ok.
  pose proof (fire_action_frame _ _ _ _ _ _ _ _ Hb H1') as [Ha _].
  apply fire_action_quiet in H1' as [Hq1 Hs1]; [|done]. apply IH in H2' as [Hq2 Hs2]; [|by rewrite Ha].
  split; [by etransitivity|]. by apply Forall_app.
Qed.

Lemma fire_triggers_quiet now resp active bk st ts1 ts2 st' sends names :
  CoordRun.registry_ok st → at_default [] (bucket_ bk) (Coordinator.bucket_triggers_map st) = ts1 ++ ts2 →
  fire_triggers conf now resp active bk st ts1 ts2 = Ok (st', sends, names) →
  quiet st st' ∧ Forall (λ s, is_update s = false) sends.
Proof.
  revert st ts1 st' sends names. induction ts2 as [|t ts2 IH]; intros st ts1 st' sends names Hok Hts; cbn;
    [by intros [= <- <- _]|].
  pose proof (trigger_action_config now t bk) as Hc. destruct (trigger_action now t bk) as [t' actions]. cbn in Hc.
  set (st1 := set_triggers st _).
  assert (same_registry st st1) as Hsame.
  { split_and!; [done..|]. intros b. cbn. destruct (decide (b = bucket_ bk)) as [->|].
    - rewrite at_default_insert, Hts. by destruct ts1.
    - by rewrite at_default_insert_ne. }
  pose proof (same_registry_ok _ _ Hsame Hok) as Hok1.
  assert (quiet st st1) as Hq1.
  { split; [done|]. intros b. unfold st1. rewrite view_set_bucket. case_decide as Hb; [subst b|done].
    unfold view_coord. rewrite Hts, !filter_app, !fmap_app. f_equal.
    assert (type_ t' = type_ t) as Hty by (by injection Hc).
    destruct (decide (type_ t = BY_TIME)) as [E|E].
    - by rewrite !filter_cons_False by (rewrite ?Hty; tauto).
    - rewrite !filter_cons_True by (by rewrite ?Hty). cbn. by rewrite Hc. }
  assert (is_Some (Coordinator.bucket_app_map st1 !! bucket_ bk)) as Hb.
  { apply Hok. rewrite Hts. by destruct ts1. }
  assert (at_default [] (bucket_ bk) (Coordinator.bucket_triggers_map st1) = (ts1 ++ [t']) ++ ts2) as Hts1
    by (cbn; by rewrite at_default_insert, <- app_assoc).
  case_decide.
  - intros Hrec. apply IH in Hrec as [Hq Hs]; [|done..]. split; [by etransitivity|done].
  - intros ([st2 s1] & Hact & ([[st3 s2] names'] & Hrec & [= <- <- _])%bind_Ok)%bind_Ok.
    pose proof (fire_actions_frame _ _ _ _ _ _ _ _ Hb Hact) as Hf.
    apply fire_actions_quiet in Hact as [Hq2 Hs1]; [|done].
    apply IH in Hrec as [Hq3 Hs2].
    + split; [by do 2 (etransitivity; [done|])|]. by apply Forall_app.
    + eapply same_registry_ok; [by apply action_frame_registry|done].
    + destruct Hf as (_ & _ & -> & _). done.
Qed.

Lemma updates_to_none sends : Forall (λ s, is_update s = false) sends → updates_to ip sends = [].
Proof. induction 1 as [|s sends Hs _ IH]; [done|]. by rewrite updates_to_other. Qed.

Lemma sync_nodes_clear bk st names :
  Forall (λ m, ucm_msg_type m = 1) (updates_to ip (sync_nodes bk st names)).
Proof.
  unfold sync_nodes. destruct names as [|n names]; [constructor|].
  induction (set_iter _) as [|ip' ips IH]; [constructor|]. cbn in *. unfold update_to at 1. cbn.
  case_decide; [by constructor|done].
Qed.

Lemma notify_loop_quiet now resp active st addrs st' sends :
  CoordRun.registry_ok st → notify_loop conf now resp active st addrs = Ok (st', sends) →
  quiet st st' ∧ Forall (λ m, ucm_msg_type m = 1) (updates_to ip sends).
Proof.
  revert st st' sends. induction addrs as [|a addrs IH]; intros st st' sends Hok; cbn;
    [by intros [= <- <-]; split; [|constructor]|].
  intros (addr & _ & (rec & Hrec & Hrest)%bind_Ok)%bind_Ok.
  destruct rec as [st1|]; [|by injection Hrest as <- <-; split; [|constructor]].
  assert (quiet st st1) as Hq1.
  { revert Hrec. unfold record_object.
    case_decide; [|destruct (Coordinator.bucket_app_map st !! _); [|done]]; by intros (? & _ & [= <-])%bind_Ok. }
  apply record_object_registry in Hrec as Hr1.
  set (st2 := set_triggers st1 _) in Hrest.
  assert (same_registry st st2) as Hr2.
  { etransitivity; [exact Hr1|]. split_and!; [done..|]. intros b. cbn. by rewrite at_default_touch. }
  assert (quiet st st2) as Hq2.
  { etransitivity; [exact Hq1|]. split; [done|]. intros b. unfold view_coord. cbn. by rewrite at_default_touch. }
  pose proof (same_registry_ok _ _ Hr2 Hok) as Hok2.
  apply bind_Ok in Hrest as ([[st3 s1] names] & Hfire & ([st4 s2] & Hloop & [= <- <-])%bind_Ok).
  apply fire_triggers_frame in Hfire as Hf; [|done|by cbn; rewrite at_default_touch]. destruct Hf as [Hr3 _].
  apply fire_triggers_quiet in Hfire as [Hq3 Hs1]; [|done|by cbn; rewrite at_default_touch].
  apply IH in Hloop as [Hq4 Hs2]; [|destruct names; exact (same_registry_ok _ _ Hr3 Hok2)].
  split.
  - etransitivity; [exact Hq2|]. etransitivity; [exact Hq3|]. by destruct names.
  - rewrite !updates_to_app, updates_to_none, app_nil_l by done. apply Forall_app. split; [|done]. apply sync_nodes_clear.
Qed.

Lemma demeter_known call source m seed calls m' seed' :
  demeter_schedule_function_call call source m demeter_config seed = Ok (calls, m', seed') →
  is_Some (m !! ip) → is_Some (m' !! ip).
Proof.
  unfold demeter_schedule_function_call. case_decide; [by intros [= _ <- _]|].
  intros (ss & Hloop & [= _ <- _])%bind_Ok Hm.
  apply (foldM_ind (λ _ ss, is_Some (ss_nodes ss !! ip))) in Hloop; [done..|].
  intros _ req s1 s2 Hs1. unfold schedule_request. intros ([n sd] & _ & [= <-])%bind_Ok.
  case_decide; [|done]. cbn. unfold reserve_executor, take_executor.
  case_decide; [by apply known_insert|by apply known_touch].
Qed.

Lemma send_calls_quiet io seed msgs sends seed' :
  send_calls io seed msgs = Ok (sends, seed') → Forall (λ s, is_update s = false) sends.
Proof.
  revert seed sends. induction msgs as [|[n call] msgs IH]; intros seed sends; cbn; [by intros [= <- _]|].
  destruct (rand_r seed) as [r seed1].
  intros (tid & _ & ([sends1 seed2] & Hrec & [= <- ->])%bind_Ok)%bind_Ok. constructor; [done|by eapply IH].
Qed.

Lemma func_call_quiet st m st' sends :
  func_call_handler conf demeter_config st m = Ok (st', sends) → quiet st st' ∧ updates_to ip sends = [].
Proof.
  unfold func_call_handler. destruct (with_session m (seed st)) as [call sd].
  intros ([calls st1] & H1' & ([calls2 st2] & H2' & Hrest)%bind_Ok)%bind_Ok.
  assert (quiet st st1) as Hq1.
  { destruct (enabled_ demeter_config); [|by injection H1' as _ <-].
    apply bind_Ok in H1' as ([[c m1] sd1] & Hd & [= _ <-]). split; [|done]. intros Hk.
    by eapply demeter_known. }
  assert (quiet st1 st2) as Hq2.
  { destruct (decide (size calls ≠ 0%nat)); [by injection H2' as _ <-|].
    destruct (decide (1 < length (fc_requests call))%nat).
    - by apply bind_Ok in H2' as (? & _ & [= _ <-]).
    - destruct (single_schedule _ _ _). by apply bind_Ok in H2' as (? & _ & [= _ <-]). }
  assert (quiet st st2) as Hq by (etransitivity; [exact Hq1|exact Hq2]).
  case_decide.
  - injection Hrest as <- <-. split; [done|]. destruct (decide (fc_resp_address call ≠ "")); [by rewrite updates_to_other|done].
  - apply bind_Ok in Hrest as ([sends' sd'] & Hs%send_calls_quiet & [= <- <-]). split; [done|]. by apply updates_to_none.
Qed.

(** *** Every event *)

Lemma applies_all_clear ms v v' :
  Forall (λ m, ucm_msg_type m = 1) ms → (∀ b, v' b = v b) → applies_all ms v v'.
Proof.
  intros Hms. revert v. induction Hms as [|m ms Hm _ IH]; intros v Hv; [done|]. exists v. split; [|by apply IH].
  unfold applies. by rewrite Hm.
Qed.

(** The messages of an event tell the node what the coordinator did. *)
Lemma coord_step_applies st now ev st' sends :
  CoordRun.registry_ok st → known ip st → well_used st ev →
  coord_step conf demeter_config st (now, ev) = Ok (st', sends) →
  known ip st' ∧ applies_all (updates_to ip sends) (view_coord st) (view_coord st').
Proof.
  intros Hok Hk Hwu Hstep.
  assert (∀ s, quiet st st' → updates_to ip s = [] → known ip st' ∧
    applies_all (updates_to ip s) (view_coord st) (view_coord st')) as Hquiet.
  { intros s [Hq Hv] ->. split; [by apply Hq|done]. }
  destruct ev; cbn in Hstep.
  - apply notify_loop_quiet in Hstep as [[Hq Hv] Hc]; [|done]. split; [by apply Hq|]. by apply applies_all_clear.
  - injection Hstep as <- <-. apply Hquiet; [done|]. unfold query_handler. destruct (query_loop _ _).
    by rewrite updates_to_other.
  - injection Hstep as Hstep. by eapply bucket_op_applies.
  - by eapply trigger_op_applies.
  - injection Hstep as <- <-. apply Hquiet; [|done]. unfold status_handler.
    destruct (node_status_map st !! _); (split; [intros; by apply known_insert|done]).
  - injection Hstep as <- <-. by apply Hquiet.
  - by eapply app_register_applies.
  - apply func_call_quiet in Hstep as [Hq Hu]. by apply Hquiet.
  - apply func_call_quiet in Hstep as [Hq Hu]. by apply Hquiet.
Qed.

End coordinator.

(** ** The cluster *)

(** What the scheduler of the node calls on a trigger ([check_trigger] and
    [notify_rerun] of the local scheduler). *)
Inductive TriggerCall :=
| CallAction (now : Z) (bucket_key : BucketKey)
| CallNotify (func_name session_id : string) (func_args : list string) (arg_flag : Z).

Inductive ClusterEvent :=
| CoordHandles (now : Z) (ev : CoordEvent)
| NodeReceives (now : Z)
| NodeCalls (p : TriggerPointer) (call : TriggerCall).

Section cluster.
Context `{UnorderedIter, PrimitiveMessages, Rand} {E : Type}.
Context (conf : CoordConf) (demeter_config : DemeterSchedulerConfig) (ip : string).

(** The coordinator, what is in flight to the update port of the node, the node. *)
Record Cluster := {
  coord : CoordState;
  in_flight : list UpdateCoordMsg;
  node : World (E := E) }.

Definition call_trigger (call : TriggerCall) (t : Trigger) : Trigger :=
  match call with
  | CallAction now bucket_key => (trigger_action now t bucket_key).1
  | CallNotify func_name session_id func_args arg_flag => trigger_notify t func_name session_id func_args arg_flag
  end.

Definition cluster_step (c : Cluster) (ev : ClusterEvent) : result Cluster :=
  match ev with
  | CoordHandles now ev =>
      '(st, sends) ← coord_step conf demeter_config (coord c) (now, ev);
      Ok {| coord := st; in_flight := in_flight c ++ updates_to ip sends; node := node c |}
  | NodeReceives now =>
      match in_flight c with
      | [] => Ok c                             (* the poll reports nothing *)
      | m :: ms =>
          '(w, _, _) ← handle_update now m (node c);
          Ok {| coord := coord c; in_flight := ms; node := w |}
      end
  | NodeCalls p call =>
      let w := node c in
      Ok {| coord := coord c; in_flight := in_flight c;
            node := {| w_helper := w_helper w;
                       w_registry := update_trigger (w_registry w) (call_trigger call) p;
                       w_env := w_env w |} |}
  end.

(** A node the coordinator knows, neither having a trigger yet. *)
Definition start (c : Cluster) : Prop :=
  CoordRun.registry_ok (coord c) ∧ known ip (coord c) ∧
  Coordinator.bucket_triggers_map (coord c) = ∅ ∧ in_flight c = [] ∧ w_registry (node c) = empty_Registry.

Definition admissible (c : Cluster) (ev : ClusterEvent) : Prop :=
  match ev with CoordHandles _ ev => well_used (coord c) ev | _ => True end.

Inductive reachable : Cluster → Prop :=
| reachable_start c : start c → reachable c
| reachable_step c ev c' : reachable c → admissible c ev → cluster_step c ev = Ok c' → reachable c'.

(** A sequence of events. *)
Definition cluster_run (evs : list ClusterEvent) (c : Cluster) : result Cluster := foldM cluster_step evs c.

Fixpoint admissible_run (evs : list ClusterEvent) (c : Cluster) : Prop :=
  match evs with
  | [] => True
  | ev :: evs => admissible c ev ∧ match cluster_step c ev with Ok c' => admissible_run evs c' | Throw _ => True end
  end.

Lemma reachable_run evs c c' : reachable c → admissible_run evs c → cluster_run evs c = Ok c' → reachable c'.
Proof.
  unfold cluster_run. revert c. induction evs as [|ev evs IH]; intros c Hr; [by intros _ [= <-]|].
  cbn [admissible_run foldM]. intros [Hev Hevs]. destruct (cluster_step c ev) as [c1|] eqn:Hs; [|done].
  apply IH; [|done]. by eapply reachable_step.
Qed.

(** The messages in flight make the node's triggers into the coordinator's. *)
Definition synced (c : Cluster) : Prop :=
  CoordRun.registry_ok (coord c) ∧ known ip (coord c) ∧ CommHelper.registry_ok (w_registry (node c)) ∧
  applies_all (in_flight c) (view_node (w_registry (node c))) (view_coord (coord c)).

Lemma start_synced c : start c → synced c.
Proof.
  intros (Hok & Hk & Ht & Hq & Hr). unfold synced. rewrite Hr. split_and!; [done..|apply empty_Registry_ok|].
  rewrite Hq. intros b. unfold view_coord, view_node, at_default. cbn. by rewrite Ht, !lookup_empty.
Qed.

(** With a message in flight the node can take it, and stays in step. *)
Lemma receive_synced c now m ms :
  synced c → in_flight c = m :: ms → ∃ c', cluster_step c (NodeReceives now) = Ok c' ∧ synced c' ∧ in_flight c' = ms.
Proof.
  intros (Hok & Hk & Hr & Ha) Hq. rewrite Hq in Ha. destruct Ha as (v & Hm & Hms).
  destruct (handle_update_applies now m (node c) v Hr Hm) as (w & o & Hw & Hr' & Hv).
  cbn. rewrite Hq, Hw. cbn. eexists. split_and!; [reflexivity| |done]. split_and!; [done..|].
  eapply applies_all_ext; [|done|exact Hms]. intros b. by rewrite Hv.
Qed.

Lemma step_synced c ev c' :
  synced c → admissible c ev → cluster_step c ev = Ok c' → synced c'.
Proof.
  intros Hs Hwu. destruct ev as [now ev|now|p call].
  - destruct Hs as (Hok & Hk & Hr & Ha). cbn [cluster_step].
    intros ([st sends] & Hstep & [= <-])%bind_Ok. unfold synced. cbn.
    destruct (coord_step_keeps _ _ _ _ _ _ Hok Hstep) as [Hok' _].
    destruct (coord_step_applies _ _ _ _ _ _ _ _ Hok Hk Hwu Hstep) as [Hk' Hu].
    split_and!; [done..|]. by eapply applies_all_app.
  - destruct (in_flight c) as [|m ms] eqn:Hq; [cbn; rewrite Hq; by intros [= <-]|].
    destruct (receive_synced c now m ms Hs Hq) as (c1 & -> & Hs1 & _). by intros [= <-].
  - destruct Hs as (Hok & Hk & Hr & Ha). cbn. intros [= <-]. unfold synced. cbn. split_and!; [done..| |].
    + by apply update_trigger_ok.
    + eapply applies_all_ext; [|done|exact Ha]. intros b. symmetry. apply update_trigger_view. intros t.
      destruct call; [apply trigger_action_config|apply trigger_notify_config].
Qed.

Lemma reachable_synced c : reachable c → synced c.
Proof. induction 1; [by apply start_synced|by eapply step_synced]. Qed.

End cluster.

(** ** Examples

    A coordinator that knows the node [10.0.0.1], and what the operations that are not
    [well_used] lead to. *)
Module Demo.

#[local] Existing Instances sorted_iter bits_primitive_messages lcg_rand.

Definition conf : CoordConf := {| private_ip := "10.0.0.9"; thread_id := 0; io_thread_num := 1 |}.

Definition joins : ClusterEvent :=
  CoordHandles 0 (StatusEvent {| usm_ip := "10.0.0.1"; usm_avail_executors := 4; usm_functions := [] |}).

Definition bucket (op : BucketOperationType) : ClusterEvent :=
  CoordHandles 0 (BucketEvent {| bor_operation_type := op; bor_app_name := "app"; bor_bucket_name := "b";
    bor_request_id := "1"; bor_response_address := "tcp://10.0.0.5:5000" |}).

Definition trigger (op : TriggerOperationType) (name : string) (type : PrimitiveType) : ClusterEvent :=
  CoordHandles 0 (TriggerEvent {| tor_operation_type := op; tor_app_name := "app"; tor_bucket_name := "b";
    tor_trigger_name := name; tor_trigger_option := 0; tor_primitive_type := type;
    tor_primitive := SerializeToString {| bsp_function := "sum"; bsp_key_set := ["x"; "y"] |};
    tor_request_id := "2"; tor_response_address := "tcp://10.0.0.5:5000"; tor_hints := [] |}).

Definition c0 : Cluster (E := unit) := {|
  coord := initial_CoordState 1; in_flight := [];
  node := {| w_helper := new_CommHelper [] "10.0.0.1" 1 []; w_registry := empty_Registry; w_env := tt |} |}.

(** The names of the triggers of the bucket [b] on the two sides. *)
Definition names_after (evs : list ClusterEvent) : result (list string * list string) :=
  c ← cluster_run conf default_config "10.0.0.1" evs c0;
  Ok (trigger_name_ <$> view_coord (coord c) "b", trigger_name_ <$> view_node (w_registry (node c)) "b").

Definition one_trigger : list ClusterEvent :=
  [joins; bucket CREATE_BUCKET; trigger ADD_TRIGGER "t" BY_SET; NodeReceives 1].

Example agree : names_after one_trigger = Ok (["t"], ["t"]).
Proof. vm_compute. reflexivity. Qed.

(** A node that joins later never gets the triggers that exist already. *)
Example late_node :
  names_after [bucket CREATE_BUCKET; trigger ADD_TRIGGER "t" BY_SET; joins; NodeReceives 1] = Ok (["t"], []).
Proof. vm_compute. reflexivity. Qed.

(** A name used twice: the coordinator erases both triggers, the node the first. *)
Example same_name_twice :
  names_after (one_trigger ++ [trigger ADD_TRIGGER "t" BY_SET; NodeReceives 1;
                               trigger DELETE_TRIGGER "t" BY_SET; NodeReceives 1]) = Ok ([], ["t"]).
Proof. vm_compute. reflexivity. Qed.

(** Deleting a bucket is not announced: the node keeps its triggers. *)
Example bucket_deleted :
  names_after (one_trigger ++ [bucket DELETE_BUCKET; NodeReceives 1]) = Ok ([], ["t"]).
Proof. vm_compute. reflexivity. Qed.

(** Deleting a [ByTime] trigger, which no node has, sends the node's search past the
    end of its vector. *)
Example by_time_deleted :
  names_after (one_trigger ++ [trigger ADD_TRIGGER "w" BY_TIME; NodeReceives 1;
                               trigger DELETE_TRIGGER "w" BY_TIME; NodeReceives 1]) = Throw Undefined.
Proof. vm_compute. reflexivity. Qed.

(** An unknown primitive type: the coordinator reads the type of a null pointer. *)
Example unknown_primitive :
  names_after (one_trigger ++ [trigger ADD_TRIGGER "u" (PrimitiveType_other 9)]) = Throw Undefined.
Proof. vm_compute. reflexivity. Qed.

(** A [well_used] sequence. *)
Definition c1 : Cluster (E := unit) := {|
  coord := status_handler 0 (initial_CoordState 1)
    {| usm_ip := "10.0.0.1"; usm_avail_executors := 4; usm_functions := [] |};
  in_flight := []; node := node c0 |}.

Definition evs : list ClusterEvent :=
  [bucket CREATE_BUCKET; trigger ADD_TRIGGER "t" BY_SET; NodeReceives 1; trigger ADD_TRIGGER "u" BY_SET;
   NodeReceives 1; trigger DELETE_TRIGGER "t" BY_SET; NodeReceives 1].

Definition deletes : result Cluster := cluster_run conf default_config "10.0.0.1" evs c1.

Lemma deletes_ok :
  match deletes with
  | Ok c => trigger_name_ <$> view_coord (coord c) "b" = ["u"] ∧ in_flight c = []
  | Throw _ => False
  end.
Proof. vm_compute. by split. Qed.

Lemma c1_start : start "10.0.0.1" c1.
Proof.
  split_and!; [|vm_compute; eauto|reflexivity..].
  split; intros b; vm_compute; [discriminate|by intros []].
Qed.

Lemma deletes_admissible : admissible_run conf default_config "10.0.0.1" evs c1.
Proof. vm_compute. repeat split; try discriminate; try lia. repeat constructor. discriminate. Qed.

Lemma deletes_reachable c : deletes = Ok c → reachable conf default_config "10.0.0.1" c.
Proof. apply reachable_run; [apply reachable_start, c1_start|apply deletes_admissible]. Qed.

End Demo.

(** ** Properties *)

(** C3: whatever messages a coordinator handles, a node that it knows from the start
    and that takes the updates in order, at any time, has for every bucket the same
    triggers as the coordinator, in the same order and with the same parameters, as
    soon as no update is in flight ([ByTime] triggers excepted); and the handler of
    an update never fails on the node.  The operations must be [well_used]. *)
Theorem node_triggers_agree `{UnorderedIter, PrimitiveMessages, Rand} {E} conf demeter_config ip (c : Cluster (E := E)) :
  reachable conf demeter_config ip c →
  (in_flight c = [] → ∀ b, view_node (w_registry (node c)) b = view_coord (coord c) b) ∧
  (∀ now, ∃ c', cluster_step conf demeter_config ip c (NodeReceives now) = Ok c' ∧
                in_flight c' = tail (in_flight c)).
Proof.
  intros Hs%reachable_synced. split.
  - destruct Hs as (_ & _ & _ & Ha). intros Hq. rewrite Hq in Ha. intros b. by rewrite Ha.
  - intros now. destruct (in_flight c) as [|m ms] eqn:Hq; [exists c; cbn; by rewrite Hq|].
    destruct (receive_synced conf demeter_config ip c now m ms Hs Hq) as (c' & Hc & _ & Hq'). exists c'. by rewrite Hq'.
Qed.

Lemma node_triggers_agree_witness :
  match Demo.deletes with
  | Ok c => trigger_name_ <$> view_coord (coord c) "b" = ["u"] ∧
            ∀ b, view_node (w_registry (node c)) b = view_coord (coord c) b
  | Throw _ => False
  end.
Proof.
  pose proof Demo.deletes_ok as Hok. pose proof Demo.deletes_reachable as Hr. destruct Demo.deletes as [c|]; [|done].
  destruct Hok as [Hn Hq]. split; [exact Hn|].
  exact (proj1 (@node_triggers_agree sorted_iter bits_primitive_messages lcg_rand unit Demo.conf default_config
    "10.0.0.1" c (Hr c eq_refl)) Hq).
Defined.
