(* ===== verification/LocalScheduler.v ===== *)
(** * The local scheduler of a node ([scheduler_server.cpp], [object_handlers.cpp])

    [run] is one loop: it takes a message of an executor from shared memory, then
    what the communication helper received, then the delayed calls, then the timer.
    Its state is a [World]: the helper, the registry of triggers and applications,
    and the maps below.  An executor is reached through the channel named
    ["ipc-<id>"]; a message to it is a [Send] to that name, in the bytes of the
    program's format.  The log is not modelled. *)

From S2P Require Import Prelude CppString CppDouble Messages Common Triggers Threads Effects.
From S2P Require Import CommHelper.

(** ** Data *)

Record InflightIORequest := {
  executor_id_ : Z;
  req_id_ : Z;
  recv_time_ : Z }.

Record InflightFuncArgs := {
  ia_func_name_ : string;
  ia_session_id_ : string;
  key_args_ : list string;
  inflight_args_ : gset string;
  ia_arg_flag_ : Z;
  ia_cpu_cores_ : double;
  ia_memory_mb_ : Z }.

(** The entry [operator[]] value-initialises. *)
Definition empty_InflightFuncArgs : InflightFuncArgs := {|
  ia_func_name_ := ""; ia_session_id_ := ""; key_args_ := []; inflight_args_ := ∅; ia_arg_flag_ := 0;
  ia_cpu_cores_ := S754_zero false; ia_memory_mb_ := 0 |}.

Record DelayFunctionCall := {
  dc_session_id_ : string;
  dc_app_name_ : string;
  dc_func_name_ : string;
  dc_func_args_ : list string;
  dc_arg_flag_ : Z;
  dc_cpu_cores_ : double;
  dc_memory_mb_ : Z;
  trigger_time_ : Z }.

Record RerunCheckQueueItem := {
  check_time_ : Z;
  rc_session_ : string;
  rc_trigger_ptr_ : TriggerPointer }.

(** The objects the node knows: their sizes, the values of the small ones, and
    the shared-memory segments by name. *)
Record Store := {
  key_len_map : gmap string Z;
  key_val_map : gmap string string;
  session_client_addr_map : gmap string string;
  shm : gmap string string }.

(** Status 0: empty, 1: available, 2: awaiting, 3: busy. *)
Record Executors := {
  executor_status_map : gmap Z Z;
  function_executor_map : gmap string (gset Z);
  executor_chans_map : gmap Z string;
  ramSeed : Z }.

(** What waits for data. *)
Record Waiting := {
  call_id : Z;
  call_id_inflight_args_map : gmap Z InflightFuncArgs;
  key_call_id_map : gmap string (gset Z);
  key_remote_get_map : gmap string (list InflightIORequest);
  key_ksv_put_map : gmap string (list InflightIORequest) }.

(** The priority queue is the list of its items by [check_time_]; among items of one
    time, whose order the standard library leaves open, the older comes first. *)
Record Timers := {
  delay_call_queue : list DelayFunctionCall;
  rerun_check_queue : list RerunCheckQueueItem;
  report_start : Z }.

Record Local := {
  store : Store;
  execs : Executors;
  waiting : Waiting;
  timers : Timers;
  function_cache : gset string }.

Record SchedConf := {
  schedDelayTime : Z;                          (* microseconds *)
  sharedExecutor : bool;
  rejectExtraReq : bool }.

Definition forwardDataPackingThreshold : Z := 10240.
Definition schedTimerThreshold : Z := 10.

Definition executor_channel (e_id : Z) : string := "ipc-" +:+ to_string e_id.

(** The state [run] starts with. *)
Definition initial_Local (executor seed now : Z) : Local := {|
  store := {| key_len_map := ∅; key_val_map := ∅; session_client_addr_map := ∅; shm := ∅ |};
  execs := {| executor_status_map := foldl (λ m e_id, <[e_id := 2]> m) ∅ (seqZ 0 executor);
              function_executor_map := ∅;
              executor_chans_map := foldl (λ m e_id, <[e_id := executor_channel e_id]> m) ∅ (seqZ 0 executor);
              ramSeed := seed |};
  waiting := {| call_id := 0; call_id_inflight_args_map := ∅; key_call_id_map := ∅;
                key_remote_get_map := ∅; key_ksv_put_map := ∅ |};
  timers := {| delay_call_queue := []; rerun_check_queue := []; report_start := now |};
  function_cache := ∅ |}.

Section setters.
Context (l : Local).

Definition set_store (s : Store) : Local :=
  {| store := s; execs := execs l; waiting := waiting l; timers := timers l; function_cache := function_cache l |}.
Definition set_execs (e : Executors) : Local :=
  {| store := store l; execs := e; waiting := waiting l; timers := timers l; function_cache := function_cache l |}.
Definition set_waiting (w : Waiting) : Local :=
  {| store := store l; execs := execs l; waiting := w; timers := timers l; function_cache := function_cache l |}.
Definition set_timers (t : Timers) : Local :=
  {| store := store l; execs := execs l; waiting := waiting l; timers := t; function_cache := function_cache l |}.

End setters.

Definition set_lens (m : gmap string Z) (s : Store) : Store :=
  {| key_len_map := m; key_val_map := key_val_map s; session_client_addr_map := session_client_addr_map s;
     shm := shm s |}.
Definition set_vals (m : gmap string string) (s : Store) : Store :=
  {| key_len_map := key_len_map s; key_val_map := m; session_client_addr_map := session_client_addr_map s;
     shm := shm s |}.
Definition set_clients (m : gmap string string) (s : Store) : Store :=
  {| key_len_map := key_len_map s; key_val_map := key_val_map s; session_client_addr_map := m; shm := shm s |}.
Definition set_shm (m : gmap string string) (s : Store) : Store :=
  {| key_len_map := key_len_map s; key_val_map := key_val_map s;
     session_client_addr_map := session_client_addr_map s; shm := m |}.

Definition set_status (m : gmap Z Z) (e : Executors) : Executors :=
  {| executor_status_map := m; function_executor_map := function_executor_map e;
     executor_chans_map := executor_chans_map e; ramSeed := ramSeed e |}.
Definition set_function_execs (m : gmap string (gset Z)) (e : Executors) : Executors :=
  {| executor_status_map := executor_status_map e; function_executor_map := m;
     executor_chans_map := executor_chans_map e; ramSeed := ramSeed e |}.
Definition set_ramSeed (z : Z) (e : Executors) : Executors :=
  {| executor_status_map := executor_status_map e; function_executor_map := function_executor_map e;
     executor_chans_map := executor_chans_map e; ramSeed := z |}.

Definition set_calls (m : gmap Z InflightFuncArgs) (k : gmap string (gset Z)) (w : Waiting) : Waiting :=
  {| call_id := call_id w; call_id_inflight_args_map := m; key_call_id_map := k;
     key_remote_get_map := key_remote_get_map w; key_ksv_put_map := key_ksv_put_map w |}.
Definition set_call_id (n : Z) (w : Waiting) : Waiting :=
  {| call_id := n; call_id_inflight_args_map := call_id_inflight_args_map w;
     key_call_id_map := key_call_id_map w; key_remote_get_map := key_remote_get_map w;
     key_ksv_put_map := key_ksv_put_map w |}.
Definition set_gets (m : gmap string (list InflightIORequest)) (w : Waiting) : Waiting :=
  {| call_id := call_id w; call_id_inflight_args_map := call_id_inflight_args_map w;
     key_call_id_map := key_call_id_map w; key_remote_get_map := m; key_ksv_put_map := key_ksv_put_map w |}.
Definition set_puts (m : gmap string (list InflightIORequest)) (w : Waiting) : Waiting :=
  {| call_id := call_id w; call_id_inflight_args_map := call_id_inflight_args_map w;
     key_call_id_map := key_call_id_map w; key_remote_get_map := key_remote_get_map w; key_ksv_put_map := m |}.

Definition set_delayed (q : list DelayFunctionCall) (t : Timers) : Timers :=
  {| delay_call_queue := q; rerun_check_queue := rerun_check_queue t; report_start := report_start t |}.
Definition set_reruns (q : list RerunCheckQueueItem) (t : Timers) : Timers :=
  {| delay_call_queue := delay_call_queue t; rerun_check_queue := q; report_start := report_start t |}.
Definition set_report_start (z : Z) (t : Timers) : Timers :=
  {| delay_call_queue := delay_call_queue t; rerun_check_queue := rerun_check_queue t; report_start := z |}.

(** ** Shared memory ([object_handlers.cpp]) *)

(** [acquire(name, size, open)] and [get_mem]: the mode [open] maps the segment with
    the size it has, whatever [size] says; without a segment the pointer is null, and
    reading past the end of the segment is undefined. *)
Definition shm_read (s : Store) (name : string) (size : Z) : result string :=
  if decide (size = 0) then Ok ""
  else
    match shm s !! name with
    | Some bytes => if decide (size < 0 ∨ size_of bytes < size) then Throw Undefined
                    else Ok (take_string (Z.to_nat size) bytes)
    | None => Throw Undefined
    end.

(** [acquire(name, size)] gives an existing segment the new size, and [memcpy] fills it. *)
Definition copy_to_shm_obj (key_name data : string) (l : Local) : result Local :=
  Ok (set_store l (set_shm (<[key_name := data]> (shm (store l))) (store l))).

Definition get_shm_obj (key_name : string) (l : Local) : result string :=
  match key_len_map (store l) !! key_name with
  | Some size_of_obj => shm_read (store l) key_name size_of_obj
  | None => Ok ""
  end.

(** ** The operations of the loop *)

Abbreviation node := (World (E := Local)).
Abbreviation sched := (eff (World (E := Local)) Send).

Definition get_local {A} (f : Local → A) : sched A := gets (λ w, f (w_env w)).
Definition put_local (f : Local → Local) : sched unit :=
  modify (λ w, {| w_helper := w_helper w; w_registry := w_registry w; w_env := f (w_env w) |}).

Definition upd_store (f : Store → Store) : sched unit := put_local (λ l, set_store l (f (store l))).
Definition upd_execs (f : Executors → Executors) : sched unit := put_local (λ l, set_execs l (f (execs l))).
Definition upd_waiting (f : Waiting → Waiting) : sched unit := put_local (λ l, set_waiting l (f (waiting l))).
Definition upd_timers (f : Timers → Timers) : sched unit := put_local (λ l, set_timers l (f (timers l))).

(** [m[k]] on the string maps: a value-initialised entry is inserted. *)
Definition client_addr (session_id : string) : sched string :=
  m ← get_local (λ l, session_client_addr_map (store l));
  upd_store (set_clients (touch "" session_id m));;
  mret (at_default "" session_id m).

Definition key_len (key : string) : sched Z :=
  m ← get_local (λ l, key_len_map (store l));
  upd_store (set_lens (touch 0 key m));;
  mret (at_default 0 key m).

Definition app_of_func (func : string) : sched string :=
  reg ← gets w_registry;
  set_registry (set_app_maps reg (app_info_map reg) (touch "" func (func_app_map reg)) (bucket_app_map reg));;
  mret (at_default "" func (func_app_map reg)).

Definition app_of_bucket (bucket : string) : sched string :=
  reg ← gets w_registry;
  set_registry (set_app_maps reg (app_info_map reg) (func_app_map reg) (touch "" bucket (bucket_app_map reg)));;
  mret (at_default "" bucket (bucket_app_map reg)).

(** [app_info_map[app_name].direct_deps_]. *)
Definition direct_deps_of (app_name : string) : sched (gmap string (gset string)) :=
  reg ← gets w_registry;
  let info := at_default empty_AppInfo app_name (app_info_map reg) in
  set_registry (set_app_maps reg (<[app_name := info]> (app_info_map reg)) (func_app_map reg) (bucket_app_map reg));;
  mret (direct_deps_ info).

Section scheduler.
Context `{UnorderedIter, Rand, LatticeMessages, PrimitiveMessages} (conf : SchedConf).

Definition get_avail_executor_num (m : gmap Z Z) : Z :=
  foldl (λ executors p, if decide (p.2 = 0 ∨ p.2 = 1) then executors + 1 else executors) 0 (map_iter m).

(** [send_to_executer(executor_chans_map[id], msg)]: without an entry the channel is
    a null pointer.  A send that fails is reported and not repeated. *)
Definition send_to_executer (executor_id : Z) (msg : string) : sched unit :=
  chans ← get_local (λ l, executor_chans_map (execs l));
  match chans !! executor_id with
  | Some chan => emit {| send_to := chan; send_msg := MBytes msg |}
  | None => throw Undefined
  end.

(** [rand_r(&ramSeed) % n]. *)
Definition rand_index (n : Z) : sched Z :=
  seed ← get_local (λ l, ramSeed (execs l));
  upd_execs (set_ramSeed (rand_r seed).2);;
  mret ((rand_r seed).1 `mod` n).

(** *** Forwarding a call to the coordinator *)

(** The loop [for (int i = 0; i < n; i += 3)] over [bucket, key + session, size]. *)
Fixpoint triples (args : list string) : result (list (string * string * string)) :=
  match args with
  | [] => Ok []
  | a :: b :: c :: rest => l ← triples rest; Ok ((a, b, c) :: l)
  | _ => Throw Undefined
  end.

(** The sum is an [int]: overflow is undefined. *)
Definition total_size (func_args_vec : list (list string)) : result Z :=
  foldM (λ total func_args,
      args ← triples func_args;
      foldM (λ total arg, n ← stoi arg.2;
          match in_int (total + n) with Ok t => Ok t | Throw _ => Throw Undefined end) args total)
    func_args_vec 0.

(** [real_data_args] of one function. *)
Definition packed_args (arg_flag : Z) (func_args : list string) : sched (list string) :=
  args ← lift (triples func_args);
  for_fold (λ data_args '(bucket, session_key, _),
      let key_name := bucket +:+ kDelimiter +:+ session_key in
      size_len ← key_len key_name;
      s ← get_local store;
      real_data ← lift (shm_read s key_name size_len);
      mret (if decide (arg_flag = 1) then data_args ++ [real_data]
            else if decide (arg_flag = 2) then data_args ++ [session_key; real_data] else data_args))
    args [].

Definition forward_call_via_helper (session_id app_name : string) (func_name_vec : list string)
    (func_args_vec : list (list string)) (arg_flag : Z) : sched unit :=
  if decide (arg_flag > 0) then
    total_data_size ← lift (total_size func_args_vec);
    if decide (u32 total_data_size < forwardDataPackingThreshold) then
      data_args_vec ← mapM (packed_args arg_flag) func_args_vec;
      addr ← client_addr session_id;
      on_helper (forward_func_call addr app_name func_name_vec data_args_vec 0 session_id)
    else
      addr ← client_addr session_id;
      on_helper (forward_func_call addr app_name func_name_vec func_args_vec arg_flag session_id)
  else
    addr ← client_addr session_id;
    on_helper (forward_func_call addr app_name func_name_vec func_args_vec arg_flag session_id).

(** *** Scheduling a call on an executor *)

Definition at_default_Z {V} (d : V) (k : Z) (m : gmap Z V) : V := default d (m !! k).

(** The scan of the executors: it stops at the first one that is available and has
    run the function. *)
Fixpoint scan_executors (func_execs : gset Z) (l : list (Z * Z)) (cold : list Z) : option Z * list Z :=
  match l with
  | [] => (None, cold)
  | (e, status) :: l =>
      if decide (status = 1 ∧ e ∈ func_execs) then (Some e, cold)
      else scan_executors func_execs l
             (if decide (status = 0 ∨ sharedExecutor conf = true ∧ status = 1) then cold ++ [e] else cold)
  end.

(** [function_executor_map[func_name]] is evaluated when an available executor is
    met. *)
Definition touch_function (func_name : string) (status : gmap Z Z) (m : gmap string (gset Z)) : gmap string (gset Z) :=
  if decide (map_Exists (λ _ s, s = 1) status) then touch ∅ func_name m else m.

Definition pick_executor (func_name : string) : sched (option Z) :=
  e ← get_local execs;
  upd_execs (set_function_execs (touch_function func_name (executor_status_map e) (function_executor_map e)));;
  let func_execs := at_default ∅ func_name (function_executor_map e) in
  match scan_executors func_execs (map_iter (executor_status_map e)) [] with
  | (Some warm, _) => _ ← rand_index 1; mret (Some warm)
  | (None, []) => mret None
  | (None, cold) =>
      r ← rand_index (Z.of_nat (length cold));
      executor_id ← lift (vec_at cold (Z.to_nat r));
      upd_execs (λ e, set_function_execs
        (<[func_name := {[executor_id]} ∪ at_default ∅ func_name (function_executor_map e)]>
           (function_executor_map e)) e);;
      mret (Some executor_id)
  end.

Definition resource_meta (cpu_cores : double) (memory_mb : Z) : string :=
  let meta := to_string_double cpu_cores +:+ "," +:+ to_string memory_mb in
  if decide (size_of meta > 255) then "0,0" else meta.

(** The message of a call: type 1, argument flag plus one, 1 or 2 for the output,
    the resources with their length, then session, function and arguments. *)
Definition call_message (arg_flag : Z) (persist : bool) (cpu_cores : double) (memory_mb : Z)
    (session_id func_name : string) (func_args : list string) : string :=
  let meta := resource_meta cpu_cores memory_mb in
  byte_string 1 +:+ byte_string (arg_flag + 1) +:+ byte_string (if persist then 1 else 2) +:+
  byte_string (size_of meta) +:+ meta +:+ session_id +:+ "|" +:+
  foldl (λ s arg, s +:+ "|" +:+ arg) func_name func_args.

(** [rerun_check_queue.push]. *)
Fixpoint insert_check (item : RerunCheckQueueItem) (q : list RerunCheckQueueItem) : list RerunCheckQueueItem :=
  match q with
  | [] => [item]
  | i :: q' => if decide (check_time_ i <= check_time_ item) then i :: insert_check item q' else item :: q
  end.

Definition notify_rerun (sched_time : Z) (func_name session_id : string) (func_args : list string)
    (arg_flag : Z) (meta : RerunTriggerTimeout) : sched unit :=
  reg ← gets w_registry;
  set_registry (update_trigger reg
    (λ t, trigger_notify t func_name session_id func_args arg_flag) (trigger_ptr_ meta));;
  upd_timers (λ t, set_reruns (insert_check {|
      check_time_ := sched_time + rerun_timeout_ meta * 1000000; rc_session_ := session_id;
      rc_trigger_ptr_ := trigger_ptr_ meta |} (rerun_check_queue t)) t).

(** The arguments of a call by key, [bucket|key], split for the coordinator. *)
Definition has_delimiter (s : string) : bool :=
  bool_decide (CppString.find s kDelimiterChar 0 ≠ npos).

Definition flatten_args (func_args : list string) : list string :=
  func_args ≫= λ arg, if has_delimiter arg then split arg kDelimiterChar else [arg].

Definition schedule_func_call (now : Z) (session_id app_name func_name : string) (func_args : list string)
    (arg_flag : Z) (cpu_cores : double) (memory_mb : Z) : sched unit :=
  picked ← pick_executor func_name;
  match picked with
  | Some executor_id =>
      client ← client_addr session_id;
      send_to_executer executor_id
        (call_message arg_flag (bool_decide (client = "")) cpu_cores memory_mb session_id func_name func_args);;
      upd_execs (λ e, set_status (<[executor_id := 2]> (executor_status_map e)) e);;
      reg ← gets w_registry;
      set_registry (set_trigger_maps reg (trigger_heap reg) (bucket_triggers_map reg)
        (touch [] func_name (func_trigger_timeout_map reg)));;
      for_each (notify_rerun now func_name session_id func_args arg_flag)
        (at_default [] func_name (func_trigger_timeout_map reg))
  | None =>
      if decide (schedDelayTime conf > 0) then
        upd_timers (λ t, set_delayed (delay_call_queue t ++ [{|
          dc_session_id_ := session_id; dc_app_name_ := app_name; dc_func_name_ := func_name;
          dc_func_args_ := func_args; dc_arg_flag_ := arg_flag; dc_cpu_cores_ := cpu_cores;
          dc_memory_mb_ := memory_mb; trigger_time_ := now |}]) t)
      else if rejectExtraReq conf then mret tt
      else
        func_args_vec ←
          (if decide (arg_flag > 0) then
             first ← lift (vec_at func_args 0);
             mret (if has_delimiter first then [flatten_args func_args] else [func_args])
           else mret [func_args]);
        forward_call_via_helper session_id app_name [func_name] func_args_vec arg_flag
  end.

(** *** Objects ([check_object_arrival], [check_trigger]) *)

(** The values of an action when all its objects are small. *)
Fixpoint cached_values (vals : gmap string string) (bucket : string) (session_keys : list (string * string))
    : option (list string) :=
  match session_keys with
  | [] => Some []
  | sk :: sks =>
      match vals !! get_local_object_name bucket sk.2 sk.1 with
      | Some v => l ← cached_values vals bucket sks; Some (v :: l)
      | None => None
      end
  end.

(** Names and sizes otherwise. *)
Definition name_args (bucket : string) (session_keys : list (string * string)) : sched (list string) :=
  for_fold (λ func_args sk,
      let key_name := get_local_object_name bucket sk.2 sk.1 in
      len ← key_len key_name;
      mret (func_args ++ [key_name; to_string len])) session_keys [].

(** One action; [arg_flag] is a variable of the trigger's iteration, so that an
    action with cached values leaves 0 for the next ones. *)
Definition action_metadata (bucket : string) (acc : Z * list TriggerFunctionMetadata) (action : TriggerAction)
    : sched (Z * list TriggerFunctionMetadata) :=
  vals ← get_local (λ l, key_val_map (store l));
  match cached_values vals bucket (session_keys_ action) with
  | Some func_args =>
      mret (0, acc.2 ++ [{| func_name_ := function_ action; func_args_ := func_args; arg_flag_ := 0 |}])
  | None =>
      func_args ← name_args bucket (session_keys_ action);
      mret (acc.1, acc.2 ++ [{| func_name_ := function_ action; func_args_ := func_args; arg_flag_ := acc.1 |}])
  end.

Definition check_one_trigger (now : Z) (bucket_key : BucketKey)
    (acc : list string * list TriggerFunctionMetadata) (p : TriggerPointer)
    : sched (list string * list TriggerFunctionMetadata) :=
  reg ← gets w_registry;
  trigger ← lift (vec_at (trigger_heap reg) p);
  let '(trigger', actions) := trigger_action now trigger bucket_key in
  set_registry (update_trigger reg (λ _, trigger') p);;
  match actions with
  | [] => mret acc
  | _ =>
      r ← for_fold (action_metadata (bucket_ bucket_key)) actions (trigger_option_ trigger + 1, acc.2);
      mret (acc.1 ++ [trigger_name_ trigger], r.2)
  end.

Definition check_object_arrival (now : Z) (bucket_key : BucketKey)
    : sched (list string * list TriggerFunctionMetadata) :=
  reg ← gets w_registry;
  let ptrs := at_default [] (bucket_ bucket_key) (bucket_triggers_map reg) in
  set_registry (set_trigger_maps reg (trigger_heap reg)
    (touch [] (bucket_ bucket_key) (bucket_triggers_map reg)) (func_trigger_timeout_map reg));;
  for_fold (check_one_trigger now bucket_key) ptrs ([], []).

Definition check_trigger (now : Z) (bucket_key : BucketKey) (session_id : string) : sched (list string) :=
  '(active_triggers, active_func_metadata) ← check_object_arrival now bucket_key;
  for_each (λ m,
      app ← app_of_bucket (bucket_ bucket_key);
      schedule_func_call now session_id app (func_name_ m) (func_args_ m) (arg_flag_ m) (S754_zero false) 0)
    active_func_metadata;;
  mret active_triggers.

(** *** Messages of the executors

    A message arrives with the terminator [send] adds; [char_of] reads one byte of
    it, [c_string_from] the C string at an offset. *)
Definition char_of (str : string) (i : nat) : result Z :=
  match String.get i str with
  | Some c => Ok (val_of c)
  | None => if decide (i = String.length str) then Ok 0 else Throw Undefined
  end.

Definition c_string_from (str : string) (i : nat) : result string :=
  if decide (String.length str < i)%nat then Throw Undefined else Ok (c_str (drop_string i str)).

(** [string(str + i, n)], within the message and its terminator. *)
Definition bytes_from (str : string) (i : nat) (n : Z) : result string :=
  if decide (size_of str + 1 < Z.of_nat i + n) then Throw Undefined
  else Ok (take_string (Z.to_nat n) (drop_string i str +:+ String nul EmptyString)).

(** [3 | request id | success | value]. *)
Definition reply (req_id : Z) (value : string) : string :=
  byte_string 3 +:+ byte_string req_id +:+ byte_string 1 +:+ value.

Definition get_request (now : Z) (executor_id : Z) (str : string) : sched unit :=
  from_ephe_store ← lift (char_of str 2);
  req_id ← lift (char_of str 3);
  meta_data_len ← lift (char_of str 4);
  key_name ← lift (bytes_from str 5 meta_data_len);
  let get_req := {| executor_id_ := executor_id; req_id_ := req_id; recv_time_ := now |} in
  let wait_for := upd_waiting (λ w,
    set_gets (<[key_name := at_default [] key_name (key_remote_get_map w) ++ [get_req]]> (key_remote_get_map w)) w) in
  if decide (from_ephe_store = 1) then
    lens ← get_local (λ l, key_len_map (store l));
    match lens !! key_name with
    | Some size_len => send_to_executer executor_id (reply req_id (to_string size_len))
    | None => on_helper (send_data_req key_name);; wait_for
    end
  else
    key ← lift (vec_at (split key_name kDelimiterChar) 1);
    on_helper (get_kvs_async now key);; wait_for.

(** The fields of [session|source|target|bucket|key + session|data...]. *)
Record SendInfos := {
  si_session_id : string;
  si_src_function : string;
  si_tgt_function : string;
  si_bucket : string;
  si_session_key : string;
  si_data : string }.

Definition parse_infos (params : string) : option SendInfos :=
  match split params kDelimiterChar with
  | session_id :: src :: tgt :: bucket :: session_key :: data :: _ =>
      Some {| si_session_id := session_id; si_src_function := src; si_tgt_function := tgt;
              si_bucket := bucket; si_session_key := session_key; si_data := data |}
  | _ => None
  end.

Definition si_obj_name (i : SendInfos) : string := si_bucket i +:+ kDelimiter +:+ si_session_key i.

(** A new ephemeral object is recorded. *)
Definition record_ephemeral (is_data_packing : Z) (i : SendInfos) : sched unit :=
  if decide (is_data_packing = 1) then
    upd_store (λ s, set_lens (<[si_obj_name i := u32 (size_of (si_data i))]> (key_len_map s))
                      (set_vals (<[si_obj_name i := si_data i]> (key_val_map s)) s))
  else if decide (is_data_packing = 2) then
    size_int ← lift (stoi (si_data i));
    upd_store (λ s, set_lens (<[si_obj_name i := u32 size_int]> (key_len_map s)) s)
  else mret tt.

(** Direct invocation of the functions that depend on the source. *)
Definition direct_invocation (now : Z) (app_name : string) (is_data_packing : Z) (i : SendInfos)
    (targets : gset string) : sched unit :=
  let '(func_args, arg_flag) :=
    if decide (is_data_packing = 1) then ([si_data i], 0)
    else if decide (is_data_packing = 2) then ([si_obj_name i; si_data i], 1) else ([], 1) in
  let schedule func := schedule_func_call now (si_session_id i) app_name func func_args arg_flag (S754_zero false) 0 in
  if decide (si_tgt_function i = "") then
    let target_funcs := foldl (λ l f, l ++ [f]) [] (set_iter targets) in
    status ← get_local (λ l, executor_status_map (execs l));
    let avail_executors := get_avail_executor_num status in
    if decide (Z.of_nat (length target_funcs) > avail_executors) then
      let local_funcs := take (Z.to_nat avail_executors) target_funcs in
      let remote_funcs := drop (Z.to_nat avail_executors) target_funcs in
      for_each schedule local_funcs;;
      if rejectExtraReq conf then mret tt
      else forward_call_via_helper (si_session_id i) app_name remote_funcs
             (map (λ _, func_args) remote_funcs) arg_flag
    else for_each schedule target_funcs
  else if decide (si_tgt_function i ∈ targets) then schedule (si_tgt_function i)
  else mret tt.

Definition send_ephemeral (now : Z) (is_data_packing : Z) (i : SendInfos) : sched unit :=
  record_ephemeral is_data_packing i;;
  app_name ← app_of_func (si_src_function i);
  deps ← direct_deps_of app_name;
  match deps !! si_src_function i with
  | Some targets => direct_invocation now app_name is_data_packing i targets
  | None =>
      if decide (si_bucket i = bucketNameDirectInvoc) then mret tt
      else
        bucket_key ← lift (BucketKey_of_session_key (si_bucket i) (si_session_key i));
        active_triggers ← check_trigger now bucket_key (si_session_id i);
        (if decide (is_data_packing = 1) then
           addr ← client_addr (si_session_id i);
           on_helper (notify_put bucket_key active_triggers addr (si_data i))
         else if decide (is_data_packing = 2) then
           addr ← client_addr (si_session_id i);
           on_helper (notify_put bucket_key active_triggers addr emptyString)
         else mret tt);;
        upd_waiting (λ w, set_call_id (u32 (call_id w + Z.of_nat (length active_triggers))) w)
  end.

(** The bytes of an output: in the message, or in the segment of the object. *)
Definition output_data (is_data_packing : Z) (i : SendInfos) : sched string :=
  if decide (is_data_packing = 1) then mret (si_data i)
  else if decide (is_data_packing = 2) then
    size_int ← lift (stoi (si_data i));
    s ← get_local store;
    lift (shm_read s (si_obj_name i) size_int)
  else mret "".

(** [strcpy] into a new buffer of [capacity] bytes writes the terminator too. *)
Definition strcpy (capacity : Z) (s : string) : result string :=
  if decide (size_of s < capacity) then Ok s else Throw Undefined.

Definition send_durable (now : Z) (executor_id req_id is_data_packing : Z) (i : SendInfos) : sched unit :=
  (if decide (is_data_packing = 1 ∨ is_data_packing = 2) then
     data ← output_data is_data_packing i;
     data ← lift (if decide (is_data_packing = 1) then strcpy (size_of data) data else Ok data);
     on_helper (put_kvs_async now (si_session_key i) data)
   else mret tt);;
  upd_waiting (λ w, set_puts (<[si_session_key i := at_default [] (si_session_key i) (key_ksv_put_map w) ++
    [{| executor_id_ := executor_id; req_id_ := req_id; recv_time_ := now |}]]> (key_ksv_put_map w)) w).

Definition send_response (is_data_packing : Z) (i : SendInfos) : sched unit :=
  data ← output_data is_data_packing i;
  addr ← client_addr (si_session_id i);
  app ← app_of_func (si_src_function i);
  on_helper (client_response addr app data).

Definition send_object (now : Z) (executor_id type : Z) (str : string) : sched unit :=
  req_id ← lift (char_of str 2);
  is_data_packing ← lift (char_of str 3);
  params ← lift (c_string_from str 4);
  match parse_infos params with
  | None => mret tt
  | Some i =>
      if decide (type = 2) then send_ephemeral now is_data_packing i
      else if decide (type = 3) then send_durable now executor_id req_id is_data_packing i
      else send_response is_data_packing i
  end.

Definition executor_message (now : Z) (str : string) : sched unit :=
  executor_address ← lift (char_of str 0);
  type ← lift (char_of str 1);
  let executor_id := u8 (executor_address - 1) in
  if decide (type = 1) then get_request now executor_id str
  else if decide (2 <= type <= 4) then send_object now executor_id type str
  else if decide (type = 6) then
    upd_execs (λ e, set_status (<[executor_id := 3]> (executor_status_map e)) e)
  else if decide (type = 7) then
    upd_execs (λ e, set_status (<[executor_id :=
      if decide (at_default_Z 0 executor_id (executor_status_map e) = 0 ∨
                 at_default_Z 0 executor_id (executor_status_map e) = 2) then 0 else 1]> (executor_status_map e)) e)
  else mret tt.

(** *** What the communication helper received *)

(** The key and the size of every argument. *)
Definition full_args (keys : list string) : sched (list string) :=
  for_fold (λ args key, len ← key_len key; mret (args ++ [key; to_string len])) keys [].

(** The loop over the arguments of a call by key: the absent ones are requested
    unless another call has done so, and recorded with the id of the call. *)
Definition collect_inflight (cid : Z) (func_args : list string) : sched (gset string) :=
  for_fold (λ inflight arg,
      lens ← get_local (λ l, key_len_map (store l));
      if decide (is_Some (lens !! arg)) then mret inflight
      else
        calls ← get_local (λ l, key_call_id_map (waiting l));
        (match calls !! arg with
         | Some _ => mret tt
         | None => on_helper (send_data_req arg)
         end);;
        upd_waiting (λ w, set_calls (call_id_inflight_args_map w)
          (<[arg := {[cid]} ∪ at_default ∅ arg (key_call_id_map w)]> (key_call_id_map w)) w);;
        mret ({[arg]} ∪ inflight)) func_args ∅.

Definition call_received (now : Z) (app_name session_id func_name : string) (func_args : list string)
    (is_func_arg_key : Z) (cpu_cores : double) (memory_mb : Z) : sched unit :=
  cid ← get_local (λ l, call_id (waiting l));
  (if decide (is_func_arg_key > 0) then
     inflight ← collect_inflight cid func_args;
     if decide (inflight = ∅) then
       func_full_args ← full_args func_args;
       schedule_func_call now session_id app_name func_name func_full_args is_func_arg_key cpu_cores memory_mb
     else
       upd_waiting (λ w, set_calls (<[cid := {|
           ia_func_name_ := func_name; ia_session_id_ := session_id; key_args_ := func_args;
           inflight_args_ := inflight; ia_arg_flag_ := is_func_arg_key; ia_cpu_cores_ := cpu_cores;
           ia_memory_mb_ := memory_mb |}]> (call_id_inflight_args_map w)) (key_call_id_map w) w)
   else schedule_func_call now session_id app_name func_name func_args 0 cpu_cores memory_mb);;
  upd_waiting (λ w, set_call_id (u32 (call_id w + 1)) w).

Definition handle_call (now : Z) (m : RecvMsg) : sched unit :=
  upd_store (λ s, set_clients (<[session_id_ m := resp_address_ m]> (session_client_addr_map s)) s);;
  for_each (λ i,
      func_name ← lift (vec_at (func_names_ m) i);
      func_args ← lift (vec_at (func_argss_ m) i);
      is_func_arg_key ← lift (vec_at (is_func_arg_keys_ m) i);
      call_received now (app_name_ m) (session_id_ m) func_name func_args is_func_arg_key
        (default (S754_zero false) (cpu_coress_ m !! i)) (default 0 (memory_mbs_ m !! i)))
    (seq 0 (length (func_names_ m))).

Definition reply_all (requests : list InflightIORequest) (value : string) : sched unit :=
  for_each (λ r, send_to_executer (executor_id_ r) (reply (req_id_ r) value)) requests.

(** An argument has arrived for call [cid]: the call is scheduled with its last. *)
Definition argument_arrived (now : Z) (key : string) (cid : Z) : sched unit :=
  calls ← get_local (λ l, call_id_inflight_args_map (waiting l));
  let a := at_default_Z empty_InflightFuncArgs cid calls in
  let a := {| ia_func_name_ := ia_func_name_ a; ia_session_id_ := ia_session_id_ a; key_args_ := key_args_ a;
              inflight_args_ := inflight_args_ a ∖ {[key]}; ia_arg_flag_ := ia_arg_flag_ a;
              ia_cpu_cores_ := ia_cpu_cores_ a; ia_memory_mb_ := ia_memory_mb_ a |} in
  upd_waiting (λ w, set_calls (<[cid := a]> (call_id_inflight_args_map w)) (key_call_id_map w) w);;
  if decide (inflight_args_ a = ∅) then
    func_args ← full_args (key_args_ a);
    app ← app_of_func (ia_func_name_ a);
    schedule_func_call now (ia_session_id_ a) app (ia_func_name_ a) func_args (ia_arg_flag_ a)
      (ia_cpu_cores_ a) (ia_memory_mb_ a);;
    upd_waiting (λ w, set_calls (delete cid (call_id_inflight_args_map w)) (key_call_id_map w) w)
  else mret tt.

(** The executors that wait for an object are answered and forgotten. *)
Definition answer_gets (key value : string) : sched unit :=
  gets ← get_local (λ l, key_remote_get_map (waiting l));
  match gets !! key with
  | Some requests =>
      reply_all requests value;;
      upd_waiting (λ w, set_gets (delete key (key_remote_get_map w)) w)
  | None => mret tt
  end.

(** So are the calls. *)
Definition release_calls (now : Z) (key : string) : sched unit :=
  calls ← get_local (λ l, key_call_id_map (waiting l));
  match calls !! key with
  | Some cids =>
      for_each (argument_arrived now key) (set_iter cids);;
      upd_waiting (λ w, set_calls (call_id_inflight_args_map w) (delete key (key_call_id_map w)) w)
  | None => mret tt
  end.

Definition record_size (key : string) (size : Z) : sched unit :=
  upd_store (λ s, set_lens (<[key := size]> (key_len_map s)) s).

(** [resp += comm_resp.data_size_]: an [unsigned] appended to a string is one
    character. *)
Definition handle_data_resp (now : Z) (m : RecvMsg) : sched unit :=
  record_size (data_key_ m) (data_size_ m);;
  answer_gets (data_key_ m) (byte_string (data_size_ m));;
  release_calls now (data_key_ m).

Definition handle_kvs_get (m : RecvMsg) : sched unit :=
  let local_obj_name := kvsKeyPrefix +:+ "|" +:+ data_key_ m in
  record_size local_obj_name (data_size_ m);;
  answer_gets local_obj_name (to_string (data_size_ m)).

Definition handle_kvs_put (m : RecvMsg) : sched unit :=
  puts ← get_local (λ l, key_ksv_put_map (waiting l));
  match puts !! data_key_ m with
  | Some requests =>
      reply_all requests "";;
      upd_waiting (λ w, set_puts (delete (data_key_ m) (key_ksv_put_map w)) w)
  | None => mret tt
  end.

Definition handle_recv (now : Z) (m : RecvMsg) : sched unit :=
  match msg_type_ m with
  | Call => handle_call now m
  | DataResp => handle_data_resp now m
  | KvsGetResp => handle_kvs_get m
  | KvsPutResp => handle_kvs_put m
  | Null => mret tt
  end.

(** *** Delayed calls *)

(** [while (cur_avail_executors > 0 && !delay_call_queue.empty())]. *)
Fixpoint delay_schedule (now : Z) (cur_avail_executors : nat) : sched unit :=
  match cur_avail_executors with
  | O => mret tt
  | S n =>
      q ← get_local (λ l, delay_call_queue (timers l));
      match q with
      | [] => mret tt
      | d :: _ =>
          schedule_func_call now (dc_session_id_ d) (dc_app_name_ d) (dc_func_name_ d) (dc_func_args_ d)
            (dc_arg_flag_ d) (dc_cpu_cores_ d) (dc_memory_mb_ d);;
          upd_timers (λ t, set_delayed (tail (delay_call_queue t)) t);;
          delay_schedule now n
      end
  end.

(** The calls that have waited too long are forwarded, or dropped.  Every iteration
    but the last pops a call, so the length of the queue is enough fuel. *)
Fixpoint delay_forward (fuel : nat) (now : Z) : sched unit :=
  match fuel with
  | O => mret tt
  | S fuel =>
      q ← get_local (λ l, delay_call_queue (timers l));
      match q with
      | [] => mret tt
      | d :: _ =>
          if decide (to_us (now - trigger_time_ d) > schedDelayTime conf) then
            (if rejectExtraReq conf then mret tt
             else forward_call_via_helper (dc_session_id_ d) (dc_app_name_ d) [dc_func_name_ d]
                    [dc_func_args_ d] (dc_arg_flag_ d));;
            upd_timers (λ t, set_delayed (tail (delay_call_queue t)) t);;
            delay_forward fuel now
          else mret tt
      end
  end.

Definition delay_round (now : Z) : sched unit :=
  q ← get_local (λ l, delay_call_queue (timers l));
  match q with
  | [] => mret tt
  | _ =>
      status ← get_local (λ l, executor_status_map (execs l));
      delay_schedule now (Z.to_nat (get_avail_executor_num status));;
      q ← get_local (λ l, delay_call_queue (timers l));
      delay_forward (length q) now
  end.

(** *** The timer *)

(** The re-execution checks that are due; [after] is the clock of the calls they
    schedule. *)
Fixpoint rerun_checks (fuel : nat) (report_end after : Z) : sched unit :=
  match fuel with
  | O => mret tt
  | S fuel =>
      q ← get_local (λ l, rerun_check_queue (timers l));
      match q with
      | [] => mret tt
      | item :: _ =>
          if decide (check_time_ item <= report_end) then
            reg ← gets w_registry;
            trigger ← lift (vec_at (trigger_heap reg) (rc_trigger_ptr_ item));
            for_each (λ m,
                app ← app_of_func (func_name_ m);
                schedule_func_call after (rc_session_ item) app (func_name_ m) (func_args_ m) (arg_flag_ m)
                  (S754_zero false) 0)
              (trigger_rerun trigger (rc_session_ item));;
            upd_timers (λ t, set_reruns (tail (rerun_check_queue t)) t);;
            rerun_checks fuel report_end after
          else mret tt
      end
  end.

Definition timer_round (report_end after : Z) : sched unit :=
  t ← get_local timers;
  if decide (to_ms (report_end - report_start t) >= schedTimerThreshold) then
    rerun_checks (length (rerun_check_queue t)) report_end after;;
    status ← get_local (λ l, executor_status_map (execs l));
    cache ← get_local function_cache;
    on_helper (update_status (get_avail_executor_num status) cache);;
    upd_timers (set_report_start after)
  else mret tt.

(** One iteration of [run]: [now] is the clock of the messages and the timer,
    [after] a later one. *)
Definition run_iteration (now after : Z) (str : option string) (inbox : Inbox) : sched unit :=
  match str with Some str => executor_message now str | None => mret tt end;;
  comm_resps ← try_recv_msg copy_to_shm_obj get_shm_obj now inbox;
  for_each (handle_recv now) comm_resps;;
  delay_round now;;
  timer_round now after.

End scheduler.
