(* ===== verification/LocalSpecs.v ===== *)
(** * Specifications of the local scheduler

    What [schedule_func_call] does with a call in every state of the executors. *)

From S2P Require Import Prelude CppString CppDouble Messages Common Triggers Threads Effects.
From S2P Require Import CommHelper LocalScheduler.

(** ** Definitions *)

Definition on_env (f : Local → Local) (w : World (E := Local)) : World :=
  {| w_helper := w_helper w; w_registry := w_registry w; w_env := f (w_env w) |}.

Definition with_execs (e : Executors) (w : World (E := Local)) : World := on_env (λ l, set_execs l e) w.

(** Every executor has a channel. *)
Definition executors_ok (e : Executors) : Prop :=
  ∀ x, is_Some (executor_status_map e !! x) → is_Some (executor_chans_map e !! x).

Section eligibility.
Context (conf : SchedConf) (e : Executors) (func_name : string).

(** An idle executor that has run the function; an executor a call may start. *)
Definition warm (x : Z) : Prop :=
  executor_status_map e !! x = Some 1 ∧ x ∈ at_default ∅ func_name (function_executor_map e).
Definition cold (x : Z) : Prop :=
  executor_status_map e !! x = Some 0 ∨ sharedExecutor conf = true ∧ executor_status_map e !! x = Some 1.
Definition eligible (x : Z) : Prop := warm x ∨ cold x.

(** The executors that may start any function. *)
Definition idle_count : nat :=
  size (filter (λ p, p.2 = 0 ∨ sharedExecutor conf = true ∧ p.2 = 1) (executor_status_map e)).

End eligibility.

(** Without an executor, a call is queued or dropped, never forwarded. *)
Definition keeps_calls (conf : SchedConf) : Prop := 0 < schedDelayTime conf ∨ rejectExtraReq conf = true.

(** The arguments of a call by key: the name and the size of every object. *)
Definition key_args_of (objects : list (string * string * Z)) : list string :=
  objects ≫= λ '(bucket, session_key, size), [bucket +:+ kDelimiter +:+ session_key; to_string size].

(** Objects that a call can be forwarded with: their names can be taken apart again, and
    the sum of their sizes is an [int]. *)
Definition objects_ok (objects : list (string * string * Z)) : Prop :=
  objects ≠ [] ∧ zsum snd objects < 2 ^ 31 ∧
  Forall (λ '(bucket, session_key, size), no_char kDelimiterChar bucket ∧ no_char kDelimiterChar session_key ∧
    session_key ≠ "" ∧ size_of bucket < npos ∧ 0 ≤ size) objects.

(** The bytes of an object of the node. *)
Definition object_bytes (w : World (E := Local)) (bucket session_key : string) : result string :=
  let name := bucket +:+ kDelimiter +:+ session_key in
  shm_read (store (w_env w)) name (at_default 0 name (key_len_map (store (w_env w)))).

(** Arguments by value. *)
Definition value_args (flag : Z) (values : list string) : list Argument :=
  map (λ a, {| arg_body := a; arg_arg_flag := u32 flag; arg_data_address := "" |}) values.

(** What may become of a call. *)
Section outcome.
Context (conf : SchedConf) (now : Z) (session_id app_name func_name : string) (func_args : list string)
  (arg_flag : Z) (cpu_cores : double) (memory_mb : Z) (w : World (E := Local)).

Definition client_of : string := at_default "" session_id (session_client_addr_map (store (w_env w))).

Definition delayed_call : DelayFunctionCall := {|
  dc_session_id_ := session_id; dc_app_name_ := app_name; dc_func_name_ := func_name; dc_func_args_ := func_args;
  dc_arg_flag_ := arg_flag; dc_cpu_cores_ := cpu_cores; dc_memory_mb_ := memory_mb; trigger_time_ := now |}.

(** The arguments of a forwarded call: values as they are; of objects the bytes when they
    are small together, and else the names, each with an address of the node. *)
Definition forwarded_args (arguments : list Argument) : Prop :=
  if decide (arg_flag ≤ 0) then arguments = value_args arg_flag func_args
  else ∃ objects, func_args = key_args_of objects ∧
    if decide (zsum snd objects < forwardDataPackingThreshold) then
      ∃ values, Forall2 (λ '(bucket, session_key, _) v, object_bytes w bucket session_key = Ok v) objects values ∧
        arguments = value_args 0 (zip objects values ≫= λ '((_, session_key, _), v),
          if decide (arg_flag = 1) then [v] else if decide (arg_flag = 2) then [session_key; v] else [])
    else Forall2 (λ '(bucket, session_key, _) a,
      arg_body a = bucket +:+ kDelimiter +:+ session_key ∧ arg_arg_flag a = u32 arg_flag ∧
      ∃ tid, arg_data_address a = "tcp://" +:+ ip_ (w_helper w) +:+ ":" +:+ to_string (u32 (tid + dataAccessServerPort)))
      objects arguments.

(** The node can forward the call: its arguments are values, or objects with names and
    sizes as they should be, whose segments are there if they are to be packed. *)
Definition forwardable : Prop :=
  arg_flag ≤ 0 ∨ ∃ objects, func_args = key_args_of objects ∧ objects_ok objects ∧
    io_thread_count_ (w_helper w) ≠ 0 ∧
    (zsum snd objects < forwardDataPackingThreshold →
     Forall (λ '(bucket, session_key, _), ∃ v, object_bytes w bucket session_key = Ok v) objects).

Definition forwarded_call (arguments : list Argument) : FunctionCall := {|
  fc_app_name := app_name;
  fc_requests := [{| fr_name := func_name; fr_arguments := arguments;
    fr_cpu_cores := S754_zero false; fr_memory_mb := 0 |}];
  fc_source := ip_ (w_helper w); fc_request_id := ""; fc_resp_address := client_of; fc_session_id := session_id;
  fc_sync_data_status := true |}.

Definition rerun_item (meta : RerunTriggerTimeout) : RerunCheckQueueItem := {|
  check_time_ := now + rerun_timeout_ meta * 1000000; rc_session_ := session_id;
  rc_trigger_ptr_ := trigger_ptr_ meta |}.

Inductive outcome : World (E := Local) → list Send → Prop :=
| Sent w' x chan :
    let e := execs (w_env w) in
    let e' := execs (w_env w') in
    eligible conf e func_name x → ((∃ y, warm e func_name y) → warm e func_name x) →
    executor_status_map e' = <[x := 2]> (executor_status_map e) → executor_chans_map e' = executor_chans_map e →
    executor_chans_map e !! x = Some chan → x ∈ at_default ∅ func_name (function_executor_map e') →
    waiting (w_env w') = waiting (w_env w) →
    delay_call_queue (timers (w_env w')) = delay_call_queue (timers (w_env w)) →
    rerun_check_queue (timers (w_env w')) ≡ₚ rerun_check_queue (timers (w_env w)) ++
      map rerun_item (at_default [] func_name (func_trigger_timeout_map (w_registry w))) →
    outcome w' [{| send_to := chan; send_msg := MBytes (call_message arg_flag (bool_decide (client_of = ""))
      cpu_cores memory_mb session_id func_name func_args) |}]
| Kept w' sent arguments :
    let e := execs (w_env w) in
    let e' := execs (w_env w') in
    (∀ x, ¬ eligible conf e func_name x) →
    (∀ f, at_default ∅ f (function_executor_map e') = at_default ∅ f (function_executor_map e)) →
    executor_status_map e' = executor_status_map e → executor_chans_map e' = executor_chans_map e →
    waiting (w_env w') = waiting (w_env w) → w_registry w' = w_registry w →
    rerun_check_queue (timers (w_env w')) = rerun_check_queue (timers (w_env w)) →
    (¬ keeps_calls conf → forwarded_args arguments) →
    (delay_call_queue (timers (w_env w')), sent) =
      (if decide (schedDelayTime conf > 0) then (delay_call_queue (timers (w_env w)) ++ [delayed_call], [])
       else (delay_call_queue (timers (w_env w)),
         if rejectExtraReq conf then [] else
         [{| send_to := HandlerThread.forward_func_connect_address
                          (default empty_thread (app_coord_map_ (w_helper w) !! app_name));
             send_msg := MFunctionCall (forwarded_call arguments) |}])) →
    outcome w' sent.

End outcome.

(** ** Lemmas *)

Section scheduling.
Context `{UnorderedIter, Rand, LatticeMessages, PrimitiveMessages} (conf : SchedConf).

Lemma scan_executors_spec func_execs l acc :
  match scan_executors conf func_execs l acc with
  | (Some x, _) => (x, 1) ∈ l ∧ x ∈ func_execs
  | (None, c) => (∀ x, (x, 1) ∈ l → x ∉ func_execs) ∧
      ∀ x, x ∈ c ↔ x ∈ acc ∨ (x, 0) ∈ l ∨ sharedExecutor conf = true ∧ (x, 1) ∈ l
  end.
Proof.
  revert acc. induction l as [|[y s] l IH]; intros acc; cbn [scan_executors].
  - split; [intros x Hx; by apply not_elem_of_nil in Hx|]. intros x. set_solver.
  - case_decide as Hw; [destruct Hw as [-> ?]; split; [left|done]|].
    specialize (IH (if decide (s = 0 ∨ sharedExecutor conf = true ∧ s = 1) then acc ++ [y] else acc)).
    destruct (scan_executors _ _ _ _) as [[x|] c].
    + destruct IH. split; [by right|done].
    + destruct IH as [IH1 IH2]. split.
      * intros x Hx. apply elem_of_cons in Hx as [[= -> <-]|Hx]; [naive_solver|by apply IH1].
      * intros x. rewrite IH2. case_decide as Hc; rewrite ?elem_of_app, ?list_elem_of_singleton, !elem_of_cons; naive_solver.
Qed.

Lemma pick_executor_spec func_name w :
  let e := execs (w_env w) in
  wp (pick_executor conf func_name) w (λ w' sent r,
    sent = [] ∧ (∃ fe seed, w' = with_execs (set_ramSeed seed (set_function_execs fe e)) w ∧
      match r with
      | Some x => x ∈ at_default ∅ func_name fe
      | None => ∀ f, at_default ∅ f fe = at_default ∅ f (function_executor_map e)
      end) ∧
    match r with
    | Some x => eligible conf e func_name x ∧ ((∃ y, warm e func_name y) → warm e func_name x)
    | None => ∀ x, ¬ eligible conf e func_name x
    end).
Proof.
  intros e. unfold pick_executor, get_local, upd_execs, put_local. do 4 eff_step. fold e.
  set (fe := touch_function _ _ _). set (func_execs := at_default ∅ func_name (function_executor_map e)).
  pose proof (scan_executors_spec func_execs (map_iter (executor_status_map e)) []) as Hscan.
  destruct (scan_executors _ _ _ _) as [[x|] c].
  - destruct Hscan as [Hx Hf]. apply map_iter_elem in Hx. unfold rand_index, get_local, upd_execs, put_local.
    repeat eff_step. split; [done|]. assert (warm e func_name x) by done. split; [|unfold eligible; naive_solver].
    exists fe, (rand_r (ramSeed e)).2. split; [done|]. unfold fe, touch_function.
    case_decide; [by rewrite at_default_touch|done].
  - destruct Hscan as [Hnone Hcold].
    assert (∀ y, ¬ warm e func_name y) as Hwarm.
    { intros y [Hy Hf]. eapply Hnone; [by apply map_iter_elem|done]. }
    assert (∀ y, y ∈ c ↔ cold conf e y) as Hc.
    { intros y. rewrite Hcold, !map_iter_elem. unfold cold. rewrite elem_of_nil. tauto. }
    destruct c as [|c0 c].
    + eff_step. split; [done|]. split.
      * exists fe, (ramSeed e). split; [done|]. intros f. unfold fe, touch_function.
        case_decide; [apply at_default_touch|done].
      * intros y [Hy|Hy]; [by eapply Hwarm|]. apply Hc, elem_of_nil in Hy. done.
    + unfold rand_index, get_local, upd_execs, put_local. repeat eff_step. cbn [execs w_env set_execs set_function_execs ramSeed].
      set (cs := c0 :: c) in *. set (r := (rand_r (ramSeed e)).1).
      assert (∃ x, vec_at cs (Z.to_nat (r `mod` Z.of_nat (length cs))) = Ok x ∧ x ∈ cs) as (x & Hx & Hin).
      { pose proof (Z.mod_pos_bound r (Z.of_nat (length cs)) ltac:(cbn; lia)).
        destruct (lookup_lt_is_Some_2 cs (Z.to_nat (r `mod` Z.of_nat (length cs))) ltac:(lia)) as [x Hx].
        exists x. split; [by apply vec_at_Ok|by eapply list_elem_of_lookup_2]. }
      eapply wp_lift; [exact Hx|]. repeat eff_step. split; [done|]. split.
      * exists (<[func_name := {[x]} ∪ at_default ∅ func_name fe]> fe), (rand_r (ramSeed e)).2.
        split; [reflexivity|]. rewrite at_default_insert. set_solver.
      * split; [right; by apply Hc|]. intros [y Hy]. by apply Hwarm in Hy.
Qed.

Lemma insert_check_perm item q : insert_check item q ≡ₚ q ++ [item].
Proof.
  induction q as [|i q IH]; [done|]. cbn [insert_check]. case_decide; [by rewrite IH|].
  by rewrite Permutation_app_comm.
Qed.

(** The announcements to the triggers of a source function. *)
Lemma notify_reruns_spec now func_name session_id func_args arg_flag metas w :
  wp (for_each (notify_rerun now func_name session_id func_args arg_flag) metas) w (λ w' sent _,
    sent = [] ∧ ∃ reg q, q ≡ₚ rerun_check_queue (timers (w_env w)) ++ map (rerun_item now session_id) metas ∧
      w' = {| w_helper := w_helper w; w_registry := reg;
              w_env := set_timers (w_env w) (set_reruns q (timers (w_env w))) |}).
Proof.
  eapply wp_mono.
  - apply (wp_for_each (λ pre w' sent, sent = [] ∧
      ∃ reg q, q ≡ₚ rerun_check_queue (timers (w_env w)) ++ map (rerun_item now session_id) pre ∧
        w' = {| w_helper := w_helper w; w_registry := reg;
                w_env := set_timers (w_env w) (set_reruns q (timers (w_env w))) |})).
    + split; [done|]. exists (w_registry w), (rerun_check_queue (timers (w_env w))). split; [by rewrite app_nil_r|].
      by destruct w as [? ? [? ? ? [] ?]].
    + intros pre meta w1 o1 _ (-> & reg & q & Hq & ->). unfold notify_rerun, upd_timers, put_local, set_registry.
      repeat eff_step. split; [done|]. eexists _, _. split; [|reflexivity].
      cbn [rerun_check_queue timers w_env set_timers set_reruns].
      by rewrite insert_check_perm, Hq, map_app, <- (assoc (++)).
  - done.
Qed.

Lemma client_addr_spec session_id w :
  client_addr session_id w = Ok (on_env (λ l, set_store l (set_clients
    (touch "" session_id (session_client_addr_map (store l))) (store l))) w, [], client_of session_id w).
Proof. done. Qed.

(** *** Forwarding a call by key *)

(** The arguments split at the delimiters. *)
Definition flat (objects : list (string * string * Z)) : list string :=
  objects ≫= λ '(bucket, session_key, size), [bucket; session_key; to_string size].

Lemma has_delimiter_name b k : no_char kDelimiterChar b → size_of b < npos → has_delimiter (b +:+ kDelimiter +:+ k) = true.
Proof.
  intros Hb Hn. unfold has_delimiter, kDelimiter. rewrite append_cons, append_nil_l, find_app by done.
  apply bool_decide_eq_true. lia.
Qed.

Lemma flatten_key_args objects :
  Forall (λ '(b, k, n), no_char kDelimiterChar b ∧ no_char kDelimiterChar k ∧ k ≠ "" ∧ size_of b < npos ∧ 0 ≤ n) objects →
  flatten_args (key_args_of objects) = flat objects.
Proof.
  unfold flatten_args, key_args_of, flat. induction 1 as [|[[b k] n] objects (Hb & Hk & Hne & Hs & Hn) _ IH]; [done|].
  rewrite !bind_cons, bind_app, IH. f_equal. cbn [mbind list_bind]. rewrite has_delimiter_name by done.
  unfold has_delimiter, kDelimiter. rewrite append_cons, append_nil_l, split_segment, split_last by done.
  rewrite (find_none _ (to_string n)) by (by apply to_string_no_char). by rewrite bool_decide_false by (intros E; by apply E).
Qed.

Lemma triples_flat objects : triples (flat objects) = Ok (map (λ '(b, k, n), (b, k, to_string n)) objects).
Proof. unfold flat. induction objects as [|[[b k] n] objects IH]; [done|]. rewrite bind_cons. cbn. by rewrite IH. Qed.

Lemma total_size_flat objects :
  Forall (λ o, 0 ≤ o.2) objects → zsum snd objects < 2 ^ 31 → total_size [flat objects] = Ok (zsum snd objects).
Proof.
  intros Hpos Hsum. unfold total_size. cbn [foldM]. rewrite triples_flat. cbn [mbind result_bind].
  assert (∀ l t, 0 ≤ t → t + zsum snd l < 2 ^ 31 → Forall (λ o : string * string * Z, 0 ≤ o.2) l →
    0 ≤ zsum snd l ∧
    foldM (λ total arg, n ← stoi arg.2; match in_int (total + n) with Ok t => Ok t | Throw _ => Throw Undefined end)
      (map (λ '(b, k, n), (b, k, to_string n)) l) t = Ok (t + zsum snd l)) as Hloop.
  { induction l as [|[[b k] n] l IH]; intros t Ht Hl Hn; cbn; [rewrite Z.add_0_r; by split|].
    apply Forall_cons in Hn as [Hn Hall]. cbn in Hn, Hl.
    assert (0 ≤ zsum snd l) as Hge by (clear -Hall; induction Hall; cbn; lia).
    rewrite stoi_to_string by lia. cbn. unfold in_int. rewrite decide_True by lia. rewrite Z.add_assoc.
    split; [lia|]. apply IH; [lia|lia|done]. }
  destruct (Hloop objects 0) as [_ ->]; [lia|lia|done|done].
Qed.

(** The objects packed into the call. *)
Lemma packed_args_spec flag objects values w :
  Forall2 (λ '(b, k, _) v, object_bytes w b k = Ok v) objects values →
  wp (packed_args flag (flat objects)) w (λ w' sent data, sent = [] ∧
    data = (zip objects values ≫= λ '((_, k, _), v),
      if decide (flag = 1) then [v] else if decide (flag = 2) then [k; v] else []) ∧
    ∃ lens, w' = on_env (λ l, set_store l (set_lens lens (store l))) w).
Proof.
  intros Hv. unfold packed_args. eff_step. eapply wp_lift; [apply triples_flat|].
  set (piece := λ p : string * string * Z * string, let '((_, k, _), v) := p in
      if decide (flag = 1) then [v] else if decide (flag = 2) then [k; v] else []).
  eapply wp_mono; [apply (wp_for_fold (λ pre w' sent data, sent = [] ∧
    data = (take (length pre) (zip objects values) ≫= piece) ∧
    ∃ lens, (∀ j, at_default 0 j lens = at_default 0 j (key_len_map (store (w_env w)))) ∧
      w' = on_env (λ l, set_store l (set_lens lens (store l))) w))|].
  - split_and!; [done|done|]. exists (key_len_map (store (w_env w))). split; [done|]. by destruct w as [? ? [[] ? ? ? ?]].
  - intros pre [[b k] size] w1 o1 data [post Hpost] (-> & -> & lens & Hlens & ->).
    assert (map (λ '(b, k, n), (b, k, to_string n)) objects !! length pre = Some (b, k, size)) as Hl
      by (rewrite Hpost; by apply list_lookup_middle).
    apply list_lookup_fmap_Some in Hl as ([[b' k'] n] & [= -> -> ->] & Ho).
    destruct (Forall2_lookup_l _ _ _ _ _ Hv Ho) as (v & Hval & Hb). cbn in Hb. unfold object_bytes in Hb.
    unfold key_len, get_local, upd_store, put_local. repeat eff_step.
    cbn [key_len_map store w_env on_env set_store set_lens]. rewrite Hlens.
    eapply wp_lift; [exact Hb|]. eff_step. split; [done|]. split.
    + rewrite length_app. cbn [length]. rewrite Nat.add_1_r.
      assert (zip objects values !! length pre = Some ((b', k', n), v)) as Hz
        by (rewrite lookup_zip_with, Ho; cbn; by rewrite Hval).
      rewrite (take_S_r _ _ _ Hz).
      rewrite bind_app, bind_cons. cbn [mbind list_bind]. rewrite app_nil_r. unfold piece at 2.
      case_decide; [done|]. case_decide; [done|]. by rewrite app_nil_r.
    + exists (touch 0 (b' +:+ kDelimiter +:+ k') lens). split; [intros j; by rewrite at_default_touch|done].
  - cbn beta. intros w' o data (-> & -> & lens & _ & ->). split; [done|]. split; [|by exists lens].
    rewrite length_map, take_ge; [done|]. rewrite length_zip. lia.
Qed.

(** The objects named in the call. *)
Lemma key_args_spec flag objects h :
  io_thread_count_ h ≠ 0 →
  wp (key_args flag (flat objects)) h (λ h' sent l, sent = [] ∧
    (∃ rid tid, h' = set_ids h rid tid) ∧
    Forall2 (λ '(b, k, _) a, arg_body a = b +:+ kDelimiter +:+ k ∧ arg_arg_flag a = u32 flag ∧
      ∃ tid, arg_data_address a = "tcp://" +:+ ip_ h +:+ ":" +:+ to_string (u32 (tid + dataAccessServerPort))) objects l).
Proof.
  unfold flat. revert h. induction objects as [|[[b k] n] objects IH]; intros h Hc.
  - cbn [mbind list_bind key_args]. eff_step. split; [done|]. split; [|constructor]. exists (rid_ h), (io_thread_id_ h). by destruct h.
  - rewrite bind_cons. cbn [app]. cbn [key_args]. unfold get_data_server_addr. do 2 eff_step.
    unfold wp at 1. rewrite get_io_thread_id_value by done. set (t := if decide _ then _ else _).
    repeat eff_step. eapply wp_mono; [by apply IH|].
    cbn beta. intros h' o l (-> & (rid & tid & ->) & Hl). eff_step. split; [done|].
    split; [by exists rid, tid|]. constructor; [|exact Hl].
    split; [done|]. split; [done|]. by exists t.
Qed.

(** What forwarding leaves alone. *)
Definition same_local (w w' : World (E := Local)) : Prop :=
  w_registry w' = w_registry w ∧ execs (w_env w') = execs (w_env w) ∧ waiting (w_env w') = waiting (w_env w) ∧
  timers (w_env w') = timers (w_env w).

Lemma forward_func_call_spec addr app_name func_name args objects flag session_id h :
  (0 < flag → args = flat objects) → (0 < flag → io_thread_count_ h ≠ 0) →
  wp (forward_func_call addr app_name [func_name] [args] flag session_id) h (λ _ sent _, ∃ arguments,
    (if decide (flag ≤ 0) then arguments = value_args flag args
     else Forall2 (λ '(b, k, _) a, arg_body a = b +:+ kDelimiter +:+ k ∧ arg_arg_flag a = u32 flag ∧
         ∃ tid, arg_data_address a = "tcp://" +:+ ip_ h +:+ ":" +:+ to_string (u32 (tid + dataAccessServerPort))) objects arguments) ∧
    sent = [{| send_to := HandlerThread.forward_func_connect_address (default empty_thread (app_coord_map_ h !! app_name));
               send_msg := MFunctionCall {|
                 fc_app_name := app_name;
                 fc_requests := [{| fr_name := func_name; fr_arguments := arguments;
                                    fr_cpu_cores := S754_zero false; fr_memory_mb := 0 |}];
                 fc_source := ip_ h; fc_request_id := ""; fc_resp_address := addr; fc_session_id := session_id;
                 fc_sync_data_status := true |} |}]).
Proof.
  intros Hargs Hio. unfold forward_func_call. do 2 eff_step. cbn [length]. rewrite decide_False by lia.
  unfold forward_request. cbn [mapM zip zip_with fst snd]. destruct (decide (flag > 0)) as [Hf|Hf].
  - rewrite (Hargs ltac:(lia)). do 3 eff_step.
    eff_call key_args_spec; [apply Hio; lia|]. intros h1 o1 l (-> & (rid & tid & ->) & Hl). repeat eff_step.
    exists l. split; [|done]. by rewrite decide_False by lia.
  - repeat eff_step. exists (value_args flag args). by rewrite decide_True by lia.
Qed.

Lemma schedule_sent now session_id app_name func_name func_args arg_flag cpu_cores memory_mb w x :
  executors_ok (execs (w_env w)) →
  
  eligible conf (execs (w_env w)) func_name x →
  wp (schedule_func_call conf now session_id app_name func_name func_args arg_flag cpu_cores memory_mb) w
    (λ w' sent _, outcome conf now session_id app_name func_name func_args arg_flag cpu_cores memory_mb w w' sent).
Proof.
  intros Hok Helig. unfold schedule_func_call. eff_step. eff_call pick_executor_spec.
  intros w1 o1 [y|] (-> & (fe & seed & -> & Hfe) & Hpick); [|by destruct (Hpick x)].
  destruct Hpick as [Hy Hwarm]. assert (is_Some (executor_status_map (execs (w_env w)) !! y)) as Hs.
  { destruct Hy as [[Hy _]|[Hy|[_ Hy]]]; by rewrite Hy. }
  destruct (Hok _ Hs) as [chan Hchan].
  eff_step. unfold wp at 1. rewrite client_addr_spec. eff_step.
  unfold send_to_executer, get_local, upd_execs, put_local, set_registry. do 2 eff_step.
  cbn [executor_chans_map execs w_env on_env with_execs set_store set_execs set_ramSeed set_function_execs].
  rewrite Hchan. repeat eff_step. eff_call notify_reruns_spec.
  intros w2 o2 _ (-> & reg & q & Hq & ->). cbn [app].
  apply (Sent conf now session_id app_name func_name func_args arg_flag cpu_cores memory_mb w _ y chan); done.
Qed.

Lemma forward_sends session_id app_name func_name args objects flag w (P : list Argument → Prop) :
  (0 < flag → args = flat objects) → (0 < flag → io_thread_count_ (w_helper w) ≠ 0) →
  (∀ arguments, (if decide (flag ≤ 0) then arguments = value_args flag args
     else Forall2 (λ '(b, k, _) a, arg_body a = b +:+ kDelimiter +:+ k ∧ arg_arg_flag a = u32 flag ∧
         ∃ tid, arg_data_address a = "tcp://" +:+ ip_ (w_helper w) +:+ ":" +:+ to_string (u32 (tid + dataAccessServerPort)))
         objects arguments) → P arguments) →
  wp (addr ← client_addr session_id;
      on_helper (forward_func_call addr app_name [func_name] [args] flag session_id)) w (λ w' sent _,
    same_local w w' ∧ ∃ arguments, P arguments ∧
      sent = [{| send_to := HandlerThread.forward_func_connect_address
                              (default empty_thread (app_coord_map_ (w_helper w) !! app_name));
                 send_msg := MFunctionCall (forwarded_call session_id app_name func_name w arguments) |}]).
Proof.
  intros Hargs Hio HP. eff_step. unfold wp at 1. rewrite client_addr_spec. unfold on_helper. apply wp_zoom.
  eff_call forward_func_call_spec; [done|done|]. intros h o _ (arguments & Harg & ->). split; [done|].
  exists arguments. split; [by apply HP|done].
Qed.

(** A call that is handed to the coordinator. *)
Lemma forward_call_spec session_id app_name func_name func_args flag w :
  forwardable func_args flag w →
  wp (func_args_vec ←
        (if decide (flag > 0) then
           first ← lift (vec_at func_args 0);
           mret (if has_delimiter first then [flatten_args func_args] else [func_args])
         else mret [func_args]);
      forward_call_via_helper session_id app_name [func_name] func_args_vec flag) w (λ w' sent _,
    same_local w w' ∧ ∃ arguments, forwarded_args func_args flag w arguments ∧
      sent = [{| send_to := HandlerThread.forward_func_connect_address
                              (default empty_thread (app_coord_map_ (w_helper w) !! app_name));
                 send_msg := MFunctionCall (forwarded_call session_id app_name func_name w arguments) |}]).
Proof.
  intros Hf. eff_step. destruct (decide (flag > 0)) as [Hflag|Hflag].
  2:{ eff_step. unfold forward_call_via_helper. rewrite decide_False by lia.
      apply (forward_sends _ _ _ _ []); [lia|lia|]. intros arguments. unfold forwarded_args. by rewrite !decide_True by lia. }
  destruct Hf as [?|(objects & -> & (Hne & Hsum & Hok) & Hio & Hread)]; [lia|].
  assert (Forall (λ o : string * string * Z, 0 ≤ o.2) objects) as Hpos.
  { eapply Forall_impl; [exact Hok|]. intros [[b k] n]. cbn. tauto. }
  assert (flatten_args (key_args_of objects) = flat objects) as Hflat.
  { apply flatten_key_args. eapply Forall_impl; [exact Hok|]. intros [[b k] n]. tauto. }
  eff_step. destruct objects as [|[[b0 k0] n0] rest]; [done|]. set (objects := (b0, k0, n0) :: rest) in *.
  eapply wp_lift; [reflexivity|]. eff_step.
  rewrite has_delimiter_name, Hflat by (apply Forall_cons in Hok as [? _]; tauto).
  unfold forward_call_via_helper. rewrite decide_True by lia. eff_step.
  eapply wp_lift; [by apply total_size_flat|].
  assert (∀ l, Forall (λ o : string * string * Z, 0 ≤ o.2) l → 0 ≤ zsum snd l) as Hge.
  { intros l Hl. induction Hl; cbn; lia. }
  rewrite u32_small by (specialize (Hge objects Hpos); lia). case_decide as Hsmall.
  - specialize (Hread Hsmall). assert (∃ values, Forall2 (λ '(b, k, _) v, object_bytes w b k = Ok v) objects values) as [values Hv].
    { clear -Hread. induction Hread as [|[[b k] n] l [v Hv] _ [values IH]]; [by exists []|]. exists (v :: values). by constructor. }
    eff_step. cbn [mapM]. eff_step. eff_call packed_args_spec; [exact Hv|].
    intros w1 o1 data (-> & Hdata & lens & ->). do 3 eff_step. cbn [app].
    eapply wp_mono; [apply (forward_sends _ _ _ _ [] 0 _ (λ arguments, arguments = value_args 0 data)); [lia|lia|]|].
    { intros arguments. by rewrite decide_True by lia. }
    cbn beta. intros w2 o2 _ (Hs & arguments & -> & ->). split; [exact Hs|].
    eexists. split; [|reflexivity]. unfold forwarded_args. rewrite decide_False by lia. exists objects. split; [done|].
    rewrite decide_True by done. exists values. split; [done|]. by rewrite Hdata.
  - apply (forward_sends _ _ _ _ objects); [done|done|].
    intros arguments. rewrite decide_False by lia. intros Harg. unfold forwarded_args.
    rewrite decide_False by lia. exists objects. split; [done|]. by rewrite decide_False by done.
Qed.

Lemma schedule_kept now session_id app_name func_name func_args arg_flag cpu_cores memory_mb w :
  forwardable func_args arg_flag w ∨ keeps_calls conf → (∀ x, ¬ eligible conf (execs (w_env w)) func_name x) →
  wp (schedule_func_call conf now session_id app_name func_name func_args arg_flag cpu_cores memory_mb) w
    (λ w' sent _, outcome conf now session_id app_name func_name func_args arg_flag cpu_cores memory_mb w w' sent).
Proof.
  intros Hkeep Hnone. unfold schedule_func_call. eff_step. eff_call pick_executor_spec.
  intros w1 o1 [y|] (-> & (fe & seed & -> & Hfe) & Hpick); [by destruct Hpick as [Hy _]; apply Hnone in Hy|].
  case_decide as Hd.
  - unfold upd_timers, put_local. eff_step. apply (Kept _ _ _ _ _ _ _ _ _ _ _ _ []); try done.
    + intros []. left. lia.
    + by rewrite decide_True.
  - destruct (rejectExtraReq conf) eqn:Hr.
    + eff_step. apply (Kept _ _ _ _ _ _ _ _ _ _ _ _ []); try done; [intros []; by right|]. by rewrite decide_False, Hr.
    + destruct Hkeep as [Hfw|[?|?]]; [|lia|congruence].
      eapply wp_mono; [apply forward_call_spec; exact Hfw|]. cbn beta.
      intros w2 o2 _ ((Hreg & He & Hw & Ht) & arguments & Harg & ->).
      apply (Kept _ _ _ _ _ _ _ _ _ _ _ _ arguments); try done.
      * intros f. rewrite He. apply Hfe.
      * by rewrite He.
      * by rewrite He.
      * by rewrite Ht.
      * rewrite decide_False, Hr, Ht by lia. done.
Qed.

Lemma schedule_func_call_spec now session_id app_name func_name func_args arg_flag cpu_cores memory_mb w :
  executors_ok (execs (w_env w)) →
  forwardable func_args arg_flag w ∨ keeps_calls conf ∨ (∃ x, eligible conf (execs (w_env w)) func_name x) →
  wp (schedule_func_call conf now session_id app_name func_name func_args arg_flag cpu_cores memory_mb) w
    (λ w' sent _, outcome conf now session_id app_name func_name func_args arg_flag cpu_cores memory_mb w w' sent).
Proof.
  intros Hok Hcase.
  pose proof (pick_executor_spec func_name w) as Hpick. apply wp_Ok in Hpick as (w1 & o1 & [x|] & _ & _ & _ & Hx).
  - apply (schedule_sent _ _ _ _ _ _ _ _ _ x); naive_solver.
  - apply schedule_kept; [|done]. destruct Hcase as [?|[?|[y Hy]]]; [by left|by right|by apply Hx in Hy].
Qed.

(** Whatever becomes of a call, the executors keep their channels and the calls that
    wait for data are not concerned. *)
Lemma outcome_executors_ok now session_id app_name func_name func_args arg_flag cpu_cores memory_mb w w' sent :
  outcome conf now session_id app_name func_name func_args arg_flag cpu_cores memory_mb w w' sent →
  executors_ok (execs (w_env w)) → executors_ok (execs (w_env w')).
Proof.
  intros Hout Hok.
  destruct Hout as [w' x chan e e' _ _ Hst Hch Hx|w' sent ar e e' _ _ Hst Hch]; intros y; fold e'; rewrite Hst, Hch.
  - intros Hy. destruct (decide (y = x)) as [->|]; [by rewrite Hx|].
    rewrite lookup_insert_ne in Hy by done. by apply Hok.
  - apply Hok.
Qed.

Lemma outcome_waiting now session_id app_name func_name func_args arg_flag cpu_cores memory_mb w w' sent :
  outcome conf now session_id app_name func_name func_args arg_flag cpu_cores memory_mb w w' sent →
  waiting (w_env w') = waiting (w_env w).
Proof. by destruct 1. Qed.

(** A call takes at most one of the executors that are free for every function. *)
Lemma idle_eligible e func_name : (0 < idle_count conf e)%nat → ∃ x, eligible conf e func_name x.
Proof.
  unfold idle_count. intros Hn.
  destruct (map_choose (filter (λ p, p.2 = 0 ∨ sharedExecutor conf = true ∧ p.2 = 1) (executor_status_map e)))
    as (x & s & Hx); [intros E; rewrite E, map_size_empty in Hn; lia|].
  apply map_lookup_filter_Some in Hx as [Hx Hs]. exists x. right. unfold cold. rewrite Hx. cbn in Hs. naive_solver.
Qed.

Lemma outcome_idle now session_id app_name func_name func_args arg_flag cpu_cores memory_mb w w' sent :
  outcome conf now session_id app_name func_name func_args arg_flag cpu_cores memory_mb w w' sent →
  (idle_count conf (execs (w_env w)) ≤ S (idle_count conf (execs (w_env w'))))%nat.
Proof.
  intros [w1 x chan e e' _ _ Hst _ _ _ _ _ _|w1 o1 ar e e' _ _ Hst _ _ _ _ _ _]; unfold idle_count; fold e'; rewrite Hst; [|fold e; lia].
  rewrite map_filter_insert_False by (cbn; intros [?|[_ ?]]; lia). rewrite map_filter_delete. fold e.
  set (m := filter _ (executor_status_map e)). destruct (m !! x) eqn:E; [|rewrite delete_id by done; lia].
  rewrite map_size_delete_Some by (by rewrite E). lia.
Qed.

(** Whether a call can be forwarded depends on the objects of the node only. *)
Lemma forwardable_frame func_args flag w w' :
  shm (store (w_env w')) = shm (store (w_env w)) →
  (∀ k, at_default 0 k (key_len_map (store (w_env w'))) = at_default 0 k (key_len_map (store (w_env w)))) →
  (io_thread_count_ (w_helper w') ≠ 0) → forwardable func_args flag w → forwardable func_args flag w'.
Proof.
  intros Hs Hl Hio [?|(objects & E & Hok & _ & Hread)]; [by left|right]. exists objects. split; [done|]. split; [done|].
  split; [done|]. intros Hsmall. eapply Forall_impl; [by apply Hread|]. intros [[b k] n]. cbn.
  unfold object_bytes, shm_read. by rewrite Hs, Hl.
Qed.

(** The copy of a small durable object writes the terminator past the end of its buffer. *)
Lemma strcpy_overruns s : strcpy (size_of s) s = Throw Undefined.
Proof. unfold strcpy. by rewrite decide_False by lia. Qed.

(** ** Properties *)

(** C11: when an executor is free for a call ([eligible]), the call is sent to exactly one,
    to one that has run the function when there is one; the executor is booked, its
    re-execution checks are queued, and nothing else of the schedule changes.  When none is
    free, the call is queued if there is a delay, dropped if there is none and the node
    rejects calls, and else handed to the coordinator of its application, its arguments
    as values or, if they are objects, packed into it or by name with an address of the
    node.  That last case needs a call that can be forwarded: with values, or with objects
    whose names are [bucket|key], whose sizes sum up to an [int], and whose bytes are on
    the node when they are to be packed ([forwardable]). *)
Theorem schedule_func_call_outcome now session_id app_name func_name func_args arg_flag cpu_cores memory_mb w :
  executors_ok (execs (w_env w)) →
  forwardable func_args arg_flag w ∨ keeps_calls conf ∨ (∃ x, eligible conf (execs (w_env w)) func_name x) →
  ∃ w' sent,
    schedule_func_call conf now session_id app_name func_name func_args arg_flag cpu_cores memory_mb w
      = Ok (w', sent, tt) ∧
    outcome conf now session_id app_name func_name func_args arg_flag cpu_cores memory_mb w w' sent ∧
    executors_ok (execs (w_env w')).
Proof.
  intros Hok Hcase. pose proof (schedule_func_call_spec now session_id app_name func_name func_args arg_flag
    cpu_cores memory_mb w Hok Hcase) as Hspec.
  apply wp_Ok in Hspec as (w' & sent & [] & E & Hout). exists w', sent.
  eauto using outcome_executors_ok.
Qed.

End scheduling.

(** An example node with two executors: executor 0 has run [f] and is free, executor 1
    is fresh. *)
Definition example_conf : SchedConf := {| schedDelayTime := 0; sharedExecutor := false; rejectExtraReq := false |}.

Definition example_node : World (E := Local) := {|
  w_helper := new_CommHelper [] "10.0.0.1" 2 []; w_registry := empty_Registry;
  w_env := set_execs (initial_Local 2 7 0) {| executor_status_map := {[0 := 1; 1 := 0]};
    function_executor_map := {["f" := {[0]}]}; executor_chans_map := {[0 := "ipc-0"; 1 := "ipc-1"]}; ramSeed := 7 |} |}.

Lemma example_executors_ok : executors_ok (execs (w_env example_node)).
Proof.
  intros x [s Hs]. cbn in *. apply lookup_insert_Some in Hs as [[<- _]|[_ Hs]]; [by eexists|].
  apply lookup_singleton_Some in Hs as [<- _]. by eexists.
Qed.

#[local] Existing Instances sorted_iter lcg_rand bits_lattice_messages bits_primitive_messages.

Lemma schedule_func_call_outcome_witness :
  ∃ w' sent,
    schedule_func_call example_conf 5 "0123456789abcdef" "app" "f" ["1"] 0 (S754_zero false) 0 example_node
      = Ok (w', sent, tt) ∧
    outcome example_conf 5 "0123456789abcdef" "app" "f" ["1"] 0 (S754_zero false) 0 example_node w' sent ∧
    executors_ok (execs (w_env w')).
Proof. apply schedule_func_call_outcome; [apply example_executors_ok|left; left; lia]. Defined.

(** A node without a free executor, and a call with two objects, which it packs into the
    call to the coordinator. *)
Definition example_busy : World (E := Local) :=
  let l := w_env example_node in
  let objects := {["b|k" := 5; "b|l" := 3]} in
  {| w_helper := w_helper example_node; w_registry := w_registry example_node;
     w_env := set_store (set_execs l (set_status {[0 := 2; 1 := 2]} (execs l)))
       {| key_len_map := objects; key_val_map := ∅; session_client_addr_map := ∅;
          shm := {["b|k" := "value"; "b|l" := "two"]} |} |}.

Example example_forwarded :
  (λ r, map (λ s, match send_msg s with
                  | MFunctionCall c => (fc_requests c ≫= λ q, map (λ a, (arg_body a, arg_arg_flag a)) (fr_arguments q))
                  | _ => []
                  end) r.1.2)
    <$> (match schedule_func_call example_conf 5 "0123456789abcdef" "app" "f" (key_args_of [("b", "k", 5); ("b", "l", 3)]) 2
                 (S754_zero false) 0 example_busy with Ok r => Some r | Throw _ => None end)
  = Some [[("k", 0); ("value", 0); ("l", 0); ("two", 0)]].
Proof. by vm_compute. Qed.
