(* ===== verification/LocalWaiting.v ===== *)
(** * Calls that wait for data

    The invariant of the calls the local scheduler holds back until their arguments
    have arrived, and what the arrival of an object does ([handle_data_resp]). *)

From S2P Require Import Prelude CppString CppDouble Messages Common Triggers Threads Effects.
From S2P Require Import CommHelper LocalScheduler LocalSpecs.

(** ** Definitions *)

(** The calls that wait: a call is listed under exactly the keys it still waits for,
    and waits for at least one. *)
Record waiting_ok (w : Waiting) : Prop := {
  wo_index k cid : cid ∈ at_default ∅ k (key_call_id_map w) ↔
    ∃ a, call_id_inflight_args_map w !! cid = Some a ∧ k ∈ inflight_args_ a;
  wo_waits cid a : call_id_inflight_args_map w !! cid = Some a → inflight_args_ a ≠ ∅;
  wo_ids cid : is_Some (call_id_inflight_args_map w !! cid) → 0 ≤ cid < call_id w }.

(** The arrival of a key: a call that waits for nothing else is released. *)
Definition without_key (key : string) (a : InflightFuncArgs) : InflightFuncArgs := {|
  ia_func_name_ := ia_func_name_ a; ia_session_id_ := ia_session_id_ a; key_args_ := key_args_ a;
  inflight_args_ := inflight_args_ a ∖ {[key]}; ia_arg_flag_ := ia_arg_flag_ a;
  ia_cpu_cores_ := ia_cpu_cores_ a; ia_memory_mb_ := ia_memory_mb_ a |}.

Definition arrive (key : string) (call : option InflightFuncArgs) : option InflightFuncArgs :=
  a ← call; if decide (inflight_args_ a ∖ {[key]} = ∅) then None else Some (without_key key a).

(** The calls among [cids] that wait for [key] only. *)
Definition released (calls : gmap Z InflightFuncArgs) (key : string) (cids : list Z) : list InflightFuncArgs :=
  cids ≫= λ cid,
    match calls !! cid with
    | Some a => if decide (inflight_args_ a ∖ {[key]} = ∅) then [a] else []
    | None => []
    end.

(** The arguments that the node does not have. *)
Definition missing (func_args : list string) (w : World (E := Local)) : gset string :=
  list_to_set (filter (λ k, key_len_map (store (w_env w)) !! k = None) func_args).

(** The I/O threads of the helper: the counter is in range, every secondary thread has
    a queue. *)
Definition helper_ok (h : CommHelper) : Prop :=
  0 < io_thread_count_ h < 2 ^ 32 ∧ 0 ≤ io_thread_id_ h ∧
  (io_thread_count_ h = 1 ∨ io_thread_id_ h < io_thread_count_ h) ∧
  Z.of_nat (length (secondary_thread_msg_queues h)) = io_thread_count_ h - 1.

(** The names and sizes of the arguments of a call. *)
Definition sized_args (keys : list string) (w : World (E := Local)) : list string :=
  keys ≫= λ key, [key; to_string (at_default 0 key (key_len_map (store (w_env w))))].

(** The replies to the executors that wait for an object. *)
Definition replies (requests : list InflightIORequest) (value : string) (w : World (E := Local)) : list Send :=
  map (λ r, {| send_to := default "" (executor_chans_map (execs (w_env w)) !! executor_id_ r);
               send_msg := MBytes (reply (req_id_ r) value) |}) requests.

(** Nothing happened to executors and timers. *)
Definition same_schedule (w w' : World (E := Local)) : Prop :=
  execs (w_env w') = execs (w_env w) ∧ timers (w_env w') = timers (w_env w).

(** The calls of a list are scheduled one after the other, each with an outcome of
    [schedule_func_call]. *)
Inductive schedules (conf : SchedConf) (now : Z) (w : World (E := Local))
    : list InflightFuncArgs → World (E := Local) → list Send → Prop :=
| schedules_nil w' : same_schedule w w' → schedules conf now w [] w' []
| schedules_snoc l a w0 sent w1 w2 sent' w' :
    schedules conf now w l w0 sent → same_schedule w0 w1 →
    outcome conf now (ia_session_id_ a) (at_default "" (ia_func_name_ a) (func_app_map (w_registry w1)))
      (ia_func_name_ a) (sized_args (key_args_ a) w1) (ia_arg_flag_ a) (ia_cpu_cores_ a) (ia_memory_mb_ a)
      w1 w2 sent' →
    same_schedule w2 w' →
    schedules conf now w (l ++ [a]) w' (sent ++ sent').

(** ** Lemmas *)

Lemma touch_lens_at_default j k (m : gmap string Z) : at_default 0 j (touch 0 k m) = at_default 0 j m.
Proof. apply at_default_touch. Qed.

#[local] Instance same_schedule_preorder : PreOrder same_schedule.
Proof. split; [done|]. intros w1 w2 w3 [??] [??]. split; congruence. Qed.

Section waiting.
Context `{UnorderedIter, Rand, LatticeMessages, PrimitiveMessages} (conf : SchedConf).

Lemma schedules_frame now w l w1 sent w2 :
  schedules conf now w l w1 sent → same_schedule w1 w2 → schedules conf now w l w2 sent.
Proof.
  destruct 1; intros Hs; [constructor; by etrans|]. econstructor; [done..|]. by etrans.
Qed.

Lemma schedules_start now w w1 l w2 sent :
  same_schedule w w1 → schedules conf now w1 l w2 sent → schedules conf now w l w2 sent.
Proof.
  intros Hs. induction 1; [constructor; by etrans|]. by econstructor.
Qed.

(** Reading the sizes of the arguments only touches the map of sizes. *)
Lemma full_args_spec keys w :
  wp (full_args keys) w (λ w' sent args,
    sent = [] ∧ args = sized_args keys w ∧
    ∃ lens, (∀ k, at_default 0 k lens = at_default 0 k (key_len_map (store (w_env w)))) ∧
      w' = on_env (λ l, set_store l (set_lens lens (store l))) w).
Proof.
  eapply wp_mono.
  - apply (wp_for_fold (λ pre w' sent args, sent = [] ∧ args = sized_args pre w ∧
      ∃ lens, (∀ k, at_default 0 k lens = at_default 0 k (key_len_map (store (w_env w)))) ∧
        w' = on_env (λ l, set_store l (set_lens lens (store l))) w)).
    + split_and!; [done|done|]. exists (key_len_map (store (w_env w))). split; [done|].
      by destruct w as [? ? [[] ? ? ? ?]].
    + intros pre key w1 o1 args _ (-> & -> & lens & Hlens & ->).
      unfold key_len, get_local, upd_store, put_local. repeat eff_step. split_and!; [done| |].
      * unfold sized_args. rewrite bind_app. cbn [key_len_map store w_env on_env set_store set_lens mbind list_bind].
        by rewrite Hlens, app_nil_r.
      * exists (touch 0 key lens). split; [intros k; by rewrite at_default_touch|done].
  - done.
Qed.

Lemma reply_all_spec requests value w :
  Forall (λ r, is_Some (executor_chans_map (execs (w_env w)) !! executor_id_ r)) requests →
  wp (reply_all requests value) w (λ w' sent _, w' = w ∧ sent = replies requests value w).
Proof.
  intros Hchans. eapply wp_mono.
  - apply (wp_for_each (λ pre w' sent, w' = w ∧ sent = replies pre value w)); [done|].
    intros pre r w1 o1 [post ->] [-> ->]. apply Forall_app in Hchans as [_ Hr].
    apply Forall_cons in Hr as [[chan Hr] _]. unfold send_to_executer, get_local. do 2 eff_step.
    rewrite Hr. eff_step. split; [done|]. unfold replies. rewrite map_app. cbn. by rewrite Hr.
  - done.
Qed.

(** One call: its entry is updated, and when it waits for nothing else it is scheduled. *)
Lemma argument_arrived_spec now key cid w :
  let W := waiting (w_env w) in
  executors_ok (execs (w_env w)) →
  keeps_calls conf ∨ (length (released (call_id_inflight_args_map W) key [cid]) ≤ idle_count conf (execs (w_env w)))%nat →
  is_Some (call_id_inflight_args_map W !! cid) →
  wp (argument_arrived conf now key cid) w (λ w' sent _,
    executors_ok (execs (w_env w')) ∧
    (idle_count conf (execs (w_env w)) ≤
       length (released (call_id_inflight_args_map W) key [cid]) + idle_count conf (execs (w_env w')))%nat ∧
    waiting (w_env w') = set_calls (partial_alter (arrive key) cid (call_id_inflight_args_map W)) (key_call_id_map W) W ∧
    ∀ w0 l sent0, schedules conf now w0 l w sent0 →
      schedules conf now w0 (l ++ released (call_id_inflight_args_map W) key [cid]) w' (sent0 ++ sent)).
Proof.
  intros W Hok Hkeep [a Ha]. unfold argument_arrived, get_local, upd_waiting, put_local. do 4 eff_step.
  fold W. unfold at_default_Z. rewrite Ha. cbn [from_option id]. fold (without_key key a).
  assert (partial_alter (arrive key) cid (call_id_inflight_args_map W)
    = if decide (inflight_args_ a ∖ {[key]} = ∅) then delete cid (call_id_inflight_args_map W)
      else <[cid := without_key key a]> (call_id_inflight_args_map W)) as ->.
  { apply map_eq. intros c. destruct (decide (c = cid)) as [->|].
    - rewrite lookup_partial_alter_eq, Ha. cbn. case_decide; [by rewrite lookup_delete_eq|by rewrite lookup_insert_eq].
    - rewrite lookup_partial_alter_ne by done. case_decide; [by rewrite lookup_delete_ne|by rewrite lookup_insert_ne]. }
  change (inflight_args_ (without_key key a)) with (inflight_args_ a ∖ {[key]}).
  assert (released (call_id_inflight_args_map W) key [cid]
    = if decide (inflight_args_ a ∖ {[key]} = ∅) then [a] else []) as ->.
  { unfold released. cbn. by rewrite Ha, app_nil_r. }
  destruct (decide (inflight_args_ a ∖ {[key]} = ∅)) as [Hempty|Hne].
  - eff_step. eff_call full_args_spec. intros w1 o1 args (-> & -> & lens & Hlens & ->).
    unfold app_of_func, set_registry. repeat eff_step.
    match goal with |- wp _ ?st _ => set (w1 := st) end.
    assert (∀ w', (∀ k, at_default 0 k (key_len_map (store (w_env w'))) = at_default 0 k (key_len_map (store (w_env w)))) →
      sized_args (key_args_ a) w' = sized_args (key_args_ a) w) as Hsized.
    { intros w' Hw'. unfold sized_args. apply list_bind_ext; [|done]. intros k. by rewrite Hw'. }
    eff_call schedule_func_call_spec; [exact Hok| |].
    { right. destruct Hkeep as [?|Hn]; [by left|right]. apply idle_eligible. revert Hn.
      unfold released. cbn. rewrite Ha. cbn. rewrite decide_True by done. cbn. lia. }
    intros w2 o2 _ Hout. eff_step. split_and!.
    + exact (outcome_executors_ok _ _ _ _ _ _ _ _ _ _ _ _ Hout Hok).
    + exact (outcome_idle _ _ _ _ _ _ _ _ _ _ _ _ Hout).
    + cbn. rewrite (outcome_waiting _ _ _ _ _ _ _ _ _ _ _ _ Hout). cbn. unfold set_calls. cbn. f_equal.
      by rewrite delete_insert_eq.
    + intros w0 l sent0 Hs. cbn [app]. rewrite app_nil_r. eapply (schedules_snoc _ _ _ _ _ _ _ w1 w2); [done|done| |done].
      rewrite (Hsized w1) by exact Hlens. replace (at_default "" (ia_func_name_ a) (func_app_map (w_registry w1)))
        with (at_default "" (ia_func_name_ a) (func_app_map (w_registry w))); [exact Hout|].
      cbn. by rewrite at_default_touch.
  - eff_step. split_and!; [done|done|done|]. intros w0 l sent0 Hs. rewrite !app_nil_r. by eapply schedules_frame.
Qed.

Lemma answer_gets_spec key value w :
  let W := waiting (w_env w) in
  let requests := default [] (key_remote_get_map W !! key) in
  Forall (λ r, is_Some (executor_chans_map (execs (w_env w)) !! executor_id_ r)) requests →
  wp (answer_gets key value) w (λ w' sent _, sent = replies requests value w ∧
    w' = on_env (λ l, set_waiting l (set_gets (delete key (key_remote_get_map W)) W)) w).
Proof.
  intros W requests Hreq. unfold answer_gets, get_local, upd_waiting, put_local. do 2 eff_step. fold W.
  unfold requests in *. destruct (key_remote_get_map W !! key) as [rs|] eqn:Hrs; cbn [default from_option id] in *.
  - eff_step. eff_call reply_all_spec; [done|]. intros w1 o1 _ [-> ->]. eff_step. by rewrite app_nil_r.
  - eff_step. split; [done|]. rewrite delete_id by done. unfold W. by destruct w as [? ? [? ? [] ? ?]].
Qed.

Lemma lookup_arrivals key (calls : gmap Z InflightFuncArgs) (cids : list Z) cid :
  NoDup cids →
  foldl (λ m c, partial_alter (arrive key) c m) calls cids !! cid
  = if decide (cid ∈ cids) then arrive key (calls !! cid) else calls !! cid.
Proof.
  intros Hnd. revert calls. induction Hnd as [|c cids Hc Hnd IH]; intros calls; [done|].
  cbn [foldl]. rewrite IH. destruct (decide (cid = c)) as [->|Hne].
  - rewrite decide_False, decide_True by (done || left). by rewrite lookup_partial_alter_eq.
  - rewrite lookup_partial_alter_ne by done. case_decide; [rewrite decide_True by (by right); done|].
    by rewrite decide_False by set_solver.
Qed.

Lemma arrivals_snoc key (calls : gmap Z InflightFuncArgs) cids cid :
  foldl (λ m c, partial_alter (arrive key) c m) calls (cids ++ [cid])
  = partial_alter (arrive key) cid (foldl (λ m c, partial_alter (arrive key) c m) calls cids).
Proof. by rewrite foldl_app. Qed.

(** All the calls that wait for the key. *)
Lemma arguments_arrived_spec now key cids w :
  let W := waiting (w_env w) in
  executors_ok (execs (w_env w)) → NoDup cids →
  keeps_calls conf ∨ (length (released (call_id_inflight_args_map W) key cids) ≤ idle_count conf (execs (w_env w)))%nat →
  (∀ cid, cid ∈ cids → is_Some (call_id_inflight_args_map W !! cid)) →
  wp (for_each (argument_arrived conf now key) cids) w (λ w' sent _,
    executors_ok (execs (w_env w')) ∧
    waiting (w_env w') = set_calls (foldl (λ m c, partial_alter (arrive key) c m) (call_id_inflight_args_map W) cids)
      (key_call_id_map W) W ∧
    schedules conf now w (released (call_id_inflight_args_map W) key cids) w' sent).
Proof.
  intros W Hok Hnd Hkeep Hcalls. set (rel := released (call_id_inflight_args_map W) key).
  eapply wp_mono; [apply (wp_for_each (λ pre w' sent, executors_ok (execs (w_env w')) ∧
    (idle_count conf (execs (w_env w)) ≤ length (rel pre) + idle_count conf (execs (w_env w')))%nat ∧
    waiting (w_env w') = set_calls (foldl (λ m c, partial_alter (arrive key) c m) (call_id_inflight_args_map W) pre)
      (key_call_id_map W) W ∧
    schedules conf now w (rel pre) w' sent))|cbn beta; tauto].
  - split_and!; [done|done| |]; [unfold W; by destruct (waiting (w_env w))|by apply schedules_nil].
  - intros pre cid w1 o1 [post ->] (Hok1 & Hidle & HW1 & Hs). apply NoDup_app in Hnd as (Hpre & Hdisj & _).
    assert (foldl (λ m c, partial_alter (arrive key) c m) (call_id_inflight_args_map W) pre !! cid
      = call_id_inflight_args_map W !! cid) as Hcid.
    { rewrite lookup_arrivals by done. rewrite decide_False; [done|]. intros Hin. apply (Hdisj _ Hin). left. }
    assert (rel [cid] = released (foldl (λ m c, partial_alter (arrive key) c m) (call_id_inflight_args_map W) pre) key [cid]) as Erel.
    { unfold rel, released. cbn. by rewrite Hcid. }
    eff_call argument_arrived_spec; [done| | |].
    + rewrite HW1. cbn [call_id_inflight_args_map set_calls]. rewrite <- Erel.
      destruct Hkeep as [?|Hn]; [by left|right]. revert Hn. fold (rel (pre ++ cid :: post)).
      replace (rel (pre ++ cid :: post)) with (rel pre ++ rel [cid] ++ rel post); [rewrite !length_app; lia|].
      unfold rel, released. by rewrite bind_app, <- bind_app.
    + rewrite HW1. cbn. rewrite Hcid. apply Hcalls, elem_of_app. right. left.
    + intros w2 o2 _ (Hok2 & Hidle2 & HW2 & Hs2). rewrite HW1 in HW2, Hs2, Hidle2.
      cbn [call_id_inflight_args_map set_calls] in Hidle2. rewrite <- Erel in Hidle2. cbn in HW2, Hs2. split_and!; [done| | |].
      * unfold rel, released. rewrite bind_app, length_app. unfold rel, released in Hidle, Hidle2. lia.
      * rewrite HW2, arrivals_snoc. done.
      * apply Hs2 in Hs. unfold rel, released in *. rewrite bind_app. cbn in *. by rewrite Hcid in Hs.
Qed.

(** The arrival of a key keeps the index of the calls that wait. *)
Lemma arrivals_ok key (W : Waiting) cids :
  waiting_ok W → NoDup cids → (∀ cid, cid ∈ cids ↔ cid ∈ at_default ∅ key (key_call_id_map W)) →
  let calls := foldl (λ m c, partial_alter (arrive key) c m) (call_id_inflight_args_map W) cids in
  (∀ cid, calls !! cid = arrive key (call_id_inflight_args_map W !! cid)) ∧
  waiting_ok (set_calls calls (delete key (key_call_id_map W)) W).
Proof.
  intros [Hindex Hwaits Hids] Hnd Hcids calls.
  assert (∀ cid, calls !! cid = arrive key (call_id_inflight_args_map W !! cid)) as Hcalls.
  { intros cid. unfold calls. rewrite lookup_arrivals by done. case_decide as Hin; [done|].
    rewrite Hcids, Hindex in Hin. destruct (call_id_inflight_args_map W !! cid) as [a|] eqn:Ha; [|done]. cbn.
    assert (key ∉ inflight_args_ a) as Hkey by naive_solver.
    assert (inflight_args_ a ∖ {[key]} = inflight_args_ a) as E by set_solver.
    rewrite decide_False by (rewrite E; by eapply Hwaits). f_equal. unfold without_key. rewrite E. by destruct a. }
  split; [done|]. split.
  - intros k cid. cbn. rewrite Hcalls. unfold at_default. destruct (decide (k = key)) as [->|Hk].
    + rewrite lookup_delete_eq. cbn. split; [set_solver|]. intros (a' & Ha' & Hin).
      unfold arrive in Ha'. apply bind_Some in Ha' as (a & _ & Ha'). case_decide; simplify_eq. cbn in Hin. set_solver.
    + rewrite lookup_delete_ne by done. change (default ∅ (key_call_id_map W !! k)) with (at_default ∅ k (key_call_id_map W)).
      rewrite Hindex. split.
      * intros (a & Ha & Hin). rewrite Ha. cbn. rewrite decide_False by set_solver.
        eexists. split; [done|]. cbn. set_solver.
      * intros (a' & Ha' & Hin). unfold arrive in Ha'. apply bind_Some in Ha' as (a & Ha & Ha').
        case_decide; simplify_eq. exists a. split; [done|]. cbn in Hin. set_solver.
  - intros cid a'. cbn. rewrite Hcalls. unfold arrive. intros Ha'. apply bind_Some in Ha' as (a & Ha & Ha').
    case_decide; by simplify_eq.
  - intros cid. cbn. rewrite Hcalls. intros [a' Ha']. apply Hids. unfold arrive in Ha'.
    apply bind_Some in Ha' as (a & Ha & _). by eexists.
Qed.

Lemma release_calls_spec now key w :
  let W := waiting (w_env w) in
  let cids := set_iter (at_default ∅ key (key_call_id_map W)) in
  waiting_ok W → executors_ok (execs (w_env w)) →
  keeps_calls conf ∨ (length (released (call_id_inflight_args_map W) key cids) ≤ idle_count conf (execs (w_env w)))%nat →
  wp (release_calls conf now key) w (λ w' sent _,
    waiting (w_env w') = set_calls (foldl (λ m c, partial_alter (arrive key) c m) (call_id_inflight_args_map W) cids)
      (delete key (key_call_id_map W)) W ∧
    schedules conf now w (released (call_id_inflight_args_map W) key cids) w' sent).
Proof.
  intros W cids HW Hok Hkeep. unfold release_calls, get_local, upd_waiting, put_local. do 2 eff_step. fold W.
  revert Hkeep. unfold cids, at_default. destruct (key_call_id_map W !! key) as [s|] eqn:Hs; cbn [default from_option id]; intros Hkeep.
  - eff_step. eff_call arguments_arrived_spec; [done|apply set_iter_NoDup|done| |].
    + intros cid Hcid. apply set_iter_elem in Hcid. destruct (wo_index _ HW key cid) as [Hc _].
      unfold at_default in Hc. rewrite Hs in Hc. destruct (Hc Hcid) as (a & Ha & _). by eexists.
    + intros w1 o1 _ (_ & HW1 & Hsched). eff_step. rewrite app_nil_r. split; [cbn; by rewrite HW1|].
      by eapply schedules_frame.
  - eff_step. assert (set_iter (K := Z) ∅ = []) as ->; [|split; [cbn; rewrite delete_id by done; unfold W; by destruct (waiting (w_env w))|by apply schedules_nil]].
    destruct (set_iter ∅) as [|c l] eqn:E; [done|]. assert (c ∈ set_iter (K := Z) ∅) as Hc by (rewrite E; left).
    apply set_iter_elem in Hc. set_solver.
Qed.

(** A request for data goes out at once or is handed to a secondary thread. *)
Lemma send_data_req_spec key h :
  helper_ok h → wp (send_data_req key) h (λ h' _ _, helper_ok h').
Proof.
  intros (Hc & Hid & Hlt & Hq).
  assert (∀ g, helper_ok g → wp (send_data_req_base key 0) g (λ h' _ _, helper_ok h')) as Hbase.
  { intros g Hg. unfold send_data_req_base, get_key_address. do 4 eff_step.
    case_decide; repeat eff_step; done. }
  unfold send_data_req, dispatch_io. do 2 eff_step. case_decide as Hcount; [|by apply Hbase].
  eff_step. unfold wp at 1. rewrite get_io_thread_id_value by lia.
  set (t := if decide (_ `mod` _ = 0) then 1 else _).
  assert (1 ≤ t < io_thread_count_ h) as Ht.
  { unfold t. rewrite u32_small by lia. case_decide as Hm; [lia|].
    assert (io_thread_id_ h + 1 ≠ io_thread_count_ h); [|lia]. intros E. by rewrite E, Z.mod_same in Hm by lia. }
  rewrite decide_False by lia. unfold push_secondary. do 3 eff_step. cbn [secondary_thread_msg_queues set_ids].
  destruct (lookup_lt_is_Some_2 (secondary_thread_msg_queues h) (Z.to_nat (t - 1)) ltac:(lia)) as [q Hqt].
  eapply wp_lift; [by apply vec_at_Ok|]. eff_step. unfold helper_ok. cbn. rewrite length_insert. lia.
Qed.

Lemma request_missing_spec k w :
  helper_ok (w_helper w) →
  wp (match key_call_id_map (waiting (w_env w)) !! k with
      | Some _ => mret tt
      | None => on_helper (send_data_req k)
      end) w
    (λ w' _ _, ∃ h, helper_ok h ∧ w' = {| w_helper := h; w_registry := w_registry w; w_env := w_env w |}).
Proof.
  intros Hh. case_match; [eff_step; exists (w_helper w); by destruct w|].
  unfold on_helper. apply wp_zoom. eff_call send_data_req_spec; [done|]. intros h o _ Hh'. by exists h.
Qed.

(** The loop over the arguments of a call records the missing ones. *)
Lemma collect_inflight_spec cid func_args w :
  helper_ok (w_helper w) →
  let W := waiting (w_env w) in
  wp (collect_inflight cid func_args) w (λ w' sent inflight,
    (missing func_args w = ∅ → sent = []) ∧ inflight = missing func_args w ∧
    ∃ h kc, helper_ok h ∧
      w' = {| w_helper := h; w_registry := w_registry w;
              w_env := set_waiting (w_env w) (set_calls (call_id_inflight_args_map W) kc W) |} ∧
      ∀ k, at_default ∅ k kc =
        if decide (k ∈ missing func_args w) then {[cid]} ∪ at_default ∅ k (key_call_id_map W)
        else at_default ∅ k (key_call_id_map W)).
Proof.
  intros Hh W. eapply wp_mono; [apply (wp_for_fold (λ pre w' sent inflight,
    (missing pre w = ∅ → sent = []) ∧ inflight = missing pre w ∧
    ∃ h kc, helper_ok h ∧
      w' = {| w_helper := h; w_registry := w_registry w;
              w_env := set_waiting (w_env w) (set_calls (call_id_inflight_args_map W) kc W) |} ∧
      ∀ k, at_default ∅ k kc =
        if decide (k ∈ missing pre w) then {[cid]} ∪ at_default ∅ k (key_call_id_map W)
        else at_default ∅ k (key_call_id_map W)))|done].
  - split_and!; [done|done|]. exists (w_helper w), (key_call_id_map W). split; [done|]. split; [|done].
    unfold W. by destruct w as [? ? [? ? [] ? ?]].
  - intros pre k w1 o1 inflight [post ->] (Ho & -> & h & kc & Hh1 & -> & Hkc). unfold get_local. do 2 eff_step.
    cbn [key_len_map store w_env set_waiting]. case_decide as Hk.
    + eff_step. assert (missing (pre ++ [k]) w = missing pre w) as ->.
      { unfold missing. rewrite filter_app, filter_cons_False, app_nil_r; [done|].
        destruct Hk as [? Hk]. by rewrite Hk. }
      split_and!; [by intros Hm; rewrite (Ho Hm)|done|]. by exists h, kc.
    + assert (missing (pre ++ [k]) w = {[k]} ∪ missing pre w) as Hmiss.
      { unfold missing. rewrite filter_app, filter_cons_True, list_to_set_app_L; [cbn; set_solver|].
        by apply eq_None_not_Some. }
      do 3 eff_step. eapply wp_mono; [by apply (request_missing_spec k)|].
      intros w2 o2 _ (h' & Hh' & ->). unfold upd_waiting, put_local. repeat eff_step. split_and!; [rewrite Hmiss; set_solver|by rewrite Hmiss|].
      exists h', (<[k := {[cid]} ∪ at_default ∅ k kc]> kc). split; [done|]. split; [done|]. intros j.
      destruct (decide (j = k)) as [->|Hj].
      * rewrite at_default_insert, decide_True, Hkc by (rewrite Hmiss; set_solver). case_decide; set_solver.
      * rewrite at_default_insert_ne, Hkc by done.
        rewrite (decide_ext (j ∈ missing (pre ++ [k]) w) (j ∈ missing pre w)); [done|]. rewrite Hmiss. set_solver.
Qed.

(** A new call with missing arguments keeps the index. *)
Lemma register_ok W a kc :
  waiting_ok W → 0 ≤ call_id W < 2 ^ 32 - 1 → inflight_args_ a ≠ ∅ →
  (∀ k, at_default ∅ k kc = if decide (k ∈ inflight_args_ a) then {[call_id W]} ∪ at_default ∅ k (key_call_id_map W)
                            else at_default ∅ k (key_call_id_map W)) →
  waiting_ok (set_call_id (u32 (call_id W + 1)) (set_calls (<[call_id W := a]> (call_id_inflight_args_map W)) kc W)).
Proof.
  intros [Hindex Hwaits Hids] Hid Hne Hkc.
  assert (call_id_inflight_args_map W !! call_id W = None) as Hfresh.
  { apply eq_None_not_Some. intros Hs. apply Hids in Hs. lia. }
  split; cbn.
  - intros k cid. rewrite Hkc. destruct (decide (cid = call_id W)) as [->|Hcid].
    + rewrite lookup_insert_eq. assert (call_id W ∉ at_default ∅ k (key_call_id_map W)) as Hn.
      { rewrite Hindex, Hfresh. intros (? & ? & _). done. }
      split; [|intros (a' & [= <-] & Hin); rewrite decide_True by done; set_solver].
      intros Hin. exists a. split; [done|]. case_decide; [done|set_solver].
    + rewrite lookup_insert_ne by done. rewrite <- Hindex. case_decide; set_solver.
  - intros cid a' Ha'. apply lookup_insert_Some in Ha' as [[_ <-]|[_ Ha']]; [done|by eapply Hwaits].
  - intros cid Hs. rewrite u32_small by lia. destruct (decide (cid = call_id W)) as [->|Hcid]; [lia|].
    rewrite lookup_insert_ne in Hs by done. apply Hids in Hs. lia.
Qed.

Lemma waiting_ok_index W kc :
  waiting_ok W → (∀ k, at_default ∅ k kc = at_default ∅ k (key_call_id_map W)) →
  waiting_ok (set_calls (call_id_inflight_args_map W) kc W).
Proof. intros [Hindex ? ?] Hkc. split; [|done|done]. intros k cid. cbn. by rewrite Hkc. Qed.

Lemma waiting_ok_next W n :
  waiting_ok W → call_id W ≤ n → waiting_ok (set_call_id n W).
Proof. intros [? ? Hids] Hn. split; [done|done|]. intros cid Hs. apply Hids in Hs. cbn. lia. Qed.

End waiting.

(** ** Properties *)

Section properties.
Context `{UnorderedIter, Rand, LatticeMessages, PrimitiveMessages} (conf : SchedConf).

(** C12: the arrival of an object releases exactly the calls that waited for nothing
    else: each of them is scheduled once, with the names and sizes of its arguments,
    the others wait for one key less, every executor that asked for the object is
    answered and forgotten, and the index of waiting calls stays exact.  Executors have
    channels, and the node queues or rejects calls that find no executor or there are as
    many idle executors as calls that are released: a node with neither has to forward
    calls, which [schedule_func_call_outcome] describes. *)
Theorem data_arrival_releases now (m : RecvMsg) w :
  let W := waiting (w_env w) in
  let key := data_key_ m in
  let requests := default [] (key_remote_get_map W !! key) in
  waiting_ok W → executors_ok (execs (w_env w)) →
  keeps_calls conf ∨ (length (released (call_id_inflight_args_map W) key (elements (at_default ∅ key (key_call_id_map W))))
    ≤ idle_count conf (execs (w_env w)))%nat →
  Forall (λ r, is_Some (executor_chans_map (execs (w_env w)) !! executor_id_ r)) requests →
  ∃ w' sent cids,
    handle_data_resp conf now m w = Ok (w', replies requests (byte_string (data_size_ m)) w ++ sent, tt) ∧
    let W' := waiting (w_env w') in
    waiting_ok W' ∧
    (∀ cid, call_id_inflight_args_map W' !! cid = arrive key (call_id_inflight_args_map W !! cid)) ∧
    key_remote_get_map W' !! key = None ∧
    cids ≡ₚ elements (at_default ∅ key (key_call_id_map W)) ∧
    schedules conf now w (released (call_id_inflight_args_map W) key cids) w' sent.
Proof.
  intros W key requests HW Hok Hkeep Hreq.
  set (cids := set_iter (at_default ∅ key (key_call_id_map W))).
  assert (released (call_id_inflight_args_map W) key (elements (at_default ∅ key (key_call_id_map W)))
    ≡ₚ released (call_id_inflight_args_map W) key cids) as Hperm.
  { unfold released, cids. by rewrite <- set_iter_perm. }
  rewrite Hperm in Hkeep. clear Hperm.
  assert (wp (handle_data_resp conf now m) w (λ w' sent _,
    ∃ sent', sent = replies requests (byte_string (data_size_ m)) w ++ sent' ∧
    let W' := waiting (w_env w') in
    W' = set_calls (foldl (λ m c, partial_alter (arrive key) c m) (call_id_inflight_args_map W) cids)
           (delete key (key_call_id_map W)) (set_gets (delete key (key_remote_get_map W)) W) ∧
    schedules conf now w (released (call_id_inflight_args_map W) key cids) w' sent')) as Hwp.
  - unfold handle_data_resp, record_size, upd_store, put_local. do 3 eff_step. eff_call answer_gets_spec; [done|].
    intros w1 o1 _ [-> ->]. eff_call release_calls_spec; [by destruct HW|done|exact Hkeep|].
    intros w2 o2 _ [HW2 Hs]. eexists. split; [done|]. split; [exact HW2|].
    eapply schedules_start; [|exact Hs]. done.
  - apply wp_Ok in Hwp as (w' & sent & [] & E & sent' & -> & HW' & Hs). exists w', sent', cids.
    destruct (arrivals_ok key W cids) as [Hcalls HWok]; [done|apply set_iter_NoDup|intros; apply set_iter_elem|].
    split; [done|]. rewrite HW'. cbn. split_and!; [by destruct HWok|done|by rewrite lookup_delete_eq|apply set_iter_perm|done].
Qed.

(** C13: a call by key is scheduled at once when the node has all its arguments;
    otherwise it is held back under the first free id, waiting for exactly the missing
    ones, and the index of waiting calls stays exact.  The first 2^32 - 1 calls; and when
    the node has the arguments, it queues or rejects calls, or an executor is free for the
    call, or the call can be forwarded. *)
Theorem call_waits_for_missing now app_name session_id func_name func_args arg_flag cpu_cores memory_mb w :
  let W := waiting (w_env w) in
  waiting_ok W → executors_ok (execs (w_env w)) → helper_ok (w_helper w) →
  (missing func_args w = ∅ → forwardable (sized_args func_args w) arg_flag w ∨ keeps_calls conf ∨
     ∃ x, eligible conf (execs (w_env w)) func_name x) →
  0 < arg_flag → 0 ≤ call_id W < 2 ^ 32 - 1 →
  ∃ w' sent,
    call_received conf now app_name session_id func_name func_args arg_flag cpu_cores memory_mb w = Ok (w', sent, tt) ∧
    let W' := waiting (w_env w') in
    waiting_ok W' ∧ call_id W' = call_id W + 1 ∧
    if decide (missing func_args w = ∅) then
      call_id_inflight_args_map W' = call_id_inflight_args_map W ∧
      ∃ w1 w2, same_schedule w w1 ∧ same_schedule w2 w' ∧
        outcome conf now session_id app_name func_name (sized_args func_args w) arg_flag cpu_cores memory_mb w1 w2 sent
    else
      same_schedule w w' ∧
      call_id_inflight_args_map W' = <[call_id W := {|
        ia_func_name_ := func_name; ia_session_id_ := session_id; key_args_ := func_args;
        inflight_args_ := missing func_args w; ia_arg_flag_ := arg_flag; ia_cpu_cores_ := cpu_cores;
        ia_memory_mb_ := memory_mb |}]> (call_id_inflight_args_map W).
Proof.
  intros W HW Hok Hh Hkeep Hflag Hid.
  assert (wp (call_received conf now app_name session_id func_name func_args arg_flag cpu_cores memory_mb) w
    (λ w' sent _, let W' := waiting (w_env w') in
    waiting_ok W' ∧ call_id W' = call_id W + 1 ∧
    if decide (missing func_args w = ∅) then
      call_id_inflight_args_map W' = call_id_inflight_args_map W ∧
      ∃ w1 w2, same_schedule w w1 ∧ same_schedule w2 w' ∧
        outcome conf now session_id app_name func_name (sized_args func_args w) arg_flag cpu_cores memory_mb w1 w2 sent
    else
      same_schedule w w' ∧
      call_id_inflight_args_map W' = <[call_id W := {|
        ia_func_name_ := func_name; ia_session_id_ := session_id; key_args_ := func_args;
        inflight_args_ := missing func_args w; ia_arg_flag_ := arg_flag; ia_cpu_cores_ := cpu_cores;
        ia_memory_mb_ := memory_mb |}]> (call_id_inflight_args_map W))) as Hwp.
  - unfold call_received, get_local, upd_waiting, put_local. do 2 eff_step.
    rewrite decide_True by lia. do 2 eff_step. eff_call collect_inflight_spec; [done|].
    intros w1 o1 _ (Ho & -> & h & kc & Hh1 & -> & Hkc).
    destruct (decide (missing func_args w = ∅)) as [Hm|Hm].
    + rewrite (Ho Hm). eff_step. eff_call full_args_spec. intros w2 o2 _ (-> & -> & lens & Hlens & ->).
      eff_call schedule_func_call_spec; [exact Hok| |].
      { destruct (Hkeep Hm) as [Hf|Hk]; [left|by right]. apply (forwardable_frame _ _ w); [done|exact Hlens| |done].
        destruct Hh1 as [? _]. cbn. lia. } intros w3 o3 _ Hout. eff_step.
      pose proof (outcome_waiting _ _ _ _ _ _ _ _ _ _ _ _ Hout) as E. cbn in E.
      cbn [waiting w_env set_waiting]. rewrite E. rewrite app_nil_r. cbn [app].
      split_and!; [|cbn; apply u32_small; lia|done|eexists _, w3; split; [|split; [|exact Hout]]; done].
      apply waiting_ok_next; [|cbn; fold W; rewrite u32_small by lia; lia].
      apply waiting_ok_index; [done|]. intros k. rewrite Hkc. by rewrite decide_False by set_solver.
    + eff_step. eff_step. split_and!; [|cbn; apply u32_small; lia|done|done].
      exact (register_ok W {| ia_func_name_ := func_name; ia_session_id_ := session_id; key_args_ := func_args;
        inflight_args_ := missing func_args w; ia_arg_flag_ := arg_flag; ia_cpu_cores_ := cpu_cores;
        ia_memory_mb_ := memory_mb |} kc HW Hid Hm Hkc).
  - apply wp_Ok in Hwp as (w' & sent & [] & E & Hpost). by exists w', sent.
Qed.

End properties.

(** A node; one call waits for an object that an executor has also asked for. *)
Definition waiting_call : InflightFuncArgs := {|
  ia_func_name_ := "f"; ia_session_id_ := "0123456789abcdef"; key_args_ := ["b|k"]; inflight_args_ := {["b|k"]};
  ia_arg_flag_ := 1; ia_cpu_cores_ := S754_zero false; ia_memory_mb_ := 0 |}.

Definition waiting_node : World (E := Local) := on_env (λ l, set_waiting l {|
  call_id := 1; call_id_inflight_args_map := {[0 := waiting_call]}; key_call_id_map := {["b|k" := {[0]}]};
  key_remote_get_map := {["b|k" := [{| executor_id_ := 1; req_id_ := 3; recv_time_ := 0 |}]]};
  key_ksv_put_map := ∅ |}) example_node.

Definition data_message_of (key : string) (size : Z) : RecvMsg := {|
  msg_type_ := DataResp; app_name_ := ""; resp_address_ := ""; func_names_ := []; func_argss_ := [];
  is_func_arg_keys_ := []; cpu_coress_ := []; memory_mbs_ := []; session_id_ := ""; sync_data_status_ := false;
  data_key_ := key; data_size_ := size |}.

Lemma waiting_node_ok : waiting_ok (waiting (w_env waiting_node)).
Proof.
  split; cbn.
  - intros k cid. unfold at_default. split.
    + intros Hin. destruct (decide (k = "b|k")) as [->|]; [|rewrite lookup_singleton_ne in Hin by done; set_solver].
      rewrite lookup_singleton_eq in Hin. assert (cid = 0) as -> by set_solver.
      exists waiting_call. split; [done|set_solver].
    + intros (a & Ha & Hin). apply lookup_singleton_Some in Ha as [<- <-]. assert (k = "b|k") as -> by set_solver.
      rewrite lookup_singleton_eq. set_solver.
  - intros cid a Ha. apply lookup_singleton_Some in Ha as [_ <-]. set_solver.
  - intros cid [a Ha]. apply lookup_singleton_Some in Ha as [<- _]. lia.
Qed.

Lemma example_helper_ok : helper_ok (w_helper waiting_node).
Proof. vm_compute. intuition discriminate. Qed.

#[local] Existing Instances sorted_iter lcg_rand bits_lattice_messages bits_primitive_messages.

Lemma data_arrival_releases_witness :
  let w := waiting_node in
  let m := data_message_of "b|k" 5 in
  let W := waiting (w_env w) in
  ∃ w' sent cids,
    handle_data_resp example_conf 9 m w
      = Ok (w', replies [{| executor_id_ := 1; req_id_ := 3; recv_time_ := 0 |}] (byte_string 5) w ++ sent, tt) ∧
    let W' := waiting (w_env w') in
    waiting_ok W' ∧
    (∀ cid, call_id_inflight_args_map W' !! cid = arrive "b|k" (call_id_inflight_args_map W !! cid)) ∧
    key_remote_get_map W' !! "b|k" = None ∧
    cids ≡ₚ elements (at_default ∅ "b|k" (key_call_id_map W)) ∧
    schedules example_conf 9 w (released (call_id_inflight_args_map W) "b|k" cids) w' sent.
Proof.
  intros w m W. apply (data_arrival_releases example_conf 9 m w).
  - apply waiting_node_ok.
  - apply example_executors_ok.
  - right. vm_compute. lia.
  - repeat constructor. by eexists.
Defined.

Lemma call_waits_for_missing_witness :
  let w := waiting_node in
  let W := waiting (w_env w) in
  ∃ w' sent,
    call_received example_conf 9 "app" "0123456789abcdef" "g" ["b|j"; "b|k"] 1 (S754_zero false) 0 w = Ok (w', sent, tt) ∧
    let W' := waiting (w_env w') in
    waiting_ok W' ∧ call_id W' = call_id W + 1 ∧
    if decide (missing ["b|j"; "b|k"] w = ∅) then
      call_id_inflight_args_map W' = call_id_inflight_args_map W ∧
      ∃ w1 w2, same_schedule w w1 ∧ same_schedule w2 w' ∧
        outcome example_conf 9 "0123456789abcdef" "app" "g" (sized_args ["b|j"; "b|k"] w) 1 (S754_zero false) 0 w1 w2 sent
    else
      same_schedule w w' ∧
      call_id_inflight_args_map W' = <[call_id W := {|
        ia_func_name_ := "g"; ia_session_id_ := "0123456789abcdef"; key_args_ := ["b|j"; "b|k"];
        inflight_args_ := missing ["b|j"; "b|k"] w; ia_arg_flag_ := 1; ia_cpu_cores_ := S754_zero false;
        ia_memory_mb_ := 0 |}]> (call_id_inflight_args_map W).
Proof.
  intros w W. apply (call_waits_for_missing example_conf 9 "app" "0123456789abcdef" "g" ["b|j"; "b|k"] 1 (S754_zero false) 0 w).
  - apply waiting_node_ok.
  - apply example_executors_ok.
  - apply example_helper_ok.
  - intros _. right. right. exists 1. right. left. reflexivity.
  - lia.
  - cbn. lia.
Defined.
