(* ===== verification/LocalDelay.v ===== *)
(** * Delayed calls of the local scheduler

    The queue of calls that found no executor ([delay_round]): a call whose function
    no idle executor has run waits for ever, and a call by key cannot be forwarded. *)

From S2P Require Import Prelude CppString CppDouble Messages Common Triggers Threads Effects.
From S2P Require Import CommHelper LocalScheduler LocalSpecs.

(** ** Definitions *)

(** The call as [schedule_func_call] queues it again. *)
Definition requeued (now : Z) (d : DelayFunctionCall) : DelayFunctionCall := {|
  dc_session_id_ := dc_session_id_ d; dc_app_name_ := dc_app_name_ d; dc_func_name_ := dc_func_name_ d;
  dc_func_args_ := dc_func_args_ d; dc_arg_flag_ := dc_arg_flag_ d; dc_cpu_cores_ := dc_cpu_cores_ d;
  dc_memory_mb_ := dc_memory_mb_ d; trigger_time_ := now |}.

(** The call [d] is queued, an executor is idle, but none may run it. *)
Record starving (conf : SchedConf) (d : DelayFunctionCall) (w : World (E := Local)) : Prop := {
  st_queue : delay_call_queue (timers (w_env w)) = [d];
  st_none : ∀ x, ¬ eligible conf (execs (w_env w)) (dc_func_name_ d) x;
  st_idle : ∃ x, executor_status_map (execs (w_env w)) !! x = Some 1 }.

(** The arguments of a call by key, as [full_args] and [name_args] build them. *)
Definition key_pairs (keys : list (string * string)) : list string := keys ≫= λ k, [k.1; k.2].

Section delay.
Context `{UnorderedIter, Rand, LatticeMessages, PrimitiveMessages} (conf : SchedConf).

(** ** Lemmas *)

Lemma avail_count (m : gmap Z Z) :
  get_avail_executor_num m = Z.of_nat (length (filter (λ p, p.2 = 0 ∨ p.2 = 1) (map_iter m))).
Proof.
  unfold get_avail_executor_num.
  assert (∀ (l : list (Z * Z)) acc, foldl (λ n p, if decide (p.2 = 0 ∨ p.2 = 1) then n + 1 else n) acc l
    = acc + Z.of_nat (length (filter (λ p, p.2 = 0 ∨ p.2 = 1) l))) as Hgen; [|by rewrite Hgen].
  induction l as [|p l IH]; intros acc; cbn [foldl]; [cbn; lia|]. rewrite IH.
  case_decide; [rewrite filter_cons_True by done; cbn [length]; lia|by rewrite filter_cons_False].
Qed.

Lemma avail_pos (m : gmap Z Z) x : m !! x = Some 1 → 0 < get_avail_executor_num m.
Proof.
  intros Hx. rewrite avail_count.
  assert ((x, 1) ∈ filter (λ p, p.2 = 0 ∨ p.2 = 1) (map_iter m)) as Hin.
  { apply list_elem_of_filter. split; [by right|]. by apply map_iter_elem. }
  destruct (filter _ _); [by apply elem_of_nil in Hin|]. cbn. lia.
Qed.

(** One attempt: the call goes to the end of the queue with a new time. *)
Lemma schedule_starving now d w :
  0 < schedDelayTime conf → starving conf d w →
  wp (schedule_func_call conf now (dc_session_id_ d) (dc_app_name_ d) (dc_func_name_ d) (dc_func_args_ d)
        (dc_arg_flag_ d) (dc_cpu_cores_ d) (dc_memory_mb_ d)) w
    (λ w' sent _, sent = [] ∧ executor_status_map (execs (w_env w')) = executor_status_map (execs (w_env w)) ∧
      delay_call_queue (timers (w_env w')) = [d; requeued now d] ∧
      ∀ x, ¬ eligible conf (execs (w_env w')) (dc_func_name_ d) x).
Proof.
  intros Hd [Hq Hnone Hidle]. eapply wp_mono; [apply schedule_kept; [by right; left|done]|].
  intros w1 o1 u Hout. cbn beta in Hout. destruct Hout as [w' x chan e e' Hx|w' sent ar e e' _ Hfe Hst Hch _ _ _ _ Hres]; [by apply Hnone in Hx|].
  rewrite decide_True in Hres by lia. injection Hres as -> ->. rewrite Hq. split_and!; [done|done|done|].
  intros x Hx. apply (Hnone x). unfold eligible, warm, cold in *. fold e'. fold e' in Hx. by rewrite Hst, Hfe in Hx.
Qed.

(** As many attempts as there are idle executors. *)
Lemma delay_schedule_starving now n d w :
  0 < schedDelayTime conf → starving conf d w →
  wp (delay_schedule conf now (S n)) w (λ w' sent _, sent = [] ∧ starving conf (requeued now d) w').
Proof.
  intros Hd. revert d w. induction n as [|n IH]; intros d w Hs;
    cbn [delay_schedule]; unfold get_local, upd_timers, put_local; do 2 eff_step; rewrite (st_queue _ _ _ Hs);
    eff_step; (eapply wp_mono; [by apply schedule_starving|]); intros w1 o1 u (-> & Hst & Hq & Hnone);
    do 2 eff_step; rewrite Hq; cbn [tail].
  - eff_step. split; [done|]. split; cbn; [done|done|]. rewrite Hst. apply Hs.
  - match goal with |- wp _ ?st _ => assert (starving conf (requeued now d) st) as Hs' end.
    { split; cbn; [done|done|]. rewrite Hst. apply Hs. }
    eapply wp_mono; [apply (IH (requeued now d)); exact Hs'|]. by intros w2 o2 u2 [-> ?].
Qed.

Lemma delay_round_starving now d w :
  0 < schedDelayTime conf → starving conf d w →
  wp (delay_round conf now) w (λ w' sent _, sent = [] ∧ starving conf (requeued now d) w').
Proof.
  intros Hd Hs. unfold delay_round, get_local. do 2 eff_step. rewrite (st_queue _ _ _ Hs). do 2 eff_step.
  destruct (st_idle _ _ _ Hs) as [x Hx]. apply avail_pos in Hx.
  destruct (Z.to_nat _) as [|n] eqn:En; [lia|]. eff_step.
  eapply wp_mono; [by apply delay_schedule_starving|]. intros w1 o1 u [-> Hs1]. do 2 eff_step.
  rewrite (st_queue _ _ _ Hs1). cbn [length delay_forward]. unfold get_local. do 2 eff_step.
  rewrite (st_queue _ _ _ Hs1). rewrite decide_False; [by eff_step|].
  cbn. rewrite Z.sub_diag. unfold to_us. rewrite Z.quot_0_l by lia. lia.
Qed.

Lemma triples_pairs_fail (keys : list (string * string)) total :
  keys ≠ [] → Forall (λ k, ∃ e, stoi k.1 = Throw e) keys →
  ∃ e, (args ← triples (key_pairs keys);
    foldM (λ total arg, n ← stoi arg.2;
      match in_int (total + n) with Ok t => Ok t | Throw _ => Throw Undefined end) args total) = Throw e.
Proof.
  intros Hne Hkeys. destruct keys as [|k1 [|k2 keys]]; [done|by eexists|].
  apply Forall_cons in Hkeys as [_ Hkeys]. apply Forall_cons in Hkeys as [[e He] _].
  cbn [key_pairs mbind list_bind app triples].
  match goal with |- ∃ _, ((?m ≫= _) ≫= _) = _ => destruct m end; cbn; [|by eexists].
  rewrite He. by eexists.
Qed.

(** Whoever forwards a call with the names and sizes of its objects fails: the delay
    queue, and the batch of targets of a direct invocation. *)
Lemma forward_pairs_fail session_id app_name func_names keys argss arg_flag w :
  0 < arg_flag → keys ≠ [] → Forall (λ k, ∃ e, stoi k.1 = Throw e) keys →
  ∃ e, forward_call_via_helper session_id app_name func_names (key_pairs keys :: argss) arg_flag w = Throw e.
Proof.
  intros Hflag Hne Hkeys. unfold forward_call_via_helper. rewrite decide_True by lia.
  destruct (triples_pairs_fail keys 0 Hne Hkeys) as [e He].
  exists e. unfold mbind at 1, eff_bind, lift, total_size. cbn [foldM]. by rewrite He.
Qed.

(** ** Properties *)

(** A delayed call whose function no idle executor has run is never served and
    never forwarded, however long it waits: every round counts the idle executors,
    queues the call again with a fresh time, and sends nothing. *)
Theorem delayed_call_starves (nows : list Z) now d w :
  0 < schedDelayTime conf → starving conf d w →
  ∃ w', for_each (delay_round conf) (nows ++ [now]) w = Ok (w', [], tt) ∧ starving conf (requeued now d) w'.
Proof.
  intros Hd Hs.
  assert (∀ ts, wp (for_each (delay_round conf) ts) w (λ w' sent _, sent = [] ∧
    starving conf (match last ts with Some t => requeued t d | None => d end) w')) as Hwp.
  { intros ts. apply (wp_for_each (λ pre w' sent, sent = [] ∧
      starving conf (match last pre with Some t => requeued t d | None => d end) w')); [done|].
    intros pre t w1 o1 _ [-> Hs1]. rewrite last_snoc.
    eapply wp_mono; [by apply delay_round_starving|]. intros w2 o2 u2 [-> Hs2]. split; [done|]. by case_match. }
  specialize (Hwp (nows ++ [now])). apply wp_Ok in Hwp as (w' & sent & [] & E & -> & Hs').
  rewrite last_snoc in Hs'. by exists w'.
Qed.

(** A call by key that has waited too long cannot be handed to the coordinator: its
    arguments are pairs of name and size, which the forwarding code reads in threes,
    so it indexes past the end or takes a name for a number. *)
Theorem delayed_key_call_fails fuel now d q keys w :
  delay_call_queue (timers (w_env w)) = d :: q → dc_func_args_ d = key_pairs keys →
  0 < dc_arg_flag_ d → keys ≠ [] → Forall (λ k, ∃ e, stoi k.1 = Throw e) keys →
  to_us (now - trigger_time_ d) > schedDelayTime conf → rejectExtraReq conf = false →
  ∃ e, delay_forward conf (S fuel) now w = Throw e.
Proof.
  intros Hq Hargs Hflag Hne Hkeys Hlate Hrej.
  destruct (forward_pairs_fail (dc_session_id_ d) (dc_app_name_ d) [dc_func_name_ d] keys [] (dc_arg_flag_ d) w)
    as [e He]; [done..|].
  exists e. cbn [delay_forward]. unfold mbind, eff_bind, get_local, gets. rewrite Hq.
  rewrite decide_True, Hrej, Hargs by done. by rewrite He.
Qed.

End delay.

(** A node that queues calls; its only idle executor has run another function. *)
Definition delaying_conf : SchedConf := {| schedDelayTime := 1000; sharedExecutor := false; rejectExtraReq := false |}.

Definition delayed (func : string) (args : list string) (flag : Z) : DelayFunctionCall := {|
  dc_session_id_ := "0123456789abcdef"; dc_app_name_ := "app"; dc_func_name_ := func; dc_func_args_ := args;
  dc_arg_flag_ := flag; dc_cpu_cores_ := S754_zero false; dc_memory_mb_ := 0; trigger_time_ := 0 |}.

Definition delaying_node (d : DelayFunctionCall) : World (E := Local) :=
  on_env (λ l, set_timers l (set_delayed [d] (timers l)))
    (with_execs {| executor_status_map := {[0 := 1]}; function_executor_map := {["f" := {[0]}]};
                   executor_chans_map := {[0 := "ipc-0"]}; ramSeed := 7 |} example_node).

Lemma delaying_node_starves : starving delaying_conf (delayed "g" ["1"] 0) (delaying_node (delayed "g" ["1"] 0)).
Proof.
  split; [done| |by exists 0].
  intros x [[Hx Hf]|[Hx|[? _]]]; [|by cbn in Hx; apply lookup_singleton_Some in Hx as [_ ?]|done].
  unfold at_default in Hf. cbn in Hf. rewrite lookup_singleton_ne in Hf by done. set_solver.
Qed.

#[local] Existing Instances sorted_iter lcg_rand bits_lattice_messages bits_primitive_messages.

Lemma delayed_call_starves_witness :
  let d := delayed "g" ["1"] 0 in
  ∃ w', for_each (delay_round delaying_conf) ([10000000; 20000000] ++ [30000000]) (delaying_node d) = Ok (w', [], tt) ∧
    starving delaying_conf (requeued 30000000 d) w'.
Proof. intros d. apply delayed_call_starves; [reflexivity|apply delaying_node_starves]. Defined.

Lemma delayed_key_call_fails_witness :
  let d := delayed "g" (key_pairs [("b|k", "5")]) 1 in
  ∃ e, delay_forward delaying_conf 1 10000000 (delaying_node d) = Throw e.
Proof.
  intros d. apply (delayed_key_call_fails delaying_conf 0 10000000 d [] [("b|k", "5")] (delaying_node d));
    first [reflexivity | discriminate | repeat constructor; by eexists].
Defined.
