(* ===== verification/Executor.v ===== *)
(** * The executor ([executor_server.cpp], [function_lib.hpp])

    [UserLibrary] is what a function uses: it creates objects in shared memory and
    exchanges messages with the local scheduler.  [run] receives calls, decodes
    their arguments and runs the function.  A function is a parameter (code loaded
    from a shared library), and so is whether its library loads; what the channel
    of the executor delivers while it waits is an argument. *)

From S2P Require Import Prelude CppString Messages Common Effects LocalScheduler.

(** ** Data *)

(** [value_] points to the segment named [obj_name_]. *)
Record EpheObject := {
  obj_name_ : string;
  size_ : Z;
  target_func_ : string }.

Record UserLibrary := {
  ip_number_ : string;
  chan_id_ : Z;
  rid_ : Z;
  object_id_ : Z;
  function_ : string;
  session_id_ : string;
  persist_flag_ : Z;
  size_of_args_ : list Z }.

Fixpoint remove_char (c : ascii) (s : string) : string :=
  match s with
  | EmptyString => EmptyString
  | String d s => if decide (d = c) then remove_char c s else String d (remove_char c s)
  end.

Definition new_UserLibrary (ip : string) (thread_id : Z) : UserLibrary := {|
  ip_number_ := remove_char "."%char ip; chan_id_ := u8 (thread_id + 1); rid_ := 0; object_id_ := 0;
  function_ := ""; session_id_ := ""; persist_flag_ := 0; size_of_args_ := [] |}.

(** The library, the functions already loaded, and the shared memory. *)
Record ExecState := {
  lib : UserLibrary;
  name_func_map : gset string;
  memory : gmap string string }.

Abbreviation exec := (eff ExecState Send).

Definition upd_lib (f : UserLibrary → UserLibrary) : exec unit :=
  modify (λ s, {| lib := f (lib s); name_func_map := name_func_map s; memory := memory s |}).

Definition upd_memory (f : gmap string string → gmap string string) : exec unit :=
  modify (λ s, {| lib := lib s; name_func_map := name_func_map s; memory := f (memory s) |}).

(** ** [UserLibrary] *)

Definition set_call (function session : string) (persist : Z) (l : UserLibrary) : UserLibrary := {|
  ip_number_ := ip_number_ l; chan_id_ := chan_id_ l; rid_ := rid_ l; object_id_ := object_id_ l;
  function_ := function; session_id_ := session; persist_flag_ := persist; size_of_args_ := size_of_args_ l |}.

Definition add_arg_size (size : Z) (l : UserLibrary) : UserLibrary := {|
  ip_number_ := ip_number_ l; chan_id_ := chan_id_ l; rid_ := rid_ l; object_id_ := object_id_ l;
  function_ := function_ l; session_id_ := session_id_ l; persist_flag_ := persist_flag_ l;
  size_of_args_ := size_of_args_ l ++ [size] |}.

Definition clear_session (l : UserLibrary) : UserLibrary := {|
  ip_number_ := ip_number_ l; chan_id_ := chan_id_ l; rid_ := rid_ l; object_id_ := object_id_ l;
  function_ := emptyString; session_id_ := emptyString; persist_flag_ := 0; size_of_args_ := [] |}.

Definition get_size_of_arg (arg_idx : Z) (l : UserLibrary) : Z :=
  if decide (Z.of_nat (length (size_of_args_ l)) <= u64 arg_idx) then u64 (-1)
  else default 0 (size_of_args_ l !! Z.to_nat arg_idx).

Definition set_ids (rid object_id : Z) (l : UserLibrary) : UserLibrary := {|
  ip_number_ := ip_number_ l; chan_id_ := chan_id_ l; rid_ := rid; object_id_ := object_id;
  function_ := function_ l; session_id_ := session_id_ l; persist_flag_ := persist_flag_ l;
  size_of_args_ := size_of_args_ l |}.

(** [if (++rid_ % 100 == 0) rid_ = 0;] on a byte. *)
Definition next_rid (rid : Z) : Z :=
  let rid := u8 (rid + 1) in if decide (rid `mod` 100 = 0) then 0 else rid.

Definition get_request_id : exec Z :=
  l ← gets lib;
  upd_lib (λ l, set_ids (next_rid (rid_ l)) (object_id_ l) l);;
  mret (next_rid (rid_ l)).

Definition get_object_id : exec Z :=
  l ← gets lib;
  upd_lib (λ l, set_ids (rid_ l) (u32 (object_id_ l + 1)) l);;
  mret (object_id_ l).

Definition gen_unique_key : exec string :=
  l ← gets lib;
  id ← get_object_id;
  mret (ip_number_ l +:+ "_" +:+ to_string (chan_id_ l) +:+ "_" +:+ to_string id).

Fixpoint zeros (n : nat) : string :=
  match n with O => EmptyString | S n => String nul (zeros n) end.

(** [acquire(name, size)] and [get_mem]: the segment is cut or extended with zeros to
    the size; with size 0 an existing segment is mapped as it is, and a new one has no
    memory. *)
Definition new_segment (name : string) (size : Z) (m : gmap string string) : gmap string string :=
  if decide (size = 0) then m
  else <[name := take_string (Z.to_nat size) (at_default "" name m +:+ zeros (Z.to_nat size))]> m.

Definition ephe_object (name : string) (size : Z) (create : bool) : exec EpheObject :=
  (if create then upd_memory (new_segment name size) else mret tt);;
  mret {| obj_name_ := name; size_ := size; target_func_ := "" |}.

Definition create_object (bucket key : string) (size : Z) : exec EpheObject :=
  l ← gets lib;
  ephe_object (get_local_object_name bucket key (session_id_ l)) size true.

Definition create_object_anonymous (size : Z) : exec EpheObject :=
  l ← gets lib;
  id ← get_object_id;
  create_object bucketNameDirectInvoc (to_string (chan_id_ l) +:+ "_" +:+ to_string id) size.

Definition create_object_for (target_function : string) (many_to_one_trigger : bool) (size : Z) : exec EpheObject :=
  l ← gets lib;
  if many_to_one_trigger then
    o ← ephe_object (get_local_object_name ("b_" +:+ target_function) ("k_" +:+ function_ l) (session_id_ l)) size true;
    mret {| obj_name_ := obj_name_ o; size_ := size_ o; target_func_ := target_function |}
  else
    key ← gen_unique_key;
    create_object ("b_" +:+ target_function) key size.

(** [memcpy(value_, value, val_size)]: without a segment, or past its end, the write
    is undefined. *)
Definition set_value (o : EpheObject) (value : string) : exec unit :=
  m ← gets memory;
  match m !! obj_name_ o with
  | Some old =>
      if decide (size_of old < size_of value) then throw Undefined
      else upd_memory (<[obj_name_ o := value +:+ drop_string (String.length value) old]>)
  | None => throw Undefined
  end.

Definition update_size (size : Z) (o : EpheObject) : EpheObject :=
  {| obj_name_ := obj_name_ o; size_ := size; target_func_ := target_func_ o |}.

(** The value of an object, the first [size_] bytes of its segment. *)
Definition get_value (o : EpheObject) (m : gmap string string) : result string :=
  match m !! obj_name_ o with
  | Some bytes => if decide (size_of bytes < size_ o) then Throw Undefined
                  else Ok (take_string (Z.to_nat (size_ o)) bytes)
  | None => if decide (size_ o = 0) then Ok "" else Throw Undefined
  end.

Definition kvs_name__ : string := "ipc-kvs".

Definition send_shared (req : string) : exec unit := emit {| send_to := kvs_name__; send_msg := MBytes req |}.

(** The message of [send_object]: channel, type, request id, packing, then session,
    function, target, object and value (or size) with delimiters. *)
Definition object_message (chan_id type req_id : Z) (data_packing : bool)
    (session function target obj_name value : string) : string :=
  byte_string chan_id +:+ byte_string type +:+ byte_string req_id +:+
  byte_string (if data_packing then 1 else 2) +:+
  session +:+ "|" +:+ function +:+ "|" +:+ target +:+ "|" +:+ obj_name +:+ "|" +:+ value.

(** [response] is what the channel delivers within 30 s to a durable write; a
    missing one is reported and then dereferenced.  The other checks only report. *)
Definition send_object (data : EpheObject) (output : bool) (response : option string) : exec unit :=
  req_id ← get_request_id;
  l ← gets lib;
  let type := if output then if decide (persist_flag_ l = 1) then 3 else 4 else 2 in
  let data_packing := bool_decide (size_ data <= msgDataPackingThreshold) in
  m ← gets memory;
  value ← (if data_packing then lift (get_value data m) else mret (to_string (size_ data)));
  send_shared (object_message (chan_id_ l) type req_id data_packing (session_id_ l) (function_ l)
    (target_func_ data) (obj_name_ data) value);;
  if decide (type = 3) then
    match response with Some _ => mret tt | None => throw Undefined end
  else mret tt.

(** A response [3 | request id | success | size]; [stoi] throws on anything else
    than a number. *)
Definition parse_reply (req_id : Z) (response : string) : result (option Z) :=
  type ← char_of response 0;
  id ← char_of response 1;
  success ← char_of response 2;
  if decide (type = 3 ∧ id = req_id ∧ success = 1) then
    s ← c_string_from response 3;
    n ← stoi s;
    Ok (Some n)
  else Ok None.

Definition get_object (bucket key : string) (from_ephe_store : bool) (response : option string)
    : exec (option EpheObject) :=
  l ← gets lib;
  let obj_name := if from_ephe_store then get_local_object_name bucket key (session_id_ l)
                  else kvsKeyPrefix +:+ kDelimiter +:+ key in
  req_id ← get_request_id;
  send_shared (byte_string (chan_id_ l) +:+ byte_string 1 +:+ byte_string (if from_ephe_store then 1 else 2) +:+
    byte_string req_id +:+ byte_string (size_of obj_name) +:+ obj_name);;
  match response with
  | None => mret None
  | Some response =>
      size_len ← lift (parse_reply req_id response);
      match size_len with
      | Some n => o ← ephe_object obj_name n false; mret (Some o)
      | None => mret None
      end
  end.

(** ** [executor_server.cpp] *)

Definition executor_status (thread_id : Z) (busy_flag : bool) : exec unit :=
  send_shared (byte_string (thread_id + 1) +:+ byte_string (if busy_flag then 6 else 7)).

(** A decoded call: the argument flag and, after it, what the message holds. *)
Record CallMessage := {
  cm_arg_flag : Z;
  cm_persist : Z;
  cm_resources : list string;
  cm_session_id : string;
  cm_function : string;
  cm_args : list string }.

(** [func_with_args[0]] of an empty vector is undefined. *)
Definition parse_call (str : string) : result CallMessage :=
  flag ← char_of str 1;
  persist ← char_of str 2;
  resource_meta_len ← char_of str 3;
  resource_meta ← bytes_from str 4 resource_meta_len;
  msg ← c_string_from str (4 + Z.to_nat resource_meta_len);
  match split msg kDelimiterChar with
  | session_id :: func_name :: args =>
      Ok {| cm_arg_flag := u8 (flag - 1); cm_persist := persist;
            cm_resources := split resource_meta ","%char;
            cm_session_id := session_id; cm_function := func_name; cm_args := args |}
  | _ => Throw Undefined
  end.

(** One entry of [arg_values]: bytes copied from the message, or a pointer to a
    segment with the size that is announced. *)
Inductive ArgValue :=
| Bytes (s : string)
| Segment (key_name : string) (size : Z).

(** The objects, with their names when the flag is 2; [None] when the arguments are not a
    multiple of three. *)
Fixpoint key_arguments (arg_flag : Z) (args : list string) : result (option (list ArgValue)) :=
  match args with
  | [] => Ok (Some [])
  | bucket :: session_key :: size :: args =>
      shm_obj_size ← stoi size;
      rest ← key_arguments arg_flag args;
      let segment := Segment (bucket +:+ kDelimiter +:+ session_key) shm_obj_size in
      let values := if decide (arg_flag = 1) then [segment]
                    else [Bytes session_key; segment] in
      Ok (match rest with Some l => Some (values ++ l) | None => None end)
  | _ => Ok None
  end.

Definition arg_values (c : CallMessage) : result (option (list ArgValue)) :=
  if decide (cm_arg_flag c = 0) then Ok (Some (map Bytes (cm_args c)))
  else if decide (Z.of_nat (length (cm_args c)) `mod` 3 = 0) then
    if decide (cm_arg_flag c = 1 ∨ cm_arg_flag c = 2) then key_arguments (cm_arg_flag c) (cm_args c)
    else Throw Undefined
  else Ok None.

Definition arg_size (a : ArgValue) : Z :=
  match a with Bytes s => size_of s | Segment _ n => u64 n end.

Section run.
(** Whether the library of a function can be loaded, and the code of the function:
    what it does until it returns or throws; [run] catches every exception. *)
Context (load_function : string → bool) (handle : string → list ArgValue → exec unit).

(** [false] when the loop is continued before the end of its body. *)
Definition execute_call (thread_id : Z) (str : string) : exec bool :=
  executor_status thread_id true;;
  c ← lift (parse_call str);
  upd_lib (set_call (cm_function c) (cm_session_id c) (cm_persist c));;
  loaded ← gets name_func_map;
  if decide ((cm_function c ∉ loaded) ∧ load_function (cm_function c) = false) then
    executor_status thread_id false;; mret false
  else
    modify (λ s, {| lib := lib s; name_func_map := {[cm_function c]} ∪ name_func_map s; memory := memory s |});;
    args ← lift (arg_values c);
    match args with
    | None => executor_status thread_id false;; mret false
    | Some args =>
        upd_lib (λ l, foldl (λ l a, add_arg_size (arg_size a) l) l args);;
        handle (cm_function c) args;;
        upd_lib clear_session;;
        executor_status thread_id false;;
        mret true
    end.

(** One iteration; [report] says that the timer is due. *)
Definition run_iteration (thread_id : Z) (str : option string) (report : bool) : exec unit :=
  completed ←
    (match str with
     | Some str =>
         type ← lift (char_of str 0);
         (if decide (type = 1) then execute_call thread_id str else mret true)
     | None => mret true
     end);
  when (andb completed report) (executor_status thread_id false).

End run.
