(* ===== verification/Reexecution.v ===== *)
(** * Functions that are lost run again

    A trigger can name functions whose objects it waits for, with a time-out.  When the
    local scheduler runs such a function it tells the trigger and queues a check
    ([scheduler_server.cpp], [schedule_func_call]); the timer of [run] asks the trigger at
    the time of the check, and runs the function again when its object has not come
    ([trigger.hpp], [action_for_rerun]). *)

From S2P Require Import Prelude CppString CppDouble Messages Common Triggers TriggerSpecs Threads Effects KvsClient CommHelper LocalScheduler LocalSpecs.
From stdpp Require Import sorting.
#[local] Open Scope Z_scope.

(** ** Definitions *)

Abbreviation node := (World (E := Local)).

Definition checks (w : node) : list RerunCheckQueueItem := rerun_check_queue (timers (w_env w)).

Definition earlier (a b : RerunCheckQueueItem) : Prop := check_time_ a ≤ check_time_ b.

(** Time-outs are unsigned in the messages. *)
Definition timeouts_ok (reg : Registry) : Prop :=
  ∀ f r, r ∈ at_default [] f (func_trigger_timeout_map reg) → 0 ≤ rerun_timeout_ r.

Definition hints_ok (m : UpdateCoordMsg) : Prop :=
  ∀ e h, e ∈ ucm_triggers m → h ∈ te_hints e → 0 ≤ rh_timeout h.

(** The checks of a node: in order, and of triggers it has. *)
Definition checks_ok (reg : Registry) (q : list RerunCheckQueueItem) : Prop :=
  registry_ok reg ∧ timeouts_ok reg ∧ StronglySorted earlier q ∧
  Forall (λ i, (rc_trigger_ptr_ i < length (trigger_heap reg))%nat) q.

(** What the registry and the queue of checks satisfy. *)
Definition on (P : Registry → list RerunCheckQueueItem → Prop) (w : node) : Prop := P (w_registry w) (checks w).

Section history.
Context `{UnorderedIter, Rand, LatticeMessages, PrimitiveMessages} (conf : SchedConf).

(** The trigger would run the function of the session again. *)
Definition offers (p : TriggerPointer) (session : string) (m : TriggerFunctionMetadata) (heap : list Trigger) : Prop :=
  ∃ t, heap !! p = Some t ∧ caches_session t ∧ trigger_rerun t session = [m].

(** What happens in an iteration of [run]: the clock of its messages and its timer, a later
    one, a message of an executor, and those of the network. *)
Record iteration := {
  it_now : Z;
  it_after : Z;
  it_str : option string;
  it_inbox : Inbox }.

(** An iteration up to its timer. *)
Definition serve (it : iteration) : sched unit :=
  match it_str it with Some str => executor_message conf (it_now it) str | None => mret tt end;;
  comm_resps ← try_recv_msg copy_to_shm_obj get_shm_obj (it_now it) (it_inbox it);
  for_each (handle_recv conf (it_now it)) comm_resps;;
  delay_round conf (it_now it).

Definition iterate (it : iteration) : sched unit :=
  run_iteration conf (it_now it) (it_after it) (it_str it) (it_inbox it).

(** The messages an iteration can get; [after] is read after [now]. *)
Definition iteration_ok (it : iteration) : Prop :=
  it_now it < it_after it ∧ from_option hints_ok True (in_update (it_inbox it)).

Inductive history : list iteration → node → node → Prop :=
| history_nil w : history [] w w
| history_cons it its w w1 w2 sent :
    iteration_ok it → iterate it w = Ok (w1, sent, tt) → history its w1 w2 → history (it :: its) w w2.

End history.

(** ** A queued check stays *)

Section keeping.
Context `{UnorderedIter, Rand, LatticeMessages, PrimitiveMessages} (conf : SchedConf).

(** Registries that grow. *)
Definition grows (reg reg' : Registry) : Prop :=
  registry_ok reg' ∧ timeouts_ok reg' ∧ (length (trigger_heap reg) ≤ length (trigger_heap reg'))%nat.

Lemma checks_ok_grows reg reg' q : checks_ok reg q → grows reg reg' → checks_ok reg' q.
Proof.
  intros (_ & _ & Hs & Hv) (Hr & Ht & Hl). split_and!; try done. eapply Forall_impl; [exact Hv|]. cbn. intros. lia.
Qed.

Lemma insert_check_elem i q j : j ∈ insert_check i q ↔ j = i ∨ j ∈ q.
Proof. rewrite insert_check_perm, elem_of_app, list_elem_of_singleton. tauto. Qed.

Lemma insert_check_sorted i q : StronglySorted earlier q → StronglySorted earlier (insert_check i q).
Proof.
  induction 1 as [|j q Hq IH Hj]; cbn [insert_check]; [by repeat constructor|]. case_decide as Hji.
  - constructor; [done|]. apply Forall_forall. intros k [->|Hk]%insert_check_elem; [exact Hji|].
    by apply (proj1 (Forall_forall _ _) Hj).
  - constructor; [by constructor|]. constructor; [unfold earlier; lia|].
    eapply Forall_impl; [exact Hj|]. unfold earlier. cbn. intros. lia.
Qed.

Lemma checks_ok_insert reg q i :
  checks_ok reg q → (rc_trigger_ptr_ i < length (trigger_heap reg))%nat → checks_ok reg (insert_check i q).
Proof.
  intros (Hr & Ht & Hs & Hv) Hi. split_and!; [done|done|by apply insert_check_sorted|].
  rewrite insert_check_perm, Forall_app. by repeat constructor.
Qed.

(** *** What leaves registry and checks alone *)

Section any.
Context (P : Registry → list RerunCheckQueueItem → Prop).

Lemma keeps_helper {A} (m : eff CommHelper Send A) : keeps (on P) (on_helper m).
Proof. intros w Hw. unfold on_helper. apply wlp_zoom. unfold wlp. by destruct (m _) as [[[? ?] ?]|]. Qed.

Lemma keeps_local (f : Local → Local) :
  (∀ l, rerun_check_queue (timers (f l)) = rerun_check_queue (timers l)) → keeps (on P) (put_local f).
Proof. intros Hf. apply keeps_modify. intros w. unfold on, checks. cbn. by rewrite Hf. Qed.

Lemma keeps_upd_store f : keeps (on P) (upd_store f).
Proof. by apply keeps_local. Qed.
Lemma keeps_upd_execs f : keeps (on P) (upd_execs f).
Proof. by apply keeps_local. Qed.
Lemma keeps_upd_waiting f : keeps (on P) (upd_waiting f).
Proof. by apply keeps_local. Qed.
Lemma keeps_set_delayed f : keeps (on P) (upd_timers (λ t, set_delayed (f t) t)).
Proof. by apply keeps_local. Qed.
Lemma keeps_report_start z : keeps (on P) (upd_timers (set_report_start z)).
Proof. by apply keeps_local. Qed.

End any.

Hint Resolve keeps_helper keeps_upd_store keeps_upd_execs keeps_upd_waiting keeps_set_delayed keeps_report_start : eff.

Ltac keep := repeat first
  [ progress intros
  | solve [eauto with eff]
  | apply keeps_for_fold
  | apply keeps_for_each
  | apply keeps_mapM
  | apply keeps_bind
  | case_decide
  | match goal with |- keeps _ (match ?x with _ => _ end) => destruct x end ].

Section primitives.
Context (P : Registry → list RerunCheckQueueItem → Prop).

Lemma keeps_client_addr s : keeps (on P) (client_addr s).
Proof. unfold client_addr, get_local. keep. Qed.
Lemma keeps_key_len k : keeps (on P) (key_len k).
Proof. unfold key_len, get_local. keep. Qed.
Lemma keeps_send_to_executer x msg : keeps (on P) (send_to_executer x msg).
Proof. unfold send_to_executer, get_local. keep. Qed.
Lemma keeps_rand_index n : keeps (on P) (rand_index n).
Proof. unfold rand_index, get_local. keep. Qed.
Hint Resolve keeps_client_addr keeps_key_len keeps_send_to_executer keeps_rand_index : eff.

Lemma keeps_packed flag args : keeps (on P) (packed_args flag args).
Proof. unfold packed_args, get_local. keep. Qed.
Hint Resolve keeps_packed : eff.

Lemma keeps_forward s a fs argss flag : keeps (on P) (forward_call_via_helper s a fs argss flag).
Proof. unfold forward_call_via_helper. keep. Qed.
Lemma keeps_pick_executor f : keeps (on P) (pick_executor conf f).
Proof. unfold pick_executor, get_local. keep. Qed.
Lemma keeps_full_args keys : keeps (on P) (full_args keys).
Proof. unfold full_args, get_local. keep. Qed.
Hint Resolve keeps_full_args : eff.
Lemma keeps_collect cid args : keeps (on P) (collect_inflight cid args).
Proof. unfold collect_inflight, get_local. keep. Qed.

End primitives.

Hint Resolve keeps_client_addr keeps_key_len keeps_send_to_executer keeps_rand_index keeps_packed keeps_forward
  keeps_pick_executor keeps_full_args keeps_collect : eff.

(** *** What a call of a source function leaves with its triggers *)

Definition metas_of (f : string) (reg : Registry) : list RerunTriggerTimeout := at_default [] f (func_trigger_timeout_map reg).

Definition notify_all (m : TriggerFunctionMetadata) (session : string) (rs : list RerunTriggerTimeout) (heap : list Trigger) : list Trigger :=
  foldl (λ heap r, alter (λ t, trigger_notify t (func_name_ m) session (func_args_ m) (arg_flag_ m)) (trigger_ptr_ r) heap) heap rs.

Definition queue_all (now : Z) (session : string) (rs : list RerunTriggerTimeout) (q : list RerunCheckQueueItem) : list RerunCheckQueueItem :=
  foldl (λ q r, insert_check (rerun_item now session r) q) q rs.

(** The registry and the checks after [rs] were announced. *)
Definition announced (now : Z) (m : TriggerFunctionMetadata) (session : string) (rs : list RerunTriggerTimeout)
    (reg : Registry) (q : list RerunCheckQueueItem) (reg' : Registry) (q' : list RerunCheckQueueItem) : Prop :=
  trigger_heap reg' = notify_all m session rs (trigger_heap reg) ∧ q' = queue_all now session rs q ∧
  bucket_triggers_map reg' = bucket_triggers_map reg ∧ ∀ f, metas_of f reg' = metas_of f reg.

Lemma notify_reruns_announced now m session rs w w0 :
  announced now m session [] (w_registry w0) (checks w0) (w_registry w) (checks w) →
  wlp (for_each (notify_rerun now (func_name_ m) session (func_args_ m) (arg_flag_ m)) rs) w
    (λ w' _ _, on (announced now m session rs (w_registry w0) (checks w0)) w').
Proof.
  intros (Hh & Hq & Hb & Hf). apply (wlp_for_each (λ pre w' _, on (announced now m session pre (w_registry w0) (checks w0)) w')); [by split_and!|].
  intros pre r w1 o1 _ (Hh1 & Hq1 & Hb1 & Hf1). unfold notify_rerun, upd_timers, put_local, set_registry. repeat eff_step.
  unfold on, announced, notify_all, queue_all. cbn. rewrite !foldl_app. cbn [foldl].
  split_and!; [by rewrite Hh1| |done|done]. unfold checks in Hq1. by rewrite Hq1.
Qed.

(** [schedule_func_call] announces the call to all triggers of the function when it sends
    it, and to none otherwise. *)
Lemma schedule_announces now s a f args flag cpu mem w :
  wlp (schedule_func_call conf now s a f args flag cpu mem) w (λ w' _ _, ∃ rs,
    (rs = [] ∨ rs = metas_of f (w_registry w)) ∧
    on (announced now (source_status f args flag) s rs (w_registry w) (checks w)) w').
Proof.
  set (P := λ reg q, reg = w_registry w ∧ q = checks w). set (m := source_status f args flag).
  assert (∀ w1, on P w1 → on (announced now m s [] (w_registry w) (checks w)) w1) as Hnone.
  { intros w1 [Hr Hq]. unfold on, announced, queue_all. by rewrite Hr, Hq. }
  unfold schedule_func_call. eff_step. eapply wlp_mono; [by apply (keeps_pick_executor P)|]. cbn beta. intros w1 o1 [x|] Hw1.
  - eff_step. eapply wlp_mono; [by apply (keeps_client_addr P)|]. cbn beta. intros w2 o2 client Hw2.
    eff_step. eapply wlp_mono; [by apply (keeps_send_to_executer P)|]. cbn beta. intros w3 o3 _ Hw3.
    eff_step. eapply wlp_mono; [by apply (keeps_upd_execs P)|]. cbn beta. intros w4 o4 _ [Hr Hq].
    unfold set_registry. do 4 eff_step. rewrite Hr.
    match goal with |- wlp _ ?st _ => set (w5 := st) end.
    eapply wlp_mono; [apply (notify_reruns_announced now m s _ w5 w)|].
    + unfold announced. cbn. split_and!; [done|exact Hq|done|]. intros g. unfold metas_of. cbn. by rewrite at_default_touch.
    + cbn beta. intros w6 o6 _ Hw6. eexists. split; [by right|exact Hw6].
  - match goal with |- wlp ?rest _ _ => assert (keeps (on P) rest) as Hrest end.
    { keep. }
    eapply wlp_mono; [by apply Hrest|]. cbn beta. intros w2 o2 _ Hw2. exists []. split; [by left|by apply Hnone].
Qed.

(** *** Checks of the node's triggers, in order *)

Section queue.
(** [X]: what the queue satisfies, whatever is queued for [lo] or later. *)
Context (lo : Z) (X : list RerunCheckQueueItem → Prop).
Context (X_insert : ∀ i q, lo ≤ check_time_ i → X q → X (insert_check i q)).

Abbreviation queued := (on (λ reg q, checks_ok reg q ∧ X q)).

(** The registry is read and written back. *)
Lemma keeps_registry {A} (f : Registry → Registry) (k : Registry → sched A) :
  (∀ reg, registry_ok reg → timeouts_ok reg → grows reg (f reg)) → (∀ reg, keeps queued (k reg)) →
  keeps queued (reg ← gets w_registry; set_registry (f reg);; k reg).
Proof.
  intros Hf Hk w [Hq Hi]. unfold set_registry. do 4 eff_step. apply Hk. split; [|done]. cbn.
  eapply checks_ok_grows; [exact Hq|]. apply Hf; apply Hq.
Qed.

Ltac keep_q := keep; repeat (apply keeps_registry; [intros; by split_and!|]; keep).

Lemma keeps_app_of_func f : keeps queued (app_of_func f).
Proof. unfold app_of_func. apply keeps_registry; [intros; by split_and!|keep]. Qed.
Lemma keeps_app_of_bucket b : keeps queued (app_of_bucket b).
Proof. unfold app_of_bucket. apply keeps_registry; [intros; by split_and!|keep]. Qed.
Lemma keeps_direct_deps_of a : keeps queued (direct_deps_of a).
Proof. unfold direct_deps_of. apply (keeps_registry (λ reg, set_app_maps reg _ (func_app_map reg) (bucket_app_map reg)) (λ reg, mret _)); [intros; by split_and!|keep]. Qed.
Hint Resolve keeps_app_of_func keeps_app_of_bucket keeps_direct_deps_of : eff.

Lemma length_notify_all m s rs heap : length (notify_all m s rs heap) = length heap.
Proof. unfold notify_all. revert heap. induction rs as [|r rs IH]; intros heap; [done|]. cbn [foldl]. by rewrite IH, length_alter. Qed.

Lemma announced_queued now m s rs reg q reg' q' :
  lo ≤ now → checks_ok reg q → X q → Forall (λ r, (trigger_ptr_ r < length (trigger_heap reg))%nat ∧ 0 ≤ rerun_timeout_ r) rs →
  announced now m s rs reg q reg' q' → checks_ok reg' q' ∧ X q'.
Proof.
  intros Hlo Hq HX Hrs (Hh & -> & Hb & Hf). split.
  - assert (grows reg reg') as Hg.
    { destruct Hq as ([HB HT] & Hto & _). unfold metas_of in Hf.
      split; [split; [intros b p; rewrite Hb|intros f r; rewrite Hf]; rewrite Hh, length_notify_all; eauto|].
      split; [intros f r; rewrite Hf; apply Hto|by rewrite Hh, length_notify_all]. }
    eapply checks_ok_grows; [|exact Hg]. clear -Hq Hrs. revert q Hq. induction Hrs as [|r rs [Hr _] _ IH]; intros q Hq; [done|].
    unfold queue_all. cbn [foldl]. apply IH. by apply checks_ok_insert.
  - clear -Hrs HX Hlo X_insert. revert q HX. induction Hrs as [|r rs [_ Hr] _ IH]; intros q HX; [done|].
    unfold queue_all. cbn [foldl]. apply IH, X_insert; [cbn; lia|done].
Qed.

Lemma metas_valid f reg q : checks_ok reg q →
  Forall (λ r, (trigger_ptr_ r < length (trigger_heap reg))%nat ∧ 0 ≤ rerun_timeout_ r) (metas_of f reg).
Proof. intros ([_ HT] & Hto & _). apply Forall_forall. intros r Hr. split; [by eapply HT|by eapply Hto]. Qed.

Lemma keeps_schedule now s a f args flag cpu mem : lo ≤ now → keeps queued (schedule_func_call conf now s a f args flag cpu mem).
Proof.
  intros Hlo w [Hq HX]. eapply wlp_mono; [apply schedule_announces|]. cbn beta. intros w' o _ (rs & Hrs & Hw').
  eapply announced_queued; [done|exact Hq|exact HX| |exact Hw']. destruct Hrs as [->| ->]; [by constructor|by eapply metas_valid].
Qed.
Hint Resolve keeps_schedule : eff.

(** *** The handlers *)

Lemma keeps_check_one_trigger now bk acc p : keeps queued (check_one_trigger now bk acc p).
Proof.
  intros w [Hq Hi]. unfold check_one_trigger, set_registry. do 3 eff_step. apply wlp_lift. intros t Ht.
  destruct (trigger_action now t bk) as [t' actions]. do 2 eff_step.
  assert (queued {| w_helper := w_helper w; w_registry := update_trigger (w_registry w) (λ _, t') p; w_env := w_env w |}) as Hw.
  { split; [|done]. eapply checks_ok_grows; [exact Hq|]. destruct Hq as (Hr & Hto & _).
    split_and!; [by apply update_trigger_ok|done|cbn; by rewrite length_alter]. }
  revert Hw. generalize {| w_helper := w_helper w; w_registry := update_trigger (w_registry w) (λ _, t') p; w_env := w_env w |}.
  change (keeps queued (match actions with [] => mret acc | _ :: _ =>
    r ← for_fold (action_metadata (bucket_ bk)) actions (trigger_option_ t + 1, acc.2); mret (acc.1 ++ [trigger_name_ t], r.2) end)).
  unfold action_metadata, name_args, get_local. keep.
Qed.

Lemma grows_touch reg b : registry_ok reg → timeouts_ok reg →
  grows reg (set_trigger_maps reg (trigger_heap reg) (touch [] b (bucket_triggers_map reg)) (func_trigger_timeout_map reg)).
Proof. intros [HB HT] Ht. split_and!; [split; [|exact HT]; intros b' p; cbn; rewrite at_default_touch; apply HB|exact Ht|done]. Qed.

Lemma keeps_check_object_arrival now bk : keeps queued (check_object_arrival now bk).
Proof.
  unfold check_object_arrival. apply keeps_registry; [intros; by apply grows_touch|]. intros reg.
  apply keeps_for_fold. intros. apply keeps_check_one_trigger.
Qed.
Hint Resolve keeps_check_object_arrival : eff.

Lemma keeps_check_trigger now bk s : lo ≤ now → keeps queued (check_trigger conf now bk s).
Proof. unfold check_trigger. keep. Qed.
Hint Resolve keeps_check_trigger : eff.

Lemma keeps_executor_message now str : lo ≤ now → keeps queued (executor_message conf now str).
Proof.
  unfold executor_message, get_request, send_object, send_ephemeral, send_durable, send_response, output_data,
    direct_invocation, record_ephemeral, get_local. keep.
Qed.

Lemma keeps_argument_arrived now key cid : lo ≤ now → keeps queued (argument_arrived conf now key cid).
Proof. unfold argument_arrived, get_local. keep. Qed.
Hint Resolve keeps_argument_arrived : eff.

Lemma keeps_handle_recv now m : lo ≤ now → keeps queued (handle_recv conf now m).
Proof.
  unfold handle_recv, handle_call, call_received, handle_data_resp, handle_kvs_get, handle_kvs_put, release_calls,
    answer_gets, reply_all, record_size, get_local. keep.
Qed.

Lemma keeps_delay_schedule now n : lo ≤ now → keeps queued (delay_schedule conf now n).
Proof. induction n as [|n IH]; cbn [delay_schedule]; unfold get_local; keep. Qed.
Lemma keeps_delay_forward n now : keeps queued (delay_forward conf n now).
Proof. induction n as [|n IH]; cbn [delay_forward]; unfold get_local; keep. Qed.
Hint Resolve keeps_delay_schedule keeps_delay_forward : eff.

Lemma keeps_delay_round now : lo ≤ now → keeps queued (delay_round conf now).
Proof. unfold delay_round, get_local. keep. Qed.

(** *** Updates from the coordinator *)

Lemma reg_grows_refl reg : registry_ok reg → timeouts_ok reg → grows reg reg.
Proof. intros; by split_and!. Qed.

Lemma reg_grows_trans reg1 reg2 reg3 : grows reg1 reg2 → grows reg2 reg3 → grows reg1 reg3.
Proof. intros (_ & _ & Hl1) (Hr & Ht & Hl2). split_and!; [done|done|lia]. Qed.

Lemma grows_foldl {A} (f : Registry → A → Registry) l reg :
  registry_ok reg → timeouts_ok reg →
  (∀ reg a, a ∈ l → registry_ok reg → timeouts_ok reg → grows reg (f reg a)) → grows reg (foldl f reg l).
Proof.
  revert reg. induction l as [|a l IH]; intros reg Hr Ht Hf; [by apply reg_grows_refl|]. cbn [foldl].
  pose proof (Hf reg a ltac:(by left) Hr Ht) as (Hr' & Ht' & Hl'). eapply reg_grows_trans; [split_and!; done|].
  apply IH; [done|done|]. intros reg' b Hb. apply Hf. by right.
Qed.

Lemma grows_foldM {A} (f : Registry → A → result Registry) l reg reg' :
  registry_ok reg → timeouts_ok reg → foldM f l reg = Ok reg' →
  (∀ reg a reg', registry_ok reg → timeouts_ok reg → f reg a = Ok reg' → grows reg reg') → grows reg reg'.
Proof.
  intros Hr Ht Hf Hstep. eapply (foldM_ind (λ _ reg', grows reg reg')); [by apply reg_grows_refl| |exact Hf].
  intros pre a reg1 reg2 Hg Ha. eapply reg_grows_trans; [exact Hg|]. by eapply Hstep; [apply Hg|apply Hg|].
Qed.

Lemma install_grows now reg e :
  (∀ h, h ∈ te_hints e → 0 ≤ rh_timeout h) → registry_ok reg → timeouts_ok reg → grows reg (install_trigger now reg e).
Proof.
  intros Hh Hr Ht. split; [by apply install_trigger_ok|]. split.
  - unfold install_trigger. case_match; [|done]. unfold timeouts_ok. cbn [func_trigger_timeout_map set_trigger_maps].
    revert Hh. generalize (length (trigger_heap reg)) as n. intros n. generalize (te_hints e) as hs. intros hs.
    revert Ht. unfold timeouts_ok. generalize (func_trigger_timeout_map reg) as m.
    induction hs as [|h hs IH]; intros m Hm Hh; [done|]. cbn [foldl]. apply IH; [|intros; apply Hh; by right].
    intros f r. destruct (decide (f = rh_source_function h)) as [->|].
    + rewrite at_default_insert. intros [Hr'%Hm| ->%list_elem_of_singleton]%elem_of_app; [done|]. apply Hh. by left.
    + rewrite at_default_insert_ne by done. apply Hm.
  - unfold install_trigger. case_match; cbn; [rewrite length_app; lia|done].
Qed.

Lemma clear_grows reg e : registry_ok reg → timeouts_ok reg → grows reg (clear_session reg e).
Proof.
  intros Hr Ht. unfold clear_session. pose proof (grows_touch reg (te_bucket_name e) Hr Ht) as Hg.
  eapply reg_grows_trans; [exact Hg|]. apply grows_foldl; [apply Hg|apply Hg|]. intros reg' p _ Hr' Ht'.
  split_and!; [by apply update_trigger_ok|done|cbn; by rewrite length_alter].
Qed.

Lemma keeps_set_registry reg w : queued w → grows (w_registry w) reg → wlp (set_registry reg) w (λ w' _ _, queued w').
Proof. intros [Hq Hi] Hg. unfold set_registry. eff_step. split; [by eapply checks_ok_grows|done]. Qed.

Lemma keeps_handle_update now m : hints_ok m → keeps queued (handle_update now m).
Proof.
  intros Hm w Hw. pose proof Hw as [(Hr & Ht & _) _]. unfold handle_update. do 2 eff_step. case_decide; [|case_decide; [|case_decide]].
  - unfold on_helper. eff_step. apply wlp_zoom. do 2 eff_step. apply wlp_lift. intros reg' Hf. apply keeps_set_registry; [done|].
    set (reg0 := foldl _ (w_registry w) (ucm_functions m)) in *.
    assert (grows (w_registry w) reg0) as Hg0 by (apply grows_foldl; [done|done|]; intros; by split_and!).
    assert (grows reg0 reg') as Hg1.
    { eapply grows_foldM; [apply Hg0|apply Hg0|exact Hf|]. intros reg a reg1 Hr1 Ht1. unfold add_dependency.
      case_decide; [|intros [= <-]; by apply reg_grows_refl]. intros (src & _ & [= <-])%bind_Ok.
      apply grows_foldl; [done|done|]. intros; by split_and!. }
    eapply reg_grows_trans; [exact Hg0|]. eapply reg_grows_trans; [exact Hg1|]. apply grows_foldl; [apply Hg1|apply Hg1|].
    intros reg e He Hr1 Ht1. unfold add_entity. 
    assert (grows reg (add_bucket reg (ucm_app_name m) (te_bucket_name e))) as Hgb by (by split_and!).
    case_decide; [done|]. eapply reg_grows_trans; [exact Hgb|]. apply install_grows; [intros h; by apply Hm|apply Hgb|apply Hgb].
  - apply keeps_set_registry; [done|]. apply grows_foldl; [done|done|]. intros; by apply clear_grows.
  - eff_step. apply wlp_lift. intros reg' Hf. apply keeps_set_registry; [done|].
    eapply grows_foldM; [done|done|exact Hf|]. intros reg a reg1 Hr1 Ht1 Hd.
    split; [by eapply delete_trigger_ok|]. unfold delete_trigger in Hd. apply bind_Ok in Hd as (ps & _ & [= <-]). done.
  - by eff_step.
Qed.

Lemma keeps_try_recv now inbox :
  from_option hints_ok True (in_update inbox) → keeps queued (try_recv_msg copy_to_shm_obj get_shm_obj now inbox).
Proof.
  intros Hu. assert (∀ k d, keeps queued (copy copy_to_shm_obj k d)) as Hcopy.
  { intros k d w Hw. unfold copy, copy_to_shm_obj. do 2 eff_step. by repeat eff_step. }
  unfold try_recv_msg, get_kvs_responses, kvs_response, handle_data_request, handle_data_response, on_input.
  apply keeps_bind; [destruct (in_update inbox); [by apply keeps_handle_update|auto with eff]|]. keep.
Qed.

Lemma keeps_serve it : lo ≤ it_now it → iteration_ok it → keeps queued (serve conf it).
Proof.
  intros Hlo [_ Hu]. unfold serve. apply keeps_bind; [destruct (it_str it); [by apply keeps_executor_message|auto with eff]|].
  intros _. apply keeps_bind; [by apply keeps_try_recv|]. intros rs. apply keeps_bind; [|intros; by apply keeps_delay_round].
  apply keeps_for_each. intros. by apply keeps_handle_recv.
Qed.

End queue.

(** *** The timer *)

Section timer.
Context (report_end after : Z) (clocks : report_end < after).

Definition due (i : RerunCheckQueueItem) : Prop := check_time_ i ≤ report_end.

#[global] Instance due_dec i : Decision (due i).
Proof. unfold due. apply _. Defined.

Lemma insert_head i j q : due i → ¬ due j → insert_check j (i :: q) = i :: insert_check j q.
Proof. unfold due. intros. cbn. by rewrite decide_True by lia. Qed.

Lemma checks_ok_pop reg i q : checks_ok reg (i :: q) → checks_ok reg q.
Proof. intros (Hr & Ht & [Hs _]%StronglySorted_inv & [_ Hv]%Forall_cons). by split_and!. Qed.

(** What is true of the queue stays so, if it survives that checks for later are queued and
    checks that are due are taken. *)
Lemma keeps_rerun_checks (X : list RerunCheckQueueItem → Prop) n :
  (∀ i q, ¬ due i → X q → X (insert_check i q)) → (∀ i q, due i → X (i :: q) → X q) →
  keeps (on (λ reg q, checks_ok reg q ∧ X q)) (rerun_checks conf n report_end after).
Proof.
  intros Hins Hpop. induction n as [|n IH]; [by intros w Hw|]. intros w [Hq HX]. cbn [rerun_checks]. unfold get_local. do 2 eff_step.
  fold (checks w). destruct (checks w) as [|i q] eqn:E; [eff_step; unfold on; by rewrite E|].
  case_decide as Hi; [|eff_step; unfold on; by rewrite E]. do 3 eff_step. apply wlp_lift. intros t Ht. eff_step.
  set (X' := λ q', X q' ∧ ∃ q0, q' = i :: q0).
  eapply wlp_mono.
  - assert (keeps (on (λ reg q, checks_ok reg q ∧ X' q)) (for_each (λ m,
      app ← app_of_func (func_name_ m);
      schedule_func_call conf after (rc_session_ i) app (func_name_ m) (func_args_ m) (arg_flag_ m) (S754_zero false) 0)
      (trigger_rerun t (rc_session_ i)))) as Hk; [|apply Hk; unfold on; rewrite E; split; [done|split; [done|by eexists]]].
    assert (∀ j q', after ≤ check_time_ j → X' q' → X' (insert_check j q')) as Hins'.
    { intros j q' Hj [HX' [q0 ->]]. assert (¬ due j) by (unfold due; lia). split; [by apply Hins|].
      eexists. by apply insert_head. }
    apply keeps_for_each. intros m. apply keeps_bind; [apply keeps_app_of_func|]. intros a. by apply (keeps_schedule after).
  - cbn beta. intros w1 o1 _ [Hq1 [HX1 [q1 E1]]]. unfold upd_timers, put_local. do 2 eff_step. apply IH.
    rewrite E1 in Hq1, HX1. unfold on, checks in *. cbn. rewrite E1. split; [by eapply checks_ok_pop|by eapply Hpop].
Qed.

Lemma keeps_timer (X : list RerunCheckQueueItem → Prop) :
  (∀ i q, ¬ due i → X q → X (insert_check i q)) → (∀ i q, due i → X (i :: q) → X q) →
  keeps (on (λ reg q, checks_ok reg q ∧ X q)) (timer_round conf report_end after).
Proof.
  intros Hins Hpop. unfold timer_round, get_local. apply keeps_bind; [auto with eff|]. intros t. case_decide; [|auto with eff].
  apply keeps_bind; [by apply keeps_rerun_checks|keep].
Qed.

(** *** A check that is due *)

Lemma offers_notify p s m heap m' s' rs :
  offers p s m heap → (s' = s → m' = m) → offers p s m (notify_all m' s' rs heap).
Proof.
  intros Ho Hm. unfold notify_all. apply (foldl_ind (λ _ heap, offers p s m heap)); [done|]. clear heap Ho.
  intros _ r heap (t & Ht & Hc & Hr). destruct (decide (trigger_ptr_ r = p)) as [->|Hne];
    [|exists t; rewrite list_lookup_alter_ne by done; done].
  eexists. rewrite list_lookup_alter_eq, Ht. split; [reflexivity|].
  destruct t as [target name ty opt [[c]|[c]|[count buffer c]|i|i|i|i]]; try (by destruct Hc);
    cbn in Hr |- *; unfold Immediate.action_for_rerun, ByName.action_for_rerun, ByBatchSize.action_for_rerun in *;
    cbn in *; unfold cache_rerun, cache_notify in *;
    (split; [done|]); (destruct (decide (s' = s)) as [->|Hs]; [rewrite lookup_insert_eq; rewrite Hm by done; by destruct m|by rewrite lookup_insert_ne]).
Qed.

Lemma outcome_checks now s a f args flag cpu mem w w' o r :
  keeps_calls conf → outcome conf now s a f args flag cpu mem w w' o → o ≠ [] → r ∈ metas_of f (w_registry w) →
  rerun_item now s r ∈ checks w'.
Proof.
  intros Hk [w1 x chan e e' _ _ _ _ _ _ _ _ Hq|w1 o1 ar e e' _ _ _ _ _ _ _ _ E] Ho Hr.
  - unfold checks. rewrite Hq, elem_of_app. right. by apply list_elem_of_fmap_2.
  - destruct Hk as [Hd|Hrej]; [rewrite decide_True in E by lia|rewrite Hrej in E; case_decide]; by injection E as _ ->.
Qed.

Context (calls_kept : keeps_calls conf).
Context (p : TriggerPointer) (s : string) (m : TriggerFunctionMetadata).

Definition delayed (w : node) : list DelayFunctionCall := delay_call_queue (timers (w_env w)).

(** The function is called with its arguments, [wa] being the node before the call and [o]
    the messages of the call.  Either an executor is free for it: then it gets the call,
    and every trigger of the function will be asked again.  Or there is none: then the call
    waits in the delay queue, if the node has one.  An executor that is free for it before
    the timer is still free when no other check is due. *)
Definition ran_again (w w' : node) (sent : list Send) : Prop := ∃ pre o post wa wb app,
  let free w := ∃ x, eligible conf (execs (w_env w)) (func_name_ m) x in
  sent = pre ++ o ++ post ∧
  outcome conf after s app (func_name_ m) (func_args_ m) (arg_flag_ m) (S754_zero false) 0 wa wb o ∧
  (free wa ∧ o ≠ [] ∧ (∀ r, r ∈ metas_of (func_name_ m) (w_registry w) → rerun_item after s r ∈ checks w') ∨
   ¬ free wa ∧ (0 < schedDelayTime conf →
     delayed_call after s app (func_name_ m) (func_args_ m) (arg_flag_ m) (S754_zero false) 0 ∈ delayed w')) ∧
  (length (filter due (checks w)) = 1%nat → free w → free wa).

Lemma outcome_delayed now sess a f args flag cpu mem w w' o :
  outcome conf now sess a f args flag cpu mem w w' o →
  (∀ c, c ∈ delayed w → c ∈ delayed w') ∧
  ((∃ x, eligible conf (execs (w_env w)) f x) ∧ o ≠ [] ∨
   ¬ (∃ x, eligible conf (execs (w_env w)) f x) ∧
     (0 < schedDelayTime conf → delayed_call now sess a f args flag cpu mem ∈ delayed w')).
Proof.
  intros [w1 x chan e e' Hx _ _ _ _ _ _ Hd _|w1 o1 ar e e' Hno _ _ _ _ _ _ _ E].
  - unfold delayed. rewrite Hd. split; [done|]. left. by split; [exists x|].
  - unfold delayed. split.
    + intros c Hc. case_decide; injection E as -> _; [apply elem_of_app; by left|done].
    + right. split; [by intros [x ?%Hno]|]. intros Hpos. rewrite decide_True in E by lia. injection E as -> _.
      apply elem_of_app. right. by apply list_elem_of_singleton.
Qed.

(** What holds while the calls of the check [i] are made. *)
Definition rechecking (i : RerunCheckQueueItem) (q0 : list RerunCheckQueueItem) (w w' : node) : Prop :=
  executors_ok (execs (w_env w')) ∧ checks_ok (w_registry w') (checks w') ∧ offers p s m (trigger_heap (w_registry w')) ∧
  (∀ f, metas_of f (w_registry w') = metas_of f (w_registry w)) ∧
  (∀ c, c ∈ delayed w → c ∈ delayed w') ∧
  ∃ q, checks w' = i :: q ∧ filter due q = filter due q0.

Lemma filter_insert i q : ¬ due i → filter due (insert_check i q) = filter due q.
Proof.
  intros Hi. induction q as [|j q IH]; cbn [insert_check]; [by rewrite filter_cons_False|].
  case_decide; [|by rewrite filter_cons_False]. rewrite !filter_cons. case_decide; by rewrite IH.
Qed.

Lemma rechecking_call i q0 w w1 m' :
  due i → (rc_session_ i = s → m' = m ∧ w1 = w) → rechecking i q0 w w1 →
  wp (app ← app_of_func (func_name_ m');
      schedule_func_call conf after (rc_session_ i) app (func_name_ m') (func_args_ m') (arg_flag_ m') (S754_zero false) 0) w1
    (λ w2 o _, rechecking i q0 w w2 ∧ (rc_session_ i = s → ran_again w w2 o)).
Proof.
  intros Hdue Hm (He & Hq & Ho & Hmetas & Hdel & q & Eq & Hf). eff_step. unfold app_of_func, set_registry. repeat eff_step.
  match goal with |- wp _ ?st _ => set (wa := st) end. set (app := at_default _ _ _).
  eapply wp_mono.
  - apply wp_and; [apply (schedule_func_call_spec conf after (rc_session_ i) app); [exact He|by right; left]|apply schedule_announces].
  - cbn beta. intros w2 o _ (Hout & rs & Hrs & Hann).
    assert (Forall (λ r, (trigger_ptr_ r < length (trigger_heap (w_registry wa)))%nat ∧ 0 ≤ rerun_timeout_ r) rs) as Hvalid.
    { destruct Hrs as [->| ->]; [by constructor|by eapply metas_valid]. }
    set (X := λ q', ∃ q, q' = i :: q ∧ filter due q = filter due q0).
    assert (∀ j q', after ≤ check_time_ j → X q' → X (insert_check j q')) as Hins.
    { intros j q' Hj (q1 & -> & Hf1). assert (¬ due j) by (unfold due; lia). eexists. split; [by apply insert_head|].
      by rewrite filter_insert. }
    destruct (announced_queued after X Hins after _ _ _ _ _ _ _ ltac:(lia) Hq ltac:(by exists q) Hvalid Hann) as [Hq2 Hhead].
    destruct Hann as (Hheap & _ & _ & Hmetas2). destruct (outcome_delayed _ _ _ _ _ _ _ _ _ _ _ Hout) as [Hdel2 Hcase]. split.
    + split; [by eapply outcome_executors_ok|]. split; [exact Hq2|].
      split; [|split; [intros f; etransitivity; [apply Hmetas2|apply Hmetas]|]].
      * rewrite Hheap. apply offers_notify; [exact Ho|]. intros Hs. rewrite (proj1 (Hm Hs)). by destruct m.
      * split; [|exact Hhead]. intros c Hc. by apply Hdel2, Hdel.
    + intros Hs. destruct (Hm Hs) as [Em Ew]. exists [], o, [], wa, w2, app.
      rewrite <- Hs, <- Em. split; [cbn; by rewrite app_nil_r|]. split; [exact Hout|]. split.
      * destruct Hcase as [[Hx Hne]|[Hx Hd]]; [left|by right]. split; [done|]. split; [done|].
        intros r Hr. eapply outcome_checks; [done|exact Hout|exact Hne|]. rewrite <- Hmetas in Hr. exact Hr.
      * intros _ Hx. rewrite <- Ew in Hx. exact Hx.
Qed.

Lemma ran_again_extend w w1 w2 pre sent post :
  ran_again w w1 sent → (∀ r, r ∈ metas_of (func_name_ m) (w_registry w) → rerun_item after s r ∈ checks w1 → rerun_item after s r ∈ checks w2) →
  (∀ c, c ∈ delayed w1 → c ∈ delayed w2) →
  ran_again w w2 (pre ++ sent ++ post).
Proof.
  intros (a & o & b & wa & wb & app & -> & Hout & Hcase & Hone) Hkeep Hdel. exists (pre ++ a), o, (b ++ post), wa, wb, app.
  split; [by rewrite <- !app_assoc|]. split; [done|]. split; [|done].
  destruct Hcase as [(Hx & Hne & Hq)|[Hx Hd]]; [left; auto|right; auto].
Qed.

(** The same from an earlier state, in which more checks are due. *)
Lemma ran_again_earlier w w1 w' sent :
  (∀ f, metas_of f (w_registry w) = metas_of f (w_registry w1)) → length (filter due (checks w1)) ≠ 1%nat →
  ran_again w w' sent → ran_again w1 w' sent.
Proof.
  intros Hm Hn (a & o & b & wa & wb & app & E & Hout & Hcase & _). exists a, o, b, wa, wb, app.
  split; [done|]. split; [done|]. rewrite <- Hm. by split.
Qed.

(** The calls of one check. *)
Lemma recheck_spec i q0 w :
  due i → checks w = i :: q0 → executors_ok (execs (w_env w)) → checks_ok (w_registry w) (checks w) →
  offers p s m (trigger_heap (w_registry w)) → (rc_session_ i = s → rc_trigger_ptr_ i = p) →
  ∀ t, trigger_heap (w_registry w) !! rc_trigger_ptr_ i = Some t →
  wp (for_each (λ m', app ← app_of_func (func_name_ m');
      schedule_func_call conf after (rc_session_ i) app (func_name_ m') (func_args_ m') (arg_flag_ m') (S754_zero false) 0)
      (trigger_rerun t (rc_session_ i))) w
    (λ w' o _, rechecking i q0 w w' ∧ (rc_session_ i = s → ran_again w w' o)).
Proof.
  intros Hdue Eq He Hq Ho Hp t Ht.
  assert (rc_session_ i = s → trigger_rerun t (rc_session_ i) = [m]) as Hms.
  { intros Hs. destruct Ho as (t' & Ht' & _ & Hr). rewrite (Hp Hs), Ht' in Ht. injection Ht as <-. by rewrite Hs. }
  eapply wp_mono.
  - apply (wp_for_each (λ pre w' o, rechecking i q0 w w' ∧ (pre = [] → w' = w) ∧
      (rc_session_ i = s → pre = [m] → ran_again w w' o))).
    + split; [|split; [done|by intros ? [=]]]. do 5 (split; [done|]). by exists q0.
    + intros pre m' w1 o1 [post Hpre] (Hre & Hw1 & _).
      eapply wp_mono; [apply (rechecking_call i q0 w w1 m'); [done| |done]|].
      * intros Hs. rewrite (Hms Hs) in Hpre. destruct pre as [|? [|]]; [|by injection Hpre..].
        split; [by injection Hpre|by apply Hw1].
      * cbn beta. intros w2 o2 _ [Hre2 Hran]. split; [done|]. split; [by destruct pre|]. intros Hs _. replace (o1 ++ o2) with (o1 ++ o2 ++ []) by (by rewrite app_nil_r).
        apply (ran_again_extend w w2); [by apply Hran|done|done].
  - cbn beta. intros w' o _ (Hre & _ & Hran). split; [done|]. intros Hs. by apply Hran, Hms.
Qed.

(** The loop reaches every check that is due; its fuel, the length of the queue, is enough:
    when it ends no check is due, since the checks it queues are for later. *)
Lemma rerun_checks_again n w :
  executors_ok (execs (w_env w)) → checks_ok (w_registry w) (checks w) → offers p s m (trigger_heap (w_registry w)) →
  (∀ i, i ∈ checks w → due i → rc_session_ i = s → rc_trigger_ptr_ i = p) →
  (length (filter due (checks w)) ≤ n)%nat →
  wp (rerun_checks conf n report_end after) w (λ w' sent _,
    (∀ c, c ∈ delayed w → c ∈ delayed w') ∧ Forall (λ i, ¬ due i) (checks w') ∧
    ((∃ i, i ∈ checks w ∧ due i ∧ rc_session_ i = s) → ran_again w w' sent)).
Proof.
  revert w. induction n as [|n IH]; intros w He Hq Ho Hp Hn.
  - cbn [rerun_checks]. eff_step. assert (∀ i, i ∈ checks w → ¬ due i) as Hnone.
    { intros i Hi Hdue. assert (i ∈ filter due (checks w)) as Hin by (by apply list_elem_of_filter).
      destruct (filter due (checks w)); [by apply elem_of_nil in Hin|cbn in Hn; lia]. }
    split; [done|]. split; [by apply Forall_forall|]. by intros (i & Hi%Hnone & Hdue & _).
  - cbn [rerun_checks]. unfold get_local. do 2 eff_step. fold (checks w).
    destruct (checks w) as [|i q0] eqn:Eq; [eff_step; rewrite Eq; split; [done|]; split; [done|]; by intros (i & Hi%elem_of_nil & _)|].
    case_decide as Hdue.
    2:{ eff_step. assert (∀ j, j ∈ i :: q0 → ¬ due j) as Hnone.
        { intros j Hj Hdj. destruct Hq as (_ & _ & [_ Hs]%StronglySorted_inv & _).
          apply elem_of_cons in Hj as [->|Hj]; [done|]. apply (proj1 (Forall_forall _ _) Hs) in Hj. unfold earlier, due in *. lia. }
        rewrite Eq. split; [done|]. split; [by apply Forall_forall|]. by intros (j & Hj%Hnone & Hdj & _). }
    do 3 eff_step. assert (is_Some (trigger_heap (w_registry w) !! rc_trigger_ptr_ i)) as [t Ht].
    { apply lookup_lt_is_Some. destruct Hq as (_ & _ & _ & [Hv _]%Forall_cons). exact Hv. }
    eapply wp_lift; [by apply vec_at_Ok|]. eff_step.
    eapply wp_mono.
    { apply (recheck_spec i q0); try done; [by rewrite Eq|]. intros Hs. apply Hp; [by left|done|done]. }
    cbn beta. intros w1 o1 _ [(He1 & Hq1 & Ho1 & Hm1 & Hd1 & q1 & E1 & Hf1) Hran]. unfold upd_timers, put_local. do 2 eff_step.
    match goal with |- wp _ ?st _ => set (w2 := st) end.
    assert (checks w2 = q1) as E2 by (unfold w2, checks in *; cbn; by rewrite E1).
    assert (∀ r, r ∈ metas_of (func_name_ m) (w_registry w) → ¬ due (rerun_item after s r)) as Hnew.
    { intros r Hr. destruct Hq as (_ & Hto & _). specialize (Hto _ _ Hr). unfold due. cbn. lia. }
    rewrite E1 in Hq1. eapply wp_mono.
    + apply wp_and; [apply (IH w2)|].
      * exact He1.
      * rewrite E2. by eapply checks_ok_pop.
      * exact Ho1.
      * rewrite E2. intros j Hj Hdj Hs. apply Hp; [|done|done]. right.
        assert (j ∈ filter due q1) as Hj1 by (by apply list_elem_of_filter). rewrite Hf1 in Hj1. by apply list_elem_of_filter in Hj1 as [_ ?].
      * rewrite E2, Hf1. rewrite filter_cons_True in Hn by done. cbn in Hn. lia.
      * apply (keeps_rerun_checks (λ q, ∀ r, r ∈ metas_of (func_name_ m) (w_registry w) → rerun_item after s r ∈ checks w1 → rerun_item after s r ∈ q)).
        -- intros j q Hj Hq2 r Hr Hin. apply insert_check_elem. right. by apply Hq2.
        -- intros j q Hj Hq2 r Hr Hin. specialize (Hq2 r Hr Hin). apply elem_of_cons in Hq2 as [<-|?]; [|done]. by destruct (Hnew r Hr).
        -- unfold on. rewrite E2. split; [by eapply checks_ok_pop|]. intros r Hr Hin. rewrite E1 in Hin.
           apply elem_of_cons in Hin as [<-|?]; [|done]. by destruct (Hnew r Hr).
    + cbn beta. intros w3 o3 _ [(Hd3 & Hdone & Hrest) [_ Hkeep]]. split; [intros c Hc; by apply Hd3, Hd1|].
      split; [done|]. intros (j & Hj & Hdj & Hs). cbn [app]. destruct (decide (rc_session_ i = s)) as [Hsi|Hsi].
      * apply (ran_again_extend w w1 w3 []); [by apply Hran|exact Hkeep|exact Hd3].
      * replace (o1 ++ o3) with (o1 ++ o3 ++ []) by (by rewrite app_nil_r).
        apply elem_of_cons in Hj as [->|Hj]; [done|].
        assert (j ∈ filter due q0) as Hj0 by (by apply list_elem_of_filter).
        apply (ran_again_extend w w3 w3); [|done|done]. apply (ran_again_earlier w2); [done| |].
        { rewrite Eq, filter_cons_True by done. cbn. destruct (filter due q0); [by apply elem_of_nil in Hj0|done]. }
        apply Hrest. exists j. split; [|done]. rewrite E2. rewrite <- Hf1 in Hj0. by apply list_elem_of_filter in Hj0 as [_ ?].
Qed.

(** A check whose trigger offers nothing, since the object has come, calls nothing. *)
Lemma settled_checks n w :
  checks_ok (w_registry w) (checks w) →
  (∀ i, i ∈ checks w → due i → ∃ t, trigger_heap (w_registry w) !! rc_trigger_ptr_ i = Some t ∧ trigger_rerun t (rc_session_ i) = []) →
  wp (rerun_checks conf n report_end after) w (λ w' sent _,
    sent = [] ∧ w_registry w' = w_registry w ∧ execs (w_env w') = execs (w_env w)).
Proof.
  revert w. induction n as [|n IH]; intros w Hq Hset; cbn [rerun_checks]; [by eff_step|]. unfold get_local. do 2 eff_step.
  fold (checks w). destruct (checks w) as [|i q] eqn:Eq; [by eff_step|]. case_decide as Hdue; [|by eff_step].
  destruct (Hset i ltac:(by left) Hdue) as (t & Ht & Hr). do 3 eff_step. eapply wp_lift; [by apply vec_at_Ok|]. eff_step.
  rewrite Hr. cbn [for_each]. unfold upd_timers, put_local. do 3 eff_step.
  match goal with |- wp _ ?st _ => set (w1 := st) end. assert (checks w1 = q) as E1 by (unfold w1, checks in *; cbn; by rewrite Eq).
  eapply wp_mono; [apply (IH w1)|].
  - rewrite E1. by eapply checks_ok_pop.
  - rewrite E1. intros j Hj. apply Hset. by right.
  - cbn beta. intros w2 o2 _ (-> & Hr2 & He2). done.
Qed.

Lemma timer_runs_again w :
  executors_ok (execs (w_env w)) → checks_ok (w_registry w) (checks w) → offers p s m (trigger_heap (w_registry w)) →
  (∀ i, i ∈ checks w → due i → rc_session_ i = s → rc_trigger_ptr_ i = p) →
  schedTimerThreshold ≤ to_ms (report_end - report_start (timers (w_env w))) →
  wp (timer_round conf report_end after) w (λ w' sent _,
    (∃ i, i ∈ checks w ∧ due i ∧ rc_session_ i = s) → ran_again w w' sent).
Proof.
  intros He Hq Ho Hp Htime. unfold timer_round, get_local. do 2 eff_step. rewrite decide_True by lia. eff_step.
  eapply wp_mono; [apply rerun_checks_again; try done; apply length_filter|]. cbn beta. intros w1 o1 _ (_ & _ & Hran). do 5 eff_step.
  unfold on_helper. apply wp_zoom. unfold update_status. do 4 eff_step.
  eapply wp_mono; [by apply (wp_for_each (λ _ h _, h = w_helper w1))|]. cbn beta. intros h o2 _ ->.
  unfold upd_timers, put_local. eff_step. intros Hex. by apply (ran_again_extend w w1 _ []); [apply Hran| |].
Qed.

End timer.

(** *** Histories *)

Lemma history_keeps item its w w' :
  history conf its w w' → Forall (λ it, it_now it < check_time_ item) its →
  checks_ok (w_registry w) (checks w) → item ∈ checks w → checks_ok (w_registry w') (checks w') ∧ item ∈ checks w'.
Proof.
  induction 1 as [w|it its w w1 w2 sent Hit Hrun _ IH]; intros Hits Hq Hi; [done|].
  apply Forall_cons in Hits as [Hnow Hits]. set (X := λ q : list RerunCheckQueueItem, item ∈ q).
  assert (∀ i q, X q → X (insert_check i q)) as Hins by (intros i q HX; apply insert_check_elem; by right).
  assert (keeps (on (λ reg q, checks_ok reg q ∧ X q)) (iterate conf it)) as Hk.
  { unfold iterate, run_iteration. destruct Hit as [Hclock Hu].
    apply keeps_bind; [destruct (it_str it); [by apply (keeps_executor_message (it_now it)); auto|auto with eff]|]. intros _.
    apply keeps_bind; [by apply keeps_try_recv|]. intros rs.
    apply keeps_bind; [apply keeps_for_each; intros; by apply (keeps_handle_recv (it_now it)); auto|]. intros _.
    apply keeps_bind; [by apply (keeps_delay_round (it_now it)); auto|]. intros _.
    apply keeps_timer; [done|auto|]. intros i q Hdue HX. apply elem_of_cons in HX as [<-|?]; [|done]. unfold due in Hdue. lia. }
  destruct (wlp_Ok _ _ _ _ _ _ (Hk w (conj Hq Hi)) Hrun) as [Hq1 Hi1]. by apply IH.
Qed.

Lemma serve_then it w w1 o1 w2 o2 :
  serve conf it w = Ok (w1, o1, tt) → timer_round conf (it_now it) (it_after it) w1 = Ok (w2, o2, tt) →
  iterate conf it w = Ok (w2, o1 ++ o2, tt).
Proof.
  unfold serve, iterate, run_iteration. generalize (match it_str it with Some str => executor_message conf (it_now it) str | None => mret tt end) as first.
  intros first. unfold mbind, eff_bind. destruct (first w) as [[[wa oa] []]|]; [|done].
  destruct (try_recv_msg _ _ _ _ wa) as [[[wb ob] rs]|]; [|done].
  destruct (for_each _ rs wb) as [[[wc oc] []]|]; [|done].
  destruct (delay_round _ _ wc) as [[[wd od] []]|]; [|done]. intros [= <- <-] ->. by rewrite <- !app_assoc.
Qed.

Lemma notified_offers s m rs r heap t :
  r ∈ rs → heap !! trigger_ptr_ r = Some t → caches_session t → offers (trigger_ptr_ r) s m (notify_all m s rs heap).
Proof.
  revert heap t. induction rs as [|r' rs IH]; intros heap t Hr Ht Hc; [by apply elem_of_nil in Hr|].
  destruct (decide (trigger_ptr_ r' = trigger_ptr_ r)) as [E|Hne].
  - apply (offers_notify _ _ _ _ m s rs); [|done]. rewrite E. eexists. rewrite list_lookup_alter_eq, Ht. split; [reflexivity|].
    destruct t as [target name ty opt [[c]|[c]|[count buffer c]|i|i|i|i]]; try (by destruct Hc); (split; [done|]); cbn;
      unfold Immediate.action_for_rerun, ByName.action_for_rerun, ByBatchSize.action_for_rerun; cbn;
      unfold cache_rerun, cache_notify; rewrite lookup_insert_eq; by destruct m.
  - apply elem_of_cons in Hr as [->|Hr]; [done|]. apply (IH _ t); [done|by rewrite list_lookup_alter_ne|done].
Qed.

(** *** The property *)

(** C17: A function whose object does not come is run again.  The node queues or rejects calls
    that find no executor ([keeps_calls]), and one is free for the first call.  That call
    leaves with every trigger that caches its sources the offer to run it again and queues a
    check; whatever iterations of the server follow, the check stays until its time.  In the
    first iteration after that whose timer runs, if the trigger still makes the offer (no
    object of the session has come) and is the only one with a due check of the session, the
    function is called again with the same arguments.  If an executor is free for it at that
    moment, as when one was free before the timer and no other check is due, the executor
    gets the call and the checks of the function are queued anew; otherwise the call waits
    in the delay queue, if the node has one ([rejected_for_ever] if it has none). *)
Theorem lost_function_runs_again now s app f args flag cpu mem w r :
  checks_ok (w_registry w) (checks w) → executors_ok (execs (w_env w)) → keeps_calls conf →
  (∃ x, eligible conf (execs (w_env w)) f x) → r ∈ metas_of f (w_registry w) →
  let m := source_status f args flag in
  let item := rerun_item now s r in
  ∃ w1 sent1,
    schedule_func_call conf now s app f args flag cpu mem w = Ok (w1, sent1, tt) ∧
    (∀ t, trigger_heap (w_registry w) !! trigger_ptr_ r = Some t → caches_session t →
       offers (trigger_ptr_ r) s m (trigger_heap (w_registry w1))) ∧
    ∀ its w2 it w3 o3,
      history conf its w1 w2 → Forall (λ it, it_now it < check_time_ item) its →
      iteration_ok it → check_time_ item ≤ it_now it → serve conf it w2 = Ok (w3, o3, tt) →
      schedTimerThreshold ≤ to_ms (it_now it - report_start (timers (w_env w3))) → executors_ok (execs (w_env w3)) →
      offers (trigger_ptr_ r) s m (trigger_heap (w_registry w3)) →
      (∀ i, i ∈ checks w3 → due (it_now it) i → rc_session_ i = s → rc_trigger_ptr_ i = trigger_ptr_ r) →
      ∃ w4 o4, iterate conf it w2 = Ok (w4, o3 ++ o4, tt) ∧ ran_again (it_now it) (it_after it) s m w3 w4 o4.
Proof.
  intros Hq He Hk Hel Hr m item.
  pose proof (schedule_func_call_spec conf now s app f args flag cpu mem w He ltac:(tauto)) as Hspec.
  apply (fun Hspec => wp_and _ _ _ _ Hspec (schedule_announces now s app f args flag cpu mem w)) in Hspec.
  apply wp_Ok in Hspec as (w1 & sent1 & [] & E & Hout & rs & Hrs & Hann). exists w1, sent1.
  assert (rs = metas_of f (w_registry w) ∧ item ∈ checks w1) as [-> Hitem].
  { destruct Hel as [x Hx]. destruct Hout as [w1 y chan e e' _ _ _ _ _ _ _ _ Hperm|? ? ? ? ? Hno]; [|by destruct (Hno x)].
    assert (item ∈ checks w1) as Hin by (unfold checks; rewrite Hperm, elem_of_app; right; by apply list_elem_of_fmap_2).
    split; [|done]. destruct Hrs as [->|?]; [|done]. exfalso. destruct Hann as (_ & Hsame & _). unfold queue_all in Hsame. cbn in Hsame.
    unfold checks in Hsame. rewrite Hsame in Hperm. apply Permutation_length in Hperm. rewrite length_app, length_map in Hperm.
    unfold metas_of in Hr. destruct (at_default [] f _); [by apply elem_of_nil in Hr|cbn in Hperm; lia]. }
  split; [exact E|]. split.
  - intros t Ht Hc. destruct Hann as (Hheap & _). rewrite Hheap. by eapply notified_offers.
  - intros its w2 it w3 o3 Hhist Hits Hit Hdue Hserve Htime He3 Ho Hp.
    assert (checks_ok (w_registry w1) (checks w1)) as Hq1.
    { by apply (announced_queued now (λ _, True) (λ _ _ _ _, I) now _ _ _ _ _ _ _ ltac:(lia) Hq I (metas_valid f _ _ Hq) Hann). }
    destruct (history_keeps item its w1 w2 Hhist Hits Hq1 Hitem) as [Hq2 Hi2].
    pose proof (keeps_serve (it_now it) (λ q, item ∈ q) ltac:(intros; apply insert_check_elem; by right) it ltac:(lia) Hit w2 (conj Hq2 Hi2)) as Hk3.
    destruct (wlp_Ok _ _ _ _ _ _ Hk3 Hserve) as [Hq3 Hi3].
    pose proof (timer_runs_again (it_now it) (it_after it) (proj1 Hit) Hk (trigger_ptr_ r) s m w3 He3 Hq3 Ho Hp Htime) as Hrun.
    apply wp_Ok in Hrun as (w4 & o4 & [] & Etimer & Hran). exists w4, o4. split; [by eapply serve_then|]. apply Hran. by exists item.
Qed.

End keeping.

(** ** An example

    A node with two executors and a trigger that waits 50 ms for the object of [f]. *)

Definition waiting_conf : SchedConf := {| schedDelayTime := 1000; sharedExecutor := false; rejectExtraReq := false |}.

Definition waiting_trigger : RerunTriggerTimeout := {| trigger_ptr_ := 0%nat; rerun_timeout_ := 50 |}.

Definition waiting_node : node := {|
  w_helper := new_CommHelper [] "10.0.0.1" 1 [new_KvsClient [] "10.0.0.1" 0 10 7];
  w_registry := set_trigger_maps empty_Registry
    [make_trigger "g" "t" BY_BATCH_SIZE (ByBatchSizeImpl (fresh_batch 2))] {["b" := [0%nat]]} {["f" := [waiting_trigger]]};
  w_env := w_env example_node |}.

Definition quiet_iteration (now : Z) : iteration := {|
  it_now := now; it_after := now + 1; it_str := None;
  it_inbox := {| in_update := None; in_call := None; in_data_request := None; in_data_response := None;
                 in_key_address := None; in_kvs_response := None |} |}.

#[local] Existing Instances sorted_iter lcg_rand bits_lattice_messages bits_primitive_messages.

(** The state after a method, the messages sent. *)
Definition state_after {A} (m : eff node Send A) (w : node) : node := match m w with Ok (w', _, _) => w' | Throw _ => w end.
Definition sent_by {A} (m : eff node Send A) (w : node) : list Send := match m w with Ok (_, o, _) => o | Throw _ => [] end.
Definition returns {A} (m : eff node Send A) (w : node) : bool := match m w with Ok _ => true | Throw _ => false end.

Lemma returns_eq (m : eff node Send unit) w : returns m w = true → m w = Ok (state_after m w, sent_by m w, tt).
Proof. unfold returns, state_after, sent_by. by destruct (m w) as [[[? ?] []]|]. Qed.

Definition called : node := state_after (schedule_func_call waiting_conf 5 "s" "app" "f" ["1"] 0 (S754_zero false) 0) waiting_node.
Definition idle : node := state_after (iterate waiting_conf (quiet_iteration 20000000)) called.
Definition served : node := state_after (serve waiting_conf (quiet_iteration 60000000)) idle.

(** The call goes to executor 0 first, and to executor 1 when its object has not come. *)
Example called_twice :
  map send_to (sent_by (schedule_func_call waiting_conf 5 "s" "app" "f" ["1"] 0 (S754_zero false) 0) waiting_node) = ["ipc-0"] ∧
  map send_to (sent_by (iterate waiting_conf (quiet_iteration 20000000)) called) = [] ∧
  map send_to (sent_by (iterate waiting_conf (quiet_iteration 60000000)) idle) = ["ipc-1"].
Proof. vm_compute. repeat split; reflexivity. Qed.

(** Without an executor, and when the node rejects calls, the check is gone with the call:
    the function never runs again, though the trigger still offers it. *)
Definition rejecting_conf : SchedConf := {| schedDelayTime := 0; sharedExecutor := false; rejectExtraReq := true |}.

Definition busy : node := with_execs (set_status {[0 := 3; 1 := 3]} (execs (w_env idle))) idle.
Definition rejected : node := state_after (iterate rejecting_conf (quiet_iteration 60000000)) busy.

Example rejected_for_ever :
  returns (iterate rejecting_conf (quiet_iteration 60000000)) busy = true ∧ checks busy ≠ [] ∧ checks rejected = [] ∧
  (λ t, trigger_rerun t "s") <$> trigger_heap (w_registry rejected) = [[source_status "f" ["1"] 0]].
Proof. split_and!; [evaluate|discriminate|evaluate|evaluate]. Qed.

Lemma waiting_checks_ok : checks_ok (w_registry waiting_node) (checks waiting_node).
Proof.
  split; [split|split; [|by repeat constructor]]; cbn; unfold at_default.
  - intros b p. destruct (decide (b = "b")) as [->|]; [rewrite lookup_singleton_eq|rewrite lookup_singleton_ne by done]; cbn; set_solver by lia.
  - intros f r. destruct (decide (f = "f")) as [->|]; [rewrite lookup_singleton_eq|rewrite lookup_singleton_ne by done]; cbn; set_solver by (cbn; lia).
  - intros f r. cbn. unfold at_default. destruct (decide (f = "f")) as [->|]; [rewrite lookup_singleton_eq|rewrite lookup_singleton_ne by done]; cbn; set_solver by (cbn; lia).
Qed.

Lemma lost_function_runs_again_witness :
  ∃ w4 o4, iterate waiting_conf (quiet_iteration 60000000) idle
      = Ok (w4, sent_by (serve waiting_conf (quiet_iteration 60000000)) idle ++ o4, tt) ∧
    ran_again waiting_conf 60000000 60000001 "s" (source_status "f" ["1"] 0) served w4 o4.
Proof.
  destruct (lost_function_runs_again waiting_conf 5 "s" "app" "f" ["1"] 0 (S754_zero false) 0 waiting_node waiting_trigger)
    as (w1 & sent1 & E & _ & Hlater).
  - apply waiting_checks_ok.
  - apply example_executors_ok.
  - by left.
  - exists 0. left. split; [reflexivity|]. evaluate.
  - vm_compute. left.
  - assert (w1 = called) as -> by (unfold called, state_after; by rewrite E). clear E.
    apply (Hlater [quiet_iteration 20000000] idle (quiet_iteration 60000000) served); clear Hlater.
    + eapply history_cons; [split; [cbn; lia|done]| |apply history_nil]. apply returns_eq. vm_compute. reflexivity.
    + apply Forall_singleton. cbn. lia.
    + split; [cbn; lia|done].
    + cbn. lia.
    + apply returns_eq. vm_compute. reflexivity.
    + apply (bool_decide_unpack _). vm_compute. exact I.
    + assert (map_Forall (λ x _, is_Some (executor_chans_map (execs (w_env served)) !! x)) (executor_status_map (execs (w_env served)))) as Hchans
        by evaluate.
      intros x [st Hx]. by apply (Hchans x st).
    + destruct (trigger_heap (w_registry served) !! 0%nat) as [t|] eqn:Et; [|exfalso; revert Et; vm_compute; discriminate].
      exists t. split; [exact Et|].
      set (f (t : Trigger) := (match Triggers.impl t with ByBatchSizeImpl _ => true | _ => false end, trigger_rerun t "s")).
      assert (f t = (true, [source_status "f" ["1"] 0])) as Hst.
      { apply (inj Some). change (Some (f t)) with (f <$> Some t). rewrite <- Et. unfold f. vm_compute. reflexivity. }
      injection Hst as Hcache Hrerun. split; [unfold caches_session; by destruct (Triggers.impl t)|exact Hrerun].
    + assert (Forall (λ i, rc_trigger_ptr_ i = 0%nat) (checks served)) as Hall by evaluate.
      intros i Hi _ _. by apply (proj1 (Forall_forall _ _) Hall).
Defined.
