(* ===== verification/NodeFormats.v ===== *)
(** * The messages between the local scheduler and the executors

    The byte formats of calls, objects and replies, from the code that writes a
    message on one side to the code that reads it on the other
    ([scheduler_server.cpp], [executor_server.cpp], [function_lib.hpp]). *)

From S2P Require Import Prelude CppString CppDouble Messages Common Effects CommHelper LocalScheduler LocalSpecs LocalWaiting Executor.

(** ** Definitions *)

(** A field of a message: no delimiter and no terminator. *)
Definition field (s : string) : Prop := no_char kDelimiterChar s ∧ no_char nul s.

#[export] Instance field_dec s : Decision (field s).
Proof. unfold field. apply _. Defined.

(** An argument is a list of segments joined by the delimiter: one for a value or a
    size, two for the name of an object. *)
Definition arg_of (segments : list string) : string := join kDelimiter segments.

(** ** Lemmas *)

Lemma char_of_head c rest : char_of (String c rest) 0 = Ok (val_of c).
Proof. done. Qed.

Lemma char_of_tail c rest i : char_of (String c rest) (S i) = char_of rest i.
Proof.
  unfold char_of. cbn [String.get String.length]. destruct (String.get i rest); [done|].
  repeat case_decide; try done; lia.
Qed.

Lemma bytes_from_tail c rest i n : bytes_from (String c rest) (S i) n = bytes_from rest i n.
Proof.
  unfold bytes_from, size_of. cbn [String.length drop_string]. repeat case_decide; try done; lia.
Qed.

Lemma c_string_from_tail c rest i : c_string_from (String c rest) (S i) = c_string_from rest i.
Proof. unfold c_string_from. cbn [String.length drop_string]. repeat case_decide; try done; lia. Qed.

Lemma bytes_from_app a b : bytes_from (a +:+ b) 0 (size_of a) = Ok a.
Proof.
  unfold bytes_from. rewrite size_of_app. pose proof (size_of_nonneg b). rewrite decide_False by lia.
  rewrite drop_string_0, append_assoc. unfold size_of. by rewrite Nat2Z.id, take_string_app.
Qed.

Lemma c_string_from_app a b : no_char nul b → c_string_from (a +:+ b) (Z.to_nat (size_of a)) = Ok b.
Proof.
  intros Hb. unfold c_string_from, size_of. rewrite Nat2Z.id, decide_False.
  - by rewrite drop_string_app, c_str_no_nul.
  - pose proof (size_of_app a b) as E. unfold size_of in E. lia.
Qed.

Lemma byte_cons z s : byte_string z +:+ s = String (byte_of z) s.
Proof. unfold byte_string. by rewrite append_cons, append_nil_l. Qed.

Create Rewrite HintDb bytes.
#[export] Hint Rewrite char_of_head char_of_tail bytes_from_tail c_string_from_tail byte_cons val_byte_of : bytes.

Lemma foldl_delim l s : foldl (λ s arg, s +:+ "|" +:+ arg) s l = join "|" (s :: l).
Proof.
  revert s. induction l as [|a l IH]; intros s; [done|]. cbn [foldl]. rewrite IH.
  destruct l as [|b l]; [done|]. cbn [join]. by rewrite !append_assoc.
Qed.

Lemma join_cons d a l : l ≠ [] → join d (a :: l) = a +:+ d +:+ join d l.
Proof. by destruct l. Qed.

Lemma join_app d l1 l2 : l1 ≠ [] → l2 ≠ [] → join d (l1 ++ l2) = join d l1 +:+ d +:+ join d l2.
Proof.
  intros H1 H2. induction l1 as [|a l1 IH]; [done|]. destruct l1 as [|b l1].
  - cbn [app]. by rewrite join_cons.
  - cbn [app] in *. rewrite (join_cons d a (b :: l1 ++ l2)), IH, (join_cons d a (b :: l1)) by done.
    by rewrite !append_assoc.
Qed.

(** Joining groups of segments is joining the segments. *)
Lemma join_concat d (groups : list (list string)) :
  Forall (λ g, g ≠ []) groups → join d (map (join d) groups) = join d (concat groups).
Proof.
  induction 1 as [|g groups Hg Hgs IH]; [done|]. destruct groups as [|g' groups].
  - cbn. by rewrite app_nil_r.
  - cbn [map]. rewrite join_cons by done. cbn [concat] in *. cbn [map] in IH. rewrite IH.
    symmetry. apply join_app; [done|]. apply Forall_cons in Hgs as [Hg' _]. by destruct g'.
Qed.

Lemma no_nul_join l : Forall (no_char nul) l → no_char nul (join "|" l).
Proof.
  induction 1 as [|a l Ha Hl IH]; [done|]. destruct l; [done|]. rewrite join_cons by done.
  rewrite !no_char_app. split_and!; [done| |done]. done.
Qed.

Lemma concat_map_arg (groups : list (list string)) :
  Forall (λ g, g ≠ []) groups → join "|" (map arg_of groups) = join "|" (concat groups).
Proof. apply join_concat. Qed.

Lemma no_nul_to_string n : 0 ≤ n → no_char nul (to_string n).
Proof. intros. apply to_string_no_char; [done|reflexivity]. Qed.

Lemma resource_meta_size cpu mem : 0 ≤ size_of (resource_meta cpu mem) ≤ 255.
Proof.
  unfold resource_meta. case_decide as Hs; [vm_compute; split; discriminate|].
  split; [apply size_of_nonneg|lia].
Qed.

(** Reading a call: the head, and the fields after the resources. *)
Lemma parse_call_message arg_flag persist cpu mem session func args :
  0 ≤ arg_flag < 255 → no_char nul (session +:+ "|" +:+ join "|" (func :: args)) →
  parse_call (call_message arg_flag persist cpu mem session func args)
  = match split (session +:+ "|" +:+ join "|" (func :: args)) kDelimiterChar with
    | session_id :: func_name :: args =>
        Ok {| cm_arg_flag := arg_flag; cm_persist := if persist then 1 else 2;
              cm_resources := split (resource_meta cpu mem) ","%char;
              cm_session_id := session_id; cm_function := func_name; cm_args := args |}
    | _ => Throw Undefined
    end.
Proof.
  intros Hf Hn. unfold parse_call, call_message. rewrite foldl_delim.
  set (meta := resource_meta cpu mem). set (rest := session +:+ _).
  pose proof (resource_meta_size cpu mem) as Hm. fold meta in Hm.
  rewrite !byte_cons. change (4 + Z.to_nat ?n)%nat with (S (S (S (S (Z.to_nat n))))).
  autorewrite with bytes. cbn [mbind result_bind]. rewrite (u8_small (size_of meta)) by lia.
  autorewrite with bytes. rewrite bytes_from_app. cbn [mbind result_bind].
  autorewrite with bytes. rewrite c_string_from_app by done. cbn [mbind result_bind].
  rewrite (u8_small (arg_flag + 1)) by lia. replace (arg_flag + 1 - 1) with arg_flag by lia.
  rewrite (u8_small arg_flag) by lia. replace (u8 (if persist then 1 else 2)) with (if persist then 1 else 2); [done|].
  by destruct persist.
Qed.

(** ** Properties *)

Lemma split_join_last d l w :
  Forall (no_char d) l → last l = Some w → w ≠ "" → split (join (String d EmptyString) l) d = l.
Proof.
  intros Hl Hlast Hw. apply last_Some in Hlast as [l' ->]. apply Forall_app in Hl as [Hl' Hw'].
  apply split_join; [done|by inversion Hw'|done].
Qed.

Lemma fields_no_char l : Forall field l → Forall (no_char kDelimiterChar) l.
Proof. intros Hl. eapply Forall_impl; [exact Hl|]. by intros a []. Qed.

Lemma fields_no_nul l : Forall field l → Forall (no_char nul) l.
Proof. intros Hl. eapply Forall_impl; [exact Hl|]. by intros a []. Qed.

Lemma delim_kDelimiter : "|" = kDelimiter. Proof. done. Qed.

(** The executor decodes the message the scheduler builds to the same function, session,
    flags, resources and arguments, the names of objects cut at the delimiter. *)
Lemma parse_call_of arg_flag persist cpu mem session func (groups : list (list string)) w :
  0 ≤ arg_flag ≤ 2 → field session → Forall field (func :: concat groups) → Forall (λ g, g ≠ []) groups →
  last (func :: concat groups) = Some w → w ≠ "" →
  parse_call (call_message arg_flag persist cpu mem session func (map arg_of groups))
  = Ok {| cm_arg_flag := arg_flag; cm_persist := if persist then 1 else 2;
          cm_resources := split (resource_meta cpu mem) ","%char;
          cm_session_id := session; cm_function := func; cm_args := concat groups |}.
Proof.
  intros Hflag [Hs Hs0] Hparts Hne Hlast Hw.
  assert (join "|" (func :: map arg_of groups) = join "|" (func :: concat groups)) as E.
  { change (func :: map arg_of groups) with (map arg_of ([func] :: groups)).
    rewrite concat_map_arg; [done|by constructor]. }
  rewrite parse_call_message; [|lia|]; rewrite E.
  - rewrite delim_kDelimiter at 1. unfold kDelimiter at 1. rewrite append_cons, append_nil_l, split_segment by done.
    rewrite delim_kDelimiter. unfold kDelimiter. rewrite (split_join_last kDelimiterChar _ w); [done|by apply fields_no_char|done|done].
  - rewrite !no_char_app. split_and!; [done|done|]. by apply no_nul_join, fields_no_nul.
Qed.

(** The arguments of a call: values, or objects by name and size, whose keys the function
    gets too when the flag is 2. *)
Inductive CallArgs :=
| Values (values : list string)
| Objects (with_keys : bool) (objects : list (string * string * Z)).

Definition flag_of (a : CallArgs) : Z :=
  match a with Values _ => 0 | Objects with_keys _ => if with_keys then 2 else 1 end.

Definition sent_args (a : CallArgs) : list string :=
  match a with Values l => l | Objects _ objects => key_args_of objects end.

Definition seen_args (a : CallArgs) : list ArgValue :=
  match a with
  | Values l => map Bytes l
  | Objects with_keys objects => objects ≫= λ '(bucket, session_key, size),
      let segment := Segment (bucket +:+ kDelimiter +:+ session_key) size in
      if with_keys then [Bytes session_key; segment] else [segment]
  end.

(** No field has a delimiter, the last is not empty, and a size is an [int]. *)
Definition args_ok (func : string) (a : CallArgs) : Prop :=
  match a with
  | Values l => Forall field l ∧ ∃ w, last (func :: l) = Some w ∧ w ≠ ""
  | Objects _ objects => func ≠ "" ∧
      Forall (λ '(bucket, session_key, size), field bucket ∧ field session_key ∧ 0 ≤ size < 2 ^ 31) objects
  end.

Lemma key_arguments_of flag objects :
  Forall (λ '(bucket, session_key, size), field bucket ∧ field session_key ∧ 0 ≤ size < 2 ^ 31) objects →
  key_arguments flag (objects ≫= λ '(bucket, session_key, size), [bucket; session_key; to_string size])
  = Ok (Some (objects ≫= λ '(bucket, session_key, size),
      let segment := Segment (bucket +:+ kDelimiter +:+ session_key) size in
      if decide (flag = 1) then [segment] else [Bytes session_key; segment])).
Proof.
  induction 1 as [|[[b sk] n] objects (Hb & Hsk & Hn) _ IH]; [done|]. rewrite !bind_cons.
  revert IH. generalize (objects ≫= λ '(bucket, session_key, size), [bucket; session_key; to_string size]).
  intros rest IH. cbn [app key_arguments]. rewrite stoi_to_string by lia. cbn -[list_bind]. by rewrite IH.
Qed.

Lemma concat_singletons {A} (l : list A) : concat (map (λ v, [v]) l) = l.
Proof. induction l as [|v l IH]; [done|]. cbn. by rewrite IH. Qed.

Lemma objects_groups objects : key_args_of objects =
  map arg_of (objects ≫= λ '(bucket, session_key, size), [[bucket; session_key]; [to_string size]]).
Proof. unfold key_args_of. induction objects as [|[[b sk] n] objects IH]; [done|]. by rewrite !bind_cons, IH, map_app. Qed.

Lemma field_to_string n : 0 ≤ n → field (to_string n).
Proof. intros Hn. split; [apply to_string_no_char; [done|reflexivity]|by apply no_nul_to_string]. Qed.

Lemma call_decoded persist cpu mem session func a :
  field session → field func → args_ok func a →
  ∃ c, parse_call (call_message (flag_of a) persist cpu mem session func (sent_args a)) = Ok c ∧
    cm_function c = func ∧ cm_session_id c = session ∧ cm_persist c = (if persist then 1 else 2) ∧
    cm_resources c = split (resource_meta cpu mem) ","%char ∧ arg_values c = Ok (Some (seen_args a)).
Proof.
  intros Hs Hf Ha. destruct a as [l|keys objects]; cbn [flag_of sent_args seen_args args_ok] in *.
  - destruct Ha as (Hl & w & Hlast & Hw).
    pose proof (parse_call_of 0 persist cpu mem session func (map (λ v, [v]) l) w) as Hcall.
    rewrite map_map, concat_singletons, map_id in Hcall.
    eexists. split; [apply Hcall; [lia|done|by constructor|by apply Forall_map, Forall_true|done|done]|]. done.
  - destruct Ha as [Hne Hobj]. set (groups := objects ≫= λ '(bucket, session_key, size), [[bucket; session_key]; [to_string size]]).
    assert (concat groups = objects ≫= λ '(bucket, session_key, size), [bucket; session_key; to_string size]) as Hgroups.
    { unfold groups. clear. induction objects as [|[[b sk] n] objects IH]; [done|]. by rewrite !bind_cons, concat_app, IH. }
    assert (Forall field (concat groups)) as Hfields.
    { rewrite Hgroups. clear - Hobj. induction Hobj as [|[[b sk] n] objects (? & ? & ?) _ IH]; [constructor|].
      rewrite bind_cons. cbn [app]. apply Forall_cons. split; [done|]. apply Forall_cons. split; [done|].
      apply Forall_cons. split; [apply field_to_string; lia|done]. }
    assert (∃ w, last (func :: concat groups) = Some w ∧ w ≠ "") as (w & Hlast & Hw).
    { rewrite Hgroups. clear - Hne Hobj. destruct objects as [|o objects _] using rev_ind; [by exists func|].
      destruct o as [[b sk] n]. rewrite bind_app, app_comm_cons, last_app. cbn. eexists. split; [done|]. apply Forall_app in Hobj as [_ Ho].
      apply Forall_cons in Ho as [(_ & _ & ?) _]. unfold to_string. rewrite decide_False by lia. apply to_string_nonempty. }
    rewrite objects_groups. fold groups.
    pose proof (parse_call_of (if keys then 2 else 1) persist cpu mem session func groups w) as Hcall. eexists.
    split; [apply Hcall; [by destruct keys|done|by constructor| |done|done]|].
    { unfold groups. clear. induction objects as [|[[b sk] n] objects IH]; [constructor|]. rewrite bind_cons. by repeat constructor. }
    split_and!; [done..|]. unfold arg_values. cbn [cm_arg_flag cm_args]. rewrite decide_False by (by destruct keys).
    rewrite Hgroups, decide_True.
    + rewrite (decide_True (P := _ ∨ _)) by (destruct keys; auto). rewrite key_arguments_of by done. do 2 f_equal. apply list_bind_ext; [|done]. intros [[b sk] n]. by destruct keys.
    + clear. induction objects as [|[[b sk] n] objects IH]; [done|]. rewrite bind_cons, length_app. cbn [length].
      rewrite Nat2Z.inj_add, Z.add_mod, IH by lia. done.
Qed.

(** With values. *)
Lemma call_decodes persist cpu mem session func args :
  field session → field func → Forall field args → (∃ w, last (func :: args) = Some w ∧ w ≠ "") →
  ∃ c, parse_call (call_message 0 persist cpu mem session func args) = Ok c ∧
    cm_function c = func ∧ cm_session_id c = session ∧ cm_persist c = (if persist then 1 else 2) ∧
    arg_values c = Ok (Some (map Bytes args)).
Proof.
  intros Hs Hf Ha Hlast. destruct (call_decoded persist cpu mem session func (Values args)) as (c & ? & ? & ? & ? & _ & ?); [done..|].
  by exists c.
Qed.

(** C36: a call arrives as it was sent: the executor decodes the message the scheduler
    builds to the same function, session, output flag, resources and arguments: the values
    themselves, or the segments of the objects with their sizes, with their keys when the
    flag says so.  The fields have no separator, the last value is not empty, and sizes are
    those of an [int] ([args_ok]). *)
Theorem call_roundtrip persist cpu mem session func a :
  field session → field func → args_ok func a →
  ∃ c, parse_call (call_message (flag_of a) persist cpu mem session func (sent_args a)) = Ok c ∧
    cm_function c = func ∧ cm_session_id c = session ∧ cm_persist c = (if persist then 1 else 2) ∧
    cm_resources c = split (resource_meta cpu mem) ","%char ∧ arg_values c = Ok (Some (seen_args a)).
Proof. apply call_decoded. Qed.

Lemma call_roundtrip_witness :
  ∃ c, parse_call (call_message 1 true (dlit 1 2) 256 "0123456789abcdef" "sum" ["b_sum|k0123456789abcdef"; "64"]) = Ok c ∧
    cm_function c = "sum" ∧ cm_session_id c = "0123456789abcdef" ∧ cm_persist c = 1 ∧
    cm_resources c = ["0.500000"; "256"] ∧ arg_values c = Ok (Some [Segment "b_sum|k0123456789abcdef" 64]).
Proof.
  apply (call_roundtrip true (dlit 1 2) 256 "0123456789abcdef" "sum" (Objects false [("b_sum", "k0123456789abcdef", 64)]));
    first [evaluate | split; [done|]; repeat constructor; evaluate].
Defined.

(** An object arrives as it was sent: the scheduler reads from the message of
    [send_object] the session, the functions, the bucket, the name and the value,
    as long as no field holds the delimiter or a terminator and the value is not
    empty. *)
Lemma parse_object_of chan type req_id packing session func target bucket session_key value :
  0 ≤ type < 256 → 0 ≤ req_id < 256 →
  Forall field [session; func; target; bucket; session_key; value] → value ≠ "" →
  let msg := object_message chan type req_id packing session func target
               (bucket +:+ kDelimiter +:+ session_key) value in
  char_of msg 1 = Ok type ∧ char_of msg 2 = Ok req_id ∧ char_of msg 3 = Ok (if packing then 1 else 2) ∧
  (parse_infos <$> c_string_from msg 4)
  = Ok (Some {| si_session_id := session; si_src_function := func; si_tgt_function := target;
                si_bucket := bucket; si_session_key := session_key; si_data := value |}).
Proof.
  intros Ht Hr Hf Hv msg. unfold msg, object_message. rewrite !byte_cons. autorewrite with bytes.
  rewrite (u8_small type), (u8_small req_id) by lia.
  split_and!; [done|done|by destruct packing|].
  assert (session +:+ "|" +:+ func +:+ "|" +:+ target +:+ "|" +:+ (bucket +:+ kDelimiter +:+ session_key) +:+ "|" +:+ value
    = join "|" [session; func; target; bucket; session_key; value]) as E.
  { cbn [join]. rewrite delim_kDelimiter. by rewrite !append_assoc. }
  rewrite E. unfold c_string_from. rewrite decide_False by lia. rewrite drop_string_0.
  rewrite c_str_no_nul by (by apply no_nul_join, fields_no_nul). cbn [fmap result_fmap].
  unfold parse_infos. rewrite delim_kDelimiter. unfold kDelimiter.
  rewrite (split_join_last kDelimiterChar _ value); [done|by apply fields_no_char|done|done].
Qed.

(** The fields before an empty value. *)
Lemma split_empty_value l :
  Forall (no_char kDelimiterChar) l → split (join kDelimiter (l ++ [""])) kDelimiterChar = l.
Proof.
  induction 1 as [|a l Ha Hl IH]; [done|]. cbn [app]. rewrite join_cons by (by destruct l).
  unfold kDelimiter at 1. rewrite append_cons, append_nil_l, split_segment by done. by rewrite IH.
Qed.

(** [stoi] of one byte. *)
Lemma stoi_byte c :
  stoi (c_str (String c EmptyString))
  = if decide (48 ≤ val_of c ≤ 57) then Ok (val_of c - 48) else Throw InvalidArgument.
Proof. destruct c as [[] [] [] [] [] [] [] []]; vm_compute; reflexivity. Qed.

Lemma parse_reply_value req_id value :
  0 ≤ req_id < 256 →
  parse_reply req_id (reply req_id value) = (n ← stoi (c_str value); Ok (Some n)).
Proof.
  intros Hr. unfold parse_reply, reply. rewrite !byte_cons. autorewrite with bytes.
  change (u8 3) with 3. change (u8 1) with 1. rewrite (u8_small req_id) by lia. cbn [mbind result_bind].
  rewrite decide_True by done. unfold c_string_from. rewrite decide_False by lia. by rewrite drop_string_0.
Qed.

Lemma wlp_any {S O A} (m : eff S O A) s (Q : S → list O → A → Prop) :
  (∀ s' o a, Q s' o a) → wlp m s Q.
Proof. intros HQ. unfold wlp. by destruct (m s) as [[[? ?] ?]|]. Qed.

Section objects.
Context `{UnorderedIter, Rand, LatticeMessages, PrimitiveMessages}.

(** An object with an empty value is lost: the scheduler finds five fields in its
    message instead of six and does nothing, whether the object is ephemeral,
    durable or the output for a client. *)
Theorem empty_object_lost (conf : SchedConf) now executor_id type chan req_id session func target bucket session_key
    (w : CommHelper.World (E := Local)) :
  Forall field [session; func; target; bucket; session_key] →
  LocalScheduler.send_object conf now executor_id type
    (object_message chan type req_id true session func target (bucket +:+ kDelimiter +:+ session_key) "") w
  = Ok (w, [], tt).
Proof.
  intros Hf. unfold LocalScheduler.send_object, object_message. rewrite !byte_cons.
  assert (session +:+ "|" +:+ func +:+ "|" +:+ target +:+ "|" +:+ (bucket +:+ kDelimiter +:+ session_key) +:+ "|" +:+ ""
    = join "|" ([session; func; target; bucket; session_key] ++ [""])) as ->.
  { cbn [join app]. rewrite delim_kDelimiter. by rewrite !append_assoc. }
  unfold mbind, eff_bind, lift. autorewrite with bytes. cbn -[parse_infos join].
  unfold c_string_from. rewrite decide_False by lia. rewrite drop_string_0.
  rewrite c_str_no_nul.
  2:{ apply no_nul_join. apply (proj2 (Forall_app (no_char nul) [session; func; target; bucket; session_key] [""])). split; [by apply fields_no_nul|by repeat constructor]. }
  pose proof (split_empty_value [session; func; target; bucket; session_key] (fields_no_char _ Hf)) as E.
  unfold parse_infos. rewrite delim_kDelimiter. cbn [app] in E. rewrite E. done.
Qed.

(** The size of a local or durable object survives the reply: what the executor
    reads from the answer to [get_object] is the size the scheduler wrote.  For an
    object that came from another node ([handle_data_resp]) it never is: the size is
    sent as one character, and the executor throws or reads a digit. *)
Theorem get_object_reply_read (conf : SchedConf) (now : Z) (m : RecvMsg) (r : InflightIORequest) chan
    (w : CommHelper.World (E := Local)) :
  0 ≤ data_size_ m < 2 ^ 31 → 0 ≤ req_id_ r < 256 →
  executor_chans_map (execs (w_env w)) !! executor_id_ r = Some chan →
  key_remote_get_map (waiting (w_env w)) !! data_key_ m = Some [r] →
  parse_reply (req_id_ r) (reply (req_id_ r) (to_string (data_size_ m))) = Ok (Some (data_size_ m)) ∧
  wlp (handle_data_resp conf now m) w (λ _ sent _,
    ∃ msg rest, sent = {| send_to := chan; send_msg := MBytes msg |} :: rest ∧
      parse_reply (req_id_ r) msg ≠ Ok (Some (data_size_ m))).
Proof.
  intros Hsize Hr Hchan Hget. split.
  - rewrite parse_reply_value, c_str_no_nul by (done || apply no_nul_to_string; lia).
    by rewrite stoi_to_string.
  - unfold handle_data_resp, record_size, upd_store, put_local. do 3 eff_step. apply wp_wlp.
    match goal with |- wp _ ?st _ => set (w1 := st) end.
    eff_call answer_gets_spec; [cbn; rewrite Hget; repeat constructor; by eexists|].
    intros w2 o2 _ [-> ->]. cbn. rewrite Hget. cbn. rewrite Hchan. apply wlp_any. intros s o a.
    eexists _, o. split; [done|]. rewrite parse_reply_value by done.
    unfold byte_string. rewrite stoi_byte, val_byte_of. case_decide as Hd; [|done]. cbn. intros [= Hn].
    unfold u8 in *. pose proof (Z.mod_le (data_size_ m) (2 ^ 8) ltac:(lia) ltac:(lia)). lia.
Qed.

End objects.

#[local] Existing Instances sorted_iter lcg_rand bits_lattice_messages bits_primitive_messages.

Lemma empty_object_lost_witness :
  LocalScheduler.send_object example_conf 9 1 2
    (object_message 1 2 7 true "0123456789abcdef" "f" "" ("b_g" +:+ kDelimiter +:+ "k0123456789abcdef") "") waiting_node
  = Ok (waiting_node, [], tt).
Proof. apply (empty_object_lost example_conf 9 1 2 1 7 "0123456789abcdef" "f" "" "b_g" "k0123456789abcdef"). evaluate. Defined.

Lemma get_object_reply_read_witness :
  let m := data_message_of "b|k" 1024 in
  parse_reply 3 (reply 3 (to_string 1024)) = Ok (Some 1024) ∧
  wlp (handle_data_resp example_conf 9 m) waiting_node (λ _ sent _,
    ∃ msg rest, sent = {| send_to := "ipc-1"; send_msg := MBytes msg |} :: rest ∧
      parse_reply 3 msg ≠ Ok (Some 1024)).
Proof.
  intros m. apply (get_object_reply_read example_conf 9 m {| executor_id_ := 1; req_id_ := 3; recv_time_ := 0 |} "ipc-1" waiting_node);
    first [cbn; lia | reflexivity].
Defined.
