(* ===== verification/NodeFlow.v ===== *)
(** * From an object to the functions it starts

    The way of a small object through a node: a function hands it over with
    [send_object] ([function_lib.hpp]); the local scheduler records it, offers it to the
    triggers of its bucket, schedules the calls they ask for and announces it to the
    coordinator ([scheduler_server.cpp], [object_handlers.cpp]); an executor decodes the
    call ([executor_server.cpp]).  The components are composed through the messages they
    exchange. *)

From S2P Require Import Prelude CppString CppDouble Messages Common Triggers Threads Effects CommHelper LocalScheduler LocalSpecs LocalWaiting Executor NodeFormats.

(** ** Definitions *)

Abbreviation node := (World (E := Local)).

(** The triggers offered an object, in order, with what they ask for. *)
Definition TriggerLog : Type := list (Trigger * list TriggerAction).

Section firing.
Context `{UnorderedIter, PrimitiveMessages}.

Definition fire_step (now : Z) (bk : BucketKey) (st : list Trigger * TriggerLog) (p : TriggerPointer)
    : list Trigger * TriggerLog :=
  match st.1 !! p with
  | Some t => (alter (λ _, (trigger_action now t bk).1) p st.1, st.2 ++ [(t, (trigger_action now t bk).2)])
  | None => st
  end.

Definition fire (now : Z) (bk : BucketKey) (heap : list Trigger) (ptrs : list TriggerPointer)
    : list Trigger * TriggerLog := foldl (fire_step now bk) (heap, []) ptrs.

End firing.

(** The names of the triggers that fired. *)
Definition active (log : TriggerLog) : list string :=
  log ≫= λ x, match x.2 with [] => [] | _ => [trigger_name_ x.1] end.

(** The calls of the actions: the values of the objects when the node has all of them,
    else their names and sizes. *)
Section calls.
Context (vals : gmap string string) (lens : gmap string Z) (bucket : string).

Definition named_args (session_keys : list (string * string)) : list string :=
  session_keys ≫= λ sk, let name := get_local_object_name bucket sk.2 sk.1 in
    [name; to_string (at_default 0 name lens)].

Definition call_of (acc : Z * list TriggerFunctionMetadata) (a : TriggerAction) : Z * list TriggerFunctionMetadata :=
  match cached_values vals bucket (session_keys_ a) with
  | Some args => (0, acc.2 ++ [{| func_name_ := Triggers.function_ a; func_args_ := args; arg_flag_ := 0 |}])
  | None => (acc.1, acc.2 ++ [{| func_name_ := Triggers.function_ a; func_args_ := named_args (session_keys_ a); arg_flag_ := acc.1 |}])
  end.

Definition calls_of_trigger (calls : list TriggerFunctionMetadata) (x : Trigger * list TriggerAction)
    : list TriggerFunctionMetadata := (foldl call_of (trigger_option_ x.1 + 1, calls) x.2).2.

Definition calls_of (log : TriggerLog) : list TriggerFunctionMetadata := foldl calls_of_trigger [] log.

End calls.

(** The calls are scheduled one after the other, each with an outcome of
    [schedule_func_call]. *)
Inductive runs (conf : SchedConf) (now : Z) (session app : string)
    : list TriggerFunctionMetadata → node → node → list Send → Prop :=
| runs_nil w : runs conf now session app [] w w []
| runs_cons m ms w w1 w2 w3 sent sent' :
    w_env w1 = w_env w → w_helper w1 = w_helper w →
    outcome conf now session app (func_name_ m) (func_args_ m) (arg_flag_ m) (S754_zero false) 0 w1 w2 sent →
    runs conf now session app ms w2 w3 sent' →
    runs conf now session app (m :: ms) w w3 (sent ++ sent').

(** What the coordinator of the bucket is told. *)
Definition announcement (bk : BucketKey) (log : TriggerLog) (client value : string) (h : CommHelper) (sent : list Send)
    : Prop :=
  match bucket_coord_map_ h !! bucket_ bk with
  | None => sent = []
  | Some coord => ∃ tid req_id,
      sent = [{| send_to := HandlerThread.notify_handler_connect_address coord;
                 send_msg := MKeyNotifyRequest {|
                   knr_response_address := client;
                   knr_addresses := [{| bka_bucket := bucket_ bk; bka_key := key_ bk; bka_session := session_ bk;
                     bka_ips := [CommHelperThread.data_access_server_connect_address {| thread_ip := ip_ h; thread_tid := tid |}];
                     bka_payload := value |}];
                   knr_active_trigger_names := active log; knr_request_id := req_id |} |}]
  end.

(** What scheduling leaves alone. *)
Definition helper_frame (h0 h : CommHelper) : Prop :=
  io_thread_count_ h = io_thread_count_ h0 ∧ bucket_coord_map_ h = bucket_coord_map_ h0 ∧ ip_ h = ip_ h0.

Definition frame (w0 w : node) : Prop :=
  helper_frame (w_helper w0) (w_helper w) ∧
  key_val_map (store (w_env w)) = key_val_map (store (w_env w0)) ∧
  (∀ s, client_of s w = client_of s w0) ∧
  (∀ b, at_default "" b (bucket_app_map (w_registry w)) = at_default "" b (bucket_app_map (w_registry w0))).

(** ** Lemmas *)

Section flow.
Context `{UnorderedIter, Rand, LatticeMessages, PrimitiveMessages} (conf : SchedConf).

Lemma keeps_on_helper {A} (m : comm A) w0 : keeps (helper_frame (w_helper w0)) m → keeps (frame w0) (on_helper m).
Proof.
  intros Hm w (Hh & Hv & Hc & Hb). unfold on_helper. apply wlp_zoom. eapply wlp_mono; [by apply Hm|].
  intros h o a Hh'. by split_and!.
Qed.

Lemma keeps_put_local (f : Local → Local) w0 :
  (∀ l, key_val_map (store (f l)) = key_val_map (store l) ∧
        ∀ s, at_default "" s (session_client_addr_map (store (f l))) = at_default "" s (session_client_addr_map (store l))) →
  keeps (frame w0) (put_local f).
Proof.
  intros Hf. apply keeps_modify. intros w (Hh & Hv & Hc & Hb). destruct (Hf (w_env w)) as [Hv' Hc'].
  split_and!; [done|by rewrite <- Hv|intros s; etransitivity; [apply Hc'|apply Hc]|done].
Qed.

Lemma keeps_key_args flag args h0 : keeps (helper_frame h0) (key_args flag args).
Proof.
  assert (∀ n args, (length args < n)%nat → keeps (helper_frame h0) (key_args flag args)) as Hn; [|apply (Hn (S (length args))); lia].
  clear. induction n as [|n IH]; intros args Hlen; [lia|].
  destruct args as [|a [|b rest]]; cbn [key_args]; [auto with eff..|].
  apply keeps_bind.
  - unfold get_data_server_addr, get_io_thread_id. repeat (apply keeps_bind; [|intros]); auto with eff.
    case_decide; [auto with eff|]. apply keeps_bind; [|auto with eff]. by apply keeps_modify.
  - intros address. apply keeps_bind; [|auto with eff]. destruct rest as [|c rest]; [auto with eff|].
    apply IH. cbn in *. lia.
Qed.

Lemma keeps_forward_func_call addr app names argss flag session h0 :
  keeps (helper_frame h0) (forward_func_call addr app names argss flag session).
Proof.
  unfold forward_func_call. apply keeps_bind; [auto with eff|]. intros ip. case_decide; [auto with eff|].
  apply keeps_bind.
  - apply keeps_mapM. intros x. unfold forward_request. apply keeps_bind; [|auto with eff].
    case_decide; [apply keeps_key_args|auto with eff].
  - intros reqs h (Hc & Hb & Hi). by repeat eff_step.
Qed.

Lemma frame_trans w0 w1 w2 : frame w0 w1 → frame w1 w2 → frame w0 w2.
Proof.
  intros ((Hc1 & Hb1 & Hi1) & Hv1 & Hs1 & Ha1) ((Hc2 & Hb2 & Hi2) & Hv2 & Hs2 & Ha2).
  split_and!; [unfold helper_frame; split_and!; congruence|congruence|intros s; by rewrite Hs2|intros b; by rewrite Ha2].
Qed.

Lemma frame_refl w : frame w w. Proof. by split_and!. Qed.

Lemma client_addr_frame session w : wlp (client_addr session) w (λ w' _ _, frame w w').
Proof.
  unfold wlp. rewrite client_addr_spec. split_and!; [done|done| |done].
  intros s. unfold client_of. cbn. by rewrite at_default_touch.
Qed.

Lemma pick_executor_frame func_name w : wlp (pick_executor conf func_name) w (λ w' _ _, frame w w').
Proof.
  apply wp_wlp. eff_call pick_executor_spec. intros w' o r (_ & (fe & seed & -> & _) & _). by split_and!.
Qed.

Lemma notify_reruns_frame now func_name session func_args flag metas w :
  wlp (for_each (notify_rerun now func_name session func_args flag) metas) w (λ w' _ _, frame w w').
Proof.
  apply (wlp_for_each (λ _ w' _, frame w w')); [apply frame_refl|].
  intros pre meta w1 o1 _ Hw. unfold notify_rerun, upd_timers, put_local, set_registry. repeat eff_step.
  by eapply frame_trans.
Qed.

Lemma frame_mono {A} (m : sched A) w w0 : frame w0 w → wlp m w (λ w' _ _, frame w w') → wlp m w (λ w' _ _, frame w0 w').
Proof. intros Hw Hm. eapply wlp_mono; [exact Hm|]. intros; by eapply frame_trans. Qed.

Lemma keeps_frame {A} (m : sched A) w0 : (∀ w, wlp m w (λ w' _ _, frame w w')) → keeps (frame w0) m.
Proof. intros Hm w Hw. by apply frame_mono. Qed.

Lemma keeps_upd_store_lens lens w0 : keeps (frame w0) (upd_store (LocalScheduler.set_lens lens)).
Proof. by apply keeps_put_local. Qed.

Lemma keeps_packed_args flag args w0 : keeps (frame w0) (packed_args flag args).
Proof.
  unfold packed_args. apply keeps_bind; [auto with eff|]. intros l. apply keeps_for_fold. intros b [[x y] z].
  unfold key_len, get_local. repeat (apply keeps_bind; [auto using keeps_upd_store_lens with eff|intros]). auto with eff.
Qed.

Lemma forward_frame session app names argss flag w0 : keeps (frame w0) (forward_call_via_helper session app names argss flag).
Proof.
  assert (∀ addr app names argss flag session, keeps (frame w0) (on_helper (forward_func_call addr app names argss flag session))) as Hf
    by (intros; apply keeps_on_helper, keeps_forward_func_call).
  assert (∀ s, keeps (frame w0) (client_addr s)) as Hc by (intros; apply keeps_frame; apply client_addr_frame).
  unfold forward_call_via_helper. case_decide; [|auto with eff]. apply keeps_bind; [auto with eff|]. intros total.
  case_decide; [|auto with eff]. apply keeps_bind; [apply keeps_mapM; intros; apply keeps_packed_args|].
  intros argss'. apply keeps_bind; auto with eff.
Qed.

Lemma schedule_frame now session app func args flag cpu mem w :
  wlp (schedule_func_call conf now session app func args flag cpu mem) w (λ w' _ _, frame w w').
Proof.
  unfold schedule_func_call. eff_step. eapply wlp_mono; [apply pick_executor_frame|]. cbn beta.
  intros w1 o1 [x|] Hw1.
  - eff_step. eapply wlp_mono; [apply client_addr_frame|]. cbn beta. intros w2 o2 client Hw2.
    unfold send_to_executer, get_local, upd_execs, put_local, set_registry. eff_step. do 2 eff_step.
    destruct (executor_chans_map _ !! x); [|apply wlp_throw]. repeat eff_step.
    eapply wlp_mono; [apply notify_reruns_frame|]. cbn beta. intros w3 o3 _ Hw3.
    eapply frame_trans; [exact Hw1|]. eapply frame_trans; [exact Hw2|exact Hw3].
  - apply frame_mono; [done|]. case_decide; [unfold upd_timers, put_local; eff_step; by split_and!|].
    destruct (rejectExtraReq conf); [eff_step; apply frame_refl|]. eff_step.
    apply (wlp_mono _ _ (λ w' _ _, w' = w1)).
    { case_decide; [|by eff_step]. eff_step. apply wlp_lift. intros first _. by destruct (has_delimiter first); eff_step. }
    intros w2 o2 argss ->. apply forward_frame, frame_refl.
Qed.

(** *** Triggers and their calls *)

(** What the check of the triggers changes: the triggers, and zeros for sizes that were
    asked for. *)
Definition checked (w : node) (reg : Registry) (lens : gmap string Z) : node := {|
  w_helper := w_helper w; w_registry := reg;
  w_env := set_store (w_env w) (LocalScheduler.set_lens lens (store (w_env w))) |}.

Definition same_lens (lens lens' : gmap string Z) : Prop := ∀ k, at_default 0 k lens' = at_default 0 k lens.

Lemma checked_id w : checked w (w_registry w) (key_len_map (store (w_env w))) = w.
Proof. by destruct w as [? ? [[] ? ? ? ?]]. Qed.

Lemma name_args_spec bucket session_keys w reg lens :
  same_lens (key_len_map (store (w_env w))) lens →
  wp (name_args bucket session_keys) (checked w reg lens) (λ w' sent args, sent = [] ∧
    args = named_args (key_len_map (store (w_env w))) bucket session_keys ∧
    ∃ lens', same_lens (key_len_map (store (w_env w))) lens' ∧ w' = checked w reg lens').
Proof.
  intros Hl. apply (wp_for_fold (λ pre w' sent args, sent = [] ∧
    args = named_args (key_len_map (store (w_env w))) bucket pre ∧
    ∃ lens', same_lens (key_len_map (store (w_env w))) lens' ∧ w' = checked w reg lens')); [eauto|].
  intros pre sk w1 o1 args _ (-> & -> & lens' & Hl' & ->). unfold key_len, get_local, upd_store, put_local.
  repeat eff_step. split_and!; [done| |].
  - unfold named_args. rewrite bind_app. cbn. by rewrite Hl'.
  - exists (touch 0 (get_local_object_name bucket sk.2 sk.1) lens'). split; [|done].
    intros k. by rewrite at_default_touch.
Qed.

Lemma action_metadata_spec bucket acc a w reg lens :
  same_lens (key_len_map (store (w_env w))) lens →
  wp (action_metadata bucket acc a) (checked w reg lens) (λ w' sent acc', sent = [] ∧
    acc' = call_of (key_val_map (store (w_env w))) (key_len_map (store (w_env w))) bucket acc a ∧
    ∃ lens', same_lens (key_len_map (store (w_env w))) lens' ∧ w' = checked w reg lens').
Proof.
  intros Hl. unfold action_metadata, get_local, call_of. do 2 eff_step. cbn [checked w_env store set_store LocalScheduler.set_lens key_val_map].
  destruct (cached_values _ _ _) as [args|] eqn:E; [eff_step; eauto|]. eff_step.
  eff_call name_args_spec; [done|]. intros w' o args (-> & -> & lens' & ? & ->). eff_step. eauto.
Qed.

Lemma check_one_trigger_spec now bk acc p w reg lens t :
  same_lens (key_len_map (store (w_env w))) lens → trigger_heap reg !! p = Some t →
  wp (check_one_trigger now bk acc p) (checked w reg lens) (λ w' sent acc', sent = [] ∧
    let x := (t, (trigger_action now t bk).2) in
    acc' = (acc.1 ++ active [x], calls_of_trigger (key_val_map (store (w_env w))) (key_len_map (store (w_env w))) (bucket_ bk) acc.2 x) ∧
    ∃ lens', same_lens (key_len_map (store (w_env w))) lens' ∧
      w' = checked w (update_trigger reg (λ _, (trigger_action now t bk).1) p) lens').
Proof.
  intros Hl Ht. unfold check_one_trigger, set_registry. do 3 eff_step.
  eapply wp_lift; [by apply vec_at_Ok|]. destruct (trigger_action now t bk) as [t' actions] eqn:E.
  do 2 eff_step. destruct actions as [|a actions]; [eff_step|].
  - split_and!; [done|by destruct acc; cbn; rewrite app_nil_r|]. by exists lens.
  - eff_step.
    match goal with |- wp _ ?st _ => change st with (checked w (update_trigger reg (λ _, t') p) lens) end.
    eapply wp_mono.
    + apply (wp_for_fold (λ pre w' sent acc', sent = [] ∧
        acc' = foldl (call_of (key_val_map (store (w_env w))) (key_len_map (store (w_env w))) (bucket_ bk)) (trigger_option_ t + 1, acc.2) pre ∧
        ∃ lens', same_lens (key_len_map (store (w_env w))) lens' ∧
          w' = checked w (update_trigger reg (λ _, t') p) lens')); [split_and!; eauto|].
      intros pre b w1 o1 acc1 _ (-> & -> & lens' & Hl' & ->). eff_call action_metadata_spec; [done|].
      intros w2 o2 acc2 (-> & -> & Hex). split_and!; [done|by rewrite foldl_app|done].
    + cbn beta. intros w2 o2 acc2 (-> & -> & Hex). eff_step. split_and!; [done|done|done].
Qed.

Lemma check_object_arrival_spec now bk w :
  let ptrs := at_default [] (bucket_ bk) (bucket_triggers_map (w_registry w)) in
  let st := fire now bk (trigger_heap (w_registry w)) ptrs in
  Forall (λ p, (p < length (trigger_heap (w_registry w)))%nat) ptrs →
  wp (check_object_arrival now bk) w (λ w' sent r, sent = [] ∧
    r = (active st.2, calls_of (key_val_map (store (w_env w))) (key_len_map (store (w_env w))) (bucket_ bk) st.2) ∧
    ∃ reg lens, same_lens (key_len_map (store (w_env w))) lens ∧ w' = checked w reg lens ∧
      trigger_heap reg = st.1 ∧ bucket_app_map reg = bucket_app_map (w_registry w) ∧
      func_trigger_timeout_map reg = func_trigger_timeout_map (w_registry w)).
Proof.
  intros ptrs st Hp. unfold check_object_arrival, set_registry. do 4 eff_step. fold ptrs.
  set (heap := trigger_heap (w_registry w)) in *. set (vals := key_val_map _). set (lens0 := key_len_map _).
  eapply wp_mono.
  - apply (wp_for_fold (λ pre w' sent r, let st := fire now bk heap pre in sent = [] ∧
      r = (active st.2, calls_of vals lens0 (bucket_ bk) st.2) ∧ length st.1 = length heap ∧
      ∃ reg lens, same_lens lens0 lens ∧ w' = checked w reg lens ∧
        trigger_heap reg = st.1 ∧ bucket_app_map reg = bucket_app_map (w_registry w) ∧
        func_trigger_timeout_map reg = func_trigger_timeout_map (w_registry w))).
    + split_and!; [done|done|done|]. eexists _, lens0. split_and!; [done|unfold checked; by destruct w as [? ? [[] ? ? ? ?]]|done..].
    + intros pre p w1 o1 r [post Hpre] (-> & -> & Hlen & reg & lens & Hl & -> & Hheap & Hb & Hf).
      rewrite Hpre, Forall_app, Forall_cons in Hp. destruct Hp as (_ & Hp & _).
      destruct (lookup_lt_is_Some_2 (fire now bk heap pre).1 p ltac:(lia)) as [t Ht].
      eff_call check_one_trigger_spec; [done|by rewrite Hheap|]. intros w2 o2 acc2 (-> & -> & lens2 & Hl2 & ->).
      unfold fire. rewrite foldl_app. fold (fire now bk heap pre). cbn [foldl]. unfold fire_step. rewrite Ht.
      cbn [fst snd]. split_and!; [done| |by rewrite length_alter|].
      * unfold active, calls_of. rewrite bind_app, foldl_app. done.
      * eexists _, lens2. split_and!; [done|done|cbn; by rewrite Hheap|done..].
  - cbn beta. intros w' o r (-> & -> & _ & Hex). done.
Qed.

(** *** The calls are scheduled *)

(** Calls whose arguments are values, or a node that keeps the calls that find no
    executor, or that has an idle executor for each. *)
Definition schedulable (ms : list TriggerFunctionMetadata) (w : node) : Prop :=
  Forall (λ m, arg_flag_ m ≤ 0) ms ∨ keeps_calls conf ∨ (length ms ≤ idle_count conf (execs (w_env w)))%nat.

Lemma run_calls_spec now session bucket app ms w :
  executors_ok (execs (w_env w)) → at_default "" bucket (bucket_app_map (w_registry w)) = app →
  schedulable ms w →
  wp (for_each (λ m,
      app ← app_of_bucket bucket;
      schedule_func_call conf now session app (func_name_ m) (func_args_ m) (arg_flag_ m) (S754_zero false) 0) ms) w
    (λ w' sent _, runs conf now session app ms w w' sent ∧ frame w w' ∧ executors_ok (execs (w_env w'))).
Proof.
  revert w. induction ms as [|m ms IH]; intros w Hok Happ Hflag; cbn [for_each].
  - eff_step. split_and!; [constructor|apply frame_refl|done].
  - eff_step. unfold app_of_bucket, set_registry. repeat eff_step. rewrite Happ.
    match goal with |- wp _ ?st _ => set (w1 := st) end.
    assert (frame w w1) as Hf1 by (split_and!; try done; intros b; unfold w1; cbn; by rewrite at_default_touch).
    assert (forwardable (func_args_ m) (arg_flag_ m) w1 ∨ keeps_calls conf ∨
      (∃ x, eligible conf (execs (w_env w1)) (func_name_ m) x)) as Hcase.
    { destruct Hflag as [Hflag|[?|Hn]]; [left; left; by apply Forall_cons in Hflag as [? _]|by right; left|].
      right. right. apply idle_eligible. cbn in Hn |- *. lia. }
    eapply wp_mono.
    + apply wp_and; [by apply schedule_func_call_spec|apply schedule_frame].
    + cbn beta. intros w2 o2 _ [Hout Hf2]. pose proof (outcome_executors_ok _ _ _ _ _ _ _ _ _ _ _ _ Hout Hok) as Hok2.
      eapply wp_mono.
      * apply (IH w2); [done| |].
        2: { destruct Hflag as [Hflag|[?|Hn]]; [left; by apply Forall_cons in Hflag as [_ ?]|by right; left|].
          right. right. pose proof (outcome_idle _ _ _ _ _ _ _ _ _ _ _ _ Hout). cbn in *. lia. }
        destruct Hf2 as (_ & _ & _ & Ha2). rewrite Ha2. cbn. by rewrite at_default_touch.
      * cbn beta. intros w3 o3 _ (Hruns & Hf3 & Hok3). split_and!; [by apply (runs_cons conf now session app m ms w w1 w2)| |done].
        eapply frame_trans; [exact Hf1|]. by eapply frame_trans.
Qed.

Lemma connect_at_nonempty port t : connect_at port t ≠ "".
Proof. done. Qed.

Lemma notify_put_spec bk log client value h :
  0 < io_thread_count_ h →
  wp (notify_put bk (active log) client value) h (λ h' sent _, announcement bk log client value h sent).
Proof.
  intros Hc. unfold notify_put, notify_put_base, get_notifying_thread, announcement. do 3 eff_step.
  destruct (bucket_coord_map_ h !! bucket_ bk) as [coord|]; eff_step.
  - destruct (decide (HandlerThread.notify_handler_connect_address coord = "")) as [Hne|_];
      [by apply connect_at_nonempty in Hne|]. unfold CommHelper.get_request_id. do 6 eff_step.
    unfold get_data_server_addr. do 2 eff_step. unfold wp at 1. rewrite get_io_thread_id_value by (cbn; lia).
    repeat eff_step. rewrite service_address. eexists _, _.
    unfold CommHelperThread.data_access_server_connect_address. cbn -[connect_at]. by destruct (decide (value = "")) as [->|].
  - by destruct (decide ("" = "")); [eff_step|].
Qed.

(** ** Recording an object and checking its triggers *)

(** The store after a small object has been recorded. *)
Definition recorded (obj value : string) (w : node) : node :=
  on_env (λ l, set_store l
    (LocalScheduler.set_lens (<[obj := u32 (size_of value)]> (key_len_map (store l)))
      (set_vals (<[obj := value]> (key_val_map (store l))) (store l)))) w.

Lemma check_trigger_spec now bk session w :
  let heap := trigger_heap (w_registry w) in
  let ptrs := at_default [] (bucket_ bk) (bucket_triggers_map (w_registry w)) in
  let st := fire now bk heap ptrs in
  let calls := calls_of (key_val_map (store (w_env w))) (key_len_map (store (w_env w))) (bucket_ bk) st.2 in
  Forall (λ p, (p < length heap)%nat) ptrs →
  executors_ok (execs (w_env w)) →
  schedulable calls w →
  wp (check_trigger conf now bk session) w (λ w' sent r, r = active st.2 ∧ frame w w' ∧
    ∃ w1, trigger_heap (w_registry w1) = st.1 ∧ same_schedule w w1 ∧
      runs conf now session (at_default "" (bucket_ bk) (bucket_app_map (w_registry w))) calls w1 w' sent).
Proof.
  intros heap ptrs st calls Hp Hok Hflag. unfold check_trigger. eff_step.
  eff_call check_object_arrival_spec; [done|].
  intros w1 o1 r (-> & -> & reg & lens & Hl & -> & Hheap & Hb & Hf). eff_step.
  eapply wp_mono; [apply (run_calls_spec _ _ _ (at_default "" (bucket_ bk) (bucket_app_map (w_registry w))))|].
  - done.
  - cbn. by rewrite Hb.
  - done.
  - cbn beta. intros w2 o2 _ (Hruns & Hfr & _). eff_step. rewrite app_nil_r. split_and!; [done| |].
    + eapply frame_trans; [|exact Hfr]. split_and!; try done. intros b. cbn. by rewrite Hb.
    + eexists. split; [|split; [|exact Hruns]]; done.
Qed.

(** ** Properties *)

(** An object that a function names and fills properly. *)
Definition object_ok (bk : BucketKey) (func target value : string) : Prop :=
  size_of (session_ bk) = 16 ∧ key_ bk ≠ "" ∧ value ≠ "" ∧ bucket_ bk ≠ bucketNameDirectInvoc ∧
  size_of (key_ bk +:+ session_ bk) < npos ∧
  Forall field [session_ bk; func; target; bucket_ bk; key_ bk +:+ session_ bk; value].

(** A node that is set up: the triggers of the bucket exist, executors have channels,
    there is an I/O thread, and the function has no direct successors. *)
Definition node_ok (bucket func : string) (w : node) : Prop :=
  let reg := w_registry w in
  Forall (λ p, (p < length (trigger_heap reg))%nat) (at_default [] bucket (bucket_triggers_map reg)) ∧
  executors_ok (execs (w_env w)) ∧ 0 < io_thread_count_ (w_helper w) ∧
  direct_deps_ (at_default empty_AppInfo (at_default "" func (func_app_map reg)) (app_info_map reg)) !! func = None.

(** What an object that is recorded fires at a node, and the calls. *)
Definition fired (now : Z) (bk : BucketKey) (w : node) : list Trigger * TriggerLog :=
  fire now bk (trigger_heap (w_registry w)) (at_default [] (bucket_ bk) (bucket_triggers_map (w_registry w))).

Definition object_calls (now : Z) (bk : BucketKey) (value : string) (w : node) : list TriggerFunctionMetadata :=
  let s := store (w_env (recorded (shm_key_name bk) value w)) in
  calls_of (key_val_map s) (key_len_map s) (bucket_ bk) (fired now bk w).2.

Lemma send_ephemeral_spec now bk func target value w :
  let i := {| si_session_id := session_ bk; si_src_function := func; si_tgt_function := target;
              si_bucket := bucket_ bk; si_session_key := key_ bk +:+ session_ bk; si_data := value |} in
  object_ok bk func target value → node_ok (bucket_ bk) func w →
  schedulable (object_calls now bk value w) w →
  wp (send_ephemeral conf now 1 i) w (λ w' sent _, ∃ w1 w2 calls ann,
    sent = calls ++ ann ∧ key_val_map (store (w_env w')) !! shm_key_name bk = Some value ∧
    trigger_heap (w_registry w1) = (fired now bk w).1 ∧ same_schedule w w1 ∧
    runs conf now (session_ bk) (at_default "" (bucket_ bk) (bucket_app_map (w_registry w)))
      (object_calls now bk value w) w1 w2 calls ∧ same_schedule w2 w' ∧
    announcement bk (fired now bk w).2 (client_of (session_ bk) w) value (w_helper w) ann).
Proof.
  intros i (Hs & Hk & Hv & Hb & Hlen & _) (Hp & Hok & Hio & Hdeps) Hflag.
  unfold send_ephemeral, record_ephemeral, upd_store, put_local, app_of_func, direct_deps_of, set_registry.
  rewrite (decide_True (P := 1 = 1)) by done. repeat eff_step. cbn [si_src_function i w_registry func_app_map app_info_map set_app_maps].
  match goal with |- context [direct_deps_ ?d] =>
    replace (direct_deps_ d !! func) with (None : option (gset string)) by (symmetry; exact Hdeps) end.
  cbn [si_bucket si_session_key si_session_id si_data i]. rewrite (decide_False (P := bucket_ bk = _)) by done. eff_step.
  eapply wp_lift; [by apply BucketKey_of_session_key_app|]. eff_step.
  match goal with |- wp _ ?st _ => set (w0 := st) end.
  assert (bk = {| bucket_ := bucket_ bk; key_ := key_ bk; session_ := session_ bk |}) as Ebk by (by destruct bk).
  rewrite <- Ebk.
  eapply wp_mono; [apply check_trigger_spec; [exact Hp|exact Hok|exact Hflag]|].
  cbn beta. intros w2 o2 r (-> & Hf & w1 & Hheap & Hsame & Hruns).
  rewrite (decide_True (P := 1 = 1)) by done. repeat eff_step. unfold wp at 1. rewrite client_addr_spec. cbn beta iota.
  unfold on_helper. apply wp_zoom. eapply wp_mono; [apply notify_put_spec|]; cbn beta.
  - destruct Hf as ((Hc & _) & _). cbn. rewrite Hc. exact Hio.
  - intros h o3 _ Hann. unfold upd_waiting, put_local. repeat eff_step.
    exists w1, w2, o2, o3. cbn [app]. rewrite !app_nil_r. split_and!; try done.
    + destruct Hf as (_ & Hvals & _). cbn. rewrite Hvals. cbn.
      unfold shm_key_name, get_local_object_name, get_key_session_name, si_obj_name. cbn. by rewrite lookup_insert_eq.
    + destruct Hf as ((_ & Hcm & Hip) & _ & Hcl & _). unfold announcement in *. cbn in Hann. rewrite Hcm, Hip in Hann.
      specialize (Hcl (session_ bk)). change (client_of (session_ bk) w0) with (client_of (session_ bk) w) in Hcl.
      rewrite <- Hcl. exact Hann.
Qed.

(** The message of a small ephemeral object reaches [send_ephemeral] as it was sent. *)
Lemma executor_message_object now chan req_id bk func target value w :
  0 ≤ req_id < 256 → value ≠ "" → Forall field [session_ bk; func; target; bucket_ bk; key_ bk +:+ session_ bk; value] →
  executor_message conf now
    (object_message chan 2 req_id true (session_ bk) func target (shm_key_name bk) value) w
  = send_ephemeral conf now 1
      {| si_session_id := session_ bk; si_src_function := func; si_tgt_function := target;
         si_bucket := bucket_ bk; si_session_key := key_ bk +:+ session_ bk; si_data := value |} w.
Proof.
  intros Hreq Hv Hf.
  destruct (parse_object_of chan 2 req_id true (session_ bk) func target (bucket_ bk) (key_ bk +:+ session_ bk) value)
    as (Hc1 & Hc2 & Hc3 & Hc4); [lia|done|done|done|].
  change (bucket_ bk +:+ kDelimiter +:+ key_ bk +:+ session_ bk) with (shm_key_name bk) in *.
  set (msg := object_message _ _ _ _ _ _ _ _ _) in *.
  assert (char_of msg 0 = Ok (u8 chan)) as Hc0.
  { unfold msg, object_message. rewrite !byte_cons. by autorewrite with bytes. }
  destruct (c_string_from msg 4) as [params|] eqn:E4; [|done]. cbn in Hc4. injection Hc4 as Hc4.
  unfold executor_message, LocalScheduler.send_object, mbind, eff_bind, lift. rewrite Hc0, Hc1. cbn -[send_ephemeral parse_infos].
  rewrite Hc2, Hc3, E4. cbn -[send_ephemeral parse_infos]. rewrite Hc4. cbn -[send_ephemeral].
  destruct (decide (2 = 1)), (decide (2 ≤ 2 ≤ 4)), (decide (2 = 2)); try lia.
  by destruct (send_ephemeral _ _ _ _ _) as [[[? ?] []]|].
Qed.

(** C16: an object a function puts starts what its bucket says: from the message of
    [send_object] the scheduler stores the value under the name of the object, offers it
    once to every trigger of the bucket, in order, schedules the calls of their actions one
    after the other, each on a free executor or kept, and tells the coordinator of the
    bucket the object, its value and the triggers that have fired.  The value is not empty
    and has no separator ([object_ok]), the function has no direct successors ([node_ok]),
    and the node keeps the calls, or has an executor for each, unless their arguments are
    values ([schedulable]). *)
Theorem object_starts_calls now chan req_id bk func target value w :
  object_ok bk func target value → node_ok (bucket_ bk) func w → 0 ≤ req_id < 256 →
  schedulable (object_calls now bk value w) w →
  ∃ w' w1 w2 calls ann,
    executor_message conf now
      (object_message chan 2 req_id true (session_ bk) func target (shm_key_name bk) value) w
      = Ok (w', calls ++ ann, tt) ∧
    key_val_map (store (w_env w')) !! shm_key_name bk = Some value ∧
    trigger_heap (w_registry w1) = (fired now bk w).1 ∧ same_schedule w w1 ∧
    runs conf now (session_ bk) (at_default "" (bucket_ bk) (bucket_app_map (w_registry w)))
      (object_calls now bk value w) w1 w2 calls ∧ same_schedule w2 w' ∧
    announcement bk (fired now bk w).2 (client_of (session_ bk) w) value (w_helper w) ann.
Proof.
  intros Hobj Hnode Hreq Hflag. rewrite executor_message_object by (done || apply Hobj).
  pose proof (send_ephemeral_spec now bk func target value w Hobj Hnode Hflag) as Hspec.
  apply wp_Ok in Hspec as (w' & sent & [] & -> & w1 & w2 & calls & ann & -> & Hrest). by exists w', w1, w2, calls, ann.
Qed.

(** *** One function calls another *)

(** The one call of an immediate trigger has the value for its argument. *)
Lemma immediate_calls now bk value w p t i :
  at_default [] (bucket_ bk) (bucket_triggers_map (w_registry w)) = [p] →
  trigger_heap (w_registry w) !! p = Some t → impl t = ImmediateImpl i →
  object_calls now bk value w = [{| func_name_ := target_function_ t; func_args_ := [value]; arg_flag_ := 0 |}].
Proof.
  intros Hptrs Ht Hi. unfold object_calls, fired. rewrite Hptrs. unfold fire. cbn [foldl]. unfold fire_step. cbn [fst].
  rewrite Ht. unfold trigger_action. rewrite Hi. cbn.
  unfold calls_of_trigger, call_of. cbn. unfold shm_key_name. by rewrite lookup_insert_eq.
Qed.

(** A call with one value, decoded. *)
Lemma decode_value_call persist cpu mem session func value :
  field session → field func → field value → value ≠ "" →
  ∃ c, parse_call (call_message 0 persist cpu mem session func [value]) = Ok c ∧
    cm_function c = func ∧ cm_session_id c = session ∧ arg_values c = Ok (Some [Bytes value]).
Proof.
  intros Hs Hf Hv Hne. pose proof (parse_call_of 0 persist cpu mem session func [[value]] value) as Hcall.
  eexists. split; [apply Hcall|]; [lia|done|change (Forall field [func; value]); by rewrite !Forall_cons, Forall_nil|by repeat constructor|done|done|by split_and!].
Qed.

(** What [send_object] sends for a small object. *)
Lemma send_object_small o value (u : ExecState) resp :
  get_value o (memory u) = Ok value → size_ o ≤ msgDataPackingThreshold → 
  ∃ u' req_id, 0 ≤ req_id < 256 ∧
    Executor.send_object o false resp u = Ok (u', [{| send_to := kvs_name__; send_msg := MBytes
      (object_message (chan_id_ (lib u)) 2 req_id true (Executor.session_id_ (lib u)) (Executor.function_ (lib u))
        (target_func_ o) (obj_name_ o) value) |}], tt).
Proof.
  intros Hv Hs. unfold Executor.send_object, Executor.get_request_id, upd_lib, send_shared, mbind, eff_bind, gets, modify, mret, eff_ret, lift, emit.
  cbn -[get_value object_message]. rewrite bool_decide_true by done. rewrite Hv. cbn -[object_message].
  eexists _, _. split; [|done]. unfold next_rid. case_decide; [lia|]. apply u8_bound.
Qed.

(** C15: A function calls the next one through an object: when a function puts a small object
    into a bucket whose trigger is immediate and an executor is free, exactly one free
    executor, a warm one if there is one, receives a call; it is booked, and what it decodes
    is the target function of the trigger, the session of the caller and the bytes of the
    object.  The coordinator is told at the same time.  The value is not empty and has no
    separator ([object_ok]), and the function has no direct successors ([node_ok]). *)
Theorem immediate_object_reaches_function now bk value o (u : ExecState) resp w p t i :
  let func := Executor.function_ (lib u) in
  let g := target_function_ t in
  object_ok bk func (target_func_ o) value → node_ok (bucket_ bk) func w → field g →
  Executor.session_id_ (lib u) = session_ bk → obj_name_ o = shm_key_name bk →
  get_value o (memory u) = Ok value → size_ o ≤ msgDataPackingThreshold →
  at_default [] (bucket_ bk) (bucket_triggers_map (w_registry w)) = [p] →
  trigger_heap (w_registry w) !! p = Some t → impl t = ImmediateImpl i →
  (∃ x, eligible conf (execs (w_env w)) g x) →
  ∃ u' msg w' x chan call ann c,
    Executor.send_object o false resp u = Ok (u', [{| send_to := kvs_name__; send_msg := MBytes msg |}], tt) ∧
    executor_message conf now msg w = Ok (w', {| send_to := chan; send_msg := MBytes call |} :: ann, tt) ∧
    eligible conf (execs (w_env w)) g x ∧ ((∃ y, warm (execs (w_env w)) g y) → warm (execs (w_env w)) g x) ∧
    executor_chans_map (execs (w_env w)) !! x = Some chan ∧
    executor_status_map (execs (w_env w')) = <[x := 2]> (executor_status_map (execs (w_env w))) ∧
    parse_call call = Ok c ∧ cm_function c = g ∧ cm_session_id c = session_ bk ∧
    arg_values c = Ok (Some [Bytes value]) ∧
    announcement bk [(t, (trigger_action now t bk).2)] (client_of (session_ bk) w) value (w_helper w) ann.
Proof.
  intros func g Hobj Hnode Hg Hsess Hname Hval Hsize Hptrs Ht Hi [x0 Hx0].
  destruct (send_object_small o value u resp Hval Hsize) as (u' & req_id & Hreq & Hsend).
  pose proof (immediate_calls now bk value w p t i Hptrs Ht Hi) as Hcalls.
  assert ((fired now bk w).2 = [(t, (trigger_action now t bk).2)]) as Hfired.
  { unfold fired, fire. rewrite Hptrs. cbn [foldl]. unfold fire_step. cbn [fst snd]. by rewrite Ht. }
  pose proof (send_ephemeral_spec now bk func (target_func_ o) value w Hobj Hnode) as Hspec. rewrite Hcalls in Hspec.
  apply wp_Ok in Hspec; [|by left; repeat constructor]. destruct Hspec as (w' & sent & [] & E & Hres).
  destruct Hres as (w1 & w2 & calls & ann & -> & _ & _ & [He1 _] & Hruns & [He2 _] & Hann).
  inversion Hruns as [|m ms ? w3 w4 w5 sent1 sent2 Hw3 _ Hout Hrest]; subst. clear Hruns.
  inversion Hrest; subst. cbn [func_name_ func_args_ arg_flag_] in Hout. rewrite Hfired in Hann.
  assert (execs (w_env w3) = execs (w_env w)) as He3 by (rewrite Hw3; exact He1).
  inversion Hout as [? x chan e e' Hel Hwarm Hst _ Hch _ _ _ _|? ? ? e e' Hnone]; subst; [|destruct (Hnone x0); unfold e; by rewrite He3].
  unfold e, e' in *. rewrite He3 in *.
  destruct Hobj as (? & ? & Hv & ? & ? & Hfields).
  assert (field (session_ bk) ∧ field value) as [Hfs Hfv].
  { split; [by apply Forall_cons in Hfields as [? _]|]. by repeat (apply Forall_cons in Hfields as [? Hfields]). }
  destruct (decode_value_call (bool_decide (client_of (session_ bk) w3 = "")) (S754_zero false) 0 (session_ bk) g value)
    as (c & Hparse & Hcf & Hcs & Hca); [done..|].
  eexists u', _, w', x, chan, _, ann, c. rewrite Hsess, Hname in Hsend. split; [exact Hsend|].
  rewrite executor_message_object by done. split; [exact E|]. rewrite <- He2 in Hst. by split_and!.
Qed.

End flow.

(** ** A node with one immediate trigger *)

#[local] Existing Instances sorted_iter lcg_rand bits_lattice_messages bits_primitive_messages.

Definition flow_trigger : Trigger := {|
  target_function_ := "g"; trigger_name_ := "t"; type_ := IMMEDIATE; trigger_option_ := 1;
  impl := ImmediateImpl {| Immediate.session_status_cache_ := ∅ |} |}.

Definition flow_node : node :=
  let coord := {| thread_ip := "10.0.0.9"; thread_tid := 0 |} in {|
  w_helper := set_coords (new_CommHelper [] "10.0.0.1" 2 []) {["app" := coord]} {["b_g" := coord]};
  w_registry := {| trigger_heap := [flow_trigger]; bucket_triggers_map := {["b_g" := [0%nat]]}; app_info_map := ∅;
    func_app_map := {["f" := "app"; "g" := "app"]}; bucket_app_map := {["b_g" := "app"]}; func_trigger_timeout_map := ∅ |};
  w_env := w_env example_node |}.

Definition flow_key : BucketKey := {| bucket_ := "b_g"; key_ := "k"; session_ := "0123456789abcdef" |}.

Definition flow_object : EpheObject := {| obj_name_ := shm_key_name flow_key; size_ := 2; target_func_ := "" |}.

Definition flow_executor : ExecState := {|
  lib := set_call "f" "0123456789abcdef" 2 (new_UserLibrary "10.0.0.1" 0); name_func_map := {["f"]};
  memory := {[shm_key_name flow_key := "42"]} |}.

Lemma flow_object_ok : object_ok flow_key "f" "" "42".
Proof. split_and!; try done; evaluate. Qed.

Lemma flow_node_ok : node_ok "b_g" "f" flow_node.
Proof. split_and!; [by repeat constructor|apply example_executors_ok|done|done]. Qed.

Lemma object_starts_calls_witness :
  ∃ w' w1 w2 calls ann,
    executor_message example_conf 5
      (object_message 1 2 7 true (session_ flow_key) "f" "" (shm_key_name flow_key) "42") flow_node
      = Ok (w', calls ++ ann, tt) ∧
    key_val_map (store (w_env w')) !! shm_key_name flow_key = Some "42" ∧
    trigger_heap (w_registry w1) = (fired 5 flow_key flow_node).1 ∧ same_schedule flow_node w1 ∧
    runs example_conf 5 (session_ flow_key) (at_default "" (bucket_ flow_key) (bucket_app_map (w_registry flow_node)))
      (object_calls 5 flow_key "42" flow_node) w1 w2 calls ∧ same_schedule w2 w' ∧
    announcement flow_key (fired 5 flow_key flow_node).2 (client_of (session_ flow_key) flow_node) "42"
      (w_helper flow_node) ann.
Proof.
  apply (object_starts_calls example_conf 5 1 7 flow_key "f" "" "42" flow_node);
    [apply flow_object_ok|apply flow_node_ok|lia|].
  left. rewrite (immediate_calls 5 flow_key "42" flow_node 0%nat flow_trigger _ eq_refl eq_refl eq_refl).
  repeat constructor; done.
Defined.

Lemma immediate_object_reaches_function_witness :
  ∃ u' msg w' x chan call ann c,
    Executor.send_object flow_object false None flow_executor
      = Ok (u', [{| send_to := kvs_name__; send_msg := MBytes msg |}], tt) ∧
    executor_message example_conf 5 msg flow_node = Ok (w', {| send_to := chan; send_msg := MBytes call |} :: ann, tt) ∧
    eligible example_conf (execs (w_env flow_node)) "g" x ∧
    ((∃ y, warm (execs (w_env flow_node)) "g" y) → warm (execs (w_env flow_node)) "g" x) ∧
    executor_chans_map (execs (w_env flow_node)) !! x = Some chan ∧
    executor_status_map (execs (w_env w')) = <[x := 2]> (executor_status_map (execs (w_env flow_node))) ∧
    parse_call call = Ok c ∧ cm_function c = "g" ∧ cm_session_id c = session_ flow_key ∧
    arg_values c = Ok (Some [Bytes "42"]) ∧
    announcement flow_key [(flow_trigger, (trigger_action 5 flow_trigger flow_key).2)]
      (client_of (session_ flow_key) flow_node) "42" (w_helper flow_node) ann.
Proof.
  eapply (immediate_object_reaches_function example_conf 5 flow_key "42" flow_object flow_executor None flow_node
    0%nat flow_trigger); [apply flow_object_ok|apply flow_node_ok|evaluate|done|done|done|done|done|done|done|].
  exists 1. right. by left.
Defined.
