(* ===== verification/CallFlow.v ===== *)
(** * A request and its response

    The way of a single request with its response: the coordinator routes it to a node
    ([func_call_handler.cpp]); the main thread or an I/O thread of the node takes it
    ([comm_helper.hpp]) and the local scheduler starts it on an executor
    ([scheduler_server.cpp]); the executor decodes it, runs the function and sends what the
    function puts out ([executor_server.cpp], [function_lib.hpp]); the scheduler answers the
    client.  The components are composed through the messages they exchange. *)

From S2P Require Import Prelude CppString CppDouble Messages Common Triggers Threads Effects Coordinator.
From S2P Require Import DemeterScheduler FuncCall KvsClient CommHelper LocalScheduler LocalSpecs LocalWaiting.
From S2P Require Import Executor NodeFormats NodeFlow.

(** ** Definitions *)

Section node.
Context `{UnorderedIter, Rand, LatticeMessages, PrimitiveMessages} (conf : SchedConf).

(** One round of the sockets, with at most a call. *)
Definition call_inbox (call : option FunctionCall) : Inbox := {|
  in_update := None; in_call := call; in_data_request := None; in_data_response := None;
  in_key_address := None; in_kvs_response := None |}.

(** The part of the loop of the scheduler that takes what the helper has received. *)
Definition take_messages (now : Z) (inbox : Inbox) : sched unit :=
  comm_resps ← try_recv_msg copy_to_shm_obj get_shm_obj now inbox;
  for_each (handle_recv conf now) comm_resps.

(** A call at the socket of thread [tid]: an additional I/O thread leaves it in its queue
    for the main thread. *)
Definition receive_call (now : Z) (tid : Z) (call : FunctionCall) : sched unit :=
  if decide (tid = 0) then take_messages now (call_inbox (Some call))
  else io_thread_round copy_to_shm_obj get_shm_obj now tid (call_inbox (Some call));; take_messages now (call_inbox None).

(** What an executor has sent, in order. *)
Definition receive_all (now : Z) (sends : list Send) : sched unit :=
  for_each (λ s, match send_msg s with MBytes str => executor_message conf now str | _ => mret tt end) sends.

End node.

(** A function that puts out one object. *)
Definition answer (bucket key value : string) : exec unit :=
  o ← create_object bucket key (size_of value);
  set_value o value;;
  Executor.send_object o true None.

(** *** The states the theorem is about *)

Definition idle_client (c : KvsClient) : Prop :=
  pending_request_map_ c = ∅ ∧ pending_get_response_map_ c = ∅ ∧ pending_put_response_map_ c = ∅.

(** A helper with [n] I/O threads and nothing under way. *)
Record quiet (n : Z) (h : CommHelper) : Prop := {
  quiet_clients tid : 0 ≤ tid < n → ∃ c, kvs_clients h !! Z.to_nat tid = Some c ∧ idle_client c;
  quiet_msgs : secondary_thread_msg_queues h = replicate (Z.to_nat (n - 1)) [];
  quiet_resps : resp_queues h = replicate (Z.to_nat (n - 1)) [] }.

(** A node that can take a call of [func]. *)
Record ready (conf : SchedConf) (n : Z) (app func : string) (w : node) : Prop := {
  ready_helper : quiet n (w_helper w);
  ready_channels : executors_ok (execs (w_env w));
  ready_numbers x : is_Some (executor_status_map (execs (w_env w)) !! x) → 0 ≤ x < 255;
  ready_app : at_default "" func (func_app_map (w_registry w)) = app;
  ready_executor : ∃ x, eligible conf (execs (w_env w)) func x }.

(** A call of one function with values. *)
Definition value_call (request : FunctionCall) (req : FunctionRequest) : Prop :=
  fc_requests request = [req] ∧ Forall (λ a, arg_arg_flag a ≤ 0) (fr_arguments req).

(** ** Lemmas *)

Section lemmas.
Context `{UnorderedIter, Rand, LatticeMessages, PrimitiveMessages} (conf : SchedConf).

(** *** The client of the durable store has nothing to do *)

Lemma map_iter_empty {A} : map_iter (∅ : gmap string A) = [].
Proof. pose proof (map_iter_perm string A ∅) as Hp. rewrite map_to_list_empty in Hp. by apply Permutation_nil_r in Hp. Qed.

Lemma set_iter_empty : set_iter (∅ : gset string) = [].
Proof. pose proof (set_iter_perm string ∅) as Hp. rewrite elements_empty in Hp. by apply Permutation_nil_r in Hp. Qed.

Lemma wp_exact {S O A} (m : eff S O A) s s' o a : wp m s (λ s1 o1 a1, s1 = s' ∧ o1 = o ∧ a1 = a) ↔ m s = Ok (s', o, a).
Proof. rewrite wp_Ok. naive_solver. Qed.

Lemma receive_async_idle now c : idle_client c → receive_async now None None c = Ok (c, [], []).
Proof.
  intros (Hp & Hg & Hu). apply wp_exact. unfold receive_async, gc_pending, gc_get, gc_put.
  repeat (eff_step || rewrite ?Hp, ?Hg, ?Hu, ?map_iter_empty, ?set_iter_empty; cbn [for_fold for_each]). done.
Qed.

(** *** The node receives a call *)

Lemma get_kvs_responses_idle now tid w c :
  kvs_clients (w_helper w) !! Z.to_nat tid = Some c → idle_client c →
  get_kvs_responses copy_to_shm_obj now None None tid w = Ok (w, [], []).
Proof.
  intros Hlookup Hidle. apply wp_exact. unfold get_kvs_responses. eff_step. unfold on_helper. apply wp_zoom.
  unfold wp at 1, on_client. rewrite Hlookup, receive_async_idle by done. cbn [for_fold]. eff_step.
  rewrite list_insert_id by done. by destruct w as [[] ? ?].
Qed.

Lemma eff_bind_Ok {S O A B} (m : eff S O A) (f : A → eff S O B) s s' a :
  m s = Ok (s', [], a) → (m ≫= f) s = f a s'.
Proof. intros E. unfold mbind, eff_bind. rewrite E. by destruct (f a s') as [[[? ?] ?]|]. Qed.

Lemma on_helper_Ok {A} (m : comm A) (w : node) h o a :
  m (w_helper w) = Ok (h, o, a) →
  on_helper m w = Ok ({| w_helper := h; w_registry := w_registry w; w_env := w_env w |}, o, a).
Proof. unfold on_helper, zoom. by intros ->. Qed.

(** What the helper makes of a call with values. *)
Definition value_msg (call : FunctionCall) (req : FunctionRequest) : RecvMsg := {|
  msg_type_ := Call; app_name_ := fc_app_name call; resp_address_ := fc_resp_address call;
  func_names_ := [fr_name req]; func_argss_ := [map arg_body (fr_arguments req)]; is_func_arg_keys_ := [0];
  cpu_coress_ := [fr_cpu_cores req]; memory_mbs_ := [fr_memory_mb req];
  CommHelper.session_id_ := fc_session_id call; sync_data_status_ := fc_sync_data_status call;
  data_key_ := ""; data_size_ := 0 |}.

Lemma request_args_values args h :
  Forall (λ a, arg_arg_flag a ≤ 0) args → request_args args h = Ok (h, [], (map arg_body args, 0)).
Proof.
  intros Hargs. apply wp_exact. unfold request_args.
  eapply wp_mono; [apply (wp_for_fold (λ pre h' o r, h' = h ∧ o = [] ∧ r = (map arg_body pre, 0)))|done]; [done|].
  intros pre a h1 o1 r [post ->] (-> & -> & ->). rewrite Forall_app, Forall_cons in Hargs. destruct Hargs as (_ & Ha & _).
  rewrite decide_False by lia. eff_step. by rewrite map_app.
Qed.

Lemma handle_function_call_values call req h :
  value_call call req → handle_function_call call h = Ok (h, [], value_msg call req).
Proof.
  intros [Hreqs Hargs]. apply wp_exact. unfold handle_function_call. rewrite Hreqs. cbn [mapM]. do 2 eff_step.
  unfold wp at 1. rewrite request_args_values by done. repeat eff_step. done.
Qed.

Lemma concat_replicate_nil {A} n : concat (replicate n ([] : list A)) = [].
Proof. induction n as [|n IH]; [done|]. exact IH. Qed.

Lemma set_queues_id h msgs resps :
  secondary_thread_msg_queues h = msgs → resp_queues h = resps → set_queues h msgs resps = h.
Proof. intros <- <-. by destruct h. Qed.

Definition with_resps (rs : list (list RecvMsg)) (w : node) : node := {|
  w_helper := set_queues (w_helper w) (secondary_thread_msg_queues (w_helper w)) rs;
  w_registry := w_registry w; w_env := w_env w |}.

(** The main thread takes the message at its socket and what the others have left. *)
Lemma take_messages_spec n now call rs msgs w :
  quiet n (w_helper w) → 0 < n → length rs = Z.to_nat (n - 1) →
  match call with Some c => ∃ req, value_call c req ∧ msgs = [value_msg c req] | None => msgs = [] end →
  take_messages conf now (call_inbox call) (with_resps rs w) = for_each (handle_recv conf now) (msgs ++ concat rs) w.
Proof.
  intros [Hc Hm Hr] Hn Hrs Hcall. destruct (Hc 0 ltac:(lia)) as (c & Hlookup & Hidle).
  unfold take_messages. apply eff_bind_Ok. unfold try_recv_msg. cbn [call_inbox in_update in_call
    in_data_request in_data_response in_key_address in_kvs_response on_input].
  etransitivity; [apply eff_bind_Ok; reflexivity|]. etransitivity.
  { apply (eff_bind_Ok _ _ _ (with_resps rs w) msgs). destruct call as [call|]; [|by subst]. destruct Hcall as (req & Hv & ->).
    etransitivity; [apply eff_bind_Ok, on_helper_Ok, (handle_function_call_values call req _ Hv)|by destruct w]. }
  etransitivity; [apply eff_bind_Ok; reflexivity|]. etransitivity; [apply eff_bind_Ok; reflexivity|].
  etransitivity; [by apply eff_bind_Ok, (get_kvs_responses_idle _ _ _ c)|].
  etransitivity; [apply eff_bind_Ok, on_helper_Ok; reflexivity|].
  apply wp_exact, wp_ret. split_and!; [|done|done]. destruct w as [h reg env]. cbn in *.
  assert (map (λ _, []) rs = resp_queues h) as ->; [|by destruct h]. rewrite Hr, <- Hrs. clear. induction rs as [|r rs IH]; [done|]. cbn. by rewrite <- IH.
Qed.

(** Whichever thread it reaches, a call comes to the main thread as it was sent. *)
Lemma receive_call_spec n now tid call req w :
  quiet n (w_helper w) → 0 ≤ tid < n → value_call call req →
  receive_call conf now tid call w = for_each (handle_recv conf now) [value_msg call req] w.
Proof.
  intros Hq Htid Hv. pose proof Hq as [Hc Hm Hr].
  assert (with_resps (replicate (Z.to_nat (n - 1)) []) w = w) as Hw.
  { destruct w as [h reg env]. unfold with_resps. cbn in *. by rewrite set_queues_id. }
  unfold receive_call. case_decide as Ht0.
  - rewrite <- Hw at 1. rewrite (take_messages_spec n _ (Some call) _ [value_msg call req]) by (done || lia || (by apply length_replicate) || eauto).
    by rewrite concat_replicate_nil, app_nil_r.
  - clear Hw. destruct w as [h reg env]. cbn [w_helper] in *. set (k := Z.to_nat (tid - 1)). destruct (Hc tid Htid) as (c & Hlookup & Hidle).
    assert (k < Z.to_nat (n - 1))%nat as Hk by lia.
    set (rs := <[k := [value_msg call req]]> (replicate (Z.to_nat (n - 1)) ([] : list RecvMsg))).
    etransitivity.
    { apply (eff_bind_Ok _ _ _ (with_resps rs {| w_helper := h; w_registry := reg; w_env := env |}) tt). unfold io_thread_round.
      cbn [call_inbox in_call in_data_request in_data_response in_key_address in_kvs_response on_input]. fold k.
      etransitivity. { apply (eff_bind_Ok _ _ _ (with_resps rs {| w_helper := h; w_registry := reg; w_env := env |}) tt).
        etransitivity; [apply eff_bind_Ok, on_helper_Ok, (handle_function_call_values call req _ Hv)|].
        apply (on_helper_Ok _ _ (set_queues h (secondary_thread_msg_queues h) rs)). apply wp_exact. unfold push_resp. do 3 eff_step.
        eapply wp_lift; [apply vec_at_Ok; cbn; rewrite Hr; by apply lookup_replicate_2|]. eff_step. cbn. by rewrite Hr. }
      etransitivity; [apply eff_bind_Ok; reflexivity|]. etransitivity; [apply eff_bind_Ok; reflexivity|].
      etransitivity. { apply eff_bind_Ok, on_helper_Ok. apply wp_exact. cbn [process_secondary msg_process_batch]. do 3 eff_step.
        eapply wp_lift; [apply vec_at_Ok; cbn; rewrite Hm; by apply lookup_replicate_2|]. cbn beta iota. by eff_step. }
      etransitivity; [by apply eff_bind_Ok, (get_kvs_responses_idle _ _ _ c)|]. done. }
    rewrite (take_messages_spec n _ None _ []); [|done|lia|by unfold rs; rewrite length_insert, length_replicate|done].
    cbn [app]. f_equal. unfold rs. clear - Hk. generalize dependent k. generalize (Z.to_nat (n - 1)) as m.
    intros m. induction m as [|m IH]; intros [|k] Hk; [lia|lia| |].
    + cbn. by rewrite concat_replicate_nil.
    + apply (IH k). lia.
Qed.

(** *** Scheduling leaves the applications of the functions alone *)

Definition same_apps (m : gmap string string) (w : node) : Prop := func_app_map (w_registry w) = m.

Lemma keeps_apps_local m f : keeps (same_apps m) (put_local f).
Proof. by intros w Hw. Qed.

Lemma keeps_apps_helper {A} m (c : comm A) : keeps (same_apps m) (on_helper c).
Proof. intros w Hw. unfold on_helper, zoom, wlp. by destruct (c (w_helper w)) as [[[? ?] ?]|]. Qed.

Lemma keeps_apps_get {A} m (f : Local → A) : keeps (same_apps m) (get_local f).
Proof. apply keeps_gets. Qed.

Lemma keeps_apps_client m session : keeps (same_apps m) (client_addr session).
Proof. by intros w Hw. Qed.

Lemma keeps_apps_len m key : keeps (same_apps m) (key_len key).
Proof. by intros w Hw. Qed.

Hint Resolve keeps_apps_local keeps_apps_helper keeps_apps_get keeps_apps_client keeps_apps_len : eff.

Lemma forward_keeps_apps m session app names argss flag :
  keeps (same_apps m) (forward_call_via_helper session app names argss flag).
Proof.
  assert (∀ args, keeps (same_apps m) (packed_args flag args)).
  { intros args. unfold packed_args. apply keeps_bind; [auto with eff|]. intros l. apply keeps_for_fold. intros b [[x y] z].
    repeat (apply keeps_bind; [auto with eff|intros]). auto with eff. }
  unfold forward_call_via_helper. repeat first [case_decide | solve [auto using keeps_mapM with eff] | apply keeps_bind; [|intros ?]].
Qed.

Lemma schedule_keeps_apps m now session app func args flag cpu mem :
  keeps (same_apps m) (schedule_func_call conf now session app func args flag cpu mem).
Proof.
  unfold schedule_func_call. intros w Hw. eff_step.
  eapply wlp_mono; [apply wp_wlp, pick_executor_spec|]. cbn beta. intros w1 o1 [x|] (-> & (fe & seed & -> & _) & _).
  - eff_step. unfold wlp at 1. rewrite client_addr_spec. eff_step. unfold send_to_executer, get_local, set_registry, upd_execs, put_local.
    do 2 eff_step. destruct (executor_chans_map _ !! x); [|apply wlp_throw]. repeat eff_step.
    apply (wlp_for_each (λ _ w' _, same_apps m w')); [done|]. intros pre meta w2 o2 _ Hw2.
    unfold notify_rerun, set_registry, upd_timers, put_local. by repeat eff_step.
  - case_decide; [done|]. destruct (rejectExtraReq conf); [done|]. apply (keeps_bind (same_apps m)); [|auto using forward_keeps_apps|done].
    case_decide; [|auto with eff]. apply keeps_bind; [auto with eff|]. intros first. destruct (has_delimiter first); auto with eff.
Qed.

(** *** The call starts on an executor *)

Lemma handle_value_call now call req w :
  let session := fc_session_id call in
  let f := fr_name req in
  let e := execs (w_env w) in
  executors_ok e → (∃ x, eligible conf e f x) →
  wp (for_each (handle_recv conf now) [value_msg call req]) w (λ w' sent _, ∃ x chan,
    eligible conf e f x ∧ ((∃ y, warm e f y) → warm e f x) ∧ executor_chans_map e !! x = Some chan ∧
    sent = [{| send_to := chan; send_msg := MBytes (call_message 0 (bool_decide (fc_resp_address call = ""))
      (fr_cpu_cores req) (fr_memory_mb req) session f (map arg_body (fr_arguments req))) |}] ∧
    executor_status_map (execs (w_env w')) = <[x := 2]> (executor_status_map e) ∧
    x ∈ at_default ∅ f (function_executor_map (execs (w_env w'))) ∧
    client_of session w' = fc_resp_address call ∧ func_app_map (w_registry w') = func_app_map (w_registry w)).
Proof.
  intros session f e Hok Hel. cbn [for_each]. eff_step. unfold handle_recv. cbn [msg_type_ value_msg].
  unfold handle_call, upd_store, put_local. do 2 eff_step. cbn [func_names_ value_msg length seq for_each]. do 2 eff_step.
  do 3 (try (eapply wp_lift; [reflexivity|]); cbn beta iota; try eff_step).
  match goal with |- wp _ ?st _ => set (w0 := st) end. cbn [app_name_ value_msg CommHelper.session_id_].
  assert (client_of session w0 = fc_resp_address call) as Hclient by apply at_default_insert.
  unfold call_received, get_local. do 3 eff_step. rewrite decide_False by lia.
  eapply wp_mono.
  { apply wp_and; [apply schedule_func_call_spec; [exact Hok|left; left; lia]|].
    apply wlp_and; [apply schedule_frame|apply (schedule_keeps_apps (func_app_map (w_registry w))); done]. }
  cbn beta. intros w1 o1 _ (Hout & Hframe & Happs). unfold upd_waiting, put_local. repeat eff_step.
  destruct Hel as [x0 Hx0].
  inversion Hout as [? x chan e1 e2 Hel Hwarm Hst _ Hch Hin _ _ _|? ? ? e1 e2 Hnone]; subst; [|by destruct (Hnone x0)].
  exists x, chan. unfold e1, e2 in *. cbn [cpu_coress_ memory_mbs_ value_msg lookup list_lookup default].
  split_and!; [done|done|done| |done|done| |done].
  - rewrite !app_nil_r, <- Hclient. done.
  - destruct Hframe as (_ & _ & Hcl & _). etransitivity; [apply Hcl|done].
Qed.

End lemmas.

(** *** The executor runs the function *)

Lemma length_zeros n : String.length (zeros n) = n.
Proof. induction n as [|n IH]; [done|]. cbn. by rewrite IH. Qed.

Lemma length_take_string n s : String.length (take_string n s) = (n `min` String.length s)%nat.
Proof. revert s. induction n as [|n IH]; intros [|c s]; cbn; [done..|]. by rewrite IH. Qed.

Lemma length_append a b : String.length (a +:+ b) = (String.length a + String.length b)%nat.
Proof. pose proof (size_of_app a b) as Happ. unfold size_of in Happ. lia. Qed.

Lemma drop_string_all s : drop_string (String.length s) s = "".
Proof. induction s as [|c s IH]; [done|]. exact IH. Qed.

Definition executor_message_of (chan : Z) (type : Z) : Send :=
  {| send_to := kvs_name__; send_msg := MBytes (byte_string chan +:+ byte_string type) |}.

Definition output_message (chan req_id : Z) (session func bucket key value : string) : Send := {|
  send_to := kvs_name__;
  send_msg := MBytes (object_message chan 4 req_id true session func "" (get_local_object_name bucket key session) value) |}.

Lemma answer_spec bucket key value u :
  persist_flag_ (lib u) ≠ 1 → 0 < size_of value ≤ msgDataPackingThreshold →
  ∃ u' req_id, 0 ≤ req_id < 256 ∧
    answer bucket key value u = Ok (u', [output_message (chan_id_ (lib u)) req_id (Executor.session_id_ (lib u))
      (Executor.function_ (lib u)) bucket key value], tt).
Proof.
  intros Hp [Hpos Hle].
  cut (wp (answer bucket key value) u (λ _ o _, ∃ req_id, 0 ≤ req_id < 256 ∧
    o = [output_message (chan_id_ (lib u)) req_id (Executor.session_id_ (lib u)) (Executor.function_ (lib u)) bucket key value])).
  { intros (u' & o & [] & E & req_id & ? & ->)%wp_Ok. eauto. }
  unfold answer, create_object, ephe_object, upd_memory. do 7 eff_step.
  set (name := get_local_object_name bucket key (Executor.session_id_ (lib u))).
  unfold new_segment. rewrite decide_False by lia. set (seg := take_string _ _).
  assert (String.length seg = String.length value) as Hseg.
  { unfold seg. rewrite length_take_string, length_append, length_zeros. unfold size_of. lia. }
  unfold set_value. do 2 eff_step. cbn [obj_name_ memory]. rewrite lookup_insert_eq.
  rewrite decide_False by (unfold size_of; lia). unfold upd_memory. eff_step.
  cbn [memory lib]. rewrite insert_insert_eq, <- Hseg, drop_string_all, append_nil_r.
  unfold Executor.send_object, get_request_id, upd_lib. do 8 eff_step. cbn [lib Executor.set_ids persist_flag_].
  rewrite (decide_False (P := persist_flag_ (lib u) = 1)) by done. cbn [size_ obj_name_ target_func_ memory].
  rewrite bool_decide_true by lia. repeat eff_step.
  eapply wp_lift.
  { unfold get_value. cbn [obj_name_ size_ memory]. rewrite lookup_insert_eq, decide_False by lia.
    by rewrite take_string_all by (unfold size_of; lia). }
  unfold send_shared. cbn beta iota. do 2 eff_step. rewrite (decide_False (P := 4 = 3)) by lia. eff_step.
  eexists (next_rid (rid_ (lib u))). split; [|done]. unfold next_rid. case_decide; [lia|]. apply u8_bound.
Qed.

Lemma add_arg_sizes vs l :
  let l' := foldl (λ l a, add_arg_size (arg_size a) l) l vs in
  chan_id_ l' = chan_id_ l ∧ Executor.session_id_ l' = Executor.session_id_ l ∧
  Executor.function_ l' = Executor.function_ l ∧ persist_flag_ l' = persist_flag_ l.
Proof. cbn. revert l. induction vs as [|v vs IH]; intros l; [done|]. cbn [foldl]. by destruct (IH (add_arg_size (arg_size v) l)) as (-> & -> & -> & ->). Qed.

Lemma execute_call_answer load_function handle x msg c vs bucket key value u :
  parse_call msg = Ok c → cm_persist c ≠ 1 → arg_values c = Ok (Some vs) →
  cm_function c ∈ name_func_map u ∨ load_function (cm_function c) = true →
  handle (cm_function c) vs = answer bucket key value → 0 < size_of value ≤ msgDataPackingThreshold →
  ∃ u' req_id, 0 ≤ req_id < 256 ∧
    execute_call load_function handle x msg u = Ok (u', [executor_message_of (x + 1) 6;
      output_message (chan_id_ (lib u)) req_id (cm_session_id c) (cm_function c) bucket key value;
      executor_message_of (x + 1) 7], true).
Proof.
  intros Hparse Hpersist Hargs Hload Hhandle Hvalue.
  cut (wp (execute_call load_function handle x msg) u (λ _ o r, r = true ∧ ∃ req_id, 0 ≤ req_id < 256 ∧
    o = [executor_message_of (x + 1) 6; output_message (chan_id_ (lib u)) req_id (cm_session_id c) (cm_function c) bucket key value;
         executor_message_of (x + 1) 7])).
  { intros (u' & o & r & E & -> & req_id & ? & ->)%wp_Ok. eauto. }
  unfold execute_call, executor_status, send_shared, upd_lib. do 3 eff_step.
  eapply wp_lift; [exact Hparse|]. do 4 eff_step. cbn [name_func_map].
  rewrite decide_False by (intros [? ?]; destruct Hload; [done|congruence]). do 3 eff_step.
  eapply wp_lift; [exact Hargs|]. repeat (cbn beta iota; eff_step). rewrite Hhandle.
  match goal with |- wp _ ?st _ => set (u1 := st) end.
  destruct (add_arg_sizes vs (set_call (cm_function c) (cm_session_id c) (cm_persist c) (lib u))) as (Hc & Hs & Hf & Hp).
  destruct (answer_spec bucket key value u1) as (u2 & req_id & Hreq & E); [by unfold u1; cbn [lib]; rewrite Hp|done|].
  unfold wp at 1. rewrite E. repeat eff_step. split; [done|]. exists req_id. split; [done|].
  unfold u1. cbn [lib]. by rewrite Hc, Hs, Hf.
Qed.

(** *** The scheduler answers the client *)

Section answering.
Context `{UnorderedIter, Rand, LatticeMessages, PrimitiveMessages} (conf : SchedConf).

Lemma executor_message_head now chan type rest w (Q : node → list Send → unit → Prop) :
  0 ≤ chan - 1 < 255 → 0 ≤ type < 256 →
  wp (if decide (type = 1) then get_request now (chan - 1) (byte_string chan +:+ byte_string type +:+ rest)
      else if decide (2 <= type <= 4) then LocalScheduler.send_object conf now (chan - 1) type (byte_string chan +:+ byte_string type +:+ rest)
      else if decide (type = 6) then upd_execs (λ e, set_status (<[chan - 1 := 3]> (executor_status_map e)) e)
      else if decide (type = 7) then
        upd_execs (λ e, set_status (<[chan - 1 :=
          if decide (at_default_Z 0 (chan - 1) (executor_status_map e) = 0 ∨
                     at_default_Z 0 (chan - 1) (executor_status_map e) = 2) then 0 else 1]> (executor_status_map e)) e)
      else mret tt) w Q →
  wp (executor_message conf now (byte_string chan +:+ byte_string type +:+ rest)) w Q.
Proof.
  intros Hchan Htype Hwp. unfold executor_message. rewrite !byte_cons in *. eff_step.
  eapply wp_lift; [by autorewrite with bytes|]. eff_step. eapply wp_lift; [by autorewrite with bytes|].
  rewrite (u8_small chan), (u8_small type), (u8_small (chan - 1)) by lia. cbn beta.
  eapply wp_mono; [exact Hwp|]. done.
Qed.

Lemma receive_all_answer now x req_id session func bucket key value w :
  0 ≤ x < 255 → 0 ≤ req_id < 256 → value ≠ "" →
  Forall field [session; func; bucket; key +:+ session; value] →
  wp (receive_all conf now [executor_message_of (x + 1) 6; output_message (x + 1) req_id session func bucket key value;
      executor_message_of (x + 1) 7]) w
    (λ w' sent _, sent = [{| send_to := client_of session w; send_msg := MFunctionCallResponse {|
        fcr_app_name := at_default "" func (func_app_map (w_registry w)); fcr_request_id := ""; fcr_output := value;
        fcr_error_no := 0 |} |}] ∧
      executor_status_map (execs (w_env w')) = <[x := 1]> (executor_status_map (execs (w_env w))) ∧
      function_executor_map (execs (w_env w')) = function_executor_map (execs (w_env w))).
Proof.
  intros Hx Hreq Hv Hf. unfold receive_all. cbn [for_each send_msg executor_message_of output_message]. eff_step.
  rewrite <- (append_nil_r (byte_string 6)). apply executor_message_head; [lia|lia|].
  repeat (rewrite decide_False by lia). rewrite decide_True by done.
  unfold upd_execs, put_local. do 2 eff_step.
  destruct (parse_object_of (x + 1) 4 req_id true session func "" bucket (key +:+ session) value)
    as (_ & Hc2 & Hc3 & Hc4); [lia|done| |done|].
  { apply Forall_cons in Hf as [? Hf]. apply Forall_cons in Hf as [? Hf]. do 2 (apply Forall_cons; split; [done|]).
    apply Forall_cons. split; [by split|done]. }
  change (bucket +:+ kDelimiter +:+ key +:+ session) with (get_local_object_name bucket key session) in *.
  set (msg := object_message _ _ _ _ _ _ _ _ _) in *.
  destruct (c_string_from msg 4) as [params|] eqn:E4; [|done]. cbn in Hc4. injection Hc4 as Hc4.
  unfold msg at 1, object_message. apply executor_message_head; [lia|lia|].
  rewrite decide_False, decide_True by lia.
  match goal with |- wp (LocalScheduler.send_object _ _ _ _ ?m) _ _ => change m with msg end.
  unfold LocalScheduler.send_object. eff_step. eapply wp_lift; [exact Hc2|]. eff_step. eapply wp_lift; [exact Hc3|].
  eff_step. eapply wp_lift; [exact E4|]. rewrite Hc4. rewrite decide_False, decide_False by lia.
  unfold send_response, output_data, app_of_func, set_registry, on_helper. rewrite decide_True by done. do 3 eff_step.
  unfold wp at 1. rewrite client_addr_spec. repeat eff_step. apply wp_zoom. unfold client_response. eff_step. eff_step.
  rewrite <- (append_nil_r (byte_string 7)). apply executor_message_head; [lia|lia|].
  repeat (rewrite decide_False by lia). rewrite decide_True by done. unfold upd_execs, put_local. repeat eff_step.
  cbn. replace (x + 1 - 1) with x by lia. split_and!; [done| |done].
  unfold at_default_Z. rewrite lookup_insert_eq, insert_insert_eq. done.
Qed.

End answering.

(** *** The session of a request *)

Section session.
Context `{Rand}.

Lemma alpha_num_field i : 0 ≤ i < size_of alpha_num → field (String (char_at alpha_num i) EmptyString).
Proof.
  intros Hi. cut (Forall (λ i, field (String (char_at alpha_num i) EmptyString)) (seqZ 0 (size_of alpha_num))).
  - intros Hall. rewrite Forall_forall in Hall. apply Hall, elem_of_seqZ. lia.
  - evaluate.
Qed.

Lemma gen_random_field sd n : field (gen_random sd n).1.
Proof.
  revert sd. induction n as [|n IH]; intros sd; [by split|]. cbn [gen_random].
  destruct (rand_r sd) as [r sd']. specialize (IH sd'). destruct (gen_random sd' n) as [s sd2].
  destruct (alpha_num_field (r `mod` size_of alpha_num)) as [[Hd _] [Hn _]]; [by apply Z.mod_pos_bound|].
  destruct IH as [IHd IHn]. by repeat split.
Qed.

Lemma with_session_field request sd :
  field (fc_session_id request) → field (fc_session_id (with_session request sd).1).
Proof.
  intros Hs. unfold with_session. case_decide; [|done]. pose proof (gen_random_field sd 16) as Hg.
  by destruct (gen_random sd 16).
Qed.

End session.

Lemma field_app a b : field a → field b → field (a +:+ b).
Proof. intros [? ?] [? ?]. split; apply no_char_app; by split. Qed.

(** ** Properties *)

(** C14: A request with a response address is answered with what its function puts out.  The
    coordinator sends it to one node, one with the most free executors, whichever thread of
    it; the node starts it on an executor, one that has run the function if there is one;
    what the executor decodes are the function and the arguments of the request; its messages
    make the scheduler send one response, the output, to the address of the request, and then
    the executor is free again and known to have run the function.  Demeter is disabled, the
    request calls one function by value, its fields have no separator and the last is not
    empty, and the function puts out one small object with a value that is not empty and has
    no separator. *)
Theorem request_is_answered `{UnorderedIter, Rand, LatticeMessages, PrimitiveMessages} (cconf : CoordConf) config
    (conf : SchedConf) now st (nodes : gmap string node) (executor_of : string → Z → ExecState)
    load_function handle request req bucket key value n0 s0 :
  let f := fr_name req in
  let args := map arg_body (fr_arguments req) in
  let session := fc_session_id (with_session request (seed st)).1 in
  (* a request for one function, with values *)
  value_call request req → fc_resp_address request ≠ "" → enabled_ config = false → 0 < io_thread_num cconf →
  Forall field (fc_session_id request :: f :: args) → (∃ v, last (f :: args) = Some v ∧ v ≠ "") →
  (* a node has a free executor, and those that have one can take the call *)
  node_status_map st !! n0 = Some s0 → ¬ (fc_source request ≠ "" ∧ fc_source request = n0) → 0 < avail_executors_ s0 →
  (∀ ip s, node_status_map st !! ip = Some s → 0 < avail_executors_ s → ∃ w, nodes !! ip = Some w ∧
     ready conf (io_thread_num cconf) (fc_app_name request) f w ∧
     ∀ x, is_Some (executor_status_map (execs (w_env w)) !! x) → chan_id_ (lib (executor_of ip x)) = x + 1) →
  (* what the function does *)
  load_function f = true → handle f (map Bytes args) = answer bucket key value →
  Forall field [bucket; key; value] → 0 < size_of value ≤ msgDataPackingThreshold →
  ∃ st' ip s tid call w w1 x chan msg c u sent w2,
    func_call_handler cconf config st request
      = Ok (st', [{| send_to := get_func_exec_address ip tid; send_msg := MFunctionCall call |}]) ∧
    node_status_map st !! ip = Some s ∧ avail_executors_ s0 ≤ avail_executors_ s ∧ nodes !! ip = Some w ∧
    receive_call conf now tid call w = Ok (w1, [{| send_to := chan; send_msg := MBytes msg |}], tt) ∧
    executor_chans_map (execs (w_env w)) !! x = Some chan ∧ eligible conf (execs (w_env w)) f x ∧
    ((∃ y, warm (execs (w_env w)) f y) → warm (execs (w_env w)) f x) ∧
    parse_call msg = Ok c ∧ cm_function c = f ∧ cm_session_id c = session ∧ arg_values c = Ok (Some (map Bytes args)) ∧
    execute_call load_function handle x msg (executor_of ip x) = Ok (u, sent, true) ∧
    receive_all conf now sent w1
      = Ok (w2, [{| send_to := fc_resp_address request; send_msg := MFunctionCallResponse {|
          fcr_app_name := fc_app_name request; fcr_request_id := ""; fcr_output := value; fcr_error_no := 0 |} |}], tt) ∧
    executor_status_map (execs (w_env w2)) = <[x := 1]> (executor_status_map (execs (w_env w))) ∧
    x ∈ at_default ∅ f (function_executor_map (execs (w_env w2))).
Proof.
  intros f args session Hv Haddr Hen Hio Hfields (v & Hlast & Hvne) Hn0 Hsrc Ha0 Hnodes Hload Hhandle Hout Hsize.
  destruct (single_request_to_freest_node cconf config st request n0 s0)
    as (st' & ip & s & io & Hroute & Hs & _ & Hmax); [done|lia|by rewrite (proj1 Hv)|done..|].
  specialize (Hmax n0 s0 Hn0 Hsrc). destruct (Hnodes ip s Hs ltac:(lia)) as (w & Hw & [Hq Hok Hnum Happ Hel] & Hchan).
  pose proof (with_session_fields request (seed st)) as (Hfa & Hfr & _ & _ & Hfx). cbn in Hfa, Hfr, Hfx.
  set (call := (with_session request (seed st)).1) in *.
  assert (value_call call req) as Hvc by (unfold value_call; rewrite Hfr; exact Hv).
  set (tid := io `mod` io_thread_num cconf) in *.
  assert (0 ≤ tid < io_thread_num cconf) as Htid by (apply Z.mod_pos_bound; lia).
  pose proof (handle_value_call conf now call req w Hok Hel) as Hcall.
  apply wp_Ok in Hcall as (w1 & o1 & [] & Erecv & x & chan & Hx & Hwarm & Hch & -> & Hst & Hin & Hclient & Happs).
  rewrite <- (receive_call_spec conf (io_thread_num cconf) now tid) in Erecv by done.
  assert (is_Some (executor_status_map (execs (w_env w)) !! x)) as Hxs by (destruct Hx as [[Hx _]|[Hx|[_ Hx]]]; by rewrite Hx).
  apply Forall_cons in Hfields as [Hfs Hfields]. apply (with_session_field _ (seed st)) in Hfs. fold call session in Hfs.
  pose proof Hfields as Hfields'. apply Forall_cons in Hfields as [Hff Hargs]. fold f args in Hff, Hargs.
  set (msg := call_message 0 _ _ _ _ _ _) in Erecv.
  destruct (call_decodes (bool_decide (fc_resp_address call = "")) (fr_cpu_cores req) (fr_memory_mb req) session f args)
    as (c & Hparse & Hcf & Hcs & Hcp & Hca); [done|done|done|by exists v|].
  change (call_message 0 _ _ _ _ _ _) with msg in Hparse.
  rewrite bool_decide_false in Hcp by (by rewrite Hfx). 
  destruct (execute_call_answer load_function handle x msg c (map Bytes args) bucket key value (executor_of ip x))
    as (u & req_id & Hreq & Eexec); [exact Hparse|by rewrite Hcp|done|right; by rewrite Hcf|by rewrite Hcf|done|].
  rewrite Hchan, Hcs, Hcf in Eexec by done. apply Forall_cons in Hout as [Hfb Hout]. apply Forall_cons in Hout as [Hfk Hout].
  pose proof (receive_all_answer conf now x req_id session f bucket key value w1) as Hans.
  apply wp_Ok in Hans; [|by apply Hnum|done|intros ->; by destruct Hsize|
    repeat (apply Forall_cons; split; [done|]); apply Forall_cons; split; [by apply field_app|done]].
  destruct Hans as (w2 & o2 & [] & Eans & -> & Hst2 & Hfe2). unfold session in *. fold call in Hclient.
  rewrite Hclient, Happs, Happ, Hfx in Eans.
  eexists st', ip, s, tid, call, w, w1, x, chan, msg, c, u, _, w2. split; [exact Hroute|]. split; [done|]. split; [done|].
  split; [done|]. split; [exact Erecv|]. do 4 (split; [done|]). split; [done|]. split; [done|]. split; [done|].
  split; [exact Eexec|]. split; [exact Eans|]. rewrite Hst2, Hst, Hfe2, insert_insert_eq. by split.
Qed.

(** ** A coordinator, two nodes and a function *)

#[local] Existing Instances sorted_iter lcg_rand bits_lattice_messages bits_primitive_messages.

Definition no_client : KvsClient := new_KvsClient [] "10.0.0.1" 0 10 7.

Definition demo_node : node := {|
  w_helper := new_CommHelper [] "10.0.0.1" 2 [no_client; no_client];
  w_registry := {| trigger_heap := []; CommHelper.bucket_triggers_map := ∅; CommHelper.app_info_map := ∅;
    func_app_map := {["f" := "app"]}; CommHelper.bucket_app_map := ∅; func_trigger_timeout_map := ∅ |};
  w_env := w_env example_node |}.

Definition demo_request_of (args : list string) : FunctionRequest := {|
  fr_name := "f"; fr_arguments := map (λ a, {| arg_body := a; arg_arg_flag := 0; arg_data_address := "" |}) args;
  fr_cpu_cores := S754_zero false; fr_memory_mb := 0 |}.

Definition demo_client_call : FunctionCall := {|
  fc_app_name := "app"; fc_requests := [demo_request_of ["1"; "2"]]; fc_source := ""; fc_request_id := "r1";
  fc_resp_address := "tcp://client:1"; fc_session_id := ""; fc_sync_data_status := false |}.

Definition demo_coord : CoordState :=
  set_nodes (initial_CoordState 1) {["10.0.0.1" := {| Coordinator.tp_ := 0; avail_executors_ := 2; functions_ := ∅ |}]}.

Definition demo_executor (ip : string) (x : Z) : ExecState := {|
  lib := new_UserLibrary ip x; name_func_map := ∅; memory := ∅ |}.

Lemma demo_ready : ready example_conf 2 "app" "f" demo_node.
Proof.
  split.
  - split; [|done|done]. intros tid Htid. exists no_client. split; [|by split].
    assert (tid = 0 ∨ tid = 1) as [-> | ->] by lia; done.
  - apply example_executors_ok.
  - intros x [s Hs]. cbn in Hs. apply lookup_insert_Some in Hs as [[<- _]|[_ Hs]]; [lia|].
    apply lookup_singleton_Some in Hs as [<- _]. lia.
  - done.
  - exists 1. right. by left.
Qed.

Lemma request_is_answered_witness :
  ∃ st' ip s tid call w w1 x chan msg c u sent w2,
    func_call_handler {| private_ip := "c"; thread_id := 0; io_thread_num := 2 |} default_config demo_coord demo_client_call
      = Ok (st', [{| send_to := get_func_exec_address ip tid; send_msg := MFunctionCall call |}]) ∧
    node_status_map demo_coord !! ip = Some s ∧ 2 ≤ avail_executors_ s ∧ ({["10.0.0.1" := demo_node]} : gmap string node) !! ip = Some w ∧
    receive_call example_conf 5 tid call w = Ok (w1, [{| send_to := chan; send_msg := MBytes msg |}], tt) ∧
    executor_chans_map (execs (w_env w)) !! x = Some chan ∧ eligible example_conf (execs (w_env w)) "f" x ∧
    ((∃ y, warm (execs (w_env w)) "f" y) → warm (execs (w_env w)) "f" x) ∧
    parse_call msg = Ok c ∧ cm_function c = "f" ∧ cm_session_id c = fc_session_id (with_session demo_client_call (seed demo_coord)).1 ∧
    arg_values c = Ok (Some [Bytes "1"; Bytes "2"]) ∧
    execute_call (λ _, true) (λ _ _, answer "b" "k" "42") x msg (demo_executor ip x) = Ok (u, sent, true) ∧
    receive_all example_conf 5 sent w1 = Ok (w2, [{| send_to := "tcp://client:1"; send_msg := MFunctionCallResponse {|
      fcr_app_name := "app"; fcr_request_id := ""; fcr_output := "42"; fcr_error_no := 0 |} |}], tt) ∧
    executor_status_map (execs (w_env w2)) = <[x := 1]> (executor_status_map (execs (w_env w))) ∧
    x ∈ at_default ∅ "f" (function_executor_map (execs (w_env w2))).
Proof.
  apply (request_is_answered {| private_ip := "c"; thread_id := 0; io_thread_num := 2 |} default_config example_conf 5 demo_coord
    {["10.0.0.1" := demo_node]} demo_executor (λ _, true) (λ _ _, answer "b" "k" "42") demo_client_call (demo_request_of ["1"; "2"])
    "b" "k" "42" "10.0.0.1" {| Coordinator.tp_ := 0; avail_executors_ := 2; functions_ := ∅ |}).
  - split; [reflexivity|]. repeat (apply Forall_cons; split; [cbn; lia|]). done.
  - done.
  - reflexivity.
  - cbn. lia.
  - evaluate.
  - by exists "2".
  - reflexivity.
  - intros [E _]. by apply E.
  - cbn. lia.
  - intros ip s Hs _. cbn in Hs. apply lookup_singleton_Some in Hs as [<- <-]. exists demo_node. split; [reflexivity|].
    split; [apply demo_ready|]. intros x [st Hs]. cbn in Hs. apply lookup_insert_Some in Hs as [[<- _]|[_ Hs]]; [reflexivity|].
    apply lookup_singleton_Some in Hs as [<- _]. reflexivity.
  - reflexivity.
  - reflexivity.
  - evaluate.
  - evaluate.
Defined.
