(* ===== verification/Manager.v ===== *)
(** * The manager ([manager_server.cpp])

    The manager knows the coordinators and assigns every application to one of them:
    [coord_sync] registers a coordinator, [coord_query] answers with the coordinator of
    an application, picked at random the first time it is asked for.  One iteration of
    the loop handles at most one message of each kind.  Sockets and log are not
    modelled; the answer is an output. *)

From S2P Require Import Prelude CppString Common Effects.

(** ** Data *)

Record CoordIp := {
  public_ip_ : string;
  private_ip_ : string;
  thread_id_ : Z }.

#[export] Instance CoordIp_eq_dec : EqDecision CoordIp.
Proof. solve_decision. Defined.

#[export] Instance CoordIp_countable : Countable CoordIp.
Proof.
  refine (inj_countable' (λ c, (public_ip_ c, private_ip_ c, thread_id_ c))
    (λ t, {| public_ip_ := t.1.1; private_ip_ := t.1.2; thread_id_ := t.2 |}) _). by intros [].
Defined.

(** The messages [CoordSync], [CoordQuery] and [CoordResponse]. *)
Record CoordSync := {
  cs_public_ip : string;
  cs_private_ip : string;
  cs_thread_id : Z }.

Record CoordQuery := {
  cq_request_id : string;
  cq_application : string }.

Record CoordResponse := {
  cr_request_id : string;
  cr_coord_ip : string;
  cr_thread_id : Z }.

Record Manager := {
  app_coord_map : gmap string (string * Z);
  coord_ips : gset CoordIp;
  seed : Z }.

Definition initial_Manager (time : Z) : Manager := {|
  app_coord_map := ∅; coord_ips := ∅; seed := time |}.

Abbreviation manager := (eff Manager CoordResponse).

Section manager.
Context `{UnorderedIter, Rand} (externalUser : bool).

(** ** Operations *)

Definition coord_sync (msg : CoordSync) : manager unit :=
  modify (λ m, {| app_coord_map := app_coord_map m;
    coord_ips := {[ {| public_ip_ := cs_public_ip msg; private_ip_ := cs_private_ip msg;
                       thread_id_ := cs_thread_id msg |} ]} ∪ coord_ips m;
    seed := seed m |}).

(** [rand_r(&seed) % coord_ips.size()]: without a coordinator the division is
    undefined. *)
Definition pick_coordinator : manager CoordIp :=
  m ← gets id;
  if decide (coord_ips m = ∅) then throw Undefined
  else
    modify (λ m, {| app_coord_map := app_coord_map m; coord_ips := coord_ips m; seed := (rand_r (seed m)).2 |});;
    lift (nth_iter (set_iter (coord_ips m)) ((rand_r (seed m)).1 `mod` Z.of_nat (size (coord_ips m)))).

Definition ip_to_send (c : CoordIp) : string := if externalUser then public_ip_ c else private_ip_ c.

Definition coord_query (query : CoordQuery) : manager unit :=
  let app_name := cq_application query in
  apps ← gets app_coord_map;
  (match apps !! app_name with
   | Some _ => mret tt
   | None =>
       coord_ip ← pick_coordinator;
       modify (λ m, {| app_coord_map := <[app_name := (ip_to_send coord_ip, thread_id_ coord_ip)]> (app_coord_map m);
                       coord_ips := coord_ips m; seed := seed m |})
   end);;
  apps ← gets app_coord_map;
  let coord := at_default ("", 0) app_name apps in
  emit {| cr_request_id := cq_request_id query; cr_coord_ip := coord.1; cr_thread_id := coord.2 |}.

Definition run_iteration (sync : option CoordSync) (query : option CoordQuery) : manager unit :=
  match sync with Some msg => coord_sync msg | None => mret tt end;;
  match query with Some query => coord_query query | None => mret tt end.

(** The messages of a run, one pair for every iteration. *)
Definition run (msgs : list (option CoordSync * option CoordQuery)) : manager unit :=
  for_each (λ p, run_iteration p.1 p.2) msgs.

(** ** Lemmas *)

(** Every assignment is a coordinator the manager has heard of. *)
Definition assigned_ok (m : Manager) : Prop :=
  ∀ app coord, app_coord_map m !! app = Some coord →
    ∃ c, c ∈ coord_ips m ∧ coord = (ip_to_send c, thread_id_ c).

(** Nothing is forgotten. *)
Record extends (m m' : Manager) : Prop := {
  ext_apps app coord : app_coord_map m !! app = Some coord → app_coord_map m' !! app = Some coord;
  ext_coords : coord_ips m ⊆ coord_ips m' }.

#[local] Instance extends_preorder : PreOrder extends.
Proof. split; [split; [done|set_solver]|intros ? ? ? [? ?] [? ?]; split; [eauto|set_solver]]. Qed.

Lemma coord_sync_spec msg m :
  assigned_ok m → wp (coord_sync msg) m (λ m' o _, o = [] ∧ assigned_ok m' ∧ extends m m' ∧ coord_ips m' ≠ ∅).
Proof.
  intros Hm. unfold coord_sync. eff_step. split_and!; [done| |split; [done|cbn; set_solver]|cbn; set_solver].
  intros app coord Hc. destruct (Hm app coord Hc) as (c & Hc1 & ->). exists c. split; [cbn; set_solver|done].
Qed.

Lemma pick_coordinator_spec m :
  coord_ips m ≠ ∅ →
  wp pick_coordinator m (λ m' o c, o = [] ∧ c ∈ coord_ips m ∧
    app_coord_map m' = app_coord_map m ∧ coord_ips m' = coord_ips m).
Proof.
  intros Hne. unfold pick_coordinator. do 2 eff_step. rewrite decide_False by done. do 2 eff_step.
  cbn [id]. set (r := (rand_r (seed m)).1).
  assert (0 < Z.of_nat (size (coord_ips m))) as Hs.
  { assert (size (coord_ips m) ≠ 0%nat); [|lia]. by rewrite size_non_empty_iff, leibniz_equiv_iff. }
  pose proof (Z.mod_pos_bound r _ Hs).
  destruct (lookup_lt_is_Some_2 (set_iter (coord_ips m)) (Z.to_nat (r `mod` Z.of_nat (size (coord_ips m))))) as [c Hc].
  { rewrite set_iter_length. lia. }
  eapply wp_lift; [by apply vec_at_Ok|]. split_and!; [done| |done|done].
  apply set_iter_elem. by eapply list_elem_of_lookup_2.
Qed.

Lemma coord_query_spec query m :
  assigned_ok m → coord_ips m ≠ ∅ →
  wp (coord_query query) m (λ m' o _, assigned_ok m' ∧ extends m m' ∧
    ∃ coord, app_coord_map m' !! cq_application query = Some coord ∧
      o = [{| cr_request_id := cq_request_id query; cr_coord_ip := coord.1; cr_thread_id := coord.2 |}]).
Proof.
  intros Hm Hne. unfold coord_query. do 2 eff_step.
  destruct (app_coord_map m !! cq_application query) as [coord|] eqn:Ha.
  - repeat eff_step. split_and!; [done|done|]. exists coord. unfold at_default. by rewrite Ha.
  - do 2 eff_step. eff_call pick_coordinator_spec; [done|]. intros m1 o1 c (-> & Hc & Happs & Hcoords).
    repeat eff_step. cbn. rewrite Happs, Hcoords, at_default_insert. split_and!.
    + intros app coord. cbn. intros Hl. apply lookup_insert_Some in Hl as [[_ <-]|[_ Hl]]; [by exists c|exact (Hm app coord Hl)].
    + split; cbn; [|done]. intros app coord Hl. rewrite lookup_insert_ne; [done|]. by intros <-; rewrite Ha in Hl.
    + eexists. split; [by rewrite lookup_insert_eq|done].
Qed.

Lemma run_iteration_spec sync query m :
  assigned_ok m → (query ≠ None → sync = None → coord_ips m ≠ ∅) →
  wp (run_iteration sync query) m (λ m' o _, assigned_ok m' ∧ extends m m' ∧
    match query with
    | Some q => ∃ coord, app_coord_map m' !! cq_application q = Some coord ∧
        o = [{| cr_request_id := cq_request_id q; cr_coord_ip := coord.1; cr_thread_id := coord.2 |}]
    | None => o = []
    end).
Proof.
  intros Hm Hne. unfold run_iteration. eff_step.
  assert (wp (match sync with Some msg => coord_sync msg | None => mret tt end) m
    (λ m' o _, o = [] ∧ assigned_ok m' ∧ extends m m' ∧ (query ≠ None → coord_ips m' ≠ ∅))) as Hsync.
  { destruct sync as [msg|]; [|eff_step; split_and!; [done|done|done|by intros; apply Hne]].
    eapply wp_mono; [by apply coord_sync_spec|]. cbn. naive_solver. }
  eapply wp_mono; [exact Hsync|]. cbn. intros m1 o1 _ (-> & Hm1 & Hext & Hne1).
  destruct query as [q|]; [|by eff_step].
  eapply wp_mono; [apply coord_query_spec; [done|by apply Hne1]|]. cbn.
  intros m2 o2 _ (Hm2 & Hext2 & Ho). split_and!; [done|by etrans|done].
Qed.

(** The answers to the queries of a run, as the assignments of a state give them. *)
Definition answers (m : Manager) (msgs : list (option CoordSync * option CoordQuery)) : list CoordResponse :=
  omap (λ p, q ← p.2; coord ← app_coord_map m !! cq_application q;
    Some {| cr_request_id := cq_request_id q; cr_coord_ip := coord.1; cr_thread_id := coord.2 |}) msgs.

(** The applications that a run asks about. *)
Definition asked (msgs : list (option CoordSync * option CoordQuery)) (m : Manager) : Prop :=
  Forall (λ p, match p.2 with Some q => is_Some (app_coord_map m !! cq_application q) | None => True end) msgs.

Lemma answers_extends m m' msgs : extends m m' → asked msgs m → answers m' msgs = answers m msgs.
Proof.
  intros Hext. induction 1 as [|[sync [q|]] msgs Hq Hmsgs IH]; [done| |exact IH]. unfold answers in *. cbn in *.
  destruct Hq as [coord Hq]. rewrite Hq, (ext_apps _ _ Hext _ _ Hq). cbn. by rewrite IH.
Qed.

Lemma asked_extends m m' msgs : extends m m' → asked msgs m → asked msgs m'.
Proof.
  intros Hext. intros Hm. eapply Forall_impl; [exact Hm|]. intros [sync [q|]]; [|done]. intros [coord Hq].
  exists coord. by apply (ext_apps _ _ Hext).
Qed.

(** ** Properties *)

(** Before the first coordinator has registered, a query divides by zero. *)
Lemma early_query_undefined query m :
  coord_ips m = ∅ → app_coord_map m !! cq_application query = None → coord_query query m = Throw Undefined.
Proof.
  intros Hips Happ. unfold coord_query, pick_coordinator, mbind, eff_bind, gets, id. cbn. rewrite Happ. cbn.
  by rewrite decide_True.
Qed.

(** C35: once a coordinator has registered ([early_query_undefined]), the manager answers
    every query, in order, and every application keeps the coordinator it was first given:
    all the answers of a run are those of the assignments at its end, and every assignment
    is a coordinator that has registered. *)
Theorem assignments_stable msgs m :
  assigned_ok m → coord_ips m ≠ ∅ →
  ∃ m', run msgs m = Ok (m', answers m' msgs, tt) ∧ asked msgs m' ∧ extends m m' ∧ assigned_ok m'.
Proof.
  intros Hm Hne.
  assert (wp (run msgs) m (λ m' o _, o = answers m' msgs ∧ asked msgs m' ∧ extends m m' ∧ assigned_ok m')) as Hwp.
  { unfold run. apply (wp_for_each (λ pre m' o, o = answers m' pre ∧ asked pre m' ∧ extends m m' ∧ assigned_ok m')).
    - split_and!; [done|by constructor|done|done].
    - intros pre [sync query] m1 o1 _ (-> & Hasked & Hext & Hm1). cbn [fst snd].
      eapply wp_mono; [apply run_iteration_spec; [done|]|].
      + intros _ _. pose proof (ext_coords _ _ Hext). set_solver.
      + cbn. intros m2 o2 _ (Hm2 & Hext2 & Ho).
        assert (answers m2 [(sync, query)] = o2 ∧ asked [(sync, query)] m2) as [Ha Hq].
        { destruct query as [q|]; [|subst; split; [done|by repeat constructor]].
          destruct Ho as (coord & Hl & ->). unfold answers, asked. cbn. rewrite Hl. split; [done|].
          constructor; [by exists coord|constructor]. }
        split_and!; [|apply Forall_app; split; [by eapply asked_extends|done]|by etrans|done].
        unfold answers in *. rewrite omap_app. f_equal; [|done]. symmetry. by apply answers_extends. }
  apply wp_Ok in Hwp as (m' & o & [] & E & -> & ?). by exists m'.
Qed.

End manager.

#[local] Existing Instances sorted_iter lcg_rand.

Definition example_manager : Manager := {|
  app_coord_map := ∅; coord_ips := {[ {| public_ip_ := "1.2.3.4"; private_ip_ := "10.0.0.9"; thread_id_ := 0 |} ]};
  seed := 1 |}.

Lemma assignments_stable_witness :
  let msgs := [(None, Some {| cq_request_id := "r1"; cq_application := "app" |});
               (Some {| cs_public_ip := "1.2.3.5"; cs_private_ip := "10.0.0.8"; cs_thread_id := 0 |}, None);
               (None, Some {| cq_request_id := "r2"; cq_application := "app" |})] in
  ∃ m', run false msgs example_manager = Ok (m', answers m' msgs, tt) ∧ asked msgs m' ∧
    extends example_manager m' ∧ assigned_ok false m'.
Proof.
  intros msgs. apply assignments_stable; [intros ? ?; cbn; by rewrite lookup_empty|]. unfold example_manager. cbn. set_solver.
Defined.
