(* ===== verification/Interleaving.v ===== *)
(** * Interleavings

    Threads that share a state: a configuration is the shared state and the program
    counter of every thread; a step is one atomic operation of one thread, executed in
    the order the scheduler chooses (sequential consistency).  [next] is the code of a
    thread; its first argument is the choice of the environment, such as the operation
    an idle thread calls or a compare-and-exchange that fails spuriously. *)

From S2P Require Import Prelude.
From stdpp Require Import relations.
#[local] Open Scope Z_scope.

Section interleaving.
Context {S PC C : Type} (next : C → PC → S → PC * S).

Record config := { shared : S; pcs : gmap nat PC }.

Inductive step (k : config) : config → Prop :=
| step_thread t pc c :
    pcs k !! t = Some pc →
    step k {| shared := (next c pc (shared k)).2; pcs := <[t := (next c pc (shared k)).1]> (pcs k) |}.

Definition reachable (init k : config) : Prop := rtc step init k.

(** All threads are at the same program counter. *)
Definition all_at (pc : PC) (k : config) : Prop := map_Forall (λ _ pc', pc' = pc) (pcs k).

(** Steps of one thread. *)
Definition run_thread (cs : list C) (pc : PC) (s : S) : PC * S :=
  foldl (λ x c, next c x.1 x.2) (pc, s) cs.

Lemma run_thread_reachable t cs pc s m :
  m !! t = Some pc →
  reachable {| shared := s; pcs := m |}
    {| shared := (run_thread cs pc s).2; pcs := <[t := (run_thread cs pc s).1]> m |}.
Proof.
  unfold reachable. revert pc s m. induction cs as [|c cs IH]; intros pc s m Hm.
  - cbn. rewrite insert_id by done. apply rtc_refl.
  - eapply rtc_l; [by apply (step_thread {| shared := s; pcs := m |} t pc c)|]. cbn [shared pcs].
    etrans; [apply IH, lookup_insert_eq|].
    rewrite insert_insert_eq. unfold run_thread. cbn [foldl fst snd]. destruct (next c pc s). reflexivity.
Qed.

Lemma run_reachable t cs pc s m x :
  m !! t = Some pc → run_thread cs pc s = x →
  reachable {| shared := s; pcs := m |} {| shared := x.2; pcs := <[t := x.1]> m |}.
Proof. intros Hm <-. by apply run_thread_reachable. Qed.

(** The steps of a schedule: which thread moves, with which choice. *)
Definition run_schedule (l : list (nat * C)) (k : config) : config :=
  foldl (λ k x, match pcs k !! x.1 with
                | Some pc => {| shared := (next x.2 pc (shared k)).2; pcs := <[x.1 := (next x.2 pc (shared k)).1]> (pcs k) |}
                | None => k
                end) k l.

Lemma run_schedule_reachable l k : reachable k (run_schedule l k).
Proof.
  unfold reachable, run_schedule. revert k. induction l as [|[t c] l IH]; intros k; [apply rtc_refl|].
  cbn [foldl fst snd]. destruct (pcs k !! t) as [pc|] eqn:E; [|apply IH].
  eapply rtc_l; [by apply (step_thread k t pc c)|apply IH].
Qed.

(** An invariant that every step of every thread keeps. *)
Lemma reachable_invariant (I : config → Prop) init :
  I init →
  (∀ s m t pc c, I {| shared := s; pcs := m |} → m !! t = Some pc →
     I {| shared := (next c pc s).2; pcs := <[t := (next c pc s).1]> m |}) →
  ∀ k, reachable init k → I k.
Proof.
  intros Hinit Hstep k Hr. unfold reachable in Hr. revert Hinit.
  induction Hr as [|k1 k2 k3 H12 H23 IH]; intros Hk; [done|]. apply IH.
  destruct H12 as [t pc c Hpc]. destruct k1 as [s m]. by apply (Hstep s m t pc c).
Qed.

End interleaving.

Arguments config : clear implicits.

(** ** Counting threads *)

Section count.
Context {PC : Type} (P : PC → bool).

Definition count (m : gmap nat PC) : Z := msum (λ _ pc, Z.b2z (P pc)) m.

Lemma count_update m t pc pc' :
  m !! t = Some pc → count (<[t := pc']> m) = count m - Z.b2z (P pc) + Z.b2z (P pc').
Proof. intros Hm. unfold count. by rewrite (msum_update _ t pc). Qed.

Lemma count_bounds m : 0 ≤ count m ≤ Z.of_nat (size m).
Proof.
  induction m as [|t pc m Hm IH] using map_ind; [by rewrite map_size_empty; unfold count; rewrite msum_empty|].
  unfold count in *. rewrite msum_insert, map_size_insert_None by done. destruct (P pc); cbn; lia.
Qed.

Lemma count_delete m t pc : m !! t = Some pc → count m = Z.b2z (P pc) + count (delete t m).
Proof. intros Hm. unfold count. by rewrite (msum_delete _ t pc). Qed.

Lemma count_one m t pc : m !! t = Some pc → P pc = true → 1 ≤ count m.
Proof. intros Hm HP. rewrite (count_delete m t pc Hm), HP. pose proof (count_bounds (delete t m)). cbn. lia. Qed.

Lemma count_two m t t' pc pc' :
  t ≠ t' → m !! t = Some pc → m !! t' = Some pc' → P pc = true → P pc' = true → 2 ≤ count m.
Proof.
  intros Hne Hm Hm' HP HP'. rewrite (count_delete m t pc Hm), HP.
  assert (1 ≤ count (delete t m)); [|cbn; lia]. apply (count_one _ t' pc'); [by rewrite lookup_delete_ne|done].
Qed.

Lemma count_pos m : 0 < count m → ∃ t pc, m !! t = Some pc ∧ P pc = true.
Proof.
  intros Hpos. apply msum_pos in Hpos as (t & pc & Hm & HP). exists t, pc. split; [done|].
  by destruct (P pc).
Qed.

Lemma count_none m : map_Forall (λ _ pc, P pc = false) m → count m = 0.
Proof.
  intros Hm. pose proof (count_bounds m). assert (¬ 0 < count m); [|lia].
  intros (t & pc & Ht & HP)%count_pos. by rewrite (Hm t pc Ht) in HP.
Qed.

End count.

Lemma count_mono {PC} (P Q : PC → bool) m : (∀ pc, P pc = true → Q pc = true) → count P m ≤ count Q m.
Proof.
  intros HPQ. induction m as [|t pc m Hm IH] using map_ind; [done|].
  unfold count in *. rewrite !msum_insert by done. specialize (HPQ pc). destruct (P pc), (Q pc); cbn; try lia.
Qed.

Lemma count_ext {PC} (P Q : PC → bool) m : (∀ t pc, m !! t = Some pc → P pc = Q pc) → count P m = count Q m.
Proof.
  intros HPQ. induction m as [|t pc m Hm IH] using map_ind; [done|].
  unfold count in *. rewrite !msum_insert by done. rewrite (HPQ t pc) by apply lookup_insert_eq. f_equal.
  apply IH. intros t' pc' Ht'. apply (HPQ t'). rewrite lookup_insert_ne; [done|]. intros ->. by rewrite Hm in Ht'.
Qed.
