(* ===== verification/IoThreads.v ===== *)
(** * The threads of the communication helper ([safe_ptr.hpp], [comm_helper.hpp],
    [scheduler_server.cpp])

    The main thread of the scheduler hands messages to the additional I/O threads through
    [secondary_thread_msg_queues] and takes their results from [resp_queues]; all of them use
    [key_address_cache_].  Each queue, and the map, is behind an [sf::safe_ptr], whose [->]
    holds a recursive mutex until the end of the full expression.  [CommHelper] treats a call
    as one step; here the threads interleave: an access takes the mutex, loads the object,
    stores it and releases the mutex, and an element of a vector is found through the buffer
    the vector has at that time.

    [history] and [got] are logs: what was pushed to a queue, and what its consumer took.
    The values in a queue are a parameter, a [SecondaryThreadMsg] or a [RecvMsg]. *)

From S2P Require Import Prelude Interleaving.
From S2P Require Import CommHelper.
#[local] Open Scope nat_scope.

Section io_threads.
Context {V : Type}.

(** ** Data *)

(** [std::recursive_mutex]. *)
Record mutex := { owner : option nat; depth : nat }.

Definition free_mutex : mutex := {| owner := None; depth := 0 |}.

Definition lock (t : nat) (m : mutex) : option mutex :=
  match owner m with
  | None => Some {| owner := Some t; depth := 1 |}
  | Some t' => if decide (t' = t) then Some {| owner := Some t; depth := S (depth m) |} else None
  end.

Definition unlock (m : mutex) : mutex :=
  if decide (depth m = 1) then free_mutex else {| owner := owner m; depth := depth m - 1 |}.

Record safe (T : Type) := { mtx : mutex; obj : T }.
#[global] Arguments mtx {_} _.
#[global] Arguments obj {_} _.

Definition with_mtx {T} (m : mutex) (p : safe T) : safe T := {| mtx := m; obj := obj p |}.
Definition with_obj {T} (x : T) (p : safe T) : safe T := {| mtx := mtx p; obj := x |}.

(** A vector of queues; [buf] tells the buffers it has had apart. *)
Record vect := { buf : nat; elems : list (safe (list V)); history : list (list V) }.

Inductive kind := Msgs | Resps.

#[global] Instance kind_eq_dec : EqDecision kind.
Proof. solve_decision. Defined.

Record io := {
  msgs : vect;                (* secondary_thread_msg_queues *)
  resps : vect;               (* resp_queues *)
  key_address_cache_ : safe (gmap string string);
  launched : nat }.           (* the I/O threads that run *)

Definition sel (k : kind) (s : io) : vect := match k with Msgs => msgs s | Resps => resps s end.
Definition upd (k : kind) (v : vect) (s : io) : io :=
  match k with
  | Msgs => {| msgs := v; resps := resps s; key_address_cache_ := key_address_cache_ s; launched := launched s |}
  | Resps => {| msgs := msgs s; resps := v; key_address_cache_ := key_address_cache_ s; launched := launched s |}
  end.
Definition set_cache (c : safe (gmap string string)) (s : io) : io :=
  {| msgs := msgs s; resps := resps s; key_address_cache_ := c; launched := launched s |}.
Definition set_launched (n : nat) (s : io) : io :=
  {| msgs := msgs s; resps := resps s; key_address_cache_ := key_address_cache_ s; launched := n |}.

Definition set_elem (k : kind) (i : nat) (q : safe (list V)) (s : io) : io :=
  upd k {| buf := buf (sel k s); elems := <[i := q]> (elems (sel k s)); history := history (sel k s) |} s.
Definition log_push (k : kind) (i : nat) (v : V) (s : io) : io :=
  upd k {| buf := buf (sel k s); elems := elems (sel k s); history := alter (λ h, h ++ [v]) i (history (sel k s)) |} s.

(** [push_back] of a new queue, which may move the vector to another buffer. *)
Definition push_back (k : kind) (moves : bool) (s : io) : io :=
  upd k {| buf := (if moves then S else id) (buf (sel k s));
           elems := elems (sel k s) ++ [{| mtx := free_mutex; obj := [] |}];
           history := history (sel k s) ++ [[]] |} s.

(** ** The code *)

(** The methods of a queue; [n]: how many values the loop around them has handled. *)
Inductive act := APush (v : V) | AEmpty (n : nat) | AFront (n : nat) | APop (n : nat).

(** The queue after the method; [front] and [pop] of an empty queue are undefined. *)
Definition method (a : act) (l : list V) : option (list V) :=
  match a, l with
  | APush v, _ => Some (l ++ [v])
  | AEmpty _, _ => Some l
  | AFront _, _ :: _ => Some l
  | APop _, _ :: l => Some l
  | _, [] => None
  end.

Definition writes (a : act) : bool := match a with APush _ | APop _ => true | _ => false end.

Inductive pc :=
| Start (n : nat) | StartResp (n : nat) | StartThread (n : nat)     (* main, n threads to go *)
| NotStarted
| Idle
| Fetch (k : kind) (i : nat) (a : act)                 (* vec[i]->a *)
| Deref (k : kind) (i : nat) (a : act) (b : nat)
| QLock (k : kind) (i : nat) (a : act)
| QLoad (k : kind) (i : nat) (a : act)
| QStore (k : kind) (i : nat) (a : act) (l : list V)
| QUnlock (k : kind) (i : nat) (a : act) (l : list V)
| Process (i : nat) (v : V) (n : nat)                  (* the message is handled *)
| FLock (key : string) | FFind (key : string)          (* get_key_address *)
| FLock2 (key : string) (b : bool) | FEnd (key : string) (b : bool)
| FUnlock2 (key : string) (b : bool) | FUnlock (key : string) (b : bool)
| ALock (key : string) | AAt (key : string) | AUnlock (a : string)
| ELock (key a : string) | ELoad (key a : string)      (* emplace *)
| EStore (key a : string) (m : gmap string string) | EUnlock
| CLock | CClear | CUnlock                             (* clear *)
| Undefined.

(** [role]: the [queue_idx] of an I/O thread; [addr]: the last result of
    [get_key_address]. *)
Record thread := {
  tid : nat;
  role : option nat;
  at_ : pc;
  got : gmap nat (list V);
  addr : string }.

Definition at_pc (p : pc) (th : thread) : thread :=
  {| tid := tid th; role := role th; at_ := p; got := got th; addr := addr th |}.
Definition got_of (th : thread) (i : nat) : list V := default [] (got th !! i).
Definition take_value (i : nat) (v : V) (th : thread) : thread :=
  {| tid := tid th; role := role th; at_ := at_ th; got := <[i := got_of th i ++ [v]]> (got th); addr := addr th |}.
Definition set_addr (a : string) (th : thread) : thread :=
  {| tid := tid th; role := role th; at_ := at_ th; got := got th; addr := a |}.

Inductive choice :=
| Go | Moves
| CallPush (i : nat) (v : V)
| CallLoop                       (* main: drain resp_queues; I/O thread: its messages *)
| CallGet (key : string) | CallEmplace (key a : string) | CallClear.

(** A call of an idle thread.  The main thread pushes to the queue of an I/O thread, an I/O
    thread to its own. *)
Definition idle_step (c : choice) (th : thread) (s : io) : thread :=
  match c with
  | CallPush i v =>
      match role th with
      | None => if decide (i < length (elems (msgs s))) then at_pc (Fetch Msgs i (APush v)) th else th
      | Some j => at_pc (Fetch Resps j (APush v)) th
      end
  | CallLoop =>
      match role th with
      | None => if decide (0 < length (elems (resps s))) then at_pc (Fetch Resps 0 (AEmpty 0)) th else th
      | Some j => at_pc (Fetch Msgs j (AEmpty 0)) th
      end
  | CallGet key => at_pc (FLock key) th
  | CallEmplace key a => at_pc (ELock key a) th
  | CallClear => at_pc CLock th
  | Go | Moves => th
  end.

(** What follows a method: [l] is the queue it has read. *)
Definition after_method (k : kind) (i : nat) (a : act) (l : list V) (th : thread) (s : io) : thread :=
  match a with
  | APush _ => at_pc Idle th
  | AEmpty n =>
      match k, l with
      | Msgs, [] => at_pc Idle th
      | Msgs, _ :: _ => at_pc (if decide (msg_process_batch ≤ n) then Idle else Fetch Msgs i (AFront n)) th
      | Resps, [] => at_pc (if decide (S i < length (elems (resps s))) then Fetch Resps (S i) (AEmpty 0) else Idle) th
      | Resps, _ :: _ => at_pc (Fetch Resps i (AFront n)) th
      end
  | AFront n =>
      match k, l with
      | _, [] => at_pc Undefined th
      | Msgs, v :: _ => at_pc (Process i v n) th
      | Resps, v :: _ => at_pc (Fetch Resps i (APop n)) (take_value i v th)
      end
  | APop n => at_pc (Fetch k i (AEmpty (S n))) th
  end.

(** [secondary_thread_msg_queues[i]->a]. *)
Definition queue_step (th : thread) (s : io) : thread * io :=
  match at_ th with
  | Fetch k i a => (at_pc (Deref k i a (buf (sel k s))) th, s)
  | Deref k i a b => (at_pc (if decide (b = buf (sel k s)) then QLock k i a else Undefined) th, s)
  | QLock k i a =>
      match elems (sel k s) !! i with
      | Some q =>
          match lock (tid th) (mtx q) with
          | Some m => (at_pc (QLoad k i a) th, set_elem k i (with_mtx m q) s)
          | None => (th, s)
          end
      | None => (at_pc Undefined th, s)
      end
  | QLoad k i a =>
      match elems (sel k s) !! i with
      | Some q =>
          (at_pc (match method a (obj q) with
                  | Some _ => if writes a then QStore k i a (obj q) else QUnlock k i a (obj q)
                  | None => Undefined
                  end) th, s)
      | None => (at_pc Undefined th, s)
      end
  | QStore k i a l =>
      match elems (sel k s) !! i, method a l with
      | Some q, Some l' =>
          (at_pc (QUnlock k i a l) th,
           let s := set_elem k i (with_obj l' q) s in match a with APush v => log_push k i v s | _ => s end)
      | _, _ => (at_pc Undefined th, s)
      end
  | QUnlock k i a l =>
      match elems (sel k s) !! i with
      | Some q => (after_method k i a l th s, set_elem k i (with_mtx (unlock (mtx q)) q) s)
      | None => (at_pc Undefined th, s)
      end
  | Process i v n => (at_pc (Fetch Msgs i (APop n)) (take_value i v th), s)
  | _ => (th, s)
  end.

(** [key_address_cache_]. *)
Definition cache_step (th : thread) (s : io) : thread * io :=
  let c := key_address_cache_ s in
  let locked (p : pc) := match lock (tid th) (mtx c) with
                         | Some m => (at_pc p th, set_cache (with_mtx m c) s)
                         | None => (th, s)
                         end in
  let unlocked (th : thread) := (th, set_cache (with_mtx (unlock (mtx c)) c) s) in
  match at_ th with
  | FLock key => locked (FFind key)
  | FFind key => (at_pc (FLock2 key (bool_decide (obj c !! key = None))) th, s)
  | FLock2 key b => locked (FEnd key b)
  | FEnd key b => (at_pc (FUnlock2 key b) th, s)
  | FUnlock2 key b => unlocked (at_pc (FUnlock key b) th)
  | FUnlock key b => unlocked (if b then set_addr "" (at_pc Idle th) else at_pc (ALock key) th)
  | ALock key => locked (AAt key)
  | AAt key => (at_pc (match obj c !! key with Some a => AUnlock a | None => Undefined end) th, s)
  | AUnlock a => unlocked (set_addr a (at_pc Idle th))
  | ELock key a => locked (ELoad key a)
  | ELoad key a => (at_pc (EStore key a (obj c)) th, s)
  | EStore key a m => (at_pc EUnlock th, set_cache (with_obj (match m !! key with Some _ => m | None => <[key := a]> m end) c) s)
  | EUnlock => unlocked (at_pc Idle th)
  | CLock => locked CClear
  | CClear => (at_pc CUnlock th, set_cache (with_obj ∅ c) s)
  | CUnlock => unlocked (at_pc Idle th)
  | _ => (th, s)
  end.

(** The main thread starts the others one by one. *)
Definition start_step (c : choice) (th : thread) (s : io) : thread * io :=
  let moves := match c with Moves => true | _ => false end in
  match at_ th with
  | Start (S n) => (at_pc (StartResp n) th, push_back Msgs moves s)
  | StartResp n => (at_pc (StartThread n) th, push_back Resps moves s)
  | StartThread n => (at_pc (Start n) th, set_launched (S (launched s)) s)
  | Start 0 => (at_pc Idle th, s)
  | NotStarted =>
      (match role th with Some j => if decide (j < launched s) then at_pc Idle th else th | None => th end, s)
  | _ => (th, s)
  end.

Definition next (c : choice) (th : thread) (s : io) : thread * io :=
  match at_ th with
  | Start _ | StartResp _ | StartThread _ | NotStarted => start_step c th s
  | Idle => (idle_step c th s, s)
  | Fetch _ _ _ | Deref _ _ _ _ | QLock _ _ _ | QLoad _ _ _ | QStore _ _ _ _ | QUnlock _ _ _ _ | Process _ _ _ => queue_step th s
  | Undefined => (th, s)
  | _ => cache_step th s
  end.

(** ** The invariant *)

(** The choices of the program once it runs: nothing clears the map of addresses. *)
Definition gentle (c : choice) : choice := match c with CallClear => Go | _ => c end.
Definition next_gentle (c : choice) : thread → io → thread * io := next (gentle c).

Inductive resource := Queue (k : kind) (i : nat) | Cache.

Definition mutex_at (s : io) (r : resource) : option mutex :=
  match r with
  | Queue k i => mtx <$> elems (sel k s) !! i
  | Cache => Some (mtx (key_address_cache_ s))
  end.

(** How often a thread holds a mutex. *)
Definition held (p : pc) (r : resource) : nat :=
  match r with
  | Queue k i =>
      match p with
      | QLoad k' i' _ | QStore k' i' _ _ | QUnlock k' i' _ _ => if decide (k' = k ∧ i' = i) then 1 else 0
      | _ => 0
      end
  | Cache =>
      match p with
      | FEnd _ _ | FUnlock2 _ _ => 2
      | FFind _ | FLock2 _ _ | FUnlock _ _ | AAt _ | AUnlock _ | ELoad _ _ | EStore _ _ _ | EUnlock | CClear | CUnlock => 1
      | _ => 0
      end
  end.

Definition mutex_ok (m : gmap nat thread) (r : resource) (mu : mutex) : Prop :=
  (depth mu = 0 ↔ owner mu = None) ∧
  ∀ t th, m !! t = Some th → held (at_ th) r = if decide (owner mu = Some t) then depth mu else 0.

(** Which thread calls which methods of a queue. *)
Definition call_ok (r : option nat) (k : kind) (i : nat) (a : act) : Prop :=
  match r, k, a with
  | None, Msgs, APush _ => True
  | Some j, Resps, APush _ => i = j
  | _, _, APush _ => False
  | None, Resps, _ => True
  | Some j, Msgs, _ => i = j
  | _, _, _ => False
  end.

Definition consumes (k : kind) (i : nat) (th : thread) : Prop :=
  match k with Msgs => role th = Some i | Resps => role th = None end.

Definition access_ok (s : io) (th : thread) (k : kind) (i : nat) (a : act) : Prop :=
  call_ok (role th) k i a ∧ i < length (elems (sel k s)).

Definition known (s : io) (key : string) : Prop := is_Some (obj (key_address_cache_ s) !! key).

Definition pc_ok (s : io) (th : thread) : Prop :=
  match at_ th with
  | Fetch k i a | QLock k i a | QLoad k i a => access_ok s th k i a
  | QUnlock k i a l => access_ok s th k i a ∧ is_Some (method a l)
  | Deref k i a b => access_ok s th k i a ∧ b = buf (sel k s)
  | QStore k i a l => (access_ok s th k i a ∧ writes a = true) ∧ is_Some (method a l) ∧ ∀ q, elems (sel k s) !! i = Some q → obj q = l
  | Process i v n => role th = Some i
  | FLock2 key b | FEnd key b | FUnlock2 key b | FUnlock key b => b = false → known s key
  | ALock key | AAt key => known s key
  | AUnlock a => ∃ key, obj (key_address_cache_ s) !! key = Some a
  | EStore key a m => obj (key_address_cache_ s) = m
  | Start _ | StartResp _ | StartThread _ | NotStarted | Undefined | CLock | CClear | CUnlock => False
  | _ => True
  end.

Record thread_ok (s : io) (th : thread) : Prop := {
  to_pc : pc_ok s th;
  to_role j : role th = Some j → j < length (elems (msgs s)) ∧ j < length (elems (resps s));
  to_addr : addr th = "" ∨ ∃ key, obj (key_address_cache_ s) !! key = Some (addr th) }.

(** What the consumer of a queue is about to do with it. *)
Inductive stage := Between | NonEmpty | Taken | Read (l : list V).

Definition stage_of (k : kind) (i : nat) (p : pc) : stage :=
  match p with
  | Fetch k' i' a | Deref k' i' a _ | QLock k' i' a | QLoad k' i' a | QStore k' i' a _ =>
      if decide (k' = k ∧ i' = i) then match a with AFront _ => NonEmpty | APop _ => Taken | _ => Between end else Between
  | QUnlock k' i' a l =>
      if decide (k' = k ∧ i' = i) then match a with AEmpty _ | AFront _ => Read l | _ => Between end else Between
  | Process i' v _ => if decide (Msgs = k ∧ i' = i) then Read [v] else Between
  | _ => Between
  end.

(** [g]: taken so far, [items]: in the queue, [h]: pushed so far. *)
Definition stage_ok (st : stage) (g items h : list V) : Prop :=
  match st with
  | Between => h = g ++ items
  | NonEmpty => h = g ++ items ∧ items ≠ []
  | Taken => h = g ++ tail items ∧ items ≠ []
  | Read l => h = g ++ items ∧ ∀ v l', l = v :: l' → head items = Some v
  end.

Definition queue_ok (s : io) (th : thread) : Prop :=
  ∀ k i q h, consumes k i th → elems (sel k s) !! i = Some q → history (sel k s) !! i = Some h →
    stage_ok (stage_of k i (at_ th)) (got_of th i) (obj q) h.

Record io_inv (k : config io thread) : Prop := {
  oi_mutex r mu : mutex_at (shared k) r = Some mu → mutex_ok (pcs k) r mu;
  oi_tid t th : pcs k !! t = Some th → tid th = t;
  oi_role t t' th th' : pcs k !! t = Some th → pcs k !! t' = Some th' → role th = role th' → t = t';
  oi_length kd : length (history (sel kd (shared k))) = length (elems (sel kd (shared k)));
  oi_thread t th : pcs k !! t = Some th → thread_ok (shared k) th;
  oi_queue t th : pcs k !! t = Some th → queue_ok (shared k) th }.

(** ** Lemmas *)

(** *** Mutexes *)

Lemma exclusive m r mu t t' th th' :
  mutex_ok m r mu → m !! t = Some th → m !! t' = Some th' → held (at_ th) r ≠ 0 → held (at_ th') r ≠ 0 → t = t'.
Proof.
  intros [_ Hm] Ht Ht'. rewrite (Hm t th Ht), (Hm t' th' Ht'). intros H1 H2.
  destruct (decide (owner mu = Some t)) as [E|], (decide (owner mu = Some t')) as [E'|]; congruence.
Qed.

Lemma mutex_same m r mu t th th' :
  mutex_ok m r mu → m !! t = Some th → held (at_ th') r = held (at_ th) r → mutex_ok (<[t := th']> m) r mu.
Proof.
  intros [Hd Hm] Ht E. split; [done|]. intros t1 th1 H1. apply lookup_insert_Some in H1 as [[<- <-]|[_ H1]]; [|by apply Hm].
  rewrite E. by apply Hm.
Qed.

Lemma mutex_lock m r mu mu' t th th' :
  mutex_ok m r mu → m !! t = Some th → lock t mu = Some mu' → held (at_ th') r = S (held (at_ th) r) →
  mutex_ok (<[t := th']> m) r mu'.
Proof.
  intros [Hd Hm] Ht Hl E. unfold lock in Hl. destruct (owner mu) as [t0|] eqn:Ho.
  - destruct (decide (t0 = t)) as [->|]; [|done]. injection Hl as <-. split; [done|]. cbn. intros t1 th1 H1.
    apply lookup_insert_Some in H1 as [[<- <-]|[Hne H1]].
    + rewrite E, (Hm _ _ Ht), !decide_True by congruence. done.
    + rewrite (Hm _ _ H1), !decide_False by congruence. done.
  - injection Hl as <-. split; [done|]. cbn. intros t1 th1 H1. apply lookup_insert_Some in H1 as [[<- <-]|[Hne H1]].
    + rewrite E, (Hm _ _ Ht), decide_False, decide_True by congruence. done.
    + rewrite (Hm _ _ H1), !decide_False by congruence. done.
Qed.

Lemma mutex_unlock m r mu t th th' :
  mutex_ok m r mu → m !! t = Some th → held (at_ th) r = S (held (at_ th') r) → mutex_ok (<[t := th']> m) r (unlock mu).
Proof.
  intros [Hd Hm] Ht E. pose proof (Hm t th Ht) as Hh. rewrite E in Hh.
  destruct (decide (owner mu = Some t)) as [Ho|]; [|lia]. unfold unlock. destruct (decide (depth mu = 1)) as [H1|H1]; cbn.
  - split; [done|]. intros t1 th1 Ht1. cbn. apply lookup_insert_Some in Ht1 as [[<- <-]|[Hne Ht1]]; [rewrite decide_False by done; lia|].
    rewrite (Hm _ _ Ht1), !decide_False by congruence. done.
  - split; [cbn; rewrite Ho; split; [lia|done]|]. intros t1 th1 Ht1. cbn. apply lookup_insert_Some in Ht1 as [[<- <-]|[Hne Ht1]].
    + rewrite decide_True by done. lia.
    + rewrite (Hm _ _ Ht1), !decide_False by congruence. done.
Qed.

(** *** Shared states *)

(** The queues, their logs and the map are the same; mutexes may differ. *)
Record same_data (s s' : io) : Prop := {
  sd_obj k i : obj <$> elems (sel k s') !! i = obj <$> elems (sel k s) !! i;
  sd_length k : length (elems (sel k s')) = length (elems (sel k s));
  sd_history k : history (sel k s') = history (sel k s);
  sd_buf k : buf (sel k s') = buf (sel k s);
  sd_cache : obj (key_address_cache_ s') = obj (key_address_cache_ s) }.

Lemma same_data_refl s : same_data s s.
Proof. by split. Qed.

Lemma sel_upd k v s k' : sel k' (upd k v s) = if decide (k = k') then v else sel k' s.
Proof. by destruct k, k'. Qed.

Lemma cache_upd k v s : key_address_cache_ (upd k v s) = key_address_cache_ s.
Proof. by destruct k. Qed.

Lemma elems_set_elem k i q s k' :
  elems (sel k' (set_elem k i q s)) = if decide (k = k') then <[i := q]> (elems (sel k' s)) else elems (sel k' s).
Proof. unfold set_elem. rewrite sel_upd. by destruct (decide (k = k')) as [->|]. Qed.

Lemma same_data_mutex k i q m s : elems (sel k s) !! i = Some q → same_data s (set_elem k i (with_mtx m q) s).
Proof.
  intros Hq. split; try (intros k'; unfold set_elem; rewrite sel_upd; by destruct (decide (k = k')) as [->|]).
  - intros k' i'. rewrite elems_set_elem. destruct (decide (k = k')) as [<-|]; [|done].
    destruct (decide (i = i')) as [<-|]; [|by rewrite list_lookup_insert_ne].
    rewrite list_lookup_insert_eq by (by apply lookup_lt_Some in Hq). by rewrite Hq.
  - intros k'. rewrite elems_set_elem. destruct (decide (k = k')); [by rewrite length_insert|done].
  - unfold set_elem. by rewrite cache_upd.
Qed.

Lemma same_data_cache m s : same_data s (set_cache (with_mtx m (key_address_cache_ s)) s).
Proof. split; try done; intros k; by destruct k. Qed.

Lemma pc_ok_same s s' th : same_data s s' → pc_ok s th → pc_ok s' th.
Proof.
  intros [Ho Hl Hh Hb Hc]. unfold pc_ok, access_ok, known. destruct (at_ th); rewrite ?Hl, ?Hb, ?Hc; try done.
  intros (Ha & Hm & Hq). split; [done|]. split; [done|]. intros q' Hq'. specialize (Ho k i). rewrite Hq' in Ho.
  destruct (elems (sel k s) !! i) as [q|]; [|done]. injection Ho as ->. by apply Hq.
Qed.

Lemma thread_ok_same s s' th : same_data s s' → thread_ok s th → thread_ok s' th.
Proof.
  intros Hs [Hp Hr Ha]. split; [by eapply pc_ok_same|..].
  - intros j Hj. pose proof (sd_length _ _ Hs Msgs). pose proof (sd_length _ _ Hs Resps). specialize (Hr j Hj). cbn in *. lia.
  - by rewrite (sd_cache _ _ Hs).
Qed.

Lemma queue_ok_same s s' th : same_data s s' → queue_ok s th → queue_ok s' th.
Proof.
  intros [Ho Hl Hh Hb Hc] Hq k i q' h Hcons Hq' Hh'. specialize (Ho k i). rewrite Hq' in Ho.
  destruct (elems (sel k s) !! i) as [q|] eqn:E; [|done]. injection Ho as ->. rewrite Hh in Hh'. by apply (Hq k i q h).
Qed.

(** A step that changes at most a mutex. *)
Lemma inv_data s m t th s' th' :
  io_inv {| shared := s; pcs := m |} → m !! t = Some th → same_data s s' → tid th' = tid th → role th' = role th →
  thread_ok s th' → queue_ok s th' →
  (∀ r mu', mutex_at s' r = Some mu' → mutex_ok (<[t := th']> m) r mu') →
  io_inv {| shared := s'; pcs := <[t := th']> m |}.
Proof.
  intros [HM HI HR HL HT HQ] Ht Hs Htid Hrole Hth Hqu Hmu. cbn [shared pcs] in *. split; cbn [shared pcs].
  - done.
  - intros t1 th1 H1. apply lookup_insert_Some in H1 as [[<- <-]|[_ H1]]; [rewrite Htid|]; by apply HI.
  - intros t1 t2 th1 th2 H1 H2. apply lookup_insert_Some in H1 as [[<- <-]|[_ H1]]; apply lookup_insert_Some in H2 as [[<- <-]|[_ H2]];
      rewrite ?Hrole; [done|by apply HR|by apply HR|by apply HR].
  - intros kd. rewrite (sd_history _ _ Hs), (sd_length _ _ Hs). apply HL.
  - intros t1 th1 H1. apply (thread_ok_same s); [done|]. apply lookup_insert_Some in H1 as [[<- <-]|[_ H1]]; [done|by eapply HT].
  - intros t1 th1 H1. apply (queue_ok_same s); [done|]. apply lookup_insert_Some in H1 as [[<- <-]|[_ H1]]; [done|by eapply HQ].
Qed.

Lemma io_local s m t th th' :
  io_inv {| shared := s; pcs := m |} → m !! t = Some th → tid th' = tid th → role th' = role th →
  thread_ok s th' → queue_ok s th' → (∀ r, held (at_ th') r = held (at_ th) r) →
  io_inv {| shared := s; pcs := <[t := th']> m |}.
Proof.
  intros Hinv Ht Htid Hrole Hth Hq Hh. apply (inv_data s m t th s th'); [done|done|apply same_data_refl|done|done|done|done|]. intros r mu Hmu.
  eapply mutex_same; [by apply (oi_mutex _ Hinv)|done|apply Hh].
Qed.

(** The mutexes after that of [r] has changed. *)
Lemma mutexes_queue k i q mu s m t th th' :
  io_inv {| shared := s; pcs := m |} → m !! t = Some th → elems (sel k s) !! i = Some q →
  mutex_ok (<[t := th']> m) (Queue k i) mu → (∀ r, r ≠ Queue k i → held (at_ th') r = held (at_ th) r) →
  ∀ r mu', mutex_at (set_elem k i (with_mtx mu q) s) r = Some mu' → mutex_ok (<[t := th']> m) r mu'.
Proof.
  intros Hinv Ht Hq Hmu Hh [k' i'|] mu' Hmu'.
  - cbn in Hmu'. rewrite elems_set_elem in Hmu'. destruct (decide (k = k' ∧ i = i')) as [[<- <-]|Hne].
    + rewrite decide_True, list_lookup_insert_eq in Hmu' by (done || by apply lookup_lt_Some in Hq). cbn in Hmu'. by injection Hmu' as <-.
    + assert (mtx <$> elems (sel k' s) !! i' = Some mu') as Hmu0.
      { destruct (decide (k = k')) as [<-|]; [|done]. rewrite list_lookup_insert_ne in Hmu' by naive_solver. done. }
      eapply mutex_same; [by apply (oi_mutex _ Hinv (Queue k' i'))|done|]. apply Hh. intros [=]; subst. by apply Hne.
  - cbn in Hmu'. unfold set_elem in Hmu'. rewrite cache_upd in Hmu'. eapply mutex_same; [by apply (oi_mutex _ Hinv Cache)|done|by apply Hh].
Qed.

Lemma mutexes_cache mu s m t th th' :
  io_inv {| shared := s; pcs := m |} → m !! t = Some th →
  mutex_ok (<[t := th']> m) Cache mu → (∀ r, r ≠ Cache → held (at_ th') r = held (at_ th) r) →
  ∀ r mu', mutex_at (set_cache (with_mtx mu (key_address_cache_ s)) s) r = Some mu' → mutex_ok (<[t := th']> m) r mu'.
Proof.
  intros Hinv Ht Hmu Hh [k' i'|] mu' Hmu'; cbn in Hmu'; [|by injection Hmu' as <-].
  eapply mutex_same; [apply (oi_mutex _ Hinv (Queue k' i')); by destruct k'|done|by apply Hh].
Qed.

(** *** Consumers *)

Lemma consumer_of r k i a th : call_ok r k i a → r = role th → match a with APush _ => False | _ => True end → consumes k i th.
Proof. intros Hc -> Ha. unfold consumes. by destruct a, k, (role th); cbn in Hc; subst. Qed.

Lemma queue_ok_move s th th' k0 i0 :
  queue_ok s th → role th' = role th →
  (∀ k i, consumes k i th → (k, i) ≠ (k0, i0) → stage_of k i (at_ th') = stage_of k i (at_ th) ∧ got_of th' i = got_of th i) →
  (∀ items h, consumes k0 i0 th → stage_ok (stage_of k0 i0 (at_ th)) (got_of th i0) items h →
     (∀ q, elems (sel k0 s) !! i0 = Some q → items = obj q) →
     stage_ok (stage_of k0 i0 (at_ th')) (got_of th' i0) items h) →
  queue_ok s th'.
Proof.
  intros Hq Hr Hother Hthis k i q h Hc Hel Hh. assert (consumes k i th) as Hc' by (unfold consumes in *; by rewrite <- Hr).
  destruct (decide ((k, i) = (k0, i0))) as [[= -> ->]|Hne].
  - apply Hthis; [done|by eapply Hq|]. intros q' Hq'. congruence.
  - destruct (Hother k i Hc' Hne) as [-> ->]. by eapply Hq.
Qed.

(** A step that is the same to every queue. *)
Lemma queue_ok_keep s th th' :
  queue_ok s th → role th' = role th → got th' = got th →
  (∀ k i, consumes k i th → stage_of k i (at_ th') = stage_of k i (at_ th)) → queue_ok s th'.
Proof.
  intros Hq Hr Hg Hst. apply (queue_ok_move s th th' Msgs 0 Hq Hr).
  - intros k i Hc _. split; [by apply Hst|]. unfold got_of. by rewrite Hg.
  - intros items h Hc Ho _. rewrite (Hst _ _ Hc). unfold got_of. by rewrite Hg.
Qed.

Lemma thread_ok_pc s th th' : thread_ok s th → role th' = role th → addr th' = addr th → pc_ok s th' → thread_ok s th'.
Proof. intros [_ Hr Ha] E1 E2 Hp. split; [done|by rewrite E1|by rewrite E2]. Qed.

Ltac use_thread Hinv Ht th :=
  pose proof (oi_thread _ Hinv _ _ Ht) as Hth; pose proof (oi_queue _ Hinv _ _ Ht) as Hqueue;
  pose proof (oi_tid _ Hinv _ _ Ht) as Htid; pose proof (to_pc _ _ Hth) as Hpc; cbn [shared pcs] in *.

(** Between calls. *)
Lemma idle_good s m t th c :
  io_inv {| shared := s; pcs := m |} → m !! t = Some th → at_ th = Idle →
  io_inv {| shared := (next_gentle c th s).2; pcs := <[t := (next_gentle c th s).1]> m |}.
Proof.
  intros Hinv Ht Hidle. use_thread Hinv Ht th. unfold next_gentle, next. rewrite Hidle. cbn [fst snd].
  assert (∀ p, (∀ r, held p r = 0) → (∀ k i, consumes k i th → stage_of k i p = Between) → pc_ok s (at_pc p th) →
    io_inv {| shared := s; pcs := <[t := at_pc p th]> m |}) as Hgo.
  { intros p Hh Hst Hok. apply (io_local s m t th); [done|done|done|done|by eapply thread_ok_pc| |].
    - apply (queue_ok_keep s th); [done|done|done|]. intros k i Hc. rewrite Hidle. by apply Hst.
    - intros r. rewrite Hidle. cbn [at_pc at_]. rewrite Hh. by destruct r. }
  assert (io_inv {| shared := s; pcs := <[t := th]> m |}) as Hstay by (by rewrite insert_id).
  unfold idle_step. destruct c as [| |i v| |key|key a|]; cbn [gentle].
  - done.
  - done.
  - destruct (role th) as [j|] eqn:Er.
    + apply Hgo; [by intros []| |].
      * intros k i' Hc. cbn. by destruct (decide _).
      * destruct (to_role _ _ Hth j Er). cbn. unfold access_ok. cbn. rewrite Er. done.
    + destruct (decide _); [|done]. apply Hgo; [by intros []| |].
      * intros k i' Hc. cbn. by destruct (decide _).
      * cbn. unfold access_ok. cbn. by rewrite Er.
  - destruct (role th) as [j|] eqn:Er.
    + apply Hgo; [by intros []| |].
      * intros k i' Hc. cbn. by destruct (decide _).
      * destruct (to_role _ _ Hth j Er). cbn. unfold access_ok. cbn. rewrite Er. done.
    + destruct (decide _); [|done]. apply Hgo; [by intros []| |].
      * intros k i' Hc. cbn. by destruct (decide _).
      * cbn. unfold access_ok. cbn. by rewrite Er.
  - apply Hgo; [by intros []|done|done].
  - apply Hgo; [by intros []|done|done].
  - done.
Qed.

(** Finding the element and taking its mutex. *)
Lemma reach_good s m t th c :
  io_inv {| shared := s; pcs := m |} → m !! t = Some th →
  match at_ th with Fetch _ _ _ | Deref _ _ _ _ | QLock _ _ _ => True | _ => False end →
  io_inv {| shared := (next_gentle c th s).2; pcs := <[t := (next_gentle c th s).1]> m |}.
Proof.
  intros Hinv Ht Hp. use_thread Hinv Ht th. unfold next_gentle, next, queue_step.
  destruct (at_ th) as [| | | | |k i a|k i a b|k i a| | | | | | | | | | | | | | | | | | | | |] eqn:E; try done; unfold pc_ok in Hpc; rewrite E in Hpc.
  - apply (io_local s m t th); [done|done|done|done| | |].
    + eapply thread_ok_pc; [done..|]. cbn. by destruct Hpc.
    + apply (queue_ok_keep s th); [done..|]. intros k' i' _. by rewrite E.
    + intros r. rewrite E. by destruct r.
  - destruct Hpc as [Hacc ->]. rewrite decide_True by done. cbn [fst snd].
    apply (io_local s m t th); [done|done|done|done| | |].
    + eapply thread_ok_pc; [done..|]. by cbn.
    + apply (queue_ok_keep s th); [done..|]. intros k' i' _. by rewrite E.
    + intros r. rewrite E. by destruct r.
  - destruct Hpc as [Hcall Hlt]. destruct (elems (sel k s) !! i) as [q|] eqn:Eq; [|apply lookup_ge_None in Eq; lia].
    destruct (lock (tid th) (mtx q)) as [mu|] eqn:El; cbn [fst snd]; [|by rewrite insert_id].
    apply (inv_data s m t th); [done|done|by apply same_data_mutex|done|done| | |].
    + eapply thread_ok_pc; [done..|]. by cbn.
    + apply (queue_ok_keep s th); [done..|]. intros k' i' _. by rewrite E.
    + apply (mutexes_queue k i q mu s m t th); [done..| |].
      * eapply mutex_lock; [|done|rewrite <- Htid; exact El|].
        -- apply (oi_mutex _ Hinv (Queue k i)). cbn. by rewrite Eq.
        -- rewrite E. cbn. by rewrite decide_True.
      * intros [k' i'|] Hne; rewrite E; cbn; [|done]. rewrite decide_False; [done|]. intros [-> ->]. done.
Qed.

(** Loading the queue. *)
Lemma load_good s m t th c k i a :
  io_inv {| shared := s; pcs := m |} → m !! t = Some th → at_ th = QLoad k i a →
  io_inv {| shared := (next_gentle c th s).2; pcs := <[t := (next_gentle c th s).1]> m |}.
Proof.
  intros Hinv Ht E. use_thread Hinv Ht th. unfold next_gentle, next, queue_step. rewrite E.
  unfold pc_ok in Hpc. rewrite E in Hpc. destruct Hpc as [Hcall Hlt].
  destruct (elems (sel k s) !! i) as [q|] eqn:Eq; [|apply lookup_ge_None in Eq; lia]. cbn [fst snd].
  pose proof (oi_length _ Hinv k) as Hlen. cbn [shared] in Hlen.
  destruct (history (sel k s) !! i) as [h|] eqn:Eh; [|apply lookup_ge_None in Eh; lia].
  assert (is_Some (method a (obj q))) as [l' Hl'].
  { destruct a as [v|n|n|n]; [done|done| |]; pose proof (Hqueue k i q h (consumer_of _ _ _ _ _ Hcall eq_refl I) Eq Eh) as Hst;
      rewrite E in Hst; cbn in Hst; rewrite decide_True in Hst by done; destruct Hst as [_ Hne]; by destruct (obj q). }
  rewrite Hl'. apply (io_local s m t th); [done|done|done|done| | |].
  - eapply thread_ok_pc; [done..|]. destruct (writes a) eqn:Ew; cbn; [|by split].
    split; [done|]. split; [done|]. intros q' Hq'. congruence.
  - apply (queue_ok_move s th _ k i); [done|done| |].
    + intros k' i' _ Hne. split; [|done]. rewrite E. cbn. assert (¬ (k = k' ∧ i = i')) by naive_solver.
      destruct (writes a); cbn; by rewrite !decide_False.
    + intros items h' _ Hst Hq. rewrite E in Hst. cbn in *. rewrite decide_True in Hst by done. rewrite (Hq q Eq) in *.
      destruct a; cbn; rewrite decide_True by done; cbn; [done| | |done]; (split; [first [exact Hst|apply Hst]|]); intros v0 l0 ->; done.
  - intros r. rewrite E. by destruct (writes a), r.
Qed.

(** Storing the queue. *)
Lemma stage_push st g items h v : stage_ok st g items h → stage_ok st g (items ++ [v]) (h ++ [v]).
Proof.
  destruct st as [| | |l]; cbn.
  - intros ->. by rewrite app_assoc.
  - intros [-> Hne]. split; [by rewrite app_assoc|by destruct items].
  - intros [-> Hne]. destruct items as [|v' items]; [done|]. cbn. by rewrite app_assoc.
  - intros [-> Hl]. split; [by rewrite app_assoc|]. intros v0 l0 E. specialize (Hl v0 l0 E). by destruct items.
Qed.

Definition stored (k : kind) (i : nat) (a : act) (l' : list V) (q : safe (list V)) (s : io) : io :=
  let s := set_elem k i (with_obj l' q) s in match a with APush v => log_push k i v s | _ => s end.

Lemma elems_stored k i a l' q s k' :
  elems (sel k' (stored k i a l' q s)) = if decide (k = k') then <[i := with_obj l' q]> (elems (sel k' s)) else elems (sel k' s).
Proof. rewrite <- elems_set_elem. unfold stored, log_push. destruct a; try done. rewrite sel_upd. by destruct (decide (k = k')) as [->|]. Qed.

Lemma history_stored k i a l' q s k' :
  history (sel k' (stored k i a l' q s)) =
    match a with APush v => if decide (k = k') then alter (λ h, h ++ [v]) i (history (sel k' s)) else history (sel k' s) | _ => history (sel k' s) end.
Proof.
  unfold stored, log_push, set_elem. destruct a; rewrite ?sel_upd; destruct (decide (k = k')) as [<-|]; cbn [history]; rewrite ?sel_upd, ?decide_True by done; done.
Qed.

Lemma buf_stored k i a l' q s k' : buf (sel k' (stored k i a l' q s)) = buf (sel k' s).
Proof.
  unfold stored, log_push, set_elem. destruct a; rewrite ?sel_upd; destruct (decide (k = k')) as [<-|]; cbn [buf]; rewrite ?sel_upd, ?decide_True by done; done.
Qed.

Lemma cache_stored k i a l' q s : key_address_cache_ (stored k i a l' q s) = key_address_cache_ s.
Proof. unfold stored, log_push, set_elem. destruct a; by rewrite ?cache_upd. Qed.

Lemma mutex_stored k i a l' q s r : elems (sel k s) !! i = Some q → mutex_at (stored k i a l' q s) r = mutex_at s r.
Proof.
  intros Hq. destruct r as [k' i'|]; cbn; [|by rewrite cache_stored]. rewrite elems_stored. destruct (decide (k = k')) as [<-|]; [|done].
  destruct (decide (i = i')) as [<-|]; [|by rewrite list_lookup_insert_ne]. rewrite list_lookup_insert_eq by (by apply lookup_lt_Some in Hq).
  by rewrite Hq.
Qed.

(** A thread that is not at this store. *)
Lemma pc_ok_stored k i a l' q s th :
  held (at_ th) (Queue k i) = 0 → pc_ok s th → pc_ok (stored k i a l' q s) th.
Proof.
  intros Hh. assert (∀ k', length (elems (sel k' (stored k i a l' q s))) = length (elems (sel k' s))) as Hl.
  { intros k'. rewrite elems_stored. destruct (decide (k = k')); [apply length_insert|done]. }
  unfold pc_ok, access_ok, known. rewrite !cache_stored. destruct (at_ th) as [| | | | | | | | |k1 i1 a1 l1| | | | | | | | | | | | | | | | | | |]; rewrite ?Hl, ?buf_stored; try done.
  intros (H1 & H2 & H3). split; [done|]. split; [done|]. intros q1. rewrite elems_stored. cbn in Hh.
  destruct (decide (k1 = k ∧ i1 = i)) as [|Hne]; [done|]. destruct (decide (k = k1)) as [<-|]; [|by apply H3].
  rewrite list_lookup_insert_ne by naive_solver. by apply H3.
Qed.

Lemma store_good s m t th c k i a l :
  io_inv {| shared := s; pcs := m |} → m !! t = Some th → at_ th = QStore k i a l →
  io_inv {| shared := (next_gentle c th s).2; pcs := <[t := (next_gentle c th s).1]> m |}.
Proof.
  intros Hinv Ht E. use_thread Hinv Ht th. unfold next_gentle, next, queue_step. rewrite E.
  unfold pc_ok in Hpc. rewrite E in Hpc. destruct Hpc as ([[Hcall Hlt] Hw] & [l' Hl'] & Hq).
  destruct (elems (sel k s) !! i) as [q|] eqn:Eq; [|apply lookup_ge_None in Eq; lia]. specialize (Hq q eq_refl). rewrite Hl'. cbn [fst snd].
  fold (stored k i a l' q s).
  assert (∀ t2 th2, m !! t2 = Some th2 → t2 ≠ t → held (at_ th2) (Queue k i) = 0) as Halone.
  { intros t2 th2 H2 Hne. destruct (decide (held (at_ th2) (Queue k i) = 0)) as [|Hh]; [done|]. destruct Hne.
    apply (exclusive m (Queue k i) (mtx q) t2 t th2 th); [|done|done|done|rewrite E; cbn; by rewrite decide_True].
    apply (oi_mutex _ Hinv). cbn. by rewrite Eq. }
  pose proof Hinv as [HM HI HR HL HT HQ]. cbn [shared pcs] in *. split; cbn [shared pcs].
  - intros r mu Hmu. rewrite mutex_stored in Hmu by done. eapply mutex_same; [by apply HM|done|]. rewrite E. by destruct r.
  - intros t1 th1 H1. apply lookup_insert_Some in H1 as [[<- <-]|[_ H1]]; [exact (HI _ _ Ht)|by apply HI].
  - intros t1 t2 th1 th2 H1 H2. apply lookup_insert_Some in H1 as [[<- <-]|[_ H1]]; apply lookup_insert_Some in H2 as [[<- <-]|[_ H2]];
      [done|exact (HR _ _ _ _ Ht H2)|exact (HR _ _ _ _ H1 Ht)|by apply HR].
  - intros kd. rewrite history_stored, elems_stored. destruct a; destruct (decide (k = kd)) as [<-|]; rewrite ?length_alter, ?length_insert; apply HL.
  - intros t1 th1 H1. assert (thread_ok s th1 ∧ pc_ok (stored k i a l' q s) th1) as [[_ Hr1 Ha1] Hp1].
    { apply lookup_insert_Some in H1 as [[<- <-]|[Hne H1]].
      - split; [eapply thread_ok_pc; [done..|]; by split|]. cbn. split; [|done]. split; [done|]. rewrite elems_stored, decide_True by done. by rewrite length_insert.
      - split; [by eapply HT|]. apply pc_ok_stored; [by eapply Halone|]. by eapply to_pc, HT. }
    split; [done| |by rewrite cache_stored]. intros j Hj. specialize (Hr1 j Hj). cbn in Hr1.
    change (msgs (stored k i a l' q s)) with (sel Msgs (stored k i a l' q s)). change (resps (stored k i a l' q s)) with (sel Resps (stored k i a l' q s)).
    rewrite !elems_stored. repeat destruct (decide _); by rewrite ?length_insert.
  - intros t1 th1 H1.
    assert (∀ th2, queue_ok s th2 → (¬ consumes k i th2 ∨ ∃ v, a = APush v) → queue_ok (stored k i a l' q s) th2) as Hother.
    { intros th2 Hq2 Hcase k' i' q' h' Hc Hel Hhi. rewrite elems_stored in Hel. rewrite history_stored in Hhi.
      destruct (decide (k = k' ∧ i = i')) as [[<- <-]|Hne].
      - destruct Hcase as [Hn|[v ->]]; [done|]. rewrite decide_True in Hel by done. cbn iota in Hhi. rewrite decide_True in Hhi by done.
        rewrite list_lookup_insert_eq in Hel by (by apply lookup_lt_Some in Eq). injection Hel as <-. cbn [obj with_obj].
        rewrite list_lookup_alter_eq in Hhi. destruct (history (sel k s) !! i) as [h|] eqn:Eh; [|done]. injection Hhi as <-.
        cbn in Hl'. injection Hl' as <-. rewrite <- Hq. apply stage_push. by apply (Hq2 k i q h).
      - assert (elems (sel k' s) !! i' = Some q') as Hel'.
        { destruct (decide (k = k')) as [<-|]; [|done]. rewrite list_lookup_insert_ne in Hel by naive_solver. done. }
        assert (history (sel k' s) !! i' = Some h') as Hhi'.
        { destruct a; try done. destruct (decide (k = k')) as [<-|]; [|done]. rewrite list_lookup_alter_ne in Hhi by naive_solver. done. }
        by apply (Hq2 k' i' q' h'). }
    apply lookup_insert_Some in H1 as [[<- <-]|[Hne H1]].
    + destruct a as [v|n|n|n].
      * apply Hother; [|right; by eexists]. apply (queue_ok_keep s th); [done..|]. intros k' i' _. rewrite E. cbn. by destruct (decide _).
      * done.
      * done.
      * intros k' i' q' h' Hc Hel Hhi. rewrite elems_stored in Hel. rewrite history_stored in Hhi. cbn in Hhi.
        destruct (decide (k = k' ∧ i = i')) as [[<- <-]|Hne].
        -- rewrite decide_True in Hel by done. rewrite list_lookup_insert_eq in Hel by (by apply lookup_lt_Some in Eq). injection Hel as <-.
           pose proof (Hqueue k i q h' Hc Eq Hhi) as Hst. rewrite E in Hst. cbn in Hst |- *. rewrite decide_True in Hst |- * by done.
           destruct Hst as [-> Hne]. rewrite Hq in *. destruct l as [|v l]; [done|]. cbn in Hl'. by injection Hl' as <-.
        -- assert (elems (sel k' s) !! i' = Some q') as Hel'.
           { destruct (decide (k = k')) as [<-|]; [|done]. rewrite list_lookup_insert_ne in Hel by naive_solver. done. }
           pose proof (Hqueue k' i' q' h' Hc Hel' Hhi) as Hst. rewrite E in Hst. cbn in Hst |- *. rewrite decide_False in Hst |- * by done. done.
    + apply Hother; [by eapply HQ|]. destruct a as [v|n|n|n]; [right; by eexists|done..|]. left. intros Hc.
      pose proof (consumer_of _ _ _ _ _ Hcall eq_refl I) as Hc0. destruct Hne. eapply (HR t t1 th th1); [done..|].
      unfold consumes in *. destruct k; congruence.
Qed.

Lemma got_of_take th i v : got_of (take_value i v th) i = got_of th i ++ [v].
Proof. unfold got_of, take_value. cbn. by rewrite lookup_insert_eq. Qed.

Lemma got_of_take_ne th i i' v : i ≠ i' → got_of (take_value i v th) i' = got_of th i'.
Proof. intros Hne. unfold got_of, take_value. cbn. by rewrite lookup_insert_ne. Qed.

(** A value is taken: it is the first of the queue and still in it. *)
Lemma queue_ok_take s th k i v p :
  queue_ok s th → consumes k i th → stage_of k i (at_ th) = Read [v] ∨ (∃ l, stage_of k i (at_ th) = Read (v :: l)) →
  (∀ k' i', (k', i') ≠ (k, i) → stage_of k' i' (at_ th) = Between ∧ stage_of k' i' p = Between) → stage_of k i p = Taken →
  queue_ok s (at_pc p (take_value i v th)).
Proof.
  intros Hq Hc Hst Hother Hp. apply (queue_ok_move s th _ k i); [done|done| |].
  - intros k' i' Hc' Hne. destruct (Hother k' i' Hne) as [-> E]. cbn. split; [done|].
    apply got_of_take_ne. intros ->. apply Hne. destruct k, k'; try done; unfold consumes in *; congruence.
  - intros items h _ Ho _. cbn [at_pc at_]. rewrite Hp. change (got_of (at_pc p (take_value i v th)) i) with (got_of (take_value i v th) i).
    rewrite got_of_take. assert (∃ l, stage_of k i (at_ th) = Read (v :: l)) as [l E] by (destruct Hst as [E|[l E]]; by eexists).
    rewrite E in Ho. destruct Ho as [-> Hl]. specialize (Hl v l eq_refl). destruct items as [|v' items]; [done|]. injection Hl as <-.
    cbn. split; [by rewrite <- app_assoc|done].
Qed.

(** The call after the method. *)
Lemma after_ok s th k i a l :
  thread_ok s th → queue_ok s th → at_ th = QUnlock k i a l →
  let th' := after_method k i a l th s in
  tid th' = tid th ∧ role th' = role th ∧ thread_ok s th' ∧ queue_ok s th' ∧ (∀ r, held (at_ th') r = 0).
Proof.
  intros Hth Hq E. pose proof (to_pc _ _ Hth) as Hpc. unfold pc_ok in Hpc. rewrite E in Hpc. destruct Hpc as [[Hcall Hlt] [l' Hl']].
  assert (∀ k' i', (k', i') ≠ (k, i) → stage_of k' i' (at_ th) = Between) as Hother.
  { intros k' i' Hne. rewrite E. cbn. rewrite decide_False; [done|naive_solver]. }
  assert (∀ p, (∀ r, held p r = 0) → pc_ok s (at_pc p th) →
    (∀ k' i', (k', i') ≠ (k, i) → stage_of k' i' p = Between) →
    (∀ items h, consumes k i th → stage_ok (stage_of k i (at_ th)) (got_of th i) items h → stage_ok (stage_of k i p) (got_of th i) items h) →
    let th' := at_pc p th in tid th' = tid th ∧ role th' = role th ∧ thread_ok s th' ∧ queue_ok s th' ∧ (∀ r, held (at_ th') r = 0)) as Hgo.
  { intros p Hh Hp Hst Hst2. split; [done|]. split; [done|]. split; [by eapply thread_ok_pc|]. split; [|exact Hh].
    apply (queue_ok_move s th _ k i); [done|done| |].
    - intros k' i' _ Hne. cbn. by rewrite Hst, Hother.
    - intros items h Hc Ho _. by apply Hst2. }
  assert (stage_of k i (at_ th) = match a with AEmpty _ | AFront _ => Read l | _ => Between end) as Estage.
  { rewrite E. cbn. by rewrite decide_True. }
  assert (∀ k0 i0 a0, (k0, i0) = (k, i) ∨ match a0 with AEmpty _ => True | _ => False end →
            ∀ k' i', (k', i') ≠ (k, i) → stage_of k' i' (Fetch k0 i0 a0) = Between) as Hfetch.
  { intros k0 i0 a0 H k' i' Hne. cbn. destruct (decide (k0 = k' ∧ i0 = i')) as [[-> ->]|]; [|done]. destruct H as [H|H]; [by rewrite H in Hne|]. by destruct a0. }
  unfold after_method. rewrite Estage in Hgo. destruct a as [v|n|n|n]; cbn iota in Hgo.
  - by apply Hgo; [intros []| | |].
  - destruct k; [destruct l as [|v l]; [|destruct (decide (msg_process_batch ≤ n))]|destruct l as [|v l]; [destruct (decide (S i < length (elems (resps s))))|]].
    + apply Hgo; [by intros []|done|done|]. by intros items h _ [-> _].
    + apply Hgo; [by intros []|done|done|]. by intros items h _ [-> _].
    + apply Hgo; [by intros []|by split|apply Hfetch; by left|]. intros items h _ [-> Hr]. cbn. rewrite decide_True by done.
      split; [done|]. specialize (Hr v l eq_refl). by destruct items.
    + apply Hgo; [by intros []|split; [|done]|apply Hfetch; by right|].
      * cbn in *. by destruct (role th).
      * intros items h _ [-> _]. cbn. by destruct (decide _).
    + apply Hgo; [by intros []|done|done|]. by intros items h _ [-> _].
    + apply Hgo; [by intros []|by split|apply Hfetch; by left|]. intros items h _ [-> Hr]. cbn. rewrite decide_True by done.
      split; [done|]. specialize (Hr v l eq_refl). by destruct items.
  - destruct l as [|v l]; [done|]. destruct k.
    + apply Hgo; [by intros []| | |].
      * unfold pc_ok, call_ok in *. cbn. destruct (role th) as [j|]; [congruence|done].
      * intros k' i' Hne. cbn. rewrite decide_False; [done|naive_solver].
      * intros items h _ [-> Hr]. cbn. rewrite decide_True by done. split; [done|]. intros v0 l0 [= <- <-]. by apply (Hr v l).
    + split; [done|]. split; [done|]. split; [|split; [|by intros []]].
      * eapply thread_ok_pc; [done..|]. by split.
      * apply queue_ok_take with (k := Resps); [done|by eapply consumer_of|right; rewrite Estage; by eexists| |cbn; by rewrite decide_True].
        intros k' i' Hne. split; [by apply Hother|]. by apply Hfetch; [left|].
  - apply Hgo; [by intros []|split; [unfold call_ok in *; cbn; by destruct k, (role th)|done]|apply Hfetch; by left|]. intros items h _ ->. cbn. by destruct (decide _).
Qed.

Lemma unlock_good s m t th c :
  io_inv {| shared := s; pcs := m |} → m !! t = Some th →
  match at_ th with QUnlock _ _ _ _ | Process _ _ _ => True | _ => False end →
  io_inv {| shared := (next_gentle c th s).2; pcs := <[t := (next_gentle c th s).1]> m |}.
Proof.
  intros Hinv Ht Hp. use_thread Hinv Ht th. unfold next_gentle, next, queue_step.
  destruct (at_ th) as [| | | | | | | | | |k i a l|i v n| | | | | | | | | | | | | | | | |] eqn:E; try done.
  - pose proof Hpc as Hpc'. unfold pc_ok in Hpc'. rewrite E in Hpc'. destruct Hpc' as [[Hcall Hlt] Hl'].
    destruct (elems (sel k s) !! i) as [q|] eqn:Eq; [|apply lookup_ge_None in Eq; lia]. cbn [fst snd].
    destruct (after_ok s th k i a l Hth Hqueue E) as (H1 & H2 & H3 & H4 & H5).
    apply (inv_data s m t th); [done|done|by apply same_data_mutex|done|done|done|done|].
    apply (mutexes_queue k i q _ s m t th); [done..| |].
    + eapply mutex_unlock; [|done|rewrite E, H5; cbn; by rewrite decide_True]. apply (oi_mutex _ Hinv (Queue k i)). cbn. by rewrite Eq.
    + intros [k' i'|] Hne; rewrite E, H5; cbn; [|done]. rewrite decide_False; [done|]. intros [-> ->]. done.
  - unfold pc_ok in Hpc. rewrite E in Hpc. destruct (to_role _ _ Hth i Hpc) as [Hlt _]. cbn [fst snd].
    apply (io_local s m t th); [done|done|done|done| | |].
    + eapply thread_ok_pc; [done..|]. cbn. unfold access_ok. cbn. by rewrite Hpc.
    + apply queue_ok_take with (k := Msgs); [done|done|left; rewrite E; cbn; by rewrite decide_True| |cbn; by rewrite decide_True].
      intros k' i' Hne. rewrite E. cbn. rewrite !decide_False by naive_solver. done.
    + intros r. rewrite E. by destruct r.
Qed.

(** *** The map of addresses *)

(** A step that may take or give back the mutex of the map. *)
Lemma cache_mutex s m t th mu' p a :
  io_inv {| shared := s; pcs := m |} → m !! t = Some th →
  (lock t (mtx (key_address_cache_ s)) = Some mu' ∧ held p Cache = S (held (at_ th) Cache) ∨
   mu' = unlock (mtx (key_address_cache_ s)) ∧ held (at_ th) Cache = S (held p Cache)) →
  (∀ k i, stage_of k i p = Between ∧ stage_of k i (at_ th) = Between) →
  (∀ k i, held p (Queue k i) = 0 ∧ held (at_ th) (Queue k i) = 0) →
  pc_ok s (set_addr a (at_pc p th)) → (a = "" ∨ ∃ key, obj (key_address_cache_ s) !! key = Some a) →
  io_inv {| shared := set_cache (with_mtx mu' (key_address_cache_ s)) s; pcs := <[t := set_addr a (at_pc p th)]> m |}.
Proof.
  intros Hinv Ht Hmu Hst Hh Hp Ha. use_thread Hinv Ht th. apply (inv_data s m t th); [done|done|apply same_data_cache|done|done| | |].
  - split; [done|apply (to_role _ _ Hth)|done].
  - apply (queue_ok_keep s th); [done..|]. intros k i _. destruct (Hst k i) as [E1 E2]. cbn. congruence.
  - apply (mutexes_cache mu' s m t th); [done..| |].
    + destruct Hmu as [[Hl E]|[-> E]]; [eapply mutex_lock|eapply mutex_unlock]; try done; by apply (oi_mutex _ Hinv Cache).
    + intros [k i|] Hne; [|done]. destruct (Hh k i) as [E1 E2]. cbn [at_pc at_ set_addr]. by rewrite E1, E2.
Qed.

Lemma set_addr_same th : set_addr (addr th) th = th.
Proof. by destruct th. Qed.

Lemma cache_lock_good s m t th p :
  io_inv {| shared := s; pcs := m |} → m !! t = Some th → held p Cache = S (held (at_ th) Cache) →
  (∀ k i, stage_of k i p = Between ∧ stage_of k i (at_ th) = Between) →
  (∀ k i, held p (Queue k i) = 0 ∧ held (at_ th) (Queue k i) = 0) → pc_ok s (at_pc p th) →
  let r := match lock (tid th) (mtx (key_address_cache_ s)) with
           | Some mu => (at_pc p th, set_cache (with_mtx mu (key_address_cache_ s)) s)
           | None => (th, s)
           end in
  io_inv {| shared := r.2; pcs := <[t := r.1]> m |}.
Proof.
  intros Hinv Ht Hh Hst Hq Hp. pose proof (oi_tid _ Hinv _ _ Ht) as Htid. cbn in Htid. pose proof (to_addr _ _ (oi_thread _ Hinv _ _ Ht)) as Ha. cbn in Ha.
  destruct (lock (tid th) (mtx (key_address_cache_ s))) as [mu|] eqn:El; cbn; [|by rewrite insert_id].
  rewrite <- (set_addr_same (at_pc p th)). cbn [addr at_pc]. apply cache_mutex; [done..|left; by rewrite <- Htid|done|done|exact Hp|done].
Qed.

(** A step under the mutex. *)
Lemma cache_local s m t th p :
  io_inv {| shared := s; pcs := m |} → m !! t = Some th → held p Cache = held (at_ th) Cache →
  (∀ k i, stage_of k i p = Between ∧ stage_of k i (at_ th) = Between) →
  (∀ k i, held p (Queue k i) = 0 ∧ held (at_ th) (Queue k i) = 0) → pc_ok s (at_pc p th) →
  io_inv {| shared := s; pcs := <[t := at_pc p th]> m |}.
Proof.
  intros Hinv Ht Hh Hst Hq Hp. use_thread Hinv Ht th. apply (io_local s m t th); [done..| | |].
  - by eapply thread_ok_pc.
  - apply (queue_ok_keep s th); [done..|]. intros k i _. destruct (Hst k i) as [E1 E2]. cbn. congruence.
  - intros [k i|]; [|exact Hh]. destruct (Hq k i) as [E1 E2]. cbn [at_pc at_]. by rewrite E1, E2.
Qed.

(** The map grows. *)
Lemma cache_store_good s m t th key a mp :
  io_inv {| shared := s; pcs := m |} → m !! t = Some th → at_ th = EStore key a mp →
  let mp' := match mp !! key with Some _ => mp | None => <[key := a]> mp end in
  io_inv {| shared := set_cache (with_obj mp' (key_address_cache_ s)) s; pcs := <[t := at_pc EUnlock th]> m |}.
Proof.
  intros Hinv Ht E mp'. use_thread Hinv Ht th. unfold pc_ok in Hpc. rewrite E in Hpc.
  assert (mp ⊆ mp') as Hsub by (unfold mp'; destruct (mp !! key) eqn:Ek; [done|by apply insert_subseteq]).
  set (s' := set_cache (with_obj mp' (key_address_cache_ s)) s).
  assert (∀ k, sel k s' = sel k s) as Hsel by (by intros []).
  assert (∀ key a, obj (key_address_cache_ s) !! key = Some a → obj (key_address_cache_ s') !! key = Some a) as Hgrow.
  { intros key0 a0 H0. rewrite Hpc in H0. cbn. by eapply lookup_weaken. }
  assert (∀ t1 th1, m !! t1 = Some th1 → t1 ≠ t → pc_ok s th1 → pc_ok s' th1) as Hpcs.
  { intros t1 th1 H1 Hne. assert (held (at_ th1) Cache = 0) as Hh.
    { destruct (decide (held (at_ th1) Cache = 0)) as [|Hh]; [done|]. destruct Hne.
      apply (exclusive m Cache (mtx (key_address_cache_ s)) t1 t th1 th); [by apply (oi_mutex _ Hinv Cache)|done|done|done|by rewrite E]. }
    unfold pc_ok, access_ok, known, is_Some. destruct (at_ th1); rewrite ?Hsel; try done; naive_solver. }
  assert (∀ t1 th1, <[t := at_pc EUnlock th]> m !! t1 = Some th1 → thread_ok s' th1 ∧ queue_ok s th1 ∧ tid th1 = t1) as Hall.
  { intros t1 th1 H1. apply lookup_insert_Some in H1 as [[<- <-]|[Hne H1]].
    - split; [|split; [|done]].
      + split; [done|apply (to_role _ _ Hth)|]. destruct (to_addr _ _ Hth) as [Ha|[key0 Ha]]; [by left|right; exists key0; by apply Hgrow].
      + apply (queue_ok_keep s th); [done..|]. intros k i _. by rewrite E.
    - destruct (oi_thread _ Hinv _ _ H1) as [Hp1 Hr1 Ha1]. split; [|split; [by apply (oi_queue _ Hinv _ _ H1)|by apply (oi_tid _ Hinv _ _ H1)]].
      split; [by eapply Hpcs|done|]. destruct Ha1 as [Ha|[key0 Ha]]; [by left|right; exists key0; by apply Hgrow]. }
  split; cbn [shared pcs].
  - intros r mu Hmu. assert (mutex_at s r = Some mu) as Hmu0 by (destruct r as [[] i|]; done).
    eapply mutex_same; [by apply (oi_mutex _ Hinv)|done|]. rewrite E. by destruct r.
  - intros t1 th1 H1. exact (proj2 (proj2 (Hall t1 th1 H1))).
  - intros t1 t2 th1 th2 H1 H2. apply lookup_insert_Some in H1 as [[<- <-]|[_ H1]]; apply lookup_insert_Some in H2 as [[<- <-]|[_ H2]];
      [done|exact (oi_role _ Hinv _ _ _ _ Ht H2)|exact (oi_role _ Hinv _ _ _ _ H1 Ht)|by apply (oi_role _ Hinv)].
  - intros kd. rewrite Hsel. apply (oi_length _ Hinv).
  - intros t1 th1 H1. exact (proj1 (Hall t1 th1 H1)).
  - intros t1 th1 H1 k i. rewrite Hsel. exact (proj1 (proj2 (Hall t1 th1 H1)) k i).
Qed.

Lemma cache_good s m t th c :
  io_inv {| shared := s; pcs := m |} → m !! t = Some th →
  match at_ th with
  | Idle | Fetch _ _ _ | Deref _ _ _ _ | QLock _ _ _ | QLoad _ _ _ | QStore _ _ _ _ | QUnlock _ _ _ _ | Process _ _ _ => False
  | _ => True
  end →
  io_inv {| shared := (next_gentle c th s).2; pcs := <[t := (next_gentle c th s).1]> m |}.
Proof.
  intros Hinv Ht Hp. use_thread Hinv Ht th. unfold next_gentle, next, cache_step. pose proof (to_addr _ _ Hth) as Haddr.
  destruct (at_ th) as [| | | | | | | | | | | |key|key|key b|key b|key b|key b|key|key|a|key a|key a|key a mp| | | | |] eqn:E; try done; unfold pc_ok in Hpc; rewrite E in Hpc; try done.
  - apply cache_lock_good; rewrite ?E; done.
  - apply cache_local; rewrite ?E; try done. unfold pc_ok. cbn. intros Hb%bool_decide_eq_false. unfold known. by apply not_eq_None_Some.
  - apply cache_lock_good; rewrite ?E; done.
  - apply cache_local; rewrite ?E; done.
  - rewrite <- (set_addr_same (at_pc (FUnlock key b) th)). cbn [fst snd addr at_pc]. apply cache_mutex; rewrite ?E; auto.
  - cbn [fst snd]. destruct b.
    + apply cache_mutex; rewrite ?E; auto.
    + rewrite <- (set_addr_same (at_pc (ALock key) th)). cbn [addr at_pc]. apply cache_mutex; rewrite ?E; auto. by apply Hpc.
  - apply cache_lock_good; rewrite ?E; done.
  - destruct Hpc as [a Ha]. rewrite Ha. apply cache_local; rewrite ?E; try done. unfold pc_ok. cbn. by exists key.
  - cbn [fst snd]. apply cache_mutex; rewrite ?E; auto.
  - apply cache_lock_good; rewrite ?E; done.
  - apply cache_local; rewrite ?E; done.
  - by apply cache_store_good.
  - rewrite <- (set_addr_same (at_pc Idle th)). cbn [fst snd addr at_pc]. apply cache_mutex; rewrite ?E; auto.
Qed.

Lemma io_inv_step s m t th c :
  io_inv {| shared := s; pcs := m |} → m !! t = Some th →
  io_inv {| shared := (next_gentle c th s).2; pcs := <[t := (next_gentle c th s).1]> m |}.
Proof.
  intros Hinv Ht. destruct (at_ th) eqn:E;
    try (apply cache_good; [done..|by rewrite E]); try (apply reach_good; [done..|by rewrite E]); try (apply unlock_good; [done..|by rewrite E]).
  - by apply idle_good.
  - by eapply load_good.
  - by eapply store_good.
Qed.

(** ** The program at its start *)

Definition main_thread (p : pc) : thread := {| tid := 0; role := None; at_ := p; got := ∅; addr := "" |}.
Definition io_thread (p : pc) (j : nat) : thread := {| tid := S j; role := Some j; at_ := p; got := ∅; addr := "" |}.

Definition pool (p p' : pc) (n : nat) : gmap nat thread :=
  <[0 := main_thread p]> (list_to_map (map (λ j, (S j, io_thread p' j)) (seq 0 n))).

Definition empty_queue : safe (list V) := {| mtx := free_mutex; obj := [] |}.
Definition queues (b n : nat) : vect := {| buf := b; elems := replicate n empty_queue; history := replicate n [] |}.

(** [n] additional threads run. *)
Definition running (b b' n : nat) : io := {|
  msgs := queues b n; resps := queues b' n; key_address_cache_ := {| mtx := free_mutex; obj := ∅ |}; launched := n |}.

Lemma pool_lookup p p' n t th :
  pool p p' n !! t = Some th → (t = 0 ∧ th = main_thread p) ∨ ∃ j, t = S j ∧ j < n ∧ th = io_thread p' j.
Proof.
  unfold pool. intros [[<- <-]|[_ H]]%lookup_insert_Some; [by left|right].
  apply elem_of_list_to_map_2, list_elem_of_fmap in H as (j & [= -> ->] & Hj). apply elem_of_seq in Hj. exists j. split; [done|]. split; [lia|done].
Qed.

Lemma running_inv b b' n : io_inv {| shared := running b b' n; pcs := pool Idle Idle n |}.
Proof.
  assert (∀ k i q, elems (sel k (running b b' n)) !! i = Some q → q = empty_queue) as Hempty.
  { intros k i q Hq. assert (q ∈ replicate n empty_queue) as Hin by (destruct k; by eapply list_elem_of_lookup_2).
    by apply elem_of_replicate in Hin as [-> _]. }
  assert (∀ t th, pool Idle Idle n !! t = Some th → at_ th = Idle ∧ got th = ∅ ∧ addr th = "" ∧ tid th = t) as Hidle.
  { intros t th Ht. by destruct (pool_lookup _ _ _ _ _ Ht) as [[-> ->]|(j & -> & _ & ->)]. }
  split; cbn [shared pcs].
  - intros r mu Hmu. assert (mu = free_mutex) as ->.
    { destruct r as [k i|]; cbn in Hmu; [|by injection Hmu as <-]. destruct (elems (sel k (running b b' n)) !! i) as [q|] eqn:E; [|done].
      injection Hmu as <-. by rewrite (Hempty k i q E). }
    split; [done|]. intros t th Ht. destruct (Hidle t th Ht) as (-> & _). rewrite decide_False by done. by destruct r.
  - intros t th Ht. by apply Hidle.
  - intros t t' th th' H H'. destruct (pool_lookup _ _ _ _ _ H) as [[-> ->]|(j & -> & _ & ->)], (pool_lookup _ _ _ _ _ H') as [[-> ->]|(j' & -> & _ & ->)];
      cbn; congruence.
  - intros []; cbn; by rewrite !length_replicate.
  - intros t th Ht. destruct (Hidle t th Ht) as (Hi & _ & Ha & _). split; [unfold pc_ok; by rewrite Hi| |by left].
    intros j Hj. cbn. rewrite length_replicate. destruct (pool_lookup _ _ _ _ _ Ht) as [[-> ->]|(j' & -> & Hlt & ->)]; [done|]. injection Hj as <-. done.
  - intros t th Ht k i q h _ Hq Hh. destruct (Hidle t th Ht) as (Hi & Hg & _). rewrite Hi. unfold got_of. rewrite Hg, lookup_empty. cbn.
    rewrite (Hempty k i q Hq). cbn. assert (h ∈ replicate n (@nil V)) as Hin by (destruct k; by eapply list_elem_of_lookup_2).
    by apply elem_of_replicate in Hin as [-> _].
Qed.

Lemma running_reach b b' n k : reachable next_gentle {| shared := running b b' n; pcs := pool Idle Idle n |} k → io_inv k.
Proof. apply reachable_invariant; [apply running_inv|]. intros; by apply io_inv_step. Qed.

Lemma stage_bounds st g items h : stage_ok st g items h → g `prefix_of` h ∧ length h ≤ length g + length items.
Proof.
  destruct st as [| | |l]; cbn.
  - intros ->. rewrite length_app. split; [by eexists|lia].
  - intros [-> _]. rewrite length_app. split; [by eexists|lia].
  - intros [-> _]. rewrite length_app. split; [by eexists|]. destruct items; cbn; lia.
  - intros [-> _]. rewrite length_app. split; [by eexists|lia].
Qed.

(** ** One thread alone *)

Lemma insert_elem_id k i q s : elems (sel k s) !! i = Some q → set_elem k i q s = s.
Proof.
  intros Hq. unfold set_elem. rewrite list_insert_id by done. destruct s as [[] [] ? ?]; by destruct k.
Qed.

Lemma set_elem_twice k i q q' s : set_elem k i q' (set_elem k i q s) = set_elem k i q' s.
Proof.
  unfold set_elem. rewrite !sel_upd, !decide_True by done. cbn. rewrite list_insert_insert_eq. by destruct k.
Qed.

Definition pops (a : act) : Prop := match a with APush _ => False | _ => True end.

(** A method of the consumer, when nobody has the mutex. *)
Lemma method_alone s th k i a q l' :
  at_ th = Fetch k i a → elems (sel k s) !! i = Some q → mtx q = free_mutex → method a (obj q) = Some l' → pops a →
  run_thread next_gentle (replicate (if writes a then 6 else 5) Go) th s
    = (after_method k i a (obj q) th s, set_elem k i (with_obj l' q) s).
Proof.
  intros E Hq Hm Hl Ha. destruct th as [td rl p g ad]. cbn in E. subst p.
  assert (∀ q' : safe (list V), elems (sel k (set_elem k i q' s)) !! i = Some q') as Hnew.
  { intros q'. rewrite elems_set_elem, decide_True, list_lookup_insert_eq by (done || by apply lookup_lt_Some in Hq). done. }
  assert (∀ q' : safe (list V), after_method k i a (obj q) {| tid := td; role := rl; at_ := Fetch k i a; got := g; addr := ad |} (set_elem k i q' s)
    = after_method k i a (obj q) {| tid := td; role := rl; at_ := Fetch k i a; got := g; addr := ad |} s) as Hafter.
  { intros q'. unfold after_method. assert (length (elems (resps (set_elem k i q' s))) = length (elems (resps s))) as ->; [|done].
    change (resps (set_elem k i q' s)) with (sel Resps (set_elem k i q' s)). rewrite elems_set_elem. destruct (decide (k = Resps)); [by rewrite length_insert|done]. }
  set (m1 := {| owner := Some td; depth := 1 |}). assert (lock td (mtx q) = Some m1) as Hlock by (by rewrite Hm).
  assert (∀ q' : safe (list V), mtx q' = m1 → with_mtx (unlock m1) q' = with_obj (obj q') q) as Hback by (intros q' Hq'; unfold with_mtx, with_obj; by rewrite Hm).
  set (th0 p := {| tid := td; role := rl; at_ := p; got := g; addr := ad |}). fold (th0 (Fetch k i a)) in Hafter |- *.
  assert (next_gentle Go (th0 (Fetch k i a)) s = (th0 (Deref k i a (buf (sel k s))), s)) as H1 by done.
  assert (next_gentle Go (th0 (Deref k i a (buf (sel k s)))) s = (th0 (QLock k i a), s)) as H2.
  { unfold next_gentle, next, queue_step. cbn. by rewrite decide_True. }
  set (s1 := set_elem k i (with_mtx m1 q) s).
  assert (next_gentle Go (th0 (QLock k i a)) s = (th0 (QLoad k i a), s1)) as H3.
  { unfold next_gentle, next, queue_step. cbn. by rewrite Hq, Hlock. }
  assert (next_gentle Go (th0 (QLoad k i a)) s1 = (th0 (if writes a then QStore k i a (obj q) else QUnlock k i a (obj q)), s1)) as H4.
  { unfold next_gentle, next, queue_step. cbn. unfold s1. rewrite Hnew. cbn. by rewrite Hl. }
  assert (∀ q', mtx q' = m1 → next_gentle Go (th0 (QUnlock k i a (obj q))) (set_elem k i q' s)
    = (after_method k i a (obj q) (th0 (Fetch k i a)) s, set_elem k i (with_obj (obj q') q) s)) as H5.
  { intros q' Hq'. unfold next_gentle, next, queue_step. cbn. rewrite Hnew, set_elem_twice, Hq', (Hback q' Hq'). by rewrite <- (Hafter q'). }
  destruct (writes a) eqn:Ew; cbn [replicate]; unfold run_thread; cbn [foldl fst snd]; rewrite H1; cbn [fst snd]; rewrite H2; cbn [fst snd];
    rewrite H3; cbn [fst snd]; rewrite H4; cbn [fst snd].
  - assert (next_gentle Go (th0 (QStore k i a (obj q))) s1 = (th0 (QUnlock k i a (obj q)), set_elem k i (with_obj l' (with_mtx m1 q)) s)) as ->.
    { unfold next_gentle, next, queue_step. cbn. unfold s1. rewrite Hnew, Hl. cbn. destruct a; try done; by rewrite set_elem_twice. }
    cbn [fst snd]. by rewrite H5.
  - unfold s1. rewrite H5 by done. cbn [obj with_mtx]. assert (l' = obj q) as -> by (destruct a; try done; cbn in Hl; destruct (obj q); congruence). done.
Qed.

Lemma run_app (f : choice → thread → io → thread * io) l1 l2 th s :
  run_thread f (l1 ++ l2) th s = run_thread f l2 (run_thread f l1 th s).1 (run_thread f l1 th s).2.
Proof. unfold run_thread. rewrite foldl_app. by destruct (foldl _ (th, s) l1). Qed.

(** Some steps of a thread that moves alone. *)
Definition steps (th : thread) (s : io) (th' : thread) (s' : io) : Prop :=
  ∃ n, run_thread next_gentle (replicate n Go) th s = (th', s').

Lemma steps_trans th s th1 s1 th2 s2 : steps th s th1 s1 → steps th1 s1 th2 s2 → steps th s th2 s2.
Proof. intros [n E] [n' E']. exists (n + n'). by rewrite replicate_add, run_app, E. Qed.

Lemma steps_method s th k i a q l' :
  at_ th = Fetch k i a → elems (sel k s) !! i = Some q → mtx q = free_mutex → method a (obj q) = Some l' → pops a →
  steps th s (after_method k i a (obj q) th s) (set_elem k i (with_obj l' q) s).
Proof. intros. eexists. by apply method_alone. Qed.

(** A value of the queue is taken out of it. *)
Lemma steps_value s th k i n q v l :
  at_ th = Fetch k i (AFront n) → elems (sel k s) !! i = Some q → mtx q = free_mutex → obj q = v :: l →
  steps th s (at_pc (Fetch k i (AEmpty (S n))) (take_value i v th)) (set_elem k i (with_obj l q) s).
Proof.
  intros E Hq Hm Ho.
  assert (steps th s (at_pc (Fetch k i (APop n)) (take_value i v th)) s) as H1.
  { pose proof (steps_method s th k i (AFront n) q (obj q) E Hq Hm ltac:(by rewrite Ho) I) as H.
    rewrite insert_elem_id in H by (destruct q; done). rewrite Ho in H. destruct k; [|exact H].
    eapply steps_trans; [exact H|]. by exists 1. }
  eapply steps_trans; [exact H1|].
  pose proof (steps_method s (at_pc (Fetch k i (APop n)) (take_value i v th)) k i (APop n) q l eq_refl Hq Hm ltac:(by rewrite Ho) I) as H.
  exact H.
Qed.

Lemma lookup_set_elem k i q q' s : elems (sel k s) !! i = Some q → elems (sel k (set_elem k i q' s)) !! i = Some q'.
Proof. intros Hq. rewrite elems_set_elem, decide_True, list_lookup_insert_eq by (done || by apply lookup_lt_Some in Hq). done. Qed.

Definition take_all (i : nat) (l : list V) (th : thread) : thread :=
  {| tid := tid th; role := role th; at_ := at_ th; got := match l with [] => got th | _ => <[i := got_of th i ++ l]> (got th) end; addr := addr th |}.

Lemma take_all_nil i th : take_all i [] th = th.
Proof. by destruct th. Qed.

Lemma take_all_cons i v l p th : take_all i l (at_pc p (take_value i v th)) = at_pc p (take_all i (v :: l) th).
Proof.
  unfold take_all, at_pc, take_value, got_of. cbn. f_equal. destruct l as [|v' l]; [done|].
  by rewrite lookup_insert_eq, insert_insert_eq; cbn; rewrite <- app_assoc.
Qed.

(** The inner loop of an I/O thread. *)
Lemma io_loop l : ∀ n s th i q,
  at_ th = Fetch Msgs i (AEmpty n) → n ≤ msg_process_batch → elems (msgs s) !! i = Some q → mtx q = free_mutex → obj q = l →
  steps th s (at_pc Idle (take_all i (take (msg_process_batch - n) l) th))
    (set_elem Msgs i (with_obj (drop (msg_process_batch - n) l) q) s).
Proof.
  induction l as [|v l IH]; intros n s th i q E Hn Hq Hm Ho;
    pose proof (steps_method s th Msgs i (AEmpty n) q (obj q) E Hq Hm eq_refl I) as H; rewrite Ho in H; cbn [after_method] in H.
  - by rewrite take_nil, drop_nil, take_all_nil.
  - destruct (decide (msg_process_batch ≤ n)) as [Hd|Hd].
    + replace (msg_process_batch - n) with 0 by lia. by rewrite take_0, drop_0, take_all_nil.
    + replace (msg_process_batch - n) with (S (msg_process_batch - S n)) by lia. cbn [take drop].
      eapply steps_trans; [exact H|]. rewrite <- Ho, insert_elem_id by (by destruct q).
      eapply steps_trans; [by apply (steps_value s (at_pc (Fetch Msgs i (AFront n)) th) Msgs i n q v l)|].
      specialize (IH (S n) (set_elem Msgs i (with_obj l q) s) (at_pc (Fetch Msgs i (AEmpty (S n))) (take_value i v (at_pc (Fetch Msgs i (AFront n)) th))) i (with_obj l q)
        eq_refl ltac:(lia) (lookup_set_elem Msgs i q _ s Hq) Hm eq_refl).
      rewrite set_elem_twice, take_all_cons in IH. exact IH.
Qed.

(** The main thread empties a queue of results and goes on to the next. *)
Lemma main_queue l : ∀ n s th i q,
  at_ th = Fetch Resps i (AEmpty n) → elems (resps s) !! i = Some q → mtx q = free_mutex → obj q = l →
  steps th s (at_pc (if decide (S i < length (elems (resps s))) then Fetch Resps (S i) (AEmpty 0) else Idle) (take_all i l th))
    (set_elem Resps i (with_obj [] q) s).
Proof.
  induction l as [|v l IH]; intros n s th i q E Hq Hm Ho;
    pose proof (steps_method s th Resps i (AEmpty n) q (obj q) E Hq Hm eq_refl I) as H; rewrite Ho in H; cbn [after_method] in H.
  - by rewrite take_all_nil.
  - eapply steps_trans; [exact H|]. rewrite <- Ho, insert_elem_id by (by destruct q).
    eapply steps_trans; [by apply (steps_value s (at_pc (Fetch Resps i (AFront n)) th) Resps i n q v l)|].
    specialize (IH (S n) (set_elem Resps i (with_obj l q) s) (at_pc (Fetch Resps i (AEmpty (S n))) (take_value i v (at_pc (Fetch Resps i (AFront n)) th))) i (with_obj l q)
      eq_refl (lookup_set_elem Resps i q _ s Hq) Hm eq_refl).
    rewrite set_elem_twice, take_all_cons in IH.
    change (resps (set_elem Resps i (with_obj l q) s)) with (sel Resps (set_elem Resps i (with_obj l q) s)) in IH.
    rewrite elems_set_elem, (decide_True (P := Resps = Resps)), length_insert in IH by done. rewrite Ho. exact IH.
Qed.

Lemma got_take_all i l th i' : got_of (take_all i l th) i' = got_of th i' ++ (if decide (i = i') then l else []).
Proof.
  unfold take_all, got_of. cbn. destruct l as [|v l]; [by destruct (decide _); rewrite app_nil_r|].
  destruct (decide (i = i')) as [<-|]; [by rewrite lookup_insert_eq|]. by rewrite lookup_insert_ne, app_nil_r.
Qed.

Lemma main_loop m : ∀ s th i,
  at_ th = Fetch Resps i (AEmpty 0) → length (elems (resps s)) = i + S m →
  (∀ i' q, elems (resps s) !! i' = Some q → mtx q = free_mutex) →
  ∃ th' s', steps th s th' s' ∧ at_ th' = Idle ∧ ∀ i' q, elems (resps s) !! i' = Some q →
    got_of th' i' = got_of th i' ++ (if decide (i ≤ i') then obj q else []) ∧
    ∃ q', elems (resps s') !! i' = Some q' ∧ obj q' = if decide (i ≤ i') then [] else obj q.
Proof.
  induction m as [|m IH]; intros s th i E Hlen Hfree;
    (destruct (elems (resps s) !! i) as [q|] eqn:Eq; [|apply lookup_ge_None in Eq; lia]);
    pose proof (main_queue (obj q) 0 s th i q E Eq (Hfree i q Eq) eq_refl) as H;
    set (s1 := set_elem Resps i (with_obj [] q) s) in *;
    assert (∀ i', elems (resps s1) !! i' = if decide (i = i') then Some (with_obj [] q) else elems (resps s) !! i') as Hs1
      by (intros i'; change (resps s1) with (sel Resps s1); unfold s1; rewrite elems_set_elem, decide_True by done; cbn;
          destruct (decide (i = i')) as [<-|]; [rewrite list_lookup_insert_eq; [done|by apply lookup_lt_Some in Eq]|by rewrite list_lookup_insert_ne]).
  - rewrite decide_False in H by lia. eexists _, _. split; [exact H|]. split; [done|]. intros i' q' Hq'.
    change (got_of (at_pc Idle (take_all i (obj q) th)) i') with (got_of (take_all i (obj q) th) i'). rewrite got_take_all, Hs1.
    assert (i' ≤ i) by (apply lookup_lt_Some in Hq'; lia).
    destruct (decide (i = i')) as [<-|]; [rewrite !decide_True by lia|rewrite !decide_False by lia]; (split; [congruence|eexists; split; [first [exact Hq'|reflexivity]|reflexivity]]).
  - rewrite decide_True in H by lia.
    destruct (IH s1 (at_pc (Fetch Resps (S i) (AEmpty 0)) (take_all i (obj q) th)) (S i) eq_refl) as (th' & s' & Hsteps & Hidle & Hall).
    { change (resps s1) with (sel Resps s1). unfold s1. rewrite elems_set_elem, decide_True, length_insert by done. cbn. lia. }
    { intros i' q'. rewrite Hs1. destruct (decide (i = i')); [|by apply Hfree]. intros [= <-]. by apply (Hfree i q). }
    exists th', s'. split; [by eapply steps_trans|]. split; [done|]. intros i' q' Hq'.
    destruct (Hall i' (if decide (i = i') then with_obj [] q else q')) as [Hg (q2 & Hq2 & Ho2)].
    { rewrite Hs1. by destruct (decide (i = i')). }
    change (got_of (at_pc _ (take_all i (obj q) th)) i') with (got_of (take_all i (obj q) th) i') in Hg. rewrite got_take_all in Hg.
    rewrite Hg. split.
    + destruct (decide (i = i')) as [<-|]; [rewrite decide_False, decide_True, app_nil_r by lia; congruence|].
      rewrite app_nil_r. destruct (decide (S i ≤ i')), (decide (i ≤ i')); (done || lia).
    + exists q2. split; [done|]. rewrite Ho2. destruct (decide (i = i')) as [<-|]; [rewrite decide_False, decide_True by lia; done|].
      destruct (decide (S i ≤ i')), (decide (i ≤ i')); (done || lia).
Qed.

(** ** Properties *)

(** C18: With any number of I/O threads, under every interleaving of their accesses: no thread
    runs into undefined behaviour (an element of a vector that has moved, [front] or [pop] of
    an empty queue, an address that is gone); every queue hands its values on once, in the
    order they were pushed, and those not yet taken are still in it; a mutex has at most one
    holder; and an address that was looked up is one of the map.  Once all threads are
    started ([Demo.start_up]) and as long as the map is not cleared ([Demo.cleared]). *)
Theorem io_threads_deliver b b' n k :
  reachable next_gentle {| shared := running b b' n; pcs := pool Idle Idle n |} k →
  (∀ t th, pcs k !! t = Some th → at_ th ≠ Undefined ∧
     (addr th = "" ∨ ∃ key, obj (key_address_cache_ (shared k)) !! key = Some (addr th))) ∧
  (∀ t th kd i q h, pcs k !! t = Some th → consumes kd i th →
     elems (sel kd (shared k)) !! i = Some q → history (sel kd (shared k)) !! i = Some h →
     got_of th i `prefix_of` h ∧ length h ≤ length (got_of th i) + length (obj q) ∧
     (at_ th = Idle → h = got_of th i ++ obj q)) ∧
  (∀ t t' th th' r, pcs k !! t = Some th → pcs k !! t' = Some th' → is_Some (mutex_at (shared k) r) →
     held (at_ th) r ≠ 0 → held (at_ th') r ≠ 0 → t = t').
Proof.
  intros Hr%running_reach. split; [|split].
  - intros t th Ht. destruct (oi_thread _ Hr t th Ht) as [Hp _ Ha]. split; [|done]. intros E. unfold pc_ok in Hp. by rewrite E in Hp.
  - intros t th kd i q h Ht Hc Hq Hh. pose proof (oi_queue _ Hr t th Ht kd i q h Hc Hq Hh) as Hst.
    destruct (stage_bounds _ _ _ _ Hst). split; [done|]. split; [done|]. intros E. by rewrite E in Hst.
  - intros t t' th th' r Ht Ht' [mu Hmu]. by apply (exclusive (pcs k) r mu); [apply (oi_mutex _ Hr)|..].
Qed.

(** C19: The loops end and take what waits: when the mutexes of its queues are free, an idle
    thread that runs its loop alone comes back to idle; an I/O thread has then handled the
    first ten messages of its queue, or all if there are fewer, and the main thread has taken
    every result of every I/O thread. *)
Theorem io_loops_end b b' n k t th :
  reachable next_gentle {| shared := running b b' n; pcs := pool Idle Idle n |} k →
  pcs k !! t = Some th → at_ th = Idle →
  (∀ kd i q, consumes kd i th → elems (sel kd (shared k)) !! i = Some q → mtx q = free_mutex) →
  ∃ m th' s', run_thread next_gentle (CallLoop :: replicate m Go) th (shared k) = (th', s') ∧ at_ th' = Idle ∧
    ∀ kd i q, consumes kd i th → elems (sel kd (shared k)) !! i = Some q →
      let taken := match kd with Msgs => msg_process_batch | Resps => length (obj q) end in
      got_of th' i = got_of th i ++ take taken (obj q) ∧
      ∃ q', elems (sel kd s') !! i = Some q' ∧ obj q' = drop taken (obj q).
Proof.
  intros Hr%running_reach Ht Hidle Hfree. destruct (oi_thread _ Hr t th Ht) as [_ Hrole _].
  assert (∀ m, run_thread next_gentle (CallLoop :: replicate m Go) th (shared k) =
            run_thread next_gentle (replicate m Go) (idle_step CallLoop th (shared k)) (shared k)) as Hcall.
  { intros m. unfold run_thread. cbn [foldl fst snd]. by unfold next_gentle at 2, next at 1; cbn [gentle]; rewrite Hidle. }
  unfold idle_step in Hcall. destruct (role th) as [j|] eqn:Er.
  - destruct (Hrole j eq_refl) as [Hj _]. destruct (elems (msgs (shared k)) !! j) as [q|] eqn:Eq; [|apply lookup_ge_None in Eq; lia].
    destruct (io_loop (obj q) 0 (shared k) (at_pc (Fetch Msgs j (AEmpty 0)) th) j q eq_refl ltac:(lia) Eq (Hfree Msgs j q Er Eq) eq_refl) as [m Hm].
    eexists m, _, _. rewrite Hcall. split; [exact Hm|]. split; [done|]. intros kd i q' Hc Hq'. destruct kd; cbn in Hc; rewrite Er in Hc; [|done].
    injection Hc as <-. cbn in Hq'. rewrite Eq in Hq'. injection Hq' as <-. rewrite Nat.sub_0_r. split.
    + change (got_of (at_pc Idle ?x) j) with (got_of x j). rewrite got_take_all, decide_True by done. done.
    + eexists. split; [by apply (lookup_set_elem Msgs j q)|done].
  - destruct (elems (resps (shared k))) as [|q0 qs] eqn:El.
    + exists 0, th, (shared k). rewrite Hcall. split; [done|]. split; [done|]. intros kd i q Hc Hq. destruct kd; cbn in Hc; rewrite Er in Hc; [done|].
      cbn in Hq. by rewrite El in Hq.
    + destruct (main_loop (length qs) (shared k) (at_pc (Fetch Resps 0 (AEmpty 0)) th) 0 eq_refl) as (th' & s' & [m Hm] & Hi & Hall).
      { by rewrite El. }
      { intros i q. by apply (Hfree Resps i q). }
      exists m, th', s'. rewrite Hcall, decide_True by (cbn; lia). split; [exact Hm|]. split; [done|].
      intros kd i q Hc Hq. destruct kd; cbn in Hc; rewrite Er in Hc; [done|]. destruct (Hall i q Hq) as [Hg Hq'].
      rewrite decide_True in Hg, Hq' by lia. cbn zeta iota. rewrite firstn_all, drop_all. done.
Qed.

End io_threads.

Arguments io : clear implicits.
Arguments thread : clear implicits.
Arguments choice : clear implicits.

(** ** Runs *)

Module Demo.

Definition start (n : nat) : config (io nat) (thread nat) :=
  {| shared := running 0 0 0; pcs := pool (Start n) NotStarted n |}.

Definition begin (n : nat) : config (io nat) (thread nat) :=
  {| shared := running 0 0 n; pcs := pool Idle Idle n |}.

Definition go (t : nat) (c : choice nat) (n : nat) : list (nat * choice nat) := (t, c) :: replicate n (t, Go).

(** The state of the theorems is the one the main thread reaches when the others wait. *)
Example started :
  let k := run_schedule next (replicate 13 (0, Moves) ++ replicate 1 (1, Go) ++ replicate 1 (2, Go) ++ replicate 1 (3, Go)
                                ++ replicate 1 (4, Go)) (start 4) in
  shared k = running 4 4 4 ∧ pcs k = pool Idle Idle 4.
Proof. vm_compute. split; reflexivity. Qed.

(** The first I/O thread runs while the vectors still grow: the element it is about to use
    has moved. *)
Example start_up :
  at_ <$> pcs (run_schedule next (replicate 3 (0, Moves) ++ (1, Go) :: go 1 CallLoop 1 ++ [(0, Moves); (1, Go)]) (start 2)) !! 1 = Some Undefined.
Proof. vm_compute. reflexivity. Qed.

(** [get_key_address] finds a key and the map is cleared before it reads the address. *)
Example cleared :
  at_ <$> pcs (run_schedule next (go 0 (CallEmplace "k" "a") 4 ++ go 1 (CallGet "k") 6 ++ go 0 CallClear 3 ++ replicate 2 (1, Go)) (begin 1)) !! 1
    = Some Undefined.
Proof. vm_compute. reflexivity. Qed.

(** Messages to two threads: the first has handled its second one and is about to pop it, the
    second answers. *)
Definition exchange : list (nat * choice nat) :=
  go 0 (CallPush 0 7) 6 ++ go 0 (CallPush 1 8) 6 ++ go 0 (CallPush 0 9) 6 ++ go 1 CallLoop 29 ++
  go 2 (CallPush 0 80) 6.

Definition exchanged : config (io nat) (thread nat) := run_schedule next_gentle exchange (begin 2).

Example after_exchange :
  (λ th, got_of th 0) <$> pcs exchanged !! 1 = Some [7; 9] ∧
  obj <$> elems (msgs (shared exchanged)) = [[9]; [8]] ∧ obj <$> elems (resps (shared exchanged)) = [[]; [80]].
Proof. vm_compute. split_and!; reflexivity. Qed.

End Demo.

Lemma io_threads_deliver_witness :
  match pcs Demo.exchanged !! 1, history (msgs (shared Demo.exchanged)) !! 0 with
  | Some th, Some h => h = [7; 9] ∧ got_of th 0 `prefix_of` h
  | _, _ => False
  end.
Proof.
  destruct (io_threads_deliver 0 0 2 Demo.exchanged) as (_ & H & _).
  { apply run_schedule_reachable. }
  destruct (pcs Demo.exchanged !! 1) as [th|] eqn:Et; [|vm_compute in Et; discriminate Et].
  destruct (history (msgs (shared Demo.exchanged)) !! 0) as [h|] eqn:Eh; [|vm_compute in Eh; discriminate Eh].
  destruct (elems (msgs (shared Demo.exchanged)) !! 0) as [q|] eqn:Eq; [|vm_compute in Eq; discriminate Eq].
  destruct (H 1 th Msgs 0 q h Et) as (H1 & _).
  - clear - Et. vm_compute in Et. injection Et as <-. reflexivity.
  - exact Eq.
  - exact Eh.
  - split; [|exact H1]. clear - Eh. vm_compute in Eh. injection Eh as <-. reflexivity.
Defined.

Lemma io_loops_end_witness :
  match pcs Demo.exchanged !! 2 with
  | Some th => ∃ m th' s', run_thread next_gentle (CallLoop :: replicate m Go) th (shared Demo.exchanged) = (th', s') ∧
      at_ th' = Idle ∧ got_of th' 1 = got_of th 1 ++ [8]
  | None => False
  end.
Proof.
  destruct (pcs Demo.exchanged !! 2) as [th|] eqn:Et; [|vm_compute in Et; discriminate Et].
  destruct (elems (sel Msgs (shared Demo.exchanged)) !! 1) as [q|] eqn:Eq; [|vm_compute in Eq; discriminate Eq].
  assert (role th = Some 1 ∧ at_ th = Idle) as [Hr Hi] by (clear - Et; vm_compute in Et; injection Et as <-; split; reflexivity).
  assert (mtx q = free_mutex ∧ obj q = [8]) as [Hm Ho] by (clear - Eq; vm_compute in Eq; injection Eq as <-; split; reflexivity).
  destruct (io_loops_end 0 0 2 Demo.exchanged 2 th) as (m & th' & s' & E & Hi' & Hall).
  - apply run_schedule_reachable.
  - exact Et.
  - exact Hi.
  - intros [] i q' Hc Hq'; cbn in Hc; rewrite Hr in Hc; [|discriminate Hc]. injection Hc as <-. rewrite Eq in Hq'. injection Hq' as <-. exact Hm.
  - exists m, th', s'. split; [exact E|]. split; [exact Hi'|]. destruct (Hall Msgs 1 q Hr Eq) as [-> _]. rewrite Ho. reflexivity.
Defined.
