(* ===== verification/SafeLocks.v ===== *)
(** * The locks of [safe_ptr.hpp]

    [contention_free_shared_mutex], a lock for readers and writers: every registered thread
    has a slot of its own, which it raises to read, and a writer takes a flag and then waits
    for every slot; a thread without a slot reads under the flag; and [recursive_spinlock_t].
    Threads are interleaved, one atomic operation at a time. *)

From S2P Require Import Prelude Interleaving.
#[local] Open Scope Z_scope.

Module ContFree.

(** ** State *)

(** [shared_locks_array]: 0 unregistered, 1 registered and free, more when it reads;
    [registered]: the threads that share the array with the mutex, [use_count() - 1]. *)
Record mutex := {
  want_x_lock : bool;
  owner_thread_id : option nat;
  shared_locks_array : list Z;
  recursive_xlock_count : Z;
  registered : Z }.

Definition set_want b m := {| want_x_lock := b; owner_thread_id := owner_thread_id m; shared_locks_array := shared_locks_array m;
  recursive_xlock_count := recursive_xlock_count m; registered := registered m |}.
Definition set_owner o m := {| want_x_lock := want_x_lock m; owner_thread_id := o; shared_locks_array := shared_locks_array m;
  recursive_xlock_count := recursive_xlock_count m; registered := registered m |}.
Definition set_slot i v m := {| want_x_lock := want_x_lock m; owner_thread_id := owner_thread_id m;
  shared_locks_array := <[i := v]> (shared_locks_array m); recursive_xlock_count := recursive_xlock_count m; registered := registered m |}.
Definition set_count n m := {| want_x_lock := want_x_lock m; owner_thread_id := owner_thread_id m;
  shared_locks_array := shared_locks_array m; recursive_xlock_count := n; registered := registered m |}.
Definition set_registered n m := {| want_x_lock := want_x_lock m; owner_thread_id := owner_thread_id m;
  shared_locks_array := shared_locks_array m; recursive_xlock_count := recursive_xlock_count m; registered := n |}.

Definition slot (i : nat) (m : mutex) : Z := default 0 (shared_locks_array m !! i).

(** [contention_free_count] slots. *)
Definition new_mutex (n : nat) : mutex := {| want_x_lock := false; owner_thread_id := None;
  shared_locks_array := replicate n 0; recursive_xlock_count := 0; registered := 0 |}.

(** [then_lock]: registration is the first part of [lock_shared]. *)
Inductive pc :=
| Idle
| RCount (then_lock : bool) | RTest (then_lock : bool) (i : nat) | RCas (then_lock : bool) (i : nat)
| UnTest | UnDec
(* lock_shared, with a slot and without *)
| SLoad | SAgain (d : Z) | SFirst (d : Z) | SWant (d : Z) | SBack (d : Z) | SSpin (d : Z)
| UOwner | UCas | UStore | UInc
(* lock *)
| XOwner | XCas | XStore | XScan (i : nat) | XInc
(* unlock_shared with a slot; unlock, and unlock_shared without *)
| SDown | SDownStore (d : Z)
| Down (shared : bool) | DOwner | DWant.

(** A thread: its slot ([thread_local_index_hashmap]), and the locks it holds: [sdepth]
    shared ones on its slot, [us] shared and [xs] exclusive ones under the flag. *)
Record thread := { tid : nat; index : option nat; at_ : pc; sdepth : Z; us : Z; xs : Z }.

Definition at_pc p th := {| tid := tid th; index := index th; at_ := p; sdepth := sdepth th; us := us th; xs := xs th |}.
Definition set_index i th := {| tid := tid th; index := i; at_ := at_ th; sdepth := sdepth th; us := us th; xs := xs th |}.
Definition hold_s d th := {| tid := tid th; index := index th; at_ := Idle; sdepth := sdepth th + d; us := us th; xs := xs th |}.
Definition hold_u d p th := {| tid := tid th; index := index th; at_ := p; sdepth := sdepth th; us := us th + d; xs := xs th |}.
Definition hold_x d p th := {| tid := tid th; index := index th; at_ := p; sdepth := sdepth th; us := us th; xs := xs th + d |}.

Definition new_thread t := {| tid := t; index := None; at_ := Idle; sdepth := 0; us := 0; xs := 0 |}.

(** ** Operations *)

(** [Spurious]: the weak compare-and-exchange fails. *)
Inductive choice := Register | Unregister | LockShared | UnlockShared | Lock | Unlock | Go | Spurious.

(** What a thread may call: no exclusive lock over a shared one, no registration while it
    reads without a slot, unregistration with a slot, and no unlock without a lock. *)
Definition allowed (c : choice) (th : thread) : bool :=
  match c with
  | Register => bool_decide (us th = 0)
  | Unregister => bool_decide (index th ≠ None)
  | LockShared => true
  | UnlockShared => match index th with Some _ => bool_decide (0 < sdepth th) | None => bool_decide (0 < us th) end
  | Lock => bool_decide (sdepth th = 0 ∧ us th = 0)
  | Unlock => bool_decide (0 < xs th)
  | Go | Spurious => false
  end.

Definition call (c : choice) (th : thread) : pc :=
  match c, index th with
  | Register, None => RCount false
  | Unregister, Some _ => UnTest
  | LockShared, None => RCount true
  | LockShared, Some _ => SLoad
  | UnlockShared, Some _ => SDown
  | UnlockShared, None => Down true
  | Lock, _ => XOwner
  | Unlock, _ => Down false
  | _, _ => Idle
  end.

(** [register_thread], [unregister_thread]. *)
Definition unregistered (then_lock : bool) : pc := if then_lock then UOwner else Idle.

Definition register_step (th : thread) (m : mutex) : thread * mutex :=
  match at_ th with
  | RCount k => (at_pc (if decide (registered m + 1 ≤ Z.of_nat (length (shared_locks_array m))) then RTest k 0 else unregistered k) th, m)
  | RTest k i =>
      (at_pc (if decide (i < length (shared_locks_array m))%nat
              then if decide (slot i m = 0) then RCas k i else RTest k (S i)
              else unregistered k) th, m)
  | RCas k i =>
      if decide (slot i m = 0)
      then (at_pc (if k then SLoad else Idle) (set_index (Some i) th), set_registered (registered m + 1) (set_slot i 1 m))
      else (at_pc (RTest k (S i)) th, m)
  | _ => (th, m)
  end.

Definition unregister_step (i : nat) (th : thread) (m : mutex) : thread * mutex :=
  match at_ th with
  | UnTest => (at_pc (if decide (slot i m = 1) then UnDec else Idle) th, m)
  | UnDec => (at_pc Idle (set_index None th), set_registered (registered m - 1) (set_slot i (slot i m - 1) m))
  | _ => (th, m)
  end.

(** [lock_shared] on the slot [i]. *)
Definition slot_step (i : nat) (th : thread) (m : mutex) : thread * mutex :=
  match at_ th with
  | SLoad => (at_pc (if decide (1 < slot i m) then SAgain (slot i m) else SFirst (slot i m)) th, m)
  | SAgain d => (hold_s 1 th, set_slot i (d + 1) m)
  | SFirst d => (at_pc (SWant d) th, set_slot i (d + 1) m)
  | SWant d => (if want_x_lock m then at_pc (SBack d) th else hold_s 1 th, m)
  | SBack d => (at_pc (SSpin d) th, set_slot i d m)
  | SSpin d => if want_x_lock m then (th, m) else (at_pc (SWant d) th, set_slot i (d + 1) m)
  | SDown => (at_pc (SDownStore (slot i m)) th, m)
  | SDownStore d => (hold_s (-1) th, set_slot i (d - 1) m)
  | _ => (th, m)
  end.

(** The flag: [lock], [unlock], and the shared lock without a slot. *)
Definition flag_step (c : choice) (th : thread) (m : mutex) : thread * mutex :=
  match at_ th with
  | UOwner => (at_pc (if decide (owner_thread_id m = Some (tid th)) then UInc else UCas) th, m)
  | UCas => match c with
            | Spurious => (th, m)
            | _ => if want_x_lock m then (th, m) else (at_pc UStore th, set_want true m)
            end
  | UStore => (at_pc UInc th, set_owner (Some (tid th)) m)
  | UInc => (hold_u 1 Idle th, set_count (recursive_xlock_count m + 1) m)
  | XOwner => (at_pc (if decide (owner_thread_id m = Some (tid th)) then XInc else XCas) th, m)
  | XCas => match c with
            | Spurious => (th, m)
            | _ => if want_x_lock m then (th, m) else (at_pc XStore th, set_want true m)
            end
  | XStore => (at_pc (XScan 0) th, set_owner (Some (tid th)) m)
  | XScan i => (at_pc (if decide (i < length (shared_locks_array m))%nat
                       then if decide (1 < slot i m) then XScan i else XScan (S i)
                       else XInc) th, m)
  | XInc => (hold_x 1 Idle th, set_count (recursive_xlock_count m + 1) m)
  | Down shared =>
      let p := if decide (recursive_xlock_count m - 1 = 0) then DOwner else Idle in
      (if shared then hold_u (-1) p th else hold_x (-1) p th, set_count (recursive_xlock_count m - 1) m)
  | DOwner => (at_pc DWant th, set_owner None m)
  | DWant => (at_pc Idle th, set_want false m)
  | _ => (th, m)
  end.

Definition next (c : choice) (th : thread) (m : mutex) : thread * mutex :=
  match at_ th with
  | Idle => (if allowed c th then at_pc (call c th) th else th, m)
  | RCount _ | RTest _ _ | RCas _ _ => register_step th m
  | UnTest | UnDec => match index th with Some i => unregister_step i th m | None => (th, m) end
  | SLoad | SAgain _ | SFirst _ | SWant _ | SBack _ | SSpin _ | SDown | SDownStore _ =>
      match index th with Some i => slot_step i th m | None => (th, m) end
  | _ => flag_step c th m
  end.

(** ** The invariant *)

(** The flag is this thread's; and the word of its owner is. *)
Definition flag_pc (p : pc) : bool :=
  match p with UStore | UInc | XStore | XScan _ | XInc | DOwner | DWant => true | _ => false end.
Definition has_flag (th : thread) : Prop := 0 < xs th + us th ∨ flag_pc (at_ th) = true.
Definition owner_of (th : thread) : option nat :=
  match at_ th with UStore | XStore | DWant => None | _ => Some (tid th) end.

(** What a thread knows at its program counter. *)
Definition pc_ok (th : thread) : Prop :=
  match at_ th with
  | Idle => True
  | RCount _ | RTest _ _ | RCas _ _ => index th = None
  | UnTest => is_Some (index th)
  | UnDec => is_Some (index th) ∧ sdepth th = 0
  | SLoad => is_Some (index th)
  | SAgain d => is_Some (index th) ∧ d = 1 + sdepth th ∧ 1 ≤ sdepth th
  | SFirst d | SWant d | SBack d | SSpin d => is_Some (index th) ∧ d = 1 ∧ sdepth th = 0
  | SDown => is_Some (index th) ∧ 1 ≤ sdepth th
  | SDownStore d => is_Some (index th) ∧ d = 1 + sdepth th ∧ 1 ≤ sdepth th
  | UOwner | UInc => True
  | UCas | UStore | DOwner | DWant => us th = 0 ∧ xs th = 0
  | XOwner | XInc => us th = 0 ∧ sdepth th = 0
  | XCas | XStore | XScan _ => us th = 0 ∧ xs th = 0 ∧ sdepth th = 0
  | Down true => 1 ≤ us th
  | Down false => 1 ≤ xs th
  end.

(** What its slot contains. *)
Definition slot_value (th : thread) : Z := match at_ th with SWant d | SBack d => d + 1 | _ => 1 + sdepth th end.

Definition mutex_ok (m : mutex) : Prop := want_x_lock m = false → recursive_xlock_count m = 0 ∧ owner_thread_id m = None.

Record thread_ok (th : thread) (m : mutex) : Prop := {
  ok_bounds : 0 ≤ sdepth th ∧ 0 ≤ us th ∧ 0 ≤ xs th;
  ok_pc : pc_ok th;
  ok_none : index th = None → sdepth th = 0;
  ok_slot i : index th = Some i → (i < length (shared_locks_array m))%nat ∧ slot i m = slot_value th;
  ok_cas k i : at_ th = RCas k i → (i < length (shared_locks_array m))%nat;
  ok_flag : has_flag th → want_x_lock m = true ∧ recursive_xlock_count m = xs th + us th ∧ owner_thread_id m = owner_of th;
  ok_no_flag : ¬ has_flag th → owner_thread_id m ≠ Some (tid th) }.

(** A writer inside, or past the slot of the reader. *)
Definition past (w : thread) (r : thread) : Prop :=
  0 < xs w ∨ at_ w = XInc ∨ ∃ j i, at_ w = XScan j ∧ index r = Some i ∧ (i < j)%nat.

Record pair_ok (th o : thread) : Prop := {
  pair_flag : has_flag th → ¬ has_flag o;
  pair_index i : index th = Some i → index o ≠ Some i;
  pair_past : past th o → sdepth o = 0;
  pair_past' : past o th → sdepth th = 0 }.

Lemma pair_ok_sym th o : pair_ok th o → pair_ok o th.
Proof. intros [Hf Hi Hp Hp']. split; [naive_solver| |done|done]. intros i H1 H2. by apply (Hi i). Qed.

Lemma slot_set i v m : (i < length (shared_locks_array m))%nat → slot i (set_slot i v m) = v.
Proof. intros Hi. unfold slot. cbn. by rewrite list_lookup_insert_eq. Qed.

Lemma slot_set_ne i j v m : i ≠ j → slot j (set_slot i v m) = slot j m.
Proof. intros Hi. unfold slot. cbn. by rewrite list_lookup_insert_ne. Qed.

(** The flag facts as one. *)
Definition flag_ok (th : thread) (m : mutex) : Prop :=
  (has_flag th → want_x_lock m = true ∧ recursive_xlock_count m = xs th + us th ∧ owner_thread_id m = owner_of th) ∧
  (¬ has_flag th → owner_thread_id m ≠ Some (tid th)).

Lemma thread_ok_intro th m :
  0 ≤ sdepth th ∧ 0 ≤ us th ∧ 0 ≤ xs th → pc_ok th → (index th = None → sdepth th = 0) →
  (∀ i, index th = Some i → (i < length (shared_locks_array m))%nat ∧ slot i m = slot_value th) →
  (∀ k i, at_ th = RCas k i → (i < length (shared_locks_array m))%nat) → flag_ok th m → thread_ok th m.
Proof. intros ? ? ? ? ? []. by split. Qed.

Lemma ok_flags th m : thread_ok th m → flag_ok th m.
Proof. by intros []. Qed.

(** A step that moves the program counter only. *)
Lemma at_pc_ok p th m :
  thread_ok th m → pc_ok (at_pc p th) → slot_value (at_pc p th) = slot_value th → (flag_pc p = flag_pc (at_ th)) →
  owner_of (at_pc p th) = owner_of th → (∀ k i, p = RCas k i → (i < length (shared_locks_array m))%nat) → thread_ok (at_pc p th) m.
Proof.
  intros Hth Hp Hs Hf Ho Hc. pose proof (ok_flags _ _ Hth) as Hfl. destruct Hth as [Hb _ Hn Hsl _ _].
  apply thread_ok_intro; [done|done|done|by rewrite Hs|done|]. unfold flag_ok, has_flag in *. cbn. by rewrite Hf, Ho.
Qed.

(** Pure case analysis over the facts of a thread. *)
Ltac facts := unfold flag_ok, has_flag, owner_of, mutex_ok, pc_ok, slot_value, past in *; cbn in *; intuition (try discriminate; try congruence; try lia; eauto).

Lemma next_self c th m :
  mutex_ok m → thread_ok th m → tid (next c th m).1 = tid th ∧ mutex_ok (next c th m).2 ∧ thread_ok (next c th m).1 (next c th m).2.
Proof.
  intros Hm Hth. pose proof (ok_flags _ _ Hth) as Hf. pose proof (ok_pc _ _ Hth) as Hpc.
  pose proof (ok_bounds _ _ Hth) as Hb. pose proof (ok_none _ _ Hth) as Hn. pose proof (ok_slot _ _ Hth) as Hs.
  pose proof (ok_cas _ _ Hth) as Hc.
  destruct th as [t ix p s u x]. unfold pc_ok in Hpc. cbn in Hpc, Hb, Hn, Hs, Hc. unfold next. cbn [at_ index].
  destruct p; cbn [register_step unregister_step slot_step flag_step at_].
  - destruct (allowed c _) eqn:Ha; [|done]. cbn [fst snd]. split_and!; [done|done|].
    apply at_pc_ok; [done|..]; destruct c, ix; cbn in *; try done; try (apply bool_decide_eq_true in Ha); auto with lia.
  - case_decide; [|destruct then_lock]; (split_and!; [done|done|by apply at_pc_ok]).
  - case_decide; [case_decide|destruct then_lock]; (split_and!; [done|done|apply at_pc_ok; try done]). by intros ? ? [= <- <-].
  - case_decide as H0; [|split_and!; [done|done|by apply at_pc_ok]]. subst ix. specialize (Hn eq_refl). subst s.
    assert (i < length (shared_locks_array m))%nat as Hi by (by apply (Hc then_lock)).
    destruct then_lock; cbn [fst snd]; (split_and!; [done|done|]); (apply thread_ok_intro; [cbn; lia|cbn; eauto|done| |done|facts]);
      intros j [= <-]; (split; [cbn; by rewrite length_insert|etransitivity; [by apply (slot_set i 1 m)|done]]).
  - destruct ix as [i|]; [|done]. case_decide as H1; (split_and!; [done|done|apply at_pc_ok; try done]).
    destruct (Hs i eq_refl) as [_ E]. cbn in E. split; [by eexists|cbn; lia].
  - destruct ix as [i|]; [|done]. destruct (Hs i eq_refl) as [Hi E]. cbn in E. destruct Hpc as [_ ->]. split_and!; [done|done|].
    apply thread_ok_intro; [done|done|done|done|done|]. facts.
  - destruct ix as [i|]; [|done]. destruct (Hs i eq_refl) as [Hi E]. cbn in E.
    case_decide; (split_and!; [done|done|apply at_pc_ok; try done]); cbn; rewrite E; facts.
  - destruct ix as [i|]; [|done]. destruct (Hs i eq_refl) as [Hi E]. cbn in E. split_and!; [done|done|].
    apply thread_ok_intro; [cbn; lia|done|done| |done|facts]. intros j [= <-]. cbn. rewrite slot_set, length_insert by done. split; [done|lia].
  - destruct ix as [i|]; [|done]. destruct (Hs i eq_refl) as [Hi E]. cbn in E. split_and!; [done|done|].
    apply thread_ok_intro; [cbn; lia|done|done| |done|facts]. intros j [= <-]. cbn. rewrite slot_set, length_insert by done. done.
  - destruct ix as [i|]; [|done]. destruct (Hs i eq_refl) as [Hi E]. cbn in E. destruct (want_x_lock m) eqn:Ew.
    + split_and!; [done|done|by apply at_pc_ok].
    + split_and!; [done|done|]. apply thread_ok_intro; [cbn; lia|done|done| |done|facts]. intros j [= <-]. cbn. split; [done|lia].
  - destruct ix as [i|]; [|done]. destruct (Hs i eq_refl) as [Hi E]. cbn in E. split_and!; [done|done|].
    apply thread_ok_intro; [cbn; lia|done|done| |done|facts]. intros j [= <-]. cbn. rewrite slot_set, length_insert by done. split; [done|lia].
  - destruct ix as [i|]; [|done]. destruct (Hs i eq_refl) as [Hi E]. cbn in E. destruct (want_x_lock m) eqn:Ew; [by split_and!|].
    split_and!; [done|done|]. apply thread_ok_intro; [cbn; lia|done|done| |done|facts]. intros j [= <-]. cbn. rewrite slot_set, length_insert by done. done.
  - case_decide as Ho; (split_and!; [done|done|]).
    + assert (has_flag {| tid := t; index := ix; at_ := UOwner; sdepth := s; us := u; xs := x |}) as Hflag.
      { destruct (decide (0 < x + u)); [by left|]. exfalso. facts. }
      apply thread_ok_intro; [done|done|done|done|done|]. facts.
    + apply at_pc_ok; try done. assert (¬ 0 < x + u) by (intros Hpos; apply Ho; apply Hf; by left). cbn. lia.
  - destruct c; try done; (destruct (want_x_lock m) eqn:Ew; [done|]; split_and!; [done|done|]; destruct (Hm Ew) as [Hcnt Hown];
      apply thread_ok_intro; [done|done|done|done|done|facts]).
  - split_and!; [done|facts|]. apply thread_ok_intro; [done|done|done|done|done|facts].
  - split_and!; [done|facts|]. apply thread_ok_intro; [cbn; lia|done|done|done|done|facts].
  - case_decide as Ho; (split_and!; [done|done|]).
    + assert (has_flag {| tid := t; index := ix; at_ := XOwner; sdepth := s; us := u; xs := x |}) as Hflag.
      { destruct (decide (0 < x + u)); [by left|]. exfalso. facts. }
      apply thread_ok_intro; [done|done|done|done|done|]. facts.
    + apply at_pc_ok; try done. assert (¬ 0 < x + u) by (intros Hpos; apply Ho; apply Hf; by left). cbn. lia.
  - destruct c; try done; (destruct (want_x_lock m) eqn:Ew; [done|]; split_and!; [done|done|]; destruct (Hm Ew) as [Hcnt Hown];
      apply thread_ok_intro; [done|done|done|done|done|facts]).
  - split_and!; [done|facts|]. apply thread_ok_intro; [done|done|done|done|done|facts].
  - case_decide; [case_decide|]; (split_and!; [done|done|]); apply at_pc_ok; try done; facts.
  - split_and!; [done|facts|]. apply thread_ok_intro; [cbn; lia|done|done|done|done|facts].
  - destruct ix as [i|]; [|done]. destruct (Hs i eq_refl) as [Hi E]. cbn in E. split_and!; [done|done|]. apply at_pc_ok; try done. cbn. rewrite E. facts.
  - destruct ix as [i|]; [|done]. destruct (Hs i eq_refl) as [Hi E]. cbn in E. split_and!; [done|done|].
    apply thread_ok_intro; [cbn; lia|done|done| |done|facts]. intros j [= <-]. cbn. rewrite slot_set, length_insert by done. split; [done|lia].
  - assert (0 < x + u) as Hpos by (destruct shared; lia). destruct (proj1 Hf (or_introl Hpos)) as (Hw & Hcnt & Hown). cbn in Hcnt, Hown.
    destruct shared; case_decide as Hz; (split_and!; [done|facts|]); (apply thread_ok_intro; [cbn; lia|cbn; facts|done|done|done|facts]).
  - split_and!; [done|facts|]. apply thread_ok_intro; [done|done|done|done|done|facts].
  - split_and!; [done|facts|]. apply thread_ok_intro; [done|done|done|done|done|facts].
Qed.

(** What a step may change of the mutex. *)
Record footprint (th : thread) (m : mutex) (th' : thread) (m' : mutex) : Prop := {
  fp_length : length (shared_locks_array m') = length (shared_locks_array m);
  fp_slots j : slot j m' = slot j m ∨ index th = Some j ∨ slot j m = 0;
  fp_index i : index th' = Some i → index th = Some i ∨ slot i m = 0;
  fp_flag : has_flag th' → has_flag th ∨ want_x_lock m = false;
  fp_words : want_x_lock m' = want_x_lock m ∧ recursive_xlock_count m' = recursive_xlock_count m ∧ owner_thread_id m' = owner_thread_id m
    ∨ (has_flag th ∨ want_x_lock m = false) ∧
      (owner_thread_id m' = owner_thread_id m ∨ owner_thread_id m' = Some (tid th) ∨ owner_thread_id m' = None) }.

Lemma footprint_same th m th' :
  (∀ i, index th' = Some i → index th = Some i) → (has_flag th' → has_flag th ∨ want_x_lock m = false) → footprint th m th' m.
Proof. intros Hi Hf. split; [done|by left|intros i Hi'; left; by apply Hi|done|by left]. Qed.

Lemma footprint_slot th m th' i v n :
  index th = Some i ∨ slot i m = 0 → (∀ j, index th' = Some j → index th = Some j ∨ slot j m = 0) → (has_flag th' → has_flag th) →
  footprint th m th' (set_registered n (set_slot i v m)).
Proof.
  intros Hi Hi' Hf. split; [cbn; by rewrite length_insert| |done|by left; apply Hf|by left]. intros j. destruct (decide (i = j)) as [<-|Hne]; [tauto|].
  left. by apply (slot_set_ne i j v m).
Qed.

Lemma footprint_words th m th' m' :
  shared_locks_array m' = shared_locks_array m → (∀ i, index th' = Some i → index th = Some i) → has_flag th ∨ want_x_lock m = false →
  (owner_thread_id m' = owner_thread_id m ∨ owner_thread_id m' = Some (tid th) ∨ owner_thread_id m' = None) → footprint th m th' m'.
Proof.
  intros Hs Hi Hf Ho. split; [by rewrite Hs|left; unfold slot; by rewrite Hs|intros i Hi'; left; by apply Hi|done|by right].
Qed.

Lemma next_footprint c th m : thread_ok th m → footprint th m (next c th m).1 (next c th m).2.
Proof.
  intros Hth. pose proof (ok_flags _ _ Hth) as Hf. pose proof (ok_pc _ _ Hth) as Hpc. pose proof (ok_bounds _ _ Hth) as Hb.
  destruct th as [t ix p s u x]. unfold pc_ok in Hpc. cbn in Hpc, Hb. unfold next. cbn [at_ index].
  destruct p; cbn [register_step unregister_step slot_step flag_step at_].
  - destruct (allowed c _); apply footprint_same; cbn; auto. destruct c, ix; facts.
  - case_decide; [|destruct then_lock]; (apply footprint_same; [done|facts]).
  - case_decide; [case_decide|destruct then_lock]; (apply footprint_same; [done|facts]).
  - case_decide; [|by (apply footprint_same; [done|facts])]. apply footprint_slot; [by right|intros j; destruct then_lock; intros [= <-]; by right|destruct then_lock; facts].
  - destruct ix as [i|]; [|apply footprint_same; auto]. case_decide; (apply footprint_same; [done|facts]).
  - destruct ix as [i|]; [|apply footprint_same; auto]. apply footprint_slot; [by left|done|facts].
  - destruct ix as [i|]; [|apply footprint_same; auto]. case_decide; (apply footprint_same; [done|facts]).
  - destruct ix as [i|]; [|apply footprint_same; auto]. apply (footprint_slot _ _ _ i _ (registered m)); [by left|by left|facts].
  - destruct ix as [i|]; [|apply footprint_same; auto]. apply (footprint_slot _ _ _ i _ (registered m)); [by left|by left|facts].
  - destruct ix as [i|]; [|apply footprint_same; auto]. destruct (want_x_lock m); (apply footprint_same; [done|facts]).
  - destruct ix as [i|]; [|apply footprint_same; auto]. apply (footprint_slot _ _ _ i _ (registered m)); [by left|by left|facts].
  - destruct ix as [i|]; [|apply footprint_same; auto]. destruct (want_x_lock m); [apply footprint_same; auto|].
    apply (footprint_slot _ _ _ i _ (registered m)); [by left|by left|facts].
  - case_decide; (apply footprint_same; [done|]); [|facts]. intros _. left. left. destruct (decide (0 < x + u)); [done|]. exfalso. facts.
  - destruct c; try (by apply footprint_same; auto); (destruct (want_x_lock m) eqn:Ew; [apply footprint_same; auto|]; by apply footprint_words; auto).
  - apply footprint_words; [done|done|left; by right|by right; left].
  - apply footprint_words; [done|done|left; by right|by left].
  - case_decide; (apply footprint_same; [done|]); [|facts]. intros _. left. left. destruct (decide (0 < x + u)); [done|]. exfalso. facts.
  - destruct c; try (by apply footprint_same; auto); (destruct (want_x_lock m) eqn:Ew; [apply footprint_same; auto|]; by apply footprint_words; auto).
  - apply footprint_words; [done|done|left; by right|by right; left].
  - case_decide; [case_decide|]; (apply footprint_same; [done|intros _; left; by right]).
  - apply footprint_words; [done|done|left; by right|by left].
  - destruct ix as [i|]; [|apply footprint_same; auto]. apply footprint_same; [done|facts].
  - destruct ix as [i|]; [|apply footprint_same; auto]. apply (footprint_slot _ _ _ i _ (registered m)); [by left|by left|facts].
  - destruct shared; (apply footprint_words; [done|done|left; left; cbn; lia|by left]).
  - apply footprint_words; [done|done|left; by right|by right; right].
  - apply footprint_words; [done|done|left; by right|by left].
Qed.

(** Another thread, and what they know of each other. *)
Lemma other_ok th m th' m' o :
  footprint th m th' m' → tid th ≠ tid o → pair_ok th o → thread_ok o m → thread_ok o m'.
Proof.
  intros [Hl Hsl _ _ Hw] Hne [Hpf Hpi _ _] Ho. pose proof (ok_flags _ _ Ho) as [Hf Hnf]. pose proof (ok_bounds _ _ Ho) as Hb. pose proof (ok_pc _ _ Ho) as Hpc.
  destruct Ho as [_ _ Hn Hs Hc _ _]. apply thread_ok_intro; [done|done|done| |by rewrite Hl|].
  - intros i Hi. destruct (Hs i Hi) as [Hlt E]. rewrite Hl. split; [done|]. destruct (Hsl i) as [->|[Hth|H0]]; [done|by destruct (Hpi i)|].
    exfalso. rewrite H0 in E. unfold slot_value, pc_ok in *. destruct (at_ o); lia.
  - split.
    + intros Ho. destruct Hw as [(-> & -> & ->)|[[Hth|Hw] _]]; [by apply Hf|by destruct Hpf|]. destruct (Hf Ho) as [E _]. congruence.
    + intros Ho. specialize (Hnf Ho). destruct Hw as [(_ & _ & ->)|[_ [->|[->| ->]]]]; [done|done|congruence|done].
Qed.

Lemma past_flag w r m : thread_ok w m → past w r → has_flag w.
Proof.
  intros Hw. pose proof (ok_bounds _ _ Hw). intros [Hx|[Hx|(j & i & Hx & _)]]; [left; lia|right; by rewrite Hx|right; by rewrite Hx].
Qed.

(** A writer that gets past a slot has seen it free. *)
Lemma next_past c th m o :
  thread_ok th m → thread_ok o m → (past th o → sdepth o = 0) → past (next c th m).1 o → sdepth o = 0.
Proof.
  intros Hth Hoth Hold. pose proof (ok_flags _ _ Hth) as Hf. pose proof (ok_pc _ _ Hth) as Hpc. pose proof (ok_bounds _ _ Hth) as Hb.
  pose proof (ok_bounds _ _ Hoth) as Hbo. pose proof (ok_none _ _ Hoth) as Hno. pose proof (ok_slot _ _ Hoth) as Hso. pose proof (ok_pc _ _ Hoth) as Hpco.
  destruct th as [t ix p s u x]. unfold pc_ok in Hpc. cbn in Hpc, Hb. unfold next. cbn [at_ index].
  assert (∀ th', xs th' ≤ x → at_ th' ≠ XInc → (∀ j, at_ th' ≠ XScan j) → past th' o → sdepth o = 0) as Hquiet.
  { intros th' Hx Hp1 Hp2 [Hx'|[?|(j & i & Hj & _)]]; [|done|by destruct (Hp2 j)]. apply Hold. left. cbn. lia. }
  destruct p; cbn [register_step unregister_step slot_step flag_step at_]; unfold unregistered.
  all: try (repeat first [case_decide | case_match]; cbn [fst snd]; by (apply Hquiet; cbn; try lia; try congruence)).
  - destruct (allowed c _); apply Hquiet; cbn; try lia; try congruence; destruct c, ix; cbn; congruence.
  - case_decide as Ho; [|by apply Hquiet]. intros _. apply Hold. left. cbn. destruct (decide (0 < x)); [done|]. exfalso. facts.
  - intros [Hx|[?|(j & i & [= <-] & _ & Hi)]]; [cbn in Hx; lia|done|lia].
  - case_decide as Hlt; [case_decide as Hbusy|].
    + exact Hold.
    + intros [Hx|[?|(j & i' & [= <-] & Hi' & Hlt')]]; [apply Hold; by left|done|].
      destruct (decide (i' = i)) as [->|Hne]; [|apply Hold; right; right; exists i, i'; split_and!; [done|done|lia]].
      destruct (Hso i Hi') as [_ E]. unfold slot_value, pc_ok in *. destruct (at_ o); lia.
    + intros _. destruct (index o) as [i'|] eqn:Ei; [|by apply Hno]. destruct (Hso i' eq_refl) as [Hl' _].
      apply Hold. right. right. exists i, i'. split_and!; [done|done|lia].
  - intros _. apply Hold. right. by left.
Qed.

(** A reader does not get in when a writer is past its slot. *)
Lemma next_reads c th m o :
  thread_ok th m → thread_ok o m → (past o th → sdepth th = 0) → past o (next c th m).1 → sdepth (next c th m).1 = 0.
Proof.
  intros Hth Hoth Hold. pose proof (ok_pc _ _ Hth) as Hpc. pose proof (ok_none _ _ Hth) as Hn.
  assert (∀ th', (∀ i, index th' = Some i → index th = Some i) → sdepth th' = sdepth th → past o th' → sdepth th' = 0) as Hsame.
  { intros th' Hi -> Hp. apply Hold. destruct Hp as [?|[?|(j & i & ? & ? & ?)]]; [by left|by right; left|right; right; eauto 6]. }
  assert (past o th → want_x_lock m = true) as Hw.
  { intros Hp. apply (past_flag o th m Hoth) in Hp. by destruct (ok_flag _ _ Hoth Hp). }
  destruct th as [t ix p s u x]. unfold pc_ok in Hpc. cbn in Hpc, Hn. unfold next. cbn [at_ index].
  destruct p; cbn [register_step unregister_step slot_step flag_step at_]; unfold unregistered.
  all: try (repeat first [case_decide | case_match]; cbn [fst snd]; by apply Hsame).
  - case_decide; [|by apply Hsame]. intros _. destruct then_lock; by apply Hn.
  - destruct ix as [i|]; [|by apply Hsame]. intros Hp. exfalso. assert (s = 0) as -> by (by apply Hold). lia.
  - destruct ix as [i|]; [|by apply Hsame]. destruct (want_x_lock m) eqn:Ew; [by apply Hsame|]. intros Hp. by discriminate Hw.
  - destruct ix as [i|]; [|by apply Hsame]. intros Hp. exfalso. assert (s = 0) as -> by (by apply Hold). lia.
Qed.

Definition contfree_inv (k : config mutex thread) : Prop :=
  mutex_ok (shared k) ∧ (∀ t th, pcs k !! t = Some th → tid th = t ∧ thread_ok th (shared k)) ∧
  ∀ t t' th th', t ≠ t' → pcs k !! t = Some th → pcs k !! t' = Some th' → pair_ok th th'.

Lemma contfree_inv_step m pcs t th c :
  contfree_inv {| shared := m; pcs := pcs |} → pcs !! t = Some th →
  contfree_inv {| shared := (next c th m).2; pcs := <[t := (next c th m).1]> pcs |}.
Proof.
  intros (Hm & Hall & Hpair) Ht. cbn [shared Interleaving.pcs] in *. destruct (Hall t th Ht) as [Hid Hth].
  destruct (next_self c th m Hm Hth) as (Hid' & Hm' & Hth'). pose proof (next_footprint c th m Hth) as Hfp.
  assert (∀ t' o, t' ≠ t → pcs !! t' = Some o → thread_ok o (next c th m).2 ∧ pair_ok (next c th m).1 o) as Hother.
  { intros t' o Hne Ho. destruct (Hall t' o Ho) as [Hido Hoth]. pose proof (Hpair t t' th o (not_eq_sym Hne) Ht Ho) as Hp.
    split; [by eapply other_ok; [exact Hfp|congruence|..]|]. split.
    - intros Hf Hfo. destruct (fp_flag _ _ _ _ Hfp Hf) as [Hf'|Hw]; [by apply (pair_flag _ _ Hp)|].
      destruct (ok_flag _ _ Hoth Hfo) as [E _]. congruence.
    - intros i Hi Hi'. destruct (fp_index _ _ _ _ Hfp i Hi) as [Hi2|H0]; [by apply (pair_index _ _ Hp i)|].
      destruct (ok_slot _ _ Hoth i Hi') as [_ E]. pose proof (ok_bounds _ _ Hoth). pose proof (ok_pc _ _ Hoth) as Hpc.
      rewrite H0 in E. unfold slot_value, pc_ok in *. destruct (at_ o); lia.
    - intros Hpast. eapply (next_past c th m o Hth Hoth); [by apply (pair_past _ _ Hp)|exact Hpast].
    - apply (next_reads c th m o Hth Hoth). apply (pair_past' _ _ Hp). }
  split; [done|]. cbn [shared Interleaving.pcs]. split.
  - intros t' o Ho. apply lookup_insert_Some in Ho as [[<- <-]|[Hne Ho]]; [by rewrite Hid'|].
    split; [by apply Hall|by apply (Hother t')].
  - intros t1 t2 o1 o2 Hne H1 H2. apply lookup_insert_Some in H1 as [[<- <-]|[Hn1 H1]], H2 as H2';
      apply lookup_insert_Some in H2 as [[<- <-]|[Hn2 H2]]; try done.
    + by apply (Hother t2).
    + apply pair_ok_sym. by apply (Hother t1).
    + by eapply (Hpair t1 t2).
Qed.

(** The lock excludes: while a thread holds it exclusively, no other holds it at all,
    shared or exclusively, with a slot or without, for any number of threads and slots, any
    recursion, registration and unregistration, as long as no thread asks for it
    exclusively while it holds it shared, or registers while it reads without a slot; and a
    thread that reads without a slot is the only one under the flag. *)
Theorem contfree_excludes n ts k :
  (∀ t th, ts !! t = Some th → th = new_thread t) → reachable next {| shared := new_mutex n; pcs := ts |} k →
  ∀ t t' th th', t ≠ t' → pcs k !! t = Some th → pcs k !! t' = Some th' →
  (0 < xs th → sdepth th' = 0 ∧ us th' = 0 ∧ xs th' = 0) ∧ (0 < us th → us th' = 0 ∧ xs th' = 0).
Proof.
  intros Hts Hr. assert (contfree_inv k) as (_ & Hall & Hpair).
  { revert k Hr. apply reachable_invariant; [|apply contfree_inv_step]. split; [done|]. split; cbn.
    - intros t th Ht. rewrite (Hts t th Ht). split; [done|]. split; cbn; try done. by intros [?|?].
    - intros t t' th th' _ Ht Ht'. rewrite (Hts t th Ht), (Hts t' th' Ht'). split; cbn; try done. by intros [?|?]. }
  intros t t' th th' Hne Ht Ht'. destruct (Hall t th Ht) as [_ Hth], (Hall t' th' Ht') as [_ Hth'].
  pose proof (Hpair t t' th th' Hne Ht Ht') as Hp. pose proof (ok_bounds _ _ Hth). pose proof (ok_bounds _ _ Hth').
  assert (0 < xs th + us th → us th' = 0 ∧ xs th' = 0) as Hflag.
  { intros Hpos. assert (¬ 0 < xs th' + us th'); [|lia]. intros Hpos'. by apply (pair_flag _ _ Hp); left. }
  split; [|intros; apply Hflag; lia]. intros Hx. split; [|apply Hflag; lia]. apply (pair_past _ _ Hp). by left.
Qed.


Definition spins (p : pc) : bool := match p with SFirst _ | SWant _ | SBack _ | SSpin _ => true | _ => false end.

(** A thread that holds the lock exclusively and asks for it shared, with a slot, waits for
    itself: [lock_shared] never returns. *)
Theorem shared_over_exclusive_hangs k t th k' :
  contfree_inv k → pcs k !! t = Some th → 0 < xs th → spins (at_ th) = true → reachable next k k' →
  ∃ th', pcs k' !! t = Some th' ∧ spins (at_ th') = true ∧ 0 < xs th'.
Proof.
  intros Hinv Ht Hx Hs Hr.
  assert (contfree_inv k' ∧ ∃ th', pcs k' !! t = Some th' ∧ spins (at_ th') = true ∧ 0 < xs th') as [_ ?]; [|done].
  revert k' Hr. apply reachable_invariant; [split; [done|by exists th]|]. clear.
  intros m ts t' th' c [Hinv (th & Ht & Hs & Hx)] Ht'. split; [by apply contfree_inv_step|]. cbn [shared pcs] in *.
  destruct (decide (t' = t)) as [->|Hne]; [|exists th; by rewrite lookup_insert_ne]. rewrite lookup_insert_eq.
  rewrite Ht in Ht'. injection Ht' as <-. eexists. split; [reflexivity|]. destruct Hinv as (_ & Hall & _).
  destruct (Hall t th Ht) as [_ Hth]. pose proof (ok_bounds _ _ Hth). destruct (ok_flag _ _ Hth) as [Hw _]; [left; lia|].
  pose proof (ok_pc _ _ Hth) as Hpc. destruct th as [? ix p s u x]. unfold next, pc_ok in *. cbn in *.
  destruct p; try done; destruct ix as [i|]; try (by destruct Hpc as [[? ?] _]); cbn; rewrite ?Hw; done.
Qed.

Module Demo.

Definition pool : gmap nat thread := {[0%nat := new_thread 0; 1%nat := new_thread 1]}.

(** Thread 0 holds the lock exclusively, thread 1 waits for it shared. *)
Definition locked : config mutex thread :=
  run_schedule next
    ([(0, Lock); (1, LockShared); (1, Go); (1, Go); (1, Go); (0, Go); (0, Go); (0, Go); (0, Go); (0, Go); (0, Go); (0, Go);
      (1, Go); (1, Go); (1, Go); (1, Go)])%nat
    {| shared := new_mutex 2; pcs := pool |}.

Example reader_waits :
  map_to_list ((λ th, (xs th, sdepth th)) <$> pcs locked) = [(1%nat, (0, 0)); (0%nat, (1, 0))].
Proof. vm_compute. reflexivity. Qed.

(** Thread 0 then asks for it shared too. *)
Definition hung : config mutex thread :=
  run_schedule next [(0, LockShared); (0, Go); (0, Go); (0, Go); (0, Go); (0, Go); (0, Go)]%nat locked.

Example asks_itself : (λ th, (xs th, spins (at_ th))) <$> pcs hung !! 0%nat = Some (1, true).
Proof. vm_compute. reflexivity. Qed.

End Demo.

Lemma contfree_excludes_witness :
  ∃ th th', pcs Demo.locked !! 0%nat = Some th ∧ pcs Demo.locked !! 1%nat = Some th' ∧ 0 < xs th ∧
    sdepth th' = 0 ∧ us th' = 0 ∧ xs th' = 0.
Proof.
  eexists _, _. split; [vm_compute; reflexivity|]. split; [vm_compute; reflexivity|]. split; [cbn; lia|].
  refine (proj1 (contfree_excludes 2 Demo.pool Demo.locked _ _ 0%nat 1%nat _ _ _ _ _) _).
  - intros t th Ht. unfold Demo.pool in Ht. apply lookup_insert_Some in Ht as [[<- <-]|[_ Ht]]; [done|].
    by apply lookup_singleton_Some in Ht as [<- <-].
  - apply run_schedule_reachable.
  - done.
  - vm_compute. reflexivity.
  - vm_compute. reflexivity.
  - cbn. lia.
Defined.

End ContFree.

(** ** [recursive_spinlock_t] *)

Module RecSpin.

Record lock := { lock_flag : bool; owner_thread_id : option nat; recursive_counter : Z }.

(** [retry]: the call is [lock], which tries until it succeeds. *)
Inductive pc := Idle | TestAndSet (retry : bool) | StoreOwner | LoadOwner (retry : bool) | Inc | Dec | ClearOwner | ClearFlag.

Record thread := { tid : nat; at_ : pc; depth : Z }.

Definition new_thread t := {| tid := t; at_ := Idle; depth := 0 |}.
Definition at_pc p th := {| tid := tid th; at_ := p; depth := depth th |}.
Definition hold d p th := {| tid := tid th; at_ := p; depth := depth th + d |}.

Inductive choice := TryLock | Lock | Unlock | Go.

Definition try_lock (th : thread) (l : lock) : thread * lock :=
  match at_ th with
  | TestAndSet retry =>
      if lock_flag l then (at_pc (LoadOwner retry) th, l)
      else (at_pc StoreOwner th, {| lock_flag := true; owner_thread_id := owner_thread_id l; recursive_counter := recursive_counter l |})
  | StoreOwner => (at_pc Inc th, {| lock_flag := lock_flag l; owner_thread_id := Some (tid th); recursive_counter := recursive_counter l |})
  | LoadOwner retry => (at_pc (if decide (owner_thread_id l = Some (tid th)) then Inc else if retry then TestAndSet true else Idle) th, l)
  | Inc => (hold 1 Idle th, {| lock_flag := lock_flag l; owner_thread_id := owner_thread_id l; recursive_counter := recursive_counter l + 1 |})
  | _ => (th, l)
  end.

Definition unlock (th : thread) (l : lock) : thread * lock :=
  match at_ th with
  | Dec =>
      (hold (-1) (if decide (recursive_counter l - 1 = 0) then ClearOwner else Idle) th,
       {| lock_flag := lock_flag l; owner_thread_id := owner_thread_id l; recursive_counter := recursive_counter l - 1 |})
  | ClearOwner => (at_pc ClearFlag th, {| lock_flag := lock_flag l; owner_thread_id := None; recursive_counter := recursive_counter l |})
  | ClearFlag => (at_pc Idle th, {| lock_flag := false; owner_thread_id := owner_thread_id l; recursive_counter := recursive_counter l |})
  | _ => (th, l)
  end.

(** [unlock] is called by a thread that holds the lock, as it asserts. *)
Definition next (c : choice) (th : thread) (l : lock) : thread * lock :=
  match at_ th with
  | Idle =>
      (match c with
       | TryLock => at_pc (TestAndSet false) th
       | Lock => at_pc (TestAndSet true) th
       | Unlock => if decide (0 < depth th) then at_pc Dec th else th
       | Go => th
       end, l)
  | Dec | ClearOwner | ClearFlag => unlock th l
  | _ => try_lock th l
  end.

Definition owns_pc (p : pc) : bool := match p with StoreOwner | Inc | ClearOwner | ClearFlag => true | _ => false end.
Definition owns (th : thread) : Prop := 0 < depth th ∨ owns_pc (at_ th) = true.
Definition owner_of (th : thread) : option nat := match at_ th with StoreOwner | ClearFlag => None | _ => Some (tid th) end.

Definition pc_ok (th : thread) : Prop :=
  match at_ th with StoreOwner | ClearOwner | ClearFlag => depth th = 0 | Dec => 0 < depth th | _ => 0 ≤ depth th end.

Definition lock_ok (l : lock) : Prop := lock_flag l = false → owner_thread_id l = None ∧ recursive_counter l = 0.

Definition thread_ok (th : thread) (l : lock) : Prop :=
  pc_ok th ∧ (owns th → lock_flag l = true ∧ owner_thread_id l = owner_of th ∧ recursive_counter l = depth th) ∧
  (¬ owns th → owner_thread_id l ≠ Some (tid th)).

Ltac facts := unfold lock_ok, thread_ok, pc_ok, owns, owner_of in *; cbn in *; intuition (try discriminate; try congruence; try lia).

Lemma recspin_next_self c th l :
  lock_ok l → thread_ok th l → tid (next c th l).1 = tid th ∧ lock_ok (next c th l).2 ∧ thread_ok (next c th l).1 (next c th l).2.
Proof.
  intros Hl (Hp & Hown & Hno). destruct th as [t p d]. unfold next. cbn [at_].
  assert (0 ≤ d) as Hd by (unfold pc_ok in Hp; cbn in Hp; destruct p; lia).
  destruct (decide (0 < d)) as [Hpos|Hpos].
  - destruct (Hown (or_introl Hpos)) as (Hf & Ho & Hc).
    destruct p; cbn [try_lock unlock at_]; repeat first [case_decide | case_match]; (split_and!; [done|facts|]); facts.
  - assert (d = 0) as -> by lia.
    destruct p; cbn [try_lock unlock at_]; repeat first [case_decide | case_match]; (split_and!; [done|facts|]); facts.
Qed.

(** What a step may change of the words. *)
Lemma next_words c th l :
  thread_ok th l →
  (next c th l).2 = l ∨ (owns th ∨ lock_flag l = false) ∧
    (owner_thread_id (next c th l).2 = owner_thread_id l ∨ owner_thread_id (next c th l).2 = Some (tid th) ∨
     owner_thread_id (next c th l).2 = None).
Proof.
  intros (Hp & Hown & Hno). destruct th as [t p d]. unfold next. cbn [at_].
  destruct p; cbn [try_lock unlock at_]; repeat first [case_decide | case_match]; facts.
Qed.

Lemma recspin_next_owns c th l : thread_ok th l → owns (next c th l).1 → owns th ∨ lock_flag l = false.
Proof.
  intros (Hp & Hown & Hno). destruct th as [t p d]. unfold next. cbn [at_]. destruct (decide (0 < d)); [left; by left|].
  destruct p; cbn [try_lock unlock at_]; repeat first [case_decide | case_match]; facts.
Qed.

Definition recspin_inv (k : config lock thread) : Prop :=
  lock_ok (shared k) ∧ (∀ t th, pcs k !! t = Some th → tid th = t ∧ thread_ok th (shared k)) ∧
  ∀ t t' th th', t ≠ t' → pcs k !! t = Some th → pcs k !! t' = Some th' → owns th → ¬ owns th'.

Lemma recspin_inv_step l ts t th c :
  recspin_inv {| shared := l; pcs := ts |} → ts !! t = Some th →
  recspin_inv {| shared := (next c th l).2; pcs := <[t := (next c th l).1]> ts |}.
Proof.
  intros (Hl & Hall & Hex) Ht. cbn [shared pcs] in *. destruct (Hall t th Ht) as [Hid Hth].
  destruct (recspin_next_self c th l Hl Hth) as (Hid' & Hl' & Hth').
  assert (∀ t' o, t' ≠ t → ts !! t' = Some o → thread_ok o (next c th l).2 ∧ (owns (next c th l).1 → ¬ owns o)) as Hother.
  { intros t' o Hne Ho. destruct (Hall t' o Ho) as [Hido (Hpo & Howno & Hnoo)]. pose proof (Hex t t' th o (not_eq_sym Hne) Ht Ho) as Hp. split.
    - destruct (next_words c th l Hth) as [->|[Hor Hw]]; [done|]. split; [done|]. split.
      + intros Hoo. destruct Hor as [?|Hf]; [by destruct Hp|]. destruct (Howno Hoo) as [E _]. congruence.
      + intros Hoo. destruct Hw as [->|[->| ->]]; [by apply Hnoo|congruence|done].
    - intros Hown Hoo. destruct (recspin_next_owns c th l Hth Hown) as [?|Hf]; [by destruct Hp|]. destruct (Howno Hoo) as [E _]. congruence. }
  split; [done|]. cbn [shared pcs]. split.
  - intros t' o Ho. apply lookup_insert_Some in Ho as [[<- <-]|[Hne Ho]]; [by rewrite Hid'|]. split; [by apply Hall|by apply (Hother t')].
  - intros t1 t2 o1 o2 Hne H1 H2. apply lookup_insert_Some in H1 as [[<- <-]|[Hn1 H1]], H2 as H2';
      apply lookup_insert_Some in H2 as [[<- <-]|[Hn2 H2]]; try done.
    + by apply (Hother t2).
    + intros Ho1 Ho2. by apply (proj2 (Hother t1 o1 (not_eq_sym Hn1) H1)).
    + by eapply (Hex t1 t2).
Qed.

(** One thread at a time holds the lock, as often as it likes: another call of the holder
    gets it again in three steps. *)
Theorem recspin_excludes ts k :
  (∀ t th, ts !! t = Some th → th = new_thread t) →
  reachable next {| shared := {| lock_flag := false; owner_thread_id := None; recursive_counter := 0 |}; pcs := ts |} k →
  ∀ t th, pcs k !! t = Some th → 0 < depth th →
  (∀ t' th', t' ≠ t → pcs k !! t' = Some th' → depth th' ≤ 0) ∧
  (at_ th = Idle → (run_thread next [Lock; Go; Go; Go] th (shared k)).1 = {| tid := t; at_ := Idle; depth := depth th + 1 |}).
Proof.
  intros Hts Hr. assert (recspin_inv k) as (_ & Hall & Hex).
  { revert k Hr. apply reachable_invariant; [|apply recspin_inv_step]. split; [done|]. split; cbn.
    - intros t th Ht. rewrite (Hts t th Ht). split; [done|]. split; cbn; [done|]. split; [by intros [?|?]|done].
    - intros t t' th th' _ Ht Ht'. rewrite (Hts t th Ht). by intros [?|?]. }
  intros t th Ht Hd. destruct (Hall t th Ht) as [Hid (_ & Hown & _)]. destruct (Hown (or_introl Hd)) as (Hf & Ho & _). split.
  - intros t' th' Hne Ht'. assert (¬ 0 < depth th'); [|lia]. intros Hd'. by apply (Hex t t' th th'); [done|done|done|left|left].
  - intros Hidle. destruct th as [t0 p d]. cbn in *. subst t0 p. unfold run_thread, owner_of in *. cbn in *. rewrite Hf. cbn. by rewrite decide_True.
Qed.

Definition spun : config lock thread :=
  run_schedule next [(0, Lock); (0, Go); (0, Go); (0, Go); (1, Lock); (1, Go); (1, Go)]%nat
    {| shared := {| lock_flag := false; owner_thread_id := None; recursive_counter := 0 |};
       pcs := {[0%nat := new_thread 0; 1%nat := new_thread 1]} |}.

Lemma recspin_excludes_witness :
  ∃ th, pcs spun !! 0%nat = Some th ∧ 0 < depth th ∧ (∀ t' th', t' ≠ 0%nat → pcs spun !! t' = Some th' → depth th' ≤ 0).
Proof.
  eexists. split; [vm_compute; reflexivity|]. split; [cbn; lia|].
  refine (proj1 (recspin_excludes {[0%nat := new_thread 0; 1%nat := new_thread 1]} spun _ _ 0%nat _ _ _)).
  - intros t th Ht. apply lookup_insert_Some in Ht as [[<- <-]|[_ Ht]]; [done|]. by apply lookup_singleton_Some in Ht as [<- <-].
  - apply run_schedule_reachable.
  - vm_compute. reflexivity.
  - cbn. lia.
Defined.

End RecSpin.
