(* ===== verification/IpcBase.v ===== *)
(** * Shared-memory IPC: constants, the pool of ids, connections
    ([def.h], [id_pool.h], [elem_def.h])

    [IdPool] hands out the numbers of the shared blocks for large messages from a free
    list threaded through an array of bytes.  [ConnHead] keeps the receivers of a
    queue: one bit per receiver when messages are broadcast, a counter otherwise. *)

From S2P Require Import Prelude.

(** ** Constants ([def.h]) *)

Definition invalid_value : Z := 2 ^ 64 - 1.
Definition data_length : Z := 64.
Definition large_msg_limit : Z := data_length.
Definition large_msg_cache : Z := 32.

(** The index in the ring of a 32-bit counter, its lowest byte. *)
Definition index_of (c : Z) : Z := u8 c.

(** The size of the blocks for messages of a size. *)
Definition calc_cls_size (size : Z) : Z := ((u64 (size - 1) / large_msg_limit) + 1) * large_msg_limit.

(** ** The pool of ids *)

Module IdPool.

Definition max_count : nat := 32.   (* min (large_msg_cache, 255) *)

Record id_pool := {
  next_ : list Z;
  cursor_ : Z;
  prepared_ : bool }.

(** A pool in fresh shared memory: zeros. *)
Definition zero_pool : id_pool := {| next_ := repeat 0 max_count; cursor_ := 0; prepared_ := false |}.

Definition init (p : id_pool) : id_pool :=
  {| next_ := map (λ i, u8 (i + 1)) (seqZ 0 (Z.of_nat max_count)); cursor_ := cursor_ p; prepared_ := prepared_ p |}.

(** The bytes of the pool are compared with those of an untouched one. *)
Definition invalid (p : id_pool) : bool :=
  bool_decide (next_ p = next_ zero_pool ∧ cursor_ p = 0 ∧ prepared_ p = false).

Definition prepare (p : id_pool) : id_pool :=
  let p := if andb (negb (prepared_ p)) (invalid p) then init p else p in
  {| next_ := next_ p; cursor_ := cursor_ p; prepared_ := true |}.

Definition empty (p : id_pool) : bool := bool_decide (cursor_ p = Z.of_nat max_count).

Definition acquire (p : id_pool) : result (Z * id_pool) :=
  if empty p then Ok (invalid_value, p)
  else
    let id := cursor_ p in
    n ← vec_at (next_ p) (Z.to_nat id);
    Ok (id, {| next_ := next_ p; cursor_ := n; prepared_ := prepared_ p |}).

Definition release (p : id_pool) (id : Z) : result (bool * id_pool) :=
  if decide (id = invalid_value) then Ok (false, p)
  else
    _ ← vec_at (next_ p) (Z.to_nat id);
    Ok (true, {| next_ := <[Z.to_nat id := cursor_ p]> (next_ p); cursor_ := u8 id; prepared_ := prepared_ p |}).

(** The free ids, from the cursor on. *)
Inductive chain (next : list Z) : Z → list Z → Prop :=
| chain_end : chain next (Z.of_nat max_count) []
| chain_cons id n l :
    0 ≤ id < Z.of_nat max_count → next !! Z.to_nat id = Some n → chain next n l → chain next id (id :: l).

(** The pool and the ids its clients hold: every id is either free, once, or held. *)
Definition pool_ok (p : id_pool) (held : gset Z) : Prop :=
  length (next_ p) = max_count ∧ prepared_ p = true ∧
  ∃ free, chain (next_ p) (cursor_ p) free ∧ NoDup free ∧
    (∀ id, 0 ≤ id < Z.of_nat max_count ↔ id ∈ free ∨ id ∈ held) ∧ (∀ id, id ∈ free → id ∉ held).

(** The histories of a pool: [prepare], then clients that release what they hold. *)
Inductive reach : id_pool → gset Z → Prop :=
| reach_prepare : reach (prepare zero_pool) ∅
| reach_again p held : reach p held → reach (prepare p) held
| reach_acquire p held id p' :
    reach p held → acquire p = Ok (id, p') → id ≠ invalid_value → reach p' ({[id]} ∪ held)
| reach_release p held id b p' :
    reach p held → id ∈ held → release p id = Ok (b, p') → reach p' (held ∖ {[id]}).

(** *** Lemmas *)

Lemma chain_bound next id l : chain next id l → 0 ≤ id ≤ Z.of_nat max_count ∧ ∀ x, x ∈ l → 0 ≤ x < Z.of_nat max_count.
Proof.
  induction 1 as [|id n l Hid Hn Hl IH]; [split; [lia|by intros x Hx; apply elem_of_nil in Hx]|].
  split; [lia|]. intros x Hx. apply elem_of_cons in Hx as [->|Hx]; [done|by apply IH].
Qed.

(** Writing the slot of an id that is not free keeps the free list. *)
Lemma chain_insert next id l x n :
  chain next id l → x ∉ l → 0 ≤ x → chain (<[Z.to_nat x := n]> next) id l.
Proof.
  intros Hc Hx Hx0. induction Hc as [|id m l Hid Hm Hl IH]; [constructor|].
  econstructor; [done| |apply IH; set_solver]. rewrite list_lookup_insert_ne; [done|].
  intros E. apply Hx. assert (x = id) as -> by lia. left.
Qed.

Lemma chain_seq n k next :
  (∀ i, 0 ≤ i < Z.of_nat max_count → next !! Z.to_nat i = Some (i + 1)) →
  n = Z.of_nat max_count - Z.of_nat k → (k ≤ max_count)%nat → chain next n (seqZ n (Z.of_nat k)).
Proof.
  intros Hnext. revert n. induction k as [|k IH]; intros n -> Hk.
  - replace (Z.of_nat max_count - Z.of_nat 0) with (Z.of_nat max_count) by lia. constructor.
  - rewrite seqZ_cons by lia. econstructor; [lia|apply Hnext; lia|].
    replace (Z.pred (Z.of_nat (S k))) with (Z.of_nat k) by lia. apply IH; lia.
Qed.

Lemma prepared_pool_ok : pool_ok (prepare zero_pool) ∅.
Proof.
  assert (∀ i, 0 ≤ i < Z.of_nat max_count → next_ (prepare zero_pool) !! Z.to_nat i = Some (i + 1)) as Hnext.
  { intros i Hi. cbn [prepare]. change (next_ (prepare zero_pool)) with (map (λ i, u8 (i + 1)) (seqZ 0 32)).
    change (Z.of_nat max_count) with 32 in Hi.
    rewrite list_lookup_fmap, lookup_seqZ_lt by lia. cbn. f_equal. rewrite u8_small by lia. lia. }
  split_and!; [done|done|]. exists (seqZ 0 (Z.of_nat max_count)). split_and!.
  - by apply (chain_seq 0 max_count).
  - apply NoDup_seqZ.
  - intros id. rewrite elem_of_seqZ. set_solver by lia.
  - set_solver.
Qed.

Lemma acquire_spec p held :
  pool_ok p held →
  ∃ free, chain (next_ p) (cursor_ p) free ∧
    match free with
    | [] => acquire p = Ok (invalid_value, p) ∧ ∀ id, 0 ≤ id < Z.of_nat max_count → id ∈ held
    | id :: _ => ∃ p', acquire p = Ok (id, p') ∧ 0 ≤ id < Z.of_nat max_count ∧ (id ∉ held) ∧ pool_ok p' ({[id]} ∪ held)
    end.
Proof.
  intros (Hlen & Hprep & free & Hc & Hnd & Hall & Hdisj). exists free. split; [done|].
  unfold acquire, empty. destruct Hc as [|id n l Hid Hn Hc].
  - rewrite bool_decide_true by done. split; [done|]. intros id Hid. apply Hall in Hid as [Hid|]; [|done].
    by apply elem_of_nil in Hid.
  - rewrite bool_decide_false by lia. unfold vec_at. rewrite Hn. eexists. split; [done|].
    assert (id ∉ held) as Hfresh by (apply Hdisj; left). split; [done|]. split; [done|]. apply NoDup_cons in Hnd as [Hnotin Hnd].
    split_and!; [done|done|]. exists l. split_and!; [done|done| |].
    + intros x. rewrite Hall, elem_of_cons. set_solver.
    + intros x Hx. specialize (Hdisj x). rewrite elem_of_cons in Hdisj. set_solver.
Qed.

Lemma release_spec p held id :
  pool_ok p held → id ∈ held → ∃ p', release p id = Ok (true, p') ∧ pool_ok p' (held ∖ {[id]}).
Proof.
  intros (Hlen & Hprep & free & Hc & Hnd & Hall & Hdisj) Hid.
  assert (0 ≤ id < 32) as Hr by (change 32 with (Z.of_nat max_count); apply Hall; by right).
  assert (id ∉ free) as Hfree by (intros Hf; by apply (Hdisj id Hf)).
  unfold release. rewrite decide_False by (unfold invalid_value; lia).
  destruct (lookup_lt_is_Some_2 (next_ p) (Z.to_nat id)) as [n Hn]; [rewrite Hlen; unfold max_count; lia|].
  unfold vec_at. rewrite Hn. eexists. split; [done|]. split_and!; [cbn [next_]; by rewrite length_insert|done|].
  exists (id :: free). cbn [next_ cursor_]. rewrite u8_small by lia. split_and!.
  - econstructor; [unfold max_count; lia|apply list_lookup_insert_eq; rewrite Hlen; unfold max_count; lia|].
    apply chain_insert; [done|done|lia].
  - by constructor.
  - intros x. rewrite Hall, elem_of_cons. destruct (decide (x = id)); set_solver.
  - intros x. rewrite elem_of_cons. specialize (Hdisj x). set_solver.
Qed.

Lemma reach_ok p held : reach p held → pool_ok p held.
Proof.
  induction 1 as [|p held Hr IH|p held id p' Hr IH Ha Hid|p held id b p' Hr IH Hid Hrel].
  - apply prepared_pool_ok.
  - destruct IH as (Hlen & Hprep & IH). unfold prepare. rewrite Hprep. cbn. done.
  - destruct (acquire_spec p held IH) as ([|x l] & _ & Hspec); [destruct Hspec as [E _]|destruct Hspec as (q & E & _ & _ & Hok)];
      rewrite E in Ha; by simplify_eq.
  - destruct (release_spec p held id IH Hid) as (q & E & Hok). rewrite E in Hrel. by simplify_eq.
Qed.

Lemma held_size p held : pool_ok p held → (size held ≤ max_count)%nat.
Proof.
  intros (_ & _ & free & _ & _ & Hall & _).
  assert (held ⊆ list_to_set (seqZ 0 (Z.of_nat max_count))) as Hsub.
  { intros id Hid. apply elem_of_list_to_set, elem_of_seqZ. assert (0 ≤ id < Z.of_nat max_count); [apply Hall; by right|lia]. }
  apply subseteq_size in Hsub. rewrite size_list_to_set in Hsub by apply NoDup_seqZ. by rewrite length_seqZ in Hsub.
Qed.

(** *** Properties *)

(** C33: a block for a large message is never given to two messages: as long as the
    clients of a pool release only what they hold, [acquire] gives an id that nobody
    holds while fewer than 32 are held, reports failure exactly when all are held, and
    every release of a held id succeeds. *)
Theorem ids_never_shared p held :
  reach p held →
  ((size held < max_count)%nat → ∃ id p', acquire p = Ok (id, p') ∧ 0 ≤ id < Z.of_nat max_count ∧ id ∉ held) ∧
  (size held = max_count → acquire p = Ok (invalid_value, p)) ∧
  (∀ id, id ∈ held → ∃ p', release p id = Ok (true, p')) ∧
  (size held ≤ max_count)%nat.
Proof.
  intros Hok%reach_ok. split_and!.
  - intros Hs. destruct (acquire_spec p held Hok) as ([|id l] & _ & Hspec).
    + destruct Hspec as [_ Hall]. exfalso.
      assert (list_to_set (seqZ 0 (Z.of_nat max_count)) ⊆ held) as Hsub.
      { intros id Hid. apply elem_of_list_to_set, elem_of_seqZ in Hid. apply Hall. lia. }
      apply subseteq_size in Hsub. rewrite size_list_to_set, length_seqZ in Hsub by apply NoDup_seqZ. lia.
    + destruct Hspec as (p' & E & Hr & Hfresh & _). by exists id, p'.
  - intros Hs. destruct (acquire_spec p held Hok) as ([|id l] & _ & Hspec); [by destruct Hspec|].
    destruct Hspec as (p' & _ & Hr & Hfresh & Hok'). apply held_size in Hok'.
    rewrite size_union, size_singleton in Hok' by set_solver. lia.
  - intros id Hid. destruct (release_spec p held id Hok Hid) as (p' & E & _). by exists p'.
  - by eapply held_size.
Qed.

Lemma ids_never_shared_witness :
  let p := prepare zero_pool in
  reach p ∅ ∧ ((size (∅ : gset Z) < max_count)%nat → ∃ id p', acquire p = Ok (id, p') ∧ 0 ≤ id < Z.of_nat max_count ∧ id ∉ (∅ : gset Z)).
Proof. intros p. split; [constructor|]. apply (ids_never_shared p ∅). constructor. Defined.

(** Releasing an id twice makes the list a loop: the id is then given out for ever. *)
Example released_twice :
  let p := prepare zero_pool in
  (r0 ← acquire p; r1 ← release r0.2 0; r2 ← release r1.2 0; r3 ← acquire r2.2; r4 ← acquire r3.2; Ok (r3.1, r4.1))
  = Ok (0, 0).
Proof. reflexivity. Qed.

End IdPool.

(** ** Connections *)

Module ConnHead.

(** The compare-and-exchange loops are atomic operations: a failed attempt changes
    nothing. *)

(** *** Broadcast: one bit of a 32-bit word for every receiver *)

(** The id is [0] when every bit is taken. *)
Definition connect (cc : Z) : Z * Z :=
  let next := Z.lor cc (u32 (cc + 1)) in
  if decide (next = 0) then (0, cc) else (Z.lxor next cc, next).

Definition disconnect (cc cc_id : Z) : Z := Z.land cc (Z.lxor cc_id (2 ^ 32 - 1)).

(** [for (cnt = 0; cur; ++cnt) cur &= cur - 1]; every step clears a bit, so 32 steps are
    enough. *)
Fixpoint count_bits (fuel : nat) (cur : Z) : Z :=
  match fuel with
  | O => 0
  | S fuel => if decide (cur = 0) then 0 else 1 + count_bits fuel (Z.land cur (cur - 1))
  end.

Definition conn_count (cc : Z) : Z := count_bits 32 cc.

(** *** Unicast: a counter *)

Definition uconnect (cc : Z) : Z * Z := (u32 (cc + 1), u32 (cc + 1)).

(** [disconnect(~0)] clears all connections. *)
Definition udisconnect (cc cc_id : Z) : Z :=
  if decide (cc_id = 2 ^ 32 - 1) then 0 else u32 (cc - 1).

(** The word and the ids of the receivers it stands for. *)
Definition conn_ok (cc : Z) (ids : gset Z) : Prop :=
  0 ≤ cc < 2 ^ 32 ∧ ∀ id, id ∈ ids ↔ ∃ k, 0 ≤ k < 32 ∧ Z.testbit cc k = true ∧ id = 2 ^ k.

(** *** Lemmas *)

(** Setting the lowest bit that is clear. *)
Lemma lowest_clear (n : nat) cc :
  0 ≤ cc < 2 ^ Z.of_nat n - 1 →
  ∃ k, 0 ≤ k < Z.of_nat n ∧ Z.testbit cc k = false ∧ Z.lor cc (cc + 1) = Z.lor cc (2 ^ k).
Proof.
  revert cc. induction n as [|n IH]; intros cc Hcc; [cbn in Hcc; lia|].
  rewrite Nat2Z.inj_succ, Z.pow_succ_r in Hcc by lia.
  assert (∀ a b m, 0 ≤ m → Z.testbit (2 * a + Z.b2z b) (Z.succ m) = Z.testbit a m) as Hhigh.
  { intros a [] m Hm; cbn [Z.b2z]; [apply Z.testbit_odd_succ|rewrite Z.add_0_r; apply Z.testbit_even_succ]; lia. }
  destruct (Z.odd cc) eqn:Hodd.
  - apply Zodd_bool_iff, Zodd_ex in Hodd as [c ->].
    destruct (IH c ltac:(lia)) as (k & Hk & Hbit & E). exists (Z.succ k). split; [lia|].
    specialize (Hhigh c true). cbn [Z.b2z] in Hhigh. split; [rewrite Hhigh by lia; done|].
    apply Z.bits_inj'. intros m Hm. rewrite !Z.lor_spec. destruct (decide (m = 0)) as [->|Hm0].
    + by rewrite Z.testbit_odd_0.
    + replace m with (Z.succ (m - 1)) by lia. rewrite !Hhigh by lia.
      apply (f_equal (λ z, Z.testbit z (m - 1))) in E. rewrite !Z.lor_spec in E.
      replace (2 * c + 1 + 1) with (2 * (c + 1) + Z.b2z false) by (cbn; lia).
      replace (2 ^ Z.succ k) with (2 * 2 ^ k + Z.b2z false) by (rewrite Z.pow_succ_r by lia; cbn; lia).
      assert (∀ a, Z.testbit (2 * a + Z.b2z false) (Z.succ (m - 1)) = Z.testbit a (m - 1)) as Heven.
      { intros a. cbn [Z.b2z]. rewrite Z.add_0_r. apply Z.testbit_even_succ. lia. }
      by rewrite !Heven.
  - assert (Z.even cc = true) as Heven by (by rewrite <- Z.negb_odd, Hodd).
    apply Zeven_bool_iff, Zeven_ex in Heven as [c ->]. exists 0. split; [lia|].
    split; [apply Z.testbit_even_0|]. apply Z.bits_inj'. intros m Hm. rewrite !Z.lor_spec.
    destruct (decide (m = 0)) as [->|Hm0].
    + rewrite (Z.testbit_odd_0 c). rewrite Z.testbit_even_0. done.
    + replace m with (Z.succ (m - 1)) by lia. rewrite Z.testbit_odd_succ, Z.testbit_even_succ by lia.
      change (2 ^ 0) with (2 * 0 + 1). rewrite Z.testbit_odd_succ by lia. by rewrite Z.bits_0, orb_false_r, orb_diag.
Qed.

(** Clearing the lowest bit that is set. *)
Lemma lowest_set (n : nat) c :
  0 < c < 2 ^ Z.of_nat n →
  ∃ k, 0 ≤ k < Z.of_nat n ∧ Z.testbit c k = true ∧
    ∀ m, 0 ≤ m → Z.testbit (Z.land c (c - 1)) m = Z.testbit c m && bool_decide (m ≠ k).
Proof.
  revert c. induction n as [|n IH]; intros c Hc; [cbn in Hc; lia|].
  rewrite Nat2Z.inj_succ, Z.pow_succ_r in Hc by lia. destruct (Z.odd c) eqn:Hodd.
  - apply Zodd_bool_iff, Zodd_ex in Hodd as [d ->]. exists 0. split; [lia|]. split; [apply Z.testbit_odd_0|].
    intros m Hm. replace (2 * d + 1 - 1) with (2 * d) by lia. rewrite Z.land_spec.
    destruct (decide (m = 0)) as [->|Hm0]; [by rewrite Z.testbit_even_0, andb_false_r, bool_decide_false, andb_false_r by naive_solver|].
    replace m with (Z.succ (m - 1)) by lia. rewrite Z.testbit_odd_succ, Z.testbit_even_succ by lia.
    by rewrite andb_diag, bool_decide_true, andb_true_r by lia.
  - assert (Z.even c = true) as Heven by (by rewrite <- Z.negb_odd, Hodd).
    apply Zeven_bool_iff, Zeven_ex in Heven as [d ->].
    destruct (IH d ltac:(lia)) as (k & Hk & Hbit & E). exists (Z.succ k). split; [lia|].
    split; [by rewrite Z.testbit_even_succ by lia|]. intros m Hm.
    replace (2 * d - 1) with (2 * (d - 1) + 1) by lia. rewrite Z.land_spec.
    destruct (decide (m = 0)) as [->|Hm0]; [by rewrite Z.testbit_even_0|].
    replace m with (Z.succ (m - 1)) by lia. rewrite Z.testbit_even_succ, Z.testbit_odd_succ by lia.
    rewrite <- Z.land_spec, E by lia. f_equal. apply bool_decide_ext. lia.
Qed.

Lemma testbit_pow2 k m : 0 ≤ k → Z.testbit (2 ^ k) m = bool_decide (m = k).
Proof.
  intros Hk. destruct (decide (m = k)) as [->|Hm]; [by rewrite Z.pow2_bits_true, bool_decide_true by done|].
  by rewrite Z.pow2_bits_false, bool_decide_false by done.
Qed.

Lemma bits_bound z : (∀ m, 32 ≤ m → Z.testbit z m = false) → 0 ≤ z → z < 2 ^ 32.
Proof.
  intros Hhigh Hz. destruct (decide (z = 0)) as [->|]; [lia|]. apply Z.log2_lt_pow2; [lia|].
  destruct (decide (Z.log2 z < 32)) as [|Hl]; [done|]. specialize (Hhigh (Z.log2 z) ltac:(lia)).
  rewrite Z.bit_log2 in Hhigh by lia. done.
Qed.

Lemma high_bits z m : 0 ≤ z < 2 ^ 32 → 32 ≤ m → Z.testbit z m = false.
Proof.
  intros Hz Hm. destruct (decide (z = 0)) as [->|]; [apply Z.bits_0|]. apply Z.bits_above_log2; [lia|].
  assert (Z.log2 z < 32); [apply Z.log2_lt_pow2; lia|lia].
Qed.

Lemma pow2_inj j k : 0 ≤ j → 0 ≤ k → 2 ^ j = 2 ^ k → j = k.
Proof. intros Hj Hk E. apply Z.pow_inj_r in E; lia. Qed.

Lemma connect_spec cc ids :
  conn_ok cc ids → cc ≠ 2 ^ 32 - 1 →
  ∃ k, 0 ≤ k < 32 ∧ connect cc = (2 ^ k, Z.lor cc (2 ^ k)) ∧ (2 ^ k ∉ ids) ∧
    conn_ok (Z.lor cc (2 ^ k)) ({[2 ^ k]} ∪ ids).
Proof.
  intros [Hcc Hids] Hfull. destruct (lowest_clear 32 cc ltac:(lia)) as (k & Hk & Hbit & E).
  change (Z.of_nat 32) with 32 in Hk. exists k. split; [done|].
  unfold connect. rewrite u32_small, E by lia.
  assert (Z.lxor (Z.lor cc (2 ^ k)) cc = 2 ^ k) as Hx.
  { apply Z.bits_inj'. intros m Hm. rewrite Z.lxor_spec, Z.lor_spec, testbit_pow2 by lia.
    case_bool_decide as Hmk; [subst; by rewrite Hbit|]. rewrite orb_false_r. by destruct (Z.testbit cc m). }
  assert (Z.lor cc (2 ^ k) ≠ 0) as Hne.
  { intros E0. rewrite E0, Z.lxor_0_l in Hx. pose proof (Z.pow_pos_nonneg 2 k ltac:(lia) ltac:(lia)). subst cc.
    by rewrite testbit_pow2, bool_decide_true in Hbit by lia. }
  rewrite decide_False, Hx by done. split; [done|]. split.
  { rewrite Hids. intros (j & Hj & Hbj & Ej). apply pow2_inj in Ej; [|lia|lia]. subst. by rewrite Hbit in Hbj. }
  split.
  - split; [apply Z.lor_nonneg; pose proof (Z.pow_nonneg 2 k); lia|]. apply bits_bound; [|apply Z.lor_nonneg; pose proof (Z.pow_nonneg 2 k); lia].
    intros m Hm. rewrite Z.lor_spec, testbit_pow2, high_bits, bool_decide_false by lia. done.
  - intros id. rewrite elem_of_union, elem_of_singleton, Hids. setoid_rewrite Z.lor_spec.
    split.
    + intros [->|(j & Hj & Hbj & ->)]; [exists k|exists j]; (split; [done|]; split; [|done]).
      * rewrite testbit_pow2, bool_decide_true by lia. by rewrite orb_true_r.
      * by rewrite Hbj.
    + intros (j & Hj & Hbj & ->). rewrite testbit_pow2 in Hbj by lia. case_bool_decide; [left; by subst|].
      right. exists j. by rewrite orb_false_r in Hbj.
Qed.

Lemma disconnect_spec cc ids id :
  conn_ok cc ids → id ∈ ids → conn_ok (disconnect cc id) (ids ∖ {[id]}).
Proof.
  intros [Hcc Hids] Hid. apply Hids in Hid as (k & Hk & Hbit & ->).
  assert (∀ m, 0 ≤ m → Z.testbit (disconnect cc (2 ^ k)) m = Z.testbit cc m && bool_decide (m ≠ k)) as Hbits.
  { intros m Hm. unfold disconnect. rewrite Z.land_spec, Z.lxor_spec, testbit_pow2 by lia.
    destruct (decide (32 ≤ m)) as [Hhi|Hlo]; [by rewrite (high_bits cc) by lia|].
    replace (2 ^ 32 - 1) with (Z.ones 32) by (rewrite Z.ones_equiv; lia).
    rewrite Z.ones_spec_low by lia. repeat case_bool_decide; by try lia. }
  split.
  - assert (0 ≤ disconnect cc (2 ^ k)) as Hpos by (apply Z.land_nonneg; lia).
    split; [done|]. apply bits_bound; [|done]. intros m Hm. by rewrite Hbits, high_bits by lia.
  - intros id. rewrite elem_of_difference, elem_of_singleton, Hids. split.
    + intros [(j & Hj & Hbj & ->) Hne]. exists j. split; [done|]. split; [|done].
      rewrite Hbits, Hbj, bool_decide_true by (lia || congruence). done.
    + intros (j & Hj & Hbj & ->). rewrite Hbits in Hbj by lia. apply andb_true_iff in Hbj as [Hbj Hjk].
      apply bool_decide_eq_true in Hjk. split; [by exists j|]. intros E. apply pow2_inj in E; lia.
Qed.

(** Counting the bits counts the receivers. *)
Lemma count_bits_spec fuel cc ids :
  conn_ok cc ids → (size ids ≤ fuel)%nat → count_bits fuel cc = Z.of_nat (size ids).
Proof.
  revert cc ids. induction fuel as [|fuel IH]; intros cc ids Hok Hs; [cbn; lia|]. cbn [count_bits].
  destruct Hok as [Hcc Hids]. case_decide as Hz.
  - subst. assert (ids = ∅) as ->; [|done]. apply leibniz_equiv. intros id. rewrite Hids.
    split; [|set_solver]. intros (k & _ & Hb & _). by rewrite Z.bits_0 in Hb.
  - destruct (lowest_set 32 cc ltac:(cbn; lia)) as (k & Hk & Hbit & E). change (Z.of_nat 32) with 32 in Hk.
    assert (2 ^ k ∈ ids) as Hin by (apply Hids; by exists k).
    assert (conn_ok (Z.land cc (cc - 1)) (ids ∖ {[2 ^ k]})) as Hok'.
    { assert (0 ≤ Z.land cc (cc - 1)) as Hpos by (apply Z.land_nonneg; lia). split.
      - split; [done|]. apply bits_bound; [|done]. intros m Hm. by rewrite E, high_bits by lia.
      - intros id. rewrite elem_of_difference, elem_of_singleton, Hids. split.
        + intros [(j & Hj & Hbj & ->) Hne]. exists j. split; [done|]. split; [|done].
          rewrite E, Hbj, bool_decide_true by (lia || congruence). done.
        + intros (j & Hj & Hbj & ->). rewrite E in Hbj by lia. apply andb_true_iff in Hbj as [Hbj Hjk].
          apply bool_decide_eq_true in Hjk. split; [by exists j|]. intros Ep. apply pow2_inj in Ep; lia. }
    assert (size ids = S (size (ids ∖ {[2 ^ k]}))) as Hsize.
    { rewrite size_difference by set_solver. rewrite size_singleton.
      assert (size ids ≠ 0%nat); [|lia]. rewrite size_non_empty_iff. set_solver. }
    rewrite (IH _ _ Hok') by lia. lia.
Qed.

Lemma conn_size cc ids : conn_ok cc ids → (size ids ≤ 32)%nat.
Proof.
  intros [Hcc Hids]. assert (ids ⊆ list_to_set (map (λ k, 2 ^ k) (seqZ 0 32))) as Hsub.
  { intros id Hid. apply Hids in Hid as (k & Hk & _ & ->). apply elem_of_list_to_set, list_elem_of_fmap.
    exists k. split; [done|]. apply elem_of_seqZ. lia. }
  apply subseteq_size in Hsub. rewrite size_list_to_set in Hsub by evaluate. exact Hsub.
Qed.

(** The histories of the connections of a queue. *)
Inductive conn_reach : Z → gset Z → Prop :=
| conn_init : conn_reach 0 ∅
| conn_connect cc ids id cc' :
    conn_reach cc ids → connect cc = (id, cc') → id ≠ 0 → conn_reach cc' ({[id]} ∪ ids)
| conn_disconnect cc ids id :
    conn_reach cc ids → id ∈ ids → conn_reach (disconnect cc id) (ids ∖ {[id]}).

Lemma connect_full : connect (2 ^ 32 - 1) = (0, 2 ^ 32 - 1).
Proof. reflexivity. Qed.

Lemma conn_reach_ok cc ids : conn_reach cc ids → conn_ok cc ids.
Proof.
  induction 1 as [|cc ids id cc' Hr IH E Hid|cc ids id Hr IH Hid].
  - split; [lia|]. intros id. split; [set_solver|]. intros (k & _ & Hb & _). by rewrite Z.bits_0 in Hb.
  - destruct (decide (cc = 2 ^ 32 - 1)) as [->|Hne].
    + rewrite connect_full in E. by simplify_eq.
    + destruct (connect_spec cc ids IH Hne) as (k & _ & E' & _ & Hok). rewrite E' in E. by simplify_eq.
  - by apply disconnect_spec.
Qed.

(** *** Properties *)

(** Every receiver of a broadcast queue gets a bit of its own: [connect] gives an id
    that no connected receiver has, or 0 when all 32 are taken; [disconnect] takes away
    that receiver only; and [conn_count] is the number of receivers. *)
Theorem receivers_have_own_bit cc ids :
  conn_reach cc ids →
  conn_count cc = Z.of_nat (size ids) ∧
  (cc = 2 ^ 32 - 1 → connect cc = (0, cc)) ∧
  (cc ≠ 2 ^ 32 - 1 → ∃ k, 0 ≤ k < 32 ∧ (connect cc).1 = 2 ^ k ∧ (2 ^ k ∉ ids) ∧ conn_reach (connect cc).2 ({[2 ^ k]} ∪ ids)) ∧
  (∀ id, id ∈ ids → ∀ id', id' ∈ ids ∖ {[id]} ↔ ∃ k, 0 ≤ k < 32 ∧ Z.testbit (disconnect cc id) k = true ∧ id' = 2 ^ k).
Proof.
  intros Hr. pose proof (conn_reach_ok cc ids Hr) as Hok. split_and!.
  - apply count_bits_spec; [done|by apply (conn_size cc)].
  - by intros ->.
  - intros Hne. destruct (connect_spec cc ids Hok Hne) as (k & Hk & E & Hfresh & _). exists k. rewrite E.
    split; [done|]. split; [done|]. split; [done|]. eapply conn_connect; [done..|].
    pose proof (Z.pow_pos_nonneg 2 k ltac:(lia) ltac:(lia)). lia.
  - intros id Hid. apply (disconnect_spec cc ids id Hok Hid).
Qed.

Lemma receivers_have_own_bit_witness :
  conn_reach 1 {[1]} ∧ conn_count 1 = Z.of_nat (size ({[1]} : gset Z)).
Proof.
  assert (conn_reach 1 {[1]}) as Hr.
  { rewrite <- (union_empty_r_L {[1]}). by apply (conn_connect 0 ∅ 1 1 conn_init). }
  split; [exact Hr|]. apply (receivers_have_own_bit 1 {[1]} Hr).
Defined.

End ConnHead.
