(* ===== verification/IpcLock.v ===== *)
(** * The locks of the shared-memory IPC ([rw_lock.h])

    [spin_lock] and [rw_lock] as programs of atomic operations on one word.  The pauses
    of the waiting loops ([yield]) are not modelled. *)

From S2P Require Import Prelude Interleaving.
#[local] Open Scope Z_scope.

(** ** [spin_lock] *)

Module SpinLock.

Inductive pc := Out | Lock | Inside.

(** [lock] exchanges the word with 1 until it was 0; [unlock] stores 0. *)
Definition next (c : unit) (p : pc) (lc : Z) : pc * Z :=
  match p with
  | Out => (Lock, lc)
  | Lock => (if decide (lc = 0) then Inside else Lock, 1)
  | Inside => (Out, 0)
  end.

Definition inside (p : pc) : bool := match p with Inside => true | _ => false end.

Lemma spin_invariant init k :
  shared init = 0 → all_at Out init → reachable next init k → shared k = count inside (pcs k) ∧ shared k ≤ 1.
Proof.
  intros H0 Hout. revert k. apply reachable_invariant.
  - rewrite H0, count_none; [lia|]. intros t p Hp. by rewrite (Hout t p Hp).
  - intros s m t p [] [Hsh Hs] Hp. cbn [shared pcs] in *. rewrite (count_update inside m t p) by done.
    pose proof (count_bounds inside m).
    cbn [shared] in *. destruct p; cbn [next fst snd inside Z.b2z] in *; [lia| |].
    + case_decide; cbn [fst inside Z.b2z]; lia.
    + pose proof (count_one inside m t Inside Hp eq_refl). lia.
Qed.

End SpinLock.

(** ** [rw_lock] *)

Module RwLock.

Definition w_mask : Z := 2 ^ 31 - 1.
Definition w_flag : Z := 2 ^ 31.

Inductive pc :=
| Out
| Lock                    (* in [lock], before [fetch_or] *)
| LockWait                (* in [lock], waiting for the readers *)
| Writing
| SharedLoad              (* in [lock_shared], before the load *)
| SharedTry (old : Z)     (* in [lock_shared], with the value it has seen *)
| Reading.

(** What an idle thread calls, and whether a weak compare-and-exchange fails though the
    values are equal. *)
Inductive choice := CallLock | CallLockShared | Spurious.

#[export] Instance choice_eq_dec : EqDecision choice.
Proof. solve_decision. Defined.

Definition next (c : choice) (p : pc) (lc : Z) : pc * Z :=
  match p with
  | Out => (match c with CallLockShared => SharedLoad | _ => Lock end, lc)
  | Lock =>
      (if decide (lc = 0) then Writing
       else if decide (Z.land lc w_flag = 0) then LockWait
       else Lock, Z.lor lc w_flag)
  | LockWait => (if decide (Z.land lc w_mask = 0) then Writing else LockWait, lc)
  | Writing => (Out, 0)
  | SharedLoad => (SharedTry lc, lc)
  | SharedTry old =>
      if decide (Z.land old w_flag ≠ 0) then (SharedLoad, lc)
      else if decide (lc = old ∧ c ≠ Spurious) then (Reading, u32 (old + 1))
      else (SharedTry lc, lc)
  | Reading => (Out, u32 (lc - 1))
  end.

(** The writers that have set the flag, those that own the lock, and the readers. *)
Definition writer (p : pc) : bool := match p with LockWait | Writing => true | _ => false end.
Definition writing (p : pc) : bool := match p with Writing => true | _ => false end.
Definition reading (p : pc) : bool := match p with Reading => true | _ => false end.

(** The word is the flag of the one writer and the number of readers. *)
Definition lock_inv (k : config Z pc) : Prop :=
  shared k = w_flag * count writer (pcs k) + count reading (pcs k) ∧
  count writer (pcs k) ≤ 1 ∧
  (0 < count writing (pcs k) → count reading (pcs k) = 0) ∧
  Z.of_nat (size (pcs k)) < 2 ^ 31.

(** *** Lemmas *)

Lemma flag_bits b r :
  0 ≤ r < 2 ^ 31 → b = 0 ∨ b = 1 →
  Z.land (w_flag * b + r) w_flag = w_flag * b ∧ Z.land (w_flag * b + r) w_mask = r ∧
  Z.lor (w_flag * b + r) w_flag = w_flag + r.
Proof.
  intros Hr Hb. unfold w_flag, w_mask.
  assert (∀ m, 31 ≤ m → Z.testbit r m = false) as Hhigh.
  { intros m Hm. destruct (decide (r = 0)) as [->|]; [apply Z.bits_0|]. apply Z.bits_above_log2; [lia|].
    assert (Z.log2 r < 31); [apply Z.log2_lt_pow2; lia|lia]. }
  assert (Z.land (2 ^ 31) r = 0) as Hdisj.
  { apply Z.bits_inj'. intros m Hm. rewrite Z.land_spec, Z.bits_0. destruct (decide (m = 31)) as [->|].
    - by rewrite Hhigh, andb_false_r by lia.
    - by rewrite Z.pow2_bits_false by lia. }
  assert (2 ^ 31 + r = Z.lor (2 ^ 31) r) as Hor by (by rewrite <- Z.add_nocarry_lor).
  assert (Z.land r (2 ^ 31 - 1) = r) as Hmask.
  { change (2 ^ 31 - 1) with (Z.ones 31). rewrite Z.land_ones by lia. by apply Z.mod_small. }
  destruct Hb as [-> | ->]; rewrite ?Z.mul_0_r, ?Z.mul_1_r, ?Z.add_0_l.
  - split_and!; [by rewrite Z.land_comm|done|by rewrite Z.lor_comm, Hor].
  - rewrite Hor. split_and!.
    + apply Z.bits_inj'. intros m Hm. rewrite Z.land_spec, Z.lor_spec.
      apply (f_equal (λ z, Z.testbit z m)) in Hdisj. rewrite Z.land_spec, Z.bits_0 in Hdisj.
      destruct (Z.testbit (2 ^ 31) m), (Z.testbit r m); done.
    + rewrite Z.land_lor_distr_l, Hmask. by change (Z.land (2 ^ 31) (2 ^ 31 - 1)) with 0.
    + by rewrite <- Z.lor_assoc, (Z.lor_comm r), Z.lor_assoc, Z.lor_diag.
Qed.

Lemma lock_inv_step s m t p c :
  lock_inv {| shared := s; pcs := m |} → m !! t = Some p →
  lock_inv {| shared := (next c p s).2; pcs := <[t := (next c p s).1]> m |}.
Proof.
  unfold lock_inv. cbn [shared pcs]. intros (-> & Hw & Hx & Hsize) Hp.
  rewrite !(count_update _ m t p), map_size_insert_Some by first [done | by rewrite Hp].
  pose proof (count_bounds writer m). pose proof (count_bounds writing m). pose proof (count_bounds reading m).
  destruct (flag_bits (count writer m) (count reading m)) as (Hflag & Hmask & Hor); [lia|lia|].
  destruct p as [| | | | |old|]; cbn [next fst snd].
  - destruct c; cbn [fst snd writer writing reading Z.b2z]; lia.
  - rewrite Hflag, Hor. repeat case_decide; cbn [fst snd writer writing reading Z.b2z] in *; unfold w_flag in *; lia.
  - pose proof (count_one writer m t _ Hp eq_refl). rewrite Hmask.
    case_decide; cbn [fst snd writer writing reading Z.b2z] in *; lia.
  - pose proof (count_one writer m t _ Hp eq_refl). pose proof (count_one writing m t _ Hp eq_refl).
    cbn [writer writing reading Z.b2z]. unfold w_flag. lia.
  - cbn [writer writing reading Z.b2z]. lia.
  - destruct (decide (Z.land old w_flag ≠ 0)) as [Hold|Hold]; [cbn [fst snd writer writing reading Z.b2z]; lia|].
    destruct (decide (_ ∧ c ≠ Spurious)) as [[<- _]|_]; cbn [fst snd writer writing reading Z.b2z]; [|lia].
    pose proof (count_mono writing writer m ltac:(by intros [])). unfold w_flag in *.
    rewrite u32_small; lia.
  - pose proof (count_one reading m t _ Hp eq_refl). cbn [writer writing reading Z.b2z]. unfold w_flag in *.
    rewrite u32_small; lia.
Qed.

Lemma lock_inv_reachable init k :
  shared init = 0 → all_at Out init → Z.of_nat (size (pcs init)) < 2 ^ 31 →
  reachable next init k → lock_inv k.
Proof.
  intros H0 Hout Hsize. revert k. apply reachable_invariant; [|apply lock_inv_step].
  assert (∀ P, P Out = false → count P (pcs init) = 0) as Hnone.
  { intros P HP. apply count_none. intros t p Hp. by rewrite (Hout t p Hp). }
  unfold lock_inv. rewrite H0, !Hnone by done. lia.
Qed.

(** *** Properties *)

(** C30: the reader-writer lock excludes: among fewer than 2^31 threads, in every
    interleaving, a thread that writes is alone: no other thread writes and none reads;
    and when nobody uses the lock its word is 0 again. *)
Theorem rw_lock_excludes init k :
  shared init = 0 → all_at Out init → Z.of_nat (size (pcs init)) < 2 ^ 31 → reachable next init k →
  (∀ t t', pcs k !! t = Some Writing → pcs k !! t' = Some Writing → t = t') ∧
  (∀ t t', pcs k !! t = Some Writing → pcs k !! t' ≠ Some Reading) ∧
  (all_at Out k → shared k = 0).
Proof.
  intros H0 Hout Hsize Hr. destruct (lock_inv_reachable init k H0 Hout Hsize Hr) as (Hlc & Hw & Hx & _). split_and!.
  - intros t t' Ht Ht'. destruct (decide (t = t')) as [|Hne]; [done|].
    pose proof (count_two writer (pcs k) t t' _ _ Hne Ht Ht' eq_refl eq_refl). lia.
  - intros t t' Ht Ht'. pose proof (count_one writing (pcs k) t _ Ht eq_refl).
    pose proof (count_one reading (pcs k) t' _ Ht' eq_refl). lia.
  - intros Hall. rewrite Hlc, !count_none; [lia|..]; intros t p Hp; by rewrite (Hall t p Hp).
Qed.

Lemma rw_lock_excludes_witness :
  let init := {| shared := 0; pcs := {[0%nat := Out; 1%nat := Out]} |} in
  let k := {| shared := w_flag; pcs := {[0%nat := Writing; 1%nat := Out]} |} in
  (∀ t t', pcs k !! t = Some Writing → pcs k !! t' = Some Writing → t = t') ∧
  (∀ t t', pcs k !! t = Some Writing → pcs k !! t' ≠ Some Reading) ∧
  (all_at Out k → shared k = 0).
Proof.
  intros init k. apply (rw_lock_excludes init k); [done| |done|].
  - intros t p Hp. cbn in Hp. apply lookup_insert_Some in Hp as [[_ <-]|[_ Hp]]; [done|].
    by apply lookup_singleton_Some in Hp as [_ <-].
  - eapply rtc_l; [by apply (step_thread next init 0%nat Out CallLock)|].
    apply rtc_once. match goal with |- step _ ?k1 _ => exact (step_thread next k1 0%nat Lock CallLock eq_refl) end.
Defined.

(** The lock is not stuck: in every reachable configuration where nobody holds it and
    somebody wants it, a thread that wants it can enter by its own steps. *)
Theorem rw_lock_progresses init k t :
  shared init = 0 → all_at Out init → Z.of_nat (size (pcs init)) < 2 ^ 31 → reachable next init k →
  (∀ t p, pcs k !! t = Some p → p ≠ Writing ∧ p ≠ Reading) →
  (∃ p, pcs k !! t = Some p ∧ p ≠ Out) →
  ∃ t' k', reachable next k k' ∧ (pcs k' !! t' = Some Writing ∨ pcs k' !! t' = Some Reading).
Proof.
  intros H0 Hout Hsize Hr Hfree (p & Hp & Hne).
  destruct (lock_inv_reachable init k H0 Hout Hsize Hr) as (Hlc & Hw & _). destruct k as [s m]. cbn [shared pcs] in *.
  assert (count reading m = 0) as Hread.
  { apply count_none. intros t' p' Hp'. destruct (Hfree t' p' Hp'). by destruct p'. }
  assert (∀ t' cs p', m !! t' = Some p' → ((run_thread next cs p' s).1 = Writing ∨ (run_thread next cs p' s).1 = Reading) →
    ∃ t' k', reachable next {| shared := s; pcs := m |} k' ∧ (pcs k' !! t' = Some Writing ∨ pcs k' !! t' = Some Reading)) as Hrun.
  { intros t' cs p' Hp' Hend. exists t', {| shared := (run_thread next cs p' s).2; pcs := <[t' := (run_thread next cs p' s).1]> m |}.
    split; [by apply run_thread_reachable|]. cbn [pcs]. rewrite lookup_insert_eq. by destruct Hend as [-> | ->]; [left|right]. }
  pose proof (count_bounds writer m). destruct (decide (0 < count writer m)) as [Hpos|Hzero].
  - apply count_pos in Hpos as (t' & p' & Hp' & Hw'). destruct (Hfree t' p' Hp').
    destruct p'; try done. apply (Hrun t' [CallLock] LockWait Hp'). left. cbn.
    rewrite Hlc, Hread. destruct (flag_bits (count writer m) 0) as (_ & -> & _); [lia|lia|done].
  - assert (s = 0) as -> by (unfold w_flag in *; lia). destruct (Hfree t p Hp). destruct p as [| | | | |old|]; try done.
    + apply (Hrun t [CallLock] Lock Hp). by left.
    + pose proof (count_one writer m t _ Hp eq_refl). lia.
    + apply (Hrun t [CallLock; CallLock] SharedLoad Hp). by right.
    + destruct (decide (Z.land old w_flag ≠ 0)) as [Hf|Hf].
      * apply (Hrun t [CallLock; CallLock; CallLock] (SharedTry old) Hp). right. unfold run_thread. cbn [foldl next fst snd].
        by rewrite decide_True by done.
      * apply (Hrun t [Spurious; CallLock] (SharedTry old) Hp). right. unfold run_thread. cbn [foldl next fst snd].
        rewrite decide_False by done. by rewrite (decide_False (P := _ ∧ Spurious ≠ Spurious)) by tauto.
Qed.

Lemma rw_lock_progresses_witness :
  let init := {| shared := 0; pcs := {[0%nat := Out; 1%nat := Out]} |} in
  let k := {| shared := 0; pcs := {[0%nat := Lock; 1%nat := Out]} |} in
  ∃ t' k', reachable next k k' ∧ (pcs k' !! t' = Some Writing ∨ pcs k' !! t' = Some Reading).
Proof.
  intros init k. apply (rw_lock_progresses init k 0%nat); [done| |done| | |].
  - intros t p Hp. cbn in Hp. apply lookup_insert_Some in Hp as [[_ <-]|[_ Hp]]; [done|].
    by apply lookup_singleton_Some in Hp as [_ <-].
  - apply rtc_once. by apply (step_thread next init 0%nat Out CallLock).
  - intros t p Hp. cbn in Hp. apply lookup_insert_Some in Hp as [[_ <-]|[_ Hp]]; [done|].
    by apply lookup_singleton_Some in Hp as [_ <-].
  - by exists Lock.
Defined.

End RwLock.
