(* ===== verification/IpcRing.v ===== *)
(** * The ring of the channels: many producers, many consumers, unicast ([prod_cons.h])

    [prod_cons_impl<wr<multi, multi, unicast>>], the policy of every channel of the
    program, as threads over atomic operations.  [push] claims an index by advancing
    [ct_], fills its element, raises the commit flag of the element, and moves [wt_]
    over the committed elements; [pop] takes the element at [rd_], moving [wt_] itself
    when it finds it behind.

    The counters are 32-bit, the elements are indexed by their lowest byte.  An element
    is written and copied in two pieces, so that a copy can be torn by a writer.  The
    operations are sequentially consistent: memory orders are not modelled, nor are the
    pauses of the loops.  [pushed] and [popped] are logs, not state of the code: the
    values in the order in which [push] claims their index, and those [pop] delivers. *)

From S2P Require Import Prelude Interleaving IpcBase.
#[local] Open Scope Z_scope.

Section ring.
Context {W : Type}.

(** ** Data *)

Record ring := {
  rd_ : Z;
  wt_ : Z;
  ct_ : Z;
  lo : Z → W;
  hi : Z → W;
  f_ct_ : Z → Z;
  pushed : list (W * W);
  popped : list (W * W) }.

Definition write {A} (i : Z) (a : A) (f : Z → A) : Z → A := λ j, if decide (j = i) then a else f j.

(** [~x] on the 64-bit flags. *)
Definition complement (x : Z) : Z := 2 ^ 64 - 1 - x.

Definition set_rd (x : Z) (r : ring) : ring := {| rd_ := x; wt_ := wt_ r; ct_ := ct_ r; lo := lo r; hi := hi r;
  f_ct_ := f_ct_ r; pushed := pushed r; popped := popped r |}.
Definition set_wt (x : Z) (r : ring) : ring := {| rd_ := rd_ r; wt_ := x; ct_ := ct_ r; lo := lo r; hi := hi r;
  f_ct_ := f_ct_ r; pushed := pushed r; popped := popped r |}.
Definition set_ct (x : Z) (r : ring) : ring := {| rd_ := rd_ r; wt_ := wt_ r; ct_ := x; lo := lo r; hi := hi r;
  f_ct_ := f_ct_ r; pushed := pushed r; popped := popped r |}.
Definition set_lo (i : Z) (a : W) (r : ring) : ring := {| rd_ := rd_ r; wt_ := wt_ r; ct_ := ct_ r;
  lo := write i a (lo r); hi := hi r; f_ct_ := f_ct_ r; pushed := pushed r; popped := popped r |}.
Definition set_hi (i : Z) (a : W) (r : ring) : ring := {| rd_ := rd_ r; wt_ := wt_ r; ct_ := ct_ r;
  lo := lo r; hi := write i a (hi r); f_ct_ := f_ct_ r; pushed := pushed r; popped := popped r |}.
Definition set_flag (i x : Z) (r : ring) : ring := {| rd_ := rd_ r; wt_ := wt_ r; ct_ := ct_ r;
  lo := lo r; hi := hi r; f_ct_ := write i x (f_ct_ r); pushed := pushed r; popped := popped r |}.
Definition log_push (v : W * W) (r : ring) : ring := {| rd_ := rd_ r; wt_ := wt_ r; ct_ := ct_ r;
  lo := lo r; hi := hi r; f_ct_ := f_ct_ r; pushed := pushed r ++ [v]; popped := popped r |}.
Definition log_pop (v : W * W) (r : ring) : ring := {| rd_ := rd_ r; wt_ := wt_ r; ct_ := ct_ r;
  lo := lo r; hi := hi r; f_ct_ := f_ct_ r; pushed := pushed r; popped := popped r ++ [v] |}.

(** A ring in fresh shared memory. *)
Definition empty_ring (w0 : W) : ring := {| rd_ := 0; wt_ := 0; ct_ := 0; lo := λ _, w0; hi := λ _, w0;
  f_ct_ := λ _, 0; pushed := []; popped := [] |}.

(** ** The code *)

Inductive pc :=
| Idle
| PushLoadCt (v : W * W)
| PushLoadRd (v : W * W) (cur_ct : Z)
| PushCas (v : W * W) (cur_ct : Z)
| PushLo (v : W * W) (cur_ct : Z)
| PushHi (v : W * W) (cur_ct : Z)
| PushFlag (cur_ct : Z)
| PushLoadFlag (cur_ct : Z)
| PushLoadWt (cur_ct cac_ct : Z)
| PushCasFlag (cur_ct cac_ct : Z)
| PushStoreWt (cur_ct : Z)
| Pushed (ret : bool)
| PopLoadRd
| PopLoadWt (cur_rd : Z)
| PopLoadFlag (cur_wt : Z)
| PopCasFlag (cur_wt cac_ct : Z)
| PopStoreWt (cur_wt : Z)
| PopLo (cur_rd : Z)
| PopHi (cur_rd : Z) (a : W)
| PopCas (cur_rd : Z) (buff : W * W)
| Popped (ret : option (W * W)).

(** The call of an idle thread; whether a compare-and-exchange fails spuriously. *)
Inductive choice := CallPush (v : W * W) | CallPop | Go | Spurious.

Definition spurious (c : choice) : bool := match c with Spurious => true | _ => false end.

Definition push_step (c : choice) (p : pc) (r : ring) : pc * ring :=
  match p with
  | PushLoadCt v => (PushLoadRd v (ct_ r), r)
  | PushLoadRd v cur_ct =>
      if decide (index_of (u32 (cur_ct + 1)) = index_of (rd_ r)) then (Pushed false, r) else (PushCas v cur_ct, r)
  | PushCas v cur_ct =>
      if decide (ct_ r = cur_ct ∧ spurious c = false) then
        (PushLo v cur_ct, log_push v (set_ct (u32 (cur_ct + 1)) r))
      else (PushLoadCt v, r)
  | PushLo v cur_ct => (PushHi v cur_ct, set_lo (index_of cur_ct) v.1 r)
  | PushHi v cur_ct => (PushFlag cur_ct, set_hi (index_of cur_ct) v.2 r)
  | PushFlag cur_ct => (PushLoadFlag cur_ct, set_flag (index_of cur_ct) (complement cur_ct) r)
  | PushLoadFlag cur_ct => (PushLoadWt cur_ct (f_ct_ r (index_of cur_ct)), r)
  | PushLoadWt cur_ct cac_ct =>
      if decide (cur_ct ≠ wt_ r) then (Pushed true, r)
      else if decide (complement cac_ct ≠ cur_ct) then (Pushed true, r)
      else (PushCasFlag cur_ct cac_ct, r)
  | PushCasFlag cur_ct cac_ct =>
      if decide (f_ct_ r (index_of cur_ct) = cac_ct) then (PushStoreWt cur_ct, set_flag (index_of cur_ct) 0 r)
      else (Pushed true, r)
  | PushStoreWt cur_ct => (PushLoadFlag (u32 (cur_ct + 1)), set_wt (u32 (cur_ct + 1)) r)
  | _ => (p, r)
  end.

Definition pop_step (c : choice) (p : pc) (r : ring) : pc * ring :=
  match p with
  | PopLoadRd => (PopLoadWt (rd_ r), r)
  | PopLoadWt cur_rd =>
      if decide (index_of cur_rd = index_of (wt_ r)) then (PopLoadFlag (wt_ r), r) else (PopLo cur_rd, r)
  | PopLoadFlag cur_wt =>
      let cac_ct := f_ct_ r (index_of cur_wt) in
      if decide (complement cac_ct ≠ cur_wt) then (Popped None, r) else (PopCasFlag cur_wt cac_ct, r)
  | PopCasFlag cur_wt cac_ct =>
      if decide (f_ct_ r (index_of cur_wt) = cac_ct ∧ spurious c = false) then
        (PopStoreWt cur_wt, set_flag (index_of cur_wt) 0 r)
      else (PopLoadRd, r)
  | PopStoreWt cur_wt => (PopLoadRd, set_wt (u32 (cur_wt + 1)) r)
  | PopLo cur_rd => (PopHi cur_rd (lo r (index_of cur_rd)), r)
  | PopHi cur_rd a => (PopCas cur_rd (a, hi r (index_of cur_rd)), r)
  | PopCas cur_rd buff =>
      if decide (rd_ r = cur_rd ∧ spurious c = false) then
        (Popped (Some buff), log_pop buff (set_rd (u32 (cur_rd + 1)) r))
      else (PopLoadRd, r)
  | _ => (p, r)
  end.

Definition next (c : choice) (p : pc) (r : ring) : pc * ring :=
  match p with
  | Idle => (match c with CallPush v => PushLoadCt v | CallPop => PopLoadRd | _ => Idle end, r)
  | Pushed _ | Popped _ => (Idle, r)
  | PushLoadCt _ | PushLoadRd _ _ | PushCas _ _ | PushLo _ _ | PushHi _ _ | PushFlag _ | PushLoadFlag _
  | PushLoadWt _ _ | PushCasFlag _ _ | PushStoreWt _ => push_step c p r
  | _ => pop_step c p r
  end.

(** ** The invariant *)

(** A thread owns the element it fills, and the head of the committed elements between
    the compare-and-exchange of its flag and the store of [wt_]. *)
Definition owns (p : pc) : option Z :=
  match p with PushLo _ c | PushHi _ c | PushFlag c => Some c | _ => None end.
Definition advances (p : pc) : option Z :=
  match p with PushStoreWt c | PopStoreWt c => Some c | _ => None end.

Definition val_at (r : ring) (c : Z) : option (W * W) := pushed r !! Z.to_nat c.

(** The element of index [c] holds its value. *)
Definition filled (r : ring) (c : Z) : Prop := val_at r c = Some (lo r (index_of c), hi r (index_of c)).

Definition flagged (r : ring) (c : Z) : Prop := f_ct_ r (index_of c) = complement c.

(** What a thread knows. *)
Definition pc_ok (r : ring) (p : pc) : Prop :=
  match p with
  | PushLoadRd _ c => 0 ≤ c ≤ ct_ r
  | PushCas _ c => 0 ≤ c ≤ ct_ r ∧ (c = ct_ r → c + 1 - rd_ r ≤ 255)
  | PushLo v c => val_at r c = Some v
  | PushHi v c => val_at r c = Some v ∧ lo r (index_of c) = v.1
  | PushFlag c => filled r c
  | PushLoadFlag c | PushLoadWt c _ => 0 ≤ c ≤ ct_ r
  | PushCasFlag c cac => 0 ≤ c ≤ wt_ r ∧ cac = complement c
  | PopLoadWt c => 0 ≤ c ≤ rd_ r
  | PopLoadFlag c => 0 ≤ c ≤ wt_ r
  | PopCasFlag c cac => 0 ≤ c ≤ wt_ r ∧ cac = complement c
  | PopLo c => 0 ≤ c ≤ rd_ r ∧ c < wt_ r
  | PopHi c a => 0 ≤ c ≤ rd_ r ∧ c < wt_ r ∧ (c = rd_ r → ∃ b, val_at r c = Some (a, b))
  | PopCas c buff => 0 ≤ c ≤ rd_ r ∧ c < wt_ r ∧ (c = rd_ r → val_at r c = Some buff)
  | _ => True
  end.

(** The counters, the logs and the elements. *)
Record ring_ok (r : ring) : Prop := {
  ro_ct : ct_ r = Z.of_nat (length (pushed r));
  ro_rd : rd_ r = Z.of_nat (length (popped r));
  ro_order : rd_ r ≤ wt_ r ≤ ct_ r;
  ro_room : ct_ r - rd_ r ≤ 255;
  ro_fifo : popped r = take (length (popped r)) (pushed r);
  ro_ready c : rd_ r ≤ c < wt_ r → filled r c;
  ro_flagged c : wt_ r ≤ c < ct_ r → flagged r c → filled r c;
  ro_flags i c : f_ct_ r i = complement c → 0 ≤ c < 2 ^ 32 → wt_ r ≤ c < ct_ r ∧ index_of c = i }.

Record ring_inv (k : config ring pc) : Prop := {
  ri_ring : ring_ok (shared k);
  ri_pc t p : pcs k !! t = Some p → pc_ok (shared k) p;
  ri_owner t p c : pcs k !! t = Some p → owns p = Some c →
    wt_ (shared k) ≤ c < ct_ (shared k) ∧ ¬ flagged (shared k) c;
  ri_owner_unique t t' p p' c : pcs k !! t = Some p → pcs k !! t' = Some p' →
    owns p = Some c → owns p' = Some c → t = t';
  ri_advancer t p c : pcs k !! t = Some p → advances p = Some c →
    c = wt_ (shared k) ∧ c < ct_ (shared k) ∧ ¬ flagged (shared k) c ∧ filled (shared k) c;
  ri_advancer_unique t t' p p' c c' : pcs k !! t = Some p → pcs k !! t' = Some p' →
    advances p = Some c → advances p' = Some c' → t = t';
  ri_apart t t' p p' c : pcs k !! t = Some p → pcs k !! t' = Some p' →
    owns p = Some c → advances p' = Some c → False;
  ri_pending c : wt_ (shared k) ≤ c < ct_ (shared k) → flagged (shared k) c ∨
    ∃ t p, pcs k !! t = Some p ∧ (owns p = Some c ∨ advances p = Some c) }.

(** ** Lemmas *)

Lemma write_eq {A} i (a : A) f : write i a f i = a.
Proof. unfold write. by rewrite decide_True. Qed.

Lemma write_ne {A} i j (a : A) f : j ≠ i → write i a f j = f j.
Proof. intros. unfold write. by rewrite decide_False. Qed.

(** Indices less than 256 apart have elements of their own. *)
Lemma index_inj a b : index_of a = index_of b → a - 256 < b < a + 256 → a = b.
Proof.
  unfold index_of, u8. change (2 ^ 8) with 256. intros E Hab.
  pose proof (Z.div_mod a 256 ltac:(lia)). pose proof (Z.div_mod b 256 ltac:(lia)). lia.
Qed.

Lemma index_u32 a : index_of (u32 a) = index_of a.
Proof.
  unfold index_of, u8, u32. apply Z.mod_mod_divide. by exists (2 ^ 24).
Qed.

Lemma complement_inj a b : complement a = complement b → a = b.
Proof. unfold complement. lia. Qed.

Lemma complement_involutive a : complement (complement a) = a.
Proof. unfold complement. lia. Qed.

Lemma val_at_bound r c v : 0 ≤ c → val_at r c = Some v → c < Z.of_nat (length (pushed r)).
Proof. intros Hc Hv. apply lookup_lt_Some in Hv. lia. Qed.

(** The counters only grow, the log of pushes too. *)
Record grows (r r' : ring) : Prop := {
  gr_rd : rd_ r ≤ rd_ r';
  gr_wt : wt_ r ≤ wt_ r';
  gr_ct : ct_ r ≤ ct_ r';
  gr_val c v : val_at r c = Some v → val_at r' c = Some v }.

(** What a thread knows stays true when others step, as long as nobody else writes the
    element it owns. *)
Lemma pc_ok_grows r r' p :
  grows r r' → (∀ c, owns p = Some c → lo r' (index_of c) = lo r (index_of c) ∧ hi r' (index_of c) = hi r (index_of c)) →
  pc_ok r p → pc_ok r' p.
Proof.
  intros [Hrd Hwt Hct Hval] Hown Hp. destruct p; cbn in *; try lia; try done.
  - by apply Hval.
  - destruct (Hown _ eq_refl) as [-> _]. naive_solver.
  - destruct (Hown _ eq_refl) as [El Eh]. unfold filled in *. rewrite El, Eh. by apply Hval.
  - destruct Hp as (? & ? & Hv). split_and!; try lia. intros E. destruct Hv as [b Hv]; [lia|]. exists b. by apply Hval.
  - destruct Hp as (? & ? & Hv). split_and!; try lia. intros E. apply Hval, Hv. lia.
Qed.

(** One step of thread [t], seen from the invariant. *)
Lemma inv_step s m t p s' p' :
  ring_inv {| shared := s; pcs := m |} → m !! t = Some p →
  ring_ok s' → pc_ok s' p' → grows s s' →
  (∀ c, owns p' = Some c → wt_ s' ≤ c < ct_ s' ∧ ¬ flagged s' c) →
  (∀ c, advances p' = Some c → c = wt_ s' ∧ c < ct_ s' ∧ ¬ flagged s' c ∧ filled s' c) →
  (∀ t2 p2 c, t2 ≠ t → m !! t2 = Some p2 → owns p2 = Some c →
     lo s' (index_of c) = lo s (index_of c) ∧ hi s' (index_of c) = hi s (index_of c) ∧
     wt_ s' ≤ c ∧ ¬ flagged s' c ∧ owns p' ≠ Some c ∧ advances p' ≠ Some c) →
  (∀ t2 p2 c, t2 ≠ t → m !! t2 = Some p2 → advances p2 = Some c →
     c = wt_ s' ∧ ¬ flagged s' c ∧ filled s' c ∧ owns p' ≠ Some c ∧ advances p' = None) →
  (∀ c, wt_ s' ≤ c < ct_ s' → flagged s' c ∨ owns p' = Some c ∨ advances p' = Some c ∨
     ∃ t2 p2, t2 ≠ t ∧ m !! t2 = Some p2 ∧ (owns p2 = Some c ∨ advances p2 = Some c)) →
  ring_inv {| shared := s'; pcs := <[t := p']> m |}.
Proof.
  intros Hinv Ht Hring Hpc Hgrow Hown Hadv Hothers Hadvs Hpend. destruct Hinv as [HR HPC HO HOU HA HAU HAP HPE].
  cbn [shared pcs] in *. split; cbn [shared pcs].
  - done.
  - intros t2 p2 H2. apply lookup_insert_Some in H2 as [[<- <-]|[Hne H2]]; [done|].
    apply (pc_ok_grows s); [done| |by eapply HPC]. intros c Hc.
    destruct (Hothers t2 p2 c ltac:(done) H2 Hc) as (? & ? & _). done.
  - intros t2 p2 c H2 Hc. apply lookup_insert_Some in H2 as [[<- <-]|[Hne H2]]; [by apply Hown|].
    destruct (Hothers t2 p2 c ltac:(done) H2 Hc) as (_ & _ & ? & ? & _).
    destruct (HO t2 p2 c H2 Hc) as [? _]. pose proof (gr_ct _ _ Hgrow). split; [lia|done].
  - intros t2 t3 p2 p3 c H2 H3 Hc2 Hc3.
    apply lookup_insert_Some in H2 as [[<- <-]|[Hne2 H2]]; apply lookup_insert_Some in H3 as [[<- <-]|[Hne3 H3]];
      [done| | |by eapply HOU].
    + by destruct (Hothers t3 p3 c ltac:(done) H3 Hc3) as (_ & _ & _ & _ & ? & _).
    + by destruct (Hothers t2 p2 c ltac:(done) H2 Hc2) as (_ & _ & _ & _ & ? & _).
  - intros t2 p2 c H2 Hc. apply lookup_insert_Some in H2 as [[<- <-]|[Hne H2]]; [by apply Hadv|].
    destruct (Hadvs t2 p2 c ltac:(done) H2 Hc) as (? & ? & ? & _). destruct (HA t2 p2 c H2 Hc) as (_ & ? & _).
    pose proof (gr_ct _ _ Hgrow). split_and!; [done|lia|done|done].
  - intros t2 t3 p2 p3 c c' H2 H3 Hc2 Hc3.
    apply lookup_insert_Some in H2 as [[<- <-]|[Hne2 H2]]; apply lookup_insert_Some in H3 as [[<- <-]|[Hne3 H3]];
      [done| | |by eapply HAU].
    + destruct (Hadvs t3 p3 c' ltac:(done) H3 Hc3) as (_ & _ & _ & _ & E). by rewrite E in Hc2.
    + destruct (Hadvs t2 p2 c ltac:(done) H2 Hc2) as (_ & _ & _ & _ & E). by rewrite E in Hc3.
  - intros t2 t3 p2 p3 c H2 H3 Hc2 Hc3.
    apply lookup_insert_Some in H2 as [[<- <-]|[Hne2 H2]]; apply lookup_insert_Some in H3 as [[<- <-]|[Hne3 H3]].
    + by destruct p'.
    + by destruct (Hadvs t3 p3 c ltac:(done) H3 Hc3) as (_ & _ & _ & ? & _).
    + by destruct (Hothers t2 p2 c ltac:(done) H2 Hc2) as (_ & _ & _ & _ & _ & ?).
    + exact (HAP _ _ _ _ _ H2 H3 Hc2 Hc3).
  - intros c Hc. destruct (Hpend c Hc) as [?|[Ho|[Ha|(t2 & p2 & Hne & H2 & Ho)]]]; [by left|right|right|right].
    + exists t, p'. rewrite lookup_insert_eq. auto.
    + exists t, p'. rewrite lookup_insert_eq. auto.
    + exists t2, p2. by rewrite lookup_insert_ne by done.
Qed.

Lemma grows_refl r : grows r r.
Proof. by split. Qed.

(** Steps that leave the shared state alone. *)
Lemma inv_local s m t p p' :
  ring_inv {| shared := s; pcs := m |} → m !! t = Some p → pc_ok s p' →
  owns p = None → advances p = None → owns p' = None → advances p' = None →
  ring_inv {| shared := s; pcs := <[t := p']> m |}.
Proof.
  intros Hinv Ht Hpc Ho Ha Ho' Ha'. pose proof Hinv as [HR HPC HO HOU HA HAU HAP HPE]. cbn [shared pcs] in *.
  apply (inv_step s m t p s p'); try done; try (rewrite ?Ho', ?Ha'; done).
  - intros t2 p2 c Hne H2 Hc. destruct (HO t2 p2 c H2 Hc) as [??]. rewrite Ho', Ha'. split_and!; (done || lia).
  - intros t2 p2 c Hne H2 Hc. destruct (HA t2 p2 c H2 Hc) as (?&?&?&?). rewrite Ho', Ha'. split_and!; done.
  - intros c Hc. destruct (HPE c Hc) as [?|(t2 & p2 & H2 & H3)]; [by left|].
    do 3 right. exists t2, p2. split; [|done]. intros ->. rewrite Ht in H2. injection H2 as <-.
    destruct H3; congruence.
Qed.

(** A thread writes the element it owns. *)
Lemma inv_write s m t p p' c s' :
  ring_inv {| shared := s; pcs := m |} → m !! t = Some p → owns p = Some c → owns p' = Some c →
  rd_ s' = rd_ s → wt_ s' = wt_ s → ct_ s' = ct_ s → f_ct_ s' = f_ct_ s →
  pushed s' = pushed s → popped s' = popped s →
  (∀ i, i ≠ index_of c → lo s' i = lo s i ∧ hi s' i = hi s i) → pc_ok s' p' →
  ring_inv {| shared := s'; pcs := <[t := p']> m |}.
Proof.
  intros Hinv Ht Ho Ho' Erd Ewt Ect Ef Epu Epo Eel Hpc.
  pose proof Hinv as [HR HPC HO HOU HA HAU HAP HPE]. cbn [shared pcs] in *.
  destruct (HO t p c Ht Ho) as [Hc Hnf]. pose proof HR as [H1 H2 H3 H4 H5 H6 H7 H8].
  assert (Hfl : ∀ d, flagged s' d ↔ flagged s d) by (intros; unfold flagged; by rewrite Ef).
  assert (Hfi : ∀ d, d ≠ c → rd_ s ≤ d < ct_ s → filled s d → filled s' d).
  { intros d Hd Hr. unfold filled, val_at. rewrite Epu.
    destruct (Eel (index_of d)) as [-> ->]; [|done]. intros E%index_inj; lia. }
  assert (Ha' : advances p' = None) by (destruct p'; done).
  apply (inv_step s m t p s' p'); try done.
  - split; rewrite ?Erd, ?Ewt, ?Ect, ?Epu, ?Epo; try done.
    + intros d Hd. apply Hfi; [lia|lia|by apply H6].
    + intros d Hd Hdf%Hfl. apply Hfi; [by intros ->|lia|by apply H7].
    + rewrite Ef. exact H8.
  - split; try lia. intros d v. unfold val_at. by rewrite Epu.
  - intros d [= <-]%(eq_trans (eq_sym Ho')). rewrite Hfl, Ewt, Ect. done.
  - intros d Hd. congruence.
  - intros t2 p2 d Hne Ht2 Hd. destruct (HO t2 p2 d Ht2 Hd) as [??]. rewrite Hfl, Ewt, Ha'.
    assert (d ≠ c) by (intros ->; apply Hne; by eapply HOU).
    destruct (Eel (index_of d)) as [-> ->]; [intros E%index_inj; lia|]. split_and!; try done; try lia. congruence.
  - intros t2 p2 d Hne Ht2 Hd. destruct (HA t2 p2 d Ht2 Hd) as (?&?&?&?). rewrite Hfl, Ewt, Ha'.
    assert (d ≠ c) by (intros ->; by eapply (HAP t t2)).
    split_and!; try done; [apply Hfi; (done || lia)|congruence].
  - intros d Hd. rewrite Hfl. rewrite Ewt, Ect in Hd.
    destruct (HPE d Hd) as [?|(t2 & p2 & Ht2 & H23)]; [by left|].
    destruct (decide (t2 = t)) as [->|]; [|do 3 right; by exists t2, p2].
    rewrite Ht in Ht2. injection Ht2 as <-. right; left. destruct H23; [congruence|destruct p; done].
Qed.

(** The commit flag of an element that is filled. *)
Lemma inv_flag s m t c :
  ring_inv {| shared := s; pcs := m |} → m !! t = Some (PushFlag c) →
  ring_inv {| shared := set_flag (index_of c) (complement c) s; pcs := <[t := PushLoadFlag c]> m |}.
Proof.
  intros Hinv Ht. pose proof Hinv as [HR HPC HO HOU HA HAU HAP HPE]. cbn [shared pcs] in *.
  destruct (HO t _ c Ht eq_refl) as [Hc Hnf]. pose proof HR as [H1 H2 H3 H4 H5 H6 H7 H8].
  pose proof (HPC t _ Ht) as Hfill. cbn in Hfill. set (s' := set_flag _ _ s).
  assert (Hfl : ∀ d, d ≠ c → rd_ s ≤ d < ct_ s → flagged s' d ↔ flagged s d).
  { intros d Hd Hr. unfold flagged, s'. cbn. rewrite write_ne; [done|]. intros E%index_inj; lia. }
  apply (inv_step s m t (PushFlag c) s' (PushLoadFlag c)); try done.
  - split; try done.
    + intros d Hd Hdf. destruct (decide (d = c)) as [->|]; [done|]. apply H7; [done|]. apply Hfl in Hdf; [done|done|].
      cbn in Hd. lia.
    + intros i d. cbn. destruct (decide (i = index_of c)) as [->|]; [|rewrite write_ne by done; apply H8].
      rewrite write_eq. intros ->%complement_inj ?. done.
  - cbn. lia.
  - intros t2 p2 d Hne Ht2 Hd. destruct (HO t2 p2 d Ht2 Hd) as [??].
    assert (d ≠ c) by (intros ->; apply Hne; by eapply HOU).
    rewrite Hfl by (done || lia). split_and!; (done || (cbn; lia)).
  - intros t2 p2 d Hne Ht2 Hd. destruct (HA t2 p2 d Ht2 Hd) as (?&?&?&?).
    assert (d ≠ c) by (intros ->; by eapply (HAP t t2)).
    rewrite Hfl by (done || lia). split_and!; done.
  - intros d Hd. cbn in Hd. destruct (decide (d = c)) as [->|]; [left; by apply write_eq|].
    rewrite Hfl by (done || lia). destruct (HPE d Hd) as [?|(t2 & p2 & Ht2 & H23)]; [by left|].
    do 3 right. exists t2, p2. split; [|done]. intros ->. rewrite Ht in Ht2. injection Ht2 as <-.
    destruct H23; cbn in *; congruence.
Qed.

(** The flag of the element of [wt_] is taken: the thread may advance [wt_]. *)
Lemma inv_cas_flag s m t p p' w :
  ring_inv {| shared := s; pcs := m |} → m !! t = Some p → owns p = None → advances p = None →
  advances p' = Some w → pc_ok s p' → flagged s w → 0 ≤ w ≤ wt_ s → ct_ s < 2 ^ 32 →
  ring_inv {| shared := set_flag (index_of w) 0 s; pcs := <[t := p']> m |}.
Proof.
  intros Hinv Ht Ho Ha Ha' Hpc Hf Hw Hct. pose proof Hinv as [HR HPC HO HOU HA HAU HAP HPE]. cbn [shared pcs] in *.
  pose proof HR as [H1 H2 H3 H4 H5 H6 H7 H8]. set (s' := set_flag _ _ s).
  destruct (H8 _ _ Hf ltac:(lia)) as [Hwc _]. assert (w = wt_ s) as Ew by lia.
  assert (Ho' : owns p' = None) by (destruct p'; done).
  assert (Hnf : ¬ flagged s' w). { unfold flagged, s'. cbn. rewrite write_eq. unfold complement. lia. }
  assert (Hfl : ∀ d, d ≠ w → rd_ s ≤ d < ct_ s → flagged s' d ↔ flagged s d).
  { intros d Hd Hr. unfold flagged, s'. cbn. rewrite write_ne; [done|]. intros E%index_inj; lia. }
  apply (inv_step s m t p s' p'); try done.
  - split; try done.
    + intros d Hd Hdf. cbn in Hd. assert (d ≠ w) by (by intros ->). apply H7; [done|]. apply Hfl in Hdf; (done || lia).
    + intros i d. cbn. destruct (decide (i = index_of w)) as [->|]; [|rewrite write_ne by done; apply H8].
      rewrite write_eq. unfold complement. lia.
  - by destruct p'.
  - intros d Hd. assert (d = w) as -> by congruence. split_and!; [done|cbn; lia|done|by apply H7].
  - intros t2 p2 d Hne Ht2 Hd. destruct (HO t2 p2 d Ht2 Hd) as [? Hnd].
    assert (d ≠ w) by (by intros ->). rewrite Hfl, Ha', Ho' by (done || lia).
    split_and!; (done || (cbn; lia) || congruence).
  - intros t2 p2 d Hne Ht2 Hd. destruct (HA t2 p2 d Ht2 Hd) as (-> &?& [] &?). by rewrite <- Ew.
  - intros d Hd. cbn in Hd. destruct (decide (d = w)) as [->|]; [by right; right; left|].
    rewrite Hfl by (done || lia). destruct (HPE d Hd) as [?|(t2 & p2 & Ht2 & H23)]; [by left|].
    do 3 right. exists t2, p2. split; [|done]. intros ->. rewrite Ht in Ht2. injection Ht2 as <-.
    destruct H23; congruence.
Qed.

(** [wt_] moves over the element whose flag was taken. *)
Lemma inv_store_wt s m t p p' w :
  ring_inv {| shared := s; pcs := m |} → m !! t = Some p → advances p = Some w →
  owns p' = None → advances p' = None → pc_ok (set_wt (u32 (w + 1)) s) p' → ct_ s < 2 ^ 32 →
  ring_inv {| shared := set_wt (u32 (w + 1)) s; pcs := <[t := p']> m |}.
Proof.
  intros Hinv Ht Ha Ho' Ha' Hpc Hct. pose proof Hinv as [HR HPC HO HOU HA HAU HAP HPE]. cbn [shared pcs] in *.
  pose proof HR as [H1 H2 H3 H4 H5 H6 H7 H8]. destruct (HA t p w Ht Ha) as (Ew & Hwc & Hnf & Hfill).
  assert (Ho : owns p = None) by (destruct p; done).
  rewrite u32_small in * by lia. set (s' := set_wt _ s) in *.
  apply (inv_step s m t p s' p'); try done.
  - split; cbn; try done; try lia.
    + intros d Hd. destruct (decide (d = w)) as [->|]; [done|]. apply H6. lia.
    + intros d Hd. apply H7. lia.
    + intros i d Hf Hd. destruct (H8 i d Hf Hd) as [? Ei].
      assert (d ≠ w); [|lia]. intros ->. apply Hnf. unfold flagged. by rewrite Ei.
  - split; cbn; (done || lia).
  - intros ? ?. congruence.
  - intros ? ?. congruence.
  - intros t2 p2 d Hne Ht2 Hd. destruct (HO t2 p2 d Ht2 Hd) as [??].
    assert (d ≠ w) by (intros ->; by eapply (HAP t2 t)). rewrite Ho', Ha'. split_and!; (done || (cbn; lia)).
  - intros t2 p2 d Hne Ht2 Hd. destruct Hne. by eapply HAU.
  - intros d Hd. cbn in Hd. destruct (HPE d ltac:(lia)) as [?|(t2 & p2 & Ht2 & H23)]; [by left|].
    do 3 right. exists t2, p2. split; [|done]. intros ->. rewrite Ht in Ht2. injection Ht2 as <-.
    destruct H23 as [?|H23]; [congruence|]. rewrite Ha in H23. injection H23. lia.
Qed.

(** A producer claims the next index. *)
Lemma inv_claim s m t v :
  ring_inv {| shared := s; pcs := m |} → m !! t = Some (PushCas v (ct_ s)) → ct_ s + 1 < 2 ^ 32 →
  ring_inv {| shared := log_push v (set_ct (u32 (ct_ s + 1)) s); pcs := <[t := PushLo v (ct_ s)]> m |}.
Proof.
  intros Hinv Ht Hct. pose proof Hinv as [HR HPC HO HOU HA HAU HAP HPE]. cbn [shared pcs] in *.
  pose proof HR as [H1 H2 H3 H4 H5 H6 H7 H8]. destruct (HPC t _ Ht) as [Hc0 Hroom]. specialize (Hroom eq_refl).
  rewrite u32_small by lia. set (s' := log_push _ _). set (c := ct_ s) in *.
  assert (Hval : ∀ d w, val_at s d = Some w → val_at s' d = Some w).
  { intros d w Hd. unfold val_at, s'. cbn. by apply lookup_app_l_Some. }
  assert (Hnf : ¬ flagged s c). { intros Hf. destruct (H8 _ _ Hf); lia. }
  apply (inv_step s m t (PushCas v c) s' (PushLo v c)); try done.
  - split; cbn; try done; try lia.
    + rewrite length_app. cbn. lia.
    + rewrite take_app_le; [done|lia].
    + intros d Hd. apply Hval, H6. lia.
    + intros d Hd Hf. apply Hval, H7; [|done]. assert (d ≠ c) by (by intros ->). lia.
    + intros i d Hf Hd. destruct (H8 i d Hf Hd). split; [lia|done].
  - cbn. unfold val_at, s'. cbn. apply list_lookup_middle. lia.
  - split; cbn; (done || lia).
  - intros d [= <-]. split; [cbn; lia|done].
  - intros t2 p2 d Hne Ht2 Hd. destruct (HO t2 p2 d Ht2 Hd) as [??]. split_and!; try done; [cbn; lia|intros [= ->]; lia].
  - intros t2 p2 d Hne Ht2 Hd. destruct (HA t2 p2 d Ht2 Hd) as (?&?&?&?).
    split_and!; try done; [by apply Hval|intros [= ->]; lia].
  - intros d Hd. cbn in Hd. destruct (decide (d = c)) as [->|]; [by right; left|].
    destruct (HPE d ltac:(lia)) as [?|(t2 & p2 & Ht2 & H23)]; [by left|].
    do 3 right. exists t2, p2. split; [|done]. intros ->. rewrite Ht in Ht2. injection Ht2 as <-.
    destruct H23; cbn in *; congruence.
Qed.

(** A consumer takes the oldest element. *)
Lemma inv_take s m t b :
  ring_inv {| shared := s; pcs := m |} → m !! t = Some (PopCas (rd_ s) b) → ct_ s < 2 ^ 32 →
  ring_inv {| shared := log_pop b (set_rd (u32 (rd_ s + 1)) s); pcs := <[t := Popped (Some b)]> m |}.
Proof.
  intros Hinv Ht Hct. pose proof Hinv as [HR HPC HO HOU HA HAU HAP HPE]. cbn [shared pcs] in *.
  pose proof HR as [H1 H2 H3 H4 H5 H6 H7 H8]. destruct (HPC t _ Ht) as (Hc & Hlt & Hval). specialize (Hval eq_refl).
  rewrite u32_small by lia. set (s' := log_pop _ _).
  apply (inv_step s m t (PopCas (rd_ s) b) s' (Popped (Some b))); try done.
  - split; cbn; try done; try lia.
    + rewrite length_app. cbn. lia.
    + rewrite length_app. cbn. rewrite Nat.add_1_r. unfold val_at in Hval. rewrite H2, Nat2Z.id in Hval.
      by rewrite (take_S_r _ _ _ Hval), <- H5.
    + intros d Hd. apply H6. lia.
  - split; cbn; (done || lia).
  - intros t2 p2 d Hne Ht2 Hd. destruct (HO t2 p2 d Ht2 Hd) as [??]. split_and!; (done || (cbn; lia)).
  - intros t2 p2 d Hne Ht2 Hd. destruct (HA t2 p2 d Ht2 Hd) as (?&?&?&?). split_and!; done.
  - intros d Hd. cbn in Hd. destruct (HPE d Hd) as [?|(t2 & p2 & Ht2 & H23)]; [by left|].
    do 3 right. exists t2, p2. split; [|done]. intros ->. rewrite Ht in Ht2. injection Ht2 as <-.
    destruct H23; cbn in *; congruence.
Qed.

(** Every step keeps the invariant, as long as the 32-bit counters do not wrap around. *)
Lemma pushed_next c p s : (length (pushed s) ≤ length (pushed (next c p s).2))%nat.
Proof.
  destruct p; cbn; try lia; repeat case_decide; cbn; try lia; rewrite length_app; lia.
Qed.

Lemma next_inv s m t p c :
  ring_inv {| shared := s; pcs := m |} → m !! t = Some p →
  Z.of_nat (length (pushed (next c p s).2)) < 2 ^ 32 →
  ring_inv {| shared := (next c p s).2; pcs := <[t := (next c p s).1]> m |}.
Proof.
  intros Hinv Ht Hlen. pose proof Hinv as [HR HPC _ _ HA _ _ _]. cbn [shared pcs] in *.
  pose proof (pushed_next c p s) as Hmono. pose proof (HPC t p Ht) as Hpc.
  destruct HR as [H1 H2 H3 H4 H5 H6 H7 H8]. assert (Hct : ct_ s < 2 ^ 32) by lia.
  assert (Hlocal : ∀ p', pc_ok s p' → owns p = None → advances p = None → owns p' = None → advances p' = None →
    ring_inv {| shared := s; pcs := <[t := p']> m |}) by (intros; by apply (inv_local s m t p)).
  destruct p as [|v|v c1|v c1|v c1|v c1|c1|c1|c1 cac|c1 cac|c1|ret| |c1|c1|c1 cac|c1|c1|c1 a|c1 b|ret];
    cbn in *.
  - apply Hlocal; try done; by destruct c.
  - apply Hlocal; try done. cbn. lia.
  - case_decide as Hi; apply Hlocal; try done. cbn. split; [done|]. intros ->.
    rewrite index_u32 in Hi. assert (ct_ s + 1 ≠ rd_ s + 256); [|lia]. intros E. apply Hi. rewrite E.
    apply (Z_mod_plus_full _ 1 (2 ^ 8)).
  - case_decide as Hc; [|apply Hlocal; done]. destruct Hc as [<- _]. apply inv_claim; try done.
    cbn in Hlen. rewrite length_app in Hlen. cbn in Hlen. lia.
  - eapply (inv_write s m t (PushLo v c1) (PushHi v c1) c1); try done.
    + intros i Hi. cbn. by rewrite write_ne.
    + cbn. by rewrite write_eq.
  - eapply (inv_write s m t (PushHi v c1) (PushFlag c1) c1); try done.
    + intros i Hi. cbn. by rewrite write_ne.
    + destruct Hpc as [Hv Hl]. cbn. unfold filled, val_at in *. cbn. rewrite write_eq, Hl, Hv. by destruct v.
  - by apply inv_flag.
  - by apply Hlocal.
  - case_decide as Hw; [by apply Hlocal|]. case_decide as Hf; [by apply Hlocal|]. apply Hlocal; try done. cbn.
    assert (complement cac = c1) as <- by (by destruct (decide (complement cac = c1))).
    rewrite complement_involutive. split; [lia|done].
  - destruct Hpc as [Hw ->]. case_decide as Hf; [|by apply Hlocal]. by apply (inv_cas_flag s m t (PushCasFlag c1 (complement c1))).
  - destruct (HA t _ c1 Ht eq_refl) as (-> & ? & _).
    apply (inv_store_wt s m t (PushStoreWt (wt_ s)) _ (wt_ s)); try done. cbn. rewrite u32_small; lia.
  - by apply Hlocal.
  - apply Hlocal; try done. cbn. lia.
  - case_decide as Hi; apply Hlocal; try done; cbn; [lia|].
    assert (c1 ≠ wt_ s); [by intros ->|lia].
  - case_decide as Hf; apply Hlocal; try done. cbn. split; [done|].
    assert (complement (f_ct_ s (index_of c1)) = c1) as E
      by (by destruct (decide (complement (f_ct_ s (index_of c1)) = c1))).
    rewrite <- E at 2. by rewrite complement_involutive.
  - destruct Hpc as [Hw ->]. case_decide as Hf; [destruct Hf as [Hf _]|by apply Hlocal].
    by apply (inv_cas_flag s m t (PopCasFlag c1 (complement c1))).
  - destruct (HA t _ c1 Ht eq_refl) as (-> & ? & _).
    by apply (inv_store_wt s m t (PopStoreWt (wt_ s)) _ (wt_ s)).
  - apply Hlocal; try done. cbn. split_and!; try lia. intros ->. eexists. apply H6. lia.
  - destruct Hpc as (? & ? & Hv). apply Hlocal; try done. cbn. split_and!; try lia. intros E.
    destruct (Hv E) as [b Hb]. rewrite Hb. pose proof (H6 c1 ltac:(lia)) as Hfl. unfold filled in Hfl.
    rewrite Hb in Hfl. injection Hfl as _ ->. done.
  - case_decide as Hc; [|by apply Hlocal]. destruct Hc as [<- _]. by apply inv_take.
  - by apply Hlocal.
Qed.

Lemma ring_inv_init k w0 : shared k = empty_ring w0 → all_at Idle k → ring_inv k.
Proof.
  destruct k as [s m]. cbn. intros -> Hidle. split; cbn; try done.
  - split; cbn; try done; try lia. intros i c E. unfold complement in E. lia.
  - intros t p Hp. by rewrite (Hidle t p Hp).
  - intros t p c Hp. by rewrite (Hidle t p Hp).
  - intros t t' p p' c Hp _. by rewrite (Hidle t p Hp).
  - intros t p c Hp. by rewrite (Hidle t p Hp).
  - intros t t' p p' c c' Hp _. by rewrite (Hidle t p Hp).
  - intros t t' p p' c Hp _. by rewrite (Hidle t p Hp).
  - lia.
Qed.

Lemma reachable_ring_inv k0 k w0 :
  shared k0 = empty_ring w0 → all_at Idle k0 → reachable next k0 k →
  Z.of_nat (length (pushed (shared k))) < 2 ^ 32 → ring_inv k.
Proof.
  intros Hs Hidle Hr. revert k Hr.
  apply (reachable_invariant next (λ k, Z.of_nat (length (pushed (shared k))) < 2 ^ 32 → ring_inv k)).
  - intros _. by eapply ring_inv_init.
  - intros s m t pc c Hinv Ht Hlen. cbn in Hlen. pose proof (pushed_next c pc s).
    apply next_inv; try done. apply Hinv. cbn. lia.
Qed.

(** ** One thread alone *)

(** The elements that wait. *)
Definition queue (r : ring) : list (W * W) := drop (length (popped r)) (pushed r).

Definition runs (p : pc) (r : ring) (p' : pc) (r' : ring) : Prop :=
  ∃ n, run_thread next (replicate n Go) p r = (p', r').

Lemma runs_refl p r : runs p r p r.
Proof. by exists 0%nat. Qed.

Lemma runs_step p1 r1 p r p' r' : next Go p r = (p1, r1) → runs p1 r1 p' r' → runs p r p' r'.
Proof. intros E [n Hn]. exists (S n). unfold run_thread in *. cbn. by rewrite E. Qed.

Lemma runs_call c p1 r p' r' : next c Idle r = (p1, r) → runs p1 r p' r' →
  ∃ n, run_thread next (c :: replicate n Go) Idle r = (p', r').
Proof. intros E [n Hn]. exists n. unfold run_thread in *. cbn [foldl fst snd]. by rewrite E. Qed.

Lemma queue_lookup r : rd_ r = Z.of_nat (length (popped r)) → head (queue r) = val_at r (rd_ r).
Proof. intros E. unfold queue, val_at. by rewrite E, Nat2Z.id, head_lookup, lookup_drop, Nat.add_0_r. Qed.

Lemma index_ne a b : a < b ≤ a + 255 → index_of a ≠ index_of b.
Proof. intros Hab E%index_inj; lia. Qed.

Ltac go := eapply runs_step; [cbn; rewrite ?decide_True, ?decide_False by (done || lia || auto); reflexivity|].

Lemma pop_ready r : rd_ r < wt_ r ≤ rd_ r + 255 → filled r (rd_ r) →
  ∃ b, val_at r (rd_ r) = Some b ∧ runs PopLoadRd r (Popped (Some b)) (log_pop b (set_rd (u32 (rd_ r + 1)) r)).
Proof.
  intros Hrd Hf. eexists. split; [exact Hf|]. pose proof (index_ne _ _ Hrd).
  do 5 go. apply runs_refl.
Qed.

Lemma pop_alone r : ring_ok r → ct_ r < 2 ^ 32 → (∀ c, wt_ r ≤ c < ct_ r → flagged r c) →
  ∃ r', runs PopLoadRd r (Popped (head (queue r))) r' ∧ queue r' = tail (queue r).
Proof.
  intros [H1 H2 H3 H4 H5 H6 H7 H8] Hct Hq. rewrite (queue_lookup r H2).
  assert (Htail : ∀ b, tail (queue r) = queue (log_pop b r)).
  { intros b. unfold queue. cbn. rewrite length_app. cbn. rewrite <- drop_drop.
    by destruct (drop (length (popped r)) (pushed r)). }
  destruct (decide (rd_ r < wt_ r)) as [Hlt|].
  { destruct (pop_ready r ltac:(lia) (H6 (rd_ r) ltac:(lia))) as (b & -> & Hrun). eexists. split; [exact Hrun|].
    by rewrite (Htail b). }
  assert (E : wt_ r = rd_ r) by lia. destruct (decide (wt_ r < ct_ r)) as [Hlt|].
  - pose proof (Hq (wt_ r) ltac:(lia)) as Hfl. pose proof (H7 (wt_ r) ltac:(lia) Hfl) as Hfill. unfold flagged in Hfl.
    destruct (pop_ready (set_wt (u32 (wt_ r + 1)) (set_flag (index_of (wt_ r)) 0 r))) as (b & Hb & Hrun).
    { cbn. rewrite u32_small; lia. }
    { rewrite E in Hfill. exact Hfill. }
    cbn in Hb, Hrun. exists (log_pop b (set_rd (u32 (rd_ r + 1)) (set_wt (u32 (wt_ r + 1)) (set_flag (index_of (wt_ r)) 0 r)))).
    split; [|by rewrite (Htail b)]. change (val_at r (rd_ r) = Some b) in Hb. rewrite Hb.
    assert (E2 : index_of (rd_ r) = index_of (wt_ r)) by congruence.
    assert (E3 : complement (f_ct_ r (index_of (wt_ r))) = wt_ r) by (rewrite Hfl; apply complement_involutive).
    do 2 go. eapply runs_step; [cbn; rewrite decide_False by (intros Hn; by apply Hn); reflexivity|].
    do 2 go. exact Hrun.
  - assert (E2 : index_of (rd_ r) = index_of (wt_ r)) by congruence.
    assert (E3 : complement (f_ct_ r (index_of (wt_ r))) ≠ wt_ r).
    { intros E3. destruct (H8 (index_of (wt_ r)) (wt_ r)); [|lia|lia].
      apply complement_inj. by rewrite complement_involutive. }
    exists r. replace (val_at r (rd_ r)) with (@None (W * W)).
    + split; [do 3 go; apply runs_refl|]. unfold queue. rewrite drop_ge by lia. done.
    + symmetry. apply lookup_ge_None. lia.
Qed.

(** After the commit flag: [wt_] moves over this element at most, the next is free. *)
Lemma advance_alone r c : 0 ≤ c < 2 ^ 32 → u32 (c + 1) ≠ complement (f_ct_ r (index_of (u32 (c + 1)))) →
  ∃ r', runs (PushLoadFlag c) r (Pushed true) r' ∧ pushed r' = pushed r ∧ popped r' = popped r.
Proof.
  intros Hc Hfree. destruct (decide (c = wt_ r)) as [E|]; [|exists r; split; [do 2 go; apply runs_refl|done]].
  destruct (decide (complement (f_ct_ r (index_of c)) = c)) as [Ef|].
  - exists (set_wt (u32 (c + 1)) (set_flag (index_of c) 0 r)). split; [|done].
    go. eapply runs_step; [cbn; rewrite !decide_False by (intros Hn; by apply Hn); reflexivity|]. do 2 go.
    set (r1 := set_wt _ _). assert (E1 : wt_ r1 = u32 (c + 1)) by done. go.
    eapply runs_step; [cbn; rewrite decide_False by (intros Hn; by apply Hn); rewrite decide_True; [reflexivity|]|].
    + cbn. rewrite write_ne by (rewrite index_u32; apply not_eq_sym, index_ne; lia). by apply not_eq_sym.
    + apply runs_refl.
  - exists r. split; [|done]. go.
    eapply runs_step; [cbn; rewrite decide_False by (intros Hn; by apply Hn); rewrite decide_True by done; reflexivity|].
    apply runs_refl.
Qed.

Lemma push_alone r v : ring_ok r → ct_ r + 1 < 2 ^ 32 →
  ∃ r', runs (PushLoadCt v) r (Pushed (bool_decide (Z.of_nat (length (queue r)) < 255))) r' ∧
    queue r' = queue r ++ (if decide (Z.of_nat (length (queue r)) < 255) then [v] else []).
Proof.
  intros [H1 H2 H3 H4 H5 H6 H7 H8] Hct.
  assert (Hlen : Z.of_nat (length (queue r)) = ct_ r - rd_ r) by (unfold queue; rewrite length_drop; lia).
  rewrite Hlen. destruct (decide (ct_ r - rd_ r < 255)) as [Hroom|Hfull].
  - rewrite bool_decide_true by done. pose proof (index_ne (rd_ r) (ct_ r + 1) ltac:(lia)) as Hne.
    set (c := ct_ r). set (r1 := log_push v (set_ct (u32 (c + 1)) r)).
    set (r2 := set_flag (index_of c) (complement c) (set_hi (index_of c) v.2 (set_lo (index_of c) v.1 r1))).
    destruct (advance_alone r2 c) as (r' & Hrun & Epu & Epo); [lia| |].
    { rewrite u32_small by lia. cbn. rewrite write_ne by (apply not_eq_sym, index_ne; lia). intros Hf.
      destruct (H8 (index_of (c + 1)) (c + 1)); [|lia|lia]. rewrite Hf at 2. by rewrite complement_involutive. }
    exists r'. split.
    + go. eapply runs_step; [cbn; rewrite decide_False by (by rewrite index_u32; apply not_eq_sym); reflexivity|].
      do 4 go. exact Hrun.
    + unfold queue. rewrite Epu, Epo. cbn. rewrite drop_app_le; [done|lia].
  - rewrite bool_decide_false by done. exists r. split; [|by rewrite app_nil_r].
    go. eapply runs_step; [cbn; rewrite decide_True; [reflexivity|]|apply runs_refl].
    rewrite index_u32. assert (ct_ r + 1 = rd_ r + 256) as -> by lia. apply (Z_mod_plus_full _ 1 (2 ^ 8)).
Qed.

(** ** The ring is a queue *)

(** C21: any number of threads may push and pop at the same time, interrupted at any
    atomic operation, a compare-and-exchange failing whenever it likes: the values that
    pops deliver are those that pushes wrote, whole, each delivered once, in the order in
    which their pushes claimed an index; and at most 255 values wait, so that no push
    overwrites a value not delivered.  This holds until the 32-bit counters wrap around. *)
Theorem ring_fifo w0 k0 k :
  shared k0 = empty_ring w0 → all_at Idle k0 → reachable next k0 k →
  Z.of_nat (length (pushed (shared k))) < 2 ^ 32 →
  popped (shared k) = take (length (popped (shared k))) (pushed (shared k)) ∧
  (length (pushed (shared k)) ≤ length (popped (shared k)) + 255)%nat.
Proof.
  intros Hs Hidle Hr Hlen. destruct (reachable_ring_inv k0 k w0 Hs Hidle Hr Hlen) as [[] _ _ _ _ _ _ _].
  split; [done|lia].
Qed.

(** C32: when no other thread is inside an operation, [pop] and [push] end after finitely
    many steps, whatever happened before: [pop] delivers the oldest waiting value, or
    nothing exactly when none waits, and [push] appends its value exactly when fewer than
    255 values wait. *)
Theorem operations_alone w0 k0 k v :
  shared k0 = empty_ring w0 → all_at Idle k0 → reachable next k0 k → all_at Idle k →
  Z.of_nat (length (pushed (shared k))) + 1 < 2 ^ 32 →
  (∃ n r', run_thread next (CallPop :: replicate n Go) Idle (shared k) = (Popped (head (queue (shared k))), r') ∧
     queue r' = tail (queue (shared k))) ∧
  (∃ n r', run_thread next (CallPush v :: replicate n Go) Idle (shared k) =
       (Pushed (bool_decide (Z.of_nat (length (queue (shared k))) < 255)), r') ∧
     queue r' = queue (shared k) ++ (if decide (Z.of_nat (length (queue (shared k))) < 255) then [v] else [])).
Proof.
  intros Hs Hidle Hr Hq Hlen.
  destruct (reachable_ring_inv k0 k w0 Hs Hidle Hr ltac:(lia)) as [HR _ _ _ _ _ _ HPE].
  assert (Hct : ct_ (shared k) = Z.of_nat (length (pushed (shared k)))) by apply HR. split.
  - destruct (pop_alone _ HR ltac:(lia)) as (r' & Hrun & ?).
    { intros c Hc. destruct (HPE c Hc) as [?|(t & p & Ht & Hp)]; [done|].
      rewrite (Hq t p Ht) in Hp. by destruct Hp. }
    destruct (runs_call CallPop PopLoadRd _ _ _ eq_refl Hrun) as [n Hn]. by exists n, r'.
  - destruct (push_alone _ v HR ltac:(lia)) as (r' & Hrun & ?).
    destruct (runs_call (CallPush v) (PushLoadCt v) _ _ _ eq_refl Hrun) as [n Hn]. by exists n, r'.
Qed.

End ring.

(** Thread 0 pushes a value of two words; thread 1 pops it. *)
Definition demo_start : config (ring (W := Z)) (pc (W := Z)) := {| shared := empty_ring 0; pcs := {[0%nat := Idle; 1%nat := Idle]} |}.
Definition demo_after_push : ring := (run_thread next (CallPush (5, 6) :: replicate 14 Go) Idle (empty_ring 0)).2.
Definition demo_after_pop : ring := (run_thread next (CallPop :: replicate 6 Go) Idle demo_after_push).2.
Definition demo_end : config (ring (W := Z)) (pc (W := Z)) :=
  {| shared := demo_after_pop; pcs := <[1%nat := Idle]> (<[0%nat := Idle]> (pcs demo_start)) |}.

Lemma demo_idle : all_at Idle demo_start.
Proof.
  intros t p Hp. cbn in Hp. apply lookup_insert_Some in Hp as [[_ <-]|[_ Hp]]; [done|].
  by apply lookup_singleton_Some in Hp as [_ <-].
Qed.

Lemma demo_reachable : reachable next demo_start demo_end.
Proof.
  unfold reachable. etrans; [by apply (run_thread_reachable next 0 (CallPush (5, 6) :: replicate 14 Go) Idle (empty_ring 0))|].
  by apply (run_thread_reachable next 1 (CallPop :: replicate 6 Go) Idle demo_after_push).
Qed.

Lemma ring_fifo_witness :
  popped (shared demo_end) = [(5, 6)] ∧
  popped (shared demo_end) = take (length (popped (shared demo_end))) (pushed (shared demo_end)).
Proof.
  split; [by vm_compute|]. apply (ring_fifo 0 demo_start demo_end); [done|apply demo_idle|apply demo_reachable|by vm_compute].
Defined.

Lemma operations_alone_witness :
  ∃ n r', run_thread next (CallPop :: replicate n Go) Idle (shared demo_end) = (Popped (head (queue (shared demo_end))), r') ∧
     queue r' = tail (queue (shared demo_end)).
Proof.
  apply (operations_alone 0 demo_start demo_end (7, 8)); [done|apply demo_idle|apply demo_reachable| |by vm_compute].
  intros t p Hp. apply (lookup_insert_Some (<[0%nat := Idle]> (pcs demo_start)) 1%nat t Idle p) in Hp as [[_ <-]|[_ Hp]]; [done|].
  apply lookup_insert_Some in Hp as [[_ <-]|[_ Hp]]; [done|]. by apply (demo_idle t p).
Defined.

(** [push] may find an empty ring full: the index it loaded is old by the time it loads
    [rd_]. *)
Example spurious_full :
  ∃ k, reachable next demo_start k ∧ pcs k !! 0%nat = Some (Pushed false) ∧ queue (shared k) = [].
Proof.
  eexists. split; [|split].
  - unfold reachable.
    etrans; [by apply (run_thread_reachable next 0 [CallPush (5, 6); Go] Idle (empty_ring 0))|].
    etrans; [by apply (run_thread_reachable next 1 (CallPush (7, 8) :: replicate 14 Go ++ CallPop :: replicate 6 Go) Idle)|].
    by apply (run_thread_reachable next 0 [Go] (PushLoadRd (5, 6) 0)).
  - by vm_compute.
  - by vm_compute.
Qed.
