(* ===== verification/IpcUnicast.v ===== *)
(** * The rings of one producer, unicast ([prod_cons.h])

    [prod_cons_impl<wr<single, single, unicast>>] and, with [multi], the policy derived from
    it for many consumers, [prod_cons_impl<wr<single, multi, unicast>>].  The producer fills
    the element at [wt_] and advances the index; a consumer copies the element at [rd_] and
    advances that index, with a compare-and-exchange when there are others.

    The steps are those of [IpcRing]: one operation on the shared words each, sequentially
    consistent, elements written and copied in two pieces.  [pushed] and [popped] are logs. *)

From S2P Require Import Prelude Interleaving IpcBase.
From S2P Require Import IpcRing.
#[local] Open Scope Z_scope.

Section unicast.
Context {W : Type} (multi : bool).

(** ** Data *)

Record uring := {
  rd_ : Z;
  wt_ : Z;
  cc_ : Z;                    (* the connections, in conn_head *)
  r_ckr_ : bool;              (* the flag of a single consumer, in elem_array *)
  lo : Z → W;
  hi : Z → W;
  pushed : list (W * W);
  popped : list (W * W) }.

Definition set_rd (x : Z) (r : uring) : uring := {| rd_ := x; wt_ := wt_ r; cc_ := cc_ r; r_ckr_ := r_ckr_ r; lo := lo r; hi := hi r;
  pushed := pushed r; popped := popped r |}.
Definition set_wt (x : Z) (r : uring) : uring := {| rd_ := rd_ r; wt_ := x; cc_ := cc_ r; r_ckr_ := r_ckr_ r; lo := lo r; hi := hi r;
  pushed := pushed r; popped := popped r |}.
Definition set_cc (x : Z) (r : uring) : uring := {| rd_ := rd_ r; wt_ := wt_ r; cc_ := x; r_ckr_ := r_ckr_ r; lo := lo r; hi := hi r;
  pushed := pushed r; popped := popped r |}.
Definition set_r_ckr (x : bool) (r : uring) : uring := {| rd_ := rd_ r; wt_ := wt_ r; cc_ := cc_ r; r_ckr_ := x; lo := lo r; hi := hi r;
  pushed := pushed r; popped := popped r |}.
Definition set_lo (i : Z) (a : W) (r : uring) : uring := {| rd_ := rd_ r; wt_ := wt_ r; cc_ := cc_ r; r_ckr_ := r_ckr_ r;
  lo := write i a (lo r); hi := hi r; pushed := pushed r; popped := popped r |}.
Definition set_hi (i : Z) (a : W) (r : uring) : uring := {| rd_ := rd_ r; wt_ := wt_ r; cc_ := cc_ r; r_ckr_ := r_ckr_ r;
  lo := lo r; hi := write i a (hi r); pushed := pushed r; popped := popped r |}.
Definition log_push (v : W * W) (r : uring) : uring := {| rd_ := rd_ r; wt_ := wt_ r; cc_ := cc_ r; r_ckr_ := r_ckr_ r; lo := lo r; hi := hi r;
  pushed := pushed r ++ [v]; popped := popped r |}.
Definition log_pop (v : W * W) (r : uring) : uring := {| rd_ := rd_ r; wt_ := wt_ r; cc_ := cc_ r; r_ckr_ := r_ckr_ r; lo := lo r; hi := hi r;
  pushed := pushed r; popped := popped r ++ [v] |}.

(** A ring in fresh shared memory with [cc] receivers. *)
Definition empty_uring (w0 : W) (cc : Z) : uring := {| rd_ := 0; wt_ := 0; cc_ := cc; r_ckr_ := true; lo := λ _, w0; hi := λ _, w0;
  pushed := []; popped := [] |}.

(** ** The code *)

Inductive ppc :=
| PIdle
| PForce                                     (* force_push *)
| PDisconnect
| PLoadWt (v : W * W)
| PLoadRd (v : W * W) (cur_wt : Z)
| PLo (v : W * W) (cur_wt : Z)
| PHi (v : W * W) (cur_wt : Z)
| PInc (v : W * W)
| Pushed (ret : bool).

Inductive cpc :=
| CIdle
| CLoadRd
| CLoadWt (cur_rd : Z)
| CLo (cur_rd : Z)
| CHi (cur_rd : Z) (a : W)
| CInc (cur_rd : Z) (buff : W * W)
| Popped (ret : option (W * W)).

Inductive thread := Producer (p : ppc) | Consumer (p : cpc).

Inductive choice := CallPush (v : W * W) | CallForce | CallPop | Go | Spurious.

Definition spurious (c : choice) : bool := match c with Spurious => true | _ => false end.

Definition push_step (c : choice) (p : ppc) (r : uring) : ppc * uring :=
  match p with
  | PIdle => (match c with CallPush v => PLoadWt v | CallForce => PForce | _ => PIdle end, r)
  | PForce => (PDisconnect, if multi then r else set_r_ckr false r)
  | PDisconnect =>
      (Pushed false, set_cc (ConnHead.udisconnect (cc_ r) (if multi then 1 else 2 ^ 32 - 1)) r)
  | PLoadWt v => (PLoadRd v (index_of (wt_ r)), r)
  | PLoadRd v cur_wt =>
      (if decide (cur_wt = index_of (u32 (rd_ r - 1))) then Pushed false else PLo v cur_wt, r)
  | PLo v cur_wt => (PHi v cur_wt, set_lo cur_wt v.1 r)
  | PHi v cur_wt => (PInc v, set_hi cur_wt v.2 r)
  | PInc v => (Pushed true, log_push v (set_wt (u32 (wt_ r + 1)) r))
  | Pushed _ => (PIdle, r)
  end.

(** The last step of a pop: [rd_.fetch_add], or the compare-and-exchange. *)
Definition pop_commit (c : choice) (cur_rd : Z) (buff : W * W) (r : uring) : cpc * uring :=
  if multi then
    if decide (rd_ r = cur_rd ∧ spurious c = false) then
      (Popped (Some buff), log_pop buff (set_rd (u32 (cur_rd + 1)) r))
    else (CLoadRd, r)
  else (Popped (Some buff), log_pop buff (set_rd (u32 (rd_ r + 1)) r)).

Definition pop_step (c : choice) (p : cpc) (r : uring) : cpc * uring :=
  match p with
  | CIdle => (match c with CallPop => CLoadRd | _ => CIdle end, r)
  | CLoadRd => (CLoadWt (if multi then rd_ r else index_of (rd_ r)), r)
  | CLoadWt cur_rd =>
      (if decide (index_of cur_rd = index_of (wt_ r)) then Popped None else CLo cur_rd, r)
  | CLo cur_rd => (CHi cur_rd (lo r (index_of cur_rd)), r)
  | CHi cur_rd a => (CInc cur_rd (a, hi r (index_of cur_rd)), r)
  | CInc cur_rd buff => pop_commit c cur_rd buff r
  | Popped _ => (CIdle, r)
  end.

Definition next (c : choice) (th : thread) (r : uring) : thread * uring :=
  match th with
  | Producer p => let '(p, r) := push_step c p r in (Producer p, r)
  | Consumer p => let '(p, r) := pop_step c p r in (Consumer p, r)
  end.

(** ** The queue it implements *)

Definition capacity : nat := 255.

Inductive event := Enq (v : W * W) | Full | Deq (v : W * W) | Empty.

Inductive queue_step : event → list (W * W) → list (W * W) → Prop :=
| queue_enq v q : (length q < capacity)%nat → queue_step (Enq v) q (q ++ [v])
| queue_full q : length q = capacity → queue_step Full q q
| queue_deq v q : queue_step (Deq v) (v :: q) q
| queue_empty : queue_step Empty [] [].

Definition waiting (r : uring) : list (W * W) := drop (length (popped r)) (pushed r).

(** What a step of a thread is to the queue: the steps that decide what a call returns.  With
    many consumers the answer "empty" may be old and is not an event. *)
Definition event_of (th th' : thread) : option event :=
  match th, th' with
  | Producer (PInc v), _ => Some (Enq v)
  | Producer (PLoadRd _ _), Producer (Pushed false) => Some Full
  | Consumer (CInc _ _), Consumer (Popped (Some v)) => Some (Deq v)
  | Consumer (CLoadWt _), Consumer (Popped None) => if multi then None else Some Empty
  | _, _ => None
  end.

(** ** The invariant *)

Definition pushes (r : uring) : nat := length (pushed r).
Definition pops (r : uring) : nat := length (popped r).

Definition slot (n : nat) : Z := index_of (Z.of_nat n).

Definition holds_value (r : uring) (n : nat) : Prop := pushed r !! n = Some (lo r (slot n), hi r (slot n)).

Record uring_ok (r : uring) : Prop := {
  uo_wt : wt_ r = u32 (Z.of_nat (pushes r));
  uo_rd : rd_ r = u32 (Z.of_nat (pops r));
  uo_order : (pops r ≤ pushes r ≤ pops r + 255)%nat;
  uo_fifo : popped r = take (pops r) (pushed r);
  uo_values n : (pops r ≤ n < pushes r)%nat → holds_value r n }.

Definition ppc_ok (r : uring) (p : ppc) : Prop :=
  let n := pushes r in
  match p with
  | PLoadRd _ i => i = slot n
  | PLo _ i => i = slot n ∧ (n < pops r + 255)%nat
  | PHi v i => i = slot n ∧ (n < pops r + 255)%nat ∧ lo r i = v.1
  | PInc v => (n < pops r + 255)%nat ∧ lo r (slot n) = v.1 ∧ hi r (slot n) = v.2
  | _ => True
  end.

(** The consumer has loaded the index of the [n]-th pop, which may be old when there are
    others. *)
Definition loaded (r : uring) (cur : Z) (n : nat) : Prop :=
  (n ≤ pops r)%nat ∧ index_of cur = slot n ∧
  if multi then cur = u32 (Z.of_nat n) else n = pops r.

Definition cpc_ok (r : uring) (p : cpc) : Prop :=
  match p with
  | CLoadWt c => ∃ n, loaded r c n
  | CLo c => ∃ n, loaded r c n ∧ (n < pushes r)%nat
  | CHi c a => ∃ n, loaded r c n ∧ (n < pushes r)%nat ∧ (n = pops r → ∃ b, pushed r !! n = Some (a, b))
  | CInc c buff => ∃ n, loaded r c n ∧ (n < pushes r)%nat ∧ (n = pops r → pushed r !! n = Some buff)
  | _ => True
  end.

Definition thread_ok (r : uring) (th : thread) : Prop :=
  match th with Producer p => ppc_ok r p | Consumer p => cpc_ok r p end.

(** One producer, and without [multi] one consumer. *)
Definition roles (m : gmap nat thread) : Prop :=
  (∀ t t' p p', m !! t = Some (Producer p) → m !! t' = Some (Producer p') → t = t') ∧
  (multi = false → ∀ t t' p p', m !! t = Some (Consumer p) → m !! t' = Some (Consumer p') → t = t').

Record uring_inv (k : config uring thread) : Prop := {
  ui_ring : uring_ok (shared k);
  ui_threads : map_Forall (λ _, thread_ok (shared k)) (pcs k);
  ui_roles : roles (pcs k) }.

(** ** Lemmas *)

Lemma index_index x : index_of (index_of x) = index_of x.
Proof. unfold index_of, u8. by rewrite Z.mod_mod. Qed.

Lemma slot_u32 n : index_of (u32 (Z.of_nat n)) = slot n.
Proof. apply index_u32. Qed.

Lemma u32_succ n : u32 (u32 (Z.of_nat n) + 1) = u32 (Z.of_nat (S n)).
Proof. unfold u32. rewrite Zplus_mod_idemp_l. f_equal. lia. Qed.

(** Indices a lap apart share their element. *)
Lemma unicast_slot_inj n m : slot n = slot m → (n < m + 256)%nat → (m < n + 256)%nat → n = m.
Proof. intros E Hn Hm. apply index_inj in E; lia. Qed.

Lemma slot_before n : index_of (u32 (u32 (Z.of_nat n) - 1)) = slot (n + 255).
Proof.
  rewrite index_u32. unfold slot, index_of, u8, u32. rewrite <- (Zminus_mod_idemp_l (_ mod _)).
  rewrite (Z.mod_mod_divide _ (2 ^ 32) (2 ^ 8)) by (by exists (2 ^ 24)). rewrite Zminus_mod_idemp_l.
  replace (Z.of_nat (n + 255)) with (Z.of_nat n - 1 + 1 * 2 ^ 8) by lia. by rewrite Z_mod_plus_full.
Qed.

Lemma length_waiting r : uring_ok r → length (waiting r) = (pushes r - pops r)%nat.
Proof. intros _. unfold waiting. apply length_drop. Qed.

Lemma ppc_ok_mono r r' p :
  pushed r' = pushed r → lo r' = lo r → hi r' = hi r → (pops r ≤ pops r')%nat → ppc_ok r p → ppc_ok r' p.
Proof.
  intros Hpu Hlo Hhi Hpo. destruct p; cbn; unfold pushes; rewrite ?Hpu, ?Hlo, ?Hhi; intuition lia.
Qed.

Lemma loaded_mono r r' c n :
  (multi = true ∨ pops r' = pops r) → (pops r ≤ pops r')%nat → loaded r c n → loaded r' c n.
Proof.
  intros Hm Hpo (Hn & Hi & Hc). split; [lia|]. split; [done|]. destruct multi; [done|]. destruct Hm; congruence.
Qed.

Lemma cpc_ok_mono r r' p :
  (multi = true ∨ pops r' = pops r) → (pops r ≤ pops r')%nat → pushed r `prefix_of` pushed r' → cpc_ok r p → cpc_ok r' p.
Proof.
  intros Hm Hpo [l Hpu]. assert (pushes r ≤ pushes r')%nat as Hle by (unfold pushes; rewrite Hpu, length_app; lia).
  assert (∀ n v, pushed r !! n = Some v → pushed r' !! n = Some v) as Hval by (intros n v Hv; rewrite Hpu; by apply lookup_app_l_Some).
  destruct p; cbn; [done..| | | | |done].
  - intros [n Hl]. exists n. by eapply loaded_mono.
  - intros (n & Hl & Hn). exists n. split; [by eapply loaded_mono|lia].
  - intros (n & Hl & Hn & Hv). exists n. split; [by eapply loaded_mono|]. split; [lia|]. intros E.
    destruct Hl as [Hl _]. destruct Hv as [b Hb]; [lia|]. exists b. by apply Hval.
  - intros (n & Hl & Hn & Hv). exists n. split; [by eapply loaded_mono|]. split; [lia|]. intros E.
    destruct Hl as [Hl _]. apply Hval, Hv. lia.
Qed.

(** The invariant after a step of thread [t], which keeps its role. *)
Definition same_role (th th' : thread) : Prop :=
  match th, th' with Producer _, Producer _ | Consumer _, Consumer _ => True | _, _ => False end.

Lemma roles_insert m t th th' : roles m → m !! t = Some th → same_role th th' → roles (<[t := th']> m).
Proof.
  intros [Hp Hc] Ht Hr. split.
  - intros t1 t2 p1 p2 H1 H2.
    apply lookup_insert_Some in H1 as [[<- E1]|[? H1]]; apply lookup_insert_Some in H2 as [[<- E2]|[? H2]];
      [done| | |by eapply Hp]; subst; destruct th; try done; [by eapply (Hp t t2)|by eapply (Hp t1 t)].
  - intros Hm t1 t2 p1 p2 H1 H2. specialize (Hc Hm). clear Hm.
    apply lookup_insert_Some in H1 as [[<- E1]|[? H1]]; apply lookup_insert_Some in H2 as [[<- E2]|[? H2]];
      [done| | |by eapply Hc]; subst; destruct th; try done; [by eapply (Hc t t2)|by eapply (Hc t1 t)].
Qed.

Lemma inv_insert s m t th s' th' :
  uring_inv {| shared := s; pcs := m |} → m !! t = Some th → same_role th th' →
  uring_ok s' → thread_ok s' th' →
  (∀ t2 p, t2 ≠ t → m !! t2 = Some (Producer p) → ppc_ok s p → ppc_ok s' p) →
  (∀ t2 p, t2 ≠ t → m !! t2 = Some (Consumer p) → cpc_ok s p → cpc_ok s' p) →
  uring_inv {| shared := s'; pcs := <[t := th']> m |}.
Proof.
  intros [HO HT HR] Ht Hrole Hok Hth Hp Hc. cbn [shared pcs] in *. split; cbn [shared pcs].
  - done.
  - intros t2 th2 H2. apply lookup_insert_Some in H2 as [[_ <-]|[Hne H2]]; [done|]. specialize (HT t2 th2 H2).
    destruct th2; cbn in *; [by apply (Hp t2)|by apply (Hc t2)].
  - by eapply roles_insert.
Qed.

(** The result of a step: the invariant, and the step of the queue. *)
Definition good_step (s : uring) (m : gmap nat thread) (t : nat) (th : thread) (r : thread * uring) : Prop :=
  uring_inv {| shared := r.2; pcs := <[t := r.1]> m |} ∧
  match event_of th r.1 with
  | Some e => queue_step e (waiting s) (waiting r.2)
  | None => waiting r.2 = waiting s
  end.

Lemma good_local s m t th th' :
  uring_inv {| shared := s; pcs := m |} → m !! t = Some th → same_role th th' → thread_ok s th' →
  event_of th th' = None → good_step s m t th (th', s).
Proof.
  intros Hinv Ht Hr Hth He. unfold good_step. cbn [fst snd]. rewrite He. split; [|done].
  apply (inv_insert s m t th); try done. apply Hinv.
Qed.

(** The producer is alone in its role: its writes concern no other producer. *)
Lemma unicast_inv_producer s m t p s' p' :
  uring_inv {| shared := s; pcs := m |} → m !! t = Some (Producer p) → uring_ok s' → ppc_ok s' p' →
  popped s' = popped s → pushed s `prefix_of` pushed s' →
  uring_inv {| shared := s'; pcs := <[t := Producer p']> m |}.
Proof.
  intros Hinv Ht Hok Hp Hpo Hpu. apply (inv_insert s m t (Producer p)); [done..| |].
  - intros t2 p2 Hne H2. destruct Hinv as [_ _ [HR _]]. by destruct Hne; eapply HR.
  - intros t2 p2 _ _. apply cpc_ok_mono; [right| |done]; unfold pops; by rewrite Hpo.
Qed.

(** The producer writes into the element after the values that wait. *)
Lemma unicast_inv_fill s m t p s' p' :
  uring_inv {| shared := s; pcs := m |} → m !! t = Some (Producer p) → (pushes s < pops s + 255)%nat →
  rd_ s' = rd_ s → wt_ s' = wt_ s → pushed s' = pushed s → popped s' = popped s →
  (∀ i, i ≠ slot (pushes s) → lo s' i = lo s i ∧ hi s' i = hi s i) → ppc_ok s' p' →
  uring_inv {| shared := s'; pcs := <[t := Producer p']> m |} ∧ waiting s' = waiting s.
Proof.
  intros Hinv Ht Hroom Hrd Hwt Hpu Hpo Hd Hp. split; [|unfold waiting; by rewrite Hpu, Hpo].
  apply (unicast_inv_producer s m t p); [done..| |done|done|by rewrite Hpu].
  destruct Hinv as [[HO1 HO2 HO3 HO4 HO5] _ _]. cbn [shared] in *. split; unfold pushes, pops, holds_value in *; rewrite ?Hpu, ?Hpo, ?Hrd, ?Hwt; try done.
  intros n Hn. destruct (Hd (slot n)) as [-> ->]; [|by apply HO5]. intros E. apply unicast_slot_inj in E; lia.
Qed.

Lemma producer_good s m t p c :
  uring_inv {| shared := s; pcs := m |} → m !! t = Some (Producer p) →
  good_step s m t (Producer p) (Producer (push_step c p s).1, (push_step c p s).2).
Proof.
  intros Hinv Ht. pose proof (ui_ring _ Hinv) as HO. pose proof (ui_threads _ Hinv t _ Ht) as Hp. cbn [shared pcs thread_ok] in *.
  destruct p as [| | |v|v i|v i|v i|v|ret]; cbn [push_step ppc_ok fst snd] in *.
  - destruct c; by eapply good_local.
  - split; [|by destruct multi]. cbn [fst snd]. apply (unicast_inv_producer s m t PForce); try done; destruct multi; by destruct HO.
  - split; [|done]. cbn [fst snd]. apply (unicast_inv_producer s m t PDisconnect); try done. by destruct HO.
  - eapply good_local; try done. cbn. destruct HO as [-> _ _ _ _]. apply slot_u32.
  - destruct HO as [HO1 HO2 HO3 HO4 HO5] eqn:E. rewrite HO2, slot_before. subst i. case_decide as Hd.
    + split; [by apply (unicast_inv_producer s m t (PLoadRd v (slot (pushes s))))|]. cbn [fst snd event_of].
      apply unicast_slot_inj in Hd; [|lia..]. constructor. rewrite length_waiting by done. unfold capacity. lia.
    + eapply good_local; try done. cbn. split; [done|]. assert (pushes s ≠ pops s + 255)%nat; [congruence|lia].
  - destruct Hp as [-> Hroom]. eapply unicast_inv_fill; [done..| |].
    + intros i Hi. cbn. by rewrite write_ne.
    + cbn. by rewrite write_eq.
  - destruct Hp as (-> & Hroom & Hlo). eapply unicast_inv_fill; [done..| |].
    + intros i Hi. cbn. by rewrite write_ne.
    + cbn. by rewrite write_eq.
  - destruct Hp as (Hroom & Hlo & Hhi). set (s' := log_push v _).
    assert (pushed s' = pushed s ++ [v]) as Hpu by done. assert (popped s' = popped s) as Hpo by done.
    assert (pops s ≤ pushes s)%nat as Hle by apply HO. split; cbn [fst snd event_of].
    + apply (unicast_inv_producer s m t (PInc v)); [done..| |done|done|by rewrite Hpu; apply prefix_app_r].
      destruct HO as [HO1 HO2 HO3 HO4 HO5]. unfold pops in *. split; unfold pushes, pops, holds_value in *; rewrite ?Hpu, ?Hpo, ?length_app.
      * cbn [wt_ s' log_push set_wt]. rewrite HO1, u32_succ. do 2 f_equal. cbn. lia.
      * done.
      * cbn. lia.
      * by rewrite take_app_le.
      * intros n Hn. cbn in Hn. cbn [lo hi s' log_push set_wt]. destruct (decide (n = length (pushed s))) as [->|].
        -- rewrite list_lookup_middle, Hlo, Hhi by done. by destruct v.
        -- rewrite lookup_app_l by lia. apply HO5. lia.
    + unfold waiting. rewrite Hpu, Hpo, drop_app_le by done. constructor.
      fold (waiting s). rewrite length_waiting by done. unfold capacity. lia.
  - by eapply good_local.
Qed.

Lemma waiting_head r v : uring_ok r → pushed r !! pops r = Some v → waiting r = v :: drop (S (pops r)) (pushed r).
Proof. intros _ Hv. unfold waiting. by apply drop_S. Qed.

(** A value is taken. *)
Lemma commit_good s m t cur buff n :
  uring_inv {| shared := s; pcs := m |} → m !! t = Some (Consumer (CInc cur buff)) →
  n = pops s → pushed s !! n = Some buff →
  let s' := log_pop buff (set_rd (u32 (Z.of_nat (S n))) s) in
  good_step s m t (Consumer (CInc cur buff)) (Consumer (Popped (Some buff)), s').
Proof.
  intros Hinv Ht -> Hv s'. pose proof (ui_ring _ Hinv) as HO. cbn [shared] in HO.
  assert (pops s' = S (pops s)) as Hpo by (unfold pops; cbn; rewrite length_app; cbn; lia).
  assert (pops s < pushes s)%nat as Hlt by (by apply lookup_lt_Some in Hv).
  split; cbn [fst snd event_of].
  - apply (inv_insert s m t (Consumer (CInc cur buff))); [done..| |done| |].
    + destruct HO as [HO1 HO2 HO3 HO4 HO5]. split; rewrite ?Hpo; [done|done| | |].
      * change (pushes s') with (pushes s). lia.
      * cbn. by rewrite (take_S_r _ _ buff), HO4 at 1.
      * intros i Hi. apply HO5. change (pushes s') with (pushes s) in Hi. lia.
    + intros t2 p _ _. apply ppc_ok_mono; [done..|lia].
    + intros t2 p Hne H2. destruct multi eqn:Hm; [apply cpc_ok_mono; [by left|lia|done]|].
      destruct Hinv as [_ _ [_ HR]]. by destruct Hne; apply (HR Hm t2 t p (CInc cur buff)).
  - rewrite (waiting_head s buff) by done. unfold waiting. fold (pops s'). rewrite Hpo. constructor.
Qed.

(** With many consumers the index must not wrap around while a consumer holds it. *)
Definition distinguishable (s : uring) : Prop := multi = true → Z.of_nat (pops s) < 2 ^ 32.

Lemma consumer_good s m t p c :
  uring_inv {| shared := s; pcs := m |} → m !! t = Some (Consumer p) → distinguishable s →
  good_step s m t (Consumer p) (Consumer (pop_step c p s).1, (pop_step c p s).2).
Proof.
  intros Hinv Ht Hwrap. pose proof (ui_ring _ Hinv) as HO. pose proof (ui_threads _ Hinv t _ Ht) as Hp. cbn [shared pcs thread_ok] in *.
  pose proof HO as [HO1 HO2 HO3 HO4 HO5].
  destruct p as [| |cur|cur|cur a|cur buff|ret]; cbn [pop_step cpc_ok fst snd] in *.
  - destruct c; by eapply good_local.
  - eapply good_local; try done. cbn. exists (pops s). unfold loaded. split; [lia|].
    destruct multi; rewrite HO2; rewrite ?index_index, slot_u32; done.
  - destruct Hp as (n & Hl & Hi & Hn). rewrite HO1, slot_u32, Hi. case_decide as Hd.
    + split; [apply (inv_insert s m t (Consumer (CLoadWt cur))); done|]. cbn [fst snd event_of].
      destruct multi; [done|]. subst n. apply unicast_slot_inj in Hd; [|lia..].
      replace (waiting s) with (@nil (W * W)); [constructor|]. symmetry. apply nil_length_inv. rewrite length_waiting by done. lia.
    + eapply good_local; try done. cbn. exists n. split; [by split_and!|].
      assert (n ≠ pushes s); [congruence|lia].
  - destruct Hp as (n & Hl & Hn). eapply good_local; try done. cbn. exists n. split; [done|]. split; [done|].
    intros ->. destruct Hl as (_ & -> & _). exists (hi s (slot (pops s))). apply HO5. lia.
  - destruct Hp as (n & Hl & Hn & Hv). eapply good_local; try done. cbn. exists n. split; [done|]. split; [done|].
    intros ->. destruct Hl as (_ & -> & _). destruct (Hv eq_refl) as [b Hb].
    pose proof (HO5 (pops s) ltac:(lia)) as Hval. unfold holds_value in Hval. rewrite Hb in Hval |- *. congruence.
  - destruct Hp as (n & (Hl & Hi & Hn) & Hlt & Hv). unfold pop_commit, distinguishable in *. destruct multi.
    + case_decide as Hd; [|by eapply good_local]. destruct Hd as [Hrd _]. cbn [fst snd].
      assert (n = pops s) as E by (rewrite HO2, Hn, !u32_small in Hrd; lia).
      replace (u32 (cur + 1)) with (u32 (Z.of_nat (S n))) by (by rewrite Hn, u32_succ). apply (commit_good s m t cur buff n); auto.
    + rewrite HO2, u32_succ. subst n. apply (commit_good s m t cur buff (pops s)); auto.
  - by eapply good_local.
Qed.

Lemma next_good s m t th c :
  uring_inv {| shared := s; pcs := m |} → m !! t = Some th → distinguishable s → good_step s m t th (next c th s).
Proof.
  intros Hinv Ht Hw. unfold next. destruct th as [p|p].
  - pose proof (producer_good s m t p c Hinv Ht) as H. by destruct (push_step c p s).
  - pose proof (consumer_good s m t p c Hinv Ht Hw) as H. by destruct (pop_step c p s).
Qed.

Definition idle (th : thread) : Prop := th = Producer PIdle ∨ th = Consumer CIdle.

Lemma init_inv w0 cc m : map_Forall (λ _, idle) m → roles m → uring_inv {| shared := empty_uring w0 cc; pcs := m |}.
Proof.
  intros Hm Hr. split; [|intros t th Ht; by destruct (Hm t th Ht) as [->| ->]|done].
  split; try done; unfold pushes, pops; cbn; lia.
Qed.

Lemma pops_next c th s : (pops s ≤ pops (next c th s).2)%nat.
Proof.
  unfold pops. destruct th as [p|p]; destruct p; cbn; unfold pop_commit; repeat case_match; simplify_eq/=; rewrite ?length_app; lia.
Qed.

Lemma unicast_inv_reachable w0 cc m k :
  map_Forall (λ _, idle) m → roles m → reachable next {| shared := empty_uring w0 cc; pcs := m |} k →
  distinguishable (shared k) → uring_inv k.
Proof.
  intros Hm Hr Hreach. revert k Hreach. apply (reachable_invariant next (λ k, distinguishable (shared k) → uring_inv k)).
  - intros _. by apply init_inv.
  - intros s m' t th c Hinv Ht Hw. unfold distinguishable in *. cbn [shared] in *. pose proof (pops_next c th s).
    assert (multi = true → Z.of_nat (pops s) < 2 ^ 32) as Hw' by (intros Hmu; specialize (Hw Hmu); lia).
    apply (next_good s m' t th c); [by apply Hinv|done|done].
Qed.

(** ** Properties *)

(** C22: The rings of one producer are bounded queues: every step of every thread is, for the
    values that wait, nothing at all or exactly one operation of a queue of 255 values: a
    push that appends its value or finds the queue full, a pop that takes the oldest value
    or, with one consumer, finds the queue empty.  With one consumer this holds for ever,
    however often the indices wrap around; with many as long as fewer than 2^32 values have
    been taken. *)
Theorem ring_steps_are_queue_steps w0 cc m k t th c :
  map_Forall (λ _, idle) m → roles m → reachable next {| shared := empty_uring w0 cc; pcs := m |} k →
  (multi = true → Z.of_nat (length (popped (shared k))) < 2 ^ 32) → pcs k !! t = Some th →
  let (th', s') := next c th (shared k) in
  match event_of th th' with
  | Some e => queue_step e (waiting (shared k)) (waiting s')
  | None => waiting s' = waiting (shared k)
  end.
Proof.
  intros Hm Hr Hreach Hw Ht. pose proof (unicast_inv_reachable w0 cc m k Hm Hr Hreach Hw) as Hinv.
  destruct k as [s m']. destruct (next_good s m' t th c Hinv Ht Hw) as [_ He]. cbn [shared pcs] in *.
  by destruct (next c th s).
Qed.

End unicast.

Arguments uring : clear implicits.
Arguments thread : clear implicits.
Arguments choice : clear implicits.

(** ** Runs *)

Module Demo.

Definition val (i : nat) : nat * nat := (i, i).

Definition threads (consumers : nat) : gmap nat (thread nat) :=
  <[0%nat := Producer PIdle]> (list_to_map ((λ t, (t, Consumer CIdle)) <$> seq 1 consumers)).

Definition begin (consumers : nat) : config (uring nat) (thread nat) := {|
  shared := empty_uring 0%nat 1; pcs := threads consumers |}.

Definition moves (t : nat) (c : choice nat) (n : nat) : list (nat * choice nat) := (t, c) :: replicate n (t, Go).
Definition push (i : nat) : list (nat * choice nat) := moves 0 (CallPush (val i)) 6.
Definition pop (t : nat) : list (nat * choice nat) := moves t CallPop 6.

Lemma threads_idle n : map_Forall (λ _, idle) (threads n).
Proof.
  unfold threads. intros t th Ht. apply lookup_insert_Some in Ht as [[_ <-]|[_ Ht]]; [by left|].
  apply elem_of_list_to_map_2, list_elem_of_fmap in Ht as (t' & [= _ ->] & _). by right.
Qed.

Lemma threads_roles : roles false (threads 1).
Proof.
  assert (∀ t th, threads 1 !! t = Some th → t = 0%nat ∧ th = Producer PIdle ∨ t = 1%nat ∧ th = Consumer CIdle) as Hth.
  { unfold threads. intros t th Ht. apply lookup_insert_Some in Ht as [[<- <-]|[_ Ht]]; [by left|]. right. cbn in Ht.
    apply lookup_insert_Some in Ht as [[<- <-]|[_ Ht]]; [done|]. by rewrite lookup_empty in Ht. }
  split.
  - intros t t' p p' H1 H2. destruct (Hth _ _ H1) as [[-> _]|[_ [=]]], (Hth _ _ H2) as [[-> _]|[_ [=]]]. done.
  - intros _ t t' p p' H1 H2. destruct (Hth _ _ H1) as [[_ [=]]|[-> _]], (Hth _ _ H2) as [[_ [=]]|[-> _]]. done.
Qed.

(** The 256th value does not fit. *)
Definition full_run : list (nat * choice nat) := (seq 0 256 ≫= push) ++ pop 1 ++ push 300.

Example full_ring :
  let k := run_schedule (next false) full_run (begin 1) in
  length (pushed (shared k)) = 256%nat ∧ length (waiting (shared k)) = 255%nat ∧
  head (waiting (shared k)) = Some (val 1) ∧ last (waiting (shared k)) = Some (val 300).
Proof. vm_compute. split_and!; reflexivity. Qed.

(** A unicast_forced push gives up the receivers: all of them, or one of many. *)
Example unicast_forced :
  (let r := shared (run_schedule (next false) (moves 0 CallForce 3) (begin 1)) in cc_ r = 0 ∧ r_ckr_ r = false) ∧
  cc_ (shared (run_schedule (next true) (moves 0 CallForce 3 ++ moves 0 CallForce 3) (begin 1))) = 2 ^ 32 - 1.
Proof. vm_compute. split_and!; reflexivity. Qed.

(** With many consumers: one that has loaded the read index and comes back after a lap finds
    the ring empty although values wait. *)
Definition stale_run : list (nat * choice nat) :=
  moves 2 CallPop 1 ++ (seq 0 250 ≫= λ i, push i ++ pop 1) ++ (seq 250 6 ≫= push) ++ [(2%nat, Go)].

Example stale_empty :
  let k := run_schedule (next true) stale_run (begin 2) in
  pcs k !! 2%nat = Some (Consumer (Popped None)) ∧ length (waiting (shared k)) = 6%nat.
Proof. vm_compute. split; reflexivity. Qed.

(** Before the last step of a push. *)
Definition pushing : config (uring nat) (thread nat) :=
  run_schedule (next false) (push 7 ++ moves 0 (CallPush (val 8)) 4) (begin 1).

End Demo.

Lemma ring_steps_are_queue_steps_witness :
  queue_step (Enq (Demo.val 8)) [Demo.val 7] [Demo.val 7; Demo.val 8] ∧
  match pcs Demo.pushing !! 0%nat with Some (Producer (PInc v)) => v = Demo.val 8 | _ => False end.
Proof.
  split; [|vm_compute; reflexivity].
  apply (ring_steps_are_queue_steps false 0%nat 1 (Demo.threads 1) Demo.pushing 0 (Producer (PInc (Demo.val 8))) Go).
  - apply Demo.threads_idle.
  - apply Demo.threads_roles.
  - apply (run_schedule_reachable (next false)).
  - done.
  - vm_compute. reflexivity.
Defined.
