(* ===== verification/IpcBroadcast.v ===== *)
(** * The ring of one producer and many consumers, broadcast ([prod_cons.h], [queue.h])

    [prod_cons_impl<wr<single, multi, broadcast>>], the policy of [ipc::route]: every
    connected receiver gets every value.  [push] marks its element with the bits of the
    receivers that are connected, fills it and advances [wt_]; a receiver copies the element
    at its own cursor and takes its bit away; an element with a bit left is not overwritten.
    [force_push] raises the epoch of the ring and disconnects the receivers that hold its
    element.

    As in [IpcRing] an element is written and copied in two pieces, and the operations on
    the shared words are the steps of the threads.  [pushed] and [got] are logs: the values
    whose push has ended, and those a receiver has taken. *)

From S2P Require Import Prelude Interleaving IpcBase.
From S2P Require Import IpcRing.
#[local] Open Scope Z_scope.

Section broadcast.
Context {W : Type}.

(** ** Data *)

Record bring := {
  wt_ : Z;
  epoch_ : Z;
  cc_ : Z;                    (* the connections, in conn_head *)
  lo : Z → W;
  hi : Z → W;
  rc_ : Z → Z;
  pushed : list (W * W) }.

Definition ep_mask : Z := 2 ^ 32 - 1.
Definition ep_incr : Z := 2 ^ 32.

Definition set_wt (x : Z) (r : bring) : bring := {| wt_ := x; epoch_ := epoch_ r; cc_ := cc_ r; lo := lo r; hi := hi r;
  rc_ := rc_ r; pushed := pushed r |}.
Definition set_epoch (x : Z) (r : bring) : bring := {| wt_ := wt_ r; epoch_ := x; cc_ := cc_ r; lo := lo r; hi := hi r;
  rc_ := rc_ r; pushed := pushed r |}.
Definition set_cc (x : Z) (r : bring) : bring := {| wt_ := wt_ r; epoch_ := epoch_ r; cc_ := x; lo := lo r; hi := hi r;
  rc_ := rc_ r; pushed := pushed r |}.
Definition set_lo (i : Z) (a : W) (r : bring) : bring := {| wt_ := wt_ r; epoch_ := epoch_ r; cc_ := cc_ r;
  lo := write i a (lo r); hi := hi r; rc_ := rc_ r; pushed := pushed r |}.
Definition set_hi (i : Z) (a : W) (r : bring) : bring := {| wt_ := wt_ r; epoch_ := epoch_ r; cc_ := cc_ r;
  lo := lo r; hi := write i a (hi r); rc_ := rc_ r; pushed := pushed r |}.
Definition set_rc (i x : Z) (r : bring) : bring := {| wt_ := wt_ r; epoch_ := epoch_ r; cc_ := cc_ r;
  lo := lo r; hi := hi r; rc_ := write i x (rc_ r); pushed := pushed r |}.
Definition log_push (v : W * W) (r : bring) : bring := {| wt_ := wt_ r; epoch_ := epoch_ r; cc_ := cc_ r;
  lo := lo r; hi := hi r; rc_ := rc_ r; pushed := pushed r ++ [v] |}.

(** The queue of a receiver: its bit and its cursor. *)
Record reader := {
  connected_ : Z;
  cursor_ : Z;
  got : list (W * W) }.

Definition set_connected (x : Z) (q : reader) : reader := {| connected_ := x; cursor_ := cursor_ q; got := got q |}.
Definition set_cursor (x : Z) (q : reader) : reader := {| connected_ := connected_ q; cursor_ := x; got := got q |}.
Definition log_pop (v : W * W) (q : reader) : reader := {| connected_ := connected_ q; cursor_ := cursor_ q; got := got q ++ [v] |}.

(** ** The code *)

(** [push] and, with [force], [force_push]. *)
Inductive ppc :=
| PIdle
| PEpoch (v : W * W)
| PLoadCc (force : bool) (v : W * W)
| PLoadWt (force : bool) (v : W * W) (cc : Z)
| PLoadRc (force : bool) (v : W * W) (cc i : Z)
| PDisconnect (v : W * W) (i cur_rc : Z)
| PCas (force : bool) (v : W * W) (cc i cur_rc : Z)
| PLo (v : W * W) (i : Z)
| PHi (v : W * W) (i : Z)
| PInc (v : W * W)
| Pushed (ret : bool).

Inductive cpc :=
| CIdle
| CCursor                    (* connect, before the cursor is read *)
| CLoadWt
| CLo (i : Z)
| CHi (i : Z) (a : W)
| CLoadRc (i : Z) (buff : W * W)
| CCas (i : Z) (buff : W * W) (cur_rc : Z)
| Popped (ret : option (W * W)).

Inductive thread := Producer (p : ppc) | Consumer (q : reader) (p : cpc).

Inductive choice := CallPush (v : W * W) | CallForce (v : W * W) | CallPop | CallConnect | CallLeave | Go | Spurious.

Definition spurious (c : choice) : bool := match c with Spurious => true | _ => false end.

Definition push_step (c : choice) (p : ppc) (r : bring) : ppc * bring :=
  match p with
  | PIdle => (match c with CallPush v => PLoadCc false v | CallForce v => PEpoch v | _ => PIdle end, r)
  | PEpoch v => (PLoadCc true v, set_epoch (u64 (epoch_ r + ep_incr)) r)
  | PLoadCc force v => (if decide (cc_ r = 0) then Pushed false else PLoadWt force v (cc_ r), r)
  | PLoadWt force v cc => (PLoadRc force v cc (index_of (wt_ r)), r)
  | PLoadRc force v cc i =>
      let cur_rc := rc_ r i in
      let rem_cc := Z.land cur_rc ep_mask in
      (if force then
         if decide (Z.land cc rem_cc = 0) then PCas force v cc i cur_rc else PDisconnect v i cur_rc
       else if decide (Z.land cc rem_cc ≠ 0 ∧ Z.ldiff cur_rc ep_mask = epoch_ r) then Pushed false
       else PCas force v cc i cur_rc, r)
  | PDisconnect v i cur_rc =>
      let cc := ConnHead.disconnect (cc_ r) (Z.land cur_rc ep_mask) in
      (if decide (cc = 0) then Pushed false else PCas true v cc i cur_rc, set_cc cc r)
  | PCas force v cc i cur_rc =>
      if decide (rc_ r i = cur_rc ∧ spurious c = false) then (PLo v i, set_rc i (Z.lor (epoch_ r) cc) r)
      else (PLoadCc force v, r)
  | PLo v i => (PHi v i, set_lo i v.1 r)
  | PHi v i => (PInc v, set_hi i v.2 r)
  | PInc v => (Pushed true, log_push v (set_wt (u32 (wt_ r + 1)) r))
  | Pushed _ => (PIdle, r)
  end.

(** [recv] pops from a connected queue only. *)
Definition pop_step (c : choice) (q : reader) (p : cpc) (r : bring) : reader * cpc * bring :=
  match p with
  | CIdle =>
      match c with
      | CallPop => (q, if decide (connected_ q = 0) then CIdle else CLoadWt, r)
      | CallConnect =>
          if decide (connected_ q = 0) then
            let '(id, cc) := ConnHead.connect (cc_ r) in
            (set_connected id q, if decide (id = 0) then CIdle else CCursor, set_cc cc r)
          else (q, CIdle, r)
      | CallLeave =>
          if decide (connected_ q = 0) then (q, CIdle, r)
          else (set_connected 0 q, CIdle, set_cc (ConnHead.disconnect (cc_ r) (connected_ q)) r)
      | _ => (q, CIdle, r)
      end
  | CCursor => (set_cursor (wt_ r) q, CIdle, r)
  | CLoadWt =>
      if decide (cursor_ q = wt_ r) then (q, Popped None, r)
      else (set_cursor (u32 (cursor_ q + 1)) q, CLo (index_of (cursor_ q)), r)
  | CLo i => (q, CHi i (lo r i), r)
  | CHi i a => (q, CLoadRc i (a, hi r i), r)
  | CLoadRc i buff =>
      let cur_rc := rc_ r i in
      if decide (Z.land cur_rc ep_mask = 0) then (log_pop buff q, Popped (Some buff), r)
      else (q, CCas i buff cur_rc, r)
  | CCas i buff cur_rc =>
      if decide (rc_ r i = cur_rc ∧ spurious c = false) then
        (log_pop buff q, Popped (Some buff), set_rc i (Z.ldiff cur_rc (connected_ q)) r)
      else (q, CLoadRc i buff, r)
  | Popped _ => (q, CIdle, r)
  end.

Definition next (c : choice) (th : thread) (r : bring) : thread * bring :=
  match th with
  | Producer p => let '(p, r) := push_step c p r in (Producer p, r)
  | Consumer q p => let '(q, p, r) := pop_step c q p r in (Consumer q p, r)
  end.

(** ** The invariant *)

(** The choices that keep the set of receivers, apart from those that leave, and do not
    force a push. *)
Definition gentle (c : choice) : choice := match c with CallForce _ | CallConnect => Go | _ => c end.

Definition next_gentle (c : choice) : thread → bring → thread * bring := next (gentle c).

(** The connection of id [id] exists. *)
Definition has_bit (cc id : Z) : Prop := ∃ b, 0 ≤ b < 32 ∧ id = 2 ^ b ∧ Z.testbit cc b = true.

Section start.
Context (wt0 : Z).

Definition slot (n : nat) : Z := index_of (wt0 + Z.of_nat n).

Definition count_pushed (r : bring) : nat := length (pushed r).

(** The element of the [n]-th value is kept for the receiver [id]. *)
Definition kept (r : bring) (id : Z) (n : nat) : Prop :=
  has_bit (rc_ r (slot n)) id ∧ Z.ldiff (rc_ r (slot n)) ep_mask = epoch_ r.

Definition holds_value (r : bring) (n : nat) : Prop :=
  pushed r !! n = Some (lo r (slot n), hi r (slot n)).

Definition reading (p : cpc) : bool :=
  match p with CLo _ | CHi _ _ | CLoadRc _ _ | CCas _ _ _ => true | _ => false end.

(** What a receiver knows while it reads. *)
Definition cpc_ok (r : bring) (n : nat) (p : cpc) : Prop :=
  match p with
  | CLo i => i = slot n ∧ (n < count_pushed r)%nat
  | CHi i a => i = slot n ∧ ∃ b, pushed r !! n = Some (a, b)
  | CLoadRc i buff | CCas i buff _ => i = slot n ∧ pushed r !! n = Some buff
  | CCursor => False
  | _ => True
  end.

Definition reader_ok (r : bring) (q : reader) (p : cpc) : Prop :=
  let n := length (got q) in
  got q = take n (pushed r) ∧
  if decide (connected_ q = 0) then match p with CIdle | Popped _ => True | _ => False end
  else
    has_bit (cc_ r) (connected_ q) ∧ (n ≤ count_pushed r ≤ n + 256)%nat ∧
    cursor_ q = u32 (wt0 + Z.of_nat n + Z.b2z (reading p)) ∧
    (∀ i, (n ≤ i < count_pushed r)%nat → kept r (connected_ q) i ∧ holds_value r i) ∧
    cpc_ok r n p.

Definition covers (r : bring) (cc : Z) : Prop :=
  0 ≤ cc < 2 ^ 32 ∧ ∀ id, has_bit (cc_ r) id → has_bit cc id.

Definition ppc_ok (r : bring) (p : ppc) : Prop :=
  let n := count_pushed r in
  match p with
  | PEpoch _ | PDisconnect _ _ _ => False
  | PLoadCc force _ => force = false
  | PLoadWt force _ cc => force = false ∧ covers r cc
  | PLoadRc force _ cc i => force = false ∧ covers r cc ∧ i = slot n
  | PCas force _ cc i cur_rc => force = false ∧ covers r cc ∧ i = slot n ∧
      ∀ id, has_bit (cc_ r) id → ¬ (has_bit cur_rc id ∧ Z.ldiff cur_rc ep_mask = epoch_ r)
  | PLo _ i => i = slot n
  | PHi v i => i = slot n ∧ lo r i = v.1
  | PInc v => lo r (slot n) = v.1 ∧ hi r (slot n) = v.2
  | _ => True
  end.

(** The producer fills its element. *)
Definition filling (p : ppc) : bool := match p with PLo _ _ | PHi _ _ | PInc _ => true | _ => false end.

Record bring_ok (r : bring) : Prop := {
  bo_wt : wt_ r = u32 (wt0 + Z.of_nat (count_pushed r));
  bo_epoch : Z.land (epoch_ r) ep_mask = 0;
  bo_cc : 0 ≤ cc_ r < 2 ^ 32 }.

Record bring_inv (k : config bring thread) : Prop := {
  bi_ring : bring_ok (shared k);
  bi_reader t q p : pcs k !! t = Some (Consumer q p) → reader_ok (shared k) q p;
  bi_producer t p : pcs k !! t = Some (Producer p) → ppc_ok (shared k) p;
  bi_filling t p t' q p' : pcs k !! t = Some (Producer p) → filling p = true →
    pcs k !! t' = Some (Consumer q p') → connected_ q ≠ 0 →
    (count_pushed (shared k) < length (got q) + 256)%nat ∧ kept (shared k) (connected_ q) (count_pushed (shared k));
  bi_one t t' p p' : pcs k !! t = Some (Producer p) → pcs k !! t' = Some (Producer p') → t = t';
  bi_ids t t' q q' p p' : pcs k !! t = Some (Consumer q p) → pcs k !! t' = Some (Consumer q' p') →
    connected_ q ≠ 0 → connected_ q = connected_ q' → t = t' }.

(** ** Lemmas *)

(** *** Bits *)

Lemma has_bit_range cc id : has_bit cc id → 0 < id < 2 ^ 32.
Proof.
  intros (b & Hb & -> & _). split; [apply Z.pow_pos_nonneg; lia|]. apply Z.pow_lt_mono_r; lia.
Qed.

Lemma has_bit_lor a cc id : has_bit cc id → has_bit (Z.lor a cc) id.
Proof. intros (b & Hb & -> & Hbit). exists b. by rewrite Z.lor_spec, Hbit, orb_true_r. Qed.

(** Taking one id away leaves the others. *)
Lemma has_bit_ldiff a id id' : has_bit id' id' → id ≠ id' → has_bit (Z.ldiff a id') id ↔ has_bit a id.
Proof.
  intros (b' & Hb' & -> & _) Hne. unfold has_bit. split; intros (b & Hb & -> & Hbit); exists b; (split; [done|split; [done|]]).
  - rewrite Z.ldiff_spec in Hbit. by apply andb_true_iff in Hbit as [? _].
  - rewrite Z.ldiff_spec, Hbit, Z.pow2_bits_false by congruence. done.
Qed.

Lemma has_bit_id cc id : has_bit cc id → has_bit id id.
Proof. intros (b & Hb & -> & _). exists b. by rewrite Z.pow2_bits_true by lia. Qed.

Lemma mask_bits m : 0 ≤ m → Z.testbit ep_mask m = bool_decide (m < 32).
Proof.
  intros Hm. change ep_mask with (Z.ones 32).
  case_bool_decide; [apply Z.ones_spec_low|apply Z.ones_spec_high]; lia.
Qed.

Lemma has_bit_land a b id : has_bit a id → has_bit b id → Z.land a (Z.land b ep_mask) ≠ 0.
Proof.
  intros (k & Hk & -> & Hbit) (k' & Hk' & E & Hbit') Hz. apply Z.pow_inj_r in E; [|lia..]. subst k'.
  apply (f_equal (λ x, Z.testbit x k)) in Hz.
  by rewrite !Z.land_spec, Hbit, Hbit', Z.bits_0, mask_bits, bool_decide_true in Hz by lia.
Qed.

Lemma ldiff_high a id : has_bit id id → Z.ldiff (Z.ldiff a id) ep_mask = Z.ldiff a ep_mask.
Proof.
  intros (b & Hb & -> & _). apply Z.bits_inj'. intros m Hm. rewrite !Z.ldiff_spec, mask_bits by done.
  case_bool_decide; [by rewrite !andb_false_r|]. rewrite Z.pow2_bits_false by lia. by rewrite !andb_true_r.
Qed.

(** The mark of an element: the epoch above, the connections below. *)
Lemma lor_mark e cc : Z.land e ep_mask = 0 → 0 ≤ cc < 2 ^ 32 → Z.ldiff (Z.lor e cc) ep_mask = e.
Proof.
  intros He Hcc. apply Z.bits_inj'. intros m Hm. rewrite Z.ldiff_spec, Z.lor_spec, mask_bits by done.
  apply (f_equal (λ x, Z.testbit x m)) in He. rewrite Z.land_spec, Z.bits_0, mask_bits in He by done.
  case_bool_decide.
  - rewrite andb_true_r in He. by rewrite He, andb_false_r.
  - rewrite (ConnHead.high_bits cc) by lia. by rewrite orb_false_r, andb_true_r.
Qed.

Lemma has_bit_disconnect cc id id' :
  has_bit id' id' → has_bit (ConnHead.disconnect cc id') id ↔ has_bit cc id ∧ id ≠ id'.
Proof.
  intros (b' & Hb' & -> & _).
  assert (∀ b, 0 ≤ b < 32 → Z.testbit (ConnHead.disconnect cc (2 ^ b')) b = Z.testbit cc b && bool_decide (b ≠ b')) as Hbits.
  { intros b Hb. unfold ConnHead.disconnect. rewrite Z.land_spec, Z.lxor_spec, ConnHead.testbit_pow2 by lia.
    replace (2 ^ 32 - 1) with (Z.ones 32) by (rewrite Z.ones_equiv; lia).
    rewrite Z.ones_spec_low by lia. repeat case_bool_decide; by try lia. }
  split.
  - intros (b & Hb & -> & Hbit). rewrite Hbits in Hbit by done. apply andb_true_iff in Hbit as [Hbit Hne].
    apply bool_decide_eq_true in Hne. split; [by exists b|]. intros E. apply Z.pow_inj_r in E; lia.
  - intros [(b & Hb & -> & Hbit) Hne]. exists b. rewrite Hbits, Hbit, bool_decide_true by (done || congruence). done.
Qed.

Lemma disconnect_range cc id : 0 ≤ cc < 2 ^ 32 → 0 ≤ ConnHead.disconnect cc id < 2 ^ 32.
Proof.
  intros Hcc. unfold ConnHead.disconnect.
  assert (0 ≤ Z.land cc (Z.lxor id (2 ^ 32 - 1))) by (apply Z.land_nonneg; lia). split; [done|].
  apply ConnHead.bits_bound; [|done]. intros m Hm. by rewrite Z.land_spec, (ConnHead.high_bits cc) by lia.
Qed.

(** *** Elements *)

Lemma u32_add_l a b : u32 (u32 a + b) = u32 (a + b).
Proof. unfold u32. apply Zplus_mod_idemp_l. Qed.

Lemma slot_inj n m : slot n = slot m → (n < m + 256)%nat → (m < n + 256)%nat → n = m.
Proof. intros E Hn Hm. apply index_inj in E; lia. Qed.

Lemma slot_wt r : bring_ok r → index_of (wt_ r) = slot (count_pushed r).
Proof. intros [-> _ _]. apply index_u32. Qed.

Lemma reader_ok_frame s s' q p :
  reader_ok s q p → pushed s' = pushed s →
  (connected_ q ≠ 0 → has_bit (cc_ s) (connected_ q) → has_bit (cc_ s') (connected_ q)) →
  (∀ i, connected_ q ≠ 0 → (length (got q) ≤ i < count_pushed s)%nat → kept s (connected_ q) i → kept s' (connected_ q) i) →
  (∀ i, connected_ q ≠ 0 → (length (got q) ≤ i < count_pushed s)%nat → lo s' (slot i) = lo s (slot i) ∧ hi s' (slot i) = hi s (slot i)) →
  reader_ok s' q p.
Proof.
  intros [Hgot Hq] Hp Hcc Hk Hd. unfold reader_ok, count_pushed, holds_value in *. rewrite Hp. split; [done|].
  destruct (decide (connected_ q = 0)) as [|Hne]; [done|]. destruct Hq as (Hbit & Hn & Hcur & Hall & Hpc).
  split_and!; [by apply Hcc|lia|lia|done| |].
  - intros i Hi. destruct (Hall i Hi) as [Hki Hvi]. destruct (Hd i Hne Hi) as [-> ->]. split; [by apply Hk|done].
  - destruct p; cbn in *; unfold count_pushed in *; rewrite ?Hp; done.
Qed.

(** A step of the producer. *)
Lemma inv_producer s m t p s' p' :
  bring_inv {| shared := s; pcs := m |} → m !! t = Some (Producer p) →
  bring_ok s' → ppc_ok s' p' →
  (∀ t' q p2, m !! t' = Some (Consumer q p2) → reader_ok s' q p2) →
  (filling p' = true → ∀ t' q p2, m !! t' = Some (Consumer q p2) → connected_ q ≠ 0 →
     (count_pushed s' < length (got q) + 256)%nat ∧ kept s' (connected_ q) (count_pushed s')) →
  bring_inv {| shared := s'; pcs := <[t := Producer p']> m |}.
Proof.
  intros [_ HR HP HF H1 HI] Ht Hok Hp' Hr Hf. cbn [shared pcs] in *. split; cbn [shared pcs].
  - done.
  - intros t2 q p2 H2. apply lookup_insert_Some in H2 as [[_ ?]|[_ H2]]; [done|by eapply Hr].
  - intros t2 p2 H2. apply lookup_insert_Some in H2 as [[_ [= <-]]|[Hne H2]]; [done|].
    by destruct Hne; apply (H1 t t2 p p2).
  - intros t2 p2 t3 q p3 H2 Hfill H3 Hq. apply lookup_insert_Some in H3 as [[_ ?]|[_ H3]]; [done|].
    apply lookup_insert_Some in H2 as [[_ [= <-]]|[Hne H2]]; [by eapply Hf|]. by destruct Hne; apply (H1 t t2 p p2).
  - intros t2 t3 p2 p3 H2 H3. apply lookup_insert_Some in H2 as [[<- _]|[_ H2]]; apply lookup_insert_Some in H3 as [[<- _]|[_ H3]];
      [done|by apply (H1 t t3 p p3)|by apply (H1 t2 t p2 p)|by apply (H1 t2 t3 p2 p3)].
  - intros t2 t3 q2 q3 p2 p3 H2 H3. apply lookup_insert_Some in H2 as [[_ ?]|[_ H2]]; [done|].
    apply lookup_insert_Some in H3 as [[_ ?]|[_ H3]]; [done|]. by eapply HI.
Qed.

Lemma inv_producer_local s m t p p' :
  bring_inv {| shared := s; pcs := m |} → m !! t = Some (Producer p) → ppc_ok s p' → filling p' = false →
  bring_inv {| shared := s; pcs := <[t := Producer p']> m |}.
Proof.
  intros Hinv Ht Hp Hf. apply (inv_producer s m t p); [done..|apply Hinv|done|apply Hinv|by rewrite Hf].
Qed.

(** A step of a receiver. *)
Lemma inv_consumer s m t q p s' q' p' :
  bring_inv {| shared := s; pcs := m |} → m !! t = Some (Consumer q p) →
  bring_ok s' → reader_ok s' q' p' → pushed s' = pushed s → epoch_ s' = epoch_ s → lo s' = lo s → hi s' = hi s →
  (connected_ q' = connected_ q ∨ connected_ q' = 0) → (length (got q) ≤ length (got q'))%nat →
  (∀ id, has_bit (cc_ s') id → has_bit (cc_ s) id) →
  (∀ id, id ≠ connected_ q → has_bit (cc_ s) id → has_bit (cc_ s') id) →
  (∀ i, rc_ s' i = rc_ s i ∨ i = slot (length (got q)) ∧ (length (got q) < count_pushed s)%nat ∧
     length (got q') = S (length (got q)) ∧ connected_ q ≠ 0 ∧ connected_ q' ≠ 0 ∧
     rc_ s' i = Z.ldiff (rc_ s i) (connected_ q)) →
  bring_inv {| shared := s'; pcs := <[t := Consumer q' p']> m |}.
Proof.
  intros [HO HR HP HF H1 HI] Ht Hok Hq' Hpu Hep Hlo Hhi Hid Hlen Hcc Hcc' Hrc. cbn [shared pcs] in *.
  assert (∀ id i, id ≠ connected_ q → kept s id i → kept s' id i) as Hkept.
  { intros id i Hne [Hb He]. unfold kept. rewrite Hep. destruct (Hrc (slot i)) as [->|(_ & _ & _ & Hq & _ & ->)]; [done|].
    destruct (HR t q p Ht) as [_ Hq0]. rewrite decide_False in Hq0 by done. destruct Hq0 as [Hbit _].
    rewrite has_bit_ldiff, ldiff_high; eauto using has_bit_id. }
  assert (∀ t2 q2 p2, t2 ≠ t → m !! t2 = Some (Consumer q2 p2) → connected_ q2 ≠ 0 → connected_ q2 ≠ connected_ q) as Hids.
  { intros t2 q2 p2 Hne H2 Hq2 E. by apply Hne, (HI t2 t q2 q p2 p). }
  split; cbn [shared pcs].
  - done.
  - intros t2 q2 p2 H2. apply lookup_insert_Some in H2 as [[_ [= <- <-]]|[Hne H2]]; [done|].
    apply (reader_ok_frame s); [by eapply HR|done| | |by rewrite Hlo, Hhi].
    + intros Hq2. apply Hcc'. by eapply Hids.
    + intros i Hq2 _. apply Hkept. by eapply Hids.
  - intros t2 p2 H2. apply lookup_insert_Some in H2 as [[_ ?]|[_ H2]]; [done|]. specialize (HP t2 p2 H2).
    destruct p2; cbn in *; unfold count_pushed, covers in *; rewrite ?Hpu, ?Hlo, ?Hhi, ?Hep; naive_solver.
  - intros t2 p2 t3 q3 p3 H2 Hfill H3 Hq3. apply lookup_insert_Some in H2 as [[_ ?]|[_ H2]]; [done|].
    unfold count_pushed. rewrite Hpu. fold (count_pushed s).
    apply lookup_insert_Some in H3 as [[_ [= <- <-]]|[Hne H3]].
    + destruct Hid as [Hid|]; [|done]. rewrite Hid in *. destruct (HF t2 p2 t q p H2 Hfill Ht Hq3) as [Hn Hk].
      split; [lia|]. unfold kept in *. rewrite Hep. destruct (Hrc (slot (count_pushed s))) as [->|(E & Hlt & _)]; [done|].
      apply slot_inj in E; lia.
    + destruct (HF t2 p2 t3 q3 p3 H2 Hfill H3 Hq3) as [Hn Hk]. split; [done|]. apply Hkept; [by eapply Hids|done].
  - intros t2 t3 p2 p3 H2 H3. apply lookup_insert_Some in H2 as [[_ ?]|[_ H2]]; [done|].
    apply lookup_insert_Some in H3 as [[_ ?]|[_ H3]]; [done|]. by eapply H1.
  - intros t2 t3 q2 q3 p2 p3 H2 H3 Hq2 E. apply lookup_insert_Some in H2 as [[<- [= <- <-]]|[Hne2 H2]];
      apply lookup_insert_Some in H3 as [[<- [= <- <-]]|[Hne3 H3]]; [done| | |by eapply HI].
    + destruct Hid as [Hid|]; [|done]. symmetry. by destruct (Hids t3 q3 p3 ltac:(done) H3); congruence.
    + destruct Hid as [Hid|]; [|congruence]. by destruct (Hids t2 q2 p2 ltac:(done) H2); congruence.
Qed.

Lemma inv_consumer_local s m t q p q' p' :
  bring_inv {| shared := s; pcs := m |} → m !! t = Some (Consumer q p) →
  reader_ok s q' p' → connected_ q' = connected_ q → got q' = got q →
  bring_inv {| shared := s; pcs := <[t := Consumer q' p']> m |}.
Proof.
  intros Hinv Ht Hq Hid Hgot. apply (inv_consumer s m t q p); try done; [apply Hinv|by left|by rewrite Hgot|by left].
Qed.

(** An element whose receivers have all been seen to be done is free. *)
Lemma free_element s m t q p cur_rc :
  bring_inv {| shared := s; pcs := m |} → m !! t = Some (Consumer q p) → connected_ q ≠ 0 →
  rc_ s (slot (count_pushed s)) = cur_rc →
  (∀ id, has_bit (cc_ s) id → ¬ (has_bit cur_rc id ∧ Z.ldiff cur_rc ep_mask = epoch_ s)) →
  (count_pushed s < length (got q) + 256)%nat.
Proof.
  intros [_ HR _ _ _ _] Ht Hq Hrc Hfree. cbn [shared pcs] in *. destruct (HR t q p Ht) as [_ Hr].
  rewrite decide_False in Hr by done. destruct Hr as (Hbit & Hn & _ & Hall & _).
  destruct (decide (count_pushed s = length (got q) + 256)%nat) as [E|]; [|lia]. exfalso.
  destruct (Hall (length (got q)) ltac:(lia)) as [Hk _]. apply (Hfree (connected_ q) Hbit). unfold kept in Hk.
  replace (slot (length (got q))) with (slot (count_pushed s)) in Hk; [by rewrite Hrc in Hk|].
  unfold slot, index_of, u8. rewrite E, Nat2Z.inj_add. change (Z.of_nat 256) with (1 * 2 ^ 8). by rewrite Z.add_assoc, Z_mod_plus_full.
Qed.

(** The producer writes into its element. *)
Lemma inv_fill s m t p s' p' :
  bring_inv {| shared := s; pcs := m |} → m !! t = Some (Producer p) → filling p = true → filling p' = true →
  wt_ s' = wt_ s → epoch_ s' = epoch_ s → cc_ s' = cc_ s → rc_ s' = rc_ s → pushed s' = pushed s →
  (∀ i, i ≠ slot (count_pushed s) → lo s' i = lo s i ∧ hi s' i = hi s i) → ppc_ok s' p' →
  bring_inv {| shared := s'; pcs := <[t := Producer p']> m |}.
Proof.
  intros Hinv Ht Hfill Hfill' Hwt Hep Hcc Hrc Hpu Hd Hp'. pose proof Hinv as [[HO1 HO2 HO3] HR _ HF _ _]. cbn [shared pcs] in *.
  apply (inv_producer s m t p); [done..| |done| |].
  - unfold count_pushed in *. split; unfold count_pushed; rewrite ?Hwt, ?Hep, ?Hcc, ?Hpu; done.
  - intros t2 q p2 H2. apply (reader_ok_frame s); [by eapply HR|done|by rewrite Hcc| |].
    + intros i _ _. unfold kept. by rewrite Hrc, Hep.
    + intros i Hq Hi. destruct (HF t p t2 q p2 Ht Hfill H2 Hq) as [Hn _]. apply Hd. intros E. apply slot_inj in E; lia.
  - intros _ t2 q p2 H2 Hq. unfold kept, count_pushed. rewrite Hpu, Hrc, Hep. exact (HF t p t2 q p2 Ht Hfill H2 Hq).
Qed.

Lemma producer_step s m t p c :
  bring_inv {| shared := s; pcs := m |} → m !! t = Some (Producer p) →
  let r := push_step (gentle c) p s in
  bring_inv {| shared := r.2; pcs := <[t := Producer r.1]> m |}.
Proof.
  intros Hinv Ht. pose proof Hinv as [HO HR HP HF _ _]. cbn [shared pcs] in *. pose proof (HP t p Ht) as Hp.
  destruct p as [|v|f v|f v cc|f v cc i|v i cur_rc|f v cc i cur_rc|v i|v i|v|ret]; cbn [push_step ppc_ok fst snd] in *; try done.
  - destruct c; by eapply inv_producer_local.
  - subst f. eapply inv_producer_local; [done..| |by case_decide]. case_decide; [done|].
    cbn. split; [done|]. split; [apply HO|done].
  - destruct Hp as [-> Hcc]. eapply inv_producer_local; [done..| |done]. cbn. by rewrite (slot_wt s HO).
  - destruct Hp as (-> & Hcc & ->). eapply inv_producer_local; [done..| |by case_decide].
    case_decide as Hd; [done|]. cbn. split_and!; [done|apply Hcc..|done|]. intros id Hid [Hb He]. apply Hd.
    split; [|done]. apply (has_bit_land _ _ id); [by apply Hcc|done].
  - destruct Hp as (-> & [Hcc Hcov] & -> & Hfree). case_decide as Hd; [|by eapply inv_producer_local]. destruct Hd as [Hrc _].
    assert (∀ t2 q p2, m !! t2 = Some (Consumer q p2) → connected_ q ≠ 0 → (count_pushed s < length (got q) + 256)%nat) as Hroom
      by (intros; by eapply free_element).
    apply (inv_producer s m t (PCas false v cc (slot (count_pushed s)) cur_rc)); [done..|by destruct HO|done| |].
    + intros t2 q p2 H2. apply (reader_ok_frame s); [by eapply HR|done|done| |done]. intros i Hq Hi. unfold kept. cbn.
      specialize (Hroom t2 q p2 H2 Hq). rewrite write_ne; [done|]. intros E. apply slot_inj in E; lia.
    + intros _ t2 q p2 H2 Hq. split; [by eapply Hroom|]. unfold kept. cbn. rewrite write_eq. destruct (HR t2 q p2 H2) as [_ Hr].
      rewrite decide_False in Hr by done. destruct Hr as (Hbit & _). rewrite lor_mark by (done || apply HO).
      split; [by apply has_bit_lor, Hcov|done].
  - subst i. eapply inv_fill; [done..| |by cbn; rewrite write_eq]. intros i Hi. cbn. by rewrite write_ne.
  - destruct Hp as [-> Hlo]. eapply inv_fill; [done..| |by cbn; rewrite write_eq]. intros i Hi. cbn. by rewrite write_ne.
  - apply (inv_producer s m t (PInc v)); [done..| |done| |done].
    + destruct HO as [HO1 HO2 HO3]. split; cbn; [|done..]. rewrite HO1, u32_add_l. unfold count_pushed. cbn.
      rewrite length_app. cbn. f_equal. lia.
    + intros t2 q p2 H2. destruct (HR t2 q p2 H2) as [Hgot Hr]. unfold reader_ok.
      assert (length (got q) <= length (pushed s))%nat as Hle by (rewrite Hgot, length_take; lia).
      split; [cbn; by rewrite take_app_le|]. destruct (decide (connected_ q = 0)) as [|Hq]; [done|].
      destruct Hr as (Hbit & Hn & Hcur & Hall & Hpc). destruct (HF t (PInc v) t2 q p2 Ht eq_refl H2 Hq) as [Hroom Hkept].
      assert (count_pushed (log_push v (set_wt (u32 (wt_ s + 1)) s)) = S (count_pushed s)) as Hcount
        by (unfold count_pushed; cbn; rewrite length_app; cbn; lia).
      rewrite Hcount. split_and!; [done|lia|lia|done| |].
      * intros i Hi. destruct (decide (i = count_pushed s)) as [->|].
        -- split; [done|]. unfold holds_value. cbn. destruct Hp as [-> ->].
           unfold count_pushed. rewrite list_lookup_middle by done. by destruct v.
        -- destruct (Hall i ltac:(lia)) as [Hk Hv]. split; [done|]. unfold holds_value in *. cbn.
           rewrite lookup_app_l by (unfold count_pushed in *; lia). done.
      * destruct p2; cbn in *; try done; rewrite ?Hcount; [split; [apply Hpc|lia]| | |].
        -- destruct Hpc as [? [b Hb]]. split; [done|]. exists b. by apply lookup_app_l_Some.
        -- split; [apply Hpc|]. apply lookup_app_l_Some, Hpc.
        -- split; [apply Hpc|]. apply lookup_app_l_Some, Hpc.
  - by eapply inv_producer_local.
Qed.

Lemma consumer_step s m t q p c :
  bring_inv {| shared := s; pcs := m |} → m !! t = Some (Consumer q p) →
  let r := pop_step (gentle c) q p s in
  bring_inv {| shared := r.2; pcs := <[t := Consumer r.1.1 r.1.2]> m |}.
Proof.
  intros Hinv Ht. pose proof Hinv as [HO HR HP HF _ _]. cbn [shared pcs] in *. pose proof (HR t q p Ht) as [Hgot Hq].
  destruct (decide (connected_ q = 0)) as [H0|Hne].
  { assert (∀ p', match p' with CIdle | Popped _ => True | _ => False end → reader_ok s q p') as Hok.
    { intros p' Hp'. split; [done|]. by rewrite decide_True. }
    destruct p; try done; cbn.
    - destruct c; cbn; rewrite ?(decide_True (P := connected_ q = 0)) by done; eapply inv_consumer_local; eauto.
    - eapply inv_consumer_local; eauto. }
  destruct Hq as (Hbit & Hn & Hcur & Hall & Hpc). set (n := length (got q)) in *.
  assert (∀ p', reading p' = reading p → cpc_ok s n p' → reader_ok s q p') as Hok.
  { intros p' Hr Hp'. split; [done|]. rewrite decide_False by done. by rewrite Hr. }
  destruct p as [| | |i|i a|i buff|i buff cur_rc|ret]; cbn [pop_step cpc_ok reading] in *.
  - destruct c; cbn [gentle]; try (eapply inv_consumer_local; [done|done|by apply Hok|done|done]).
    + rewrite (decide_False (P := connected_ q = 0)) by done. eapply inv_consumer_local; [done|done|by apply Hok|done|done].
    + rewrite (decide_False (P := connected_ q = 0)) by done. cbn [fst snd].
      apply (inv_consumer s m t q CIdle); try done; cbn [connected_ set_connected cc_ set_cc].
      * destruct HO as [HO1 HO2 HO3]. split; [done|done|]. by apply disconnect_range.
      * by right.
      * intros id Hid. apply has_bit_disconnect in Hid as [? _]; eauto using has_bit_id.
      * intros id Hid Hb. apply has_bit_disconnect; eauto using has_bit_id.
      * intros i. by left.
  - done.
  - case_decide as Hw; cbn [fst snd].
    + eapply inv_consumer_local; [done|done|by apply Hok|done|done].
    + eapply inv_consumer_local; [done|done| |done|done]. split; [done|]. cbn [connected_ set_cursor].
      rewrite decide_False by done. cbn [cursor_ set_cursor reading got cpc_ok Z.b2z].
      assert (n ≠ count_pushed s) as Hnw.
      { intros E. apply Hw. destruct HO as [-> _ _]. rewrite Hcur, E. f_equal. cbn. lia. }
      rewrite Hcur. split_and!; [done|lia|lia| |done| |fold n; lia].
      * rewrite u32_add_l. f_equal. cbn. lia.
      * rewrite index_u32. unfold slot. f_equal. cbn. lia.
  - destruct Hpc as [-> Hlt]. destruct (Hall n ltac:(lia)) as [_ Hv].
    eapply inv_consumer_local; [done|done|apply Hok; [done|]|done|done]. split; [done|]. by exists (hi s (slot n)).
  - destruct Hpc as (-> & b & Hb).
    assert (n < count_pushed s)%nat as Hlt by (by apply lookup_lt_Some in Hb). destruct (Hall n ltac:(lia)) as [_ Hv].
    eapply inv_consumer_local; [done|done|apply Hok; [done|]|done|done]. split; [done|].
    unfold holds_value in Hv. rewrite Hb in Hv |- *. congruence.
  - destruct Hpc as [-> Hb]. assert (n < count_pushed s)%nat as Hlt by (by apply lookup_lt_Some in Hb).
    destruct (Hall n ltac:(lia)) as [[Hkb _] _]. rewrite decide_False.
    + eapply inv_consumer_local; [done|done|by apply Hok|done|done].
    + intros E. apply (has_bit_land (rc_ s (slot n)) (rc_ s (slot n)) (connected_ q)); [done|done|].
      by rewrite E, Z.land_0_r.
  - destruct Hpc as [-> Hb]. assert (n < count_pushed s)%nat as Hlt by (by apply lookup_lt_Some in Hb).
    case_decide as Hd; [|eapply inv_consumer_local; [done|done|by apply Hok|done|done]].
    destruct Hd as [Hrc _]. cbn [fst snd].
    apply (inv_consumer s m t q (CCas (slot n) buff cur_rc)); try done.
    + by destruct HO.
    + unfold reader_ok. cbn [got log_pop connected_ cursor_ cc_ set_rc pushed]. rewrite length_app, Nat.add_1_r. fold n.
      split; [by rewrite (take_S_r _ _ buff), Hgot|]. rewrite decide_False by done. cbn [reading Z.b2z] in *.
      change (count_pushed (set_rc _ _ s)) with (count_pushed s). split_and!; [done|lia|lia|rewrite Hcur; f_equal; lia| |done].
      intros i Hi. destruct (Hall i ltac:(lia)) as [Hk Hv].
      split; [|done]. unfold kept. cbn. rewrite write_ne; [done|]. intros E. apply slot_inj in E; lia.
    + by left.
    + cbn. rewrite length_app. lia.
    + intros i. cbn. unfold write. case_decide as Hi; [right|by left]. subst i. rewrite length_app, Hrc. cbn. split_and!; try done. lia.
  - eapply inv_consumer_local; [done|done|by apply Hok|done|done].
Qed.

Lemma bring_inv_step s m t th c :
  bring_inv {| shared := s; pcs := m |} → m !! t = Some th →
  bring_inv {| shared := (next_gentle c th s).2; pcs := <[t := (next_gentle c th s).1]> m |}.
Proof.
  intros Hinv Ht. unfold next_gentle, next. destruct th as [p|q p].
  - pose proof (producer_step s m t p c Hinv Ht) as H. by destruct (push_step (gentle c) p s).
  - pose proof (consumer_step s m t q p c Hinv Ht) as H. by destruct (pop_step (gentle c) q p s) as [[??] ?].
Qed.

(** ** Properties *)

(** Receivers that have connected, at the place of the producer, to a ring that holds
    nothing for them. *)
Record start (s : bring) (m : gmap nat thread) : Prop := {
  st_wt : wt_ s = u32 wt0;
  st_epoch : Z.land (epoch_ s) ep_mask = 0;
  st_cc : 0 ≤ cc_ s < 2 ^ 32;
  st_pushed : pushed s = [];
  st_threads t th : m !! t = Some th →
    th = Producer PIdle ∨
    ∃ id, th = Consumer {| connected_ := id; cursor_ := wt_ s; got := [] |} CIdle ∧ has_bit (cc_ s) id;
  st_one t t' p p' : m !! t = Some (Producer p) → m !! t' = Some (Producer p') → t = t';
  st_ids t t' q q' p p' : m !! t = Some (Consumer q p) → m !! t' = Some (Consumer q' p') →
    connected_ q = connected_ q' → t = t' }.

Lemma broadcast_start_inv s m : start s m → bring_inv {| shared := s; pcs := m |}.
Proof.
  intros [Hwt Hep Hcc Hpu Hth H1 HI].
  assert (count_pushed s = 0)%nat as Hc by (unfold count_pushed; by rewrite Hpu).
  split; cbn [shared pcs].
  - split; [|done|done]. rewrite Hwt, Hc. f_equal. lia.
  - intros t q p Ht. destruct (Hth t _ Ht) as [|(id & [= -> ->] & Hid)]; [done|]. unfold reader_ok. cbn.
    split; [done|]. rewrite decide_False by (apply has_bit_range in Hid; lia).
    rewrite Hc, Hwt. split_and!; [done|lia|lia|f_equal; lia|lia|done].
  - intros t p Ht. destruct (Hth t _ Ht) as [[= ->]|(id & [=] & _)]. done.
  - intros t p t' q p' Ht Hf. destruct (Hth t _ Ht) as [[= ->]|(id & [=] & _)]. done.
  - done.
  - intros t t' q q' p p' Ht Ht' _. by apply (HI t t' q q' p p').
Qed.

Lemma u32_apart a b : a < b ≤ a + 256 → u32 a ≠ u32 b.
Proof. unfold u32. intros Hab E. Z.to_euclidean_division_equations. lia. Qed.

(** A pop of a receiver that is behind and moves alone. *)
Lemma broadcast_pop_alone s q n :
  bring_ok s → connected_ q ≠ 0 → cursor_ q = u32 (wt0 + Z.of_nat n) → (n < count_pushed s ≤ n + 256)%nat →
  has_bit (rc_ s (slot n)) (connected_ q) →
  let v := (lo s (slot n), hi s (slot n)) in
  ∃ q', (run_thread next_gentle [CallPop; Go; Go; Go; Go; Go] (Consumer q CIdle) s).1 = Consumer q' (Popped (Some v)) ∧
    got q' = got q ++ [v].
Proof.
  intros [Hwt _ _] Hq Hcur Hn Hbit v. unfold run_thread, next_gentle. cbn [foldl fst snd gentle next].
  cbn [pop_step]. rewrite (decide_False (P := connected_ q = 0)) by done. cbn [fst snd next pop_step].
  rewrite (decide_False (P := cursor_ q = wt_ s)) by (rewrite Hcur, Hwt; apply u32_apart; lia). cbn [fst snd next pop_step].
  replace (index_of (cursor_ q)) with (slot n) by (rewrite Hcur, index_u32; done).
  rewrite decide_False; [|intros E; apply (has_bit_land (rc_ s (slot n)) (rc_ s (slot n)) (connected_ q)); [done..|]; by rewrite E, Z.land_0_r].
  cbn [fst snd next pop_step]. rewrite decide_True by done. cbn [fst snd]. by eexists.
Qed.

(** C23: Every receiver gets every value, once, whole and in order, whatever the interleaving
    and however often the counter of the ring wraps around: what it has taken is a prefix of
    what has been pushed; while it is connected it is at most 256 values behind, and when it
    is behind and moves alone, a pop takes the next value.  As long as no receiver joins
    ([Demo.joining_receiver]) and no push is forced ([Demo.forced_push]). *)
Theorem broadcast_in_order s m k t q p :
  start s m → reachable next_gentle {| shared := s; pcs := m |} k → pcs k !! t = Some (Consumer q p) →
  let n := length (got q) in
  got q = take n (pushed (shared k)) ∧
  (connected_ q ≠ 0 →
     (length (pushed (shared k)) ≤ n + 256)%nat ∧
     (p = CIdle → ∀ v, pushed (shared k) !! n = Some v →
        ∃ q', (run_thread next_gentle [CallPop; Go; Go; Go; Go; Go] (Consumer q CIdle) (shared k)).1
                = Consumer q' (Popped (Some v)) ∧ got q' = got q ++ [v])).
Proof.
  intros Hstart Hr Ht n.
  assert (bring_inv k) as Hinv.
  { revert Hr. apply reachable_invariant; [by apply broadcast_start_inv|]. intros; by apply bring_inv_step. }
  destruct Hinv as [HO HR _ _ _ _]. destruct (HR t q p Ht) as [Hgot Hq]. split; [done|]. intros Hne.
  rewrite decide_False in Hq by done. destruct Hq as (Hbit & Hn & Hcur & Hall & _). split; [exact (proj2 Hn)|].
  intros -> v Hv. assert (n < count_pushed (shared k))%nat as Hlt by (by apply lookup_lt_Some in Hv).
  destruct (Hall n ltac:(lia)) as [[Hkb _] Hval]. unfold holds_value in Hval. rewrite Hv in Hval. injection Hval as ->.
  rewrite Z.add_0_r in Hcur. apply (broadcast_pop_alone _ _ n); [done..|lia|done].
Qed.

End start.

Arguments start : clear implicits.

End broadcast.

Arguments bring : clear implicits.
Arguments thread : clear implicits.
Arguments choice : clear implicits.
Arguments ppc : clear implicits.

(** ** Runs *)

Module Demo.

Definition val (i : nat) : nat * nat := (i, i).

Definition fresh (wt0 cc : Z) : bring nat := {|
  wt_ := wt0; epoch_ := 0; cc_ := cc; lo := λ _, 0%nat; hi := λ _, 0%nat; rc_ := λ _, 0; pushed := [] |}.

Definition receiver (id wt0 : Z) : thread nat := Consumer {| connected_ := id; cursor_ := wt0; got := [] |} CIdle.

(** A producer, two receivers, and one that has not connected. *)
Definition begin (wt0 : Z) : config (bring nat) (thread nat) := {|
  shared := fresh wt0 3;
  pcs := {[0%nat := Producer PIdle; 1%nat := receiver 1 wt0; 2%nat := receiver 2 wt0; 3%nat := receiver 0 0]} |}.

Definition schedule : Type := list (nat * choice nat).

Definition moves (t : nat) (c : choice nat) (n : nat) : schedule := (t, c) :: replicate n (t, Go).
Definition push (i : nat) : schedule := moves 0 (CallPush (val i)) 8.
Definition force (i : nat) : schedule := moves 0 (CallForce (val i)) 10.
Definition pop (t : nat) : schedule := moves t CallPop 6.

Definition took (t : nat) (k : config (bring nat) (thread nat)) : option (list nat) :=
  match pcs k !! t with Some (Consumer q _) => Some (fst <$> got q) | _ => None end.

Definition producer_at (k : config (bring nat) (thread nat)) : option (ppc nat) :=
  match pcs k !! 0%nat with Some (Producer p) => Some p | _ => None end.

(** Two receivers and two values, where the counter wraps around. *)
Definition two : config (bring nat) (thread nat) :=
  run_schedule next_gentle (push 7 ++ pop 1 ++ push 8 ++ pop 1 ++ pop 2) (begin (2 ^ 32 - 1)).

Example two_took : took 1 two = Some [7; 8]%nat ∧ took 2 two = Some [7]%nat ∧ wt_ (shared two) = 1.
Proof. vm_compute. split_and!; reflexivity. Qed.

(** Receiver 1 never reads.  Forcing a push disconnects it; but the next push does not wait
    for receiver 2 either, which is connected and reads: value 1 is lost, value 257 comes in
    its place. *)
Definition forced_run : schedule :=
  (seq 0 256 ≫= push) ++ pop 2 ++ push 256 ++ force 256 ++ push 257 ++ pop 2.

Example forced_push :
  let k := run_schedule next forced_run (begin 0) in
  reachable next (begin 0) k ∧ took 2 k = Some [0; 257]%nat ∧ cc_ (shared k) = 2.
Proof. split; [apply (run_schedule_reachable next)|]. vm_compute. split; reflexivity. Qed.

(** A receiver connects while a push has already read the connections: the element is not
    kept for it, and a lap later another value has taken its place. *)
Definition joining_run : schedule :=
  moves 0 (CallPush (val 0)) 2 ++ moves 3 CallConnect 1 ++ replicate 6 (0%nat, Go) ++
  pop 1 ++ pop 2 ++ (seq 1 255 ≫= λ i, push i ++ pop 1 ++ pop 2) ++ push 256 ++ pop 3.

Example joining_receiver :
  let k := run_schedule next joining_run (begin 0) in
  reachable next (begin 0) k ∧ took 3 k = Some [256]%nat ∧ length (pushed (shared k)) = 257%nat.
Proof. split; [apply (run_schedule_reachable next)|]. vm_compute. split; reflexivity. Qed.

(** A push between the two halves of [connect] marks its element for a receiver whose cursor
    is past it: a lap later the push fails although every receiver has taken every value. *)
Definition passed_run : schedule :=
  [(3%nat, CallConnect)] ++ push 0 ++ [(3%nat, Go)] ++ pop 1 ++ pop 2 ++
  (seq 1 255 ≫= λ i, push i ++ pop 1 ++ pop 2 ++ pop 3) ++ moves 0 (CallPush (val 256)) 3.

Example passed_element :
  let k := run_schedule next passed_run (begin 0) in
  reachable next (begin 0) k ∧ producer_at k = Some (Pushed false) ∧
  took 1 k = Some (seq 0 256) ∧ took 2 k = Some (seq 0 256) ∧ took 3 k = Some (seq 1 255).
Proof. split; [apply (run_schedule_reachable next)|]. vm_compute. split_and!; reflexivity. Qed.

Definition threads (wt0 : Z) : gmap nat (thread nat) :=
  {[0%nat := Producer PIdle; 1%nat := receiver 1 wt0; 2%nat := receiver 2 wt0]}.

Definition one : config (bring nat) (thread nat) :=
  run_schedule next_gentle (push 7 ++ pop 1 ++ push 8)
    {| shared := fresh (2 ^ 32 - 1) 3; pcs := threads (2 ^ 32 - 1) |}.

Lemma threads_start : start (2 ^ 32 - 1) (fresh (2 ^ 32 - 1) 3) (threads (2 ^ 32 - 1)).
Proof.
  assert (∀ t th, threads (2 ^ 32 - 1) !! t = Some th → t = 0%nat ∧ th = Producer PIdle ∨
    t = 1%nat ∧ th = receiver 1 (2 ^ 32 - 1) ∨ t = 2%nat ∧ th = receiver 2 (2 ^ 32 - 1)) as Hth.
  { intros t th. unfold threads. rewrite !lookup_insert_Some, lookup_singleton_Some. naive_solver. }
  split; [done..| | |].
  - intros t th Ht. destruct (Hth t th Ht) as [[_ ->]|[[_ ->]|[_ ->]]]; [by left|right..]; eexists; (split; [reflexivity|]).
    + by exists 0.
    + by exists 1.
  - intros t t' p p' H1 H2. unfold receiver in Hth.
    destruct (Hth _ _ H1) as [[-> _]|[[_ [=]]|[_ [=]]]], (Hth _ _ H2) as [[-> _]|[[_ [=]]|[_ [=]]]]. done.
  - intros t t' q q' p p' H1 H2 E. unfold receiver in Hth.
    destruct (Hth _ _ H1) as [[_ [=]]|[[-> [= -> _]]|[-> [= -> _]]]], (Hth _ _ H2) as [[_ [=]]|[[-> [= -> _]]|[-> [= -> _]]]];
      first [done | discriminate E].
Qed.

End Demo.

Lemma broadcast_in_order_witness :
  let q := {| connected_ := 1; cursor_ := 0; got := [(7, 7)%nat] |} in
  (1 ≤ 257)%nat ∧ got q = take 1 (pushed (shared Demo.one)) ∧
  ∃ q', (run_thread next_gentle [CallPop; Go; Go; Go; Go; Go] (Consumer q CIdle) (shared Demo.one)).1
          = Consumer q' (Popped (Some (8, 8)%nat)) ∧ got q' = got q ++ [(8, 8)%nat].
Proof.
  intros q. split; [lia|].
  destruct (broadcast_in_order (2 ^ 32 - 1) (Demo.fresh (2 ^ 32 - 1) 3) (Demo.threads (2 ^ 32 - 1)) Demo.one 1 q CIdle)
    as [Hgot Hq].
  - apply Demo.threads_start.
  - apply (run_schedule_reachable next_gentle).
  - vm_compute. reflexivity.
  - split; [exact Hgot|]. apply Hq; [done|reflexivity|]. vm_compute. reflexivity.
Defined.
