(* ===== verification/IpcBroadcastMulti.v ===== *)
(** * The ring of many producers and many consumers, broadcast ([prod_cons.h])

    [prod_cons_impl<wr<multi, multi, broadcast>>], the policy of [ipc::channel].  A producer
    claims the element of [ct_] with a compare-and-exchange of its read counter, which holds
    the connections that have not read it, a counter of its changes and the epoch; then it
    advances [ct_], fills the element and raises its commit flag.  A receiver waits for the
    flag of the element at its cursor, copies it and takes its bit away; the last one leaves
    in the flag the index at which the element may be claimed again.

    As in [IpcRing] every step is one operation on a shared word, and elements are written
    and copied in two pieces.  [pushed], [got] and [ver] are logs: the values in the order in
    which their index was claimed, those a receiver has taken, and how often the read
    counter of an element has changed. *)

From S2P Require Import Prelude Interleaving IpcBase.
From S2P Require Import IpcRing.
From S2P Require Import IpcBroadcast.
#[local] Open Scope Z_scope.

Section broadcast.
Context {W : Type}.

(** ** Data *)

Record mring := {
  ct_ : Z;
  epoch_ : Z;
  cc_ : Z;                    (* the connections, in conn_head *)
  lo : Z → W;
  hi : Z → W;
  rc_ : Z → Z;
  f_ct_ : Z → Z;
  pushed : list (W * W);
  ver : Z → Z }.

Definition rc_mask : Z := 0x00000000ffffffff.
Definition ep_mask : Z := 0x00ffffffffffffff.
Definition ep_incr : Z := 0x0100000000000000.
Definition ic_mask : Z := 0xff000000ffffffff.
Definition ic_incr : Z := 0x0000000100000000.

Definition set_ct (x : Z) (r : mring) : mring := {| ct_ := x; epoch_ := epoch_ r; cc_ := cc_ r; lo := lo r; hi := hi r;
  rc_ := rc_ r; f_ct_ := f_ct_ r; pushed := pushed r; ver := ver r |}.
Definition set_epoch (x : Z) (r : mring) : mring := {| ct_ := ct_ r; epoch_ := x; cc_ := cc_ r; lo := lo r; hi := hi r;
  rc_ := rc_ r; f_ct_ := f_ct_ r; pushed := pushed r; ver := ver r |}.
Definition set_cc (x : Z) (r : mring) : mring := {| ct_ := ct_ r; epoch_ := epoch_ r; cc_ := x; lo := lo r; hi := hi r;
  rc_ := rc_ r; f_ct_ := f_ct_ r; pushed := pushed r; ver := ver r |}.
Definition set_lo (i : Z) (a : W) (r : mring) : mring := {| ct_ := ct_ r; epoch_ := epoch_ r; cc_ := cc_ r;
  lo := write i a (lo r); hi := hi r; rc_ := rc_ r; f_ct_ := f_ct_ r; pushed := pushed r; ver := ver r |}.
Definition set_hi (i : Z) (a : W) (r : mring) : mring := {| ct_ := ct_ r; epoch_ := epoch_ r; cc_ := cc_ r;
  lo := lo r; hi := write i a (hi r); rc_ := rc_ r; f_ct_ := f_ct_ r; pushed := pushed r; ver := ver r |}.
Definition set_rc (i x : Z) (r : mring) : mring := {| ct_ := ct_ r; epoch_ := epoch_ r; cc_ := cc_ r; lo := lo r; hi := hi r;
  rc_ := write i x (rc_ r); f_ct_ := f_ct_ r; pushed := pushed r; ver := write i (ver r i + 1) (ver r) |}.
Definition set_flag (i x : Z) (r : mring) : mring := {| ct_ := ct_ r; epoch_ := epoch_ r; cc_ := cc_ r; lo := lo r; hi := hi r;
  rc_ := rc_ r; f_ct_ := write i x (f_ct_ r); pushed := pushed r; ver := ver r |}.
Definition log_push (v : W * W) (r : mring) : mring := {| ct_ := ct_ r; epoch_ := epoch_ r; cc_ := cc_ r; lo := lo r; hi := hi r;
  rc_ := rc_ r; f_ct_ := f_ct_ r; pushed := pushed r ++ [v]; ver := ver r |}.

(** A ring in fresh shared memory, with its connections. *)
Definition fresh (w0 : W) (cc : Z) : mring := {| ct_ := 0; epoch_ := 0; cc_ := cc; lo := λ _, w0; hi := λ _, w0;
  rc_ := λ _, 0; f_ct_ := λ _, 0; pushed := []; ver := λ _, 0 |}.

Definition inc_rc (rc : Z) : Z := Z.lor (Z.land rc ic_mask) (Z.ldiff (u64 (rc + ic_incr)) ic_mask).
Definition inc_mask (rc : Z) : Z := Z.ldiff (inc_rc rc) rc_mask.

(** ** The code *)

(** [push]; with [f] inside [force_push], which goes on when the push fails.  [F...] are the
    steps of [force_push] itself. *)
Inductive ppc :=
| PIdle
| PLoadEpoch (f : bool) (v : W * W)
| PLoadCc (f : bool) (v : W * W) (epoch : Z)
| PLoadCt (f : bool) (v : W * W) (epoch cc : Z)
| PLoadRc (f : bool) (v : W * W) (epoch cc cur_ct : Z)
| PLoadFlag (f : bool) (v : W * W) (epoch cc cur_ct cur_rc : Z)
| PCas (f : bool) (v : W * W) (epoch cc cur_ct cur_rc : Z)
| PCasEpoch (f : bool) (v : W * W) (epoch cur_ct : Z)
| FAddEpoch (v : W * W)
| FLoadCc (v : W * W) (epoch : Z)
| FLoadCt (v : W * W) (epoch cc : Z)
| FLoadRc (v : W * W) (epoch cc cur_ct : Z)
| FDisconnect (v : W * W) (epoch cur_ct cur_rc : Z)
| FCas (v : W * W) (epoch cc cur_ct cur_rc : Z)
| FLoadEpoch (v : W * W) (epoch cur_ct : Z)
| PStoreCt (v : W * W) (cur_ct : Z)
| PLo (v : W * W) (cur_ct : Z)
| PHi (v : W * W) (cur_ct : Z)
| PFlag (cur_ct : Z)
| Pushed (ret : bool).

Inductive cpc :=
| CIdle
| CCursor                    (* connect, before the cursor is read *)
| CLoadFlag
| CLo (i : Z)
| CHi (i : Z) (a : W)
| CLoadRc (i : Z) (buff : W * W)
| CFlagDone (i : Z) (buff : W * W)
| CFlagLast (i : Z) (buff : W * W) (cur_rc : Z)
| CCas (i : Z) (buff : W * W) (cur_rc : Z)
| Popped (ret : option (W * W)).

Inductive thread := Producer (p : ppc) | Consumer (q : reader (W := W)) (p : cpc).

Inductive choice := CallPush (v : W * W) | CallForce (v : W * W) | CallPop | CallConnect | CallLeave | Go | Spurious.

Definition spurious (c : choice) : bool := match c with Spurious => true | _ => false end.

(** A push that fails. *)
Definition refuse (f : bool) (v : W * W) : ppc := if f then FAddEpoch v else Pushed false.

Definition push_step (c : choice) (p : ppc) (r : mring) : ppc * mring :=
  match p with
  | PIdle => (match c with CallPush v => PLoadEpoch false v | CallForce v => FAddEpoch v | _ => PIdle end, r)
  | PLoadEpoch f v => (PLoadCc f v (epoch_ r), r)
  | PLoadCc f v epoch => (if decide (cc_ r = 0) then refuse f v else PLoadCt f v epoch (cc_ r), r)
  | PLoadCt f v epoch cc => (PLoadRc f v epoch cc (ct_ r), r)
  | PLoadRc f v epoch cc cur_ct =>
      let cur_rc := rc_ r (index_of cur_ct) in
      let rem_cc := Z.land cur_rc rc_mask in
      (if decide (Z.land cc rem_cc ≠ 0 ∧ Z.ldiff cur_rc ep_mask = epoch) then refuse f v
       else if decide (rem_cc = 0) then PLoadFlag f v epoch cc cur_ct cur_rc
       else PCas f v epoch cc cur_ct cur_rc, r)
  | PLoadFlag f v epoch cc cur_ct cur_rc =>
      let cur_fl := f_ct_ r (index_of cur_ct) in
      (if decide (cur_fl ≠ cur_ct ∧ cur_fl ≠ 0) then refuse f v else PCas f v epoch cc cur_ct cur_rc, r)
  | PCas f v epoch cc cur_ct cur_rc =>
      if decide (rc_ r (index_of cur_ct) = cur_rc ∧ spurious c = false) then
        (PCasEpoch f v epoch cur_ct,
         set_rc (index_of cur_ct) (Z.lor (inc_mask (Z.lor epoch (Z.land cur_rc ep_mask))) cc) r)
      else (PLoadCc f v epoch, r)
  | PCasEpoch f v epoch cur_ct =>
      (if decide (epoch_ r = epoch ∧ spurious c = false) then PStoreCt v cur_ct else PLoadCc f v (epoch_ r), r)
  | FAddEpoch v => let epoch := u64 (epoch_ r + ep_incr) in (FLoadCc v epoch, set_epoch epoch r)
  | FLoadCc v epoch => (if decide (cc_ r = 0) then Pushed false else FLoadCt v epoch (cc_ r), r)
  | FLoadCt v epoch cc => (FLoadRc v epoch cc (ct_ r), r)
  | FLoadRc v epoch cc cur_ct =>
      let cur_rc := rc_ r (index_of cur_ct) in
      (if decide (Z.land cc (Z.land cur_rc rc_mask) = 0) then FCas v epoch cc cur_ct cur_rc
       else FDisconnect v epoch cur_ct cur_rc, r)
  | FDisconnect v epoch cur_ct cur_rc =>
      let cc := ConnHead.disconnect (cc_ r) (Z.land cur_rc rc_mask) in
      (if decide (cc = 0) then Pushed false else FCas v epoch cc cur_ct cur_rc, set_cc cc r)
  | FCas v epoch cc cur_ct cur_rc =>
      if decide (rc_ r (index_of cur_ct) = cur_rc ∧ spurious c = false) then
        (FLoadEpoch v epoch cur_ct,
         set_rc (index_of cur_ct) (Z.lor (inc_mask (Z.lor epoch (Z.land cur_rc ep_mask))) cc) r)
      else (FLoadCc v epoch, r)
  | FLoadEpoch v epoch cur_ct =>
      (if decide (epoch = epoch_ r) then PStoreCt v cur_ct else PLoadEpoch true v, r)
  | PStoreCt v cur_ct => (PLo v cur_ct, log_push v (set_ct (u32 (cur_ct + 1)) r))
  | PLo v cur_ct => (PHi v cur_ct, set_lo (index_of cur_ct) v.1 r)
  | PHi v cur_ct => (PFlag cur_ct, set_hi (index_of cur_ct) v.2 r)
  | PFlag cur_ct => (Pushed true, set_flag (index_of cur_ct) (complement cur_ct) r)
  | Pushed _ => (PIdle, r)
  end.

Definition elem_max : Z := 256.

Definition pop_step (c : choice) (q : reader) (p : cpc) (r : mring) : reader * cpc * mring :=
  match p with
  | CIdle =>
      match c with
      | CallPop => (q, if decide (connected_ q = 0) then CIdle else CLoadFlag, r)
      | CallConnect =>
          if decide (connected_ q = 0) then
            let '(id, cc) := ConnHead.connect (cc_ r) in
            (set_connected id q, if decide (id = 0) then CIdle else CCursor, set_cc cc r)
          else (q, CIdle, r)
      | CallLeave =>
          if decide (connected_ q = 0) then (q, CIdle, r)
          else (set_connected 0 q, CIdle, set_cc (ConnHead.disconnect (cc_ r) (connected_ q)) r)
      | _ => (q, CIdle, r)
      end
  | CCursor => (set_cursor (ct_ r) q, CIdle, r)
  | CLoadFlag =>
      if decide (f_ct_ r (index_of (cursor_ q)) ≠ complement (cursor_ q)) then (q, Popped None, r)
      else (set_cursor (u32 (cursor_ q + 1)) q, CLo (index_of (cursor_ q)), r)
  | CLo i => (q, CHi i (lo r i), r)
  | CHi i a => (q, CLoadRc i (a, hi r i), r)
  | CLoadRc i buff =>
      let cur_rc := rc_ r i in
      let rem_cc := Z.land cur_rc rc_mask in
      (q, if decide (rem_cc = 0) then CFlagDone i buff
          else if decide (Z.ldiff rem_cc (connected_ q) = 0) then CFlagLast i buff cur_rc
          else CCas i buff cur_rc, r)
  | CFlagDone i buff => (log_pop buff q, Popped (Some buff), set_flag i (cursor_ q + elem_max - 1) r)
  | CFlagLast i buff cur_rc => (q, CCas i buff cur_rc, set_flag i (cursor_ q + elem_max - 1) r)
  | CCas i buff cur_rc =>
      if decide (rc_ r i = cur_rc ∧ spurious c = false) then
        (log_pop buff q, Popped (Some buff), set_rc i (Z.ldiff (inc_rc cur_rc) (connected_ q)) r)
      else (q, CLoadRc i buff, r)
  | Popped _ => (q, CIdle, r)
  end.

Definition next (c : choice) (th : thread) (r : mring) : thread * mring :=
  match th with
  | Producer p => let '(p, r) := push_step c p r in (Producer p, r)
  | Consumer q p => let '(q, p, r) := pop_step c q p r in (Consumer q p, r)
  end.

(** ** The invariant *)

(** The choices that keep the set of receivers and do not force a push. *)
Definition gentle (c : choice) : choice := match c with CallForce _ | CallConnect | CallLeave => Go | _ => c end.

Definition next_gentle (c : choice) : thread → mring → thread * mring := next (gentle c).

Definition slot (n : nat) : Z := index_of (Z.of_nat n).
Definition count_pushed (r : mring) : nat := length (pushed r).

(** The receivers that have not read element [j]. *)
Definition rem (r : mring) (j : Z) : Z := Z.land (rc_ r j) rc_mask.

Definition flagged (r : mring) (n : nat) : Prop := f_ct_ r (slot n) = complement (Z.of_nat n).
Definition holds_value (r : mring) (n : nat) : Prop := pushed r !! n = Some (lo r (slot n), hi r (slot n)).

(** The element a producer owns, from its claim to the commit flag. *)
Definition owns (p : ppc) : option Z :=
  match p with
  | PCasEpoch _ _ _ c | PStoreCt _ c | PLo _ c | PHi _ c | PFlag c => Some c
  | _ => None
  end.

(** A read counter that has been loaded: it is the present one as long as the element has
    not changed. *)
Definition snapshot (r : mring) (j cur_rc : Z) : Prop :=
  cur_rc / 2 ^ 32 ≤ ver r j ∧ (cur_rc / 2 ^ 32 = ver r j → cur_rc = rc_ r j).

Definition in_window (r : mring) (n : nat) : Prop := (n < count_pushed r ≤ n + 256)%nat.

Definition ppc_ok (r : mring) (p : ppc) : Prop :=
  let N := count_pushed r in
  match p with
  | PLoadEpoch f _ => f = false
  | PLoadCc f _ e => f = false ∧ e = 0
  | PLoadCt f _ e cc => f = false ∧ e = 0 ∧ cc = cc_ r ∧ cc ≠ 0
  | PLoadRc f _ e cc c => f = false ∧ e = 0 ∧ cc = cc_ r ∧ cc ≠ 0 ∧ ∃ n, c = Z.of_nat n ∧ (n ≤ N)%nat
  | PLoadFlag f _ e cc c cur_rc => f = false ∧ e = 0 ∧ cc = cc_ r ∧ cc ≠ 0 ∧
      ∃ n, c = Z.of_nat n ∧ (n ≤ N)%nat ∧ snapshot r (slot n) cur_rc ∧ Z.land cur_rc rc_mask = 0
  | PCas f _ e cc c cur_rc => f = false ∧ e = 0 ∧ cc = cc_ r ∧ cc ≠ 0 ∧
      ∃ n, c = Z.of_nat n ∧ snapshot r (slot n) cur_rc ∧ Z.land cur_rc rc_mask = 0 ∧
        (cur_rc = rc_ r (slot n) → n = N)
  | PCasEpoch f _ e c => f = false ∧ e = 0 ∧ c = Z.of_nat N
  | PStoreCt _ c => c = Z.of_nat N
  | PLo v c => ∃ n, c = Z.of_nat n ∧ in_window r n ∧ pushed r !! n = Some v
  | PHi v c => ∃ n, c = Z.of_nat n ∧ in_window r n ∧ pushed r !! n = Some v ∧ lo r (slot n) = v.1
  | PFlag c => ∃ n, c = Z.of_nat n ∧ in_window r n ∧ holds_value r n
  | PIdle | Pushed _ => True
  | _ => False
  end.

(** An owned element is marked for every receiver, and has no commit flag. *)
Definition owned (r : mring) (c : Z) : Prop :=
  rem r (index_of c) = cc_ r ∧ cc_ r ≠ 0 ∧ 0 ≤ f_ct_ r (index_of c) < 2 ^ 32 ∧ 0 ≤ c.

(** The last receiver of the element: it may have released it already. *)
Definition last_reader (r : mring) (id : Z) (n : nat) : Prop :=
  rem r (slot n) = id ∧ (flagged r n ∨ f_ct_ r (slot n) = Z.of_nat n + 256).

Definition reading (p : cpc) : bool :=
  match p with CLo _ | CHi _ _ | CLoadRc _ _ | CFlagLast _ _ _ | CCas _ _ _ => true | _ => false end.

Definition cpc_ok (r : mring) (id : Z) (n : nat) (p : cpc) : Prop :=
  match p with
  | CLo i => i = slot n ∧ flagged r n
  | CHi i a => i = slot n ∧ flagged r n ∧ ∃ b, pushed r !! n = Some (a, b)
  | CLoadRc i buff => i = slot n ∧ pushed r !! n = Some buff ∧ (flagged r n ∨ last_reader r id n)
  | CFlagLast i buff cur_rc => i = slot n ∧ pushed r !! n = Some buff ∧ last_reader r id n ∧
      Z.ldiff (Z.land cur_rc rc_mask) id = 0
  | CCas i buff cur_rc => i = slot n ∧ pushed r !! n = Some buff ∧
      if decide (Z.ldiff (Z.land cur_rc rc_mask) id = 0)
      then rem r (slot n) = id ∧ f_ct_ r (slot n) = Z.of_nat n + 256
      else flagged r n
  | CCursor | CFlagDone _ _ => False
  | _ => True
  end.

Definition reader_ok (r : mring) (q : reader) (p : cpc) : Prop :=
  let n := length (got q) in
  got q = take n (pushed r) ∧ has_bit (cc_ r) (connected_ q) ∧ (n ≤ count_pushed r ≤ n + 256)%nat ∧
  cursor_ q = Z.of_nat n + Z.b2z (reading p) ∧
  (∀ i, (n ≤ i < count_pushed r)%nat → has_bit (rem r (slot i)) (connected_ q)) ∧
  (reading p = true → (n < count_pushed r)%nat) ∧
  cpc_ok r (connected_ q) n p.

Record mring_ok (r : mring) : Prop := {
  mo_ct : ct_ r = Z.of_nat (count_pushed r);
  mo_epoch : epoch_ r = 0;
  mo_cc : 0 ≤ cc_ r < 2 ^ 32;
  mo_rc j : rc_ r j = rem r j + 2 ^ 32 * ver r j;
  mo_rem j : Z.land (cc_ r) (rem r j) = rem r j;
  mo_ver j : 0 ≤ ver r j;
  mo_flags j n : f_ct_ r j = complement (Z.of_nat n) → Z.of_nat n < 2 ^ 32 → in_window r n ∧ slot n = j ∧ holds_value r n;
  mo_free n : (count_pushed r ≤ n < count_pushed r + 256)%nat → rem r (slot n) = 0 →
    f_ct_ r (slot n) = Z.of_nat n ∨ f_ct_ r (slot n) = 0 ∧ (n < 256)%nat }.

(** The bounds within which the counters are told apart. *)
Definition bounded (r : mring) : Prop :=
  Z.of_nat (count_pushed r) + 256 < 2 ^ 32 ∧ ∀ j, ver r j < 2 ^ 24.

Record mring_inv (k : config mring thread) : Prop := {
  mi_ring : mring_ok (shared k);
  mi_producer t p : pcs k !! t = Some (Producer p) → ppc_ok (shared k) p;
  mi_reader t q p : pcs k !! t = Some (Consumer q p) → reader_ok (shared k) q p;
  mi_owner t p c : pcs k !! t = Some (Producer p) → owns p = Some c → owned (shared k) c;
  mi_owners t t' p p' c c' : t ≠ t' → pcs k !! t = Some (Producer p) → pcs k !! t' = Some (Producer p') →
    owns p = Some c → owns p' = Some c' → index_of c ≠ index_of c';
  mi_room t p c t' q p' : pcs k !! t = Some (Producer p) → owns p = Some c → pcs k !! t' = Some (Consumer q p') →
    c < Z.of_nat (length (got q)) + 256 ∧ (reading p' = true → index_of c ≠ slot (length (got q)));
  mi_ids t t' q q' p p' : pcs k !! t = Some (Consumer q p) → pcs k !! t' = Some (Consumer q' p') →
    connected_ q = connected_ q' → t = t';
  mi_pending t q p n : pcs k !! t = Some (Consumer q p) → (length (got q) + Nat.b2n (reading p) ≤ n < count_pushed (shared k))%nat →
    flagged (shared k) n ∨ ∃ t' p', pcs k !! t' = Some (Producer p') ∧ owns p' = Some (Z.of_nat n) }.

(** ** Lemmas *)

(** *** The fields of a read counter *)

Lemma land_low x : Z.land x rc_mask = x `mod` 2 ^ 32.
Proof. change rc_mask with (Z.ones 32). by apply Z.land_ones. Qed.

Lemma rem_bound r j : 0 ≤ rem r j < 2 ^ 32.
Proof. unfold rem. rewrite land_low. apply Z.mod_pos_bound. lia. Qed.

Lemma ic_mask_bits m : 0 ≤ m < 64 → Z.testbit ic_mask m = bool_decide (m < 32 ∨ 56 ≤ m).
Proof.
  intros Hm. change ic_mask with (Z.lor (Z.ones 32) (Z.shiftl (Z.ones 8) 56)). rewrite Z.lor_spec, Z.shiftl_spec by lia.
  destruct (decide (m < 32)); [rewrite Z.ones_spec_low, bool_decide_true by lia; done|].
  rewrite (Z.ones_spec_high 32) by lia. destruct (decide (m < 56)).
  - rewrite Z.testbit_neg_r, bool_decide_false by lia. done.
  - rewrite Z.ones_spec_low, bool_decide_true by lia. done.
Qed.

Lemma bits_small x n m : 0 ≤ x < 2 ^ n → 0 ≤ n ≤ m → Z.testbit x m = false.
Proof.
  intros Hx Hm. destruct (decide (x = 0)) as [->|]; [apply Z.bits_0|]. apply Z.bits_above_log2; [lia|].
  assert (Z.log2 x < n); [apply Z.log2_lt_pow2; lia|lia].
Qed.

(** Adding one to the middle field, while the upper one is 0. *)
Lemma inc_rc_spec x : 0 ≤ x < 2 ^ 56 - 2 ^ 32 → inc_rc x = x + 2 ^ 32.
Proof.
  intros Hx. unfold inc_rc, ic_incr. change 0x100000000 with (2 ^ 32). rewrite u64_small by lia.
  apply Z.bits_inj'. intros m Hm. rewrite Z.lor_spec, Z.land_spec, Z.ldiff_spec.
  destruct (decide (56 ≤ m)); [rewrite (bits_small x 56), (bits_small (x + 2 ^ 32) 56) by lia; done|].
  rewrite ic_mask_bits by lia. case_bool_decide; [|by rewrite andb_false_r, andb_true_r].
  rewrite andb_true_r, andb_false_r, orb_false_r.
  rewrite <- (Z.mod_pow2_bits_low x 32), <- (Z.mod_pow2_bits_low (x + 2 ^ 32) 32) by lia. f_equal.
  replace (x + 2 ^ 32) with (x + 1 * 2 ^ 32) by lia. by rewrite Z_mod_plus_full.
Qed.

Lemma low_high x y : x `mod` 2 ^ 32 = y `mod` 2 ^ 32 → Z.shiftr x 32 = Z.shiftr y 32 → x = y.
Proof. intros Hl Hh. rewrite !Z.shiftr_div_pow2 in Hh by lia. rewrite (Z.div_mod x (2 ^ 32)), (Z.div_mod y (2 ^ 32)) by lia. congruence. Qed.

Lemma shiftr_small x : 0 ≤ x < 2 ^ 32 → Z.shiftr x 32 = 0.
Proof. intros. rewrite Z.shiftr_div_pow2 by lia. by apply Z.div_small. Qed.

Lemma shiftr_add l h : 0 ≤ l < 2 ^ 32 → Z.shiftr (l + 2 ^ 32 * h) 32 = h.
Proof. intros. rewrite Z.shiftr_div_pow2 by lia. rewrite Z.add_comm, Z.mul_comm, Z.div_add_l by lia. rewrite Z.div_small by lia. lia. Qed.

Lemma mod_add l h : 0 ≤ l < 2 ^ 32 → (l + 2 ^ 32 * h) `mod` 2 ^ 32 = l.
Proof. intros. rewrite Z.mul_comm, Z_mod_plus_full. by apply Z.mod_small. Qed.

(** The mark of a claim. *)
Lemma claim_mark l h cc :
  0 ≤ l < 2 ^ 32 → 0 ≤ h < 2 ^ 24 - 1 → 0 ≤ cc < 2 ^ 32 →
  Z.lor (inc_mask (Z.lor 0 (Z.land (l + 2 ^ 32 * h) ep_mask))) cc = cc + 2 ^ 32 * (h + 1).
Proof.
  intros Hl Hh Hcc. rewrite Z.lor_0_l. change ep_mask with (Z.ones 56). rewrite Z.land_ones, Z.mod_small by lia.
  unfold inc_mask. rewrite inc_rc_spec by lia. replace (l + 2 ^ 32 * h + 2 ^ 32) with (l + 2 ^ 32 * (h + 1)) by lia.
  change rc_mask with (Z.ones 32). apply low_high.
  - rewrite mod_add by done. rewrite <- !Z.land_ones by lia. rewrite Z.land_lor_distr_l, !Z.land_ones by lia.
    rewrite (Z.mod_small cc) by done. rewrite <- Z.land_ones by lia.
    replace (Z.land (Z.ldiff _ (Z.ones 32)) (Z.ones 32)) with 0; [done|].
    symmetry. apply Z.bits_inj'. intros m Hm. rewrite Z.land_spec, Z.ldiff_spec, Z.bits_0. by destruct (Z.testbit (Z.ones 32) m); rewrite ?andb_false_r.
  - rewrite Z.shiftr_lor, Z.shiftr_ldiff, (shiftr_small cc), !shiftr_add by done.
    change (Z.shiftr (Z.ones 32) 32) with 0. by rewrite Z.ldiff_0_r, Z.lor_0_r.
Qed.

(** The mark after a receiver has read. *)
Lemma read_mark l h id :
  0 ≤ l < 2 ^ 32 → 0 ≤ h < 2 ^ 24 - 1 → 0 ≤ id < 2 ^ 32 →
  Z.ldiff (inc_rc (l + 2 ^ 32 * h)) id = Z.ldiff l id + 2 ^ 32 * (h + 1).
Proof.
  intros Hl Hh Hid. rewrite inc_rc_spec by lia. replace (l + 2 ^ 32 * h + 2 ^ 32) with (l + 2 ^ 32 * (h + 1)) by lia.
  assert (0 ≤ Z.ldiff l id < 2 ^ 32) as Hb.
  { split; [apply Z.ldiff_nonneg; lia|]. apply ConnHead.bits_bound; [|apply Z.ldiff_nonneg; lia].
    intros m Hm. rewrite Z.ldiff_spec, (ConnHead.high_bits l) by lia. done. }
  apply low_high.
  - rewrite mod_add by done. rewrite <- Z.land_ones by lia. rewrite <- (mod_add l (h + 1)) at 2 by done.
    rewrite <- Z.land_ones by lia. apply Z.bits_inj'. intros m Hm. rewrite !Z.land_spec, !Z.ldiff_spec, !Z.land_spec.
    by destruct (Z.testbit (Z.ones 32) m); rewrite ?andb_true_r, ?andb_false_r.
  - rewrite Z.shiftr_ldiff, !shiftr_add, (shiftr_small id) by done. by rewrite Z.ldiff_0_r.
Qed.

(** *** The elements *)

Lemma multi_slot_inj n m : slot n = slot m → (n < m + 256)%nat → (m < n + 256)%nat → n = m.
Proof. intros E Hn Hm. apply index_inj in E; lia. Qed.

Lemma slot_lap n : slot (n + 256) = slot n.
Proof.
  unfold slot, index_of, u8. replace (Z.of_nat (n + 256)) with (Z.of_nat n + 1 * 2 ^ 8) by lia. apply Z_mod_plus_full.
Qed.

Lemma complement_large n : Z.of_nat n < 2 ^ 32 → 2 ^ 32 ≤ complement (Z.of_nat n).
Proof. unfold complement. lia. Qed.

Lemma has_bit_0 id : ¬ has_bit 0 id.
Proof. intros (b & _ & _ & Hb). by rewrite Z.bits_0 in Hb. Qed.

Lemma only_bit r id : has_bit r id → Z.ldiff r id = 0 → r = id.
Proof.
  intros (b & Hb & -> & Hbit) Hz. apply Z.bits_inj'. intros k Hk. rewrite ConnHead.testbit_pow2 by lia.
  apply (f_equal (λ x, Z.testbit x k)) in Hz. rewrite Z.ldiff_spec, Z.bits_0, ConnHead.testbit_pow2 in Hz by lia.
  case_bool_decide; [by subst|]. by rewrite andb_true_r in Hz.
Qed.

Lemma has_bit_only id id' : has_bit id' id' → has_bit id' id → id = id'.
Proof.
  intros (b & Hb & E & _) (b' & Hb' & -> & Hbit). rewrite E in Hbit |- *. f_equal.
  rewrite ConnHead.testbit_pow2 in Hbit by lia. by apply bool_decide_eq_true in Hbit.
Qed.

Lemma high_part r j : mring_ok r → rc_ r j / 2 ^ 32 = ver r j.
Proof.
  intros H. rewrite (mo_rc _ H). pose proof (rem_bound r j). rewrite <- Z.shiftr_div_pow2 by lia. by apply shiftr_add.
Qed.

Lemma snapshot_now r j : mring_ok r → snapshot r j (rc_ r j).
Proof. intros H. split; [rewrite high_part by done; lia|done]. Qed.

(** A change of a read counter invalidates what has been loaded of it. *)
Lemma snapshot_set_rc r i x j cur :
  x / 2 ^ 32 = ver r i + 1 → snapshot r j cur →
  snapshot (set_rc i x r) j cur ∧ (cur = rc_ (set_rc i x r) j → cur = rc_ r j).
Proof.
  intros Hx [Hle Heq]. unfold snapshot. cbn. destruct (decide (j = i)) as [->|]; [rewrite !write_eq|by rewrite !write_ne].
  split; [split; lia|]. intros ->. lia.
Qed.

Lemma ppc_ok_frame s s' p :
  cc_ s' = cc_ s → pushed s' = pushed s →
  (∀ j cur, snapshot s j cur → snapshot s' j cur ∧ (cur = rc_ s' j → cur = rc_ s j)) →
  (∀ c, owns p = Some c → lo s' (index_of c) = lo s (index_of c) ∧ hi s' (index_of c) = hi s (index_of c)) →
  ppc_ok s p → ppc_ok s' p.
Proof.
  intros Hcc Hpu Hsnap Hd. destruct p; cbn in *; unfold in_window, count_pushed, holds_value; rewrite ?Hcc, ?Hpu; try done.
  - intros (-> & -> & -> & Hc & n & -> & Hn & Hs & Hr). split_and!; try done. exists n. split_and!; try done. by apply Hsnap.
  - intros (-> & -> & -> & Hc & n & -> & Hs & Hr & Hnow). split_and!; try done. exists n. split_and!; try done; [by apply Hsnap|].
    intros E. by apply Hnow, Hsnap.
  - intros (n & -> & Hw & Hv & Hlo). exists n. destruct (Hd _ eq_refl) as [El _]. fold (slot n) in El. by rewrite El.
  - intros (n & -> & Hw & Hv). exists n. destruct (Hd _ eq_refl) as [El Eh]. fold (slot n) in El, Eh. by rewrite El, Eh.
Qed.

Lemma multi_reader_ok_frame s s' q p :
  cc_ s' = cc_ s → pushed s' = pushed s →
  (∀ i, (length (got q) ≤ i < count_pushed s)%nat → has_bit (rem s (slot i)) (connected_ q) → has_bit (rem s' (slot i)) (connected_ q)) →
  (reading p = true → f_ct_ s' (slot (length (got q))) = f_ct_ s (slot (length (got q))) ∧
     (rem s (slot (length (got q))) = connected_ q → rem s' (slot (length (got q))) = connected_ q)) →
  reader_ok s q p → reader_ok s' q p.
Proof.
  intros Hcc Hpu Hk Hf (Hgot & Hbit & Hn & Hcur & Hkept & Hlt & Hpc). unfold reader_ok, count_pushed in *.
  rewrite Hcc, Hpu. split_and!; try done; [lia..|by auto|].
  destruct p; cbn [cpc_ok reading] in *; unfold last_reader, flagged in *; try done;
    destruct (Hf eq_refl) as [-> Hr]; rewrite ?Hpu; [done|done|intuition|intuition|].
  destruct Hpc as (? & ? & Hif). split; [done|]. split; [done|]. case_decide; [|done]. intuition.
Qed.

(** A step of a producer. *)
Lemma multi_inv_producer s m t p s' p' :
  mring_inv {| shared := s; pcs := m |} → m !! t = Some (Producer p) →
  mring_ok s' → ppc_ok s' p' →
  (∀ t2 p2, t2 ≠ t → m !! t2 = Some (Producer p2) → ppc_ok s' p2) →
  (∀ t2 q p2, m !! t2 = Some (Consumer q p2) → reader_ok s' q p2) →
  (∀ t2 p2 c2, t2 ≠ t → m !! t2 = Some (Producer p2) → owns p2 = Some c2 → owned s' c2) →
  (∀ c, owns p' = Some c → owned s' c ∧
     (∀ t2 p2 c2, t2 ≠ t → m !! t2 = Some (Producer p2) → owns p2 = Some c2 → index_of c ≠ index_of c2) ∧
     (∀ t2 q p2, m !! t2 = Some (Consumer q p2) →
        c < Z.of_nat (length (got q)) + 256 ∧ (reading p2 = true → index_of c ≠ slot (length (got q))))) →
  (∀ t2 q p2 n, m !! t2 = Some (Consumer q p2) → (length (got q) + Nat.b2n (reading p2) ≤ n < count_pushed s')%nat →
     flagged s' n ∨ owns p' = Some (Z.of_nat n) ∨
     ∃ t3 p3, t3 ≠ t ∧ m !! t3 = Some (Producer p3) ∧ owns p3 = Some (Z.of_nat n)) →
  mring_inv {| shared := s'; pcs := <[t := Producer p']> m |}.
Proof.
  intros [_ HP HR HO HOO HRm HI HPd] Ht Hok Hp' Hps Hrs Hos Hown Hpend. cbn [shared pcs] in *. split; cbn [shared pcs].
  - done.
  - intros t2 p2 H2. apply lookup_insert_Some in H2 as [[_ [= <-]]|[? H2]]; [done|by apply (Hps t2)].
  - intros t2 q p2 H2. apply lookup_insert_Some in H2 as [[_ ?]|[? H2]]; [done|by apply (Hrs t2)].
  - intros t2 p2 c H2 Hc. apply lookup_insert_Some in H2 as [[_ [= <-]]|[? H2]]; [by apply Hown|by apply (Hos t2 p2)].
  - intros t2 t3 p2 p3 c2 c3 Hne H2 H3 Hc2 Hc3.
    apply lookup_insert_Some in H2 as [[<- [= <-]]|[? H2]]; apply lookup_insert_Some in H3 as [[<- [= <-]]|[? H3]]; [done| | |].
    + destruct (Hown c2 Hc2) as (_ & Hd & _). by apply (Hd t3 p3).
    + destruct (Hown c3 Hc3) as (_ & Hd & _). apply not_eq_sym. by apply (Hd t2 p2).
    + by apply (HOO t2 t3 p2 p3).
  - intros t2 p2 c t3 q p3 H2 Hc H3. apply lookup_insert_Some in H3 as [[_ ?]|[? H3]]; [done|].
    apply lookup_insert_Some in H2 as [[_ [= <-]]|[? H2]]; [|by eapply HRm].
    destruct (Hown c Hc) as (_ & _ & Hd). by apply (Hd t3).
  - intros t2 t3 q2 q3 p2 p3 H2 H3. apply lookup_insert_Some in H2 as [[_ ?]|[? H2]]; [done|].
    apply lookup_insert_Some in H3 as [[_ ?]|[? H3]]; [done|]. by eapply HI.
  - intros t2 q p2 n H2 Hn. apply lookup_insert_Some in H2 as [[_ ?]|[? H2]]; [done|].
    destruct (Hpend t2 q p2 n H2 Hn) as [?|[?|(t3 & p3 & Hne & H3 & Hc)]]; [by left|right..].
    + exists t, p'. by rewrite lookup_insert_eq.
    + exists t3, p3. by rewrite lookup_insert_ne.
Qed.

(** Who waits for a value waits for the same producer, unless that is the one that moves. *)
Lemma pending_others s m t p t2 q p2 n :
  mring_inv {| shared := s; pcs := m |} → m !! t = Some (Producer p) → m !! t2 = Some (Consumer q p2) →
  (length (got q) + Nat.b2n (reading p2) ≤ n < count_pushed s)%nat →
  flagged s n ∨ owns p = Some (Z.of_nat n) ∨
  ∃ t3 p3, t3 ≠ t ∧ m !! t3 = Some (Producer p3) ∧ owns p3 = Some (Z.of_nat n).
Proof.
  intros Hinv Ht H2 Hn. destruct (mi_pending _ Hinv t2 q p2 n H2 Hn) as [?|(t3 & p3 & H3 & Hc)]; [by left|right].
  cbn [pcs] in *. destruct (decide (t3 = t)) as [->|]; [left; congruence|right; by exists t3, p3].
Qed.

(** Steps that change nothing shared; a claim may be kept, or given up before [ct_] moves. *)
Lemma multi_inv_producer_local s m t p p' :
  mring_inv {| shared := s; pcs := m |} → m !! t = Some (Producer p) → ppc_ok s p' →
  (owns p' = owns p ∨ owns p' = None ∧ (owns p = None ∨ owns p = Some (Z.of_nat (count_pushed s)))) →
  mring_inv {| shared := s; pcs := <[t := Producer p']> m |}.
Proof.
  intros Hinv Ht Hp Hown. pose proof Hinv as [HO HP HR HOw HOO HRm _ _]. cbn [shared pcs] in *.
  apply (multi_inv_producer s m t p); try done.
  - intros t2 p2 _ H2. by apply (HP t2).
  - intros t2 p2 c2 _ H2. by apply (HOw t2).
  - intros c Hc. assert (owns p = Some c) as Hc' by (destruct Hown as [<-|[E _]]; congruence). split_and!.
    + by apply (HOw t p).
    + intros t2 p2 c2 Hne H2 Hc2. by apply (HOO t t2 p p2).
    + intros t2 q p2 H2. by apply (HRm t p c t2).
  - intros t2 q p2 n H2 Hn. destruct (pending_others s m t p t2 q p2 n Hinv Ht H2 Hn) as [?|[Hc|?]]; [auto| |auto].
    right; left. destruct Hown as [->|[_ [E|E]]]; [done|congruence|]. rewrite E in Hc. injection Hc as Hc. lia.
Qed.

(** A receiver that has not read the element an owner claims would be marked in it. *)
Lemma unmarked_reader s q p n :
  reader_ok s q p → rem s (slot n) = 0 → n = count_pushed s →
  (n < length (got q) + 256)%nat ∧ (reading p = true → slot n ≠ slot (length (got q))) ∧
  ∀ i, (length (got q) ≤ i < count_pushed s)%nat → slot i ≠ slot n.
Proof.
  intros (_ & _ & Hn & _ & Hkept & Hlt & _) Hr ->.
  assert (∀ i, (length (got q) ≤ i < count_pushed s)%nat → slot i ≠ slot (count_pushed s)) as Hne.
  { intros i Hi E. specialize (Hkept i Hi). rewrite E, Hr in Hkept. by apply has_bit_0 in Hkept. }
  split_and!; [| |done].
  - destruct (decide (count_pushed s = length (got q) + 256)%nat) as [E|]; [|lia]. exfalso.
    apply (Hne (length (got q))); [lia|]. by rewrite E, slot_lap.
  - intros Hp E. apply (Hne (length (got q))); [|done]. specialize (Hlt Hp). lia.
Qed.

(** Element [slot N] is claimed. *)
Lemma multi_inv_claim s m t v cc n cur_rc :
  let p := PCas false v 0 cc (Z.of_nat n) cur_rc in
  let s' := set_rc (slot n) (cc + 2 ^ 32 * (ver s (slot n) + 1)) s in
  mring_inv {| shared := s; pcs := m |} → m !! t = Some (Producer p) →
  n = count_pushed s → rem s (slot n) = 0 → cc = cc_ s → cc ≠ 0 → Z.of_nat n + 256 < 2 ^ 32 →
  mring_inv {| shared := s'; pcs := <[t := Producer (PCasEpoch false v 0 (Z.of_nat n))]> m |}.
Proof.
  intros p s' Hinv Ht Hn Hr Hcc Hne Hb. pose proof Hinv as [HO HP HR HOw HOO HRm _ _]. cbn [shared pcs] in *.
  pose proof HO as [HO1 HO2 HO3 HO4 HO5 HO6 HO7 HO8].
  assert (rem s' (slot n) = cc) as Hr'.
  { unfold rem, s'. cbn. rewrite write_eq, land_low, mod_add; [done|by rewrite Hcc]. }
  assert (∀ j, j ≠ slot n → rem s' j = rem s j) as Hr2 by (intros j Hj; unfold rem, s'; cbn; by rewrite write_ne).
  assert (∀ t2 p2 c2, t2 ≠ t → m !! t2 = Some (Producer p2) → owns p2 = Some c2 → index_of c2 ≠ slot n) as Hslots.
  { intros t2 p2 c2 _ H2 Hc2 E. destruct (HOw t2 p2 c2 H2 Hc2) as (Hrem & ? & _). rewrite E in Hrem. congruence. }
  assert (∀ j cur, snapshot s j cur → snapshot s' j cur ∧ (cur = rc_ s' j → cur = rc_ s j)) as Hsnap.
  { intros j cur. apply snapshot_set_rc. rewrite <- Z.shiftr_div_pow2 by lia. apply shiftr_add. by rewrite Hcc. }
  apply (multi_inv_producer s m t p); try done.
  - split; try done.
    + intros j. destruct (decide (j = slot n)) as [->|Hj]; [rewrite Hr'; unfold s'; cbn; by rewrite !write_eq|].
      rewrite Hr2 by done. unfold s'. cbn. rewrite !write_ne by done. apply HO4.
    + intros j. destruct (decide (j = slot n)) as [->|Hj]; [rewrite Hr', Hcc; apply Z.land_diag|by rewrite Hr2].
    + intros j. unfold s'. cbn. unfold write. case_decide; [specialize (HO6 (slot n))|specialize (HO6 j)]; lia.
    + intros n' Hn'. change (count_pushed s') with (count_pushed s) in Hn'. intros Hz.
      destruct (decide (slot n' = slot n)) as [E|E]; [congruence|]. apply HO8; [done|]. by rewrite Hr2 in Hz.
  - cbn. rewrite Hn. done.
  - intros t2 p2 _ H2. by apply (ppc_ok_frame s); [..|apply (HP t2)].
  - intros t2 q p2 H2. destruct (unmarked_reader s q p2 n (HR t2 q p2 H2) Hr Hn) as (_ & Hrd & Hkept).
    apply (multi_reader_ok_frame s); [done|done| | |by apply (HR t2)].
    + intros i Hi. by rewrite Hr2 by (by apply Hkept).
    + intros Hp. split; [done|]. by rewrite Hr2 by (by apply not_eq_sym, Hrd).
  - intros t2 p2 c2 Hne2 H2 Hc2. destruct (HOw t2 p2 c2 H2 Hc2) as (Hrem & Hrest). split; [|done].
    by rewrite Hr2 by (by apply (Hslots t2 p2)).
  - intros c [= <-]. fold (slot n). split_and!.
    + unfold owned. fold (slot n). rewrite Hr'. change (cc_ s') with (cc_ s). change (f_ct_ s') with (f_ct_ s).
      split; [done|]. split; [by rewrite <- Hcc|]. split; [|lia].
      destruct (HO8 n ltac:(lia) Hr) as [->|[-> _]]; lia.
    + intros t2 p2 c2 Hne2 H2 Hc2. by apply not_eq_sym, (Hslots t2 p2).
    + intros t2 q p2 H2. destruct (unmarked_reader s q p2 n (HR t2 q p2 H2) Hr Hn) as (? & Hrd & _). split; [lia|done].
  - intros t2 q p2 i H2 Hi. destruct (pending_others s m t p t2 q p2 i Hinv Ht H2 Hi) as [?|[[=]|?]]; auto.
Qed.

(** [ct_] moves over the claimed element. *)
Lemma inv_store s m t v :
  let N := count_pushed s in
  let s' := log_push v (set_ct (Z.of_nat (S N)) s) in
  mring_inv {| shared := s; pcs := m |} → m !! t = Some (Producer (PStoreCt v (Z.of_nat N))) →
  Z.of_nat N + 256 < 2 ^ 32 →
  mring_inv {| shared := s'; pcs := <[t := Producer (PLo v (Z.of_nat N))]> m |}.
Proof.
  intros N s' Hinv Ht Hb. pose proof Hinv as [HO HP HR HOw HOO HRm _ _]. cbn [shared pcs] in *.
  pose proof HO as [HO1 HO2 HO3 HO4 HO5 HO6 HO7 HO8].
  destruct (HOw t _ _ Ht eq_refl) as (Hrem & Hcc & Hf & _). fold (slot N) in Hrem, Hf.
  assert (count_pushed s' = S N) as HN by (unfold count_pushed, s'; cbn; rewrite length_app; cbn; unfold N, count_pushed; lia).
  assert (pushed s' = pushed s ++ [v]) as Hpu by done.
  assert (∀ n w, pushed s !! n = Some w → pushed s' !! n = Some w) as Hval by (intros; by apply lookup_app_l_Some).
  assert (∀ n, in_window s n → slot n ≠ slot N → in_window s' n) as Hwin.
  { intros n Hn E. unfold in_window in *. rewrite HN. fold N in Hn. assert (N ≠ n + 256)%nat; [|lia].
    intros E'. apply E. by rewrite E', slot_lap. }
  apply (multi_inv_producer s m t (PStoreCt v (Z.of_nat N))); try done.
  - split; try done.
    + rewrite HN. done.
    + intros j n E Hn. change (f_ct_ s' j) with (f_ct_ s j) in E.
      destruct (HO7 j n E Hn) as (Hw & Hj & Hv). split; [|split; [done|by apply Hval]].
      apply Hwin; [done|]. rewrite Hj. intros ->. rewrite E in Hf. pose proof (complement_large n Hn). lia.
    + intros n Hn Hz. rewrite HN in Hn. destruct (decide (n = N + 256)%nat) as [->|].
      * rewrite slot_lap in Hz. change (rem s' (slot N)) with (rem s (slot N)) in Hz. congruence.
      * apply HO8; [fold N; lia|done].
  - exists N. split; [done|]. split; [unfold in_window; rewrite HN; lia|].
    rewrite Hpu. unfold N, count_pushed. by rewrite list_lookup_middle.
  - intros t2 p2 Hne H2. pose proof (HP t2 p2 H2) as Hp.
    assert (∀ c, owns p2 = Some c → index_of c ≠ slot N) as Hd by (intros c Hc; by apply (HOO t2 t p2 _ c (Z.of_nat N) Hne H2 Ht)).
    destruct p2; cbn in *; rewrite ?HN; try done.
    + destruct Hp as (-> & -> & -> & ? & n & -> & ?). split_and!; try done. exists n. split; [done|]. unfold N. lia.
    + destruct Hp as (-> & -> & -> & ? & n & -> & Hn & Hs & Hz). split_and!; try done. exists n. split_and!; [done|unfold N; lia|exact Hs|done].
    + destruct Hp as (-> & -> & -> & ? & n & -> & Hs & Hz & Hnow). split_and!; try done. exists n. split_and!; try done.
      intros E. change (rc_ s') with (rc_ s) in E. specialize (Hnow E). fold N in Hnow. exfalso. rewrite Hnow in E.
      unfold rem in Hrem. rewrite <- E in Hrem. congruence.
    + destruct Hp as (-> & -> & ->). by destruct (Hd _ eq_refl).
    + subst. by destruct (Hd _ eq_refl).
    + destruct Hp as (n & -> & Hw & Hv). exists n. split_and!; try done; [|by apply Hval]. by apply Hwin; [|apply (Hd _ eq_refl)].
    + destruct Hp as (n & -> & Hw & Hv & ?). exists n. split_and!; try done; [|by apply Hval]. by apply Hwin; [|apply (Hd _ eq_refl)].
    + destruct Hp as (n & -> & Hw & Hv). exists n. split_and!; try done; [|by apply Hval]. by apply Hwin; [|apply (Hd _ eq_refl)].
  - intros t2 q p2 H2. destruct (HR t2 q p2 H2) as (Hgot & Hbit & Hn & Hcur & Hkept & Hlt & Hpc).
    destruct (HRm t _ _ t2 q p2 Ht eq_refl H2) as [Hroom _]. fold N in Hn.
    unfold reader_ok. rewrite HN, Hpu. split_and!; try done; [|lia|lia| | |].
    + rewrite take_app_le; [done|]. unfold N, count_pushed in Hn. lia.
    + intros i Hi. change (rem s' (slot i)) with (rem s (slot i)). destruct (decide (i = N)) as [->|]; [by rewrite Hrem|].
      apply Hkept. fold N. lia.
    + intros Hp. specialize (Hlt Hp). fold N in Hlt. lia.
    + destruct p2; cbn in *; naive_solver.
  - intros t2 p2 c2 _ H2 Hc2. apply (HOw t2 p2 c2 H2 Hc2).
  - intros c [= <-]. split_and!.
    + apply (HOw t _ _ Ht eq_refl).
    + intros t2 p2 c2 Hne H2 Hc2. by apply (HOO t t2 (PStoreCt v (Z.of_nat N)) p2); [apply not_eq_sym|..].
    + intros t2 q p2 H2. by apply (HRm t (PStoreCt v (Z.of_nat N)) (Z.of_nat N) t2).
  - intros t2 q p2 n H2 Hn. rewrite HN in Hn. destruct (decide (n = N)) as [->|]; [by right; left|].
    destruct (pending_others s m t _ t2 q p2 n Hinv Ht H2 ltac:(fold N; lia)) as [?|[[= E]|?]]; [by left|lia|auto].
Qed.

(** The owner writes into its element. *)
Lemma multi_inv_write s m t p p' c s' :
  mring_inv {| shared := s; pcs := m |} → m !! t = Some (Producer p) → owns p = Some c → owns p' = Some c →
  ct_ s' = ct_ s → epoch_ s' = epoch_ s → cc_ s' = cc_ s → rc_ s' = rc_ s → f_ct_ s' = f_ct_ s →
  pushed s' = pushed s → ver s' = ver s →
  (∀ i, i ≠ index_of c → lo s' i = lo s i ∧ hi s' i = hi s i) → ppc_ok s' p' →
  mring_inv {| shared := s'; pcs := <[t := Producer p']> m |}.
Proof.
  intros Hinv Ht Hc Hc' Ect Eep Ecc Erc Ef Epu Ever Hd Hp'. pose proof Hinv as [HO HP HR HOw HOO HRm _ _]. cbn [shared pcs] in *.
  pose proof HO as [HO1 HO2 HO3 HO4 HO5 HO6 HO7 HO8]. pose proof (HOw t p c Ht Hc) as (Hrem & Hcc & Hf & _).
  assert (∀ j, rem s' j = rem s j) as Hr by (intros; unfold rem; by rewrite Erc).
  assert (count_pushed s' = count_pushed s) as EN by (unfold count_pushed; by rewrite Epu).
  apply (multi_inv_producer s m t p); try done.
  - split; rewrite ?EN, ?Ect, ?Eep, ?Ecc, ?Erc, ?Ever, ?Ef; try done.
    + intros j. by rewrite Hr.
    + intros j. by rewrite Hr.
    + intros j n E Hn. destruct (HO7 j n E Hn) as (Hw & Hj & Hv). unfold in_window, holds_value. rewrite EN, Epu. split; [done|]. split; [done|].
      destruct (Hd (slot n)) as [-> ->]; [|done]. rewrite Hj. intros ->. pose proof (complement_large n Hn). lia.
    + intros n Hn. rewrite Hr. by apply HO8.
  - intros t2 p2 Hne H2. apply (ppc_ok_frame s); [done|done| | |by apply (HP t2)].
    + intros j cur. unfold snapshot. rewrite Erc, Ever. done.
    + intros c2 Hc2. apply Hd. by apply (HOO t2 t p2 p).
  - intros t2 q p2 H2. apply (multi_reader_ok_frame s); [done|done| | |by apply (HR t2)].
    + intros i _. by rewrite Hr.
    + intros _. by rewrite Ef, Hr.
  - intros t2 p2 c2 _ H2 Hc2. unfold owned. rewrite Hr, Ecc, Ef. by apply (HOw t2 p2).
  - intros c2 Hc2. assert (c2 = c) as -> by congruence. split_and!.
    + unfold owned. rewrite Hr, Ecc, Ef. by apply (HOw t p).
    + intros t2 p2 c2 Hne H2 Hc3. by apply (HOO t t2 p p2); [apply not_eq_sym|..].
    + intros t2 q p2 H2. by apply (HRm t p c t2).
  - intros t2 q p2 n H2 Hn. rewrite EN in Hn. unfold flagged. rewrite Ef, Hc', <- Hc.
    by apply (pending_others s m t p t2 q p2 n Hinv Ht H2).
Qed.

(** The commit flag is raised. *)
Lemma inv_commit s m t n :
  let s' := set_flag (slot n) (complement (Z.of_nat n)) s in
  mring_inv {| shared := s; pcs := m |} → m !! t = Some (Producer (PFlag (Z.of_nat n))) →
  in_window s n → holds_value s n → Z.of_nat (count_pushed s) + 256 < 2 ^ 32 →
  mring_inv {| shared := s'; pcs := <[t := Producer (Pushed true)]> m |}.
Proof.
  intros s' Hinv Ht Hw Hv Hb. pose proof Hinv as [HO HP HR HOw HOO HRm _ _]. cbn [shared pcs] in *.
  pose proof HO as [HO1 HO2 HO3 HO4 HO5 HO6 HO7 HO8]. pose proof (HOw t _ _ Ht eq_refl) as (Hrem & Hcc & Hf & _).
  fold (slot n) in Hrem, Hf.
  assert (∀ j, j ≠ slot n → f_ct_ s' j = f_ct_ s j) as Hfl by (intros; unfold s'; cbn; by rewrite write_ne).
  assert (f_ct_ s' (slot n) = complement (Z.of_nat n)) as Hfn by (unfold s'; cbn; by rewrite write_eq).
  apply (multi_inv_producer s m t (PFlag (Z.of_nat n))); try done.
  - split; try done.
    + intros j i E Hi. destruct (decide (j = slot n)) as [->|Hj].
      * rewrite Hfn in E. apply complement_inj in E. assert (i = n) as -> by lia. done.
      * apply HO7; [by rewrite <- Hfl|done].
    + intros i Hi Hz. change (rem s' (slot i)) with (rem s (slot i)) in Hz.
      rewrite Hfl; [by apply HO8|]. congruence.
  - intros t2 p2 _ H2. by apply (ppc_ok_frame s); [..|apply (HP t2)].
  - intros t2 q p2 H2. apply (multi_reader_ok_frame s); [done|done|done| |by apply (HR t2)].
    intros Hp. split; [|done]. apply Hfl. destruct (HRm t _ _ t2 q p2 Ht eq_refl H2) as [_ Hd]. by apply not_eq_sym, Hd.
  - intros t2 p2 c2 Hne H2 Hc2. pose proof (HOw t2 p2 c2 H2 Hc2) as Ho. unfold owned in *. rewrite Hfl; [done|].
    by apply (HOO t2 t p2 (PFlag (Z.of_nat n))).
  - intros t2 q p2 i H2 Hi. destruct (decide (i = n)) as [->|]; [by left|].
    destruct (pending_others s m t _ t2 q p2 i Hinv Ht H2 Hi) as [Hfi|[[= ?]|?]]; [left|lia|auto].
    unfold flagged in *. rewrite Hfl; [done|]. intros E. rewrite E in Hfi.
    assert (Z.of_nat i < 2 ^ 32) as Hi' by (change (count_pushed s') with (count_pushed s) in Hi; lia).
    pose proof (complement_large i Hi'). lia.
Qed.

(** The next index, from [ct_] on, that has the element of [n]. *)
Lemma next_index n N : (n ≤ N)%nat → ∃ n', (N ≤ n' < N + 256)%nat ∧ slot n' = slot n ∧ (n ≤ n')%nat.
Proof.
  intros Hn. exists (n + 256 * ((N - n + 255) / 256))%nat. pose proof (Nat.div_mod_eq (N - n + 255) 256) as E.
  pose proof (Nat.mod_upper_bound (N - n + 255) 256 ltac:(lia)) as Hr.
  set (k := ((N - n + 255) / 256)%nat) in *. set (r := ((N - n + 255) mod 256)%nat) in *. clearbody k r.
  split; [lia|]. split; [|lia]. clear. induction k as [|k IH]; [f_equal; lia|].
  replace (n + 256 * S k)%nat with (n + 256 * k + 256)%nat by lia. by rewrite slot_lap.
Qed.

(** An element that is read by all and free for index [n] is the next one. *)
Lemma free_index s n :
  mring_ok s → (n ≤ count_pushed s)%nat → rem s (slot n) = 0 →
  f_ct_ s (slot n) = Z.of_nat n ∨ f_ct_ s (slot n) = 0 → n = count_pushed s.
Proof.
  intros HO Hn Hr Hf. destruct (next_index n (count_pushed s) Hn) as (n' & Hn' & E & Hle).
  assert (n' = n) as ->; [|lia]. destruct (mo_free _ HO n' Hn') as [Hf'|[Hf' Hs]]; [by rewrite E| |];
    rewrite E in Hf'; [|by apply multi_slot_inj; lia]. lia.
Qed.

Lemma epoch_zero s j : mring_ok s → ver s j < 2 ^ 24 → Z.ldiff (rc_ s j) ep_mask = 0.
Proof.
  intros HO Hv. change ep_mask with (Z.ones 56). rewrite Z.ldiff_ones_r by lia.
  rewrite Z.shiftr_div_pow2, Z.div_small by (rewrite ?(mo_rc _ HO); pose proof (rem_bound s j); pose proof (mo_ver _ HO j); lia).
  apply Z.shiftl_0_l.
Qed.

Lemma multi_producer_step s m t p c :
  mring_inv {| shared := s; pcs := m |} → m !! t = Some (Producer p) → bounded s →
  let r := push_step (gentle c) p s in bounded r.2 →
  mring_inv {| shared := r.2; pcs := <[t := Producer r.1]> m |}.
Proof.
  intros Hinv Ht [Hb Hver] r Hb'. pose proof Hinv as [HO HP _ _ _ _ _ _]. cbn [shared pcs] in *. pose proof (HP t p Ht) as Hp.
  pose proof HO as [HO1 HO2 HO3 HO4 HO5 HO6 _ _]. revert Hb'. unfold r. clear r.
  destruct p as [|f v|f v e|f v e cc|f v e cc ct|f v e cc ct rc|f v e cc ct rc|f v e ct|v|v e|v e cc|v e cc ct|v e ct rc|v e cc ct rc|v e ct|v ct|v ct|v ct|ct|ret];
    cbn [push_step ppc_ok fst snd] in *; try done; intros Hb'.
  - destruct c; eapply multi_inv_producer_local; try done; by left.
  - subst f. eapply multi_inv_producer_local; [done..| |by left]. by rewrite HO2.
  - destruct Hp as [-> ->]. case_decide; (eapply multi_inv_producer_local; [done..| |by left]); done.
  - destruct Hp as (-> & -> & -> & Hcc). eapply multi_inv_producer_local; [done..| |by left]. split_and!; try done. by exists (count_pushed s).
  - destruct Hp as (-> & -> & -> & Hcc & n & -> & Hn). fold (slot n). case_decide as H1; [eapply multi_inv_producer_local; [done..|by left]|].
    case_decide as H2; (eapply multi_inv_producer_local; [done..| |by left]).
    + split_and!; try done. exists n. split_and!; try done. by apply snapshot_now.
    + exfalso. apply H1. split; [|by apply epoch_zero]. change (Z.land (cc_ s) (rem s (slot n)) ≠ 0). by rewrite HO5.
  - destruct Hp as (-> & -> & -> & Hcc & n & -> & Hn & Hs & Hz). fold (slot n).
    case_decide as H1; (eapply multi_inv_producer_local; [done..| |by left]); [done|].
    split_and!; try done. exists n. split_and!; try done. intros ->. apply free_index; [done..|]. lia.
  - destruct Hp as (-> & -> & -> & Hcc & n & -> & Hs & Hz & Hnow). fold (slot n) in *.
    case_decide as H1; [|eapply multi_inv_producer_local; [done..|by left]]. destruct H1 as [H1 _]. cbn [fst snd] in *.
    assert (rem s (slot n) = 0) as Hr by (unfold rem; by rewrite H1).
    assert (ver s (slot n) < 2 ^ 24 - 1) as Hv.
    { destruct Hb' as [_ Hv]. specialize (Hv (slot n)). cbn in Hv. rewrite write_eq in Hv. lia. }
    subst rc. specialize (HO6 (slot n)). specialize (Hnow eq_refl).
    replace (Z.lor (inc_mask (Z.lor 0 (Z.land (rc_ s (slot n)) ep_mask))) (cc_ s)) with (cc_ s + 2 ^ 32 * (ver s (slot n) + 1))
      by (rewrite (HO4 (slot n)), Hr; symmetry; apply claim_mark; lia).
    eapply multi_inv_claim; try done. by rewrite Hnow.
  - destruct Hp as (-> & -> & ->). case_decide; (eapply multi_inv_producer_local; [done..| |]); [done|by left|by rewrite HO2|].
    right. split; [done|by right].
  - subst ct. rewrite u32_small by lia. replace (Z.of_nat (count_pushed s) + 1) with (Z.of_nat (S (count_pushed s))) by lia.
    by apply inv_store.
  - destruct Hp as (n & -> & Hw & Hv). eapply multi_inv_write; [done..| |].
    + intros i Hi. cbn. by rewrite write_ne.
    + exists n. split_and!; try apply Hw; try done. cbn. by rewrite write_eq.
  - destruct Hp as (n & -> & Hw & Hv & Hlo). eapply multi_inv_write; [done..| |].
    + intros i Hi. cbn. by rewrite write_ne.
    + exists n. split_and!; try apply Hw; try done. unfold holds_value. cbn. rewrite Hlo, write_eq, Hv. by destruct v.
  - destruct Hp as (n & -> & Hw & Hv). by apply inv_commit.
  - eapply multi_inv_producer_local; [done..|by left].
Qed.

(** A step of a receiver, which changes the read counter or the flag of its element only. *)
Lemma multi_inv_consumer s m t q p s' q' p' :
  mring_inv {| shared := s; pcs := m |} → m !! t = Some (Consumer q p) →
  mring_ok s' → reader_ok s' q' p' →
  cc_ s' = cc_ s → pushed s' = pushed s → lo s' = lo s → hi s' = hi s →
  connected_ q' = connected_ q → (length (got q) ≤ length (got q'))%nat →
  (length (got q) + Nat.b2n (reading p) ≤ length (got q') + Nat.b2n (reading p'))%nat →
  (∀ j cur, snapshot s j cur → snapshot s' j cur ∧ (cur = rc_ s' j → cur = rc_ s j)) →
  (∀ j, j = slot (length (got q)) ∧ reading p = true ∨ rem s' j = rem s j ∧ f_ct_ s' j = f_ct_ s j) →
  (∀ i id, id ≠ connected_ q → has_bit (rem s (slot i)) id → has_bit (rem s' (slot i)) id) →
  (∀ t2 q2 p2, t2 ≠ t → m !! t2 = Some (Consumer q2 p2) → reading p2 = true → reading p = true →
     slot (length (got q2)) = slot (length (got q)) →
     f_ct_ s' (slot (length (got q2))) = f_ct_ s (slot (length (got q2))) ∧
     (rem s (slot (length (got q2))) = connected_ q2 → rem s' (slot (length (got q2))) = connected_ q2)) →
  (∀ n, flagged s n → in_window s n → flagged s' n ∨ n = length (got q) ∧ reading p = true ∧ rem s (slot n) = connected_ q) →
  (reading p' = true → reading p = true ∧ length (got q') = length (got q) ∨
     ∀ t2 p2 c, m !! t2 = Some (Producer p2) → owns p2 = Some c → index_of c ≠ slot (length (got q'))) →
  mring_inv {| shared := s'; pcs := <[t := Consumer q' p']> m |}.
Proof.
  intros [HO HP HR HOw HOO HRm HI HPd] Ht Hok Hq' Hcc Hpu Hlo Hhi Hid Hlen Hpos Hsnap Hj Hbits Hsame Hflag Hroom.
  cbn [shared pcs] in *. pose proof (HR t q p Ht) as (_ & Hbit & Hn & _ & Hkept & Hlt & _).
  assert (count_pushed s' = count_pushed s) as EN by (unfold count_pushed; by rewrite Hpu).
  split; cbn [shared pcs].
  - done.
  - intros t2 p2 H2. apply lookup_insert_Some in H2 as [[_ ?]|[_ H2]]; [done|].
    apply (ppc_ok_frame s); [done|done|done|by rewrite Hlo, Hhi|by apply (HP t2)].
  - intros t2 q2 p2 H2. apply lookup_insert_Some in H2 as [[_ [= <- <-]]|[Hne H2]]; [done|].
    apply (multi_reader_ok_frame s); [done|done| | |by apply (HR t2)].
    + intros i _. apply Hbits. intros E. by apply Hne, (HI t t2 q q2 p p2).
    + intros Hp2. destruct (Hj (slot (length (got q2)))) as [[E Hp]|[-> ->]]; [|done]. by apply (Hsame t2 q2 p2); [apply not_eq_sym|..].
  - intros t2 p2 c H2 Hc. apply lookup_insert_Some in H2 as [[_ ?]|[_ H2]]; [done|].
    destruct (HOw t2 p2 c H2 Hc) as (Hrem & ? & ? & ?). unfold owned. rewrite Hcc.
    destruct (Hj (index_of c)) as [[E Hp]|[-> ->]]; [|done]. by destruct (HRm t2 p2 c t q p H2 Hc Ht) as [_ []].
  - intros t2 t3 p2 p3 c2 c3 Hne H2 H3. apply lookup_insert_Some in H2 as [[_ ?]|[_ H2]]; [done|].
    apply lookup_insert_Some in H3 as [[_ ?]|[_ H3]]; [done|]. by apply (HOO t2 t3).
  - intros t2 p2 c t3 q3 p3 H2 Hc H3. apply lookup_insert_Some in H2 as [[_ ?]|[_ H2]]; [done|].
    apply lookup_insert_Some in H3 as [[_ [= <- <-]]|[_ H3]]; [|by apply (HRm t2 p2 c t3)].
    destruct (HRm t2 p2 c t q p H2 Hc Ht) as [? Hd]. split; [lia|]. intros Hp'.
    destruct (Hroom Hp') as [[Hp ->]|Hr]; [by apply Hd|by apply (Hr t2 p2)].
  - intros t2 t3 q2 q3 p2 p3 H2 H3 E. apply lookup_insert_Some in H2 as [[<- [= <- <-]]|[? H2]];
      apply lookup_insert_Some in H3 as [[<- [= <- <-]]|[? H3]]; [done| | |by eapply HI].
    + rewrite Hid in E. by apply (HI t t3 q q3 p p3).
    + rewrite Hid in E. by apply (HI t2 t q2 q p2 p).
  - intros t2 q2 p2 n H2 Hn2. rewrite EN in Hn2.
    assert (∃ q3 p3, m !! t2 = Some (Consumer q3 p3) ∧ (length (got q3) + Nat.b2n (reading p3) ≤ n < count_pushed s)%nat ∧
      (t2 = t → q3 = q ∧ p3 = p)) as (q3 & p3 & H3 & Hn3 & Hself).
    { apply lookup_insert_Some in H2 as [[<- [= <- <-]]|[? H2]]; [exists q, p|exists q2, p2]; (split; [done|]; split; [lia|done]). }
    destruct (HPd t2 q3 p3 n H3 Hn3) as [Hf|(t4 & p4 & H4 & Hc)].
    + pose proof (HR t2 q3 p3 H3) as (_ & _ & Hw & _ & Hkept3 & _).
      destruct (Hflag n Hf) as [?|(-> & Hp & Hr)]; [unfold in_window; lia|by left|]. exfalso.
      assert (connected_ q3 = connected_ q) as E.
      { apply has_bit_only; [by eapply has_bit_id|]. rewrite <- Hr. apply Hkept3. lia. }
      assert (t2 = t) as -> by (by apply (HI t2 t q3 q p3 p)). destruct (Hself eq_refl) as [-> ->]. rewrite Hp in Hn3. cbn in Hn3. lia.
    + right. exists t4, p4. split; [|done]. rewrite lookup_insert_ne; [done|]. congruence.
Qed.

Lemma multi_inv_consumer_local s m t q p q' p' :
  mring_inv {| shared := s; pcs := m |} → m !! t = Some (Consumer q p) →
  reader_ok s q' p' → connected_ q' = connected_ q → got q' = got q →
  (Nat.b2n (reading p) ≤ Nat.b2n (reading p'))%nat →
  (reading p' = true → reading p = true ∨
     ∀ t2 p2 c, m !! t2 = Some (Producer p2) → owns p2 = Some c → index_of c ≠ slot (length (got q'))) →
  mring_inv {| shared := s; pcs := <[t := Consumer q' p']> m |}.
Proof.
  intros Hinv Ht Hq Hid Hgot Hr Hroom. apply (multi_inv_consumer s m t q p); rewrite ?Hgot; auto; [apply Hinv|lia|].
  intros Hp'. destruct (Hroom Hp'); [left|right]; rewrite <- ?Hgot; auto.
Qed.

(** Two receivers that read the same element are both marked in it. *)
Lemma two_readers s m t q p t2 q2 p2 :
  mring_inv {| shared := s; pcs := m |} → m !! t = Some (Consumer q p) → m !! t2 = Some (Consumer q2 p2) → t2 ≠ t →
  reading p = true → reading p2 = true → slot (length (got q2)) = slot (length (got q)) →
  has_bit (rem s (slot (length (got q)))) (connected_ q2) ∧ connected_ q2 ≠ connected_ q.
Proof.
  intros [_ _ HR _ _ _ HI _] Ht H2 Hne Hp Hp2 E. cbn [shared pcs] in *.
  destruct (HR t q p Ht) as (_ & _ & Hn & _ & _ & Hlt & _). destruct (HR t2 q2 p2 H2) as (_ & _ & Hn2 & _ & Hkept & Hlt2 & _).
  specialize (Hlt Hp). specialize (Hlt2 Hp2). split; [rewrite <- E; apply Hkept; lia|].
  intros Ec. by apply Hne, (HI t2 t q2 q p2 p).
Qed.

(** The last receiver releases its element. *)
Lemma inv_release s m t q i buff cur_rc :
  let n := length (got q) in
  let s' := set_flag (slot n) (Z.of_nat n + 256) s in
  mring_inv {| shared := s; pcs := m |} → m !! t = Some (Consumer q (CFlagLast i buff cur_rc)) → bounded s →
  mring_inv {| shared := s'; pcs := <[t := Consumer q (CCas i buff cur_rc)]> m |}.
Proof.
  intros n s' Hinv Ht [Hb _]. pose proof Hinv as [HO HP HR HOw HOO HRm HI HPd]. cbn [shared pcs] in *.
  pose proof HO as [HO1 HO2 HO3 HO4 HO5 HO6 HO7 HO8].
  destruct (HR t _ _ Ht) as (Hgot & Hbit & Hn & Hcur & Hkept & Hlt & -> & Hv & [Hrem Hf] & Hlast). fold n in Hn, Hlt, Hrem, Hf.
  specialize (Hlt eq_refl).
  assert (∀ j, j ≠ slot n → f_ct_ s' j = f_ct_ s j) as Hfl by (intros; unfold s'; cbn; by rewrite write_ne).
  assert (f_ct_ s' (slot n) = Z.of_nat n + 256) as Hfn by (unfold s'; cbn; by rewrite write_eq).
  apply (multi_inv_consumer s m t q (CFlagLast (slot n) buff cur_rc)); try done.
  - split; try done.
    + intros j k E Hk. destruct (decide (j = slot n)) as [->|Hj].
      * rewrite Hfn in E. pose proof (complement_large k Hk). lia.
      * apply HO7; [by rewrite <- Hfl|done].
    + intros k Hk Hz. change (rem s' (slot k)) with (rem s (slot k)) in Hz. rewrite Hfl; [by apply HO8|].
      intros E. rewrite E, Hrem in Hz. apply has_bit_range in Hbit. lia.
  - unfold reader_ok. fold n. do 6 (split; [done|]). cbn [cpc_ok]. do 2 (split; [done|]). by rewrite decide_True.
  - intros j. destruct (decide (j = slot n)); [by left|right]. by rewrite Hfl.
  - intros t2 q2 p2 Hne H2 Hp2 Hp E. exfalso. destruct (two_readers s m t q _ t2 q2 p2 Hinv Ht H2 Hne Hp Hp2 E) as [Hb2 Hne2].
    fold n in Hb2. rewrite Hrem in Hb2. apply Hne2, has_bit_only; [by eapply has_bit_id|done].
  - intros k Hfk Hwk. unfold flagged in *. destruct (decide (slot k = slot n)) as [E|E]; [right|left; by rewrite Hfl].
    unfold in_window in Hwk. apply multi_slot_inj in E; [|lia..]. by subst k.
  - intros _. by left.
Qed.

(** A receiver takes its bit away. *)
Lemma inv_read s m t q i buff cur_rc :
  let n := length (got q) in
  let s' := set_rc (slot n) (Z.ldiff (rem s (slot n)) (connected_ q) + 2 ^ 32 * (ver s (slot n) + 1)) s in
  mring_inv {| shared := s; pcs := m |} → m !! t = Some (Consumer q (CCas i buff cur_rc)) → cur_rc = rc_ s (slot n) →
  mring_inv {| shared := s'; pcs := <[t := Consumer (log_pop buff q) (Popped (Some buff))]> m |}.
Proof.
  intros n s' Hinv Ht Hcur. pose proof Hinv as [HO HP HR HOw HOO HRm HI HPd]. cbn [shared pcs] in *.
  pose proof HO as [HO1 HO2 HO3 HO4 HO5 HO6 HO7 HO8].
  destruct (HR t _ _ Ht) as (Hgot & Hbit & Hn & Hcu & Hkept & Hlt & -> & Hv & Hif). fold n in Hn, Hlt, Hv, Hif, Hcu, Hkept.
  specialize (Hlt eq_refl). pose proof (has_bit_id _ _ Hbit) as Hid.
  assert (0 ≤ Z.ldiff (rem s (slot n)) (connected_ q) < 2 ^ 32) as Hlow.
  { pose proof (rem_bound s (slot n)). split; [apply Z.ldiff_nonneg; lia|]. apply ConnHead.bits_bound; [|apply Z.ldiff_nonneg; lia].
    intros k Hk. rewrite Z.ldiff_spec, (ConnHead.high_bits (rem s (slot n))) by lia. done. }
  assert (rem s' (slot n) = Z.ldiff (rem s (slot n)) (connected_ q)) as Hr'.
  { unfold rem at 1, s'. cbn. rewrite write_eq, land_low, mod_add; done. }
  assert (∀ j, j ≠ slot n → rem s' j = rem s j) as Hr2 by (intros j Hj; unfold rem, s'; cbn; by rewrite write_ne).
  apply (multi_inv_consumer s m t q (CCas (slot n) buff cur_rc)); try done.
  - split; try done.
    + intros j. destruct (decide (j = slot n)) as [->|Hj]; [rewrite Hr'; unfold s'; cbn; by rewrite !write_eq|].
      rewrite Hr2 by done. unfold s'. cbn. rewrite !write_ne by done. apply HO4.
    + intros j. destruct (decide (j = slot n)) as [->|Hj]; [|by rewrite Hr2]. rewrite Hr'. change (cc_ s') with (cc_ s).
      apply Z.bits_inj'. intros k Hk. rewrite Z.land_spec, Z.ldiff_spec, andb_assoc, <- Z.land_spec. by rewrite HO5.
    + intros j. pose proof (HO6 j) as Hj6. pose proof (HO6 (slot n)). unfold s'. cbn [ver set_rc]. unfold write. destruct (decide (j = slot n)); lia.
    + intros k Hk Hz. change (count_pushed s') with (count_pushed s) in Hk. change (f_ct_ s') with (f_ct_ s).
      destruct (decide (slot k = slot n)) as [E|E]; [|apply HO8; [done|by rewrite <- Hr2]].
      rewrite E, Hr' in Hz. unfold rem in Hz. rewrite <- Hcur in Hz. rewrite decide_True in Hif by done.
      rewrite E. left. destruct Hif as [_ ->]. rewrite <- (slot_lap n) in E. apply multi_slot_inj in E; lia.
  - unfold reader_ok. cbn [got log_pop connected_ cursor_ reading cpc_ok]. rewrite length_app, Nat.add_1_r. fold n.
    change (count_pushed s') with (count_pushed s). change (pushed s') with (pushed s). change (cc_ s') with (cc_ s).
    split; [rewrite (take_S_r _ _ buff) by done; by rewrite Hgot|]. split; [done|]. split; [lia|].
    split; [cbn in Hcu; rewrite Hcu; cbn; lia|]. split; [|done].
    intros k Hk. rewrite Hr2; [apply Hkept; lia|]. intros E. apply multi_slot_inj in E; lia.
  - cbn. rewrite length_app. lia.
  - cbn. rewrite length_app. cbn. lia.
  - intros j cur. apply snapshot_set_rc. rewrite <- Z.shiftr_div_pow2 by lia. by apply shiftr_add.
  - intros j. destruct (decide (j = slot n)); [by left|right]. by rewrite Hr2.
  - intros k id Hne Hb. destruct (decide (slot k = slot n)) as [E|E]; [|by rewrite Hr2].
    rewrite E, Hr'. apply has_bit_ldiff; [done|done|]. by rewrite <- E.
  - intros t2 q2 p2 Hne H2 Hp2 Hp E. split; [done|]. intros Hr. exfalso.
    destruct (two_readers s m t q _ t2 q2 p2 Hinv Ht H2 Hne Hp Hp2 E) as [_ Hne2].
    fold n in E. specialize (Hkept n ltac:(lia)). rewrite <- E, Hr in Hkept. apply Hne2. symmetry.
    apply has_bit_only; [|done]. destruct (HR t2 q2 p2 H2) as (_ & ? & _). by eapply has_bit_id.
  - intros k Hfk _. by left.
Qed.

Lemma multi_consumer_step s m t q p c :
  mring_inv {| shared := s; pcs := m |} → m !! t = Some (Consumer q p) → bounded s →
  let r := pop_step (gentle c) q p s in bounded r.2 →
  mring_inv {| shared := r.2; pcs := <[t := Consumer r.1.1 r.1.2]> m |}.
Proof.
  intros Hinv Ht Hb r Hb'. pose proof Hinv as [HO HP HR HOw HOO HRm HI HPd]. cbn [shared pcs] in *.
  pose proof (HR t q p Ht) as (Hgot & Hbit & Hn & Hcur & Hkept & Hlt & Hpc). set (n := length (got q)) in *.
  assert (connected_ q ≠ 0) as Hne by (apply has_bit_range in Hbit; lia).
  assert (∀ p', reading p' = reading p → cpc_ok s (connected_ q) n p' → reader_ok s q p') as Hok.
  { intros p' Hr Hp'. unfold reader_ok. fold n. by rewrite Hr. }
  assert (∀ p', reading p' = reading p → cpc_ok s (connected_ q) n p' →
    mring_inv {| shared := s; pcs := <[t := Consumer q p']> m |}) as Hlocal.
  { intros p' Hr Hp'. eapply multi_inv_consumer_local; [done|done|by apply Hok|done|done|by rewrite Hr|]. rewrite Hr. by left. }
  revert Hb'. unfold r. clear r.
  destruct p as [| | |i|i a|i buff|i buff|i buff rc|i buff rc|ret]; cbn [pop_step cpc_ok reading] in *; try done; intros Hb'.
  - destruct c; cbn [gentle]; rewrite ?(decide_False (P := connected_ q = 0)) by done; by apply Hlocal.
  - rewrite Z.add_0_r in Hcur. rewrite Hcur. fold (slot n).
    destruct (decide (f_ct_ s (slot n) ≠ complement (Z.of_nat n))) as [Hf|Hf]; [by apply (Hlocal (Popped None))|].
    apply dec_stable in Hf. cbn [fst snd].
    assert (Z.of_nat n < 2 ^ 32) as Hn32 by (destruct Hb as [Hb _]; lia).
    destruct (mo_flags _ HO (slot n) n Hf Hn32) as (Hw & _ & _).
    eapply multi_inv_consumer_local; [done|done| |done|done|cbn; lia|].
    + unfold reader_ok. cbn [got set_cursor connected_ cursor_ reading cpc_ok Z.b2z]. fold n. unfold in_window in Hw.
      destruct Hb as [Hb _]. rewrite u32_small by lia. split_and!; try done; lia.
    + intros _. right. intros t2 p2 c2 H2 Hc2 E. destruct (HOw t2 p2 c2 H2 Hc2) as (_ & _ & Hfl & _). cbn [got set_cursor] in E. fold n in E.
      rewrite E, Hf in Hfl. pose proof (complement_large n Hn32). lia.
  - destruct Hpc as [-> Hf]. apply Hlocal; [done|]. cbn. split; [done|]. split; [done|].
    destruct (mo_flags _ HO (slot n) n Hf) as (_ & _ & Hv); [destruct Hb as [Hb _]; lia|]. by exists (hi s (slot n)).
  - destruct Hpc as (-> & Hf & b & Hv). apply Hlocal; [done|]. cbn. split; [done|]. split; [|by left].
    destruct (mo_flags _ HO (slot n) n Hf) as (_ & _ & Hv'); [destruct Hb as [Hb _]; lia|].
    unfold holds_value in Hv'. rewrite Hv in Hv' |- *. congruence.
  - destruct Hpc as (-> & Hv & Hf). fold (rem s (slot n)). pose proof (Hkept n ltac:(specialize (Hlt eq_refl); lia)) as Hb1.
    rewrite decide_False by (intros E; rewrite E in Hb1; by apply has_bit_0 in Hb1).
    destruct (decide (Z.ldiff (rem s (slot n)) (connected_ q) = 0)) as [Hd|Hd]; (apply Hlocal; [done|]); cbn.
    + split; [done|]. split; [done|]. split; [|done]. split; [by apply only_bit|]. destruct Hf as [?|[_ ?]]; [by left|done].
    + split; [done|]. split; [done|]. rewrite decide_False by done. destruct Hf as [|[Hr _]]; [done|]. exfalso. apply Hd.
      rewrite Hr. apply Z.bits_inj'. intros k Hk. rewrite Z.ldiff_spec, Z.bits_0. by destruct (Z.testbit _ k).
  - destruct Hpc as (-> & Hv & Hl & Hz). rewrite Hcur. replace (Z.of_nat n + Z.b2z true + elem_max - 1) with (Z.of_nat n + 256) by (unfold elem_max; cbn [Z.b2z]; lia).
    by apply inv_release.
  - destruct Hpc as (-> & Hv & Hif). destruct (decide (rc_ s (slot n) = rc ∧ spurious (gentle c) = false)) as [[Hd _]|Hd].
    + cbn [fst snd] in *. subst rc. pose proof (mo_ver _ HO (slot n)) as Hv0.
      assert (ver s (slot n) < 2 ^ 24 - 1) as Hv1.
      { destruct Hb' as [_ Hb']. specialize (Hb' (slot n)). cbn [ver set_rc] in Hb'. rewrite write_eq in Hb'. lia. }
      replace (Z.ldiff (inc_rc (rc_ s (slot n))) (connected_ q))
        with (Z.ldiff (rem s (slot n)) (connected_ q) + 2 ^ 32 * (ver s (slot n) + 1)).
      * by eapply inv_read.
      * rewrite (mo_rc _ HO (slot n)). symmetry. apply read_mark; [apply rem_bound|lia|]. apply has_bit_range in Hbit. lia.
    + apply Hlocal; [done|]. cbn. split; [done|]. split; [done|].
      destruct (decide (Z.ldiff (Z.land rc rc_mask) (connected_ q) = 0)); [|by left].
      right. split; [apply Hif|right; apply Hif].
  - by apply Hlocal.
Qed.

Lemma mring_inv_step s m t th c :
  mring_inv {| shared := s; pcs := m |} → m !! t = Some th → bounded s → bounded (next_gentle c th s).2 →
  mring_inv {| shared := (next_gentle c th s).2; pcs := <[t := (next_gentle c th s).1]> m |}.
Proof.
  intros Hinv Ht Hb. unfold next_gentle, next. destruct th as [p|q p].
  - pose proof (multi_producer_step s m t p c Hinv Ht Hb) as H. by destruct (push_step (gentle c) p s).
  - pose proof (multi_consumer_step s m t q p c Hinv Ht Hb) as H. by destruct (pop_step (gentle c) q p s) as [[??] ?].
Qed.

Lemma write_grows f i j : f j ≤ write i (f i + 1) f j.
Proof. unfold write. destruct (decide (j = i)) as [->|]; lia. Qed.

(** The counters only grow. *)
Lemma bounded_next c th s : bounded (next_gentle c th s).2 → bounded s.
Proof.
  assert ((count_pushed s ≤ count_pushed (next_gentle c th s).2)%nat ∧ ∀ j, ver s j ≤ ver (next_gentle c th s).2 j) as [Hc Hv].
  { unfold next_gentle, next, count_pushed. destruct th as [p|q p].
    - destruct p; cbn; repeat case_match; simplify_eq/=; rewrite ?length_app; (split; [cbn; lia|]); intros j;
        first [reflexivity | apply write_grows].
    - destruct p; cbn; repeat case_match; simplify_eq/=; (split; [cbn; lia|]); intros j;
        first [reflexivity | apply write_grows]. }
  intros [Hb1 Hb2]. split; [lia|]. intros j. specialize (Hv j). specialize (Hb2 j). lia.
Qed.

(** ** Properties *)

(** Receivers that have connected to a fresh ring, and producers. *)
Record start (cc : Z) (m : gmap nat thread) : Prop := {
  st_cc : 0 ≤ cc < 2 ^ 32;
  st_threads t th : m !! t = Some th →
    th = Producer PIdle ∨
    ∃ id, th = Consumer {| connected_ := id; cursor_ := 0; got := [] |} CIdle ∧ has_bit cc id;
  st_ids t t' q q' p p' : m !! t = Some (Consumer q p) → m !! t' = Some (Consumer q' p') →
    connected_ q = connected_ q' → t = t' }.

Lemma multi_start_inv w0 cc m : start cc m → mring_inv {| shared := fresh w0 cc; pcs := m |}.
Proof.
  intros [Hcc Hth HI]. split; cbn [shared pcs]; try done.
  - split; try done.
    + intros j. unfold rem. cbn. apply Z.land_0_r.
    + intros j n E Hn. pose proof (complement_large n Hn). cbn in E. lia.
    + intros n Hn _. right. cbn in *. split; [done|lia].
  - intros t p Ht. destruct (Hth t _ Ht) as [[= ->]|(id & [=] & _)]. done.
  - intros t q p Ht. destruct (Hth t _ Ht) as [|(id & [= -> ->] & Hid)]; [done|]. unfold reader_ok, count_pushed. cbn.
    split_and!; try done; lia.
  - intros t p c Ht Hc. destruct (Hth t _ Ht) as [[= ->]|(id & [=] & _)]. done.
  - intros t t' p p' c c' _ Ht _ Hc. destruct (Hth t _ Ht) as [[= ->]|(id & [=] & _)]. done.
  - intros t p c t' q p' Ht Hc. destruct (Hth t _ Ht) as [[= ->]|(id & [=] & _)]. done.
  - intros t q p n _ Hn. unfold count_pushed in Hn. cbn in Hn. lia.
Qed.

(** A pop of a receiver whose next value has its commit flag, alone. *)
Lemma pop_alone_multi s q n :
  connected_ q ≠ 0 → cursor_ q = Z.of_nat n → flagged s n → has_bit (rem s (slot n)) (connected_ q) →
  let v := (lo s (slot n), hi s (slot n)) in
  ∃ k q', (run_thread next_gentle (CallPop :: replicate k Go) (Consumer q CIdle) s).1 = Consumer q' (Popped (Some v)) ∧
    got q' = got q ++ [v].
Proof.
  intros Hq Hcur Hf Hbit v.
  exists (if decide (Z.ldiff (rem s (slot n)) (connected_ q) = 0) then 6%nat else 5%nat).
  unfold run_thread, next_gentle.
  assert (∀ l, foldl (λ x c, next (gentle c) x.1 x.2) (Consumer q CIdle, s) (CallPop :: Go :: Go :: Go :: l)
    = foldl (λ x c, next (gentle c) x.1 x.2) (Consumer (set_cursor (u32 (cursor_ q + 1)) q) (CLoadRc (slot n) v), s) l) as Hread.
  { intros l. cbn [foldl fst snd gentle next pop_step]. rewrite (decide_False (P := connected_ q = 0)) by done.
    cbn [fst snd next pop_step]. rewrite Hcur. fold (slot n). unfold flagged in Hf. rewrite Hf, decide_False by (intros Hn; by apply Hn).
    reflexivity. }
  assert (Z.land (rc_ s (slot n)) rc_mask ≠ 0) as Hne by (fold (rem s (slot n)); intros E; rewrite E in Hbit; by apply has_bit_0 in Hbit).
  destruct (decide (Z.ldiff (rem s (slot n)) (connected_ q) = 0)) as [Hd|Hd];
    cbn [replicate]; rewrite Hread; cbn [foldl fst snd gentle next pop_step connected_ set_cursor].
  - rewrite decide_False by done. unfold rem in Hd. rewrite (decide_True (P := Z.ldiff _ _ = 0)) by done.
    cbn [fst snd next pop_step rc_ set_flag]. rewrite decide_True by done. cbn [fst snd]. by eexists.
  - rewrite decide_False by done. unfold rem in Hd. rewrite (decide_False (P := Z.ldiff _ _ = 0)) by done.
    cbn [fst snd next pop_step]. rewrite decide_True by done. cbn [fst snd]. by eexists.
Qed.

(** C24: With many producers every receiver gets every value, once, whole and in the order in
    which the values were claimed, whatever the interleaving; it is at most 256 values
    behind, and when no push is running and the receiver moves alone, a pop takes the next
    value.  As long as no receiver joins or leaves ([Demo.leaving_receiver]), no push is
    forced, fewer than 2^32 - 256 values are pushed ([Demo.stuck_at_the_end]) and no read
    counter changes 2^24 times. *)
Theorem multi_broadcast_in_order w0 cc m k t q p :
  start cc m → reachable next_gentle {| shared := fresh w0 cc; pcs := m |} k →
  Z.of_nat (length (pushed (shared k))) + 256 < 2 ^ 32 → (∀ j, ver (shared k) j < 2 ^ 24) →
  pcs k !! t = Some (Consumer q p) →
  let n := length (got q) in
  got q = take n (pushed (shared k)) ∧ (length (pushed (shared k)) ≤ n + 256)%nat ∧
  (p = CIdle → (∀ t' p', pcs k !! t' = Some (Producer p') → p' = PIdle) →
   ∀ v, pushed (shared k) !! n = Some v →
     ∃ i q', (run_thread next_gentle (CallPop :: replicate i Go) (Consumer q CIdle) (shared k)).1
               = Consumer q' (Popped (Some v)) ∧ got q' = got q ++ [v]).
Proof.
  intros Hstart Hr Hb1 Hb2 Ht n.
  assert (mring_inv k) as Hinv.
  { assert (bounded (shared k)) as Hb by done. clear Hb1 Hb2 Ht n. revert k Hr Hb.
    apply (reachable_invariant next_gentle (λ k, bounded (shared k) → mring_inv k)).
    - intros _. by apply multi_start_inv.
    - intros s m' t' th c Hinv Ht Hb. cbn [shared] in *. pose proof (bounded_next c th s Hb) as Hb0. by apply mring_inv_step; [apply Hinv|..]. }
  destruct (mi_reader _ Hinv t q p Ht) as (Hgot & Hbit & Hn & Hcur & Hkept & _). split; [done|]. split; [apply Hn|].
  intros -> Hidle v Hv. assert (n < count_pushed (shared k))%nat as Hlt by (by apply lookup_lt_Some in Hv).
  destruct (mi_pending _ Hinv t q CIdle n Ht ltac:(cbn; fold n; lia)) as [Hf|(t' & p' & Ht' & Hc)];
    [|by rewrite (Hidle t' p' Ht') in Hc].
  destruct (mo_flags _ (mi_ring _ Hinv) (slot n) n Hf ltac:(unfold count_pushed in *; lia)) as (_ & _ & Hval).
  unfold holds_value in Hval. rewrite Hv in Hval. injection Hval as ->. cbn in Hcur. rewrite Z.add_0_r in Hcur.
  apply pop_alone_multi; [|done|done|apply Hkept; fold n; lia].
  apply has_bit_range in Hbit. lia.
Qed.

End broadcast.

Arguments mring : clear implicits.
Arguments thread : clear implicits.
Arguments choice : clear implicits.
Arguments ppc : clear implicits.

(** ** Runs *)

Module Demo.

Definition val (i : nat) : nat * nat := (i, i).

Definition receiver (id cur : Z) : thread nat := Consumer {| connected_ := id; cursor_ := cur; got := [] |} CIdle.

(** Two producers and two receivers. *)
Definition threads (cur : Z) : gmap nat (thread nat) :=
  {[0%nat := Producer PIdle; 1%nat := Producer PIdle; 2%nat := receiver 1 cur; 3%nat := receiver 2 cur]}.

Definition begin : config (mring nat) (thread nat) := {| shared := fresh 0%nat 3; pcs := threads 0 |}.

Definition schedule : Type := list (nat * choice nat).

Definition moves (t : nat) (c : choice nat) (n : nat) : schedule := (t, c) :: replicate n (t, Go).

(** A push alone takes twelve steps; one that stops before it advances [ct_] takes seven. *)
Definition push (t i : nat) : schedule := moves t (CallPush (val i)) 12.
Definition claim (t i : nat) : schedule := moves t (CallPush (val i)) 7.

(** A pop alone, up to the idle state; [last] when no other receiver has the element. *)
Definition pop (last : bool) (t : nat) : schedule := moves t CallPop (if last then 7 else 6).

Definition took (t : nat) (k : config (mring nat) (thread nat)) : option (list nat) :=
  match pcs k !! t with Some (Consumer q _) => Some (fst <$> got q) | _ => None end.

Definition producer_at (t : nat) (k : config (mring nat) (thread nat)) : option (ppc nat) :=
  match pcs k !! t with Some (Producer p) => Some p | _ => None end.

Definition two : config (mring nat) (thread nat) :=
  run_schedule next_gentle (push 0 7 ++ push 1 8 ++ pop false 2 ++ pop true 3 ++ pop false 3) begin.

Example multi_two_took : took 2 two = Some [7]%nat ∧ took 3 two = Some [7; 8]%nat ∧ ver (shared two) 0 = 3.
Proof. vm_compute. split_and!; reflexivity. Qed.

(** Receiver 2 leaves without having read value 0.  Producer 1, which has loaded [ct_] before
    the others went on, finds in the element only the bit of a receiver that is gone, does
    not look at the commit flag, claims the element again and sets [ct_] back: its value is
    never read, although the push succeeds, and every later push fails. *)
Definition leaving_run : schedule :=
  claim 0 0 ++ [(2%nat, CallLeave)] ++ moves 1 (CallPush (val 9)) 3 ++ replicate 5 (0%nat, Go) ++
  pop false 3 ++ (seq 1 5 ≫= λ i, push 0 i ++ pop true 3) ++ replicate 7 (1%nat, Go).

Example leaving_receiver :
  let k := run_schedule next leaving_run begin in
  let k' := run_schedule next (pop true 3 ++ moves 0 (CallPush (val 10)) 5) k in
  reachable next begin k ∧
  (producer_at 1 k, took 3 k, ct_ (shared k)) = (Some (Pushed true), Some (seq 0 6), 1) ∧
  (took 3 k', producer_at 0 k') = (Some (seq 0 6), Some (Pushed false)).
Proof. cbn zeta. split; [apply (run_schedule_reachable next)|]. vm_compute. split; reflexivity. Qed.

(** A [compare_exchange_weak] on the epoch that fails spuriously leaves the element marked
    and without a value: every push after it fails. *)
Example spurious_epoch :
  let k := run_schedule next_gentle (moves 0 (CallPush (val 0)) 6 ++ [(0%nat, Spurious)] ++ replicate 5 (0%nat, Go) ++
             moves 1 (CallPush (val 1)) 4) begin in
  reachable next_gentle begin k ∧ pushed (shared k) = [] ∧ producer_at 1 k = Some (Pushed false).
Proof. cbn zeta. split; [apply (run_schedule_reachable next_gentle)|]. vm_compute. split; reflexivity. Qed.

(** The flag of an element that is free again is computed in 64 bits and compared with the
    32-bit [ct_]: before the wrap-around of [ct_] it is an index that never comes. *)
Definition late : Z := 2 ^ 32 - 200.

Definition late_begin : config (mring nat) (thread nat) := {|
  shared := set_ct late (fresh 0%nat 1); pcs := {[0%nat := Producer PIdle; 2%nat := receiver 1 late]} |}.

Example stuck_at_the_end :
  let k := run_schedule next_gentle ((seq 0 256 ≫= λ i, push 0 i ++ pop true 2) ++ moves 0 (CallPush (val 256)) 5) late_begin in
  took 2 k = Some (seq 0 256) ∧ producer_at 0 k = Some (Pushed false).
Proof. vm_compute. split; reflexivity. Qed.

Lemma multi_threads_start : start 3 (threads 0).
Proof.
  assert (∀ t th, threads 0 !! t = Some th → th = Producer PIdle ∨
    t = 2%nat ∧ th = receiver 1 0 ∨ t = 3%nat ∧ th = receiver 2 0) as Hth.
  { intros t th. unfold threads. rewrite !lookup_insert_Some, lookup_singleton_Some. naive_solver. }
  split; [done| |].
  - intros t th Ht. destruct (Hth t th Ht) as [->|[[_ ->]|[_ ->]]]; [by left|right..]; eexists; (split; [reflexivity|]).
    + by exists 0.
    + by exists 1.
  - intros t t' q q' p p' H1 H2 E. unfold receiver in Hth.
    destruct (Hth _ _ H1) as [[=]|[[-> [= -> _]]|[-> [= -> _]]]], (Hth _ _ H2) as [[=]|[[-> [= -> _]]|[-> [= -> _]]]];
      first [done | discriminate E].
Qed.

(** A step changes a read counter at most once. *)
Lemma versions_run l (k : config (mring nat) (thread nat)) j :
  ver (shared (run_schedule next_gentle l k)) j ≤ ver (shared k) j + Z.of_nat (length l).
Proof.
  revert k. induction l as [|[t c] l IH]; intros k; [cbn; lia|]. cbn [run_schedule foldl fst snd length].
  etransitivity; [apply IH|]. destruct (pcs k !! t) as [th|]; [|lia]. cbn [shared].
  assert (ver (next_gentle c th (shared k)).2 j ≤ ver (shared k) j + 1); [|lia].
  assert (∀ f i, write i (f i + 1) f j ≤ f j + 1) as Hw by (intros f i; unfold write; destruct (decide (j = i)) as [->|]; lia).
  unfold next_gentle, next. destruct th as [p|q p]; destruct p; cbn; repeat case_match; simplify_eq/=; first [apply Hw | lia].
Qed.

Definition one_left : config (mring nat) (thread nat) :=
  run_schedule next_gentle (push 0 7 ++ push 1 8 ++ pop false 2 ++ [(0%nat, Go); (1%nat, Go)])
    {| shared := fresh 0%nat 3; pcs := threads 0 |}.

Lemma idle_producers t p : pcs one_left !! t = Some (Producer p) → p = PIdle.
Proof.
  intros Ht%elem_of_map_to_list.
  assert (forallb (λ x, match x.2 with Producer PIdle | Consumer _ _ => true | _ => false end) (map_to_list (pcs one_left)) = true) as Hall
    by (vm_compute; reflexivity).
  rewrite forallb_forall in Hall. apply list_elem_of_In in Ht. specialize (Hall _ Ht). cbn [snd] in Hall. clear Ht. by destruct p.
Qed.

End Demo.

Lemma multi_broadcast_in_order_witness :
  let q := {| connected_ := 1; cursor_ := 1; got := [(7, 7)%nat] |} in
  got q = take 1 (pushed (shared Demo.one_left)) ∧
  ∃ i q', (run_thread next_gentle (CallPop :: replicate i Go) (Consumer q CIdle) (shared Demo.one_left)).1
            = Consumer q' (Popped (Some (8, 8)%nat)) ∧ got q' = got q ++ [(8, 8)%nat].
Proof.
  intros q. destruct (multi_broadcast_in_order 0%nat 3 (Demo.threads 0) Demo.one_left 2 q CIdle) as (Hgot & _ & Hpop).
  - apply Demo.multi_threads_start.
  - apply (run_schedule_reachable next_gentle).
  - vm_compute. reflexivity.
  - intros j. eapply Z.le_lt_trans; [apply Demo.versions_run|]. reflexivity.
  - vm_compute. reflexivity.
  - split; [exact Hgot|]. apply Hpop; [reflexivity| |vm_compute; reflexivity].
    intros t p Ht. by apply (Demo.idle_producers t).
Defined.
