(* ===== verification/IpcConnect.v ===== *)
(** * The connections of a queue ([elem_def.h], [elem_array.h], [queue.h], [ipc.cpp])

    Any number of handles of one channel, in any process, connect to the ring of the channel
    and leave it: [conn_head_base::init], [conn_head::connect] and [disconnect], the checkers
    of [elem_array] that keep the role of a single producer or consumer, [queue_base], and
    [detail_impl::reconnect], [disconnect] and [destroy], which call them in sequence.  The
    steps of the threads are the operations on the shared words, in the order of the code,
    sequentially consistent.

    [multi_producer], [multi_consumer] and [broadcast] are those of the policy.  What the
    calls do besides (waking the waiters, clearing the cache of messages) is in [IpcWaiter]
    and [IpcChannel]; the index of the ring moves by [CallMove]. *)

From S2P Require Import Prelude Interleaving IpcBase.
#[local] Open Scope Z_scope.

Section connections.
Context (multi_producer multi_consumer broadcast : bool).

(** ** Data *)

(** The words of the ring that the connections use. *)
Record elems := {
  cc_ : Z;                    (* the connections *)
  lc_ : bool;
  constructed_ : bool;
  s_ckr_ : bool;              (* the flag of a single producer *)
  r_ckr_ : bool;              (* the flag of a single consumer *)
  cursor : Z }.

Definition set_cc (x : Z) (e : elems) : elems := {| cc_ := x; lc_ := lc_ e; constructed_ := constructed_ e;
  s_ckr_ := s_ckr_ e; r_ckr_ := r_ckr_ e; cursor := cursor e |}.
Definition set_lc (x : bool) (e : elems) : elems := {| cc_ := cc_ e; lc_ := x; constructed_ := constructed_ e;
  s_ckr_ := s_ckr_ e; r_ckr_ := r_ckr_ e; cursor := cursor e |}.
Definition set_constructed (x : bool) (e : elems) : elems := {| cc_ := cc_ e; lc_ := lc_ e; constructed_ := x;
  s_ckr_ := s_ckr_ e; r_ckr_ := r_ckr_ e; cursor := cursor e |}.
Definition set_s_ckr (x : bool) (e : elems) : elems := {| cc_ := cc_ e; lc_ := lc_ e; constructed_ := constructed_ e;
  s_ckr_ := x; r_ckr_ := r_ckr_ e; cursor := cursor e |}.
Definition set_r_ckr (x : bool) (e : elems) : elems := {| cc_ := cc_ e; lc_ := lc_ e; constructed_ := constructed_ e;
  s_ckr_ := s_ckr_ e; r_ckr_ := x; cursor := cursor e |}.
Definition set_index (x : Z) (e : elems) : elems := {| cc_ := cc_ e; lc_ := lc_ e; constructed_ := constructed_ e;
  s_ckr_ := s_ckr_ e; r_ckr_ := r_ckr_ e; cursor := x |}.

(** Fresh shared memory. *)
Definition zero_elems : elems :=
  {| cc_ := 0; lc_ := false; constructed_ := false; s_ckr_ := false; r_ckr_ := false; cursor := 0 |}.

(** A handle; [elems_]: the pointer is not null. *)
Record queue := {
  elems_ : bool;
  connected_ : Z;
  cursor_ : Z;
  sender_flag_ : bool }.

Definition closed_queue : queue := {| elems_ := false; connected_ := 0; cursor_ := 0; sender_flag_ := false |}.

Definition set_elems (x : bool) (q : queue) : queue := {| elems_ := x; connected_ := connected_ q; cursor_ := cursor_ q;
  sender_flag_ := sender_flag_ q |}.
Definition set_connected (x : Z) (q : queue) : queue := {| elems_ := elems_ q; connected_ := x; cursor_ := cursor_ q;
  sender_flag_ := sender_flag_ q |}.
Definition set_cursor (x : Z) (q : queue) : queue := {| elems_ := elems_ q; connected_ := connected_ q; cursor_ := x;
  sender_flag_ := sender_flag_ q |}.
Definition set_sender_flag (x : bool) (q : queue) : queue := {| elems_ := elems_ q; connected_ := connected_ q;
  cursor_ := cursor_ q; sender_flag_ := x |}.

(** ** The code *)

(** The methods of the queue that a call of the channel goes through. *)
Inductive op := OShut | OConnect | ODisconnect | OReady | OFree.

Inductive pc :=
| Idle
| ILoad | ILock | ILoadLocked | INewCc | INewLc | INewConstructed | IStore | IUnlock    (* init *)
| SSet                       (* ready_sending: test_and_set *)
| SClear                     (* shut_sending: clear *)
| RSet | RLoadCc | RCas (curr : Z) | RAdd | RCursor       (* connect_receiver; cursor *)
| DClear (cc_id : Z) | DConn (cc_id : Z).                 (* disconnect_receiver *)

Record thread := {
  que : queue;
  at_ : pc;
  todo : list op;
  ret : bool }.              (* what the last method has returned *)

Inductive choice :=
| CallOpen | CallReconnect (start_to_recv : bool) | CallDisconnect | CallDestroy
| CallForce (cc_id : Z)      (* force_push: disconnect_receiver *)
| CallMove (x : Z)           (* the ring moves its index *)
| Go | Spurious.

Definition spurious (c : choice) : bool := match c with Spurious => true | _ => false end.

(** The queue methods of a call of [detail_impl]. *)
Definition call (c : choice) (q : queue) : list op :=
  match c with
  | CallReconnect true => [OShut; OConnect]
  | CallReconnect false => (if decide (connected_ q = 0) then [] else [ODisconnect]) ++ [OReady]
  | CallDisconnect => [OShut; ODisconnect]
  | CallDestroy => [OShut; ODisconnect; OFree]
  | _ => []
  end.

Definition connect_conn : pc := if broadcast then RLoadCc else RAdd.
Definition connect_receiver : pc := if multi_consumer then connect_conn else RSet.
Definition disconnect_receiver (cc_id : Z) : pc := if multi_consumer then DConn cc_id else DClear cc_id.

(** A method up to its first operation on a shared word: the handle, where it goes on, and
    what it returns when it ends there. *)
Definition start_op (o : op) (q : queue) (r : bool) : queue * pc * bool :=
  match o with
  | OFree => (closed_queue, Idle, r)
  | OShut => (q, if elems_ q && sender_flag_ q && negb multi_producer then SClear else Idle, r)
  | OConnect =>
      if negb (elems_ q) then (q, Idle, false)
      else if decide (connected_ q = 0) then (q, connect_receiver, r) else (q, Idle, true)
  | ODisconnect =>
      if negb (elems_ q) || bool_decide (connected_ q = 0) then (q, Idle, false)
      else (set_connected 0 q, disconnect_receiver (connected_ q), true)
  | OReady =>
      if negb (elems_ q) then (q, Idle, false)
      else if sender_flag_ q then (q, Idle, true)
      else if multi_producer then (set_sender_flag true q, Idle, true) else (q, SSet, r)
  end.

Definition at_pc (p : pc) (th : thread) : thread := {| que := que th; at_ := p; todo := todo th; ret := ret th |}.
Definition with_que (q : queue) (p : pc) (r : bool) (th : thread) : thread := {| que := q; at_ := p; todo := todo th; ret := r |}.

(** [queue_conn::connect] gets its id and reads the index of the ring. *)
Definition got_id (id : Z) (th : thread) : thread := with_que (set_connected id (que th)) RCursor (ret th) th.

(** A new call, or the next method of the one that runs. *)
Definition idle_step (c : choice) (th : thread) (e : elems) : thread * elems :=
  let q := que th in
  match todo th with
  | o :: rest => let '(q, p, r) := start_op o q (ret th) in ({| que := q; at_ := p; todo := rest; ret := r |}, e)
  | [] =>
      match c with
      | CallOpen => (if elems_ q then th else at_pc ILoad th, e)
      | CallForce cc_id => (if elems_ q then at_pc (disconnect_receiver cc_id) th else th, e)
      | CallMove x => (th, if elems_ q then set_index x e else e)
      | _ => ({| que := q; at_ := Idle; todo := call c q; ret := ret th |}, e)
      end
  end.

(** [conn_head_base::init]; [queue_base] has its ring when it ends. *)
Definition init_step (th : thread) (e : elems) : thread * elems :=
  let opened := with_que (set_elems true (que th)) Idle (ret th) th in
  match at_ th with
  | ILoad => (if constructed_ e then opened else at_pc ILock th, e)
  | ILock => (if lc_ e then th else at_pc ILoadLocked th, if lc_ e then e else set_lc true e)
  | ILoadLocked => (at_pc (if constructed_ e then IUnlock else INewCc) th, e)
  | INewCc => (at_pc INewLc th, set_cc 0 e)
  | INewLc => (at_pc INewConstructed th, set_lc false e)
  | INewConstructed => (at_pc IStore th, set_constructed false e)
  | IStore => (at_pc IUnlock th, set_constructed true e)
  | IUnlock => (opened, set_lc false e)
  | _ => (th, e)
  end.

(** [sender_checker] of a single producer. *)
Definition sender_step (th : thread) (e : elems) : thread * elems :=
  match at_ th with
  | SSet => (with_que (set_sender_flag (negb (s_ckr_ e)) (que th)) Idle (negb (s_ckr_ e)) th, set_s_ckr true e)
  | SClear => (at_pc Idle th, set_s_ckr false e)
  | _ => (th, e)
  end.

(** [receiver_checker] of a single consumer. *)
Definition receiver_step (th : thread) (e : elems) : thread * elems :=
  match at_ th with
  | RSet => (if r_ckr_ e then got_id 0 th else at_pc connect_conn th, set_r_ckr true e)
  | DClear cc_id => (at_pc (DConn cc_id) th, set_r_ckr false e)
  | _ => (th, e)
  end.

(** [conn_head::connect] and [disconnect]. *)
Definition conn_step (c : choice) (th : thread) (e : elems) : thread * elems :=
  match at_ th with
  | RLoadCc => (at_pc (RCas (cc_ e)) th, e)
  | RCas curr =>
      let next := Z.lor curr (u32 (curr + 1)) in
      if decide (next = 0) then (got_id 0 th, e)
      else if decide (cc_ e = curr ∧ spurious c = false) then (got_id (Z.lxor next curr) th, set_cc next e)
      else (at_pc RLoadCc th, e)
  | RAdd => (got_id (u32 (cc_ e + 1)) th, set_cc (u32 (cc_ e + 1)) e)
  | DConn cc_id =>
      (at_pc Idle th, set_cc (if broadcast then ConnHead.disconnect (cc_ e) cc_id else ConnHead.udisconnect (cc_ e) cc_id) e)
  | _ => (th, e)
  end.

(** [queue_base::connect] takes the index of the ring. *)
Definition cursor_step (th : thread) (e : elems) : thread * elems :=
  let b := negb (bool_decide (connected_ (que th) = 0)) in
  (with_que (if b then set_cursor (cursor e) (que th) else que th) Idle b th, e).

Definition next (c : choice) (th : thread) (e : elems) : thread * elems :=
  match at_ th with
  | Idle => idle_step c th e
  | ILoad | ILock | ILoadLocked | INewCc | INewLc | INewConstructed | IStore | IUnlock => init_step th e
  | SSet | SClear => sender_step th e
  | RSet | DClear _ => receiver_step th e
  | RLoadCc | RCas _ | RAdd | DConn _ => conn_step c th e
  | RCursor => cursor_step th e
  end.

Definition valid (q : queue) : bool := elems_ q.
Definition conn_count (q : queue) (e : elems) : Z :=
  if elems_ q then (if broadcast then ConnHead.conn_count (cc_ e) else cc_ e) else invalid_value.
Definition empty (q : queue) (e : elems) : bool := negb (valid q) || bool_decide (cursor_ q = cursor e).

(** ** The invariant *)

(** No push is forced_roles, and a producer of a ring of one ends its role for good only. *)
Definition gentle (th : thread) (c : choice) : choice :=
  match c with
  | CallForce _ => Go
  | CallReconnect true | CallDisconnect => if sender_flag_ (que th) && negb multi_producer then Go else c
  | _ => c
  end.

Definition next_gentle (c : choice) (th : thread) : elems → thread * elems := next (gentle th c) th.

(** The handle is being destroyed and is no longer the producer. *)
Definition retired (th : thread) : bool :=
  match todo th with
  | [ODisconnect; OFree] | [OFree] => match at_ th with SClear => false | _ => true end
  | _ => false
  end.

Definition sends (th : thread) : bool := sender_flag_ (que th) && negb (retired th).

Definition connected (th : thread) : bool := negb (bool_decide (connected_ (que th) = 0)).

(** The handle has the flag of a single consumer. *)
Definition receives (th : thread) : bool :=
  connected th || match at_ th with RLoadCc | RCas _ | RAdd | DClear _ => true | _ => false end.

(** The id the handle has in [cc_]. *)
Definition id_of (th : thread) : Z :=
  match at_ th with DClear id | DConn id => id | _ => connected_ (que th) end.

Definition counted (th : thread) : bool := negb (bool_decide (id_of th = 0)).

(** The methods that may remain of a call. *)
Inductive todo_ok (q : queue) : list op → Prop :=
| todo_none : todo_ok q []
| todo_connect : todo_ok q [OConnect]
| todo_disconnect : todo_ok q [ODisconnect]
| todo_ready : todo_ok q [OReady]
| todo_turn : todo_ok q [ODisconnect; OReady]
| todo_shut_connect : multi_producer = true ∨ sender_flag_ q = false → todo_ok q [OShut; OConnect]
| todo_shut_disconnect : multi_producer = true ∨ sender_flag_ q = false → todo_ok q [OShut; ODisconnect]
| todo_destroy : todo_ok q [OShut; ODisconnect; OFree]
| todo_retire : todo_ok q [ODisconnect; OFree]
| todo_free : connected_ q = 0 → todo_ok q [OFree].

Definition at_ok (q : queue) (td : list op) (p : pc) : Prop :=
  match p with
  | ILock | ILoadLocked | INewCc | INewLc | INewConstructed | IStore | IUnlock => False
  | SSet => sender_flag_ q = false ∧ td = []
  | SClear => sender_flag_ q = true ∧ td = [ODisconnect; OFree]
  | RSet => connected_ q = 0 ∧ td = []
  | RLoadCc | RCas _ => connected_ q = 0 ∧ td = [] ∧ broadcast = true
  | RAdd => connected_ q = 0 ∧ td = [] ∧ broadcast = false
  | RCursor => td = []
  | DClear id | DConn id => connected_ q = 0 ∧ id ≠ 0
  | ILoad => td = []
  | Idle => True
  end.

Record thread_ok (th : thread) : Prop := {
  to_at : at_ok (que th) (todo th) (at_ th);
  to_todo : todo_ok (que th) (todo th);
  to_open : elems_ (que th) = false → que th = closed_queue ∧ (at_ th = Idle ∨ at_ th = ILoad) }.

(** The ids in the word of a broadcast ring are those of the handles, each its own. *)
Definition bits_ok (cc : Z) (m : gmap nat thread) : Prop :=
  ∃ ids, ConnHead.conn_ok cc ids ∧ Z.of_nat (size ids) = count counted m ∧
    (∀ t th, m !! t = Some th → counted th = true → id_of th ∈ ids) ∧
    (∀ t t' th th', m !! t = Some th → m !! t' = Some th' → counted th = true → id_of th = id_of th' → t = t').

Record conn_inv (k : config elems thread) : Prop := {
  ci_constructed : constructed_ (shared k) = true;
  ci_threads : map_Forall (λ _, thread_ok) (pcs k);
  ci_sender : multi_producer = false → count sends (pcs k) ≤ Z.b2z (s_ckr_ (shared k));
  ci_receiver : multi_consumer = false → count receives (pcs k) ≤ Z.b2z (r_ckr_ (shared k));
  ci_count : broadcast = false → cc_ (shared k) = count counted (pcs k);
  ci_bits : broadcast = true → bits_ok (cc_ (shared k)) (pcs k);
  ci_ids : broadcast = false → map_Forall (λ _ th, id_of th < 2 ^ 32 - 1) (pcs k);
  ci_size : Z.of_nat (size (pcs k)) < 2 ^ 32 - 1 }.

(** ** Lemmas *)

(** A step that changes whether a thread has a role, and the flag of the role. *)
Definition role_ok (flag flag' before after : bool) : Prop :=
  ∀ n, Z.b2z before ≤ n ≤ Z.b2z flag → n - Z.b2z before + Z.b2z after ≤ Z.b2z flag'.

Lemma role_keep flag before after : (after = true → before = true) → role_ok flag flag before after.
Proof. intros H n Hn. destruct before, after; cbn in *; try specialize (H eq_refl); done || lia. Qed.

Lemma count_role (P : thread → bool) m t th th' flag flag' :
  m !! t = Some th → role_ok flag flag' (P th) (P th') → count P m ≤ Z.b2z flag → count P (<[t:=th']> m) ≤ Z.b2z flag'.
Proof.
  intros Ht Hr Hc. rewrite (count_update P m t th th' Ht). apply Hr. split; [|done].
  pose proof (count_bounds P m). destruct (P th) eqn:E; [by apply (count_one P m t th)|cbn; lia].
Qed.

Lemma bits_same cc m t th th' : bits_ok cc m → m !! t = Some th → id_of th' = id_of th → bits_ok cc (<[t := th']> m).
Proof.
  intros (ids & Hok & Hs & Hin & Hinj) Ht E. assert (counted th' = counted th) as Ec by (unfold counted; by rewrite E).
  exists ids. split; [done|]. split; [|split].
  - rewrite (count_update counted m t th th' Ht), Ec, Hs. lia.
  - intros t1 th1 H1 Hc. apply lookup_insert_Some in H1 as [[<- <-]|[_ H1]]; [|by eapply Hin].
    rewrite E. rewrite Ec in Hc. by eapply Hin.
  - intros t1 t2 th1 th2 H1 H2. apply lookup_insert_Some in H1 as [[<- <-]|[? H1]]; apply lookup_insert_Some in H2 as [[<- <-]|[? H2]];
      rewrite ?E, ?Ec; [done|by apply Hinj|by apply Hinj|by apply Hinj].
Qed.

Lemma bits_connect cc m t th th' :
  bits_ok cc m → m !! t = Some th → id_of th = 0 → cc ≠ 2 ^ 32 - 1 → id_of th' = (ConnHead.connect cc).1 →
  bits_ok (ConnHead.connect cc).2 (<[t := th']> m).
Proof.
  intros (ids & Hok & Hs & Hin & Hinj) Ht E0 Hfull E.
  destruct (ConnHead.connect_spec cc ids Hok Hfull) as (k & Hk & Ec & Hfresh & Hok'). rewrite Ec in *. cbn [fst snd] in *.
  assert (counted th = false) as Hc0 by (unfold counted; by rewrite E0).
  assert (counted th' = true) as Hc1.
  { unfold counted. rewrite E. pose proof (Z.pow_pos_nonneg 2 k ltac:(lia) ltac:(lia)). rewrite bool_decide_false by lia. done. }
  assert (∀ t1 th1, m !! t1 = Some th1 → counted th1 = true → id_of th1 ≠ 2 ^ k) as Hne.
  { intros t1 th1 H1 Hc Ek. apply Hfresh. rewrite <- Ek. by eapply Hin. }
  exists ({[2 ^ k]} ∪ ids). split; [done|]. split; [|split].
  - rewrite (count_update counted m t th th' Ht), Hc0, Hc1, size_union, size_singleton by set_solver. cbn. lia.
  - intros t1 th1 H1 Hc. apply elem_of_union. apply lookup_insert_Some in H1 as [[<- <-]|[_ H1]]; [left; by apply elem_of_singleton|right; by eapply Hin].
  - intros t1 t2 th1 th2 H1 H2 Hc Eid. apply lookup_insert_Some in H1 as [[<- <-]|[? H1]]; apply lookup_insert_Some in H2 as [[<- <-]|[? H2]];
      [done| | |by eapply Hinj]; exfalso.
    + apply (Hne t2 th2 H2); [unfold counted in *; by rewrite <- Eid|congruence].
    + apply (Hne t1 th1 H1); [done|congruence].
Qed.

Lemma bits_disconnect cc m t th th' :
  bits_ok cc m → m !! t = Some th → counted th = true → id_of th' = 0 →
  bits_ok (ConnHead.disconnect cc (id_of th)) (<[t := th']> m).
Proof.
  intros (ids & Hok & Hs & Hin & Hinj) Ht Hc E0. pose proof (Hin t th Ht Hc) as Hid.
  assert (counted th' = false) as Hc' by (unfold counted; by rewrite E0).
  exists (ids ∖ {[id_of th]}). split; [by apply ConnHead.disconnect_spec|]. split; [|split].
  - rewrite (count_update counted m t th th' Ht), Hc, Hc', size_difference, size_singleton by set_solver.
    assert (size ids ≠ 0%nat) by (rewrite size_non_empty_iff; set_solver). cbn. lia.
  - intros t1 th1 H1 Hc1. apply lookup_insert_Some in H1 as [[<- <-]|[Hne H1]]; [by rewrite Hc' in Hc1|].
    apply elem_of_difference. split; [by eapply Hin|]. rewrite elem_of_singleton. intros Eid. apply Hne. by eapply (Hinj t t1 th th1).
  - intros t1 t2 th1 th2 H1 H2 Hc1 Eid. apply lookup_insert_Some in H1 as [[<- <-]|[? H1]]; [by rewrite Hc' in Hc1|].
    apply lookup_insert_Some in H2 as [[<- <-]|[? H2]]; [|by eapply Hinj]. unfold counted in Hc1. by rewrite Eid, E0 in Hc1.
Qed.

Lemma inv_update s m t th s' th' :
  conn_inv {| shared := s; pcs := m |} → m !! t = Some th →
  constructed_ s' = true → thread_ok th' →
  (multi_producer = false → role_ok (s_ckr_ s) (s_ckr_ s') (sends th) (sends th')) →
  (multi_consumer = false → role_ok (r_ckr_ s) (r_ckr_ s') (receives th) (receives th')) →
  (broadcast = false → cc_ s' = cc_ s - Z.b2z (counted th) + Z.b2z (counted th') ∧ id_of th' < 2 ^ 32 - 1) →
  (broadcast = true → bits_ok (cc_ s) m → bits_ok (cc_ s') (<[t := th']> m)) →
  conn_inv {| shared := s'; pcs := <[t := th']> m |}.
Proof.
  intros [HC HT HS HR HN HB HI HZ] Ht Hc Hth Hs Hr Hn Hb. cbn [shared pcs] in *. split; cbn [shared pcs].
  - done.
  - by apply map_Forall_insert_2.
  - intros E. eapply count_role; [done|by apply Hs|by apply HS].
  - intros E. eapply count_role; [done|by apply Hr|by apply HR].
  - intros E. rewrite (count_update counted m t th th' Ht). destruct (Hn E) as [-> _]. rewrite (HN E). lia.
  - intros E. apply (Hb E), (HB E).
  - intros E. apply map_Forall_insert_2; [by apply Hn|by apply HI].
  - rewrite map_size_insert_Some by done. exact HZ.
Qed.

(** A step that leaves the flags and connections alone. *)
Lemma conn_local s m t th s' th' :
  conn_inv {| shared := s; pcs := m |} → m !! t = Some th →
  constructed_ s' = true → s_ckr_ s' = s_ckr_ s → r_ckr_ s' = r_ckr_ s → cc_ s' = cc_ s → thread_ok th' →
  (multi_producer = false → sends th' = true → sends th = true) →
  (multi_consumer = false → receives th' = true → receives th = true) → id_of th' = id_of th →
  conn_inv {| shared := s'; pcs := <[t := th']> m |}.
Proof.
  intros Hinv Ht Hc E1 E2 E3 Hth Hs Hr Hid.
  apply (inv_update s m t th); rewrite ?E1, ?E2, ?E3; [done..| | | |].
  - intros E. by apply role_keep, Hs.
  - intros E. by apply role_keep, Hr.
  - intros E. unfold counted. rewrite Hid. split; [lia|]. by apply (ci_ids _ Hinv E t).
  - intros _ Hb. by apply (bits_same _ _ t th).
Qed.

Lemma fits_32 m t th : m !! t = Some th → counted th = false → count counted m < Z.of_nat (size m).
Proof.
  intros Ht Hc. rewrite (count_delete counted m t th Ht), Hc. pose proof (count_bounds counted (delete t m)) as Hb.
  assert (size m = S (size (delete t m))) as ->; [|cbn; lia].
  rewrite <- (insert_delete_id m t th Ht) at 1. rewrite map_size_insert_None; [done|apply lookup_delete_eq].
Qed.

Ltac decide_known :=
  repeat match goal with
  | H : ?P |- context [bool_decide ?P] => rewrite (bool_decide_true P) by exact H
  | H : ¬ ?P |- context [bool_decide ?P] => rewrite (bool_decide_false P) by exact H
  end.

Ltac use_thread Hinv Ht th :=
  pose proof (ci_constructed _ Hinv) as Hcon; destruct (ci_threads _ Hinv _ _ Ht) as [Hat Htodo Hopen];
  destruct th as [q p td r]; cbn in *.

Ltac unfold_next := unfold next_gentle, next, idle_step, init_step, sender_step, receiver_step, conn_step, cursor_step; cbn [at_ todo que ret].

Ltac thread_step := split; cbn;
  [repeat split; (done || tauto)|first [assumption|once (constructor; tauto)]|intros; first [congruence|tauto|naive_solver]].

Ltac local_step :=
  eapply conn_local; [done|done|done|done|done|done|thread_step|..];
  unfold sends, receives, retired, connected, id_of; cbn; decide_known; rewrite ?andb_true_iff, ?andb_true_r; (done || (intros; congruence) || naive_solver).

(** Between calls: the choices of an idle handle. *)
Lemma idle_call s m t th c :
  conn_inv {| shared := s; pcs := m |} → m !! t = Some th → at_ th = Idle → todo th = [] →
  conn_inv {| shared := (next_gentle c th s).2; pcs := <[t := (next_gentle c th s).1]> m |}.
Proof.
  intros Hinv Ht Hidle Hno. use_thread Hinv Ht th. subst p td. unfold_next.
  destruct c as [|[]| | | |x| |]; cbn [gentle que].
  - destruct (elems_ q) eqn:E; cbn [fst snd]; local_step.
  - destruct (sender_flag_ q && negb multi_producer) eqn:E; cbn [fst snd call]; [local_step|].
    apply andb_false_iff in E. rewrite negb_false_iff in E. local_step.
  - cbn [fst snd call]. case_decide; local_step.
  - destruct (sender_flag_ q && negb multi_producer) eqn:E; cbn [fst snd call]; [local_step|].
    apply andb_false_iff in E. rewrite negb_false_iff in E. local_step.
  - cbn [fst snd call]. local_step.
  - cbn [fst snd call]. local_step.
  - destruct (elems_ q) eqn:E; cbn [fst snd]; local_step.
  - local_step.
  - local_step.
Qed.

(** The next method of a call. *)
Lemma idle_op s m t th c o rest :
  conn_inv {| shared := s; pcs := m |} → m !! t = Some th → at_ th = Idle → todo th = o :: rest →
  conn_inv {| shared := (next_gentle c th s).2; pcs := <[t := (next_gentle c th s).1]> m |}.
Proof.
  intros Hinv Ht Hidle Hno. use_thread Hinv Ht th. subst p td. unfold_next.
  destruct o; unfold start_op, connect_receiver, connect_conn, disconnect_receiver.
  - destruct (elems_ q && sender_flag_ q && negb multi_producer) eqn:E; cbn [fst snd].
    + apply andb_true_iff in E as [[? E]%andb_true_iff Em]. apply negb_true_iff in Em. inversion Htodo; subst; [naive_solver congruence..|].
      local_step.
    + rewrite !andb_false_iff, negb_false_iff in E. inversion Htodo; subst; local_step.
  - destruct (elems_ q) eqn:E; cbn [negb]; inversion Htodo; subst; [|local_step]. case_decide; [|local_step].
    destruct multi_consumer eqn:?, broadcast eqn:?; local_step.
  - destruct (elems_ q) eqn:E; cbn [negb orb]; [|destruct (Hopen eq_refl) as [-> _]; inversion Htodo; subst; local_step].
    case_bool_decide; [inversion Htodo; subst; local_step|]. destruct multi_consumer eqn:?; inversion Htodo; subst; local_step.
  - destruct (elems_ q) eqn:E; cbn [negb]; inversion Htodo; subst; [|local_step]. destruct (sender_flag_ q) eqn:E2; [local_step|].
    destruct multi_producer eqn:?; local_step.
  - inversion Htodo; subst; local_step.
Qed.

(** The id a handle gets from a counter of connections. *)
Lemma counter_room s m t th :
  conn_inv {| shared := s; pcs := m |} → m !! t = Some th → id_of th = 0 → broadcast = false →
  u32 (cc_ s + 1) = cc_ s + 1 ∧ 0 < cc_ s + 1 < 2 ^ 32 - 1.
Proof.
  intros Hinv Ht E0 Hb. pose proof (ci_size _ Hinv) as Hs. pose proof (ci_count _ Hinv Hb) as Hc. cbn [shared pcs] in *.
  pose proof (fits_32 m t th Ht ltac:(unfold counted; by rewrite E0)). pose proof (count_bounds counted m).
  rewrite u32_small; lia.
Qed.

Ltac role_step s q :=
  intros _ n Hn; unfold sends, receives, retired, connected in *; cbn in *; decide_known;
  destruct (s_ckr_ s), (r_ckr_ s), (sender_flag_ q) eqn:?; cbn in *;
  repeat case_bool_decide; cbn in *; (discriminate || congruence || lia).

(** The producer's flag. *)
Lemma flag_good s m t th c :
  conn_inv {| shared := s; pcs := m |} → m !! t = Some th → at_ th = SSet ∨ at_ th = SClear →
  conn_inv {| shared := (next_gentle c th s).2; pcs := <[t := (next_gentle c th s).1]> m |}.
Proof.
  intros Hinv Ht Hp. use_thread Hinv Ht th. unfold_next.
  destruct Hp as [-> | ->]; cbn [fst snd]; cbn in Hat.
  - destruct Hat as [Hsf ->]. assert (elems_ q = true) as Eq by (destruct (elems_ q); naive_solver).
    eapply inv_update; [done..| | | | |].
    + thread_step.
    + role_step s q.
    + role_step s q.
    + intros Hb. split; [unfold counted, id_of; cbn; lia|]. exact (ci_ids _ Hinv Hb _ _ Ht).
    + intros _ Hb. by eapply bits_same.
  - destruct Hat as [Hsf ->]. eapply inv_update; [done..| | | | |].
    + thread_step.
    + role_step s q.
    + role_step s q.
    + intros Hb. split; [unfold counted, id_of; cbn; lia|]. exact (ci_ids _ Hinv Hb _ _ Ht).
    + intros _ Hb. by eapply bits_same.
Qed.

(** [connect_receiver]. *)
Lemma connect_good s m t th c :
  conn_inv {| shared := s; pcs := m |} → m !! t = Some th →
  match at_ th with RSet | RLoadCc | RCas _ | RAdd | RCursor => True | _ => False end →
  conn_inv {| shared := (next_gentle c th s).2; pcs := <[t := (next_gentle c th s).1]> m |}.
Proof.
  intros Hinv Ht Hp. assert (elems_ (que th) = true) as Eq.
  { destruct (ci_threads _ Hinv _ _ Ht) as [_ _ Hopen]. destruct (elems_ (que th)); [done|].
    destruct (Hopen eq_refl) as [_ [E|E]]; by rewrite E in Hp. }
  use_thread Hinv Ht th. unfold_next.
  destruct p as [| | | | | | | | | | | | |curr| | | |]; try done; cbn in Hat.
  - destruct Hat as [Hq ->]. destruct (r_ckr_ s) eqn:Er; cbn [fst snd].
    + eapply conn_local; [done..|by rewrite Er|done|thread_step|done| |done]. intros _. unfold receives, connected. cbn. by rewrite Hq.
    + unfold connect_conn. eapply inv_update; [done..| | | | |].
      * destruct broadcast eqn:?; thread_step.
      * destruct broadcast; role_step s q.
      * destruct broadcast; role_step s q.
      * intros Hb. rewrite Hb. unfold counted, id_of. cbn. split; [lia|]. exact (ci_ids _ Hinv Hb _ _ Ht).
      * intros Hb Hbits. eapply bits_same; [done..|]. by rewrite Hb.
  - cbn [fst snd]. local_step.
  - destruct Hat as (Hq & -> & Hb). assert (Hid : id_of {| que := q; at_ := RCas curr; todo := []; ret := r |} = 0) by done.
    case_decide as Hz; cbn [fst snd]; [local_step|]. case_decide as Hd; [|local_step]. destruct Hd as [Hd _]. cbn [fst snd].
    eapply inv_update; [done..| | | | |].
    + thread_step.
    + role_step s q.
    + role_step s q.
    + congruence.
    + intros _ Hbits. assert (ConnHead.connect curr = (Z.lxor (Z.lor curr (u32 (curr + 1))) curr, Z.lor curr (u32 (curr + 1)))) as Ec
        by (unfold ConnHead.connect; by rewrite decide_False).
      destruct (decide (curr = 2 ^ 32 - 1)) as [->|Hfull].
      * rewrite Hd in Hbits. cbn. eapply bits_same; [exact Hbits|done|]. done.
      * pose proof (bits_connect curr m t _ (got_id (ConnHead.connect curr).1 {| que := q; at_ := RCas curr; todo := []; ret := r |})
          ltac:(by rewrite <- Hd) Ht Hq Hfull ltac:(done)) as Hc.
        by rewrite Ec in Hc.
  - destruct Hat as (Hq & -> & Hb). destruct (counter_room s m t _ Hinv Ht Hq Hb) as [E Hroom]. rewrite E. cbn [fst snd].
    eapply inv_update; [done..| | | | |].
    + thread_step.
    + role_step s q.
    + role_step s q.
    + intros _. unfold counted, id_of. cbn. rewrite Hq, bool_decide_true, bool_decide_false by lia. cbn. lia.
    + congruence.
  - subst td. cbn [fst snd]. case_bool_decide as Hq; local_step.
Qed.

(** [disconnect_receiver]. *)
Lemma disconnect_good s m t th c :
  conn_inv {| shared := s; pcs := m |} → m !! t = Some th →
  match at_ th with DClear _ | DConn _ => True | _ => False end →
  conn_inv {| shared := (next_gentle c th s).2; pcs := <[t := (next_gentle c th s).1]> m |}.
Proof.
  intros Hinv Ht Hp. assert (elems_ (que th) = true) as Eq.
  { destruct (ci_threads _ Hinv _ _ Ht) as [_ _ Hopen]. destruct (elems_ (que th)); [done|].
    destruct (Hopen eq_refl) as [_ [E|E]]; by rewrite E in Hp. }
  pose proof (ci_count _ Hinv) as Hcount. pose proof (count_one counted m t th Ht) as Hone.
  use_thread Hinv Ht th. unfold_next.
  destruct p as [| | | | | | | | | | | | |curr| | |id|id]; try done; cbn in Hat; destruct Hat as [Hq Hid]; cbn [fst snd].
  - eapply inv_update; [done..| | | | |].
    + thread_step.
    + role_step s q.
    + role_step s q.
    + intros Hb. unfold counted, id_of. cbn. split; [lia|]. exact (ci_ids _ Hinv Hb _ _ Ht).
    + intros _ Hb. by eapply bits_same.
  - eapply inv_update; [done..| | | | |].
    + thread_step.
    + role_step s q.
    + role_step s q.
    + intros Hb. rewrite Hb. pose proof (ci_ids _ Hinv Hb _ _ Ht) as Hmax. cbn in Hmax.
      specialize (Hone ltac:(unfold counted, id_of; cbn; by rewrite bool_decide_false)). specialize (Hcount Hb).
      pose proof (ci_size _ Hinv) as Hs. pose proof (count_bounds counted m). cbn in Hs.
      unfold counted, id_of, ConnHead.udisconnect. cbn. rewrite Hq, (bool_decide_false (id = 0)), bool_decide_true, decide_False, u32_small by lia.
      cbn. lia.
    + intros Hb Hbits. rewrite Hb. apply (bits_disconnect _ m t {| que := q; at_ := DConn id; todo := td; ret := r |}); [done|done| |done].
      unfold counted, id_of. cbn. by rewrite bool_decide_false.
Qed.

Lemma conn_inv_step s m t th c :
  conn_inv {| shared := s; pcs := m |} → m !! t = Some th →
  conn_inv {| shared := (next_gentle c th s).2; pcs := <[t := (next_gentle c th s).1]> m |}.
Proof.
  intros Hinv Ht. destruct (ci_threads _ Hinv t th Ht) as [Hpc _ _]. destruct (at_ th) eqn:E; cbn in Hpc; try done; clear Hpc.
  - destruct (todo th) eqn:Etd; [by apply idle_call|by eapply idle_op].
  - use_thread Hinv Ht th. subst p; cbn in Hat; subst td. unfold_next. rewrite Hcon. cbn [fst snd]. local_step.
  - apply flag_good; auto.
  - apply flag_good; auto.
  - apply connect_good; [done..|by rewrite E].
  - apply connect_good; [done..|by rewrite E].
  - apply connect_good; [done..|by rewrite E].
  - apply connect_good; [done..|by rewrite E].
  - apply connect_good; [done..|by rewrite E].
  - apply disconnect_good; [done..|by rewrite E].
  - apply disconnect_good; [done..|by rewrite E].
Qed.

Definition new_handle : thread := {| que := closed_queue; at_ := Idle; todo := []; ret := false |}.

(** The ring once it is constructed. *)
Definition ready (x : Z) : elems :=
  {| cc_ := 0; lc_ := false; constructed_ := true; s_ckr_ := false; r_ckr_ := false; cursor := x |}.

Lemma ready_inv x m :
  map_Forall (λ _ th, th = new_handle) m → Z.of_nat (size m) < 2 ^ 32 - 1 → conn_inv {| shared := ready x; pcs := m |}.
Proof.
  intros Hm Hs. assert (∀ P, P new_handle = false → count P m = 0) as Hz by (intros P HP; apply count_none; intros t th Ht; by rewrite (Hm t th Ht)).
  split; cbn [shared pcs ready constructed_ s_ckr_ r_ckr_ cc_]; try done.
  - intros t th Ht. rewrite (Hm t th Ht). split; [done|constructor|auto].
  - intros _. by rewrite Hz.
  - intros _. by rewrite Hz.
  - intros _. by rewrite Hz.
  - intros _. exists ∅. split; [|split; [|split]].
    + split; [lia|]. intros id. split; [set_solver|]. intros (b & _ & Hb & _). by rewrite Z.bits_0 in Hb.
    + by rewrite size_empty, Hz.
    + intros t th Ht Hc. by rewrite (Hm t th Ht) in Hc.
    + intros t t' th th' Ht _ Hc. by rewrite (Hm t th Ht) in Hc.
  - intros _ t th Ht. by rewrite (Hm t th Ht).
Qed.

Lemma at_most_one (P : thread → bool) m (b : bool) t t' th th' :
  count P m ≤ Z.b2z b → m !! t = Some th → m !! t' = Some th' → P th = true → P th' = true → t = t'.
Proof.
  intros Hc Ht Ht' HP HP'. destruct (decide (t = t')) as [|Hne]; [done|].
  pose proof (count_two P m t t' th th' Hne Ht Ht' HP HP'). destruct b; cbn in Hc; lia.
Qed.

Lemma connected_counted th : thread_ok th → connected th = true → counted th = true ∧ id_of th = connected_ (que th).
Proof.
  intros [Hat _ _] Hc. unfold counted. assert (id_of th = connected_ (que th)) as ->; [|done].
  unfold connected in Hc. apply negb_true_iff, bool_decide_eq_false in Hc. unfold id_of, at_ok in *. by destruct (at_ th); try naive_solver.
Qed.

(** C25: Handles that connect and leave in any order, from any process, keep their roles: a
    ring of one producer has at most one handle that has been told it may send, a ring of
    one consumer at most one that is connected; the receivers of a broadcast ring have a bit
    of their own each, which is set in the word; and between calls the count of connections
    is the number of connected handles.  As long as no push is forced ([Demo.forced_roles]) and a
    producer of a ring of one gives its role up for good only ([Demo.two_senders]); the ring
    has been constructed by one thread ([Demo.construction_race]). *)
Theorem connections_consistent x m k :
  map_Forall (λ _ th, th = new_handle) m → Z.of_nat (size m) < 2 ^ 32 - 1 →
  reachable next_gentle {| shared := ready x; pcs := m |} k →
  (multi_producer = false → ∀ t t' th th', pcs k !! t = Some th → pcs k !! t' = Some th' →
     sends th = true → sends th' = true → t = t') ∧
  (multi_consumer = false → ∀ t t' th th', pcs k !! t = Some th → pcs k !! t' = Some th' →
     connected th = true → connected th' = true → t = t') ∧
  (broadcast = true → ∀ t th, pcs k !! t = Some th → connected th = true →
     (∃ b, 0 ≤ b < 32 ∧ Z.testbit (cc_ (shared k)) b = true ∧ connected_ (que th) = 2 ^ b) ∧
     ∀ t' th', pcs k !! t' = Some th' → connected_ (que th') = connected_ (que th) → t' = t) ∧
  (map_Forall (λ _ th, at_ th = Idle) (pcs k) →
     ∀ q, elems_ q = true → conn_count q (shared k) = count connected (pcs k)).
Proof.
  intros Hm Hs Hr. assert (conn_inv k) as Hinv.
  { revert Hr. apply reachable_invariant; [by apply ready_inv|]. intros; by apply conn_inv_step. }
  split; [|split; [|split]].
  - intros E t t' th th'. apply (at_most_one _ _ _ _ _ _ _ (ci_sender _ Hinv E)).
  - intros E t t' th th' Ht Ht' Hc Hc'. eapply (at_most_one _ _ _ _ _ _ _ (ci_receiver _ Hinv E)); [done..| |]; unfold receives; by rewrite ?Hc, ?Hc'.
  - intros E t th Ht Hc. destruct (ci_bits _ Hinv E) as (ids & [_ Hids] & _ & Hin & Hinj).
    destruct (connected_counted th (ci_threads _ Hinv t th Ht) Hc) as [Hct Hid]. split.
    + rewrite <- Hid. apply Hids. by eapply Hin.
    + intros t' th' Ht' Eid. symmetry. eapply (Hinj t t' th th'); try done. rewrite Hid, <- Eid.
      symmetry. apply (connected_counted th' (ci_threads _ Hinv t' th' Ht')). unfold connected in *. by rewrite Eid.
  - intros Hidle q Hq. unfold conn_count. rewrite Hq. assert (count connected (pcs k) = count counted (pcs k)) as ->.
    { apply count_ext. intros t th Ht. unfold counted, connected, id_of. by rewrite (Hidle t th Ht). }
    destruct broadcast eqn:E; [|by apply (ci_count _ Hinv)].
    destruct (ci_bits _ Hinv E) as (ids & Hok & Hsz & _). rewrite <- Hsz. unfold ConnHead.conn_count.
    apply ConnHead.count_bits_spec; [done|by apply (ConnHead.conn_size (cc_ (shared k)))].
Qed.

End connections.

(** ** Runs *)

Module Demo.

Definition handles (n : nat) : gmap nat thread := list_to_map (map (λ t, (t, new_handle)) (seq 0 n)).

Definition go (t : nat) (c : choice) (n : nat) : list (nat * choice) := (t, c) :: replicate n (t, Go).

(** The policy of [ipc::route]: one producer, many consumers, broadcast. *)
Definition route : choice → thread → elems → thread * elems := next false true true.

(** The policy of one producer and one consumer. *)
Definition single : choice → thread → elems → thread * elems := next false false false.

Definition start : config elems thread := {| shared := ready 0; pcs := handles 3 |}.

Definition opened : list (nat * choice) := go 0 CallOpen 1 ++ go 1 CallOpen 1 ++ go 2 CallOpen 1.

Definition is_sender (t : nat) (k : config elems thread) : option bool := sender_flag_ ∘ que <$> pcs k !! t.
Definition answer (t : nat) (k : config elems thread) : option bool := ret <$> pcs k !! t.
Definition id (t : nat) (k : config elems thread) : option Z := connected_ ∘ que <$> pcs k !! t.

(** The second sender of a route is refused; receivers get ids of their own. *)
Example roles :
  let k := run_schedule route (opened ++ go 0 (CallReconnect false) 2 ++ go 1 (CallReconnect false) 2 ++
             go 1 (CallReconnect true) 6 ++ go 2 (CallReconnect true) 6) start in
  answer 0 k = Some true ∧ is_sender 1 k = Some false ∧ id 1 k = Some 1 ∧ id 2 k = Some 2 ∧ cc_ (shared k) = 3.
Proof. vm_compute. split_and!; reflexivity. Qed.

(** A sender that turns to receiving gives the flag back but keeps its own, so that it may
    send again beside the next sender. *)
Example two_senders :
  let k := run_schedule route (opened ++ go 0 (CallReconnect false) 2 ++ go 0 (CallReconnect true) 6 ++
             go 1 (CallReconnect false) 2 ++ go 0 (CallReconnect false) 4) start in
  answer 0 k = Some true ∧ answer 1 k = Some true ∧ is_sender 0 k = Some true ∧ is_sender 1 k = Some true.
Proof. vm_compute. split_and!; reflexivity. Qed.

(** After a forced_roles push, the receiver that was given up and the next one: both connected to
    a ring of one consumer; or with the same bit of a broadcast ring. *)
Example forced_roles :
  (let k := run_schedule single (opened ++ go 1 (CallReconnect true) 6 ++ go 0 (CallForce (2 ^ 32 - 1)) 2 ++
              go 2 (CallReconnect true) 6) start in
   id 1 k = Some 1 ∧ id 2 k = Some 1) ∧
  let k := run_schedule route (opened ++ go 1 (CallReconnect true) 6 ++ go 0 (CallForce 1) 2 ++ go 2 (CallReconnect true) 6) start in
  id 1 k = Some 1 ∧ id 2 k = Some 1 ∧ cc_ (shared k) = 1.
Proof. vm_compute. split_and!; reflexivity. Qed.

(** One thread alone constructs the ring. *)
Example construction :
  let k := run_schedule route (go 0 CallOpen 8) {| shared := zero_elems; pcs := handles 1 |} in
  shared k = ready 0 ∧ elems_ ∘ que <$> pcs k !! 0%nat = Some true.
Proof. vm_compute. split; reflexivity. Qed.

(** Two threads construct it: the new object of the first has an open lock and is not
    constructed, so that the second makes another one and the connection made in between is
    lost. *)
Definition race : list (nat * choice) :=
  go 0 CallOpen 5 ++ go 1 CallOpen 3 ++ replicate 3 (0%nat, Go) ++ go 0 (CallReconnect true) 6 ++ replicate 5 (1%nat, Go).

Example construction_race :
  let k := run_schedule route race {| shared := zero_elems; pcs := handles 2 |} in
  id 0 k = Some 1 ∧ answer 0 k = Some true ∧ cc_ (shared k) = 0 ∧ constructed_ (shared k) = true.
Proof. vm_compute. split_and!; reflexivity. Qed.

(** A sender and two receivers. *)
Definition session : config elems thread :=
  run_schedule (next_gentle false true true) (opened ++ go 0 (CallReconnect false) 2 ++ go 1 (CallReconnect true) 6 ++
    go 2 (CallReconnect true) 6) start.

Lemma handles_new n : map_Forall (λ _ th, th = new_handle) (handles n).
Proof.
  intros t th Ht. apply elem_of_list_to_map_2, list_elem_of_fmap in Ht as (t' & Ht & _). by simplify_eq.
Qed.

End Demo.

Lemma connections_consistent_witness :
  (∃ b, 0 ≤ b < 32 ∧ Z.testbit (cc_ (shared Demo.session)) b = true ∧ Demo.id 2 Demo.session = Some (2 ^ b)) ∧
  conn_count true {| elems_ := true; connected_ := 0; cursor_ := 0; sender_flag_ := true |} (shared Demo.session) = 2.
Proof.
  destruct (connections_consistent false true true 0 (Demo.handles 3) Demo.session) as (_ & _ & H3 & H4).
  - apply Demo.handles_new.
  - vm_compute. reflexivity.
  - apply run_schedule_reachable.
  - split.
    + destruct (pcs Demo.session !! 2%nat) as [th|] eqn:E; [|by vm_compute in E].
      destruct (H3 eq_refl 2%nat th E) as [(b & Hb & Ht & Hid) _].
      * vm_compute in E. injection E as <-. reflexivity.
      * exists b. split; [done|]. split; [done|]. unfold Demo.id. rewrite E. cbn. f_equal. exact Hid.
    + rewrite H4; [vm_compute; reflexivity| |done].
      apply map_Forall_to_list. vm_compute. repeat constructor.
Defined.
