(* ===== verification/IpcPosix.v ===== *)
(** * Mutexes, clocks and semaphores of POSIX ([platform/waiter_linux.h])

    The wrappers around the calls of POSIX that the waiters use: the time at which a wait
    ends, the mutex that outlives the processes that hold it, and the semaphores with a name.
    The calls themselves are parameters, the classes [RobustMutex] and [Semaphores], with what
    POSIX says of them as their laws. *)

From S2P Require Import Prelude Interleaving IpcBase.
#[local] Open Scope Z_scope.

(** ** The end of a wait *)

Record timespec := { tv_sec : Z; tv_nsec : Z }.

(** A [long] from an unsigned word. *)
Definition i64 (z : Z) : Z := (z + 2 ^ 63) `mod` 2 ^ 64 - 2 ^ 63.

(** [now]: the seconds and microseconds of [gettimeofday], if it succeeds; [tm] is in
    milliseconds, and unsigned, which makes the sums unsigned. *)
Definition calc_wait_time (now : option (Z * Z)) (tm : Z) : option timespec :=
  match now with
  | None => None
  | Some (sec, usec) =>
      let nsec := i64 (u64 (u64 (usec + u64 (tm `mod` 1000 * 1000)) * 1000)) in
      Some {| tv_sec := i64 (u64 (u64 (sec + tm / 1000) + nsec / 1000000000)); tv_nsec := nsec `mod` 1000000000 |}
  end.

Definition nanoseconds (t : timespec) : Z := tv_sec t * 1000000000 + tv_nsec t.

Lemma i64_small z : - 2 ^ 63 ≤ z < 2 ^ 63 → i64 z = z.
Proof. intros Hz. unfold i64. rewrite Z.mod_small by lia. lia. Qed.

(** The time a wait ends is exactly [tm] milliseconds from now, and a valid [timespec]:
    less than a second of nanoseconds.  No sum overflows, for every [tm] of a [size_t] and a
    clock before the year 10^11. *)
Theorem calc_wait_time_exact sec usec tm :
  0 ≤ sec < 2 ^ 62 → 0 ≤ usec < 1000000 → 0 ≤ tm < 2 ^ 64 →
  ∃ t, calc_wait_time (Some (sec, usec)) tm = Some t ∧ 0 ≤ tv_nsec t < 1000000000 ∧
    nanoseconds t = (sec * 1000000 + usec) * 1000 + tm * 1000000.
Proof.
  intros Hs Hu Ht. eexists. split; [reflexivity|]. unfold nanoseconds. cbn [tv_sec tv_nsec].
  pose proof (Z.mod_pos_bound tm 1000 ltac:(lia)). pose proof (Z.div_mod tm 1000 ltac:(lia)).
  assert (0 ≤ tm / 1000 < 2 ^ 55) by (split; [apply Z.div_pos; lia|apply Z.div_lt_upper_bound; lia]).
  rewrite (u64_small (tm `mod` 1000 * 1000)), (u64_small (usec + _)), (u64_small (_ * 1000)) by lia.
  rewrite (i64_small (_ * 1000)) by lia. set (nsec := (usec + tm `mod` 1000 * 1000) * 1000).
  assert (0 ≤ nsec < 2 * 1000000000) as Hn by (unfold nsec; lia).
  pose proof (Z.mod_pos_bound nsec 1000000000 ltac:(lia)). pose proof (Z.div_mod nsec 1000000000 ltac:(lia)).
  assert (0 ≤ nsec / 1000000000 < 2) by (split; [apply Z.div_pos; lia|apply Z.div_lt_upper_bound; lia]).
  rewrite (u64_small (sec + _)), (u64_small (sec + _ + _)), (i64_small (sec + _ + _)) by lia. split; [lia|]. unfold nsec in *. lia.
Qed.

Lemma calc_wait_time_exact_witness :
  ∃ t, calc_wait_time (Some (1700000000, 999999)) 1500 = Some t ∧ 0 ≤ tv_nsec t < 1000000000 ∧
    nanoseconds t = (1700000000 * 1000000 + 999999) * 1000 + 1500 * 1000000.
Proof. apply calc_wait_time_exact; lia. Defined.

(** ** [mutex] *)

Definition EOWNERDEAD : Z := 130.
Definition ENOTRECOVERABLE : Z := 131.

Module Mutex.

(** What a robust mutex knows of its owner: an owner that died leaves it to be repaired, and
    one that unlocks it before it is repaired breaks it. *)
Inductive status := Free | Held (t : nat) | Orphaned | Repairing (t : nat) | Broken.

#[global] Instance status_eq_dec : EqDecision status.
Proof. solve_decision. Defined.

(** [None]: the call blocks. *)
Class RobustMutex := {
  pthread_mutex : Type;
  status_of : pthread_mutex → status;
  pthread_mutex_lock : nat → pthread_mutex → option (Z * pthread_mutex);
  pthread_mutex_consistent : nat → pthread_mutex → Z * pthread_mutex;
  pthread_mutex_unlock : nat → pthread_mutex → Z * pthread_mutex;
  pthread_mutex_destroy : pthread_mutex → Z * pthread_mutex;
  pthread_mutex_init : pthread_mutex → Z * pthread_mutex;     (* shared, robust *)
  dies : nat → pthread_mutex → pthread_mutex;

  lock_law t m :
    match status_of m, pthread_mutex_lock t m with
    | Free, Some (eno, m') => eno = 0 ∧ status_of m' = Held t
    | Orphaned, Some (eno, m') => eno = EOWNERDEAD ∧ status_of m' = Repairing t
    | Broken, Some (eno, m') => eno = ENOTRECOVERABLE ∧ status_of m' = Broken
    | Held _, None | Repairing _, None => True
    | _, _ => False
    end;
  consistent_law t m :
    status_of m = Repairing t → (pthread_mutex_consistent t m).1 = 0 ∧ status_of (pthread_mutex_consistent t m).2 = Held t;
  unlock_law t m :
    match status_of m with
    | Held t' => t = t' → (pthread_mutex_unlock t m).1 = 0 ∧ status_of (pthread_mutex_unlock t m).2 = Free
    | Repairing t' => t = t' → status_of (pthread_mutex_unlock t m).2 = Broken
    | _ => True
    end;
  dies_law t m :
    status_of (dies t m) =
      match status_of m with
      | Held t' => if decide (t = t') then Orphaned else Held t'
      | Repairing t' => if decide (t = t') then Orphaned else Repairing t'
      | s => s
      end }.

Section mutex.
Context `{RobustMutex}.

Inductive pc :=
| Out | Call | Consistent | Repaired | Close | Open | Failed      (* lock *)
| Inside | Unlock
| Dead.

#[global] Instance pc_eq_dec : EqDecision pc.
Proof. solve_decision. Defined.

Record thread := { tid : nat; at_ : pc }.

Definition at_pc (p : pc) (th : thread) : thread := {| tid := tid th; at_ := p |}.

(** [Die]: the process of the thread ends. *)
Inductive choice := Go | Die.

Definition lock_step (th : thread) (m : pthread_mutex) : pc * pthread_mutex :=
  match at_ th with
  | Call =>
      match pthread_mutex_lock (tid th) m with
      | None => (Call, m)
      | Some (eno, m) =>
          (if decide (eno = 0) then Inside
           else if decide (eno = EOWNERDEAD) then Consistent
           else if decide (eno = ENOTRECOVERABLE) then Close
           else Failed, m)
      end
  | Consistent => let '(eno, m) := pthread_mutex_consistent (tid th) m in (if decide (eno = 0) then Repaired else Close, m)
  | Repaired => let '(_, m) := pthread_mutex_unlock (tid th) m in (Call, m)
  | Close => let '(eno, m) := pthread_mutex_destroy m in (if decide (eno = 0) then Open else Failed, m)
  | Open => let '(eno, m) := pthread_mutex_init m in (if decide (eno = 0) then Call else Failed, m)
  | p => (p, m)
  end.

Definition next (c : choice) (th : thread) (m : pthread_mutex) : thread * pthread_mutex :=
  match c, at_ th with
  | _, Dead => (th, m)
  | Die, _ => (at_pc Dead th, dies (tid th) m)
  | Go, Out => (at_pc Call th, m)
  | Go, Inside => (at_pc Unlock th, m)
  | Go, Unlock => let '(_, m) := pthread_mutex_unlock (tid th) m in (at_pc Out th, m)
  | Go, _ => let '(p, m) := lock_step th m in (at_pc p th, m)
  end.

(** *** The invariant *)

(** The status while a thread is at a program counter. *)
Definition owns (t : nat) (p : pc) (s : status) : Prop :=
  match p with
  | Inside | Unlock | Repaired => s = Held t
  | Consistent => s = Repairing t
  | Close | Open | Failed => False
  | Out | Call | Dead => s ≠ Held t ∧ s ≠ Repairing t
  end.

Definition mutex_inv (k : config pthread_mutex thread) : Prop :=
  status_of (shared k) ≠ Broken ∧
  (∀ t, status_of (shared k) = Held t ∨ status_of (shared k) = Repairing t → is_Some (pcs k !! t)) ∧
  ∀ t th, pcs k !! t = Some th → tid th = t ∧ owns t (at_ th) (status_of (shared k)).

(** The thread may change the status when nobody else has the mutex. *)
Definition mine (t : nat) (s : status) : Prop :=
  match s with Free | Orphaned => True | Held t' | Repairing t' => t' = t | Broken => False end.

Lemma next_owns c th m :
  status_of m ≠ Broken → owns (tid th) (at_ th) (status_of m) →
  let r := next c th m in
  tid r.1 = tid th ∧ owns (tid th) (at_ r.1) (status_of r.2) ∧
  (status_of r.2 = status_of m ∨ mine (tid th) (status_of m) ∧ mine (tid th) (status_of r.2)).
Proof.
  intros Hb Ho. destruct th as [t p]. cbn [tid at_] in *.
  pose proof (lock_law t m) as Hlock. pose proof (consistent_law t m) as Hcons. pose proof (unlock_law t m) as Hunlock.
  pose proof (dies_law t m) as Hdies. unfold next. cbn [at_ tid].
  destruct (decide (p = Dead)) as [->|Hp]; [by destruct c; cbn; auto|].
  destruct c.
  - destruct p; cbn [owns] in Ho; cbn [lock_step at_ tid]; try done; cbn [fst snd tid at_ at_pc owns]; auto.
    + destruct (status_of m) eqn:Es, (pthread_mutex_lock t m) as [[eno m']|]; try done;
        first [by cbn; rewrite Es; auto | destruct Hlock as [E Hm']; rewrite E; cbn; rewrite Hm'; naive_solver].
    + destruct (Hcons Ho) as [He Hm']. destruct (pthread_mutex_consistent t m) as [eno m']. cbn in *. subst eno. cbn.
      rewrite Ho, Hm'. naive_solver.
    + rewrite Ho in Hunlock. destruct (Hunlock eq_refl) as [_ Hm']. destruct (pthread_mutex_unlock t m) as [eno m']. cbn in *.
      rewrite Ho, Hm'. naive_solver.
    + rewrite Ho in Hunlock. destruct (Hunlock eq_refl) as [_ Hm']. destruct (pthread_mutex_unlock t m) as [eno m']. cbn in *.
      rewrite Ho, Hm'. naive_solver.
  - assert (next Die {| tid := t; at_ := p |} m = (at_pc Dead {| tid := t; at_ := p |}, dies t m)) as E by (by destruct p).
    unfold next in E. cbn [at_ tid] in E. rewrite E. cbn. rewrite Hdies.
    destruct (status_of m) as [|t'| |t'|]; repeat case_decide; subst; cbn; naive_solver.
Qed.

Lemma owns_other t t' p s s' :
  t' ≠ t → owns t' p s → s' = s ∨ mine t s ∧ mine t s' → owns t' p s'.
Proof. intros Hne Ho [->|[Hs Hs']]; [done|]. destruct p, s, s'; cbn in *; naive_solver. Qed.

Lemma mutex_inv_step m pcs t th c :
  mutex_inv {| shared := m; pcs := pcs |} → pcs !! t = Some th →
  mutex_inv {| shared := (next c th m).2; pcs := <[t := (next c th m).1]> pcs |}.
Proof.
  intros (Hb & Hown & Hall) Ht. cbn [shared Interleaving.pcs] in *. destruct (Hall t th Ht) as [Hid Ho]. subst t.
  destruct (next_owns c th m Hb Ho) as (Hid & Ho' & Hch). unfold mutex_inv. cbn [shared Interleaving.pcs]. split_and!.
  - destruct Hch as [->|[_ Hm]]; [done|]. by destruct (status_of (next c th m).2).
  - intros t' Ht'. destruct (decide (t' = tid th)) as [->|Hne]; [rewrite lookup_insert_eq; by eexists|].
    rewrite lookup_insert_ne by done. destruct Hch as [E|[_ Hm]]; [apply Hown; by rewrite <- E|].
    destruct (status_of (next c th m).2); cbn in Hm; naive_solver.
  - intros t' th' Ht'. apply lookup_insert_Some in Ht' as [[<- <-]|[Hne Ht']]; [done|]. destruct (Hall t' th' Ht') as [? ?].
    split; [done|]. by apply (owns_other (tid th) t' _ (status_of m)).
Qed.

(** C29: A process that dies inside does not block the others, and exclusion holds: among any
    number of threads that lock, unlock and die anywhere, at most one that has returned from
    [lock] has not unlocked; [lock] never fails and never makes the mutex anew; and when
    every thread that lives is outside or calls [lock], one that calls it gets in by its own
    steps, at most four. *)
Theorem mutex_survives_death m pcs k :
  status_of m = Free → (∀ t th, pcs !! t = Some th → tid th = t ∧ at_ th = Out) →
  reachable next {| shared := m; pcs := pcs |} k →
  (∀ t t' th th', Interleaving.pcs k !! t = Some th → Interleaving.pcs k !! t' = Some th' →
     at_ th ∈ [Inside; Unlock] → at_ th' ∈ [Inside; Unlock] → t = t') ∧
  (∀ t th, Interleaving.pcs k !! t = Some th → at_ th ∉ [Close; Open; Failed]) ∧
  (∀ t th, Interleaving.pcs k !! t = Some th → at_ th = Call →
     (∀ t' th', Interleaving.pcs k !! t' = Some th' → at_ th' ∈ [Out; Call; Dead]) →
     ∃ n, (n ≤ 4)%nat ∧ at_ (run_thread next (replicate n Go) th (shared k)).1 = Inside).
Proof.
  intros Hm Hout Hr. assert (mutex_inv k) as (Hb & Hown & Hall).
  { revert k Hr. apply reachable_invariant; [|apply mutex_inv_step]. unfold mutex_inv. cbn. rewrite Hm. split_and!; [done|naive_solver|].
    intros t th Ht. destruct (Hout t th Ht) as [? ->]. done. }
  split_and!.
  - intros t t' th th' Ht Ht' Hi Hi'. destruct (Hall t th Ht) as [_ Ho], (Hall t' th' Ht') as [_ Ho'].
    rewrite !elem_of_cons, elem_of_nil in Hi, Hi'.
    destruct Hi as [E|[E|[]]], Hi' as [E'|[E'|[]]]; rewrite E in Ho; rewrite E' in Ho'; cbn in *; congruence.
  - intros t th Ht Hi. destruct (Hall t th Ht) as [_ Ho]. rewrite !elem_of_cons, elem_of_nil in Hi.
    destruct Hi as [E|[E|[E|[]]]]; by rewrite E in Ho.
  - intros t th Ht Hc Hothers. destruct (Hall t th Ht) as [Hid Ho]. destruct th as [t0 p]. cbn in Hid, Hc. subst t0 p.
    assert (status_of (shared k) = Free ∨ status_of (shared k) = Orphaned) as Hs.
    { assert (∀ t', status_of (shared k) = Held t' ∨ status_of (shared k) = Repairing t' → False) as Hno.
      { intros t' Hst. destruct (Hown t' Hst) as [th' Ht']. destruct (Hall t' th' Ht') as [_ Ho'].
        specialize (Hothers t' th' Ht'). rewrite !elem_of_cons, elem_of_nil in Hothers.
        destruct Hothers as [E|[E|[E|[]]]]; rewrite E in Ho'; cbn in Ho'; naive_solver. }
      destruct (status_of (shared k)) eqn:Es; naive_solver. }
    assert (∀ m, status_of m = Free → at_ (run_thread next [Go] {| tid := t; at_ := Call |} m).1 = Inside) as Hfree.
    { intros m' Hm'. pose proof (lock_law t m') as Hl. rewrite Hm' in Hl. unfold run_thread. cbn [foldl fst snd next at_ lock_step tid].
      destruct (pthread_mutex_lock t m') as [[eno m2]|]; [|done]. destruct Hl as [-> _]. done. }
    destruct Hs as [Hs|Hs]; [exists 1%nat; split; [lia|by apply Hfree]|]. exists 4%nat. split; [lia|].
    assert (∃ m3, run_thread next [Go; Go; Go] {| tid := t; at_ := Call |} (shared k) = ({| tid := t; at_ := Call |}, m3) ∧
      status_of m3 = Free) as (m3 & E & Hm3); [|change (replicate 4 Go) with ([Go; Go; Go] ++ [Go])].
    { clear Hfree. pose proof (lock_law t (shared k)) as Hl. rewrite Hs in Hl. unfold run_thread. cbn [foldl fst snd next at_ lock_step tid].
      destruct (pthread_mutex_lock t (shared k)) as [[eno m1]|]; [|done]. destruct Hl as [-> Hm1].
      rewrite (decide_False (P := EOWNERDEAD = 0)), decide_True by done. cbn.
      destruct (consistent_law t m1 Hm1) as [He Hm2]. destruct (pthread_mutex_consistent t m1) as [eno m2].
      cbn in He, Hm2. subst eno. rewrite (decide_True (P := 0 = 0)) by done. cbn.
      pose proof (unlock_law t m2) as Hu. rewrite Hm2 in Hu. destruct (Hu eq_refl) as [_ Hm3].
      destruct (pthread_mutex_unlock t m2) as [eno m3]. by exists m3. }
    unfold run_thread in *. rewrite foldl_app, E. exact (Hfree m3 Hm3).
Qed.

End mutex.

(** A mutex that is its status. *)
Definition status_mutex : RobustMutex.
Proof.
  refine {|
    pthread_mutex := status; status_of s := s;
    pthread_mutex_lock t s := match s with
      | Free => Some (0, Held t) | Orphaned => Some (EOWNERDEAD, Repairing t) | Broken => Some (ENOTRECOVERABLE, Broken)
      | _ => None end;
    pthread_mutex_consistent t s := match s with Repairing t' => (0, Held t') | s => (22, s) end;
    pthread_mutex_unlock t s := match s with Held _ => (0, Free) | Repairing _ => (0, Broken) | s => (1, s) end;
    pthread_mutex_destroy s := (0, s);
    pthread_mutex_init s := (0, Free);
    dies t s := match s with
      | Held t' => if decide (t = t') then Orphaned else Held t'
      | Repairing t' => if decide (t = t') then Orphaned else Repairing t'
      | s => s end |}; intros t []; naive_solver.
Defined.

#[local] Existing Instance status_mutex.

Module Demo.

Definition pool : gmap nat thread := {[0%nat := {| tid := 0; at_ := Out |}; 1%nat := {| tid := 1; at_ := Out |}]}.

(** The first thread dies inside, the second wants to enter. *)
Definition orphaned : config pthread_mutex thread :=
  run_schedule next [(0, Go); (0, Go); (1, Go); (1, Go); (0, Die)]%nat {| shared := Free; pcs := pool |}.

Example owner_died : shared orphaned = Orphaned ∧ at_ <$> pcs orphaned = {[0%nat := Dead; 1%nat := Call]}.
Proof. vm_compute. split; reflexivity. Qed.

End Demo.

Lemma mutex_survives_death_witness :
  ∃ n, (n ≤ 4)%nat ∧ at_ (run_thread next (replicate n Go) {| tid := 1; at_ := Call |} (shared Demo.orphaned)).1 = Inside.
Proof.
  destruct (@mutex_survives_death status_mutex Free Demo.pool Demo.orphaned) as (_ & _ & H).
  - reflexivity.
  - intros t th Ht. unfold Demo.pool in Ht. apply lookup_insert_Some in Ht as [[<- <-]|[_ Ht]]; [done|].
    apply lookup_singleton_Some in Ht as [<- <-]. done.
  - apply run_schedule_reachable.
  - apply (H 1%nat); [reflexivity|reflexivity|]. intros t' th' Ht'.
    assert (pcs Demo.orphaned = {[0%nat := {| tid := 0; at_ := Dead |}; 1%nat := {| tid := 1; at_ := Call |}]}) as E by reflexivity.
    rewrite E in Ht'. apply lookup_insert_Some in Ht' as [[_ <-]|[_ Ht']]; [evaluate|].
    apply lookup_singleton_Some in Ht' as [_ <-]. evaluate.
Defined.

End Mutex.

(** ** [sem_helper] *)

(** Semaphores with a name: [named] is what a name stands for, [value] the tokens.  Every
    call may fail, and then changes nothing. *)
Class Semaphores := {
  sem_kernel : Type;
  sem : Type;
  sem_eq_dec : EqDecision sem;
  sem_named : string → sem_kernel → option sem;
  value : sem → sem_kernel → Z;
  sem_open : string → Z → sem_kernel → option sem * sem_kernel;            (* O_CREAT, 0666 *)
  sem_close : sem → sem_kernel → bool * sem_kernel;
  sem_unlink : string → sem_kernel → bool * sem_kernel;
  sem_post : sem → sem_kernel → bool * sem_kernel;
  sem_wait : sem → sem_kernel → option (bool * sem_kernel);                (* None: blocks *)
  sem_timedwait : sem → timespec → sem_kernel → bool * sem_kernel;

  sem_open_law name count k :
    match sem_open name count k with
    | (None, k') => k' = k
    | (Some s, k') =>
        sem_named name k' = Some s ∧ (∀ n, n ≠ name → sem_named n k' = sem_named n k) ∧
        (∀ s', sem_named name k = Some s' → s' = s ∧ k' = k) ∧
        (sem_named name k = None → value s k' = count ∧ (∀ s', s' ≠ s → value s' k' = value s' k) ∧
           ∀ n, sem_named n k ≠ Some s)
    end;
  sem_close_law s k name : sem_named name (sem_close s k).2 = sem_named name k;
  sem_unlink_law name k :
    match sem_unlink name k with
    | (false, k') => k' = k
    | (true, k') => sem_named name k' = None ∧ (∀ n, n ≠ name → sem_named n k' = sem_named n k) ∧
                    ∀ s, value s k' = value s k
    end;
  sem_post_law s k :
    match sem_post s k with
    | (false, k') => k' = k
    | (true, k') => value s k' = value s k + 1 ∧ (∀ s', s' ≠ s → value s' k' = value s' k) ∧
                    ∀ n, sem_named n k' = sem_named n k
    end;
  sem_wait_law s k :
    match sem_wait s k with
    | None => value s k ≤ 0
    | Some (false, k') => k' = k
    | Some (true, k') => 0 < value s k ∧ value s k' = value s k - 1 ∧ (∀ s', s' ≠ s → value s' k' = value s' k) ∧
                         ∀ n, sem_named n k' = sem_named n k
    end;
  sem_timedwait_law s t k :
    match sem_timedwait s t k with
    | (false, k') => k' = k
    | (true, k') => 0 < value s k ∧ value s k' = value s k - 1 ∧ (∀ s', s' ≠ s → value s' k' = value s' k) ∧
                    ∀ n, sem_named n k' = sem_named n k
    end }.
#[export] Existing Instance sem_eq_dec.

Module SemHelper.
Section sem_helper.
Context `{Semaphores}.

(** [SEM_FAILED] is [None]. *)
Definition open (name : string) (count : Z) (k : sem_kernel) : option sem * sem_kernel := sem_open name count k.

Definition close (h : option sem) (k : sem_kernel) : bool * sem_kernel :=
  match h with None => (false, k) | Some s => sem_close s k end.

Definition destroy (name : string) (k : sem_kernel) : bool * sem_kernel := sem_unlink name k.

Fixpoint post_loop (n : nat) (s : sem) (k : sem_kernel) : bool * sem_kernel :=
  match n with
  | O => (true, k)
  | S n => let '(ok, k) := sem_post s k in if ok then post_loop n s k else (false, k)
  end.

Definition post (h : option sem) (count : Z) (k : sem_kernel) : bool * sem_kernel :=
  match h with None => (false, k) | Some s => post_loop (Z.to_nat count) s k end.

Definition invalid_value : Z := 2 ^ 64 - 1.

(** [None]: the call blocks; [now] is the clock. *)
Definition wait (h : option sem) (now : option (Z * Z)) (tm : Z) (k : sem_kernel) : option (bool * sem_kernel) :=
  match h with
  | None => Some (false, k)
  | Some s =>
      if decide (tm = 0) then Some (true, k)
      else if decide (tm = invalid_value) then sem_wait s k
      else match calc_wait_time now tm with
           | None => Some (false, k)
           | Some ts => Some (sem_timedwait s ts k)
           end
  end.

(** [post] adds its tokens, or stops at the first call that fails. *)
Lemma post_value s count k :
  let r := post (Some s) count k in
  ∃ n, 0 ≤ n ≤ Z.max 0 count ∧ value s r.2 = value s k + n ∧ (r.1 = true ↔ n = Z.max 0 count) ∧
    (∀ s', s' ≠ s → value s' r.2 = value s' k) ∧ ∀ name, sem_named name r.2 = sem_named name k.
Proof.
  cbn. replace (Z.max 0 count) with (Z.of_nat (Z.to_nat count)) by lia. generalize (Z.to_nat count) as m. intros m.
  revert k. induction m as [|m IH]; intros k; cbn [post_loop]; [exists 0; cbn; split_and!; auto with lia|].
  pose proof (sem_post_law s k) as Hp. destruct (sem_post s k) as [[] k'].
  - destruct Hp as (Hv & Hv' & Hn). destruct (IH k') as (n & Hb & E & Hok & Ho & Hname). exists (n + 1).
    split_and!; [lia|lia|lia|split; [intros ?%Hok; lia|intros; apply Hok; lia]|intros s' ?; rewrite Ho, Hv'; done|intros; by rewrite Hname].
  - subst. exists 0. cbn. split_and!; [lia|lia|lia|split; [done|lia]|done|done].
Qed.

(** [wait] takes one token or none; with time 0 it takes none and says it has. *)
Lemma wait_value s now tm k :
  match wait (Some s) now tm k with
  | None => tm = invalid_value ∧ value s k ≤ 0
  | Some (true, k') => tm = 0 ∧ k' = k ∨ tm ≠ 0 ∧ 0 < value s k ∧ value s k' = value s k - 1
  | Some (false, k') => k' = k
  end.
Proof.
  unfold wait. case_decide as E0; [by left|]. case_decide as Ei.
  - pose proof (sem_wait_law s k) as Hw. destruct (sem_wait s k) as [[[] k']|]; naive_solver.
  - destruct (calc_wait_time now tm) as [ts|]; [|done].
    pose proof (sem_timedwait_law s ts k) as Hw. destruct (sem_timedwait s ts k) as [[] k']; naive_solver.
Qed.

End sem_helper.
End SemHelper.

(** ** A table of semaphores *)

(** A kernel that opens the names it allows, for the runs of the development. *)
Module SemTable.

Record table := { names : gmap string nat; values : gmap nat Z }.

Definition empty : table := {| names := ∅; values := ∅ |}.

Definition next_sem (k : table) : nat := S (max_list ((map_to_list (names k)).*2 ++ (map_to_list (values k)).*1)).

Definition value_of (s : nat) (k : table) : Z := default 0 (values k !! s).

Definition set_value (s : nat) (v : Z) (k : table) : table := {| names := names k; values := <[s := v]> (values k) |}.

Definition take (s : nat) (k : table) : option table :=
  if decide (0 < value_of s k) then Some (set_value s (value_of s k - 1) k) else None.

Lemma next_sem_new k n : names k !! n ≠ Some (next_sem k).
Proof.
  intros Hn. assert (next_sem k ≤ max_list ((map_to_list (names k)).*2 ++ (map_to_list (values k)).*1))%nat; [|unfold next_sem in *; lia].
  apply max_list_elem_of_le, elem_of_app. left. apply list_elem_of_fmap. exists (n, next_sem k). split; [done|].
  by apply elem_of_map_to_list.
Qed.

Lemma value_set s v k : value_of s (set_value s v k) = v.
Proof. unfold value_of, set_value. cbn. by rewrite lookup_insert_eq. Qed.

Lemma value_set_ne s s' v k : s' ≠ s → value_of s' (set_value s v k) = value_of s' k.
Proof. intros. unfold value_of, set_value. cbn. by rewrite lookup_insert_ne. Qed.

Lemma take_law s k :
  match take s k with
  | None => value_of s k ≤ 0
  | Some k' => 0 < value_of s k ∧ value_of s k' = value_of s k - 1 ∧
               (∀ s', s' ≠ s → value_of s' k' = value_of s' k) ∧ ∀ n, names k' !! n = names k !! n
  end.
Proof.
  unfold take. case_decide; [|lia]. rewrite value_set. split_and!; [done|done|intros; by apply value_set_ne|done].
Qed.

Definition take_some (s : nat) (k : table) : option (bool * table) := pair true <$> take s k.

Definition take_now (s : nat) (k : table) : bool * table := default (false, k) (take_some s k).

Definition post (s : nat) (k : table) : bool * table := (true, set_value s (value_of s k + 1) k).

Definition unlink (n : string) (k : table) : bool * table :=
  match names k !! n with
  | Some _ => (true, {| names := delete n (names k); values := values k |})
  | None => (false, k)
  end.

Definition open (allowed : string → bool) (n : string) (count : Z) (k : table) : option nat * table :=
  if allowed n then
    match names k !! n with
    | Some s => (Some s, k)
    | None => (Some (next_sem k), {| names := <[n := next_sem k]> (names k); values := <[next_sem k := count]> (values k) |})
    end
  else (None, k).

Definition semaphores (allowed : string → bool) : Semaphores.
Proof.
  refine {|
    sem_kernel := table; sem := nat; sem_named n k := names k !! n; value := value_of;
    sem_open := open allowed; sem_close _ k := (true, k); sem_unlink := unlink;
    sem_post := post; sem_wait := take_some; sem_timedwait s _ := take_now s |}.
  - abstract (intros n count k; unfold open; destruct (allowed n); [|done]; destruct (names k !! n) as [s|] eqn:E; cbn;
      [split_and!; [done|done|naive_solver|done]|];
      split_and!; [by rewrite lookup_insert_eq|intros; by rewrite lookup_insert_ne|done|];
      intros _; split_and!; [by apply value_set|intros; by apply value_set_ne|intros; apply next_sem_new]).
  - done.
  - abstract (intros n k; unfold unlink; destruct (names k !! n); [|done]; cbn;
      split_and!; [by rewrite lookup_delete_eq|intros; by rewrite lookup_delete_ne|done]).
  - abstract (intros s k; unfold post; split_and!; [apply value_set|intros; by apply value_set_ne|done]).
  - abstract (intros s k; pose proof (take_law s k) as Hl; unfold take_some; destruct (take s k); cbn; naive_solver).
  - abstract (intros s _ k; pose proof (take_law s k) as Hl; unfold take_now, take_some; destruct (take s k); cbn; naive_solver).
Defined.

End SemTable.
