(* ===== verification/IpcWaiterOpen.v ===== *)
(** * Opening and closing a waiter ([waiter_linux.h], [waiter_wrapper.h])

    A waiter in shared memory counts its handles in [opened_]: the first to open makes the
    mutex, everyone opens the two semaphores by their names, and the last to close removes
    the names and the mutex.  Nothing is held over these calls, so the threads of
    [Interleaving] run them one atomic operation or system call at a time. *)

From S2P Require Import Prelude Interleaving IpcBase IpcPosix.
From stdpp Require Import relations strings.
#[local] Open Scope Z_scope.

Section waiter.
Context `{Semaphores}.
(** The name every handle of this waiter opens. *)
Context (name : string).

Definition sem_name : string := "__WAITER_HELPER_SEM__" +:+ name.
Definition han_name : string := "__WAITER_HELPER_HAN__" +:+ name.

Lemma names_differ : sem_name ≠ han_name.
Proof. unfold sem_name, han_name. cbn. intros E. inversion E. Qed.

(** ** State *)

(** [lock_ready]: the mutex is initialised; [leaked] counts the calls of [open] that had counted
    themselves and returned no handle (it is no word of the program). *)
Record waiter := {
  opened_ : Z;
  lock_ready : bool;
  kernel : sem_kernel;
  leaked : Z }.

Definition set_opened n w := {| opened_ := n; lock_ready := lock_ready w; kernel := kernel w; leaked := leaked w |}.
Definition set_ready b w := {| opened_ := opened_ w; lock_ready := b; kernel := kernel w; leaked := leaked w |}.
Definition set_kernel k w := {| opened_ := opened_ w; lock_ready := lock_ready w; kernel := k; leaked := leaked w |}.
Definition leak w := {| opened_ := opened_ w; lock_ready := lock_ready w; kernel := kernel w; leaked := leaked w + 1 |}.

(** Where a [waiter_wrapper] is; [again]: the close belongs to an [open] of a wrapper that is
    open. *)
Inductive pc :=
| Closed
(* open *)
| OAdd
| OInit
| OSem
| OHan (sem_h : sem)
| Opened (sem_h han : sem)
(* close *)
| CQuit (again : bool) (sem_h han : sem)
| CHan (again : bool) (sem_h han : sem)
| CSem (again : bool) (sem_h : sem)
| CSub (again : bool)
| CUnlinkHan (again : bool)
| CUnlinkSem (again : bool)
| CDestroy (again : bool).

#[global] Instance pc_eq_dec : EqDecision pc.
Proof. solve_decision. Defined.

(** The calls of an idle wrapper, and whether a call on the mutex succeeds. *)
Inductive choice := Open | Close | Go | Refuse.

Definition refused (c : choice) : bool := match c with Refuse => true | _ => false end.

(** ** [open] *)

(** [waiter_holder::open]: the mutex. *)
Definition holder_open (c : choice) (w : waiter) : pc * waiter :=
  if refused c then (Closed, leak w) else (OSem, set_ready true w).

(** [waiter_holder::open_h]: the semaphores. *)
Definition open_h (p : pc) (w : waiter) : pc * waiter :=
  match p with
  | OSem =>
      let '(h, k) := SemHelper.open sem_name 0 (kernel w) in
      match h with
      | None => (Closed, leak (set_kernel k w))
      | Some s => (OHan s, set_kernel k w)
      end
  | OHan s =>
      let '(h, k) := SemHelper.open han_name 0 (kernel w) in
      match h with
      | None => (Closed, leak (set_kernel k w))
      | Some h => (Opened s h, set_kernel k w)
      end
  | p => (p, w)
  end.

(** [waiter::open] *)
Definition open_next (c : choice) (p : pc) (w : waiter) : pc * waiter :=
  match p with
  | OAdd =>
      if decide (name = "") then (Closed, w)
      else (if decide (opened_ w = 0) then OInit else OSem, set_opened (u32 (opened_ w + 1)) w)
  | OInit => holder_open c w
  | p => open_h p w
  end.

(** ** [close] *)

Definition closed (again : bool) : pc := if again then OAdd else Closed.

Definition release_h (p : pc) (w : waiter) : pc * waiter :=
  match p with
  | CHan again s h => (CSem again s, set_kernel (SemHelper.close (Some h) (kernel w)).2 w)
  | CSem again s => (CSub again, set_kernel (SemHelper.close (Some s) (kernel w)).2 w)
  | p => (p, w)
  end.

Definition close_h (p : pc) (w : waiter) : pc * waiter :=
  match p with
  | CUnlinkHan again => (CUnlinkSem again, set_kernel (SemHelper.destroy han_name (kernel w)).2 w)
  | CUnlinkSem again => (CDestroy again, set_kernel (SemHelper.destroy sem_name (kernel w)).2 w)
  | p => (p, w)
  end.

Definition holder_close (c : choice) (w : waiter) : waiter := if refused c then w else set_ready false w.

(** [waiter::close], after [quit_waiting] ([CQuit]): what that does to the counters is in
    [IpcWaiter]. *)
Definition close_next (c : choice) (p : pc) (w : waiter) : pc * waiter :=
  match p with
  | CQuit again s h => (CHan again s h, w)
  | CHan _ _ _ | CSem _ _ => release_h p w
  | CSub again => (if decide (opened_ w = 1) then CUnlinkHan again else closed again, set_opened (u32 (opened_ w - 1)) w)
  | CUnlinkHan _ | CUnlinkSem _ => close_h p w
  | CDestroy again => (closed again, holder_close c w)
  | p => (p, w)
  end.

(** [waiter_wrapper::open] closes first; [close] does nothing on a wrapper that is not valid. *)
Definition next (c : choice) (p : pc) (w : waiter) : pc * waiter :=
  match p, c with
  | Closed, Open => (OAdd, w)
  | Closed, _ => (Closed, w)
  | Opened s h, Open => (CQuit true s h, w)
  | Opened s h, Close => (CQuit false s h, w)
  | Opened s h, _ => (Opened s h, w)
  | (OAdd | OInit | OSem | OHan _), _ => open_next c p w
  | _, _ => close_next c p w
  end.

(** ** Handles agree while one of them stays open *)

(** Between its addition to [opened_] and its subtraction. *)
Definition counted (p : pc) : bool :=
  match p with
  | OInit | OSem | OHan _ | Opened _ _ | CQuit _ _ _ | CHan _ _ _ | CSem _ _ | CSub _ => true
  | _ => false
  end.

Definition handles (s h : sem) (p : pc) : Prop :=
  match p with
  | OHan s' => s' = s
  | Opened s' h' | CQuit _ s' h' | CHan _ s' h' => s' = s ∧ h' = h
  | CSem _ s' => s' = s
  | OInit | CUnlinkHan _ | CUnlinkSem _ | CDestroy _ => False
  | _ => True
  end.

Definition named (s h : sem) (k : sem_kernel) : Prop :=
  sem_named sem_name k = Some s ∧ sem_named han_name k = Some h.

(** Every handle but the one that stays open is in [pcs]. *)
Definition shared_inv (s h : sem) (k : config waiter pc) : Prop :=
  let w := shared k in
  0 ≤ leaked w ∧
  (leaked w + Z.of_nat (size (pcs k)) + 2 < 2 ^ 32 →
   opened_ w = 1 + count counted (pcs k) + leaked w ∧ lock_ready w = true ∧ named s h (kernel w) ∧
   map_Forall (λ _ p, handles s h p) (pcs k)).

Lemma reopen n s k : sem_named n k = Some s → sem_open n 0 k = (Some s, k) ∨ sem_open n 0 k = (None, k).
Proof.
  intros Hn. pose proof (sem_open_law n 0 k) as Hl. destruct (sem_open n 0 k) as [[s'|] k'].
  - destruct Hl as (_ & _ & Hs & _). destruct (Hs s Hn) as [-> ->]. by left.
  - subst. by right.
Qed.

Lemma named_close s h x k : named s h k → named s h (sem_close x k).2.
Proof. intros [Hs Hh]. split; by rewrite sem_close_law. Qed.

(** The step of a thread while another handle is open. *)
Lemma next_shared c s h p w :
  1 < opened_ w + Z.b2z (negb (counted p)) → opened_ w + 1 < 2 ^ 32 → 
  lock_ready w = true → named s h (kernel w) → handles s h p →
  let r := next c p w in
  handles s h r.1 ∧ lock_ready r.2 = true ∧ named s h (kernel r.2) ∧
  opened_ r.2 - leaked r.2 = opened_ w - leaked w + Z.b2z (counted r.1) - Z.b2z (counted p) ∧
  leaked w ≤ leaked r.2.
Proof.
  intros Ho Hmax Hr Hn Hp. pose proof Hn as [Hs Hh].
  destruct p; cbn [handles counted negb Z.b2z] in Hp, Ho; try done.
  - destruct c; cbn; auto with lia.
  - destruct c; cbn; (case_decide; [by cbn; auto with lia|]); rewrite decide_False by lia; cbn;
      unfold u32; rewrite Z.mod_small by lia; auto with lia.
  - unfold next, open_next, open_h, SemHelper.open. destruct (reopen _ _ _ Hs) as [E|E]; rewrite E; destruct w, c; cbn in *; auto with lia.
  - unfold next, open_next, open_h, SemHelper.open. destruct (reopen _ _ _ Hh) as [E|E]; rewrite E; destruct w, c; cbn in *; auto with lia.
  - destruct c; cbn; auto with lia.
  - destruct c; cbn; auto with lia.
  - destruct c; cbn; pose proof (named_close s h han _ Hn); naive_solver lia.
  - destruct c; cbn; pose proof (named_close s h sem_h _ Hn); naive_solver lia.
  - assert (next c (CSub again) w = (closed again, set_opened (u32 (opened_ w - 1)) w)) as ->.
    { destruct c; cbn; by rewrite decide_False by lia. }
    unfold u32. rewrite Z.mod_small by lia. destruct again; cbn; auto with lia.
Qed.

Lemma shared_inv_step s h w m t p c :
  shared_inv s h {| shared := w; pcs := m |} → m !! t = Some p →
  shared_inv s h {| shared := (next c p w).2; pcs := <[t := (next c p w).1]> m |}.
Proof.
  unfold shared_inv. cbn [shared pcs]. intros [Hl Hinv] Ht.
  assert (size (<[t := (next c p w).1]> m) = size m) as -> by (by rewrite map_size_insert, Ht).
  destruct (decide (leaked w + Z.of_nat (size m) + 2 < 2 ^ 32)) as [Hb|Hb].
  - destruct (Hinv Hb) as (Ho & Hr & Hn & Hall).
    assert (Z.b2z (counted p) ≤ count counted m).
    { destruct (counted p) eqn:E; cbn; [by apply (count_one _ m t p)|]. apply count_bounds. }
    pose proof (count_bounds counted m).
    destruct (next_shared c s h p w) as (Hp & Hr' & Hn' & Ho' & Hl'); [destruct (counted p); cbn in *; lia|lia|done|done|by apply (Hall t)|].
    split; [lia|]. intros _. split_and!; [|done|done|by apply map_Forall_insert_2].
    rewrite (count_update counted m t p) by done. lia.
  - assert (leaked w ≤ leaked (next c p w).2); [|split; lia]. clear. destruct p, c; cbn; try lia.
    all: unfold SemHelper.open; repeat case_decide; cbn; try lia.
    all: destruct (sem_open _ 0 _) as [[|] k]; cbn; lia.
Qed.

(** ** The life of a waiter *)

(** The segment is new, and filled with zeros. *)
Definition fresh (k : sem_kernel) : waiter := {| opened_ := 0; lock_ready := false; kernel := k; leaked := 0 |}.

Definition open_alone (k : sem_kernel) : pc * waiter := run_thread next [Open; Go; Go; Go; Go] Closed (fresh k).

Lemma open_alone_spec k s h w :
  open_alone k = (Opened s h, w) →
  opened_ w = 1 ∧ leaked w = 0 ∧ lock_ready w = true ∧ named s h (kernel w).
Proof.
  unfold open_alone, run_thread. cbn [foldl fst snd next open_next]. case_decide as Hname; [cbn; intros [=]|].
  change (decide (opened_ (fresh k) = 0)) with (decide (0 = 0)). rewrite (decide_True (P := 0 = 0)) by done.
  cbn [next open_next open_h holder_open refused fst snd set_opened set_ready fresh opened_ kernel leaked].
  unfold SemHelper.open.
  pose proof (sem_open_law sem_name 0 k) as Hs. destruct (sem_open sem_name 0 k) as [[s1|] k1]; [|done]. cbn.
  unfold SemHelper.open.
  pose proof (sem_open_law han_name 0 k1) as Hh. destruct (sem_open han_name 0 k1) as [[h1|] k2]; [|done]. cbn.
  intros [= -> -> <-]. cbn. destruct Hs as [Hs _], Hh as (Hh & Hother & _). unfold named. split_and!; try done.
  rewrite Hother; [done|apply names_differ].
Qed.

Lemma destroy_named n k :
  (∀ n k, is_Some (sem_named n k) → (sem_unlink n k).1 = true) → is_Some (sem_named n k) →
  sem_named n (SemHelper.destroy n k).2 = None ∧
  ∀ n', n' ≠ n → sem_named n' (SemHelper.destroy n k).2 = sem_named n' k.
Proof.
  intros Hu Hn. specialize (Hu n k Hn). pose proof (sem_unlink_law n k) as Hl. unfold SemHelper.destroy.
  destruct (sem_unlink n k) as [b k']. cbn in *. subst b. naive_solver.
Qed.

(** The last handle closes. *)
Lemma close_last s h w :
  (∀ n k, is_Some (sem_named n k) → (sem_unlink n k).1 = true) → opened_ w = 1 → named s h (kernel w) →
  let r := run_thread next [Close; Go; Go; Go; Go; Go; Go; Go] (Opened s h) w in
  r.1 = Closed ∧ opened_ r.2 = 0 ∧ lock_ready r.2 = false ∧
  sem_named sem_name (kernel r.2) = None ∧ sem_named han_name (kernel r.2) = None.
Proof.
  intros Hu Ho Hn. unfold run_thread. cbn. rewrite decide_True by done. cbn. rewrite Ho.
  pose proof (named_close s h s _ (named_close s h h _ Hn)) as [Hs Hh]. set (k := (sem_close s _).2) in *.
  destruct (destroy_named han_name k Hu ltac:(by eexists)) as [Eh Hoh]. set (k' := (SemHelper.destroy han_name k).2) in *.
  assert (sem_named sem_name k' = Some s) as Hs' by (rewrite Hoh; [done|apply names_differ]).
  destruct (destroy_named sem_name k' Hu ltac:(by eexists)) as [Es Hos].
  split_and!; try done. rewrite Hos; [done|]. apply not_eq_sym, names_differ.
Qed.

(** C28: A handle that stays open keeps its waiter together: whoever opens and closes other
    handles, in whatever order their system calls fall and however many of them fail, every
    handle that is open has the two semaphores of the first one, the mutex stays initialised
    and the names stay; [opened_] counts the handles and the calls of [open] that failed.  When the others have closed, none
    failed and [sem_unlink] works, closing the first as well, with nobody else at work
    ([Demo.torn_handles]), leaves nothing: no names, no mutex, a count of zero. *)
Theorem handles_agree k0 s h w m k :
  open_alone k0 = (Opened s h, w) → all_at Closed {| shared := w; pcs := m |} →
  reachable next {| shared := w; pcs := m |} k → leaked (shared k) + Z.of_nat (size (pcs k)) + 2 < 2 ^ 32 →
  (∀ t s' h', pcs k !! t = Some (Opened s' h') → s' = s ∧ h' = h) ∧
  lock_ready (shared k) = true ∧ named s h (kernel (shared k)) ∧
  opened_ (shared k) = 1 + count counted (pcs k) + leaked (shared k) ∧
  ((∀ n k, is_Some (sem_named n k) → (sem_unlink n k).1 = true) → all_at Closed k → leaked (shared k) = 0 →
   let r := run_thread next [Close; Go; Go; Go; Go; Go; Go; Go] (Opened s h) (shared k) in
   r.1 = Closed ∧ opened_ r.2 = 0 ∧ lock_ready r.2 = false ∧
   sem_named sem_name (kernel r.2) = None ∧ sem_named han_name (kernel r.2) = None).
Proof.
  intros Ha Hm Hr Hb. destruct (open_alone_spec _ _ _ _ Ha) as (Ho & Hl & Hready & Hn).
  assert (shared_inv s h k) as [_ Hinv].
  { revert k Hr Hb. intros k Hr _. revert k Hr. apply reachable_invariant; [|apply shared_inv_step].
    unfold shared_inv. cbn [shared pcs]. rewrite Hl, Ho. split; [lia|]. intros _. split_and!; [|done|done|].
    - rewrite count_none; [lia|]. intros t p Ht. by rewrite (Hm t p Ht).
    - intros t p Ht. by rewrite (Hm t p Ht). }
  destruct (Hinv Hb) as (Ho' & Hr' & [Hs Hh] & Hall). split_and!; [|done|done|done|].
  - intros t s' h' Ht. apply (Hall t _ Ht).
  - intros Hunlink Hclosed Hl0. rewrite count_none, Hl0 in Ho' by (intros t p Ht; by rewrite (Hclosed t p Ht)).
    by apply close_last.
Qed.

End waiter.

Arguments next {_} _ _ _ _.
Arguments Closed {_}.
Arguments Opened {_} _ _.

Module Demo.

Definition all_names : Semaphores := SemTable.semaphores (λ _, true).

Definition pool : gmap nat (@pc all_names) := {[1%nat := Closed; 2%nat := Closed]}.

(** The first handle is open; the second opens while the third opens and closes. *)
Definition first : pc * @waiter all_names := @open_alone all_names "channel" SemTable.empty.

Definition others : config (@waiter all_names) (@pc all_names) :=
  run_schedule (@next all_names "channel")
    [(1, Open); (2, Open); (1, Go); (2, Go); (2, Go); (1, Go); (2, Go); (2, Close); (2, Go); (1, Go); (2, Go); (2, Go); (2, Go)]%nat
    {| shared := first.2; pcs := pool |}.

Example others_open : pcs others = {[1%nat := @Opened all_names 1%nat 2%nat; 2%nat := Closed]} ∧ opened_ (shared others) = 2.
Proof. split; evaluate. Qed.

Definition two : gmap nat (@pc all_names) := <[0%nat := Closed]> pool.

(** The second to open has its handle before the first has initialised the mutex. *)
Definition early : config (@waiter all_names) (@pc all_names) :=
  run_schedule (@next all_names "channel") [(0, Open); (0, Go); (1, Open); (1, Go); (1, Go); (1, Go)]%nat
    {| shared := @fresh all_names SemTable.empty; pcs := two |}.

Example early_handle : pcs early !! 1%nat = Some (@Opened all_names 1%nat 2%nat) ∧ lock_ready (shared early) = false.
Proof. split; evaluate. Qed.

(** The last to close removes what another has opened meanwhile: the next handle has other
    semaphores, and the mutex is gone. *)
Definition torn : config (@waiter all_names) (@pc all_names) :=
  run_schedule (@next all_names "channel")
    ([(0, Open); (0, Go); (0, Go); (0, Go); (0, Go); (0, Close); (0, Go); (0, Go); (0, Go); (0, Go);
      (1, Open); (1, Go); (1, Go); (1, Go); (1, Go); (0, Go); (0, Go); (0, Go);
      (2, Open); (2, Go); (2, Go); (2, Go)]%nat)
    {| shared := @fresh all_names SemTable.empty; pcs := two |}.

Example torn_handles :
  pcs torn = {[0%nat := Closed; 1%nat := @Opened all_names 1%nat 2%nat; 2%nat := @Opened all_names 3%nat 4%nat]} ∧
  lock_ready (shared torn) = false.
Proof. split; evaluate. Qed.

(** When the second semaphore does not open, the first one and the count stay. *)
Definition one_name : Semaphores := SemTable.semaphores (λ n, bool_decide (n = @sem_name "channel")).

Example failed_open :
  let r := @open_alone one_name "channel" SemTable.empty in
  r.1 = Closed ∧ opened_ r.2 = 1 ∧ leaked r.2 = 1 ∧ sem_named (sem_name "channel") (kernel r.2) = Some 1%nat.
Proof. split_and!; evaluate. Qed.

End Demo.

Lemma handles_agree_witness :
  let w := shared Demo.others in
  lock_ready w = true ∧
  ∀ t s h, pcs Demo.others !! t = Some (@Opened Demo.all_names s h) → s = 1%nat ∧ h = 2%nat.
Proof.
  destruct (@handles_agree Demo.all_names "channel" SemTable.empty 1%nat 2%nat Demo.first.2 Demo.pool Demo.others) as (Hh & Hr & _).
  - apply injective_projections; [evaluate|reflexivity].
  - intros t p Ht. unfold Demo.pool in Ht. cbn in Ht. apply lookup_insert_Some in Ht as [[_ <-]|[_ Ht]]; [done|].
    by apply lookup_singleton_Some in Ht as [_ <-].
  - apply run_schedule_reachable.
  - vm_compute. reflexivity.
  - split; [exact Hr|exact Hh].
Defined.
