(* ===== verification/IpcWaiter.v ===== *)
(** * Waiting on a channel ([waiter_helper.h], [waiter_linux.h], [waiter_wrapper.h])

    A call that finds its queue empty or full sleeps on a [waiter]: a mutex, two counters
    and two semaphores in shared memory, with three flags in every handle.  The threads of
    [Interleaving] run [wait_if], [notify], [broadcast], [quit_waiting] and the close of a
    handle, one operation on the shared words at a time.  [ready] is what the predicate of
    the waiting calls looks at: [Produce] is a caller that makes it true and then calls
    [broadcast], as [send] and [recv] of [ipc.cpp] do after their operation on the queue.

    The semaphores and the mutex of POSIX are what its standard says: a count that
    [sem_post] raises and [sem_wait] lowers when it is positive, a lock with one owner. *)

From S2P Require Import Prelude Interleaving IpcBase.
From stdpp Require Import relations.
#[local] Open Scope Z_scope.

Definition default_timeout : Z := 100.

(** ** State *)

Record wait_flags := {
  is_waiting_ : bool;
  is_closed_ : bool;
  need_dest_ : bool }.

Definition init_flags : wait_flags := {| is_waiting_ := false; is_closed_ := true; need_dest_ := false |}.
Definition open_flags : wait_flags := {| is_waiting_ := false; is_closed_ := false; need_dest_ := false |}.

(** The waiter in shared memory, and the flags of the handles. *)
Record waiter := {
  lock_ : option nat;        (* the owner of the mutex *)
  waiting_ : Z;
  counter_ : Z;
  sema_ : Z;
  handshake_ : Z;
  flags_ : gmap nat wait_flags;
  ready : bool }.

Definition flags_of (h : nat) (s : waiter) : wait_flags := default init_flags (flags_ s !! h).

Definition set_lock o s := {| lock_ := o; waiting_ := waiting_ s; counter_ := counter_ s; sema_ := sema_ s;
  handshake_ := handshake_ s; flags_ := flags_ s; ready := ready s |}.
Definition set_waiting n s := {| lock_ := lock_ s; waiting_ := n; counter_ := counter_ s; sema_ := sema_ s;
  handshake_ := handshake_ s; flags_ := flags_ s; ready := ready s |}.
Definition set_counter n s := {| lock_ := lock_ s; waiting_ := waiting_ s; counter_ := n; sema_ := sema_ s;
  handshake_ := handshake_ s; flags_ := flags_ s; ready := ready s |}.
Definition set_sema n s := {| lock_ := lock_ s; waiting_ := waiting_ s; counter_ := counter_ s; sema_ := n;
  handshake_ := handshake_ s; flags_ := flags_ s; ready := ready s |}.
Definition set_handshake n s := {| lock_ := lock_ s; waiting_ := waiting_ s; counter_ := counter_ s; sema_ := sema_ s;
  handshake_ := n; flags_ := flags_ s; ready := ready s |}.
Definition set_ready b s := {| lock_ := lock_ s; waiting_ := waiting_ s; counter_ := counter_ s; sema_ := sema_ s;
  handshake_ := handshake_ s; flags_ := flags_ s; ready := b |}.
Definition set_flags h f s := {| lock_ := lock_ s; waiting_ := waiting_ s; counter_ := counter_ s; sema_ := sema_ s;
  handshake_ := handshake_ s; flags_ := <[h := f]> (flags_ s); ready := ready s |}.

Definition set_is_waiting h b s := let f := flags_of h s in
  set_flags h {| is_waiting_ := b; is_closed_ := is_closed_ f; need_dest_ := need_dest_ f |} s.
Definition set_is_closed h b s := let f := flags_of h s in
  set_flags h {| is_waiting_ := is_waiting_ f; is_closed_ := b; need_dest_ := need_dest_ f |} s.
Definition set_need_dest h b s := let f := flags_of h s in
  set_flags h {| is_waiting_ := is_waiting_ f; is_closed_ := is_closed_ f; need_dest_ := b |} s.

(** ** Programs *)

Inductive wake := Notify | Broadcast | Quit.

(** Where a thread is: in [wait_if], or in one of the three functions that wake. *)
Inductive pc :=
| Idle
| Returned (ret : bool)
(* wait_if *)
| WClosed (tm : Z)
| WAdd (tm : Z)
| WMark (tm : Z)
| WLock (tm : Z)
| WPred (tm : Z)
| WCount (tm : Z)
| WUnlock (tm : Z)
| LoadWaiting (tm : Z)
| LoadClosed (waiting : bool) (tm : Z)
| ExchDest (tm : Z)
| SemaWait (tm : Z)
| LoadDest (ret : bool) (tm : Z)
| ClearDest
| SemaBrief
| UnlockOut
| Leave (shake ret : bool)
| Unmark (shake ret : bool)
| Shake (ret : bool)
(* notify, broadcast, quit_waiting *)
| QClose (h : nat)
| QDest (h : nat)
| QMark (h : nat)
| NLoad (q : wake)
| NLock (q : wake)
| NTest (q : wake)
| NPost (q : wake) (n : Z)
| NDec (q : wake) (ret : bool)
| NHand (q : wake)
| NNext (q : wake) (ret : bool)
| NUnlock (ret : bool).

(** What an idle thread calls; [Timeout] ends a wait on a semaphore without a token (the
    time is over or a signal interrupts the call). *)
Inductive choice :=
| WaitIf (tm : Z)
| CallNotify
| Produce
| Consume
| QuitWaiting (h : nat)
| Close (h : nat)
| Go
| Timeout.

Definition call (c : choice) (s : waiter) : pc * waiter :=
  match c with
  | WaitIf tm => (WClosed tm, s)
  | CallNotify => (NLoad Notify, s)
  | Produce => (NLoad Broadcast, set_ready true s)
  | Consume => (Idle, set_ready false s)
  | QuitWaiting h => (QDest h, s)
  | Close h => (QClose h, s)
  | Go | Timeout => (Idle, s)
  end.

(** [sem_helper::wait]: a time of 0 does not wait. *)
Definition sem_wait (c : choice) (tm : Z) (n : Z) : option (bool * Z) :=
  if decide (tm = 0) then Some (true, n)
  else match c with
       | Timeout => Some (false, n)
       | _ => if decide (0 < n) then Some (true, n - 1) else None
       end.

Definition take_lock (me : nat) (p stay : pc) (s : waiter) : pc * waiter :=
  match lock_ s with None => (p, set_lock (Some me) s) | Some _ => (stay, s) end.

(** A step of [wait_if] on the handle [me]. *)
Definition wait_next (me : nat) (c : choice) (p : pc) (s : waiter) : pc * waiter :=
  match p with
  | WClosed tm => (if is_closed_ (flags_of me s) then Returned false else WAdd tm, s)
  | WAdd tm => (WMark tm, set_waiting (u32 (waiting_ s + 1)) s)
  | WMark tm => (WLock tm, set_is_waiting me true s)
  | WLock tm => take_lock me (WPred tm) (WLock tm) s
  | WPred tm => (if ready s then UnlockOut else WCount tm, s)
  | WCount tm => (WUnlock tm, set_counter (counter_ s + 1) s)
  | WUnlock tm => (LoadWaiting tm, set_lock None s)
  | LoadWaiting tm => (LoadClosed (is_waiting_ (flags_of me s)) tm, s)
  | LoadClosed waiting tm =>
      (if orb (negb waiting) (is_closed_ (flags_of me s)) then ClearDest else ExchDest tm, s)
  | ExchDest tm =>
      (if need_dest_ (flags_of me s) then SemaBrief else SemaWait tm, set_need_dest me false s)
  | SemaWait tm =>
      match sem_wait c tm (sema_ s) with
      | Some (ret, n) => (LoadDest ret tm, set_sema n s)
      | None => (p, s)
      end
  | LoadDest ret tm => (if need_dest_ (flags_of me s) then LoadWaiting tm else Leave true ret, s)
  | ClearDest => (Leave true false, set_need_dest me false s)
  | SemaBrief =>
      match sem_wait c default_timeout (sema_ s) with
      | Some (_, n) => (Leave true false, set_sema n s)
      | None => (p, s)
      end
  | UnlockOut => (Leave false true, set_lock None s)
  | Leave shake ret => (Unmark shake ret, set_waiting (u32 (waiting_ s - 1)) s)
  | Unmark shake ret => (if shake then Shake ret else Returned ret, set_is_waiting me false s)
  | Shake ret => (Returned ret, set_handshake (handshake_ s + 1) s)
  | _ => (p, s)
  end.

(** A step of [notify], [broadcast] and [quit_waiting]. *)
Definition wake_next (me : nat) (c : choice) (p : pc) (s : waiter) : pc * waiter :=
  match p with
  | QClose h => (QDest h, set_is_closed h true s)
  | QDest h => (QMark h, set_need_dest h true s)
  | QMark h => (if is_waiting_ (flags_of h s) then NLoad Quit else Returned true, set_is_waiting h false s)
  | NLoad q => (if decide (waiting_ s = 0) then Returned true else NLock q, s)
  | NLock q => take_lock me (NTest q) (NLock q) s
  | NTest q =>
      (if decide (0 < counter_ s) then NPost q (match q with Notify => 1 | _ => counter_ s end)
       else NUnlock true, s)
  | NPost q n =>
      if decide (0 < n) then (NPost q (n - 1), set_sema (sema_ s + 1) s) else (NDec q true, s)
  | NDec q ret => (if ret then NHand q else NNext q false, set_counter (counter_ s - 1) s)
  | NHand q =>
      match sem_wait c default_timeout (handshake_ s) with
      | Some (ret, n) => (NNext q ret, set_handshake n s)
      | None => (p, s)
      end
  | NNext q ret =>
      (match q with
       | Broadcast => if decide (0 < counter_ s) then NDec q ret else NUnlock ret
       | _ => NUnlock ret
       end, s)
  | NUnlock ret => (Returned ret, set_lock None s)
  | _ => (p, s)
  end.

Definition in_wake (p : pc) : bool :=
  match p with
  | QClose _ | QDest _ | QMark _ | NLoad _ | NLock _ | NTest _ | NPost _ _ | NDec _ _ | NHand _ | NNext _ _ | NUnlock _ => true
  | _ => false
  end.

(** A thread with its handle. *)
Definition thread : Type := nat * pc.

Definition next (c : choice) (th : thread) (s : waiter) : thread * waiter :=
  let '(me, p) := th in
  let '(p', s') :=
    match p with
    | Idle => call c s
    | Returned _ => (Idle, s)
    | _ => if in_wake p then wake_next me c p s else wait_next me c p s
    end in
  ((me, p'), s').

(** ** The tokens *)

(** Inside the mutex. *)
Definition holding (p : pc) : bool :=
  match p with
  | WPred _ | WCount _ | WUnlock _ | UnlockOut
  | NTest _ | NPost _ _ | NDec _ _ | NHand _ | NNext _ _ | NUnlock _ => true
  | _ => false
  end.

(** Counted in [waiting_]. *)
Definition inside (p : pc) : bool :=
  match p with
  | WMark _ | WLock _ | WPred _ | WCount _ | WUnlock _ | LoadWaiting _ | LoadClosed _ _ | ExchDest _
  | SemaWait _ | LoadDest _ _ | ClearDest | SemaBrief | UnlockOut | Leave _ _ => true
  | _ => false
  end.

(** Registered and waiting for a token, or on the way to it. *)
Definition blocked (p : pc) : bool :=
  match p with
  | WUnlock _ | LoadWaiting _ | LoadClosed _ _ | ExchDest _ | SemaWait _ => true
  | _ => false
  end.

(** Decided to wait and not registered yet. *)
Definition registering (p : pc) : bool := match p with WCount _ => true | _ => false end.

(** A broadcast that has not posted its tokens yet. *)
Definition pending (p : pc) : bool :=
  match p with
  | NLoad Broadcast | NLock Broadcast | NTest Broadcast | NPost Broadcast _ => true
  | _ => false
  end.

(** The part of [counter_] for which tokens are still to be posted, when the owner of the
    mutex is at [p]. *)
Definition owed_at (p : pc) (cnt : Z) : Z :=
  match p with
  | NPost Notify n => cnt - 1 + n
  | NPost _ n => n
  | NDec Notify _ => cnt - 1
  | NDec _ _ | NHand Broadcast | NNext Broadcast _ => 0
  | _ => cnt
  end.

Definition owed (s : waiter) (m : gmap nat thread) : Z :=
  match lock_ s with
  | Some t => match m !! t with Some th => owed_at th.2 (counter_ s) | None => counter_ s end
  | None => counter_ s
  end.

Definition count_at (P : pc → bool) (m : gmap nat thread) : Z := count (λ th, P th.2) m.

(** What holds of one thread. *)
Definition thread_ok (s : waiter) (t : nat) (th : thread) : Prop :=
  th.1 = t ∧
  (holding th.2 = true ↔ lock_ s = Some t) ∧
  match th.2 with
  | NPost q n => q ≠ Quit ∧ 0 < counter_ s ∧ 0 ≤ n
  | NDec q _ => q ≠ Quit ∧ 0 < counter_ s
  | QClose _ | QDest _ | QMark _ | NLoad Quit | NLock Quit | NTest Quit | SemaBrief => False
  | _ => True
  end.

Definition waiter_inv (k : config waiter thread) : Prop :=
  let s := shared k in let m := pcs k in
  map_Forall (thread_ok s) m ∧
  (∀ h, need_dest_ (flags_of h s) = false) ∧
  Z.of_nat (size m) < 2 ^ 32 ∧ waiting_ s = count_at inside m ∧
  0 ≤ sema_ s ∧ 0 ≤ counter_ s ∧ 0 ≤ handshake_ s ∧
  count_at blocked m ≤ sema_ s + owed s m ∧
  (ready s = true → 0 < count_at pending m ∨ (count_at blocked m ≤ sema_ s ∧ count_at registering m = 0)).

Definition start (m : gmap nat thread) : Prop :=
  map_Forall (λ t th, th = (t, Idle)) m ∧ Z.of_nat (size m) < 2 ^ 32.

(** A waiter that has just been opened. *)
Definition opened (fl : gmap nat wait_flags) (r : bool) : waiter :=
  {| lock_ := None; waiting_ := 0; counter_ := 0; sema_ := 0; handshake_ := 0; flags_ := fl; ready := r |}.

(** *** Lemmas *)

Lemma flags_of_set h h' f s : flags_of h (set_flags h' f s) = if decide (h = h') then f else flags_of h s.
Proof.
  unfold flags_of, set_flags. cbn [flags_]. case_decide; [by subst; rewrite lookup_insert_eq|].
  by rewrite lookup_insert_ne.
Qed.

Lemma owed_free s m : lock_ s = None → owed s m = counter_ s.
Proof. intros E. unfold owed. by rewrite E. Qed.

Lemma owed_owner s m t th : lock_ s = Some t → m !! t = Some th → owed s m = owed_at th.2 (counter_ s).
Proof. intros E Hm. unfold owed. by rewrite E, Hm. Qed.

(** A step of a thread that does not own the mutex, before or after. *)
Lemma owed_frame s s' m t th :
  lock_ s' = lock_ s → counter_ s' = counter_ s → lock_ s ≠ Some t → owed s' (<[t := th]> m) = owed s m.
Proof.
  intros Hl Hc Hne. unfold owed. rewrite Hl, Hc. destruct (lock_ s) as [t'|]; [|done].
  rewrite lookup_insert_ne by congruence. done.
Qed.

Lemma owed_nonneg s m : map_Forall (thread_ok s) m → 0 ≤ counter_ s → 0 ≤ owed s m.
Proof.
  intros Hm Hc. unfold owed. destruct (lock_ s) as [t|]; [|done]. destruct (m !! t) as [th|] eqn:E; [|done].
  specialize (Hm t th E) as (_ & _ & Hp). destruct th as [me p]. cbn [snd] in *.
  destruct p; try destruct q; cbn [owed_at]; lia.
Qed.

Lemma count_at_update P m t p p' me :
  m !! t = Some (me, p) → count_at P (<[t := (me, p')]> m) = count_at P m - Z.b2z (P p) + Z.b2z (P p').
Proof. intros Hm. unfold count_at. by rewrite (count_update _ m t (me, p)). Qed.

(** What a step of thread [t] may do to the words others rely on. *)
Definition step_frame (t : nat) (s s' : waiter) : Prop :=
  (lock_ s' = lock_ s ∨ (lock_ s = None ∨ lock_ s = Some t) ∧ (lock_ s' = None ∨ lock_ s' = Some t)) ∧
  (counter_ s' = counter_ s ∨ lock_ s = Some t).

Lemma thread_ok_frame t s s' t' th : step_frame t s s' → t' ≠ t → thread_ok s t' th → thread_ok s' t' th.
Proof.
  intros (Hl & Hc) Hne (Hid & Hh & Hp). split_and!; [done| |].
  { rewrite Hh. destruct Hl as [-> | [[-> | ->] [-> | ->]]]; (split; congruence). }
  destruct th as [me p]. cbn [snd fst] in *.
  destruct p; try exact Hp;
    (destruct Hc as [->|E]; [exact Hp|destruct Hh as [Hh _]; specialize (Hh eq_refl); congruence]).
Qed.

(** One step, by the place of the thread and the conditions of its code. *)
Ltac waiter_step p c :=
  destruct p; cbn [next in_wake wake_next wait_next holding] in *; unfold take_lock, sem_wait, call in *;
  repeat (case_match; try discriminate);
  unfold set_is_waiting, set_is_closed, set_need_dest in *; cbn [fst snd] in *; simplify_eq.

Ltac waiter_fields := cbn [set_lock set_waiting set_counter set_sema set_handshake set_ready set_flags
  lock_ waiting_ counter_ sema_ handshake_ flags_ ready] in *.

Lemma next_lock t p c s :
  (holding p = true → lock_ s = Some t) →
  let s' := (next c (t, p) s).2 in
  lock_ s' = lock_ s ∨ (lock_ s = None ∨ lock_ s = Some t) ∧ (lock_ s' = None ∨ lock_ s' = Some t).
Proof.
  intros Hh. cbn zeta. waiter_step p c; waiter_fields; first [by left | right; rewrite ?Hh by done; auto].
Qed.

Lemma next_counter t p c s :
  let s' := (next c (t, p) s).2 in counter_ s' = counter_ s ∨ holding p = true.
Proof. cbn zeta. waiter_step p c; waiter_fields; first [by left | by right]. Qed.

Lemma next_frame t p c s : thread_ok s t (t, p) → step_frame t s (next c (t, p) s).2.
Proof.
  intros (_ & Hh & _). cbn [snd] in Hh. split_and!; [apply next_lock; tauto|].
  destruct (next_counter t p c s); tauto.
Qed.

(** Calls other than those that end the use of a handle. *)
Definition stays (c : choice) : choice := match c with QuitWaiting _ | Close _ => Go | _ => c end.

Definition next_stays (c : choice) : thread → waiter → thread * waiter := next (stays c).

Definition quits (c : choice) : bool := match c with QuitWaiting _ | Close _ => true | _ => false end.

Lemma stays_quits c : quits (stays c) = false.
Proof. by destruct c. Qed.

Lemma next_own t p c s :
  quits c = false → thread_ok s t (t, p) → 0 ≤ counter_ s → (∀ h, need_dest_ (flags_of h s) = false) →
  let r := next c (t, p) s in
  thread_ok r.2 t r.1 ∧ (∀ h, need_dest_ (flags_of h r.2) = false) ∧ 0 ≤ counter_ r.2.
Proof.
  intros Hq (_ & Hh & Hp) Hc Hd. cbn zeta. unfold thread_ok. cbn [fst snd] in *.
  assert (holding p = true → lock_ s = Some t) as Hl by tauto. destruct Hh as [_ Hh].
  waiter_step p c; rewrite ?Hd in *; try done; try discriminate; waiter_fields;
    (split; [split; [done|split; [|try done; try (intuition lia)]]|split; [|lia]]);
    try exact Hd; try (intros h; rewrite flags_of_set; case_decide; subst; cbn; by auto);
    (split; [first [by auto | discriminate]|intros E; first [by auto | discriminate | apply Hh; congruence]]).
Qed.

(** The part of [owed] that a thread at [p] answers for. *)
Definition my_owed (p : pc) (s : waiter) : Z :=
  if holding p then owed_at p (counter_ s)
  else match lock_ s with None => counter_ s | Some _ => 0 end.

Definition gain (P : pc → bool) (p p' : pc) : Z := Z.b2z (P p') - Z.b2z (P p).

(** Every step pays for what it takes. *)
Lemma next_tokens t p c s :
  quits c = false → thread_ok s t (t, p) → 0 ≤ sema_ s → 0 ≤ counter_ s → 0 ≤ handshake_ s →
  (∀ h, need_dest_ (flags_of h s) = false) →
  let r := next c (t, p) s in let p' := r.1.2 in
  0 ≤ sema_ r.2 ∧ 0 ≤ handshake_ r.2 ∧
  (waiting_ r.2 = waiting_ s ∧ inside p' = inside p ∨ waiting_ r.2 = u32 (waiting_ s + gain inside p p')) ∧
  gain blocked p p' ≤ sema_ r.2 + my_owed p' r.2 - (sema_ s + my_owed p s).
Proof.
  intros Hq (_ & Hh & Hp) Hs Hc Hk Hd. cbn zeta. unfold my_owed, gain. cbn [fst snd] in *.
  assert (holding p = true → lock_ s = Some t) as Hl by tauto. destruct Hh as [_ Hh].
  waiter_step p c; rewrite ?Hd in *; try done; try discriminate; waiter_fields;
    cbn [holding blocked inside owed_at Z.b2z] in *;
    (split_and!; [lia|lia|first [by left | right; f_equal; lia]|]); repeat case_match; simplify_eq; lia.
Qed.

(** When the predicate of the waiting calls may be false after a step: a broadcast is on its
    way, the step was harmless, or it ends the obligation of a broadcast. *)
Lemma next_ready t p c s :
  quits c = false → thread_ok s t (t, p) → (∀ h, need_dest_ (flags_of h s) = false) → 0 ≤ counter_ s →
  let r := next c (t, p) s in let p' := r.1.2 in
  ready r.2 = true →
  pending p' = true ∨
  ready s = true ∧ pending p = false ∧ registering p' = false ∧
    (registering p = true ∨ gain blocked p p' ≤ sema_ r.2 - sema_ s) ∨
  ready s = true ∧ registering p = false ∧ registering p' = false ∧ gain blocked p p' = 0 ∧ sema_ r.2 = sema_ s ∧
    (waiting_ s = 0 ∨ lock_ s = Some t ∧ owed_at p (counter_ s) = 0).
Proof.
  intros Hq (_ & Hh & Hp) Hd Hc. cbn zeta. unfold gain. cbn [fst snd] in *.
  assert (holding p = true → lock_ s = Some t) as Hl by tauto. clear Hh.
  waiter_step p c; rewrite ?Hd in *; try done; try discriminate; waiter_fields;
    cbn [holding blocked registering pending owed_at Z.b2z] in *; intros Hr; repeat case_match; try congruence;
    first [by left
          | right; left; split_and!; [done..|]; first [by left|right; lia]
          | right; right; split_and!; [done..|]; first [left; lia | right; split; [by auto|lia]]].
Qed.

(** The owner of the mutex is the only thread inside. *)
Lemma registering_none s m t p :
  map_Forall (thread_ok s) m → m !! t = Some (t, p) → lock_ s = Some t → registering p = false →
  count_at registering m = 0.
Proof.
  intros Hm Ht Hl Hp. unfold count_at. apply count_none. intros t' [me' p'] Ht'. cbn [snd].
  destruct (registering p') eqn:E; [|done]. destruct (Hm t' _ Ht') as (_ & Hh & _). cbn [snd] in *.
  assert (lock_ s = Some t') by (apply Hh; by destruct p').
  assert (t' = t) as -> by congruence.
  assert (Some (t, p) = Some (me', p')) by (rewrite <- Ht; exact Ht'). congruence.
Qed.

Lemma owed_step s s' m t p p' :
  m !! t = Some (t, p) → step_frame t s s' → thread_ok s t (t, p) → thread_ok s' t (t, p') →
  owed s' (<[t := (t, p') : thread]> m) - my_owed p' s' = owed s m - my_owed p s.
Proof.
  intros Ht [Hl Hc] (_ & Hh & _) (_ & Hh' & _). cbn [snd] in *.
  assert (∀ s p m, (holding p = true ↔ lock_ s = Some t) → m !! t = Some (t, p) →
    owed s m - my_owed p s =
    match lock_ s with
    | Some t' => if decide (t' = t) then 0 else match m !! t' with Some th => owed_at th.2 (counter_ s) | None => counter_ s end
    | None => 0 end) as Hsplit.
  { clear. intros s p m Hh Ht. unfold my_owed, owed. destruct (lock_ s) as [t'|] eqn:El.
    - case_decide as Hd; [subst t'; rewrite Ht; destruct Hh as [_ ->]; [cbn; lia|done]|].
      destruct (holding p); [destruct Hh as [Hh _]; specialize (Hh eq_refl); congruence|lia].
    - destruct (holding p); [destruct Hh as [Hh _]; by specialize (Hh eq_refl)|lia]. }
  rewrite (Hsplit s p m), (Hsplit s' p') by (done || apply lookup_insert_eq).
  destruct Hl as [El|[[El|El] [El'|El']]]; rewrite ?El, ?El'; rewrite ?decide_True by done; try done.
  destruct (lock_ s) as [t'|] eqn:E; [|done]. case_decide; [done|].
  rewrite lookup_insert_ne by done. destruct Hc as [->|]; [done|congruence].
Qed.

Lemma waiter_inv_step s m t th c :
  waiter_inv {| shared := s; pcs := m |} → m !! t = Some th →
  waiter_inv {| shared := (next_stays c th s).2; pcs := <[t := (next_stays c th s).1]> m |}.
Proof.
  intros (Hm & Hd & Hsize & Hw & Hs & Hc & Hk & Hblk & Hrdy) Ht. cbn [shared pcs] in *.
  destruct th as [me p]. pose proof (Hm t _ Ht) as Hok. assert (me = t) as -> by apply Hok.
  unfold next_stays. pose proof (stays_quits c) as Hq. set (c' := stays c) in *. clearbody c'.
  destruct (next_own t p c' s Hq Hok Hc Hd) as (Hok' & Hd' & Hc').
  destruct (next_tokens t p c' s Hq Hok Hs Hc Hk Hd) as (Hs' & Hk' & Hw' & Hpay).
  pose proof (next_ready t p c' s Hq Hok Hd Hc) as Hr'.
  pose proof (next_frame t p c' s Hok) as Hf.
  destruct (next c' (t, p) s) as [[me' p'] s'] eqn:E. cbn [fst snd] in *. assert (me' = t) as -> by apply Hok'.
  pose proof (owed_step s s' m t p p' Ht Hf Hok Hok') as Howed. unfold gain in *.
  assert (count_at blocked m ≤ count_at inside m) as Hbi by (apply count_mono; intros [? []]; done).
  assert (count_at registering m ≤ count_at inside m) as Hri by (apply count_mono; intros [? []]; done).
  unfold waiter_inv. cbn [shared pcs]. rewrite !(count_at_update _ m t p p' t) by done.
  rewrite map_size_insert_Some by (by rewrite Ht).
  pose proof (count_bounds (λ th, inside th.2) m). pose proof (count_bounds (λ th, blocked th.2) m).
  pose proof (count_bounds (λ th, registering th.2) m). pose proof (count_bounds (λ th, pending th.2) m).
  fold (count_at inside m) (count_at blocked m) (count_at registering m) (count_at pending m) in *.
  split_and!; [|done|done| |done|done|done|lia|].
  - intros t' th' [[<- <-]|[Hne Ht']]%lookup_insert_Some; [done|].
    apply (thread_ok_frame t s); [done|done|by apply Hm].
  - assert (0 ≤ count_at inside m - Z.b2z (inside p) + Z.b2z (inside p') ≤ Z.of_nat (size m)) as Hb.
    { rewrite <- (count_at_update inside m t p p' t) by done.
      pose proof (count_bounds (λ th, inside th.2) (<[t := (t, p')]> m)) as Hb.
      rewrite map_size_insert_Some in Hb by (by exists (t, p)). exact Hb. }
    destruct Hw' as [[-> ->]| ->]; [lia|]. rewrite u32_small; lia.
  - intros Hr. specialize (Hr' Hr).
    destruct Hr' as [Hp|[(Hr1 & Hp & Hg & Hpay')|(Hr1 & Hg & Hg' & Hb & Hse & Hend)]].
    + left. rewrite Hp. pose proof (count_one (λ th, pending th.2) m t (t, p) Ht) as H3. cbn [snd] in *.
      fold (count_at pending m) in *. destruct (pending p); cbn; [specialize (H3 eq_refl)|]; lia.
    + rewrite Hp, Hg. specialize (Hrdy Hr1). pose proof (count_one (λ th, registering th.2) m t (t, p) Ht) as H3.
      cbn [snd] in *. fold (count_at registering m) in *.
      destruct (registering p); [specialize (H3 eq_refl)|]; destruct (pending p'); cbn; lia.
    + right. rewrite Hg, Hg', Hse. cbn [Z.b2z]. destruct Hend as [Hend|[Hlk Hend]]; [lia|].
      rewrite (registering_none s m t p) by done. rewrite (owed_owner s m t (t, p)) in Hblk by done. cbn [snd] in Hblk. lia.
Qed.

Lemma waiter_inv_reachable m fl r k :
  start m → map_Forall (λ _ f, need_dest_ f = false) fl →
  reachable next_stays {| shared := opened fl r; pcs := m |} k → waiter_inv k.
Proof.
  intros [Hidle Hsize] Hfl. revert k. apply reachable_invariant; [|intros s m' t th c; apply waiter_inv_step].
  assert (∀ P, P Idle = false → count_at P m = 0) as Hnone.
  { intros P HP. apply count_none. intros t th Ht. by rewrite (Hidle t th Ht). }
  unfold waiter_inv. cbn [shared pcs]. rewrite !Hnone, owed_free by done. cbn. split_and!; try done; [| |by right].
  - intros t th Ht. by rewrite (Hidle t th Ht).
  - intros h. unfold flags_of. cbn [flags_ opened]. destruct (fl !! h) as [f|] eqn:E; [by apply (Hfl h)|done].
Qed.

(** C27: No wake-up is lost: once the predicate of the waiting calls is false and no broadcast
    is on its way, there is a token for every thread that sleeps or is about to, whatever the
    interleaving and however many calls have run out of time; a sleeping thread that runs
    returns [true].  As long as no handle is closed or told to quit waiting
    ([Quitting.lost_wakeup]), and with one thread per handle. *)
Theorem no_lost_wakeup m fl r k :
  start m → map_Forall (λ _ f, need_dest_ f = false) fl →
  reachable next_stays {| shared := opened fl r; pcs := m |} k →
  ready (shared k) = true → count_at pending (pcs k) = 0 →
  count_at blocked (pcs k) ≤ sema_ (shared k) ∧
  ∀ t tm, pcs k !! t = Some (t, SemaWait tm) →
    (run_thread next_stays (replicate 5 Go) (t, SemaWait tm) (shared k)).1 = (t, Returned true).
Proof.
  intros Hstart Hfl Hr Hready Hpend.
  destruct (waiter_inv_reachable m fl r k Hstart Hfl Hr) as (_ & Hd & _ & _ & _ & _ & _ & _ & Hrdy).
  destruct (Hrdy Hready) as [Hp|[Hb _]]; [lia|]. split; [done|]. intros t tm Ht.
  pose proof (count_one (λ th, blocked th.2) (pcs k) t _ Ht eq_refl) as H1. fold (count_at blocked (pcs k)) in H1.
  unfold run_thread. cbn. unfold next_stays, sem_wait. cbn.
  destruct (decide (tm = 0)); [|rewrite decide_True by lia]; cbn;
    (replace (need_dest_ _) with false by (symmetry; apply Hd)); done.
Qed.

(** Two sleepers and a producer. *)
Definition threads (n : nat) : gmap nat thread := list_to_map ((λ t, (t, (t, Idle))) <$> seq 0 n).

Definition open_handles (n : nat) : gmap nat wait_flags := list_to_map ((λ t, (t, open_flags)) <$> seq 0 n).

Definition begin (n : nat) : config waiter thread :=
  {| shared := opened (open_handles n) false; pcs := threads n |}.

(** Thread [t] calls and moves [n] times. *)
Definition moves (t : nat) (c : choice) (n : nat) : list (nat * choice) := (t, c) :: replicate n (t, Go).

Definition two_wait_one_sends : list (nat * choice) :=
  moves 0 (WaitIf invalid_value) 10 ++ moves 1 (WaitIf invalid_value) 10 ++ moves 2 Produce 6.

Definition demo : config waiter thread := run_schedule next_stays two_wait_one_sends (begin 3).

Example demo_sleepers :
  (λ t, (snd <$> pcs demo !! t)) <$> [0; 1; 2]%nat
    = [Some (SemaWait invalid_value); Some (SemaWait invalid_value); Some (NDec Broadcast true)] ∧
  sema_ (shared demo) = 2.
Proof. vm_compute. split; reflexivity. Qed.

Lemma begin_ok n :
  Z.of_nat (size (threads n)) < 2 ^ 32 → start (threads n) ∧ map_Forall (λ _ f, need_dest_ f = false) (open_handles n).
Proof.
  intros Hn. split; [split; [|done]|].
  - intros t th Ht%elem_of_list_to_map_2%list_elem_of_fmap. by destruct Ht as (t' & [= -> ->] & _).
  - intros t f Ht%elem_of_list_to_map_2%list_elem_of_fmap. by destruct Ht as (t' & [= -> ->] & _).
Qed.

Lemma no_lost_wakeup_witness :
  let k := demo in
  count_at blocked (pcs k) ≤ sema_ (shared k) ∧
  ∀ t tm, pcs k !! t = Some (t, SemaWait tm) →
    (run_thread next_stays (replicate 5 Go) (t, SemaWait tm) (shared k)).1 = (t, Returned true).
Proof.
  cbn zeta. apply (no_lost_wakeup (threads 3) (open_handles 3) false demo).
  - by apply begin_ok.
  - by apply begin_ok.
  - apply (run_schedule_reachable next_stays).
  - vm_compute. reflexivity.
  - vm_compute. reflexivity.
Defined.

(** ** When handles are quit

    [quit_waiting] raises [need_dest_] before it takes [is_waiting_] away.  A sleeper that
    has just taken its token and sees the flag in between goes around its loop and takes a
    second token, which was another sleeper's. *)

Module Quitting.

Definition schedule : list (nat * choice) :=
  two_wait_one_sends ++
  [(2, Go)]%nat ++                         (* the broadcast waits for the first handshake *)
  [(0, Go)]%nat ++                         (* the first sleeper has its token *)
  [(3, QuitWaiting 0); (3, Go)]%nat ++     (* and is told to quit *)
  replicate 8 (0, Go)%nat ++
  replicate 3 (2, Go)%nat ++ replicate 3 (2, Timeout)%nat ++ [(3, Go)]%nat.

Definition stuck : config waiter thread := run_schedule next schedule (begin 4).

(** The other sleeper is left without a token although the predicate is false, both calls
    that wake have returned and nobody else holds or wants the mutex. *)
Example lost_wakeup :
  reachable next (begin 4) stuck ∧
  ready (shared stuck) = true ∧ sema_ (shared stuck) = 0 ∧ counter_ (shared stuck) = 0 ∧ lock_ (shared stuck) = None ∧
  (λ t, (snd <$> pcs stuck !! t)) <$> [0; 1; 2; 3]%nat
    = [Some (Returned false); Some (SemaWait invalid_value); Some (Returned false); Some (Returned true)].
Proof. split; [apply (run_schedule_reachable next)|]. vm_compute. split_and!; reflexivity. Qed.

End Quitting.

(** A call that runs out of time stays in [counter_]: a later broadcast posts a token for it,
    and the next call that waits returns at once. *)
Definition after_timeout : config waiter thread :=
  run_schedule next_stays
    (moves 0 (WaitIf 10) 10 ++ replicate 6 (0%nat, Timeout) ++ moves 0 (WaitIf 10) 10 ++
     moves 1 Produce 12 ++ replicate 6 (0%nat, Go) ++ replicate 8 (1%nat, Go) ++ [(1%nat, Consume)]) (begin 2).

Example stale_token :
  ready (shared after_timeout) = false ∧ waiting_ (shared after_timeout) = 0 ∧ sema_ (shared after_timeout) = 1.
Proof. vm_compute. split_and!; reflexivity. Qed.
