(* ===== verification/IpcShm.v ===== *)
(** * Segments of shared memory ([shm.cpp], [platform/shm_linux.cpp], [shm.h])

    A segment is an object of the operating system with a name, mapped by the handles that
    have acquired it; its last eight bytes count them, and the last one to leave removes
    the name.  The calls of the operating system are a parameter, the class [Posix], with
    what POSIX says of them as its laws: names stand for objects, an object is a sequence of
    bytes, a new one is empty, [ftruncate] cuts it or extends it with zeros, and an object
    lives on without its name while it is mapped.  Every call may fail. *)

From S2P Require Import Prelude CppString Interleaving IpcBase.
#[local] Open Scope Z_scope.

(** ** The operating system *)

Class Posix := {
  kernel : Type;
  object : Type;
  object_eq_dec : EqDecision object;
  named : string → kernel → option object;          (* the object a name stands for *)
  bytes : object → kernel → list Z;                 (* its bytes *)
  shm_open : string → bool → bool → kernel → option object * kernel;   (* O_CREAT, O_EXCL *)
  ftruncate : object → nat → kernel → bool * kernel;
  mmap : object → kernel → bool;                    (* whether the mapping succeeds *)
  shm_unlink : string → kernel → kernel;
  write : object → nat → list Z → kernel → kernel;  (* a store through a mapping *)

  shm_open_law name creat excl k :
    match shm_open name creat excl k with
    | (None, k') => k' = k
    | (Some o, k') =>
        named name k = Some o ∧ k' = k ∧ excl = false ∨
        named name k = None ∧ creat = true ∧ named name k' = Some o ∧ bytes o k' = [] ∧
          (∀ n, n ≠ name → named n k' = named n k ∧ named n k ≠ Some o) ∧
          (∀ o', o' ≠ o → bytes o' k' = bytes o' k)
    end;
  (** A new object is none of those that have been opened before. *)
  opened : object → kernel → Prop;
  shm_open_fresh name creat excl k o k' :
    shm_open name creat excl k = (Some o, k') →
    opened o k' ∧ (named name k = None → ¬ opened o k) ∧ (∀ o', opened o' k → opened o' k');
  ftruncate_law o n k :
    match ftruncate o n k with
    | (false, k') => k' = k
    | (true, k') =>
        bytes o k' = resize n 0 (bytes o k) ∧ (∀ o', o' ≠ o → bytes o' k' = bytes o' k) ∧
        (∀ name, named name k' = named name k) ∧ (∀ o', opened o' k' ↔ opened o' k)
    end;
  shm_unlink_law name k :
    let k' := shm_unlink name k in
    named name k' = None ∧ (∀ n, n ≠ name → named n k' = named n k) ∧
    (∀ o, bytes o k' = bytes o k) ∧ (∀ o, opened o k' ↔ opened o k);
  write_law o off l k :
    (off + length l ≤ length (bytes o k))%nat →
    let k' := write o off l k in
    bytes o k' = take off (bytes o k) ++ l ++ drop (off + length l) (bytes o k) ∧
    (∀ o', o' ≠ o → bytes o' k' = bytes o' k) ∧
    (∀ name, named name k' = named name k) ∧ (∀ o', opened o' k' ↔ opened o' k) }.
#[export] Existing Instance object_eq_dec.

(** ** Words of eight bytes, the lowest first *)

Fixpoint le_bytes (n : nat) (z : Z) : list Z :=
  match n with O => [] | S n => z `mod` 256 :: le_bytes n (z / 256) end.

Fixpoint le_val (l : list Z) : Z :=
  match l with [] => 0 | b :: l => b + 256 * le_val l end.

(** ** [shm_linux.cpp] *)

Definition info_size : Z := 8.                      (* sizeof(info_t), alignof(info_t) *)

Definition calc_size (size : Z) : Z := u64 (((u64 (size - 1) / info_size) + 1) * info_size + info_size).

Section shm.
Context `{Posix}.

(** [id_info_t]; an open descriptor and a mapping are the object behind them. *)
Record id_info := {
  fd_ : option object;
  mem_ : option object;
  size_ : Z;
  name_ : string }.

Definition mode_create : Z := 1.
Definition mode_open : Z := 2.

Definition shm_prefix : string := "__IPC_SHM__".

Definition acquire (name : string) (size mode : Z) (k : kernel) : option id_info * kernel :=
  if decide (name = "") then (None, k)
  else
    let op_name := shm_prefix +:+ name in
    let size := if decide (mode = mode_open) then 0 else size in
    let '(fd, k) := shm_open op_name (negb (bool_decide (mode = mode_open))) (bool_decide (mode = mode_create)) k in
    match fd with
    | None => (None, k)
    | Some o => (Some {| fd_ := Some o; mem_ := None; size_ := size; name_ := op_name |}, k)
    end.

(** [acc_of(mem, size)]: the counter at the end. *)
Definition acc_load (o : object) (size : Z) (k : kernel) : Z :=
  le_val (take 8 (drop (Z.to_nat (size - info_size)) (bytes o k))).
Definition acc_store (o : object) (size v : Z) (k : kernel) : kernel :=
  write o (Z.to_nat (size - info_size)) (le_bytes 8 (u64 v)) k.

Definition set_size (n : Z) (ii : id_info) : id_info :=
  {| fd_ := fd_ ii; mem_ := mem_ ii; size_ := n; name_ := name_ ii |}.

(** The size of the mapping: that of the object, or the one that is asked for. *)
Definition resize_mem (o : object) (ii : id_info) (k : kernel) : bool * id_info * kernel :=
  if decide (size_ ii = 0) then
    let ii := set_size (Z.of_nat (length (bytes o k))) ii in
    (negb (bool_decide (size_ ii <= info_size ∨ size_ ii `mod` info_size ≠ 0)), ii, k)
  else
    let ii := set_size (calc_size (size_ ii)) ii in
    let '(ok, k) := ftruncate o (Z.to_nat (size_ ii)) k in (ok, ii, k).

(** [get_mem(id, &size)]; the size is written when there is a mapping. *)
Definition get_mem (ii : id_info) (k : kernel) : option (object * Z) * id_info * kernel :=
  match mem_ ii with
  | Some o => (Some (o, size_ ii), ii, k)
  | None =>
      match fd_ ii with
      | None => (None, ii, k)
      | Some o =>
          let '(ok, ii, k) := resize_mem o ii k in
          if negb ok then (None, ii, k)
          else if negb (mmap o k) then (None, ii, k)
          else
            let ii := {| fd_ := None; mem_ := Some o; size_ := size_ ii; name_ := name_ ii |} in
            (Some (o, size_ ii), ii, acc_store o (size_ ii) (acc_load o (size_ ii) k + 1) k)
      end
  end.

Definition release (ii : id_info) (k : kernel) : kernel :=
  match mem_ ii with
  | Some o =>
      if decide (size_ ii = 0) then k
      else
        let old := acc_load o (size_ ii) k in
        let k := acc_store o (size_ ii) (old - 1) k in
        if decide (old = 1) then (if decide (name_ ii = "") then k else shm_unlink (name_ ii) k) else k
  | None => k
  end.

Definition remove_id (ii : id_info) (k : kernel) : kernel :=
  let k := release ii k in if decide (name_ ii = "") then k else shm_unlink (name_ ii) k.

Definition remove_name (name : string) (k : kernel) : kernel :=
  if decide (name = "") then k else shm_unlink (shm_prefix +:+ name) k.

(** ** [shm.cpp]: handles *)

Record handle := {
  id_ : option id_info;
  m_ : option object;
  n_ : string;
  s_ : Z }.

Definition new_handle : handle := {| id_ := None; m_ := None; n_ := ""; s_ := 0 |}.

Definition valid (h : handle) : bool := bool_decide (m_ h ≠ None).

Definition detach (h : handle) : option id_info * handle := (id_ h, new_handle).

Definition handle_release (h : handle) (k : kernel) : handle * kernel :=
  match id_ h with
  | None => (h, k)
  | Some ii => (new_handle, release ii k)
  end.

(** [get_mem] of a null id fails. *)
Definition map_id (id : option id_info) (n : string) (s : Z) (k : kernel) : handle * kernel :=
  match id with
  | None => ({| id_ := None; m_ := None; n_ := n; s_ := s |}, k)
  | Some ii =>
      let '(mem, ii, k) := get_mem ii k in
      match mem with
      | Some (o, size) => ({| id_ := Some ii; m_ := Some o; n_ := n; s_ := size |}, k)
      | None => ({| id_ := Some ii; m_ := None; n_ := n; s_ := s |}, k)
      end
  end.

Definition handle_acquire (name : string) (size mode : Z) (h : handle) (k : kernel) : bool * handle * kernel :=
  let '(h, k) := handle_release h k in
  let '(id, k) := acquire name size mode k in
  let '(h, k) := map_id id name (s_ h) k in
  (valid h, h, k).

Definition attach (id : option id_info) (h : handle) (k : kernel) : handle * kernel :=
  match id with
  | None => (h, k)
  | Some ii => let '(h, k) := handle_release h k in map_id (Some ii) (n_ h) (s_ h) k
  end.

End shm.

(** ** Clients, and what they may rely on *)

Section clients.
Context `{Posix} (sz : string → Z).     (* every name is used with one size *)

(** Clients acquire and release handles and read and write through them. *)
Inductive op :=
| Acquire (h : nat) (n : string) (mode : Z)
| Release (h : nat)
| Write (h : nat) (off : nat) (l : list Z)
| Read (h : nat).

Inductive obs := Done (ok : bool) | Data (l : option (list Z)).

Record system := { os : kernel; handles : gmap nat handle }.

Definition handle_at (h : nat) (s : system) : handle := default new_handle (handles s !! h).

Definition system_step (o : op) (s : system) : obs * system :=
  match o with
  | Acquire h n mode =>
      let '(ok, hd, k) := handle_acquire n (sz n) mode (handle_at h s) (os s) in
      (Done ok, {| os := k; handles := <[h := hd]> (handles s) |})
  | Release h =>
      let '(hd, k) := handle_release (handle_at h s) (os s) in
      (Done true, {| os := k; handles := <[h := hd]> (handles s) |})
  | Write h off l =>
      let hd := handle_at h s in
      match m_ hd with
      | Some ob =>
          if decide (Z.of_nat (off + length l) ≤ sz (n_ hd)) then
            (Done true, {| os := write ob off l (os s); handles := handles s |})
          else (Done false, s)
      | None => (Done false, s)
      end
  | Read h =>
      let hd := handle_at h s in
      (Data (match m_ hd with
             | Some ob => Some (take (Z.to_nat (sz (n_ hd))) (bytes ob (os s)))
             | None => None
             end), s)
  end.

Fixpoint system_run (l : list op) (s : system) : list (op * obs) * system :=
  match l with
  | [] => ([], s)
  | o :: l => let '(r, s) := system_step o s in let '(t, s) := system_run l s in ((o, r) :: t, s)
  end.

(** The specification: named sequences of bytes, which exist while somebody holds them. *)
Record spec := { segs : gmap string (list Z); held : gmap nat string }.

Definition holders (n : string) (s : spec) : Z := count (λ n', bool_decide (n' = n)) (held s).

Definition leave (h : nat) (s : spec) : spec :=
  match held s !! h with
  | None => s
  | Some n =>
      {| segs := if decide (holders n s = 1) then delete n (segs s) else segs s; held := delete h (held s) |}
  end.

Definition enter (h : nat) (n : string) (s : spec) : spec := {|
  segs := <[n := default (replicate (Z.to_nat (sz n)) 0) (segs s !! n)]> (segs s); held := <[h := n]> (held s) |}.

Inductive spec_step : op → obs → spec → spec → Prop :=
| spec_acquire h n mode s :
    (mode = mode_create → segs (leave h s) !! n = None) →
    spec_step (Acquire h n mode) (Done true) s (enter h n (leave h s))
| spec_acquire_fails h n mode s : spec_step (Acquire h n mode) (Done false) s (leave h s)
| spec_release h s : spec_step (Release h) (Done true) s (leave h s)
| spec_write h n data off l s :
    held s !! h = Some n → segs s !! n = Some data → (off + length l ≤ length data)%nat →
    spec_step (Write h off l) (Done true) s
      {| segs := <[n := take off data ++ l ++ drop (off + length l) data]> (segs s); held := held s |}
| spec_write_refused h off l s :
    (∀ n data, held s !! h = Some n → segs s !! n = Some data → (length data < off + length l)%nat) →
    spec_step (Write h off l) (Done false) s s
| spec_read h s : spec_step (Read h) (Data (n ← held s !! h; segs s !! n)) s s.

Inductive spec_run : list (op * obs) → spec → spec → Prop :=
| spec_run_nil s : spec_run [] s s
| spec_run_cons o r t s s1 s2 : spec_step o r s s1 → spec_run t s1 s2 → spec_run ((o, r) :: t) s s2.

(** *** The relation between the two *)

Definition cs (n : string) : Z := calc_size (sz n).
Definition os_name (n : string) : string := shm_prefix +:+ n.

(** The object of a segment: its data, and its count. *)
Definition seg_ok (n : string) (o : object) (data : list Z) (cnt : Z) (k : kernel) : Prop :=
  length (bytes o k) = Z.to_nat (cs n) ∧ take (Z.to_nat (sz n)) (bytes o k) = data ∧ acc_load o (cs n) k = cnt.

(** An object that was made and never used: the call that made it failed half-way. *)
Definition unused (n : string) (o : object) (k : kernel) : Prop :=
  bytes o k = [] ∨ bytes o k = replicate (Z.to_nat (cs n)) 0.

Definition segment_rel (s : spec) (k : kernel) (n : string) : Prop :=
  match segs s !! n with
  | Some data => ∃ o, named (os_name n) k = Some o ∧ seg_ok n o data (holders n s) k ∧ 1 ≤ holders n s
  | None => holders n s = 0 ∧ ∀ o, named (os_name n) k = Some o → unused n o k
  end.

Definition handle_rel (s : spec) (k : kernel) (h : nat) (hd : handle) : Prop :=
  match m_ hd with
  | Some o => held s !! h = Some (n_ hd) ∧ named (os_name (n_ hd)) k = Some o ∧
      ∃ fd, id_ hd = Some {| fd_ := fd; mem_ := Some o; size_ := cs (n_ hd); name_ := os_name (n_ hd) |}
  | None => held s !! h = None ∧ ∀ ii, id_ hd = Some ii → mem_ ii = None
  end.

Definition names_ok (k : kernel) : Prop :=
  (∀ n1 n2 o, named n1 k = Some o → named n2 k = Some o → n1 = n2) ∧ (∀ n o, named n k = Some o → opened o k).

Record related (s : spec) (y : system) : Prop := {
  rel_segments n : segment_rel s (os y) n;
  rel_handles h : handle_rel s (os y) h (handle_at h y);
  rel_names : names_ok (os y);
  rel_size : Z.of_nat (size (held s)) < 2 ^ 64 - 1 }.

Hypothesis sz_ok : ∀ n, 0 < sz n < 2 ^ 62.

(** ** Lemmas *)

Lemma length_le_bytes n z : length (le_bytes n z) = n.
Proof. revert z. induction n as [|n IH]; intros z; cbn; [done|]. by rewrite IH. Qed.

Lemma le_val_le_bytes n z : le_val (le_bytes n z) = z `mod` 256 ^ Z.of_nat n.
Proof.
  revert z. induction n as [|n IH]; intros z; [by rewrite Z.mod_1_r|]. cbn [le_bytes le_val]. rewrite IH.
  rewrite Nat2Z.inj_succ, Z.pow_succ_r by lia. rewrite Z.rem_mul_r by lia. lia.
Qed.

Lemma le_val_zeros n : le_val (replicate n 0) = 0.
Proof. induction n as [|n IH]; [done|]. cbn. rewrite IH. done. Qed.

Lemma cs_bounds n : sz n + 8 ≤ cs n ∧ cs n `mod` 8 = 0 ∧ 8 < cs n < 2 ^ 63.
Proof.
  pose proof (sz_ok n) as Hsz. unfold cs, calc_size, info_size, u64.
  rewrite (Z.mod_small (sz n - 1)) by lia. rewrite Z.mod_small; Z.to_euclidean_division_equations; lia.
Qed.

Lemma os_name_inj n1 n2 : os_name n1 = os_name n2 → n1 = n2.
Proof. unfold os_name. apply append_inj_l. Qed.

(** What happens to one object only. *)
Definition only (o : object) (k k' : kernel) : Prop :=
  (∀ n, named n k' = named n k) ∧ (∀ o', opened o' k' ↔ opened o' k) ∧ (∀ o', o' ≠ o → bytes o' k' = bytes o' k).

#[local] Instance only_preorder o : PreOrder (only o).
Proof.
  split; [done|]. intros k1 k2 k3 (Hn1 & Ho1 & Hb1) (Hn2 & Ho2 & Hb2).
  split_and!; [intros n; by rewrite Hn2|intros o'; by rewrite Ho2|intros o' ?; by rewrite Hb2, Hb1].
Qed.

Lemma acc_store_ok n o data cnt v k :
  seg_ok n o data cnt k → 0 ≤ v < 2 ^ 64 →
  seg_ok n o data v (acc_store o (cs n) v k) ∧ only o k (acc_store o (cs n) v k).
Proof.
  intros (Hlen & Hdata & _) Hv. pose proof (cs_bounds n) as (Hc1 & _ & Hc2). pose proof (sz_ok n) as Hsz.
  unfold acc_store, info_size. set (off := Z.to_nat (cs n - 8)).
  pose proof (write_law o off (le_bytes 8 (u64 v)) k) as Hw. rewrite length_le_bytes, Hlen in Hw.
  destruct Hw as (Hb & Hother & Hnamed & Hopened); [unfold off; lia|]. set (k' := write _ _ _ _) in *.
  rewrite (drop_ge (bytes o k)) in Hb by (rewrite Hlen; unfold off; lia). rewrite app_nil_r in Hb.
  assert (length (take off (bytes o k)) = off) as Htake by (rewrite length_take, Hlen; unfold off; lia).
  split; [|by split_and!]. unfold seg_ok, acc_load, info_size. fold off. rewrite Hb. split_and!.
  - rewrite length_app, Htake, length_le_bytes. unfold off. lia.
  - rewrite take_app_le by (rewrite Htake; unfold off; lia). rewrite take_take.
    replace (Z.to_nat (sz n) `min` off)%nat with (Z.to_nat (sz n)) by (unfold off; lia). done.
  - rewrite drop_app_length' by done. rewrite take_ge by (rewrite length_le_bytes; lia).
    rewrite le_val_le_bytes. unfold u64. rewrite Z.mod_mod by lia. by rewrite Z.mod_small by (cbn; lia).
Qed.

Lemma zeros_ok n o k :
  bytes o k = replicate (Z.to_nat (cs n)) 0 → seg_ok n o (replicate (Z.to_nat (sz n)) 0) 0 k.
Proof.
  intros Hb. pose proof (cs_bounds n) as (Hc1 & _ & Hc2). pose proof (sz_ok n) as Hsz. unfold seg_ok, acc_load, info_size.
  rewrite Hb. split_and!; [by rewrite length_replicate|rewrite take_replicate; f_equal; lia|].
  rewrite drop_replicate, take_replicate. apply le_val_zeros.
Qed.

(** An object that can be mapped: in use, or never used. *)
Definition mappable (n : string) (o : object) (data : list Z) (cnt : Z) (k : kernel) : Prop :=
  seg_ok n o data cnt k ∧ 1 ≤ cnt ∨ unused n o k ∧ data = replicate (Z.to_nat (sz n)) 0 ∧ cnt = 0.

Lemma resize_mem_ok n o data cnt ii k :
  mappable n o data cnt k → size_ ii = sz n ∨ size_ ii = 0 →
  let '(ok, ii', k') := resize_mem o ii k in
  only o k k' ∧ mem_ ii' = mem_ ii ∧ name_ ii' = name_ ii ∧ mappable n o data cnt k' ∧
  (ok = true → size_ ii' = cs n ∧ seg_ok n o data cnt k').
Proof.
  intros Hm Hsize. pose proof (cs_bounds n) as (Hc1 & Hc2 & Hc3). pose proof (sz_ok n) as Hsz. unfold resize_mem.
  case_decide as Hz.
  - cbn [set_size mem_ name_ size_]. split_and!; [done|done|done|done|].
    intros Hok%negb_true_iff%bool_decide_eq_false. destruct Hm as [[Hseg _]|([Hb|Hb] & -> & ->)].
    + destruct Hseg as (Hlen & Hrest). split; [rewrite Hlen; lia|by split].
    + rewrite Hb in Hok. cbn in Hok. unfold info_size in Hok. lia.
    + split; [rewrite Hb, length_replicate; lia|by apply zeros_ok].
  - destruct Hsize as [Hsize|]; [|done]. cbn [set_size size_]. rewrite Hsize. fold (cs n).
    pose proof (ftruncate_law o (Z.to_nat (cs n)) k) as Hlaw.
    destruct (ftruncate o (Z.to_nat (cs n)) k) as [[] k']; cbn [mem_ name_ size_ set_size]; [|subst k'; by split_and!].
    destruct Hlaw as (Hb & Hother & Hnamed & Hopened). split_and!; [by split_and!|done|done| |].
    + destruct Hm as [[(Hlen & Hd & Hcnt) Hpos]|([Hz'|Hz'] & -> & ->)].
      * left. split; [|done]. unfold seg_ok, acc_load. rewrite Hb, resize_all_alt by lia. done.
      * right. split; [|done]. right. by rewrite Hb, Hz', resize_nil.
      * right. split; [|done]. right. rewrite Hb, Hz'. rewrite resize_all_alt; [done|by rewrite length_replicate].
    + intros _. split; [done|]. destruct Hm as [[(Hlen & Hd & Hcnt) Hpos]|([Hz'|Hz'] & -> & ->)].
      * unfold seg_ok, acc_load. by rewrite Hb, resize_all_alt by lia.
      * apply zeros_ok. by rewrite Hb, Hz', resize_nil.
      * apply zeros_ok. rewrite Hb, Hz'. rewrite resize_all_alt; [done|by rewrite length_replicate].
Qed.

Lemma get_mem_ok n o data cnt ii k :
  mappable n o data cnt k → fd_ ii = Some o → mem_ ii = None → size_ ii = sz n ∨ size_ ii = 0 → name_ ii = os_name n →
  0 ≤ cnt < 2 ^ 64 - 1 →
  let '(r, ii', k') := get_mem ii k in
  only o k k' ∧
  match r with
  | Some (o', size) => o' = o ∧ size = cs n ∧ seg_ok n o data (cnt + 1) k' ∧
      ii' = {| fd_ := None; mem_ := Some o; size_ := cs n; name_ := os_name n |}
  | None => mem_ ii' = None ∧ mappable n o data cnt k'
  end.
Proof.
  intros Hm Hfd Hmem Hsize Hname Hcnt. unfold get_mem. rewrite Hmem, Hfd.
  pose proof (resize_mem_ok n o data cnt ii k Hm Hsize) as Hres. destruct (resize_mem o ii k) as [[ok ii'] k'].
  destruct Hres as (Honly & Hmem' & Hname' & Hm' & Hok). rewrite Hmem in Hmem'.
  destruct ok; cbn [negb]; [|by split_and!]. destruct (Hok eq_refl) as [Hsz Hseg].
  destruct (mmap o k'); cbn [negb]; [|by split_and!]. rewrite Hsz. cbn [size_].
  destruct (acc_store_ok n o data cnt (cnt + 1) k') as [Hseg' Honly']; [done|lia|].
  destruct Hseg as (_ & _ & ->). split; [by etrans|]. split_and!; try done; try apply Hseg'. by rewrite Hname', Hname.
Qed.

Lemma release_ok n o data cnt fd k :
  seg_ok n o data cnt k → 1 ≤ cnt < 2 ^ 64 - 1 →
  let k' := release {| fd_ := fd; mem_ := Some o; size_ := cs n; name_ := os_name n |} k in
  (∀ o', o' ≠ o → bytes o' k' = bytes o' k) ∧ (∀ o', opened o' k' ↔ opened o' k) ∧
  (∀ n', n' ≠ os_name n → named n' k' = named n' k) ∧
  if decide (cnt = 1) then named (os_name n) k' = None
  else named (os_name n) k' = named (os_name n) k ∧ seg_ok n o data (cnt - 1) k'.
Proof.
  intros Hseg Hcnt k'. unfold k', release. cbn [mem_ size_ name_]. pose proof (cs_bounds n) as (_ & _ & Hc).
  rewrite decide_False by lia. destruct (acc_store_ok n o data cnt (cnt - 1) k Hseg) as [Hseg' (Hn & Ho & Hb)]; [lia|].
  destruct Hseg as (_ & _ & ->). rewrite (decide_False (P := os_name n = "")) by done.
  destruct (decide (cnt = 1)); [|by split_and!].
  destruct (shm_unlink_law (os_name n) (acc_store o (cs n) (cnt - 1) k)) as (Hu1 & Hu2 & Hu3 & Hu4).
  split_and!; [intros o' ?; by rewrite Hu3, Hb|intros o'; by rewrite Hu4, Ho|intros n' ?; by rewrite Hu2, Hn|done].
Qed.

Lemma seg_ok_bytes n o data cnt k k' : bytes o k' = bytes o k → seg_ok n o data cnt k → seg_ok n o data cnt k'.
Proof. unfold seg_ok, acc_load. by intros ->. Qed.

Lemma unused_bytes n o k k' : bytes o k' = bytes o k → unused n o k → unused n o k'.
Proof. unfold unused. by intros ->. Qed.

(** A segment that a step does not concern. *)
Lemma segment_rel_frame s s' k k' n :
  segs s' !! n = segs s !! n → holders n s' = holders n s → named (os_name n) k' = named (os_name n) k →
  (∀ o, named (os_name n) k = Some o → bytes o k' = bytes o k) →
  segment_rel s k n → segment_rel s' k' n.
Proof.
  unfold segment_rel. intros -> -> -> Hb. destruct (segs s !! n) as [data|].
  - intros (o & Hn & Hseg & Hpos). exists o. split_and!; [done| |done]. eapply seg_ok_bytes; [by apply Hb|done].
  - intros [H0 Hu]. split; [done|]. intros o Ho. eapply unused_bytes; [by apply Hb|by apply Hu].
Qed.

Lemma holders_one n h s : held s !! h = Some n → 1 ≤ holders n s.
Proof. intros Hh. apply (count_one _ _ h n Hh). by apply bool_decide_eq_true. Qed.

Lemma holders_leave n h s n' :
  held s !! h = Some n → holders n' (leave h s) = holders n' s - Z.b2z (bool_decide (n = n')).
Proof.
  intros Hh. unfold leave. rewrite Hh. unfold holders. cbn [held].
  rewrite (count_delete _ (held s) h n Hh). lia.
Qed.

Lemma holders_enter n h s n' :
  held s !! h = None → holders n' (enter h n s) = holders n' s + Z.b2z (bool_decide (n = n')).
Proof. intros Hh. unfold holders, enter, count. cbn [held]. rewrite msum_insert by done. lia. Qed.

(** The segment of a handle. *)
Lemma held_segment s y h o :
  related s y → m_ (handle_at h y) = Some o →
  ∃ data, segs s !! n_ (handle_at h y) = Some data ∧ held s !! h = Some (n_ (handle_at h y)) ∧
    named (os_name (n_ (handle_at h y))) (os y) = Some o ∧
    seg_ok (n_ (handle_at h y)) o data (holders (n_ (handle_at h y)) s) (os y) ∧
    1 ≤ holders (n_ (handle_at h y)) s < 2 ^ 64 - 1.
Proof.
  intros [Hseg Hh _ Hsize] Hm. specialize (Hh h). unfold handle_rel in Hh. rewrite Hm in Hh.
  destruct Hh as (Hheld & Hnamed & _). set (n := n_ (handle_at h y)) in *.
  specialize (Hseg n). unfold segment_rel in Hseg. pose proof (holders_one n h s Hheld) as H1.
  pose proof (count_bounds (λ n', bool_decide (n' = n)) (held s)) as Hb. fold (holders n s) in Hb.
  destruct (segs s !! n) as [data|]; [|lia]. destruct Hseg as (o' & Ho' & Hok & _).
  assert (o' = o) as -> by congruence. exists data. split_and!; try done; try apply Hok; lia.
Qed.

Lemma handle_at_insert h h' hd y k :
  handle_at h' {| os := k; handles := <[h := hd]> (handles y) |} = if decide (h' = h) then hd else handle_at h' y.
Proof.
  unfold handle_at. cbn [handles]. case_decide; [by subst; rewrite lookup_insert_eq|by rewrite lookup_insert_ne].
Qed.

(** A handle that is left. *)
Lemma release_related s y h :
  related s y →
  let '(hd', k) := handle_release (handle_at h y) (os y) in
  related (leave h s) {| os := k; handles := <[h := hd']> (handles y) |} ∧ m_ hd' = None ∧ held (leave h s) !! h = None.
Proof.
  intros Hrel. pose proof Hrel as [Hseg Hh [Hinj Hopen] Hsize]. set (hd := handle_at h y).
  destruct (m_ hd) as [o|] eqn:Hm.
  - destruct (held_segment s y h o Hrel Hm) as (data & Hdata & Hheld & Hnamed & Hok & Hcnt). fold hd in Hdata, Hheld, Hnamed, Hok, Hcnt.
    pose proof (Hh h) as Hhd. unfold handle_rel in Hhd. fold hd in Hhd. rewrite Hm in Hhd. destruct Hhd as (_ & _ & fd & Hid).
    unfold handle_release. rewrite Hid. set (n := n_ hd) in *.
    destruct (release_ok n o data (holders n s) fd (os y) Hok Hcnt) as (Hb & Hop & Hn & Hend).
    set (k := release _ _) in *.
    assert (held (leave h s) = delete h (held s)) as Hheld' by (unfold leave; by rewrite Hheld).
    assert (∀ n' o', n' ≠ n → named (os_name n') (os y) = Some o' → bytes o' k = bytes o' (os y)) as Hother.
    { intros n' o' Hne Ho'. apply Hb. intros ->. apply Hne, os_name_inj. by eapply Hinj. }
    assert (∀ n', n' ≠ n → named (os_name n') k = named (os_name n') (os y)) as Hnames.
    { intros n' Hne. apply Hn. intros ?%os_name_inj. done. }
    assert (∀ n' o', named n' k = Some o' → named n' (os y) = Some o') as Hsub.
    { intros n' o'. destruct (decide (n' = os_name n)) as [->|]; [|by rewrite Hn].
      destruct (decide (holders n s = 1)); [by rewrite Hend|]. by destruct Hend as [-> _]. }
    split; [|split; [done|by rewrite Hheld', lookup_delete_eq]]. split; cbn [os].
    + intros n'. destruct (decide (n' = n)) as [->|Hne].
      * unfold segment_rel. rewrite (holders_leave n h s n Hheld), bool_decide_true by done. cbn [Z.b2z].
        unfold leave. rewrite Hheld. cbn [segs]. destruct (decide (holders n s = 1)) as [E|E].
        -- rewrite lookup_delete_eq. split; [lia|]. intros o' Ho'. by rewrite Hend in Ho'.
        -- rewrite Hdata. destruct Hend as [Hend Hseg']. exists o. split_and!; [by rewrite Hend|done..|lia].
      * eapply segment_rel_frame; [| |by apply Hnames| |apply Hseg].
        -- unfold leave. rewrite Hheld. cbn [segs]. case_decide; [by rewrite lookup_delete_ne|done].
        -- rewrite (holders_leave n h s n' Hheld), bool_decide_false by done. cbn. lia.
        -- intros o'. by apply Hother.
    + intros h'. rewrite handle_at_insert. destruct (decide (h' = h)) as [->|Hne].
      { unfold handle_rel. cbn [m_ new_handle id_]. by rewrite Hheld', lookup_delete_eq. }
      specialize (Hh h'). unfold handle_rel in *. rewrite Hheld', lookup_delete_ne by done.
      destruct (m_ (handle_at h' y)) as [o'|] eqn:Hm'; [|done]. destruct Hh as (Hh1 & Hh2 & Hh3). split_and!; [done| |done].
      destruct (decide (n_ (handle_at h' y) = n)) as [E|E]; [|by rewrite Hnames].
      rewrite E. destruct (decide (holders n s = 1)) as [E1|]; [|destruct Hend as [-> _]; by rewrite <- E].
      rewrite E in Hh1. assert (2 ≤ holders n s); [|lia].
      apply (count_two _ _ h h' n n); [done|done|done|by apply bool_decide_eq_true..].
    + split; [intros n1 n2 o' H1%Hsub H2%Hsub; by eapply Hinj|]. intros n' o' Ho'%Hsub. apply Hop. by eapply Hopen.
    + rewrite Hheld', map_size_delete_Some by (by rewrite Hheld). lia.
  - pose proof (Hh h) as Hhd. unfold handle_rel in Hhd. fold hd in Hhd. rewrite Hm in Hhd. destruct Hhd as [Hheld Hid].
    assert (leave h s = s) as Hleave by (unfold leave; by rewrite Hheld). rewrite Hleave.
    assert (∃ hd', handle_release hd (os y) = (hd', os y) ∧ m_ hd' = None ∧ ∀ ii, id_ hd' = Some ii → mem_ ii = None)
      as (hd' & -> & Hm' & Hid').
    { unfold handle_release. destruct (id_ hd) as [ii|] eqn:E; [|exists hd; split_and!; [done|done|by intros; congruence]].
      exists new_handle. split_and!; [|done|done]. unfold release. by rewrite (Hid ii). }
    split; [|done]. split; [done| |done|done]. intros h'. rewrite handle_at_insert. destruct (decide (h' = h)) as [->|Hne]; [|apply Hh].
    unfold handle_rel. by rewrite Hm'.
Qed.

(** Opening the object of a name. *)
Lemma open_related s y n creat excl o k :
  related s y → shm_open (os_name n) creat excl (os y) = (Some o, k) →
  related s {| os := k; handles := handles y |} ∧ named (os_name n) k = Some o ∧ (excl = true → segs s !! n = None).
Proof.
  intros [Hseg Hh [Hinj Hopen] Hsize] E.
  pose proof (shm_open_law (os_name n) creat excl (os y)) as Hlaw. rewrite E in Hlaw.
  destruct (shm_open_fresh _ _ _ _ _ _ E) as (Ho & Hfresh & Hop).
  destruct Hlaw as [(Hn & -> & ->)|(Hn & _ & Hn' & Hb & Hother & Hbytes)]; [by split_and!|].
  specialize (Hfresh Hn).
  assert (∀ n' o', named n' (os y) = Some o' → bytes o' k = bytes o' (os y)) as Hsame.
  { intros n' o' Ho'. apply Hbytes. intros ->. by apply Hfresh, (Hopen n'). }
  assert (∀ n', n' ≠ n → named (os_name n') k = named (os_name n') (os y)) as Hnames.
  { intros n' Hne. apply Hother. intros ?%os_name_inj. done. }
  assert (segs s !! n = None) as Hnone.
  { specialize (Hseg n). unfold segment_rel in Hseg. destruct (segs s !! n); [|done].
    destruct Hseg as (o' & Ho' & _). congruence. }
  split_and!; [|done|done]. split; cbn [os]; [| | |done].
  - intros n'. destruct (decide (n' = n)) as [->|Hne].
    + specialize (Hseg n). unfold segment_rel in *. rewrite Hnone in *. split; [apply Hseg|].
      intros o' Ho'. left. congruence.
    + eapply segment_rel_frame; [done|done|by apply Hnames|intros o'; apply Hsame|apply Hseg].
  - intros h. specialize (Hh h). unfold handle_rel in *. change (handle_at h {| os := k; handles := handles y |}) with (handle_at h y).
    destruct (m_ (handle_at h y)) as [o'|]; [|done]. destruct Hh as (Hh1 & Hh2 & Hh3). split_and!; [done| |done].
    destruct (decide (n_ (handle_at h y) = n)) as [En|En]; [|by rewrite Hnames]. rewrite En in *. congruence.
  - split; [|intros n' o' Ho'; destruct (decide (n' = os_name n)) as [->|Hne]; [congruence|]].
    + intros n1 n2 o' H1 H2. destruct (decide (n1 = os_name n)) as [->|Hn1], (decide (n2 = os_name n)) as [->|Hn2]; [done|..].
      * rewrite Hn' in H1. injection H1 as <-. destruct (Hother n2 Hn2) as [Heq Hno]. congruence.
      * rewrite Hn' in H2. injection H2 as <-. destruct (Hother n1 Hn1) as [Heq Hno]. congruence.
      * destruct (Hother n1 Hn1) as [Heq1 _], (Hother n2 Hn2) as [Heq2 _]. apply (Hinj n1 n2 o'); congruence.
    + destruct (Hother n' Hne) as [Heq _]. apply Hop, (Hopen n'). congruence.
Qed.

(** The object behind a name can be mapped. *)
Lemma named_mappable s y n o :
  related s y → named (os_name n) (os y) = Some o →
  mappable n o (default (replicate (Z.to_nat (sz n)) 0) (segs s !! n)) (holders n s) (os y) ∧
  0 ≤ holders n s < 2 ^ 64 - 1.
Proof.
  intros [Hseg _ _ Hsize] Hn. specialize (Hseg n). unfold segment_rel in Hseg.
  pose proof (count_bounds (λ n', bool_decide (n' = n)) (held s)) as Hb. fold (holders n s) in Hb. split; [|lia].
  destruct (segs s !! n) as [data|]; cbn [default].
  - destruct Hseg as (o' & Ho' & Hok & Hpos). left. assert (o' = o) as -> by congruence. done.
  - destruct Hseg as [H0 Hu]. right. by split_and!; [apply Hu| |].
Qed.

(** A mapping that succeeds or fails. *)
Lemma map_related s y h n o ii :
  related s y → held s !! h = None → named (os_name n) (os y) = Some o →
  fd_ ii = Some o → mem_ ii = None → size_ ii = sz n ∨ size_ ii = 0 → name_ ii = os_name n →
  Z.of_nat (size (held s)) + 1 < 2 ^ 64 - 1 →
  ∀ st, let '(hd, k) := map_id (Some ii) n st (os y) in
  related (if valid hd then enter h n s else s) {| os := k; handles := <[h := hd]> (handles y) |}.
Proof.
  intros Hrel Hheld Hn Hfd Hmem Hsize Hname Hbound st.
  destruct (named_mappable s y n o Hrel Hn) as [Hmap Hcnt].
  pose proof (get_mem_ok n o _ _ ii (os y) Hmap Hfd Hmem Hsize Hname Hcnt) as Hget.
  unfold map_id. destruct (get_mem ii (os y)) as [[r ii'] k]. destruct Hget as [(Hnames & Hop & Hbytes) Hget].
  pose proof Hrel as [Hseg Hh [Hinj Hopen] Hsz].
  assert (∀ n' o', n' ≠ n → named (os_name n') (os y) = Some o' → bytes o' k = bytes o' (os y)) as Hother.
  { intros n' o' Hne Ho'. apply Hbytes. intros ->. apply Hne, os_name_inj. by eapply Hinj. }
  assert (names_ok k) as Hok.
  { split; [intros n1 n2 o'; rewrite !Hnames; apply Hinj|]. intros n' o'. rewrite Hnames, Hop. apply Hopen. }
  destruct r as [[o' size]|].
  - destruct Hget as (-> & -> & Hseg' & ->). unfold valid. cbn [m_]. rewrite bool_decide_true by done. split; cbn [os].
    + intros n'. destruct (decide (n' = n)) as [->|Hne].
      * unfold segment_rel. cbn [enter segs]. rewrite lookup_insert_eq.
        rewrite (holders_enter n h s n Hheld), bool_decide_true by done. cbn [Z.b2z].
        exists o. rewrite Hnames. split_and!; [done|apply Hseg'..|lia].
      * eapply segment_rel_frame; [cbn; by rewrite lookup_insert_ne| |apply Hnames|intros o'; by apply Hother|apply Hseg].
        rewrite (holders_enter n h s n' Hheld), bool_decide_false by done. cbn. lia.
    + intros h'. rewrite handle_at_insert. destruct (decide (h' = h)) as [->|Hne].
      * unfold handle_rel. cbn [m_ n_ id_ enter held]. rewrite lookup_insert_eq, Hnames. split_and!; [done|done|by eexists].
      * specialize (Hh h'). unfold handle_rel in *. cbn [enter held]. rewrite lookup_insert_ne by done.
        destruct (m_ (handle_at h' y)); [|done]. by rewrite Hnames.
    + done.
    + cbn [enter held]. rewrite map_size_insert_None by done. lia.
  - destruct Hget as [Hmem' Hmap']. unfold valid. cbn [m_]. rewrite bool_decide_false by (intros ?; done). split; cbn [os].
    + intros n'. destruct (decide (n' = n)) as [->|Hne].
      * specialize (Hseg n). unfold segment_rel in *. destruct (segs s !! n) as [data|]; cbn [default] in *.
        -- destruct Hseg as (o' & Ho' & _ & Hpos). exists o. rewrite Hnames. split_and!; try done.
           all: destruct Hmap' as [[Hs' _]|(_ & _ & H0)]; [apply Hs'|lia].
        -- destruct Hseg as [H0 _]. split; [done|]. intros o'. rewrite Hnames, Hn. intros [= <-].
           destruct Hmap' as [[_ ?]|[? _]]; [lia|done].
      * eapply segment_rel_frame; [done|done|apply Hnames|intros o'; by apply Hother|apply Hseg].
    + intros h'. rewrite handle_at_insert. destruct (decide (h' = h)) as [->|Hne].
      * unfold handle_rel. cbn [m_ id_]. split; [done|]. by intros ii0 [= <-].
      * specialize (Hh h'). unfold handle_rel in *. destruct (m_ (handle_at h' y)); [|done]. by rewrite Hnames.
    + done.
    + done.
Qed.

Lemma size_leave h s : (size (held (leave h s)) ≤ size (held s))%nat.
Proof.
  unfold leave. destruct (held s !! h) as [n|] eqn:E; [|done]. cbn [held].
  rewrite map_size_delete_Some by (by rewrite E). lia.
Qed.

Lemma acquire_related s y h n mode :
  related s y → Z.of_nat (size (held s)) + 1 < 2 ^ 64 - 1 →
  let '(r, y') := system_step (Acquire h n mode) y in
  ∃ s', spec_step (Acquire h n mode) r s s' ∧ related s' y' ∧ (size (held s') ≤ S (size (held s)))%nat.
Proof.
  intros Hrel Hbound. cbn [system_step]. unfold handle_acquire.
  pose proof (release_related s y h Hrel) as Hrelease. destruct (handle_release (handle_at h y) (os y)) as [hd k].
  destruct Hrelease as (Hrel1 & Hm & Hheld). pose proof (size_leave h s) as Hle.
  set (s1 := leave h s) in *. set (y1 := {| os := k; handles := <[h := hd]> (handles y) |}) in *.
  assert (∀ k2 hd2, related s1 {| os := k2; handles := handles y1 |} → m_ hd2 = None → id_ hd2 = None →
    related s1 {| os := k2; handles := <[h := hd2]> (handles y) |}) as Hnull.
  { intros k2 hd2 [Hseg Hh Hnames Hsize] Hm2 Hid2. split; [done| |done|done]. intros h'.
    specialize (Hh h'). unfold y1 in Hh. cbn [handles] in Hh. rewrite handle_at_insert in *. destruct (decide (h' = h)) as [->|]; [|done].
    unfold handle_rel. rewrite Hm2, Hid2. by split. }
  unfold acquire. destruct (decide (n = "")) as [->|Hn0].
  { cbn [map_id]. unfold valid. cbn [m_]. exists s1. split_and!; [constructor|by apply Hnull|lia]. }
  set (size0 := if decide (mode = mode_open) then 0 else sz n). fold (os_name n).
  destruct (shm_open (os_name n) _ _ k) as [[o|] k1] eqn:E.
  - destruct (open_related s1 y1 n _ _ o k1 Hrel1 E) as (Hrel2 & Hnamed & Hexcl).
    set (ii := {| fd_ := Some o; mem_ := None; size_ := size0; name_ := os_name n |}).
    pose proof (map_related s1 _ h n o ii Hrel2 Hheld Hnamed eq_refl eq_refl) as Hmap.
    specialize (Hmap ltac:(unfold ii, size0; cbn; destruct (decide (mode = mode_open)); auto) eq_refl ltac:(lia) (s_ hd)). cbn [os handles] in Hmap.
    destruct (map_id (Some ii) n (s_ hd) k1) as [hd2 k2]. unfold y1 in Hmap. cbn [handles] in Hmap. rewrite insert_insert_eq in Hmap.
    destruct (valid hd2).
    + exists (enter h n s1). split_and!; [|done|].
      * constructor. fold s1. intros Hmode. apply Hexcl. by apply bool_decide_eq_true.
      * cbn [enter held]. rewrite map_size_insert_None by done. lia.
    + exists s1. split_and!; [constructor|done|lia].
  - cbn [map_id]. unfold valid. cbn [m_]. exists s1. split_and!; [constructor| |lia]. apply Hnull; [|done|done].
    pose proof (shm_open_law (os_name n) (negb (bool_decide (mode = mode_open))) (bool_decide (mode = mode_create)) k) as Hlaw.
    rewrite E in Hlaw. by subst k1.
Qed.

Lemma write_related s y h off l :
  related s y →
  let '(r, y') := system_step (Write h off l) y in
  ∃ s', spec_step (Write h off l) r s s' ∧ related s' y' ∧ held s' = held s.
Proof.
  intros Hrel. cbn [system_step]. destruct (m_ (handle_at h y)) as [o|] eqn:Hm.
  2:{ exists s. split_and!; [|done|done]. constructor. intros n data Hh. pose proof (rel_handles _ _ Hrel h) as Hr.
      unfold handle_rel in Hr. rewrite Hm in Hr. destruct Hr as [Hr _]. congruence. }
  destruct (held_segment s y h o Hrel Hm) as (data & Hdata & Hheld & Hnamed & (Hlen & Htake & Hacc) & Hcnt).
  set (n := n_ (handle_at h y)) in *. pose proof (cs_bounds n) as (Hc1 & _ & Hc2). pose proof (sz_ok n) as Hsz.
  assert (length data = Z.to_nat (sz n)) as Hdl by (rewrite <- Htake, length_take, Hlen; lia).
  destruct (decide (Z.of_nat (off + length l) ≤ sz n)) as [Hfit|Hfit].
  2:{ exists s. split_and!; [|done|done]. constructor. intros n' data' Hh' Hd'.
      assert (n' = n) as -> by congruence. assert (data' = data) as -> by congruence. lia. }
  destruct (write_law o off l (os y)) as (Hb & Hother & Hnames & Hop); [lia|]. set (k := write _ _ _ _) in *.
  eexists. split; [apply (spec_write h n data); [done|done|lia]|]. split; [|done].
  destruct Hrel as [Hseg Hh [Hinj Hopen] Hsize]. split; cbn [os]; [| | |done].
  - intros n'. destruct (decide (n' = n)) as [->|Hne].
    + unfold segment_rel. cbn [segs]. rewrite lookup_insert_eq. exists o. rewrite Hnames. split_and!; [done| |apply Hcnt].
      change (holders n _) with (holders n s). unfold seg_ok, acc_load, info_size in *. rewrite Hb. split_and!.
      * rewrite !length_app, length_take, length_drop, Hlen. lia.
      * rewrite <- Htake, take_take. replace (off `min` Z.to_nat (sz n))%nat with off by lia.
        rewrite take_app_ge by (rewrite length_take; lia). f_equal. rewrite length_take, Hlen.
        replace (off `min` Z.to_nat (cs n))%nat with off by lia.
        rewrite take_app_ge by lia. f_equal. rewrite take_drop_commute. f_equal. f_equal. lia.
      * rewrite <- Hacc. f_equal. f_equal.
        rewrite drop_app_ge by (rewrite length_take; lia). rewrite length_take, Hlen.
        rewrite drop_app_ge by lia. rewrite drop_drop. f_equal. lia.
    + eapply segment_rel_frame; [cbn; by rewrite lookup_insert_ne|done|apply Hnames| |apply Hseg].
      intros o' Ho'. apply Hother. intros ->. apply Hne, os_name_inj. by eapply Hinj.
  - intros h'. specialize (Hh h'). unfold handle_rel in *.
    change (handle_at h' {| os := k; handles := handles y |}) with (handle_at h' y). cbn [held].
    destruct (m_ (handle_at h' y)); [|done]. by rewrite Hnames.
  - split; [intros n1 n2 o'; rewrite !Hnames; apply Hinj|]. intros n' o'. rewrite Hnames, Hop. apply Hopen.
Qed.

Lemma step_related s y o :
  related s y → Z.of_nat (size (held s)) + 1 < 2 ^ 64 - 1 →
  let '(r, y') := system_step o y in
  ∃ s', spec_step o r s s' ∧ related s' y' ∧ (size (held s') ≤ S (size (held s)))%nat.
Proof.
  intros Hrel Hbound. destruct o as [h n mode|h|h off l|h].
  - by apply acquire_related.
  - cbn [system_step]. pose proof (release_related s y h Hrel) as Hr.
    destruct (handle_release _ _) as [hd k]. destruct Hr as (Hr & _ & _). exists (leave h s).
    split_and!; [constructor|done|]. pose proof (size_leave h s). lia.
  - pose proof (write_related s y h off l Hrel) as Hw. destruct (system_step _ _) as [r y'].
    destruct Hw as (s' & Hs & Hr & Hheld). exists s'. split_and!; [done|done|]. rewrite Hheld. lia.
  - cbn [system_step]. exists s. split_and!; [|done|lia].
    destruct (m_ (handle_at h y)) as [o|] eqn:Hm.
    + destruct (held_segment s y h o Hrel Hm) as (data & Hdata & Hheld & _ & (_ & Htake & _) & _).
      rewrite Htake. pose proof (spec_read h s) as Hstep. rewrite Hheld in Hstep. cbn in Hstep. by rewrite Hdata in Hstep.
    + pose proof (rel_handles _ _ Hrel h) as Hr. unfold handle_rel in Hr. rewrite Hm in Hr. destruct Hr as [Hr _].
      pose proof (spec_read h s) as Hstep. by rewrite Hr in Hstep.
Qed.

(** ** Properties *)

(** C26: Segments are shared memory: whatever handles acquire, release, read and write, and
    whichever calls of the operating system fail, what the clients see is a store of named
    sequences of bytes: handles of a name see the same bytes, a write is seen by all of
    them, a segment starts with zeros, and it lives exactly as long as a handle holds it.  Every
    operation runs alone ([Demo.name_race]), the handles of a name ask for one size
    ([Demo.resize_loses_count]), there are no segments at the start, and [shm_unlink] does
    not fail. *)
Theorem segments_refine (l : list op) y :
  (∀ n, named n (os y) = None) → handles y = ∅ → Z.of_nat (length l) < 2 ^ 64 - 2 →
  ∃ s, spec_run (system_run l y).1 {| segs := ∅; held := ∅ |} s.
Proof.
  intros Hnames Hhandles Hlen.
  assert (related {| segs := ∅; held := ∅ |} y) as Hrel.
  { split; [| |split; intros ? **; congruence|done].
    - intros n. unfold segment_rel. cbn [segs]. rewrite lookup_empty. split; [done|]. intros o Ho. congruence.
    - intros h. unfold handle_rel, handle_at. rewrite Hhandles. by rewrite lookup_empty. }
  clear Hnames Hhandles. set (s0 := {| segs := ∅; held := ∅ |}) in *.
  assert (Z.of_nat (size (held s0)) + Z.of_nat (length l) < 2 ^ 64 - 2) as Hsize by (unfold s0; cbn [held]; rewrite map_size_empty; lia).
  clearbody s0. clear Hlen. revert s0 y Hrel Hsize. induction l as [|o l IH]; intros s y Hrel Hsize; [eexists; constructor|].
  cbn [system_run length] in *. pose proof (step_related s y o Hrel ltac:(lia)) as Hstep.
  destruct (system_step o y) as [r y1]. destruct Hstep as (s1 & Hs & Hrel1 & Hs1).
  destruct (IH s1 y1 Hrel1) as [s2 Hrun]; [lia|]. destruct (system_run l y1) as [t y2]. exists s2. by econstructor.
Qed.

End clients.

(** ** An operating system, for evaluation *)

Record model_os := { mo_names : gmap string nat; mo_files : list (list Z) }.

Definition mo_named (name : string) (k : model_os) : option nat :=
  o ← mo_names k !! name; if decide (o < length (mo_files k))%nat then Some o else None.

Definition mo_bytes (o : nat) (k : model_os) : list Z := default [] (mo_files k !! o).

Definition mo_open (name : string) (creat excl : bool) (k : model_os) : option nat * model_os :=
  match mo_named name k with
  | Some o => if excl then (None, k) else (Some o, k)
  | None =>
      if creat then (Some (length (mo_files k)),
        {| mo_names := <[name := length (mo_files k)]> (filter (λ p, (p.2 < length (mo_files k))%nat) (mo_names k));
           mo_files := mo_files k ++ [[]] |})
      else (None, k)
  end.

Definition mo_truncate (o n : nat) (k : model_os) : bool * model_os :=
  if decide (o < length (mo_files k))%nat then
    (true, {| mo_names := mo_names k; mo_files := alter (resize n 0) o (mo_files k) |})
  else (false, k).

Definition mo_unlink (name : string) (k : model_os) : model_os :=
  {| mo_names := delete name (mo_names k); mo_files := mo_files k |}.

Definition mo_write (o off : nat) (l : list Z) (k : model_os) : model_os :=
  {| mo_names := mo_names k; mo_files := alter (λ b, take off b ++ l ++ drop (off + length l) b) o (mo_files k) |}.

Lemma mo_bytes_alter f o o' k names :
  mo_bytes o' {| mo_names := names; mo_files := alter f o (mo_files k) |}
  = if decide (o' = o ∧ (o < length (mo_files k))%nat) then f (mo_bytes o' k) else mo_bytes o' k.
Proof.
  unfold mo_bytes. cbn [mo_files]. destruct (decide _) as [[-> Ho]|Hne].
  - rewrite list_lookup_alter_eq. destruct (lookup_lt_is_Some_2 _ _ Ho) as [b ->]. done.
  - destruct (decide (o' = o)) as [->|]; [|by rewrite list_lookup_alter_ne].
    assert (mo_files k !! o = None) as Hnone by (apply lookup_ge_None; lia).
    by rewrite list_lookup_alter_eq, Hnone.
Qed.

Lemma mo_named_files name k k' :
  mo_names k' !! name = mo_names k !! name → length (mo_files k') = length (mo_files k) → mo_named name k' = mo_named name k.
Proof. unfold mo_named. by intros -> ->. Qed.

#[refine] Definition model_posix : Posix := {|
  kernel := model_os; object := nat; named := mo_named; bytes := mo_bytes; shm_open := mo_open;
  ftruncate := mo_truncate; mmap := λ _ _, true; shm_unlink := mo_unlink; write := mo_write;
  opened := λ o k, (o < length (mo_files k))%nat |}.
Proof.
  - intros name creat excl k. unfold mo_open. destruct (mo_named name k) as [o|] eqn:E; [by destruct excl; [|left]|].
    destruct creat; [|done]. right. split_and!; [done|done| | | |].
    + unfold mo_named. cbn. rewrite lookup_insert_eq. cbn. rewrite decide_True; [done|]. rewrite length_app. cbn. lia.
    + unfold mo_bytes. cbn [mo_files]. by rewrite list_lookup_middle.
    + intros n Hne. assert (∀ o, mo_named n k = Some o → (o < length (mo_files k))%nat) as Hlt.
      { unfold mo_named. intros o. destruct (mo_names k !! n); cbn; [|done]. case_decide; [by intros [= <-]|done]. }
      split; [|intros Ho; apply Hlt in Ho; lia].
      unfold mo_named. cbn [mo_names mo_files]. rewrite lookup_insert_ne, length_app by done. cbn [length].
      rewrite map_lookup_filter. destruct (mo_names k !! n) as [o|]; cbn; [|done].
      destruct (decide (o < length (mo_files k))%nat) as [Ho|Ho].
      * rewrite option_guard_True by done. cbn. by rewrite decide_True by lia.
      * by rewrite option_guard_False.
    + intros o' Hne. unfold mo_bytes. cbn [mo_files]. f_equal.
      destruct (decide (o' < length (mo_files k))%nat); [by apply lookup_app_l|].
      rewrite !lookup_ge_None_2; [done|lia|]. rewrite length_app. cbn. lia.
  - intros name creat excl k o k'. unfold mo_open. destruct (mo_named name k) as [o'|] eqn:E.
    + destruct excl; [done|]. intros [= <- <-]. split_and!; [|done|done]. unfold mo_named in E.
      destruct (mo_names k !! name); cbn in E; [|done]. case_decide; naive_solver.
    + destruct creat; [|done]. intros [= <- <-]. cbn [mo_files]. rewrite length_app. cbn. split_and!; [lia|lia|intros; lia].
  - intros o n k. unfold mo_truncate. case_decide as Ho; [|done]. cbn [mo_files]. split_and!.
    + rewrite mo_bytes_alter. by rewrite decide_True.
    + intros o' Hne. rewrite mo_bytes_alter. by rewrite decide_False by naive_solver.
    + intros name. apply mo_named_files; [done|]. cbn. by rewrite length_alter.
    + intros o'. by rewrite length_alter.
  - intros name k. cbn zeta. split_and!; [|intros n Hne|done|done].
    + unfold mo_named. cbn. by rewrite lookup_delete_eq.
    + apply mo_named_files; [cbn; by rewrite lookup_delete_ne|done].
  - intros o off l k Hfit. cbn zeta. unfold mo_write. split_and!.
    + rewrite mo_bytes_alter. destruct (decide (o < length (mo_files k))%nat); [by rewrite decide_True|].
      rewrite decide_False by naive_solver. assert (mo_bytes o k = []) as Hnil.
      { unfold mo_bytes. by rewrite lookup_ge_None_2 by lia. }
      rewrite Hnil in *. cbn in Hfit. destruct l; [by rewrite take_nil, drop_nil|cbn in Hfit; lia].
    + intros o' Hne. rewrite mo_bytes_alter. by rewrite decide_False by naive_solver.
    + intros name. apply mo_named_files; [done|]. cbn. by rewrite length_alter.
    + intros o'. cbn. by rewrite length_alter.
Defined.

Module Demo.

#[local] Existing Instance model_posix.

Definition fresh_os : model_os := {| mo_names := ∅; mo_files := [] |}.

Definition start : system := {| os := fresh_os; handles := ∅ |}.

Definition four (_ : string) : Z := 4.

Definition ops : list op :=
  [Acquire 0 "a" 3; Acquire 1 "a" mode_open; Acquire 2 "a" mode_create; Write 0 1 [7; 8]; Read 1; Release 0; Read 0;
   Read 1; Release 1; Acquire 2 "a" mode_open; Acquire 2 "a" 3; Read 2; Write 2 2 [1; 2; 3]].

Example ops_trace :
  snd <$> (system_run four ops start).1 =
  [Done true; Done true; Done false; Done true; Data (Some [0; 7; 8; 0]); Done true; Data None;
   Data (Some [0; 7; 8; 0]); Done true; Done false; Done true; Data (Some [0; 0; 0; 0]); Done false].
Proof. vm_compute. reflexivity. Qed.

(** The object that a call has mapped. *)
Definition mapped (r : option (object * Z) * id_info * kernel) : option nat := fst <$> r.1.1.

(** [acquire] opens the object and [get_mem] counts later: when the last handle is released
    in between, the name is removed, and two live handles of one name are on different
    objects. *)
Definition race : option nat * option nat :=
  match acquire "a" 4 3 fresh_os with
  | (Some a, k) =>
      let '(_, a, k) := get_mem a k in
      match acquire "a" 4 3 k with          (* another process *)
      | (Some b, k) =>
          let k := release a k in           (* the first one leaves *)
          let rb := get_mem b k in
          match acquire "a" 4 3 rb.2 with   (* a third one *)
          | (Some c, k) => (mapped rb, mapped (get_mem c k))
          | _ => (None, None)
          end
      | _ => (None, None)
      end
  | _ => (None, None)
  end.

Example name_race : race = (Some 0%nat, Some 1%nat).
Proof. vm_compute. reflexivity. Qed.

(** Acquiring a name with another size moves the counter: the second handle takes itself for
    the only one, and its release removes the name under the first. *)
Definition resized : bool * option nat :=
  let '(ok, a, k) := handle_acquire "a" 4 3 new_handle fresh_os in
  let '(_, b, k) := handle_acquire "a" 100 3 new_handle k in
  let '(_, k) := handle_release b k in
  (valid a, named (os_name "a") k).

Example resize_loses_count : resized = (true, None).
Proof. vm_compute. reflexivity. Qed.

End Demo.

#[local] Existing Instance model_posix.

Lemma segments_refine_witness :
  ∃ s, spec_run Demo.four (system_run Demo.four Demo.ops Demo.start).1 {| segs := ∅; held := ∅ |} s.
Proof.
  apply (segments_refine Demo.four); [intros n; unfold Demo.four; lia|intros n; reflexivity|reflexivity|cbn; lia].
Defined.
