(* ===== verification/IpcAlloc.v ===== *)
(** * The pool allocator of the shared-memory library ([libipc/memory/alloc.h],
      [wrapper.h], [resource.h], [pool_alloc.cpp])

    [ipc::mem::alloc] and [ipc::mem::free] serve the channels and their buffers.
    Requests of at most 512 bytes go to one of 64 size classes; each class keeps,
    per thread, a list of free blocks ([fixed_alloc]) fed from chunks
    ([variable_alloc]) that come from [malloc] through [scope_alloc], which only
    frees them when it is destroyed.  The allocator of a thread that ends is kept
    for the next threads ([limited_recycler]).  Larger requests go to [malloc].

    The lists are threaded through the blocks themselves, so the model has the
    memory: 8-byte words at byte addresses, and the regions [malloc] has handed out.
    An access outside a region, or to a word that was never written, is undefined.
    [malloc] itself is a parameter with its contract.  The methods of a thread touch
    its own allocators, and the shared deque under a lock, so each runs as one step. *)

From S2P Require Import Prelude Effects.

(** ** Memory *)

Record Memory := {
  words : gmap Z Z;                            (* the words written so far *)
  regions : gmap Z Z }.                        (* base and size of what [malloc] gave *)

Definition empty_Memory : Memory := {| words := ∅; regions := ∅ |}.

(** [malloc] gives, or fails to give, an aligned region apart from the others. *)
Class Malloc := {
  malloc : gmap Z Z → Z → option Z;
  malloc_fresh : ∀ rs n p, 0 < n → malloc rs n = Some p →
    0 < p ∧ p `mod` 16 = 0 ∧ ∀ q k, rs !! q = Some k → p + n ≤ q ∨ q + k ≤ p }.

(** The eight bytes at the address are in a region. *)
Definition addressable (rs : gmap Z Z) (a : Z) : Prop :=
  a `mod` 8 = 0 ∧ map_Exists (λ q k, q ≤ a ∧ a + 8 ≤ q + k) rs.

#[export] Instance addressable_dec rs a : Decision (addressable rs a).
Proof. unfold addressable. apply _. Defined.

Abbreviation heap := (eff Memory unit).

Definition load (a : Z) : heap Z := λ s,
  if decide (addressable (regions s) a) then
    match words s !! a with Some v => Ok (s, [], v) | None => Throw Undefined end
  else Throw Undefined.

Definition store (a v : Z) : heap unit := λ s,
  if decide (addressable (regions s) a) then
    Ok ({| words := <[a := v]> (words s); regions := regions s |}, [], tt)
  else Throw Undefined.

(** ** [static_alloc] *)
Section static_alloc.
Context `{Malloc}.

(** A new region has no contents. *)
Definition static_alloc_alloc (size : Z) : heap Z := λ s,
  if decide (size = 0) then Ok (s, [], 0)
  else match malloc (regions s) size with
       | None => Ok (s, [], 0)
       | Some p =>
           Ok ({| words := filter (λ w, ¬ (p ≤ w.1 < p + size)) (words s);
                  regions := <[p := size]> (regions s) |}, [], p)
       end.

Definition static_alloc_free (p : Z) : heap unit := λ s,
  if decide (p = 0) then Ok (s, [], tt)
  else match regions s !! p with
       | Some _ => Ok ({| words := words s; regions := delete p (regions s) |}, [], tt)
       | None => Throw Undefined
       end.

End static_alloc.

(** ** [scope_alloc] *)

Definition max_align : Z := 16.                (* alignof(std::max_align_t) *)

Definition aligned (size alignment : Z) : Z := Z.land (size - 1) (Z.lnot (alignment - 1)) + alignment.

(** [aligned(sizeof(block_t), alignof(std::max_align_t))]; a block has its size at
    offset 0 and the next block at offset 8. *)
Definition aligned_block_size : Z := aligned 16 max_align.

Record scope_alloc := {
  head_ : Z;
  tail_ : Z }.

Definition empty_scope : scope_alloc := {| head_ := 0; tail_ := 0 |}.

Section allocators.
Context `{Malloc}.

Definition scope_alloc_alloc (s : scope_alloc) (size : Z) : heap (scope_alloc * Z) :=
  let real_size := aligned_block_size + size in
  curr ← static_alloc_alloc real_size;
  store curr real_size;;
  store (curr + 8) (head_ s);;
  mret ({| head_ := curr; tail_ := if decide (tail_ s = 0) then curr else tail_ s |},
        curr + aligned_block_size).

(** The left allocator and what is left of the right one. *)
Definition scope_alloc_take (s rhs : scope_alloc) : heap (scope_alloc * scope_alloc) :=
  if decide (head_ rhs = 0) then mret (s, rhs)
  else if decide (head_ s = 0) then mret (rhs, s)
  else
    next ← load (tail_ s + 8);
    store (tail_ s + 8) (head_ rhs);;
    mret ({| head_ := head_ s; tail_ := tail_ rhs |}, {| head_ := next; tail_ := 0 |}).

(** The destructor; the fuel bounds the turns. *)
Fixpoint free_all (fuel : nat) (s : scope_alloc) : heap unit :=
  if decide (head_ s = 0) then mret tt
  else match fuel with
       | O => throw Undefined
       | S fuel =>
           let curr := head_ s in
           next ← load (curr + 8);
           _ ← load curr;                      (* curr->size_, which [free] ignores *)
           static_alloc_free curr;;
           free_all fuel {| head_ := next; tail_ := tail_ s |}
       end.

(** Every block is a region, so this many turns are enough. *)
Definition scope_alloc_destroy (s : scope_alloc) : heap unit :=
  fuel ← gets (λ m, size (regions m));
  free_all fuel s.

(** ** [variable_alloc] *)

Definition pool_chunk_size : Z := 8 * 1024 * 256.

Definition aligned_chunk_size : Z := aligned pool_chunk_size max_align.

Record variable_alloc := {
  vhead_ : Z;
  vtail_ : Z;
  scope_ : scope_alloc }.                      (* [alloc_] *)

Definition empty_variable : variable_alloc := {| vhead_ := 0; vtail_ := 0; scope_ := empty_scope |}.

Definition remain (v : variable_alloc) : Z := vtail_ v - vhead_ v.

Definition variable_alloc_alloc (v : variable_alloc) (size : Z) : heap (variable_alloc * Z) :=
  let size := aligned size max_align in
  if decide (remain v < size) then
    let chunk_size := Z.max aligned_chunk_size size in
    '(scope, ptr) ← scope_alloc_alloc (scope_ v) chunk_size;
    let tail := ptr + chunk_size in
    mret ({| vhead_ := tail - (chunk_size - size); vtail_ := tail; scope_ := scope |}, ptr)
  else mret ({| vhead_ := vhead_ v + size; vtail_ := vtail_ v; scope_ := scope_ v |}, vhead_ v).

Definition variable_alloc_take (v rhs : variable_alloc) : heap (variable_alloc * variable_alloc) :=
  let '(h, t) := if decide (remain v < remain rhs) then (vhead_ rhs, vtail_ rhs) else (vhead_ v, vtail_ v) in
  '(scope, rhs_scope) ← scope_alloc_take (scope_ v) (scope_ rhs);
  mret ({| vhead_ := h; vtail_ := t; scope_ := scope |}, {| vhead_ := 0; vtail_ := 0; scope_ := rhs_scope |}).

(** ** [fixed_alloc] *)

(** [fixed_expand_policy], with a pointer of 8 bytes. *)
Definition expand_base_size : Z := 8 * 1024.
Definition expand_limit_size : Z := 8 * 1024 * 256.

(** The size of the next chunk and the new multiplier. *)
Definition expand_next (block_size e : Z) : Z * Z :=
  (Z.max block_size expand_base_size * e, Z.min expand_limit_size (e * 2)).

Record fixed_alloc := {
  block_size_ : Z;
  init_expand_ : Z;
  cursor_ : Z;
  chunks_ : variable_alloc }.                  (* [alloc_] *)

Definition new_fixed (block_size init_expand : Z) : fixed_alloc := {|
  block_size_ := block_size; init_expand_ := init_expand; cursor_ := 0; chunks_ := empty_variable |}.

Definition set_cursor (f : fixed_alloc) (p : Z) : fixed_alloc := {|
  block_size_ := block_size_ f; init_expand_ := init_expand_ f; cursor_ := p; chunks_ := chunks_ f |}.

(** The loop that links [n] more blocks after [p], and the last one. *)
Fixpoint link_blocks (n : nat) (block_size p : Z) : heap unit :=
  match n with
  | O => store p 0
  | S n => store p (p + block_size);; link_blocks n block_size (p + block_size)
  end.

Definition try_expand (f : fixed_alloc) : heap fixed_alloc :=
  if decide (cursor_ f = 0) then
    let '(size, expand) := expand_next (block_size_ f) (init_expand_ f) in
    '(chunks, p) ← variable_alloc_alloc (chunks_ f) size;
    link_blocks (Z.to_nat (size / block_size_ f - 1)) (block_size_ f) p;;
    mret {| block_size_ := block_size_ f; init_expand_ := expand; cursor_ := p; chunks_ := chunks |}
  else mret f.

Definition fixed_alloc_alloc (f : fixed_alloc) : heap (fixed_alloc * Z) :=
  f ← try_expand f;
  let p := cursor_ f in
  next ← load p;
  mret (set_cursor f next, p).

Definition fixed_alloc_free (f : fixed_alloc) (p : Z) : heap fixed_alloc :=
  if decide (p = 0) then mret f
  else store p (cursor_ f);; mret (set_cursor f p).

(** The search for the last free block, which is linked to the right list. *)
Fixpoint append_list (fuel : nat) (curr rhs_cursor : Z) : heap unit :=
  match fuel with
  | O => throw Undefined
  | S fuel =>
      next_cur ← load curr;
      if decide (next_cur = 0) then store curr rhs_cursor
      else append_list fuel next_cur rhs_cursor
  end.

(** Every free block has a word, so there are at most as many turns as words. *)
Definition fixed_alloc_take (f rhs : fixed_alloc) : heap (fixed_alloc * fixed_alloc) :=
  let init_expand := Z.max (init_expand_ f) (init_expand_ rhs) in
  '(cursor, rhs_cursor) ←
    (if decide (cursor_ rhs = 0) then mret (cursor_ f, cursor_ rhs)
     else if decide (cursor_ f ≠ 0) then
       fuel ← gets (λ m, size (words m));
       append_list fuel (cursor_ f) (cursor_ rhs);;
       mret (cursor_ f, 0)
     else mret (cursor_ rhs, cursor_ f));
  '(chunks, rhs_chunks) ← variable_alloc_take (chunks_ f) (chunks_ rhs);
  mret ({| block_size_ := block_size_ f; init_expand_ := init_expand; cursor_ := cursor; chunks_ := chunks |},
        {| block_size_ := block_size_ rhs; init_expand_ := init_expand_ rhs; cursor_ := rhs_cursor;
           chunks_ := rhs_chunks |}).

Definition fixed_alloc_destroy (f : fixed_alloc) : heap unit := scope_alloc_destroy (scope_ (chunks_ f)).

(** ** The recycler *)

Definition recycler_limit : nat := 32.

(** [try_recover]: a new allocator is swapped with the oldest one kept, and what is
    erased from the deque is the new one. *)
Definition try_recover (alc : fixed_alloc) (master : list fixed_alloc) : heap (fixed_alloc * list fixed_alloc) :=
  match master with
  | [] => mret (alc, [])
  | first :: rest => fixed_alloc_destroy alc;; mret (first, rest)
  end.

(** [collect]: above the limit the oldest allocator is destroyed. *)
Definition collect (alc : fixed_alloc) (master : list fixed_alloc) : heap (list fixed_alloc) :=
  master ←
    (if decide (recycler_limit <= length master)%nat then
       match master with
       | [] => mret []
       | first :: rest => fixed_alloc_destroy first;; mret rest
       end
     else mret master);
  mret (master ++ [alc]).

(** [default_recycler::try_replenish] for an allocator with [take] and [empty]. *)
Definition try_replenish (alc : fixed_alloc) (master : list fixed_alloc)
    : heap (fixed_alloc * list fixed_alloc) :=
  if decide (cursor_ alc ≠ 0) then mret (alc, master)
  else match master with
       | [] => mret (alc, [])
       | first :: rest =>
           '(alc, first) ← fixed_alloc_take alc first;
           fixed_alloc_destroy first;;
           mret (alc, rest)
       end.

(** ** [async_wrapper] *)

Record async_wrapper := {
  class_size : Z;                              (* [pars] of the constructor *)
  master_allocs_ : list fixed_alloc;
  tls_ : gmap nat fixed_alloc }.

(** [get_alloc_]: the allocator of the thread, made on its first call. *)
Definition get_alloc (w : async_wrapper) (tid : nat) : heap (fixed_alloc * list fixed_alloc) :=
  match tls_ w !! tid with
  | Some alc => mret (alc, master_allocs_ w)
  | None => try_recover (new_fixed (class_size w) 1) (master_allocs_ w)
  end.

Definition put_alloc (w : async_wrapper) (tid : nat) (alc : fixed_alloc) (master : list fixed_alloc) : async_wrapper :=
  {| class_size := class_size w; master_allocs_ := master; tls_ := <[tid := alc]> (tls_ w) |}.

Definition async_alloc (w : async_wrapper) (tid : nat) : heap (async_wrapper * Z) :=
  '(alc, master) ← get_alloc w tid;
  '(alc, master) ← try_replenish alc master;
  '(alc, p) ← fixed_alloc_alloc alc;
  mret (put_alloc w tid alc master, p).

Definition async_free (w : async_wrapper) (tid : nat) (p : Z) : heap async_wrapper :=
  '(alc, master) ← get_alloc w tid;
  alc ← fixed_alloc_free alc p;
  mret (put_alloc w tid alc master).

(** The destructor of the thread's allocator. *)
Definition thread_exit (w : async_wrapper) (tid : nat) : heap async_wrapper :=
  match tls_ w !! tid with
  | None => mret w
  | Some alc =>
      master ← collect alc (master_allocs_ w);
      mret {| class_size := class_size w; master_allocs_ := master; tls_ := delete tid (tls_ w) |}
  end.

(** ** [variable_wrapper] and [default_mapping_policy<>] *)

Definition classes_size : Z := 64.
Definition iter_size : Z := 8.

Definition class_block_size (id : Z) : Z := (id + 1) * iter_size.

(** [classify]: the class of a size, [None] for the default allocator. *)
Definition classify (size : Z) : option nat :=
  let id := u64 (size - 1) / iter_size in
  if decide (id < classes_size) then Some (Z.to_nat id) else None.

End allocators.

Abbreviation variable_wrapper := (list async_wrapper).

Definition initial_pool : variable_wrapper :=
  (λ id, {| class_size := class_block_size (Z.of_nat id); master_allocs_ := []; tls_ := ∅ |}) <$>
    seq 0 (Z.to_nat classes_size).

Section pool.
Context `{Malloc}.

(** [pool_alloc::alloc] of a thread. *)
Definition pool_alloc (pool : variable_wrapper) (tid : nat) (size : Z) : heap (variable_wrapper * Z) :=
  match classify size with
  | Some id =>
      w ← lift (vec_at pool id);
      '(w, p) ← async_alloc w tid;
      mret (<[id := w]> pool, p)
  | None => p ← static_alloc_alloc size; mret (pool, p)
  end.

Definition pool_free (pool : variable_wrapper) (tid : nat) (p size : Z) : heap variable_wrapper :=
  match classify size with
  | Some id =>
      w ← lift (vec_at pool id);
      w ← async_free w tid p;
      mret (<[id := w]> pool)
  | None => static_alloc_free p;; mret pool
  end.

(** A thread ends: its allocators are collected, class by class. *)
Fixpoint pool_exit (pool : variable_wrapper) (tid : nat) : heap variable_wrapper :=
  match pool with
  | [] => mret []
  | w :: pool => w ← thread_exit w tid; pool ← pool_exit pool tid; mret (w :: pool)
  end.

End pool.

(** ** The clients

    What the code that uses the pool does, and the blocks it holds with the sizes it
    asked for. *)

Record Client := {
  pool : variable_wrapper;
  memory : Memory;
  live : gmap Z Z;
  exits : nat }.                               (* threads that have ended *)

Definition initial_Client : Client :=
  {| pool := initial_pool; memory := empty_Memory; live := ∅; exits := 0 |}.

Inductive ClientOp :=
| OpAlloc (tid : nat) (size : Z)
| OpFree (tid : nat) (p : Z)
| OpWrite (p i v : Z)                          (* word [i] of the block [p] *)
| OpExit (tid : nat).

(** The bytes of the block that serves a request. *)
Definition block_bytes (size : Z) : Z :=
  match classify size with Some id => class_block_size (Z.of_nat id) | None => size end.

(** A client frees and writes what it holds. *)
Definition op_ok (c : Client) (op : ClientOp) : Prop :=
  match op with
  | OpAlloc _ size => 0 ≤ size < 2 ^ 64
  | OpFree _ p => is_Some (live c !! p)
  | OpWrite p i _ =>
      match live c !! p with Some size => 0 ≤ i ∧ 8 * i + 8 ≤ block_bytes size | None => False end
  | OpExit _ => True
  end.

Section client.
Context `{Malloc}.

(** The call: the new pool and, for an allocation, the pointer. *)
Definition op_effect (c : Client) (op : ClientOp) : heap (variable_wrapper * Z) :=
  match op with
  | OpAlloc tid size => pool_alloc (pool c) tid size
  | OpFree tid p =>
      match live c !! p with
      | Some size => pool ← pool_free (pool c) tid p size; mret (pool, 0)
      | None => throw Undefined
      end
  | OpWrite p i v => store (p + 8 * i) v;; mret (pool c, 0)
  | OpExit tid => pool ← pool_exit (pool c) tid; mret (pool, 0)
  end.

(** The blocks held afterwards. *)
Definition live_after (op : ClientOp) (p : Z) (live : gmap Z Z) : gmap Z Z :=
  match op with
  | OpAlloc _ size => if decide (p = 0) then live else <[p := size]> live
  | OpFree _ p => delete p live
  | _ => live
  end.

Definition exits_after (op : ClientOp) (n : nat) : nat :=
  match op with OpExit _ => S n | _ => n end.

Definition client_step (c : Client) (op : ClientOp) : result Client :=
  '(m, _, (pool, p)) ← op_effect c op (memory c);
  Ok {| pool := pool; memory := m; live := live_after op p (live c); exits := exits_after op (exits c) |}.

Definition client_run (ops : list ClientOp) (c : Client) : result Client := foldM client_step ops c.

Inductive client_reachable : Client → Prop :=
| client_initial : client_reachable initial_Client
| client_next c op c' :
    client_reachable c → op_ok c op → client_step c op = Ok c' → client_reachable c'.

Fixpoint ops_ok (ops : list ClientOp) (c : Client) : Prop :=
  match ops with
  | [] => True
  | op :: ops => op_ok c op ∧ match client_step c op with Ok c' => ops_ok ops c' | Throw _ => True end
  end.

Lemma client_run_reachable ops c c' :
  client_reachable c → ops_ok ops c → client_run ops c = Ok c' → client_reachable c'.
Proof.
  unfold client_run. revert c. induction ops as [|op ops IH]; intros c Hr; [by intros _ [= <-]|].
  cbn [ops_ok foldM]. intros [Hop Hops]. destruct (client_step c op) as [c1|] eqn:Hs; [|done].
  apply IH; [|done]. by eapply client_next.
Qed.

End client.

(** ** An allocator of the system: after everything it has given *)

Definition region_end (rs : gmap Z Z) : Z := map_fold (λ q k e, Z.max e (q + k)) 0 rs.

Lemma region_end_le rs q k : rs !! q = Some k → q + k ≤ region_end rs.
Proof.
  unfold region_end. revert q k.
  apply (map_fold_weak_ind (λ e m, ∀ q k, m !! q = Some k → q + k ≤ e)).
  - intros q k. by rewrite lookup_empty.
  - intros i x m e Hi IH q k. rewrite lookup_insert_Some. intros [[<- <-]|[_ Hq]]; [lia|].
    specialize (IH q k Hq). lia.
Qed.

#[global, program] Instance bump_malloc : Malloc :=
  {| malloc rs n := Some (16 * ((Z.max 0 (region_end rs) + 31) / 16)) |}.
Next Obligation.
  intros rs n p Hn [= <-]. set (e := region_end rs).
  pose proof (Z.div_mod (Z.max 0 e + 31) 16 ltac:(lia)) as Hd.
  pose proof (Z.mod_pos_bound (Z.max 0 e + 31) 16 ltac:(lia)). split_and!; [lia| |].
  - rewrite Z.mul_comm. apply Z.mod_mul. lia.
  - intros q k Hq%region_end_le. lia.
Qed.

(** ** Examples *)

(** A freed block is the next of its class. *)
Example block_reused :
  match client_run [OpAlloc 1 500; OpAlloc 1 500; OpFree 1 32; OpAlloc 1 499] initial_Client with
  | Ok c => map_to_list (live c) | Throw _ => [] end = [(536, 500); (32, 499)].
Proof. vm_compute. reflexivity. Qed.

(** When 33 threads that have used a class have ended, the allocator of the first is
    destroyed with its chunks, although a block in them is still held. *)
Definition crowd (n : nat) : list ClientOp :=
  ((λ tid, OpAlloc tid 500) <$> seq 1 n) ++ (OpExit <$> seq 1 n).

Example crowd_of_32 :
  match client_run (crowd 32 ++ [OpWrite 32 0 7]) initial_Client with Ok c => live c !! 32 | Throw _ => None end
    = Some 500.
Proof. vm_compute. reflexivity. Qed.

Example crowd_of_33 : client_run (crowd 33 ++ [OpWrite 32 0 7]) initial_Client = Throw Undefined.
Proof. vm_compute. reflexivity. Qed.

(** A run that uses all layers: two threads, a block freed by the other thread, a
    large block, a thread that ends and one that inherits its allocator. *)
Definition demo_ops : list ClientOp :=
  [OpAlloc 1 500; OpAlloc 2 500; OpWrite 32 0 7; OpFree 2 32; OpAlloc 2 498; OpAlloc 1 4000; OpExit 1;
   OpAlloc 3 503].

Definition demo : result Client := client_run demo_ops initial_Client.

Example demo_blocks :
  match demo with Ok c => map_to_list (live c) | Throw _ => [] end
    = [(536, 503); (4194384, 4000); (2097216, 500); (32, 498)].
Proof. vm_compute. reflexivity. Qed.

Lemma demo_ops_ok : ops_ok demo_ops initial_Client.
Proof. vm_compute. repeat split; try discriminate; eauto. Qed.

Lemma pool_demo_reachable c : demo = Ok c → client_reachable c.
Proof. apply client_run_reachable; [constructor|exact demo_ops_ok]. Qed.
