(* ===== verification/IpcAllocSpecs.v ===== *)
(** * The pool allocator keeps its blocks apart

    A separation logic for the memory of [IpcAlloc]: an assertion owns words and
    regions, [hwp m Φ] says that [m] runs without undefined behaviour, unless the
    system is out of memory, and gives [Φ].  Each allocator gets the assertion of
    what it owns and a specification of its methods; the pool and the blocks its
    clients hold own disjoint words, which is carried along every run. *)

From S2P Require Import Prelude Effects IpcAlloc.
From iris.proofmode Require Import proofmode.
From iris.base_logic.lib Require Import ghost_map.

#[local] Open Scope Z_scope.

(** ** The logic *)

Class memG Σ := {
  memG_words :: ghost_mapG Σ Z (option Z);
  memG_regions :: ghost_mapG Σ Z Z }.

Definition memΣ : gFunctors := #[ghost_mapΣ Z (option Z); ghost_mapΣ Z Z].

#[export] Instance subG_memΣ Σ : subG memΣ Σ → memG Σ.
Proof. solve_inG. Qed.

(** Regions are aligned, not empty and apart. *)
Definition regions_ok (rs : gmap Z Z) : Prop :=
  (∀ q k, rs !! q = Some k → 0 < q ∧ 0 < k ∧ q `mod` 16 = 0) ∧
  (∀ q k q' k', rs !! q = Some k → rs !! q' = Some k' → q ≠ q' → q + k ≤ q' ∨ q' + k' ≤ q).

(** The owned words, with [None] for one without contents, are words of the memory. *)
Definition words_ok (W : gmap Z (option Z)) (m : Memory) : Prop :=
  ∀ a ov, W !! a = Some ov → addressable (regions m) a ∧ words m !! a = ov.

Section logic.
Context `{!memG Σ} `{Malloc} (γw γr : gname).

#[local] Notation "a ↦w v" := (ghost_map_elem γw a (DfracOwn 1) (v : option Z)) (at level 20).
#[local] Notation "p ↦r n" := (ghost_map_elem γr p (DfracOwn 1) (n : Z)) (at level 20).

Definition interp (m : Memory) : iProp Σ :=
  ∃ W, ghost_map_auth γw 1 W ∗ ghost_map_auth γr 1 (regions m) ∗ ⌜words_ok W m ∧ regions_ok (regions m)⌝.

Definition out_of_memory : Prop := ∃ rs n, 0 < n ∧ malloc rs n = None.

Definition hwp {A} (m : heap A) (Φ : A → iProp Σ) : iProp Σ :=
  ∀ s, interp s ==∗
    match m s with
    | Ok (s', _, a) => interp s' ∗ Φ a
    | Throw _ => ⌜out_of_memory⌝
    end.

Lemma hwp_ret {A} (a : A) Φ : Φ a -∗ hwp (mret a) Φ.
Proof. iIntros "H" (s) "Hs". iModIntro. iFrame. Qed.

Lemma hwp_bind {A B} (m : heap A) (f : A → heap B) Φ : hwp m (λ a, hwp (f a) Φ) -∗ hwp (m ≫= f) Φ.
Proof.
  iIntros "H" (s) "Hs". iMod ("H" with "Hs") as "H". unfold mbind, eff_bind.
  destruct (m s) as [[[s1 o1] a]|]; [|by iModIntro]. iDestruct "H" as "[Hs H]".
  iMod ("H" with "Hs") as "H". iModIntro. by destruct (f a s1) as [[[s2 o2] b]|].
Qed.

Lemma hwp_mono {A} (m : heap A) Φ Ψ : hwp m Φ -∗ (∀ a, Φ a -∗ Ψ a) -∗ hwp m Ψ.
Proof.
  iIntros "H Hw" (s) "Hs". iMod ("H" with "Hs") as "H". iModIntro.
  destruct (m s) as [[[s1 o1] a]|]; [|done]. iDestruct "H" as "[$ H]". by iApply "Hw".
Qed.

Lemma hwp_gets {A} (f : Memory → A) Φ : (∀ a, Φ a) -∗ hwp (gets f) Φ.
Proof. iIntros "H" (s) "Hs". iModIntro. iFrame. iApply "H". Qed.

Lemma hwp_lift {A} (r : result A) a Φ : r = Ok a → Φ a -∗ hwp (lift r) Φ.
Proof. iIntros (->) "H". by iApply hwp_ret. Qed.

Lemma hwp_load a (v : Z) Φ : a ↦w Some v -∗ (a ↦w Some v -∗ Φ v) -∗ hwp (load a) Φ.
Proof.
  iIntros "Ha HΦ" (s) "(%W & HW & HR & %Hok)". iDestruct (ghost_map_lookup with "HW Ha") as %Ha.
  iModIntro. unfold load. destruct Hok as [HW HR]. destruct (HW _ _ Ha) as [Had Hv].
  rewrite decide_True // Hv. iSplitL "HW HR"; [iExists W; by iFrame|by iApply "HΦ"].
Qed.

Lemma hwp_store a (ov : option Z) v Φ : a ↦w ov -∗ (a ↦w Some v -∗ Φ tt) -∗ hwp (store a v) Φ.
Proof.
  iIntros "Ha HΦ" (s) "(%W & HW & HR & %Hok)". iDestruct (ghost_map_lookup with "HW Ha") as %Ha.
  iMod (ghost_map_update (Some v) with "HW Ha") as "[HW Ha]". iModIntro.
  unfold store. destruct Hok as [HW HR]. destruct (HW _ _ Ha) as [Had Hv]. rewrite decide_True //.
  iSplitL "HW HR"; [|by iApply "HΦ"]. iExists _. iFrame. iPureIntro. split; [|done]. cbn.
  intros b ob. destruct (decide (a = b)) as [<-|Hne].
  - rewrite !lookup_insert_eq. intros [= <-]. done.
  - rewrite !lookup_insert_ne //. apply HW.
Qed.

(** The null pointer is in no region. *)
Lemma hwp_store_null v Φ : out_of_memory → ⊢ hwp (store 0 v) Φ.
Proof.
  iIntros (Hoom s) "(%W & HW & HR & %Hok)". iModIntro. unfold store. rewrite decide_False //.
  intros [_ (q & k & Hq & ?)]. destruct Hok as [_ [Hr _]]. specialize (Hr q k Hq). lia.
Qed.

(** ** Segments of words *)

Definition array (p : Z) (vs : list (option Z)) : iProp Σ :=
  [∗ list] i ↦ v ∈ vs, (p + 8 * Z.of_nat i) ↦w v.

Definition seg (p : Z) (k : nat) : iProp Σ := ∃ vs, ⌜length vs = k⌝ ∗ array p vs.

Lemma array_app p vs1 vs2 : array p (vs1 ++ vs2) ⊣⊢ array p vs1 ∗ array (p + 8 * Z.of_nat (length vs1)) vs2.
Proof.
  unfold array. rewrite big_sepL_app. f_equiv. apply big_sepL_proper. intros i v _.
  rewrite Nat2Z.inj_add. by replace (p + 8 * (Z.of_nat (length vs1) + Z.of_nat i))
    with (p + 8 * Z.of_nat (length vs1) + 8 * Z.of_nat i) by lia.
Qed.

Lemma seg_split p k1 k2 : seg p (k1 + k2) ⊣⊢ seg p k1 ∗ seg (p + 8 * Z.of_nat k1) k2.
Proof.
  iSplit.
  - iIntros "(%vs & %Hl & H)". rewrite -(take_drop k1 vs) array_app length_take_le; [|lia].
    iDestruct "H" as "[H1 H2]". iSplitL "H1"; iExists _; iFrame; iPureIntro; rewrite ?length_take ?length_drop; lia.
  - iIntros "[(%v1 & <- & H1) (%v2 & <- & H2)]". iExists (v1 ++ v2). rewrite array_app length_app. by iFrame.
Qed.

Lemma seg_0 p : ⊢ seg p 0.
Proof. iExists []. rewrite /array /=. by iSplit. Qed.

Lemma seg_1 p : seg p 1 ⊣⊢ ∃ v, p ↦w v.
Proof.
  iSplit.
  - iIntros "(%vs & %Hl & H)". destruct vs as [|v []]; try done. rewrite /array /=. iDestruct "H" as "[H _]".
    rewrite Z.add_0_r. by iExists v.
  - iIntros "[%v H]". iExists [v]. rewrite /array /= Z.add_0_r. by iFrame.
Qed.

Lemma seg_cons p k : seg p (S k) ⊣⊢ (∃ v, p ↦w v) ∗ seg (p + 8) k.
Proof. by rewrite (seg_split p 1 k) seg_1. Qed.

Lemma seg_take p k1 k2 : (k1 <= k2)%nat → seg p k2 ⊢ seg p k1.
Proof. intros Hk. replace k2 with (k1 + (k2 - k1))%nat by lia. rewrite seg_split. iIntros "[$ _]". Qed.

(** *** Regions and words *)

(** The words of a region of [n] bytes, without contents. *)
Definition blank (p : Z) (k : nat) : gmap Z (option Z) :=
  list_to_map ((λ i, (p + 8 * Z.of_nat i, None)) <$> seq 0 k).

Lemma blank_NoDup p k : NoDup (((λ i, (p + 8 * Z.of_nat i, None)) <$> seq 0 k : list (Z * option Z)).*1).
Proof.
  rewrite -list_fmap_compose. apply NoDup_fmap_2; [|apply NoDup_seq]. intros i j. cbn. lia.
Qed.

Lemma lookup_blank p k a ov :
  blank p k !! a = Some ov ↔ ov = None ∧ ∃ i, (i < k)%nat ∧ a = p + 8 * Z.of_nat i.
Proof.
  unfold blank. rewrite -elem_of_list_to_map; [|apply blank_NoDup].
  rewrite list_elem_of_fmap. split.
  - intros (i & [= -> ->] & Hi%elem_of_seq). split; [done|]. exists i. split; [lia|done].
  - intros (-> & i & Hi & ->). exists i. split; [done|]. apply elem_of_seq. lia.
Qed.

Lemma blank_seg p k : ([∗ map] a ↦ ov ∈ blank p k, a ↦w ov) -∗ seg p k.
Proof.
  unfold blank. rewrite big_sepM_list_to_map; [|apply blank_NoDup]. rewrite big_sepL_fmap. cbn.
  induction k as [|k IH]; [iIntros "_"; iApply seg_0|].
  rewrite seq_S big_sepL_app. replace (S k) with (k + 1)%nat by lia. rewrite seg_split seg_1.
  iIntros "(H & H1 & _)". iSplitL "H"; [by iApply IH|]. by iExists _.
Qed.

Lemma addressable_insert rs p n a : rs !! p = None → addressable rs a → addressable (<[p := n]> rs) a.
Proof.
  intros Hp (Ha & q & k & Hq & Hr). split; [done|]. exists q, k. split; [|done].
  rewrite lookup_insert_ne //. by intros ->; rewrite Hp in Hq.
Qed.

(** A new region is apart from all owned words. *)
Lemma fresh_region m W n p :
  0 < n → words_ok W m → regions_ok (regions m) → malloc (regions m) n = Some p →
  (0 < p ∧ p `mod` 16 = 0) ∧ regions m !! p = None ∧ (∀ a ov, W !! a = Some ov → ¬ (p ≤ a < p + n)) ∧
  regions_ok (<[p := n]> (regions m)).
Proof.
  intros Hn HW [HR1 HR2] Hm. destruct (malloc_fresh _ _ _ Hn Hm) as (Hp & Hal & Hdisj). split; [done|].
  assert (regions m !! p = None) as Hnew.
  { destruct (regions m !! p) as [k|] eqn:Hq; [|done]. specialize (HR1 _ _ Hq). specialize (Hdisj _ _ Hq). lia. }
  split_and!; [done| |].
  - intros a ov Ha. destruct (HW _ _ Ha) as [(_ & q & k & Hq & Hr) _]. specialize (Hdisj _ _ Hq). lia.
  - split.
    + intros q k. rewrite lookup_insert_Some. intros [[<- <-]|[_ Hq]]; [lia|by apply HR1].
    + intros q k q' k'. rewrite !lookup_insert_Some. intros [[<- <-]|[_ Hq]] [[<- <-]|[_ Hq']] Hne; [done| | |].
      * specialize (Hdisj _ _ Hq'). lia.
      * specialize (Hdisj _ _ Hq). lia.
      * by eapply HR2.
Qed.

Lemma hwp_malloc n Φ :
  0 < n →
  (∀ p, (⌜p = 0 ∧ out_of_memory⌝ ∨
         ⌜0 < p ∧ p `mod` 16 = 0⌝ ∗ p ↦r n ∗ seg p (Z.to_nat (n / 8))) -∗ Φ p) -∗
  hwp (static_alloc_alloc n) Φ.
Proof.
  iIntros (Hn) "HΦ". iIntros (s) "(%W & HW & HR & %Hok)". destruct Hok as [HW HR].
  unfold static_alloc_alloc. rewrite decide_False; [|lia]. destruct (malloc (regions s) n) as [p|] eqn:Hm.
  2:{ iModIntro. iSplitL "HW HR"; [iExists W; by iFrame|]. iApply "HΦ". iLeft. iPureIntro. split; [done|].
      by exists (regions s), n. }
  destruct (fresh_region s W n p Hn HW HR Hm) as (Hp & Hnew & Hout & HR').
  iMod (ghost_map_insert p n Hnew with "HR") as "[HR Hr]".
  pose proof (Z.div_mod n 8 ltac:(lia)) as Hdiv. pose proof (Z.mod_pos_bound n 8 ltac:(lia)).
  iMod (ghost_map_insert_big (blank p (Z.to_nat (n / 8))) with "HW") as "[HW Hb]".
  { apply map_disjoint_spec. intros a o1 o2 (_ & i & Hi & ->)%lookup_blank Ho%Hout. lia. }
  iModIntro. iSplitL "HW HR".
  - iExists _. iFrame. iPureIntro. split; [|done]. intros a ov. cbn.
    rewrite lookup_union_Some_raw. intros [(-> & i & Hi & ->)%lookup_blank|[_ Ha]].
    + split.
      * split; [Z.to_euclidean_division_equations; lia|]. exists p, n. rewrite lookup_insert_eq. split; [done|lia].
      * apply map_lookup_filter_None. right. intros v _. cbn. lia.
    + destruct (HW _ _ Ha) as [Hadd <-]. split; [by apply addressable_insert|].
      specialize (Hout _ _ Ha). destruct (words s !! a) as [v|] eqn:Hv.
      * by apply map_lookup_filter_Some.
      * apply map_lookup_filter_None. by left.
  - iApply "HΦ". iRight. iFrame. iSplit; [done|]. by iApply blank_seg.
Qed.

(** Giving a region back takes all its words. *)
Lemma seg_map p k : seg p k -∗ ∃ m, ⌜dom m = dom (blank p k)⌝ ∗ [∗ map] a ↦ ov ∈ m, a ↦w ov.
Proof.
  induction k as [|k IH].
  - iIntros "_". iExists ∅. rewrite big_sepM_empty. iSplit; [|done]. by rewrite dom_empty_L.
  - replace (S k) with (k + 1)%nat at 1 by lia. rewrite seg_split seg_1. iIntros "[H [%v H1]]".
    iDestruct (IH with "H") as (m Hm) "H". iExists (<[p + 8 * Z.of_nat k := v]> m).
    assert (m !! (p + 8 * Z.of_nat k) = None) as Hnew.
    { apply not_elem_of_dom. rewrite Hm. intros [ov (_ & i & Hi & ?)%lookup_blank]%elem_of_dom. lia. }
    rewrite big_sepM_insert //. iFrame. iPureIntro. apply set_eq. intros a.
    rewrite dom_insert_L Hm elem_of_union elem_of_singleton !elem_of_dom /is_Some.
    setoid_rewrite lookup_blank. split.
    + intros [->|(ov & -> & i & Hi & ->)]; exists None; (split; [done|]); [exists k|exists i]; (split; [lia|done]).
    + intros (ov & -> & i & Hi & ->). destruct (decide (i = k)) as [->|]; [by left|right].
      exists None. split; [done|]. exists i. split; [lia|done].
Qed.

Lemma hwp_mfree p n Φ :
  p `mod` 8 = 0 → p ↦r n -∗ seg p (Z.to_nat (n / 8)) -∗ Φ tt -∗ hwp (static_alloc_free p) Φ.
Proof.
  iIntros (Hal) "Hr Hseg HΦ". iIntros (s) "(%W & HW & HR & %Hok)". destruct Hok as [HW [HR1 HR2]].
  iDestruct (ghost_map_lookup with "HR Hr") as %Hr. iMod (ghost_map_delete with "HR Hr") as "HR".
  iDestruct (seg_map with "Hseg") as (B HB) "Hseg". iMod (ghost_map_delete_big with "HW Hseg") as "HW".
  iModIntro. unfold static_alloc_free. specialize (HR1 _ _ Hr) as Hp. rewrite decide_False; [|lia]. rewrite Hr.
  iFrame "HΦ". iExists _. iFrame. iPureIntro. split.
  - intros a ov. cbn. rewrite lookup_difference_Some. intros [Ha HaB].
    destruct (HW _ _ Ha) as [(Hma & q & k & Hq & Hin) Hv]. split; [|done]. split; [done|]. exists q, k.
    split; [|done]. rewrite lookup_delete_ne; [done|]. intros <-. rewrite Hr in Hq. injection Hq as <-.
    apply not_elem_of_dom in HaB. apply HaB. rewrite HB elem_of_dom. exists None.
    apply lookup_blank. split; [done|]. exists (Z.to_nat ((a - p) / 8)).
    pose proof (Z.div_mod n 8 ltac:(lia)). pose proof (Z.mod_pos_bound n 8 ltac:(lia)).
    assert ((a - p) `mod` 8 = 0) as Hm by (rewrite Zminus_mod Hma Hal //).
    pose proof (Z.div_mod (a - p) 8 ltac:(lia)). lia.
  - cbn. split; [intros q k [_ Hq]%lookup_delete_Some; by apply HR1|].
    intros q k q' k' [_ Hq]%lookup_delete_Some [_ Hq']%lookup_delete_Some. by apply HR2.
Qed.

(** ** [scope_alloc]: the chain of its blocks *)

Fixpoint blocks (h : Z) (xs : list Z) (e : Z) : iProp Σ :=
  match xs with
  | [] => ⌜h = e⌝
  | x :: xs =>
      ⌜h = x ∧ x ≠ 0⌝ ∗ (∃ size, x ↦w Some size) ∗ ∃ next, (x + 8) ↦w Some next ∗ blocks next xs e
  end.

Definition scope (s : scope_alloc) : iProp Σ :=
  ∃ xs, ⌜tail_ s = default 0 (last xs)⌝ ∗ blocks (head_ s) xs 0.

Lemma blocks_app h xs ys e : blocks h (xs ++ ys) e ⊣⊢ ∃ m, blocks h xs m ∗ blocks m ys e.
Proof.
  revert h. induction xs as [|x xs IH]; intros h; cbn.
  - iSplit; [iIntros "H"; iExists h; by iFrame|by iIntros "(% & -> & H)"].
  - iSplit.
    + iIntros "($ & $ & %n & Hn & H)". iDestruct (IH with "H") as (m) "[H1 H2]". iExists m. iFrame.
    + iIntros "(%m & ($ & $ & %n & Hn & H1) & H2)". iExists n. iFrame. iApply IH. iExists m. iFrame.
Qed.

Lemma blocks_nonnull h xs e : blocks h xs e -∗ ⌜Forall (λ x, x ≠ 0) xs⌝.
Proof.
  revert h. induction xs as [|x xs IH]; intros h; cbn; [by iIntros "_"|].
  iIntros "([_ %Hx] & _ & %n & _ & H)". iDestruct (IH with "H") as %?. iPureIntro. by constructor.
Qed.

Lemma scope_empty : ⊢ scope empty_scope.
Proof. iExists []. by iSplit. Qed.

Lemma scope_null s : head_ s ≠ 0 → scope s -∗
  ∃ xs t h, ⌜tail_ s = t⌝ ∗ blocks h [t] 0 ∗ blocks (head_ s) xs h.
Proof.
  iIntros (Hh) "(%xs & %Ht & H)". destruct xs as [|t xs _] using rev_ind.
  { iDestruct "H" as %?. done. }
  rewrite last_snoc in Ht. rewrite blocks_app. iDestruct "H" as (m) "[H1 H2]". iExists xs, t, m. by iFrame.
Qed.

Lemma hwp_scope_alloc s size Φ :
  0 < size →
  scope s -∗
  (∀ s' p, ⌜0 < p ∧ p `mod` 16 = 0⌝ -∗ scope s' -∗ seg p (Z.to_nat (size / 8)) -∗ Φ (s', p)) -∗
  hwp (scope_alloc_alloc s size) Φ.
Proof.
  iIntros (Hs) "(%xs & %Ht & Hb) HΦ". unfold scope_alloc_alloc. change aligned_block_size with 16.
  iApply hwp_bind. iApply hwp_malloc; [lia|]. iIntros (p) "[[-> %Hoom]|([%Hp %Hal] & _ & Hseg)]".
  { iApply hwp_bind. by iApply hwp_store_null. }
  replace (Z.to_nat ((16 + size) / 8)) with (S (S (Z.to_nat (size / 8))))
    by (Z.to_euclidean_division_equations; lia).
  rewrite !seg_cons. iDestruct "Hseg" as "([%v1 H1] & [%v2 H2] & Hseg)".
  iApply hwp_bind. iApply (hwp_store with "H1"). iIntros "H1".
  iApply hwp_bind. iApply (hwp_store with "H2"). iIntros "H2". iApply hwp_ret.
  replace (p + 8 + 8) with (p + 16) by lia. iApply ("HΦ" with "[] [H1 H2 Hb] Hseg").
  - iPureIntro. split; [lia|]. Z.to_euclidean_division_equations; lia.
  - iDestruct (blocks_nonnull with "Hb") as %Hnn. iExists (p :: xs). cbn [head_ tail_ blocks]. iSplit.
    + iPureIntro. rewrite Ht. destruct (last xs) as [y|] eqn:Hy; cbn.
      * assert (y ≠ 0) by (rewrite Forall_forall in Hnn; apply Hnn; by apply last_Some_elem_of).
        rewrite decide_False //. destruct xs; [done|]. rewrite last_cons_cons Hy //.
      * apply last_None in Hy as ->. done.
    + iSplit; [iPureIntro; lia|]. iFrame.
Qed.

Lemma hwp_scope_take s rhs Φ :
  scope s -∗ scope rhs -∗ (∀ s' rhs', ⌜head_ rhs' = 0⌝ -∗ scope s' -∗ Φ (s', rhs')) -∗
  hwp (scope_alloc_take s rhs) Φ.
Proof.
  iIntros "Hs Hr HΦ". unfold scope_alloc_take. case_decide as Hr; [by iApply hwp_ret; iApply "HΦ"|].
  case_decide as Hs; [by iApply hwp_ret; iApply "HΦ"|].
  iDestruct (scope_null with "Hs") as (xs t h ->) "[Ht Hs]"; [done|]. cbn [blocks].
  iDestruct "Ht" as "([-> %Ht] & Hsz & %n & Hn & ->)".
  iApply hwp_bind. iApply (hwp_load with "Hn"). iIntros "Hn".
  iApply hwp_bind. iApply (hwp_store with "Hn"). iIntros "Hn". iApply hwp_ret.
  iApply "HΦ"; [done|]. iDestruct "Hr" as (ys Hy) "Hr". iExists (xs ++ t :: ys). cbn [head_ tail_]. iSplit.
  - destruct ys as [|y ys]; [by iDestruct "Hr" as %?|]. iPureIntro. rewrite Hy last_app last_cons_cons.
    destruct (last (y :: ys)) eqn:E; [done|by apply last_None in E].
  - rewrite blocks_app. iExists t. iFrame "Hs". cbn [blocks]. iSplit; [done|]. iFrame.
Qed.

Lemma hwp_scope_destroy s Φ : head_ s = 0 → Φ tt -∗ hwp (scope_alloc_destroy s) Φ.
Proof.
  iIntros (Hs) "HΦ". unfold scope_alloc_destroy. iApply hwp_bind. iApply hwp_gets. iIntros (fuel).
  destruct fuel; cbn; rewrite decide_True //; by iApply hwp_ret.
Qed.

(** ** [variable_alloc] *)

Definition variable (v : variable_alloc) : iProp Σ :=
  scope (scope_ v) ∗
  ∃ k : nat, ⌜(vtail_ v = vhead_ v + 16 * Z.of_nat k)%Z ∧ vhead_ v `mod` 8 = 0 ∧ ((0 < k)%nat → 0 < vhead_ v)⌝ ∗
    seg (vhead_ v) (2 * k).

Lemma variable_empty : ⊢ variable empty_variable.
Proof. rewrite /variable. iSplitL; [iApply scope_empty|]. iExists 0%nat. iSplit; [iPureIntro; split_and!; [done|done|lia]|]. iApply seg_0. Qed.

Lemma aligned_id size : size `mod` 16 = 0 → aligned size max_align = size.
Proof.
  intros Hs. unfold aligned. change (max_align - 1) with (Z.ones 4). rewrite -Z.ldiff_land Z.ldiff_ones_r; [|lia].
  rewrite Z.shiftl_mul_pow2 ?Z.shiftr_div_pow2; [|lia..]. change (2 ^ 4) with 16. unfold max_align.
  Z.to_euclidean_division_equations; lia.
Qed.

Lemma hwp_variable_alloc v size Φ :
  0 < size → size `mod` 16 = 0 →
  variable v -∗
  (∀ v' p, ⌜0 < p ∧ p `mod` 8 = 0⌝ -∗ variable v' -∗ seg p (Z.to_nat (size / 8)) -∗ Φ (v', p)) -∗
  hwp (variable_alloc_alloc v size) Φ.
Proof.
  iIntros (Hs Hal) "[Hsc (%k & (%Ht & %Hh & %Hpos) & Hseg)] HΦ". unfold variable_alloc_alloc.
  rewrite aligned_id //. unfold remain. rewrite Ht.
  assert (∃ j, size = 16 * Z.of_nat j) as [j Hj] by (exists (Z.to_nat (size / 16));
    Z.to_euclidean_division_equations; lia).
  assert (Z.to_nat (size / 8) = 2 * j)%nat as -> by (Z.to_euclidean_division_equations; lia).
  case_decide as Hr.
  - iApply hwp_bind. change aligned_chunk_size with 2097152. iApply (hwp_scope_alloc with "Hsc"); [lia|].
    iIntros (s' p [Hp Hpal]) "Hsc Hnew". iApply hwp_ret.
    assert (∃ i, Z.max 2097152 size = 16 * Z.of_nat (j + i)) as [i Hi].
    { exists (Z.to_nat (Z.max 2097152 size / 16) - j)%nat. Z.to_euclidean_division_equations; lia. }
    rewrite Hi. replace (Z.to_nat (16 * Z.of_nat (j + i) / 8)) with (2 * j + 2 * i)%nat
      by (Z.to_euclidean_division_equations; lia).
    rewrite seg_split. iDestruct "Hnew" as "[H1 H2]".
    iApply ("HΦ" with "[] [Hsc H2] H1").
    + iPureIntro. split; [lia|]. Z.to_euclidean_division_equations; lia.
    + iFrame "Hsc". iExists i. cbn [vhead_ vtail_].
      replace (p + 16 * Z.of_nat (j + i) - (16 * Z.of_nat (j + i) - size)) with (p + 8 * Z.of_nat (2 * j)) by lia.
      iFrame "H2". iPureIntro. split_and!; [lia|Z.to_euclidean_division_equations; lia|lia].
  - iApply hwp_ret. assert (∃ i, k = j + i)%nat as [i ->] by (exists (k - j)%nat; lia).
    replace (2 * (j + i))%nat with (2 * j + 2 * i)%nat by lia. rewrite seg_split.
    iDestruct "Hseg" as "[H1 H2]". iApply ("HΦ" with "[] [Hsc H2] H1").
    + iPureIntro. split; [|done]. apply Hpos. lia.
    + iFrame "Hsc". iExists i. cbn [vhead_ vtail_]. replace (vhead_ v + size) with (vhead_ v + 8 * Z.of_nat (2 * j)) by lia.
      iFrame "H2". iPureIntro. split_and!; [lia|Z.to_euclidean_division_equations; lia|lia].
Qed.

Lemma hwp_variable_take v rhs Φ :
  variable v -∗ variable rhs -∗ (∀ v' rhs', ⌜head_ (scope_ rhs') = 0⌝ -∗ variable v' -∗ Φ (v', rhs')) -∗
  hwp (variable_alloc_take v rhs) Φ.
Proof.
  iIntros "[Hs Hv] [Hr Hrv] HΦ". unfold variable_alloc_take.
  case_decide; iApply hwp_bind; iApply (hwp_scope_take with "Hs Hr"); iIntros (s' r' Hr') "Hs"; iApply hwp_ret;
    (iApply "HΦ"; [done|]); by iFrame.
Qed.

(** ** [fixed_alloc]: the list of free blocks, of [k] words each *)

Fixpoint nodes (k : nat) (c : Z) (l : list Z) : iProp Σ :=
  match l with
  | [] => ⌜c = 0⌝
  | x :: l =>
      ⌜c = x ∧ 0 < x ∧ x `mod` 8 = 0⌝ ∗ (∃ next, x ↦w Some next ∗ nodes k next l) ∗ seg (x + 8) (k - 1)
  end.

Lemma nodes_cons k x l :
  nodes k x (x :: l) ⊣⊢ ⌜0 < x ∧ x `mod` 8 = 0⌝ ∗ (∃ next, x ↦w Some next ∗ nodes k next l) ∗ seg (x + 8) (k - 1).
Proof. iSplit; [by iIntros "([% %] & $ & $)"|by iIntros "([% %] & $ & $)"]. Qed.

Definition fixed (k : nat) (f : fixed_alloc) : iProp Σ :=
  ⌜block_size_ f = (8 * Z.of_nat k)%Z ∧ 1 ≤ init_expand_ f⌝ ∗ (∃ l, nodes k (cursor_ f) l) ∗ variable (chunks_ f).

Lemma fixed_new k : ⊢ fixed k (new_fixed (8 * Z.of_nat k) 1).
Proof.
  rewrite /fixed. iSplitL; [done|]. iSplitL; [by iExists []|]. iApply variable_empty.
Qed.

Lemma seg_block k p : (0 < k)%nat → seg p k ⊣⊢ (∃ v, p ↦w v) ∗ seg (p + 8) (k - 1).
Proof. intros Hk. destruct k as [|k]; [lia|]. rewrite seg_cons. by replace (S k - 1)%nat with k by lia. Qed.

Lemma hwp_link_blocks k n p Φ :
  (0 < k)%nat → 0 < p → p `mod` 8 = 0 →
  seg p (S n * k) -∗ (∀ l, nodes k p (p :: l) -∗ Φ tt) -∗ hwp (link_blocks n (8 * Z.of_nat k) p) Φ.
Proof.
  iIntros (Hk Hp Hal) "Hseg HΦ". iInduction n as [|n] "IH" forall (p Hp Hal Φ).
  - rewrite Nat.mul_1_l seg_block //. iDestruct "Hseg" as "[[%v Hv] Hseg]". cbn [link_blocks].
    iApply (hwp_store with "Hv"). iIntros "Hv". iApply ("HΦ" $! []). rewrite nodes_cons.
    iSplit; [done|]. iFrame "Hseg". iExists 0. by iFrame "Hv".
  - replace (S (S n) * k)%nat with (k + S n * k)%nat by lia. rewrite seg_split seg_block //.
    iDestruct "Hseg" as "[[[%v Hv] Hseg] Hrest]". cbn [link_blocks]. iApply hwp_bind.
    iApply (hwp_store with "Hv"). iIntros "Hv".
    iApply ("IH" with "[] [] Hrest"); [iPureIntro; lia|iPureIntro; Z.to_euclidean_division_equations; lia|].
    iIntros (l) "Hl". iApply ("HΦ" $! (p + 8 * Z.of_nat k :: l)). rewrite (nodes_cons _ p).
    iSplit; [done|]. iFrame "Hseg". iExists _. iFrame "Hv Hl".
Qed.

Lemma hwp_try_expand k f Φ :
  (0 < k <= 64)%nat →
  fixed k f -∗ (∀ f', ⌜cursor_ f' ≠ 0⌝ -∗ fixed k f' -∗ Φ f') -∗ hwp (try_expand f) Φ.
Proof.
  iIntros (Hk) "([%Hb %He] & Hl & Hv) HΦ". unfold try_expand. case_decide as Hc.
  2:{ iApply hwp_ret. iApply "HΦ"; [done|]. by iFrame. }
  unfold expand_next. iApply hwp_bind.
  assert (Z.max (block_size_ f) expand_base_size = 8192) as -> by (unfold expand_base_size; lia).
  iApply (hwp_variable_alloc with "Hv"); [lia|Z.to_euclidean_division_equations; lia|].
  iIntros (v' p [Hp Hal]) "Hv Hseg". rewrite Hb. set (size := 8192 * init_expand_ f).
  assert (Z.to_nat (size / (8 * Z.of_nat k) - 1) = pred (Z.to_nat (size / (8 * Z.of_nat k)))) as -> by lia.
  set (n := Z.to_nat (size / (8 * Z.of_nat k))).
  assert (0 < n ∧ n * k <= Z.to_nat (size / 8))%nat as [Hn Hnk].
  { assert (0 < size / (8 * Z.of_nat k)) by (apply Z.div_str_pos; unfold size; lia).
    pose proof (Z.mul_div_le (size / 8) (Z.of_nat k) ltac:(lia)) as Hle. rewrite Z.div_div in Hle; [|lia..].
    split; [unfold n; lia|]. unfold n. nia. }
  rewrite (seg_take _ (S (pred n) * k)); [|by replace (S (pred n)) with n by lia].
  iApply hwp_bind. iApply (hwp_link_blocks with "Hseg"); [lia|done|done|]. iIntros (l) "Hnodes". iApply hwp_ret.
  iApply "HΦ"; [iPureIntro; cbn; lia|]. rewrite /fixed. cbn [block_size_ init_expand_ cursor_ chunks_].
  iFrame "Hv". iSplitR; [iPureIntro; split; [done|]; unfold expand_limit_size; lia|]. by iExists _.
Qed.

Lemma hwp_fixed_alloc k f Φ :
  (0 < k <= 64)%nat →
  fixed k f -∗ (∀ f' p, ⌜0 < p ∧ p `mod` 8 = 0⌝ -∗ fixed k f' -∗ seg p k -∗ Φ (f', p)) -∗
  hwp (fixed_alloc_alloc f) Φ.
Proof.
  iIntros (Hk) "Hf HΦ". unfold fixed_alloc_alloc. iApply hwp_bind. iApply (hwp_try_expand with "Hf"); [done|].
  iIntros (f' Hc) "([%Hb %He] & [%l Hl] & Hv)". destruct l as [|x l]; [by iDestruct "Hl" as %?|].
  iDestruct "Hl" as "((-> & %Hx & %Hal) & (%next & Hx & Hl) & Hseg)".
  iApply hwp_bind. iApply (hwp_load with "Hx"). iIntros "Hx". iApply hwp_ret.
  iApply ("HΦ" with "[//] [Hl Hv]").
  - rewrite /fixed. cbn [block_size_ init_expand_ cursor_ chunks_ set_cursor]. iFrame "Hv". iSplitR; [done|]. by iExists l.
  - rewrite (seg_block k x); [|lia]. iFrame "Hseg". by iExists _.
Qed.

Lemma hwp_fixed_free k f p Φ :
  (0 < k)%nat → 0 < p → p `mod` 8 = 0 →
  fixed k f -∗ seg p k -∗ (∀ f', fixed k f' -∗ Φ f') -∗ hwp (fixed_alloc_free f p) Φ.
Proof.
  iIntros (Hk Hp Hal) "([%Hb %He] & [%l Hl] & Hv) Hseg HΦ". unfold fixed_alloc_free.
  rewrite decide_False; [|lia]. rewrite seg_block //. iDestruct "Hseg" as "[[%v Hx] Hseg]".
  iApply hwp_bind. iApply (hwp_store with "Hx"). iIntros "Hx". iApply hwp_ret. iApply "HΦ".
  rewrite /fixed. cbn. iFrame "Hv". iSplitR; [done|]. iExists (p :: l). rewrite nodes_cons.
  iSplit; [done|]. iFrame "Hseg". iExists _. iFrame "Hx Hl".
Qed.

(** The pool takes into an allocator without free blocks. *)
Lemma hwp_fixed_take k f rhs Φ :
  cursor_ f = 0 →
  fixed k f -∗ fixed k rhs -∗ (∀ f' rhs', ⌜head_ (scope_ (chunks_ rhs')) = 0⌝ -∗ fixed k f' -∗ Φ (f', rhs')) -∗
  hwp (fixed_alloc_take f rhs) Φ.
Proof.
  iIntros (Hc) "([%Hb %He] & Hl & Hv) ([%Hb' %He'] & Hl' & Hv') HΦ". unfold fixed_alloc_take. rewrite Hc.
  iApply hwp_bind.
  iAssert (∃ l, nodes k (cursor_ rhs) l)%I with "Hl'" as "Hl'".
  assert (∀ Ψ, (Ψ (cursor_ rhs, 0)) -∗ hwp (if decide (cursor_ rhs = 0) then mret (0, cursor_ rhs)
     else if decide (0 ≠ 0) then
       fuel ← gets (λ m, size (words m));
       append_list fuel 0 (cursor_ rhs);; mret (0, 0)
     else mret (cursor_ rhs, 0)) Ψ) as Hpick.
  { iIntros (Ψ) "H". case_decide as Hr; [rewrite Hr; by iApply hwp_ret|]. by iApply hwp_ret. }
  iApply Hpick. iApply hwp_bind. iApply (hwp_variable_take with "Hv Hv'"). iIntros (v' r' Hr) "Hv".
  iApply hwp_ret. iApply "HΦ"; [done|]. rewrite /fixed. cbn. iFrame. iPureIntro. split; [done|lia].
Qed.

(** ** A size class, after at most [n] threads have ended *)

Definition class (k n : nat) (w : async_wrapper) : iProp Σ :=
  ⌜class_size w = (8 * Z.of_nat k)%Z ∧ (length (master_allocs_ w) <= n)%nat⌝ ∗
  ([∗ list] f ∈ master_allocs_ w, fixed k f) ∗ [∗ map] f ∈ tls_ w, fixed k f.

Lemma hwp_get_alloc k n w tid Φ :
  class k n w -∗
  (∀ f master, ⌜(length master <= n)%nat⌝ -∗ fixed k f -∗ ([∗ list] f ∈ master, fixed k f) -∗
     ([∗ map] f ∈ delete tid (tls_ w), fixed k f) -∗ Φ (f, master)) -∗
  hwp (get_alloc w tid) Φ.
Proof.
  iIntros "([%Hk %Hn] & Hm & Ht) HΦ". unfold get_alloc. destruct (tls_ w !! tid) as [f|] eqn:Hf.
  - iDestruct (big_sepM_delete with "Ht") as "[Hf Ht]"; [done|]. iApply hwp_ret.
    iApply ("HΦ" with "[//] Hf Hm Ht").
  - rewrite delete_id // Hk. destruct (master_allocs_ w) as [|f rest]; cbn [try_recover].
    + iApply hwp_ret. iApply ("HΦ" with "[//] [] Hm Ht"). iApply fixed_new.
    + iApply hwp_bind. iApply hwp_scope_destroy; [done|]. iApply hwp_ret. iDestruct "Hm" as "[Hf Hm]".
      iApply ("HΦ" with "[] Hf Hm Ht"). iPureIntro. cbn in Hn. lia.
Qed.

Lemma class_put k n w tid f master :
  class_size w = 8 * Z.of_nat k → (length master <= n)%nat →
  fixed k f -∗ ([∗ list] f ∈ master, fixed k f) -∗ ([∗ map] f ∈ delete tid (tls_ w), fixed k f) -∗
  class k n (put_alloc w tid f master).
Proof.
  iIntros (Hk Hn) "Hf Hm Ht". rewrite /class. cbn [class_size master_allocs_ tls_ put_alloc].
  iSplitR; [done|]. iFrame "Hm". rewrite big_sepM_insert_delete. iFrame.
Qed.

Lemma class_size_eq k n w : class k n w -∗ ⌜class_size w = (8 * Z.of_nat k)%Z⌝.
Proof. by iIntros "([% _] & _)". Qed.

Lemma hwp_async_alloc k n w tid Φ :
  (0 < k <= 64)%nat →
  class k n w -∗ (∀ w' p, ⌜0 < p ∧ p `mod` 8 = 0⌝ -∗ class k n w' -∗ seg p k -∗ Φ (w', p)) -∗
  hwp (async_alloc w tid) Φ.
Proof.
  iIntros (Hk) "Hw HΦ". unfold async_alloc. iDestruct (class_size_eq with "Hw") as %Hs.
  iApply hwp_bind. iApply (hwp_get_alloc with "Hw"). iIntros (f master Hn) "Hf Hm Ht". iApply hwp_bind.
  assert (∀ Ψ, fixed k f -∗ ([∗ list] f ∈ master, fixed k f) -∗
    (∀ f' master', ⌜(length master' <= n)%nat⌝ -∗ fixed k f' -∗ ([∗ list] f ∈ master', fixed k f) -∗
       Ψ (f', master')) -∗ hwp (try_replenish f master) Ψ) as Hrep.
  { iIntros (Ψ) "Hf Hm HΨ". unfold try_replenish. case_decide as Hc.
    { iApply hwp_ret. iApply ("HΨ" with "[//] Hf Hm"). }
    destruct master as [|first rest]; [iApply hwp_ret; iApply ("HΨ" with "[//] Hf Hm")|].
    iDestruct "Hm" as "[Hr Hm]". iApply hwp_bind. iApply (hwp_fixed_take with "Hf Hr").
    { destruct (decide (cursor_ f = 0)); [done|tauto]. }
    iIntros (f' r' Hr) "Hf". iApply hwp_bind. iApply hwp_scope_destroy; [done|]. iApply hwp_ret.
    iApply ("HΨ" with "[] Hf Hm"). iPureIntro. cbn in Hn. lia. }
  iApply (Hrep with "Hf Hm"). iIntros (f' master' Hn') "Hf Hm".
  iApply hwp_bind. iApply (hwp_fixed_alloc with "Hf"); [done|]. iIntros (f2 p Hp) "Hf Hseg". iApply hwp_ret.
  iApply ("HΦ" with "[//] [Hf Hm Ht] Hseg"). by iApply (class_put with "Hf Hm Ht").
Qed.

Lemma hwp_async_free k n w tid p Φ :
  (0 < k)%nat → 0 < p → p `mod` 8 = 0 →
  class k n w -∗ seg p k -∗ (∀ w', class k n w' -∗ Φ w') -∗ hwp (async_free w tid p) Φ.
Proof.
  iIntros (Hk Hp Hal) "Hw Hseg HΦ". unfold async_free. iDestruct (class_size_eq with "Hw") as %Hs.
  iApply hwp_bind. iApply (hwp_get_alloc with "Hw"). iIntros (f master Hn) "Hf Hm Ht".
  iApply hwp_bind. iApply (hwp_fixed_free with "Hf Hseg"); [done..|]. iIntros (f') "Hf". iApply hwp_ret.
  iApply "HΦ". by iApply (class_put with "Hf Hm Ht").
Qed.

Lemma hwp_thread_exit k n w tid Φ :
  (n < recycler_limit)%nat → class k n w -∗ (∀ w', class k (S n) w' -∗ Φ w') -∗ hwp (thread_exit w tid) Φ.
Proof.
  iIntros (Hlim) "([%Hk %Hn] & Hm & Ht) HΦ". unfold thread_exit. destruct (tls_ w !! tid) as [f|] eqn:Hf.
  - iDestruct (big_sepM_delete with "Ht") as "[Hf Ht]"; [done|]. unfold collect.
    rewrite (decide_False (P := (recycler_limit <= length (master_allocs_ w))%nat)); [|lia].
    do 2 iApply hwp_bind. do 3 iApply hwp_ret. iApply "HΦ".
    rewrite /class. cbn [class_size master_allocs_ tls_]. rewrite length_app big_sepL_app. cbn. iFrame.
    iPureIntro. split; [done|lia].
  - iApply hwp_ret. iApply "HΦ". iFrame. iPureIntro. split; [done|lia].
Qed.

(** ** The pool and the blocks of the clients *)

Definition pool_inv (n : nat) (pool : variable_wrapper) : iProp Σ :=
  ⌜length pool = 64%nat⌝ ∗ [∗ list] id ↦ w ∈ pool, class (S id) n w.

Definition live_block (p size : Z) : iProp Σ :=
  ⌜0 < p ∧ p `mod` 8 = 0 ∧ 0 < size⌝ ∗
  match classify size with
  | Some id => seg p (S id)
  | None => p ↦r size ∗ seg p (Z.to_nat (size / 8))
  end.

Lemma classify_Some size id :
  0 ≤ size < 2 ^ 64 → classify size = Some id → (id < 64)%nat ∧ 0 < size ≤ 8 * Z.of_nat (S id).
Proof.
  unfold classify, classes_size, iter_size. intros Hs. case_decide as Hid; [|done]. intros [= <-].
  destruct (decide (size = 0)) as [->|]; [vm_compute in Hid; discriminate Hid|].
  unfold u64 in *. rewrite Z.mod_small in Hid |- *; [|lia..]. Z.to_euclidean_division_equations; lia.
Qed.

Lemma classify_None size : 0 < size < 2 ^ 64 → classify size = None → 512 < size.
Proof.
  unfold classify, classes_size, iter_size. intros Hs. case_decide as Hid; [done|]. intros _.
  unfold u64 in *. rewrite Z.mod_small in Hid; [|lia]. Z.to_euclidean_division_equations; lia.
Qed.

Lemma pool_inv_initial : ⊢ pool_inv 0 initial_pool.
Proof.
  iSplit; [done|]. unfold initial_pool. rewrite big_sepL_fmap. iApply big_sepL_intro. iIntros "!>" (i j Hij).
  apply lookup_seq in Hij as [-> _]. rewrite /class. cbn. iSplit; [|by rewrite big_sepM_empty].
  iPureIntro. split; [|lia]. unfold class_block_size, iter_size. lia.
Qed.

Lemma pool_class n pool id :
  (id < 64)%nat → pool_inv n pool -∗ ∃ w, ⌜vec_at pool id = Ok w⌝ ∗ class (S id) n w ∗
    ∀ w', class (S id) n w' -∗ pool_inv n (<[id := w']> pool).
Proof.
  iIntros (Hid) "[%Hlen H]". destruct (lookup_lt_is_Some_2 pool id) as [w Hw]; [lia|].
  iDestruct (big_sepL_insert_acc with "H") as "[Hw H]"; [done|]. iExists w. iFrame "Hw".
  iSplit; [iPureIntro; by apply vec_at_Ok|]. iIntros (w') "Hw". iSplit; [by rewrite length_insert|]. by iApply "H".
Qed.

Lemma hwp_pool_alloc n pool tid size Φ :
  0 ≤ size < 2 ^ 64 →
  pool_inv n pool -∗
  (∀ pool' p, pool_inv n pool' -∗ (⌜p = 0 ∧ (size = 0 ∨ out_of_memory)⌝ ∨ live_block p size) -∗ Φ (pool', p)) -∗
  hwp (pool_alloc pool tid size) Φ.
Proof.
  iIntros (Hs) "Hp HΦ". unfold pool_alloc. destruct (classify size) as [id|] eqn:Hc.
  - destruct (classify_Some _ _ Hs Hc) as [Hid Hsz]. iDestruct (pool_class with "Hp") as (w Hw) "[Hw Hp]"; [done|].
    iApply hwp_bind. iApply hwp_lift; [done|]. iApply hwp_bind.
    iApply (hwp_async_alloc with "Hw"); [lia|]. iIntros (w' p [Hp Hal]) "Hw Hseg". iApply hwp_ret.
    iApply ("HΦ" with "[Hw Hp]"); [by iApply "Hp"|]. iRight. rewrite /live_block Hc. iFrame. iPureIntro. lia.
  - iApply hwp_bind. destruct (decide (size = 0)) as [->|Hne].
    + iIntros (s) "Hs". iModIntro. change (static_alloc_alloc 0 s) with (Ok (s, @nil unit, 0)). iFrame "Hs".
      iApply hwp_ret. iApply ("HΦ" with "Hp"). iLeft. iPureIntro. auto.
    + iApply hwp_malloc; [lia|]. iIntros (p) "Hm". iApply hwp_ret. iApply ("HΦ" with "Hp").
      iDestruct "Hm" as "[[-> %]|([%Hp %Hal] & Hr & Hseg)]"; [iLeft; iPureIntro; auto|iRight].
      rewrite /live_block Hc. iFrame. iPureIntro. split_and!; [done| |lia].
      Z.to_euclidean_division_equations; lia.
Qed.

Lemma hwp_pool_free n pool tid p size Φ :
  size < 2 ^ 64 →
  pool_inv n pool -∗ live_block p size -∗ (∀ pool', pool_inv n pool' -∗ Φ pool') -∗
  hwp (pool_free pool tid p size) Φ.
Proof.
  iIntros (Hs) "Hp [(%Hp & %Hal & %Hsz) Hb] HΦ". unfold pool_free. destruct (classify size) as [id|] eqn:Hc.
  - destruct (classify_Some size id ltac:(lia) Hc) as [Hid _].
    iDestruct (pool_class with "Hp") as (w Hw) "[Hw Hp]"; [done|].
    iApply hwp_bind. iApply hwp_lift; [done|]. iApply hwp_bind.
    iApply (hwp_async_free with "Hw Hb"); [lia|done|done|]. iIntros (w') "Hw". iApply hwp_ret.
    iApply "HΦ". by iApply "Hp".
  - iDestruct "Hb" as "[Hr Hseg]". iApply hwp_bind. iApply (hwp_mfree with "Hr Hseg"); [done|]. iApply hwp_ret.
    by iApply "HΦ".
Qed.

Lemma hwp_pool_exit n pool tid off Φ :
  (n < recycler_limit)%nat →
  ([∗ list] id ↦ w ∈ pool, class (S (off + id)) n w) -∗
  (∀ pool', ⌜length pool' = length pool⌝ -∗ ([∗ list] id ↦ w ∈ pool', class (S (off + id)) (S n) w) -∗ Φ pool') -∗
  hwp (pool_exit pool tid) Φ.
Proof.
  iIntros (Hn) "H HΦ". iInduction pool as [|w pool] "IH" forall (off Φ); cbn [pool_exit].
  - iApply hwp_ret. by iApply "HΦ".
  - iDestruct "H" as "[Hw H]". iApply hwp_bind. iApply (hwp_thread_exit with "Hw"); [done|]. iIntros (w') "Hw".
    iApply hwp_bind. iApply ("IH" $! (S off) with "[H]").
    { iApply (big_sepL_mono with "H"). intros i x _. by rewrite Nat.add_succ_r. }
    iIntros (pool' Hl) "H". iApply hwp_ret. iApply "HΦ"; [by rewrite /= Hl|]. iFrame "Hw".
    iApply (big_sepL_mono with "H"). intros i x _. by rewrite Nat.add_succ_r.
Qed.

(** *** Owned blocks are apart *)

Lemma seg_first p k : (0 < k)%nat → seg p k -∗ ∃ v, p ↦w v.
Proof. iIntros (Hk) "H". rewrite seg_block //. iDestruct "H" as "[$ _]". Qed.

Lemma seg_word p k i : (i < k)%nat → seg p k -∗ ∃ v, (p + 8 * Z.of_nat i) ↦w v.
Proof.
  iIntros (Hi) "H". replace k with (i + (k - i))%nat by lia. rewrite seg_split. iDestruct "H" as "[_ H]".
  iApply (seg_first with "H"). lia.
Qed.

Lemma seg_word_acc p k i :
  (i < k)%nat → seg p k -∗ ∃ v, (p + 8 * Z.of_nat i) ↦w v ∗ ∀ v', (p + 8 * Z.of_nat i) ↦w v' -∗ seg p k.
Proof.
  assert (i < k → ∃ j, k = i + S j)%nat as Hj by (exists (k - S i)%nat; lia).
  iIntros ([j ->]%Hj) "H". iDestruct (seg_split with "H") as "[H H']".
  iDestruct (seg_cons with "H'") as "[[%v Hv] H']". iExists v. iFrame "Hv". iIntros (v') "Hv".
  iApply seg_split. iFrame "H". iApply seg_cons. iFrame "H'". by iExists v'.
Qed.

(** The start of one segment is not inside the other. *)
Lemma seg_outside p k q k' :
  p `mod` 8 = 0 → q `mod` 8 = 0 → (0 < k')%nat → seg p k -∗ seg q k' -∗ ⌜¬ (p ≤ q < p + 8 * Z.of_nat k)⌝.
Proof.
  iIntros (Hp Hq Hk) "Hs Hs'". iIntros ([H1 H2]).
  iDestruct (seg_word p k (Z.to_nat ((q - p) / 8)) with "Hs") as (v) "H1"; [Z.to_euclidean_division_equations; lia|].
  iDestruct (seg_first with "Hs'") as (v') "H2"; [done|].
  iDestruct (ghost_map_elem_ne with "H1 H2") as %Hne. iPureIntro. apply Hne.
  Z.to_euclidean_division_equations; lia.
Qed.

(** The words of a block. *)
Definition block_words (size : Z) : nat :=
  match classify size with Some id => S id | None => Z.to_nat (size / 8) end.

Lemma block_words_pos size : 0 < size < 2 ^ 64 → (0 < block_words size)%nat.
Proof.
  intros Hs. unfold block_words. destruct (classify size) eqn:Hc; [lia|].
  apply classify_None in Hc; [|done]. Z.to_euclidean_division_equations; lia.
Qed.

Lemma live_block_seg p size : live_block p size -∗ ⌜0 < p ∧ p `mod` 8 = 0 ∧ 0 < size⌝ ∗ seg p (block_words size).
Proof. iIntros "[$ H]". unfold block_words. destruct (classify size); [done|]. iDestruct "H" as "[_ $]". Qed.

Lemma live_block_acc p size :
  live_block p size -∗ (⌜0 < p ∧ p `mod` 8 = 0 ∧ 0 < size⌝ ∗ seg p (block_words size)) ∗
    (seg p (block_words size) -∗ live_block p size).
Proof.
  iIntros "[%Hp H]". rewrite /live_block /block_words. destruct (classify size).
  - iFrame. iSplit; [done|]. iIntros "$". done.
  - iDestruct "H" as "[$ $]". iSplit; [done|]. iIntros "$". done.
Qed.

Lemma block_words_le size i : 0 ≤ i → 8 * i + 8 ≤ block_bytes size → (Z.to_nat i < block_words size)%nat.
Proof.
  intros Hi. unfold block_bytes, block_words, class_block_size, iter_size.
  destruct (classify size); intros Hb; [lia|]. Z.to_euclidean_division_equations; lia.
Qed.

(** A block starts after the last byte of one before it. *)
Lemma live_block_tail m p q s1 s2 :
  s1 < 2 ^ 64 → s2 < 2 ^ 64 → p + 8 * Z.of_nat (block_words s1) ≤ q →
  interp m -∗ live_block p s1 -∗ live_block q s2 -∗ ⌜(p + s1)%Z ≤ q⌝.
Proof.
  iIntros (Hs1 Hs2 Hpq) "(%W & HW & HR & %Hok) [(%Hp & %Hal & %Hpos1) H1] H2". destruct Hok as [HW [HR1 HR2]].
  iDestruct (live_block_seg with "H2") as "[(%Hq & %Hqal & %Hpos2) H2]". unfold block_words in Hpq.
  destruct (classify s1) as [id|] eqn:Hc1; [apply classify_Some in Hc1; [iPureIntro; lia|lia]|].
  iDestruct "H1" as "[Hr _]". iDestruct (ghost_map_lookup with "HR Hr") as %Hr.
  iDestruct (seg_first with "H2") as (v) "H2"; [apply block_words_pos; lia|].
  iDestruct (ghost_map_lookup with "HW H2") as %Hv. iPureIntro.
  destruct (HW _ _ Hv) as [(_ & b & kb & Hb & Hin) _]. pose proof (HR1 _ _ Hr). pose proof (HR1 _ _ Hb).
  destruct (decide (b = p)) as [->|Hne].
  - rewrite Hr in Hb. injection Hb as <-. Z.to_euclidean_division_equations; lia.
  - specialize (HR2 _ _ _ _ Hb Hr Hne). Z.to_euclidean_division_equations; lia.
Qed.

Lemma live_blocks_disjoint m p q s1 s2 :
  s1 < 2 ^ 64 → s2 < 2 ^ 64 →
  interp m -∗ live_block p s1 -∗ live_block q s2 -∗ ⌜(p + s1)%Z ≤ q ∨ (q + s2)%Z ≤ p⌝.
Proof.
  iIntros (Hs1 Hs2) "Hm H1 H2".
  iAssert ⌜¬ (p ≤ q < p + 8 * Z.of_nat (block_words s1)) ∧ ¬ (q ≤ p < q + 8 * Z.of_nat (block_words s2))⌝%I
    as %[Ho1 Ho2].
  { iDestruct (live_block_seg with "H1") as "[(%Hp & %Hal & %Hpos1) H1]".
    iDestruct (live_block_seg with "H2") as "[(%Hq & %Hqal & %Hpos2) H2]".
    iSplit; [iApply (seg_outside with "H1 H2")|iApply (seg_outside with "H2 H1")]; try done;
      apply block_words_pos; lia. }
  destruct (decide (p + 8 * Z.of_nat (block_words s1) ≤ q)).
  - iLeft. by iApply (live_block_tail with "Hm H1 H2").
  - iRight. iApply (live_block_tail with "Hm H2 H1"); [done|done|]. lia.
Qed.

Lemma live_block_ne p q s1 s2 :
  s1 < 2 ^ 64 → s2 < 2 ^ 64 → live_block p s1 -∗ live_block q s2 -∗ ⌜p ≠ q⌝.
Proof.
  iIntros (Hs1 Hs2) "H1 H2".
  iDestruct (live_block_seg with "H1") as "[(%Hp & %Hal & %Hpos1) H1]".
  iDestruct (live_block_seg with "H2") as "[(%Hq & %Hqal & %Hpos2) H2]".
  iDestruct (seg_first with "H1") as (v1) "H1"; [apply block_words_pos; lia|].
  iDestruct (seg_first with "H2") as (v2) "H2"; [apply block_words_pos; lia|].
  iApply (ghost_map_elem_ne with "H1 H2").
Qed.

Definition lives (L : gmap Z Z) : iProp Σ := [∗ map] p ↦ size ∈ L, ⌜size < 2 ^ 64⌝ ∗ live_block p size.

Lemma lives_fresh L p size : size < 2 ^ 64 → lives L -∗ live_block p size -∗ ⌜L !! p = None⌝.
Proof.
  iIntros (Hs) "HL Hp". destruct (L !! p) as [s2|] eqn:Hp; [|done]. rewrite /lives.
  iDestruct (big_sepM_lookup with "HL") as "[%Hs2 Hq]"; [done|].
  iDestruct (live_block_ne with "Hp Hq") as %Hne; [done..|]. done.
Qed.

(** The operation is one on the tracked blocks [L], some of those the client holds. *)
Definition op_in (c : Client) (op : ClientOp) (L : gmap Z Z) : Prop :=
  match op with
  | OpAlloc _ size => 0 ≤ size < 2 ^ 64
  | OpFree _ p => ∃ size, L !! p = Some size ∧ live c !! p = Some size
  | OpWrite p i _ => ∃ size, L !! p = Some size ∧ 0 ≤ i ∧ 8 * i + 8 ≤ block_bytes size
  | OpExit _ => (exits c < recycler_limit)%nat
  end.

(** What an allocation returns. *)
Definition op_result (op : ClientOp) (p : Z) (L : gmap Z Z) : Prop :=
  match op with
  | OpAlloc _ size => (p = 0 → size = 0 ∨ out_of_memory) ∧ (p ≠ 0 → L !! p = None)
  | _ => True
  end.

Lemma hwp_op c op L Φ :
  op_in c op L →
  pool_inv (exits c) (pool c) -∗ lives L -∗
  (∀ pool' p, ⌜op_result op p L⌝ -∗ pool_inv (exits_after op (exits c)) pool' -∗ lives (live_after op p L) -∗ Φ (pool', p)) -∗
  hwp (op_effect c op) Φ.
Proof.
  iIntros (Hop) "Hp HL HΦ". destruct op as [tid size|tid p|p i v|tid]; cbn [op_effect op_in exits_after] in *.
  - iApply (hwp_pool_alloc with "Hp"); [done|]. iIntros (pool' p) "Hp Hb". cbn [live_after].
    iDestruct "Hb" as "[[-> %Hz]|Hb]"; [by iApply ("HΦ" $! pool' 0 with "[] Hp HL")|].
    iDestruct (lives_fresh with "HL Hb") as %Hnew; [lia|]. iAssert ⌜p ≠ 0⌝%I as %Hp.
    { iDestruct "Hb" as "[(%Hp & _) _]". iPureIntro. lia. }
    iApply ("HΦ" $! pool' p with "[//] Hp"). rewrite decide_False //.
    rewrite /lives big_sepM_insert //. iFrame. iPureIntro. lia.
  - destruct Hop as (size & HLp & ->). rewrite /lives. iDestruct (big_sepM_delete with "HL") as "[[%Hs Hb] HL]"; [done|].
    iApply hwp_bind. iApply (hwp_pool_free with "Hp Hb"); [done|]. iIntros (pool') "Hp". iApply hwp_ret.
    iApply ("HΦ" with "[//] Hp HL").
  - destruct Hop as (size & HLp & Hi & Hb). rewrite {1}/lives.
    iDestruct (big_sepM_lookup_acc with "HL") as "[[%Hs Hb] HL]"; [done|].
    iDestruct (live_block_acc with "Hb") as "[(%Hpos & Hseg) Hb]".
    iDestruct (seg_word_acc _ _ (Z.to_nat i) with "Hseg") as (ov) "[Hw Hseg]"; [by apply block_words_le|].
    rewrite Z2Nat.id //. iApply hwp_bind. iApply (hwp_store with "Hw"). iIntros "Hw". iApply hwp_ret.
    iApply ("HΦ" with "[//] Hp"). iApply "HL". iSplit; [done|]. iApply "Hb". by iApply "Hseg".
  - iApply hwp_bind. iDestruct "Hp" as "[%Hl Hp]". iApply (hwp_pool_exit _ _ _ 0 with "Hp"); [done|].
    iIntros (pool' Hl') "Hp". iApply hwp_ret. iApply ("HΦ" with "[//] [Hp] HL").
    rewrite /pool_inv Hl'. by iFrame.
Qed.
End logic.

(** ** Runs *)

Lemma bupd_pure_soundness {Σ} (φ : Prop) : (⊢@{iPropI Σ} |==> ⌜φ⌝) → φ.
Proof. intros Hφ. apply (pure_soundness (PROP := iPropI Σ)). by apply uPred.bupd_soundness; [apply _|]. Qed.

Section runs.
Context `{Malloc}.

(** The memory is that of a pool and of the blocks its clients hold. *)
Definition sound (c : Client) : Prop :=
  ⊢@{iPropI memΣ} |==> ∃ γw γr, interp γw γr (memory c) ∗ pool_inv γw (exits c) (pool c) ∗ lives γw γr (live c).

Lemma sound_initial : sound initial_Client.
Proof.
  iMod (ghost_map_alloc_empty (V := option Z)) as (γw) "HW". iMod (ghost_map_alloc_empty (V := Z)) as (γr) "HR".
  iModIntro. iExists γw, γr. iSplitL "HW HR".
  - iExists ∅. iFrame. iPureIntro. split; [|split]; intros ? ?; cbn; by intros ?; rewrite ?lookup_empty.
  - iSplit; [iApply pool_inv_initial|]. by rewrite /lives big_sepM_empty.
Qed.

(** A pure consequence. *)
Lemma sound_pure c (φ : Prop) :
  sound c →
  (∀ γw γr, interp γw γr (memory c) -∗ pool_inv γw (exits c) (pool c) -∗ lives γw γr (live c) ==∗
     ⌜φ⌝ : iProp memΣ) → φ.
Proof.
  intros Hc Hφ. apply (bupd_pure_soundness (Σ := memΣ)). iMod Hc as (γw γr) "(Hm & Hp & HL)".
  by iApply (Hφ with "Hm Hp HL").
Qed.

Lemma sound_step c op c' : sound c → op_in c op (live c) → client_step c op = Ok c' → sound c'.
Proof.
  unfold client_step, mbind, result_bind. destruct (op_effect c op (memory c)) as [[[m o] [pl p]]|] eqn:E; [|done].
  intros Hc Hop [= <-]. rewrite /sound. cbn. iMod Hc as (γw γr) "(Hm & Hp & HL)".
  iMod (hwp_op γw γr c op (live c) (λ r, pool_inv γw (exits_after op (exits c)) r.1 ∗
    lives γw γr (live_after op r.2 (live c)))%I with "Hp HL [] Hm") as "H"; [done| |].
  { iIntros (pool' q) "_ Hp HL". iFrame. }
  rewrite E. iModIntro. iDestruct "H" as "(Hm & Hp & HL)". iExists γw, γr. iFrame.
Qed.

Lemma interp_word {Σ} `{!memG Σ} γw γr m a (ov : option Z) :
  interp γw γr m -∗ ghost_map_elem (Σ := Σ) γw a (DfracOwn 1) ov -∗ ⌜addressable (regions m) a ∧ words m !! a = ov⌝.
Proof.
  iIntros "(%W & HW & _ & %Hok) Ha". iDestruct (ghost_map_lookup with "HW Ha") as %Ha. iPureIntro. by apply Hok.
Qed.

(** With memory to be had an operation succeeds. *)
Lemma sound_progress c op :
  (∀ rs n, 0 < n → is_Some (malloc rs n)) → sound c → op_in c op (live c) →
  ∃ m o pl p, op_effect c op (memory c) = Ok (m, o, (pl, p)) ∧ op_result op p (live c).
Proof.
  intros Hmem Hc Hop.
  assert (match op_effect c op (memory c) with Ok (_, _, (_, p)) => op_result op p (live c)
          | Throw _ => out_of_memory end) as Hres.
  { apply (sound_pure c); [done|]. iIntros (γw γr) "Hm Hp HL".
    iMod (hwp_op γw γr c op (live c) (λ r, ⌜op_result op r.2 (live c)⌝)%I with "Hp HL [] Hm") as "H"; [done| |].
    { iIntros (pool' q Hr) "_ _". done. }
    iModIntro. destruct (op_effect c op (memory c)) as [[[m o] [pl p]]|]; [by iDestruct "H" as "[_ %]"|done]. }
  destruct (op_effect c op (memory c)) as [[[m o] [pl p]]|]; [by exists m, o, pl, p|].
  destruct Hres as (rs & n & Hn & Hm). destruct (Hmem rs n Hn) as [x Hx]. by rewrite Hx in Hm.
Qed.

(** An operation on other blocks keeps the words of a block. *)
Lemma sound_frame c op c' q size i :
  sound c → live c !! q = Some size → op_in c op (delete q (live c)) → client_step c op = Ok c' →
  0 ≤ i → 8 * i + 8 ≤ block_bytes size → words (memory c') !! (q + 8 * i) = words (memory c) !! (q + 8 * i).
Proof.
  intros Hc Hq Hop Hstep Hi Hb. apply (sound_pure c); [done|]. iIntros (γw γr) "Hm Hp HL".
  rewrite /lives. iDestruct (big_sepM_delete with "HL") as "[[%Hs Hq] HL]"; [done|].
  iDestruct (live_block_seg with "Hq") as "[%Hpos Hq]".
  iDestruct (seg_word _ _ _ (Z.to_nat i) with "Hq") as (ov) "Hw"; [by apply block_words_le|]. rewrite Z2Nat.id //.
  iDestruct (interp_word with "Hm Hw") as %[_ Hw].
  iMod (hwp_op γw γr c op _ (λ _, True)%I with "Hp HL [] Hm") as "H"; [done|by iIntros|].
  revert Hstep. unfold client_step, mbind, result_bind.
  destruct (op_effect c op (memory c)) as [[[m o] [pl p]]|]; [|done]. intros [= <-].
  iDestruct "H" as "[Hm _]". iDestruct (interp_word with "Hm Hw") as %[_ Hw']. iPureIntro. cbn. by rewrite Hw Hw'.
Qed.

Lemma sound_block c p size :
  sound c → live c !! p = Some size →
  (0 < p ∧ p `mod` 8 = 0 ∧ 0 < size < 2 ^ 64) ∧
  ∀ i, 0 ≤ i → 8 * i + 8 ≤ block_bytes size → addressable (regions (memory c)) (p + 8 * i).
Proof.
  intros Hc Hp. apply (sound_pure c); [done|]. iIntros (γw γr) "Hm Hpool HL".
  rewrite /lives. iDestruct (big_sepM_delete with "HL") as "[[%Hs Hb] _]"; [done|].
  iDestruct (live_block_seg with "Hb") as "[%Hpos Hb]". iModIntro. iSplit; [iPureIntro; lia|].
  iIntros (i Hi Hle). iDestruct (seg_word _ _ _ (Z.to_nat i) with "Hb") as (ov) "Hw"; [by apply block_words_le|].
  rewrite Z2Nat.id //. by iDestruct (interp_word with "Hm Hw") as %[? _].
Qed.

Lemma sound_apart c p q s1 s2 :
  sound c → live c !! p = Some s1 → live c !! q = Some s2 → p ≠ q → p + s1 ≤ q ∨ q + s2 ≤ p.
Proof.
  intros Hc Hp Hq Hne. apply (sound_pure c); [done|]. iIntros (γw γr) "Hm Hpool HL".
  rewrite /lives. iDestruct (big_sepM_delete _ _ p s1 with "HL") as "[[%Hs1 H1] HL]"; [done|].
  iDestruct (big_sepM_lookup _ _ q s2 with "HL") as "[%Hs2 H2]"; [by rewrite lookup_delete_ne|].
  iModIntro. by iApply (live_blocks_disjoint with "Hm H1 H2").
Qed.

Lemma exits_mono c op c' : client_step c op = Ok c' → (exits c <= exits c')%nat.
Proof.
  unfold client_step, mbind, result_bind. destruct (op_effect c op (memory c)) as [[[m o] [pl p]]|]; [|done].
  intros [= <-]. cbn. destruct op; cbn; lia.
Qed.

Lemma op_ok_in c op :
  op_ok c op → (exits_after op (exits c) <= recycler_limit)%nat → op_in c op (live c).
Proof.
  destruct op as [tid size|tid p|p i v|tid]; cbn; [done| | |unfold recycler_limit; lia].
  - intros [size Hs] _. eauto.
  - destruct (live c !! p) as [size|]; [|done]. eauto.
Qed.

Lemma reachable_sound c : client_reachable c → (exits c <= recycler_limit)%nat → sound c.
Proof.
  induction 1 as [|c op c' Hr IH Hop Hstep]; [intros _; apply sound_initial|]. intros Hl.
  pose proof (exits_mono _ _ _ Hstep). eapply sound_step; [apply IH; lia| |exact Hstep].
  apply op_ok_in; [done|]. revert Hstep. unfold client_step, mbind, result_bind.
  destruct (op_effect c op (memory c)) as [[[m o] [pl p]]|]; [|done]. by intros [= <-].
Qed.

End runs.

(** The example run of [IpcAlloc]. *)
Lemma demo_checked :
  match demo with
  | Ok c => size (live c) = 4%nat ∧ (exits c <= recycler_limit)%nat | Throw _ => False
  end.
Proof. vm_compute. split; [reflexivity|lia]. Qed.

(** ** Properties *)

(** C34: as long as at most 32 threads have ended, the blocks that clients of the pool
    hold, whatever threads allocated, freed and wrote, are aligned, lie in memory that
    [malloc] gave and was not given back, and do not overlap. *)
Theorem live_blocks_apart `{Malloc} (c : Client) :
  client_reachable c → (exits c <= recycler_limit)%nat →
  (∀ p size, live c !! p = Some size →
     0 < p ∧ p `mod` 8 = 0 ∧
     ∀ i, 0 ≤ i → 8 * i + 8 ≤ block_bytes size → addressable (regions (memory c)) (p + 8 * i)) ∧
  (∀ p q s1 s2, live c !! p = Some s1 → live c !! q = Some s2 → p ≠ q → p + s1 ≤ q ∨ q + s2 ≤ p).
Proof.
  intros Hr Hl. pose proof (reachable_sound c Hr Hl) as Hs. split.
  - intros p size Hp. destruct (sound_block c p size Hs Hp) as [(Hp0 & Hal & _) Ha]. done.
  - intros p q s1 s2. by apply sound_apart.
Qed.

Lemma live_blocks_apart_witness :
  match demo with
  | Ok c => size (live c) = 4%nat ∧
      ∀ p q s1 s2, live c !! p = Some s1 → live c !! q = Some s2 → p ≠ q → p + s1 ≤ q ∨ q + s2 ≤ p
  | Throw _ => False
  end.
Proof.
  pose proof pool_demo_reachable as Hr. pose proof demo_checked as Hd. destruct demo as [c|]; [|done].
  destruct Hd as [Hn He]. split; [exact Hn|]. exact (proj2 (@live_blocks_apart bump_malloc c (Hr c eq_refl) He)).
Defined.

(** With memory to be had every operation of a client succeeds: an allocation of
    at least one byte gives a new block; and no operation changes a word of a block
    it does not free, except the word it writes. *)
Theorem pool_serves `{Malloc} (c : Client) (op : ClientOp) :
  (∀ rs n, 0 < n → is_Some (malloc rs n)) →
  client_reachable c → op_ok c op → (exits_after op (exits c) <= recycler_limit)%nat →
  ∃ c', client_step c op = Ok c' ∧
    match op with
    | OpAlloc _ size => 0 < size → ∃ p, live c !! p = None ∧ live c' = <[p := size]> (live c)
    | OpFree _ p => live c' = delete p (live c)
    | OpWrite p i v => live c' = live c ∧ words (memory c') !! (p + 8 * i) = Some v
    | OpExit _ => live c' = live c
    end ∧
    ∀ q size i, live c !! q = Some size → 0 ≤ i → 8 * i + 8 ≤ block_bytes size →
      match op with OpFree _ p => p ≠ q | OpWrite p j _ => p ≠ q | _ => True end →
      words (memory c') !! (q + 8 * i) = words (memory c) !! (q + 8 * i).
Proof.
  intros Hmem Hr Hop Hl.
  assert (sound c) as Hs by (apply reachable_sound; [done|]; destruct op; cbn in Hl; lia).
  pose proof (op_ok_in c op Hop Hl) as Hin.
  destruct (sound_progress c op Hmem Hs Hin) as (m & o & pl & p & Heff & Hres).
  eexists. assert (client_step c op = Ok _) as Hstep by (unfold client_step; rewrite Heff; reflexivity).
  split; [exact Hstep|]. split.
  - destruct op as [tid size|tid q|q i v|tid]; cbn; [|done| |done].
    + intros Hsize. cbn in Hres. destruct Hres as [Hz Hnew]. destruct (decide (p = 0)) as [E|E].
      * destruct (Hz E) as [?|(rs & n & Hn & Hm)]; [lia|]. destruct (Hmem rs n Hn) as [x Hx]. by rewrite Hx in Hm.
      * exists p. auto.
    + split; [done|]. cbn in Heff. unfold mbind, eff_bind, store in Heff. case_decide; [|done].
      injection Heff as <- _ _ _. cbn. by rewrite lookup_insert_eq.
  - intros q size i Hq Hi Hb Hne. eapply sound_frame; [done|done| |exact Hstep|done|done].
    destruct op as [tid sz|tid r|r j v|tid]; cbn in *; [done| | |done].
    + destruct Hin as (s2 & H2 & _). exists s2. rewrite lookup_delete_ne //.
    + destruct Hin as (s2 & H2 & ?). exists s2. rewrite lookup_delete_ne //.
Qed.

Lemma pool_serves_witness :
  match demo with
  | Ok c => ∃ c', client_step c (OpAlloc 2 8) = Ok c' ∧ ∃ p, live c !! p = None ∧ live c' = <[p := 8]> (live c)
  | Throw _ => False
  end.
Proof.
  pose proof pool_demo_reachable as Hr. pose proof demo_checked as Hd. destruct demo as [c|]; [|done].
  destruct Hd as [_ He].
  assert (∀ rs n, 0 < n → is_Some (@malloc bump_malloc rs n)) as Hmem by (intros rs n _; cbn; eauto).
  destruct (@pool_serves bump_malloc c (OpAlloc 2 8) Hmem (Hr c eq_refl) ltac:(cbn; lia) He)
    as (c' & Hstep & Hlive & _).
  exists c'. split; [exact Hstep|]. by apply Hlive.
Defined.
