(* ===== verification/IpcChannel.v ===== *)
(** * Channels of shared memory: messages, large messages, sending and receiving ([ipc.cpp])

    A message is cut into fragments of 64 bytes, each an element of the ring
    ([IpcRing.v]); a message longer than 64 bytes is instead written to a block of shared
    memory, whose id is sent, as long as the pool of its size has an id left.  The
    receiver puts the fragments of a message together in its cache.

    Every [push] and [pop] of the ring is one step here: it appends, or takes the head
    of, a queue of at most 255 elements, as [IpcRing.ring_fifo] and
    [IpcRing.operations_alone] show of the ring.  The lock of a pool makes its use one
    step, as [IpcLock.SpinLock] shows.  A call waits ([wait_for]) by staying where it is;
    the choice [Timeout] ends the wait.

    Bytes are numbers; [None] is a byte of memory that was never written.  The pages the
    operating system gives for a name of shared memory are outside of the source:
    [shm_acquire] tells the names it can map, a parameter. *)

From stdpp Require Import functions.
From S2P Require Import Prelude CppString.
From S2P Require Import Interleaving.
From S2P Require Import IpcBase.
#[local] Open Scope Z_scope.

(** ** Messages *)

(** The 8 bytes of a [std::size_t], lowest first. *)
Fixpoint bytes_of (n : nat) (x : Z) : list Z :=
  match n with O => [] | S n => u8 x :: bytes_of n (x / 2 ^ 8) end.

Fixpoint of_bytes (l : list Z) : Z :=
  match l with [] => 0 | b :: l => b + 2 ^ 8 * of_bytes l end.

(** [msg_t<64>]: [data_] has 64 bytes, zero before anything is copied. *)
Record msg := {
  conn_ : Z;
  id_ : Z;
  remain_ : Z;
  storage_ : bool;
  data_ : list Z }.

Definition pad (l : list Z) : list Z := l ++ replicate (Z.to_nat data_length - length l) 0.

(** The constructor; [d = None] is the null pointer, and [s] the number of bytes. *)
Definition make_msg (c i r : Z) (d : option (list Z)) (s : Z) : msg :=
  let storage := match d with None => true | Some _ => bool_decide (s = 0) end in
  {| conn_ := c; id_ := i; remain_ := r; storage_ := storage;
     data_ := match d with
              | None => pad []
              | Some d => pad (if storage then take 8 d else take (Z.to_nat s) d)
              end |}.

(** ** The cache of the receiver *)

Record cache_t := { fill_ : Z; buff_ : list (option Z) }.

Definition make_cache (data : list Z) (size : Z) : list (option Z) :=
  let n := Z.to_nat (Z.min data_length size) in
  (Some <$> take n data) ++ replicate (Z.to_nat size - n) None.

Definition append (data : list Z) (size : Z) (c : cache_t) : cache_t :=
  let total := Z.of_nat (length (buff_ c)) in
  if decide (fill_ c >= total ∨ size = 0) then c
  else
    let new_fill := Z.min (fill_ c + size) total in
    {| fill_ := new_fill;
       buff_ := take (Z.to_nat (fill_ c)) (buff_ c) ++
                (Some <$> take (Z.to_nat (new_fill - fill_ c)) data) ++ drop (Z.to_nat new_fill) (buff_ c) |}.

(** ** Blocks for large messages *)

(** A block: its bytes, and after them the number of receivers that have not released
    it. *)
Record block := { bytes : list Z; receivers : Z }.

(** The pool of the blocks of one size; fresh shared memory is zero. *)
Record cls_info_t := { pool_ : IdPool.id_pool; mems_ : gmap Z block }.

Definition zero_block (cls_size : Z) : block := {| bytes := replicate (Z.to_nat cls_size) 0; receivers := 0 |}.
Definition zero_cls : cls_info_t := {| pool_ := IdPool.zero_pool; mems_ := ∅ |}.

Abbreviation storages := (gmap Z cls_info_t).

Definition cls_of (cls_size : Z) (st : storages) : cls_info_t := default zero_cls (st !! cls_size).
Definition block_of (cls_size id : Z) (st : storages) : block :=
  default (zero_block cls_size) (mems_ (cls_of cls_size st) !! id).

Definition set_pool (cls_size : Z) (p : IdPool.id_pool) (st : storages) : storages :=
  <[cls_size := {| pool_ := p; mems_ := mems_ (cls_of cls_size st) |}]> st.
Definition set_block (cls_size id : Z) (b : block) (st : storages) : storages :=
  <[cls_size := {| pool_ := pool_ (cls_of cls_size st); mems_ := <[id := b]> (mems_ (cls_of cls_size st)) |}]> st.

Definition info_name (cls_size : Z) : string := "__CLS_INFO__" +:+ to_string cls_size.
Definition mem_name (cls_size id : Z) : string :=
  "__CLS_MEM_BLOCK__" +:+ to_string cls_size +:+ "__" +:+ to_string id.

(** The segments that the handles of a process ([cls_storages]) have acquired: [(c, None)]
    for [id_info_] and [(c, Some id)] for [mems_[id]] of the size [c]. *)
Abbreviation mapped := (gset (Z * option Z)).

Section storage.
(** The answer of the operating system to a process that asks for a name; every step of a
    thread has an answer of its own. *)
Variable shm_acquire : string → bool.

Definition cls_storage_info (cls_size : Z) (mp : mapped) : bool * mapped :=
  if decide ((cls_size, None) ∈ mp) then (true, mp)
  else if shm_acquire (info_name cls_size) then (true, {[(cls_size, None)]} ∪ mp)
  else (false, mp).

(** [mems_] has 32 entries. *)
Definition cls_storage_mem (cls_size id : Z) (mp : mapped) : result (bool * mapped) :=
  if decide (id = invalid_value) then Ok (false, mp)
  else if decide (id < 0 ∨ Z.of_nat IdPool.max_count <= id) then Throw Undefined
  else if decide ((cls_size, Some id) ∈ mp) then Ok (true, mp)
  else if shm_acquire (mem_name cls_size id) then Ok (true, {[(cls_size, Some id)]} ∪ mp)
  else Ok (false, mp).

(** The pool between [lock] and [unlock], in [apply_storage] and when a block is given
    back. *)
Definition acquire_id (cls_size : Z) (st : storages) : result (Z * storages) :=
  '(id, pool) ← IdPool.acquire (IdPool.prepare (pool_ (cls_of cls_size st)));
  Ok (id, set_pool cls_size pool st).

Definition release_id (cls_size id : Z) (st : storages) : result storages :=
  '(_, pool) ← IdPool.release (pool_ (cls_of cls_size st)) id;
  Ok (set_pool cls_size pool st).

(** The counter of a block. *)
Definition store_count (cls_size id conn_count : Z) (st : storages) : storages :=
  set_block cls_size id {| bytes := bytes (block_of cls_size id st); receivers := u32 conn_count |} st.

(** [memcpy(buf, data, size)] into a block. *)
Definition write_block (cls_size id : Z) (data : list Z) (st : storages) : storages :=
  let b := block_of cls_size id st in
  set_block cls_size id {| bytes := data ++ drop (length data) (bytes b); receivers := receivers b |} st.

Definition find_storage (id size : Z) (st : storages) (mp : mapped) : result (option (list Z) * mapped) :=
  let cls_size := calc_cls_size size in
  '(ok, mp) ← cls_storage_mem cls_size id mp;
  if (ok : bool) then
    let b := block_of cls_size id st in
    Ok (if decide (receivers b = 0) then None else Some (bytes b), mp)
  else Ok (None, mp).

(** [recycle_storage] up to the decrement of the counter: whether the id is to be
    released. *)
Definition drop_receiver (id size : Z) (st : storages) (mp : mapped) : result (bool * storages) :=
  if decide (id = invalid_value) then Ok (false, st)
  else
    let cls_size := calc_cls_size size in
    if decide (id < 0 ∨ Z.of_nat IdPool.max_count <= id) then Throw Undefined
    else if decide ((cls_size, Some id) ∉ mp) then Ok (false, st)
    else
      let b := block_of cls_size id st in
      Ok (bool_decide (receivers b ≤ 1),
          set_block cls_size id {| bytes := bytes b; receivers := u32 (receivers b - 1) |} st).

(** The rest of it, and of [clear_storage]. *)
Definition release_storage (id size : Z) (st : storages) (mp : mapped) : result (storages * mapped) :=
  let (ok, mp) := cls_storage_info (calc_cls_size size) mp in
  if ok then st ← release_id (calc_cls_size size) id st; Ok (st, mp) else Ok (st, mp).

Definition clear_storage (id size : Z) (st : storages) (mp : mapped) : result (storages * mapped) :=
  if decide (id = invalid_value) then Ok (st, mp)
  else
    let cls_size := calc_cls_size size in
    '(ok, mp) ← cls_storage_mem cls_size id mp;
    if (ok : bool) then
      let b := block_of cls_size id st in
      if decide (receivers b = 0) then Ok (st, mp)
      else release_storage id size (set_block cls_size id {| bytes := bytes b; receivers := 0 |} st) mp
    else Ok (st, mp).

(** ** The channel and its handles *)

(** What the handles of a channel share: the ring, as the queue of its elements; the
    count of receivers; the counter of messages; and, with all channels of the machine,
    the counter of handles and the blocks.  [procs] has the segments that each process
    has mapped. *)
Record shm := {
  que : list msg;
  cc_ : Z;
  acc_ : Z;
  cc_acc_ : Z;
  cls_ : storages;
  procs : nat → mapped }.

(** A handle ([conn_info_t], [queue_base], [chan_wrapper]) of the process [proc_].
    [elems_] and [acc_ok] tell whether the ring and the counter could be mapped. *)
Record handle := {
  proc_ : nat;
  cc_id_ : Z;
  elems_ : bool;
  acc_ok : bool;
  connected_ : Z;
  sender_flag_ : bool;
  recv_cache : gmap Z cache_t;
  mode_ : Z;
  ok_ : bool }.

Definition receiver : Z := 1.
Definition sender : Z := 0.
Definition elem_max : nat := 256.

Definition set_que (q : list msg) (s : shm) : shm :=
  {| que := q; cc_ := cc_ s; acc_ := acc_ s; cc_acc_ := cc_acc_ s; cls_ := cls_ s; procs := procs s |}.
Definition set_cc (c : Z) (s : shm) : shm :=
  {| que := que s; cc_ := c; acc_ := acc_ s; cc_acc_ := cc_acc_ s; cls_ := cls_ s; procs := procs s |}.
Definition set_acc (a : Z) (s : shm) : shm :=
  {| que := que s; cc_ := cc_ s; acc_ := a; cc_acc_ := cc_acc_ s; cls_ := cls_ s; procs := procs s |}.
Definition set_cls (st : storages) (s : shm) : shm :=
  {| que := que s; cc_ := cc_ s; acc_ := acc_ s; cc_acc_ := cc_acc_ s; cls_ := st; procs := procs s |}.
Definition set_mapped (h : handle) (mp : mapped) (s : shm) : shm :=
  {| que := que s; cc_ := cc_ s; acc_ := acc_ s; cc_acc_ := cc_acc_ s; cls_ := cls_ s; procs := <[proc_ h := mp]> (procs s) |}.
Definition mapped_ (h : handle) (s : shm) : mapped := procs s (proc_ h).

Definition set_connected (c : Z) (h : handle) : handle := {| proc_ := proc_ h; cc_id_ := cc_id_ h; elems_ := elems_ h; acc_ok := acc_ok h;
  connected_ := c; sender_flag_ := sender_flag_ h; recv_cache := recv_cache h; mode_ := mode_ h; ok_ := ok_ h |}.
Definition set_sender_flag (b : bool) (h : handle) : handle := {| proc_ := proc_ h; cc_id_ := cc_id_ h; elems_ := elems_ h; acc_ok := acc_ok h;
  connected_ := connected_ h; sender_flag_ := b; recv_cache := recv_cache h; mode_ := mode_ h; ok_ := ok_ h |}.
Definition set_cache (rc : gmap Z cache_t) (h : handle) : handle := {| proc_ := proc_ h; cc_id_ := cc_id_ h; elems_ := elems_ h; acc_ok := acc_ok h;
  connected_ := connected_ h; sender_flag_ := sender_flag_ h; recv_cache := rc; mode_ := mode_ h; ok_ := ok_ h |}.
Definition set_mode (m : Z) (b : bool) (h : handle) : handle := {| proc_ := proc_ h; cc_id_ := cc_id_ h; elems_ := elems_ h; acc_ok := acc_ok h;
  connected_ := connected_ h; sender_flag_ := sender_flag_ h; recv_cache := recv_cache h; mode_ := m; ok_ := b |}.

(** *** Connections *)

(** [conn_info_t::disconnect_receiver]. *)
Definition disconnect_receiver (h : handle) (s : shm) : handle * shm :=
  if negb (elems_ h) then (h, s)
  else if decide (connected_ h = 0) then (h, s)
  else (set_cache ∅ (set_connected 0 h), set_cc (ConnHead.udisconnect (cc_ s) (connected_ h)) s).

(** [queue_base::connect]. *)
Definition connect_queue (h : handle) (s : shm) : bool * handle * shm :=
  if negb (elems_ h) then (false, h, s)
  else if decide (connected_ h ≠ 0) then (true, h, s)
  else
    let (id, cc) := ConnHead.uconnect (cc_ s) in
    (bool_decide (id ≠ 0), set_connected id h, set_cc cc s).

(** [queue_base::ready_sending]: with many producers a sender always connects. *)
Definition ready_sending (h : handle) : bool * handle :=
  if negb (elems_ h) then (false, h) else (true, set_sender_flag true h).

(** [detail_impl::reconnect]; [shut_sending] has no effect with many producers. *)
Definition reconnect_impl (start_to_recv : bool) (h : handle) (s : shm) : bool * handle * shm :=
  if start_to_recv then connect_queue h s
  else
    let (h, s) := if decide (connected_ h ≠ 0) then disconnect_receiver h s else (h, s) in
    let (ret, h) := ready_sending h in
    (ret, h, s).

(** [chan_wrapper::reconnect]. *)
Definition reconnect (mode : Z) (h : handle) (s : shm) : bool * handle * shm :=
  if decide (ok_ h = true ∧ mode_ h = mode) then (true, h, s)
  else
    let '(ret, h, s) := reconnect_impl (bool_decide (Z.land mode receiver ≠ 0)) h s in
    (ret, set_mode mode ret h, s).

(** [chan_wrapper::disconnect]. *)
Definition disconnect (h : handle) (s : shm) : handle * shm :=
  let (h, s) := disconnect_receiver h s in
  (set_mode (mode_ h) false h, s).

(** [chan_wrapper(name, mode)], in the process [proc]. *)
Definition open_channel (proc : nat) (elems acc : bool) (mode : Z) (s : shm) : handle * shm :=
  let h := {| proc_ := proc; cc_id_ := cc_acc_ s; elems_ := elems; acc_ok := acc; connected_ := 0; sender_flag_ := false;
              recv_cache := ∅; mode_ := mode; ok_ := false |} in
  let s := {| que := que s; cc_ := cc_ s; acc_ := acc_ s; cc_acc_ := u32 (cc_acc_ s + 1); cls_ := cls_ s; procs := procs s |} in
  let '(ret, h, s) := reconnect_impl (bool_decide (Z.land mode receiver ≠ 0)) h s in
  (set_mode mode ret h, s).

(** *** Sending *)

(** The fragment at [offset]. *)
Definition fragment (c i size : Z) (data : list Z) (offset s : Z) : msg :=
  make_msg c i (i32 (i32 size - offset - data_length)) (Some (drop (Z.to_nat offset) data)) s.

Definition fragments (c i : Z) (data : list Z) : list msg :=
  let size := Z.of_nat (length data) in
  let n := i32 (size / data_length) in
  let full := (λ k, fragment c i size data (k * data_length) data_length) <$> seqZ 0 n in
  let offset := Z.max 0 n * data_length in
  let remain := i32 (i32 size - offset) in
  full ++ (if decide (remain > 0) then [fragment c i size data offset remain] else []).

(** The element of a message in a block. *)
Definition block_msg (c i : Z) (data : list Z) (id : Z) : msg :=
  make_msg c i (i32 (i32 (Z.of_nat (length data)) - data_length)) (Some (bytes_of 8 id)) 0.

(** The checks of [send]; [false] is the failure of one. *)
Definition send_checks (data : list Z) (h : handle) (s : shm) : bool * handle :=
  if decide (length data = 0%nat) then (false, h)
  else
    let (ready, h) := ready_sending h in
    if negb ready then (false, h)
    else if decide (cc_ s = 0) then (false, h)
    else (acc_ok h, h).

(** *** Receiving *)

(** What [recv] returns; a buffer in a block is given back with [recycle_storage]. *)
Record buffer := { contents : list (option Z); lent : option (Z * Z) }.

(** Old incomplete messages are dropped when there are many. *)
Definition gc (id : Z) (rc : gmap Z cache_t) : gmap Z cache_t :=
  if decide (1024 < Z.of_nat (size rc)) then
    filter (λ x, ¬ 8192 < Z.max id x.1 - Z.min id x.1) rc
  else rc.

(** An element popped by [recv]; [None] goes on with the loop. *)
Definition recv_iter (m : msg) (h : handle) (s : shm) : result (option buffer * handle * shm) :=
  if decide (acc_ok h = true ∧ conn_ m = cc_id_ h) then Ok (None, h, s)
  else
    let remain := u64 (data_length + remain_ m) in
    let rc := recv_cache h in
    match rc !! id_ m with
    | None =>
        if decide (remain ≤ data_length) then Ok (Some {| contents := make_cache (data_ m) remain; lent := None |}, h, s)
        else
          let buf_id := of_bytes (take 8 (data_ m)) in
          '(buf, s) ← (if storage_ m then
                         '(buf, mp) ← find_storage buf_id remain (cls_ s) (mapped_ h s); Ok (buf, set_mapped h mp s)
                       else Ok (None, s));
          match buf with
          | Some buf => Ok (Some {| contents := Some <$> take (Z.to_nat remain) buf; lent := Some (buf_id, remain) |}, h, s)
          | None =>
              Ok (None, set_cache (<[id_ m := {| fill_ := data_length; buff_ := make_cache (data_ m) remain |}]> (gc (id_ m) rc)) h, s)
          end
    | Some cac =>
        if decide (remain_ m ≤ 0) then
          Ok (Some {| contents := buff_ (append (data_ m) remain cac); lent := None |}, set_cache (delete (id_ m) rc) h, s)
        else Ok (None, set_cache (<[id_ m := append (data_ m) data_length cac]> rc) h, s)
    end.

(** *** The threads of a channel, one per handle

    A step of a thread reads or writes the shared state once, or uses a pool between
    [lock] and [unlock]. *)

Inductive place :=
| Closed
| Idle
| Checked (force : bool) (data : list Z)                              (* [send] has checked *)
| Numbered (force : bool) (data : list Z) (msg_id : Z)                (* it has an id, and is to apply for a block *)
| Applying (force : bool) (data : list Z) (msg_id conn_count : Z)     (* the pool is mapped *)
| Acquired (force : bool) (data : list Z) (msg_id conn_count id : Z)  (* the pool gave [id] *)
| Counted (force : bool) (data : list Z) (msg_id id : Z)              (* the counter of the block is set *)
| Sending (force : bool) (todo : list msg)
| Forcing
| Sent (ret : bool)
| Receiving
| Popped (m : msg)
| Received (ret : option buffer)
| Releasing (id size : Z)                                             (* the last receiver of a block *)
| WaitingRecv (r_count : Z)
| Returned (ret : bool)
| Crashed (e : exn).

(** The call of an idle thread; whether a wait times out. *)
Inductive choice :=
| Open (elems acc : bool) (mode : Z)
| Send (data : list Z)
| TrySend (data : list Z)
| Recv
| Reconnect (mode : Z)
| Disconnect
| WaitForRecv (r_count : Z)
| Go
| Timeout.

Definition thread : Type := handle * place.

Definition call_send (force : bool) (data : list Z) (h : handle) (s : shm) : thread :=
  let (ok, h) := send_checks data h s in (h, if ok then Checked force data else Sent false).

Definition call (c : choice) (h : handle) (s : shm) : thread * shm :=
  match c with
  | Send data => (call_send true data h s, s)
  | TrySend data => (call_send false data h s, s)
  | Recv => if decide (elems_ h = false ∨ connected_ h = 0) then (h, Received None, s) else (h, Receiving, s)
  | Reconnect mode => let '(ret, h, s) := reconnect mode h s in (h, Returned ret, s)
  | Disconnect => let (h, s) := disconnect h s in (h, Returned true, s)
  | WaitForRecv n => if elems_ h then (h, WaitingRecv n, s) else (h, Returned true, s)
  | _ => (h, Idle, s)
  end.

(** The message in fragments. *)
Definition send_fragments (force : bool) (data : list Z) (msg_id : Z) (h : handle) (s : shm) : thread * shm :=
  (h, Sending force (fragments (cc_id_ h) msg_id data), s).

(** [apply_storage], [memcpy] and what follows when there is no block. *)
Definition next_number (force : bool) (data : list Z) (h : handle) (s : shm) : thread * shm :=
  let msg_id := acc_ s in
  let s := set_acc (u32 (msg_id + 1)) s in
  if decide (Z.of_nat (length data) > large_msg_limit) then (h, Numbered force data msg_id, s)
  else send_fragments force data msg_id h s.

Definition next_apply (force : bool) (data : list Z) (msg_id : Z) (h : handle) (s : shm) : thread * shm :=
  let conn_count := cc_ s in
  if decide (conn_count = 0) then send_fragments force data msg_id h s
  else
    let (ok, mp) := cls_storage_info (calc_cls_size (Z.of_nat (length data))) (mapped_ h s) in
    let s := set_mapped h mp s in
    if ok then (h, Applying force data msg_id conn_count, s) else send_fragments force data msg_id h s.

Definition next_acquire (force : bool) (data : list Z) (msg_id conn_count : Z) (h : handle) (s : shm) : thread * shm :=
  match acquire_id (calc_cls_size (Z.of_nat (length data))) (cls_ s) with
  | Ok (id, st) => (h, Acquired force data msg_id conn_count id, set_cls st s)
  | Throw e => (h, Crashed e, s)
  end.

Definition next_count (force : bool) (data : list Z) (msg_id conn_count id : Z) (h : handle) (s : shm) : thread * shm :=
  let cls_size := calc_cls_size (Z.of_nat (length data)) in
  match cls_storage_mem cls_size id (mapped_ h s) with
  | Ok (ok, mp) =>
      let s := set_mapped h mp s in
      if (ok : bool) then (h, Counted force data msg_id id, set_cls (store_count cls_size id conn_count (cls_ s)) s)
      else send_fragments force data msg_id h s
  | Throw e => (h, Crashed e, s)
  end.

Definition next_copy (force : bool) (data : list Z) (msg_id id : Z) (h : handle) (s : shm) : thread * shm :=
  (h, Sending force [block_msg (cc_id_ h) msg_id data id],
   set_cls (write_block (calc_cls_size (Z.of_nat (length data))) id data (cls_ s)) s).

Definition next_received (m : msg) (h : handle) (s : shm) : thread * shm :=
  match recv_iter m h s with
  | Ok (None, h, s) => (h, Receiving, s)
  | Ok (Some b, h, s) => (h, Received (Some b), s)
  | Throw e => (h, Crashed e, s)
  end.

(** The end of the life of a received buffer. *)
Definition free_buffer (b : option buffer) (h : handle) (s : shm) : thread * shm :=
  match b with
  | Some {| lent := Some (id, size) |} =>
      match drop_receiver id size (cls_ s) (mapped_ h s) with
      | Ok (last, st) => (h, if last : bool then Releasing id size else Idle, set_cls st s)
      | Throw e => (h, Crashed e, s)
      end
  | _ => (h, Idle, s)
  end.

Definition next_release (id size : Z) (h : handle) (s : shm) : thread * shm :=
  match release_storage id size (cls_ s) (mapped_ h s) with
  | Ok (st, mp) => (h, Idle, set_mapped h mp (set_cls st s))
  | Throw e => (h, Crashed e, s)
  end.

(** The waits of [push] and [pop] may time out although the queue has room or elements:
    an operation of the ring may find it full or empty while another is on its way
    ([IpcRing.spurious_full]). *)
Definition next (c : choice) (t : thread) (s : shm) : thread * shm :=
  let h := t.1 in
  match t.2 with
  | Closed => match c with
              | Open elems acc mode => let (h, s) := open_channel (proc_ h) elems acc mode s in (h, Idle, s)
              | _ => (t, s)
              end
  | Idle => call c h s
  | Checked force data => next_number force data h s
  | Numbered force data i => next_apply force data i h s
  | Applying force data i n => next_acquire force data i n h s
  | Acquired force data i n id => next_count force data i n id h s
  | Counted force data i id => next_copy force data i id h s
  | Sending force [] => (h, Sent true, s)
  | Sending force (m :: todo) =>
      match c with
      | Timeout => (h, if force then Forcing else Sent false, s)
      | _ => if decide (length (que s) < elem_max - 1)%nat then (h, Sending force todo, set_que (que s ++ [m]) s)
             else (t, s)
      end
  | Forcing => (h, Sent false, set_cc (ConnHead.udisconnect (cc_ s) 1) s)
  | Receiving =>
      match c with
      | Timeout => (h, Received None, s)
      | _ => match que s with [] => (t, s) | m :: q => (h, Popped m, set_que q s) end
      end
  | Popped m => next_received m h s
  | WaitingRecv n =>
      if decide (cc_ s < n) then match c with Timeout => (h, Returned false, s) | _ => (t, s) end
      else (h, Returned true, s)
  | Received b => free_buffer b h s
  | Releasing id size => next_release id size h s
  | Sent _ | Returned _ => (h, Idle, s)
  | Crashed _ => (t, s)
  end.

End storage.

(** ** Lemmas on fragments *)

(** A buffer of which the first [n] bytes are written. *)
Definition known (data : list Z) (n : nat) : list (option Z) :=
  (Some <$> take n data) ++ replicate (length data - n) None.

(** What the cache holds after [k] fragments of a message. *)
Definition cache_after (data : list Z) (k : Z) : cache_t :=
  {| fill_ := k * data_length;
     buff_ := known data (Z.to_nat (k * data_length)) |}.

(** The [k]-th fragment. *)
Definition frag (c i : Z) (data : list Z) (k : Z) : msg :=
  let size := Z.of_nat (length data) in
  fragment c i size data (k * data_length) (Z.min data_length (size - k * data_length)).

Definition frag_count (data : list Z) : Z := (Z.of_nat (length data) + 63) / 64.

Lemma fragments_eq c i data :
  Z.of_nat (length data) < 2 ^ 31 → fragments c i data = frag c i data <$> seqZ 0 (frag_count data).
Proof.
  intros Hlen. unfold fragments, frag_count, data_length. set (n := Z.of_nat (length data)) in *.
  pose proof (Z.div_mod n 64 ltac:(lia)) as Hdiv. pose proof (Z.mod_pos_bound n 64 ltac:(lia)) as Hmod.
  set (q := n / 64) in *. set (r := n `mod` 64) in *. assert (0 ≤ q < 2 ^ 31) by lia.
  rewrite (i32_small q), (i32_small n), Z.max_r by lia. rewrite (i32_small (n - q * 64)) by lia.
  assert (Hq : ∀ k, k ∈ seqZ 0 q → fragment c i n data (k * 64) 64 = frag c i data k).
  { intros k Hk%elem_of_seqZ. unfold frag, data_length. fold n. by rewrite Z.min_l by lia. }
  assert (Hfull : (λ k, fragment c i n data (k * 64) 64) <$> seqZ 0 q = frag c i data <$> seqZ 0 q).
  { apply map_ext_in. intros k Hk. apply Hq. by apply list_elem_of_In. }
  rewrite Hfull. case_decide as Hr.
  - replace ((n + 63) / 64) with (q + 1) by (apply Z.div_unique with (r - 1); lia).
    rewrite seqZ_app by lia. rewrite fmap_app. f_equal.
    rewrite (seqZ_cons (0 + q) 1), Z.add_0_l by lia. change (seqZ (Z.succ q) (Z.pred 1)) with (@nil Z).
    cbn [fmap list_fmap]. unfold frag, data_length. fold n. by rewrite Z.min_r by lia.
  - replace ((n + 63) / 64) with q by (apply Z.div_unique with 63; lia). by rewrite app_nil_r.
Qed.

Lemma frag_fields c i data k :
  0 ≤ k → k * 64 < Z.of_nat (length data) → Z.of_nat (length data) < 2 ^ 31 →
  frag c i data k =
    {| conn_ := c; id_ := i; remain_ := Z.of_nat (length data) - k * 64 - 64; storage_ := false;
       data_ := pad (take 64 (drop (Z.to_nat (k * 64)) data)) |}.
Proof.
  intros Hk Hkn Hn. unfold frag, fragment, make_msg, data_length. rewrite (i32_small (Z.of_nat (length data))) by lia.
  rewrite i32_small by lia. rewrite bool_decide_false by lia. f_equal. f_equal.
  destruct (decide (64 ≤ Z.of_nat (length data) - k * 64)); [by rewrite Z.min_l by lia|].
  rewrite Z.min_r by lia. rewrite !take_ge; [done|rewrite length_drop; lia..].
Qed.

Lemma take_pad n l : (n ≤ length l)%nat → take n (pad l) = take n l.
Proof. intros. unfold pad. by rewrite take_app_le. Qed.

Lemma known_length data n : length (known data n) = length data.
Proof. unfold known. rewrite length_app, length_fmap, length_take, length_replicate. lia. Qed.

Lemma known_all data n : (length data ≤ n)%nat → known data n = Some <$> data.
Proof.
  intros. unfold known. rewrite take_ge by done. replace (length data - n)%nat with 0%nat by lia. apply app_nil_r.
Qed.

(** Writing the bytes from [a] to [b]. *)
Lemma known_extend data a b : (a ≤ b)%nat → (b ≤ length data)%nat →
  take a (known data a) ++ (Some <$> take (b - a) (drop a data)) ++ drop b (known data a) = known data b.
Proof.
  intros Hab Hb. unfold known.
  assert (Hl : length (Some <$> take a data) = a) by (rewrite length_fmap, length_take; lia).
  rewrite take_app_le, take_ge by lia. rewrite drop_app_ge, Hl, drop_replicate by lia.
  replace (length data - a - (b - a))%nat with (length data - b)%nat by lia.
  rewrite app_assoc, <- fmap_app. do 2 f_equal.
  replace (take b data) with (take (a + (b - a)) data) by (f_equal; lia). by rewrite take_take_drop.
Qed.

(** The first fragment makes the cache, the others fill it. *)
Lemma make_cache_frag data : 64 < Z.of_nat (length data) →
  {| fill_ := data_length; buff_ := make_cache (pad (take 64 data)) (Z.of_nat (length data)) |} = cache_after data 1.
Proof.
  intros Hn. unfold make_cache, cache_after, known, data_length. rewrite Z.min_l, Z.mul_1_l, Nat2Z.id by lia.
  by rewrite take_pad, take_take by (rewrite length_take; lia).
Qed.

Lemma append_frag data k size :
  0 ≤ k → k * 64 < Z.of_nat (length data) → 0 < size ≤ 64 →
  k * 64 + size ≤ Z.of_nat (length data) →
  append (pad (take 64 (drop (Z.to_nat (k * 64)) data))) size (cache_after data k) =
    {| fill_ := k * 64 + size; buff_ := known data (Z.to_nat (k * 64 + size)) |}.
Proof.
  intros Hk Hkn Hsize Hend. unfold append, cache_after, data_length. cbn [fill_ buff_]. rewrite known_length.
  rewrite decide_False, Z.min_l by lia. f_equal.
  rewrite take_pad, take_take by (rewrite length_take, length_drop; lia).
  rewrite <- (known_extend data (Z.to_nat (k * 64)) (Z.to_nat (k * 64 + size))) by lia.
  do 4 f_equal. lia.
Qed.

Lemma u64_remain n k : 0 ≤ k → k * 64 < n → n < 2 ^ 31 → u64 (data_length + (n - k * 64 - 64)) = n - k * 64.
Proof. intros. unfold data_length. rewrite u64_small; lia. Qed.

Section receive.
Variable shm_acquire : string → bool.
Context (c i : Z) (data : list Z) (h : handle) (s : shm).
Hypothesis size_ok : 0 < Z.of_nat (length data) < 2 ^ 31.
Hypothesis other : acc_ok h = true → c ≠ cc_id_ h.

Let recv := recv_iter shm_acquire.

(** A message of one fragment is returned at once. *)
Lemma recv_only : Z.of_nat (length data) ≤ 64 → recv_cache h !! i = None →
  recv (frag c i data 0) h s = Ok (Some {| contents := Some <$> data; lent := None |}, h, s).
Proof.
  intros Hn Hc. unfold recv, recv_iter. rewrite frag_fields by lia. cbn [conn_ remain_ id_ storage_ data_].
  rewrite decide_False by tauto. rewrite Hc, u64_remain, decide_True by (unfold data_length; lia).
  rewrite drop_0, take_ge by lia. unfold make_cache, data_length. rewrite Z.min_r, Z.sub_0_r, Nat2Z.id by lia.
  rewrite take_pad, take_ge, Nat.sub_diag by lia. cbn [replicate]. by rewrite app_nil_r.
Qed.

(** The first of several fragments opens a cache. *)
Lemma recv_first : 64 < Z.of_nat (length data) → recv_cache h !! i = None →
  recv (frag c i data 0) h s =
    Ok (None, set_cache (<[i := cache_after data 1]> (gc i (recv_cache h))) h, s).
Proof.
  intros Hn Hc. unfold recv, recv_iter. rewrite frag_fields by lia. cbn [conn_ remain_ id_ storage_ data_].
  rewrite decide_False by tauto. rewrite Hc, u64_remain, decide_False by (unfold data_length; lia).
  cbn [mbind result_bind]. rewrite Z.sub_0_r. change (Z.to_nat (0 * 64)) with 0%nat. rewrite drop_0.
  rewrite make_cache_frag by done. by destruct h.
Qed.

(** A fragment in the middle fills the cache. *)
Lemma recv_middle k : 1 ≤ k → k * 64 + 64 < Z.of_nat (length data) → recv_cache h !! i = Some (cache_after data k) →
  recv (frag c i data k) h s =
    Ok (None, set_cache (<[i := cache_after data (k + 1)]> (recv_cache h)) h, s).
Proof.
  intros Hk Hn Hc. unfold recv, recv_iter. rewrite frag_fields by lia. cbn [conn_ remain_ id_ storage_ data_].
  rewrite decide_False by tauto. rewrite Hc, decide_False by lia. unfold data_length at 1.
  rewrite append_frag by lia. unfold cache_after, data_length. by rewrite Z.mul_add_distr_r.
Qed.

(** The last fragment completes the message. *)
Lemma recv_last k : 1 ≤ k → k * 64 < Z.of_nat (length data) ≤ k * 64 + 64 →
  recv_cache h !! i = Some (cache_after data k) →
  recv (frag c i data k) h s =
    Ok (Some {| contents := Some <$> data; lent := None |}, set_cache (delete i (recv_cache h)) h, s).
Proof.
  intros Hk Hn Hc. unfold recv, recv_iter. rewrite frag_fields by lia. cbn [conn_ remain_ id_ storage_ data_].
  rewrite decide_False by tauto. rewrite Hc, decide_True by lia. rewrite u64_remain by lia.
  rewrite append_frag by lia. cbn [buff_]. by rewrite known_all by lia.
Qed.

End receive.

(** ** A channel that is full for too long

    With one consumer per message, a [send] whose wait runs out does not overwrite the
    oldest element, as it does when messages are broadcast: it takes one receiver off the
    count and fails. *)

(** Calls that neither open nor close a connection. *)
Definition stays (c : choice) (h : handle) : bool :=
  match c with
  | Open _ _ _ | Disconnect => false
  | Reconnect mode => bool_decide (ok_ h = true ∧ mode_ h = mode)
  | _ => true
  end.

(** The steps, with any answers of the operating system. *)
Definition next_stays (x : (string → bool) * choice) (t : thread) (s : shm) : thread * shm :=
  if stays x.2 t.1 then next x.1 x.2 t s else (t, s).

(** Nothing is being sent. *)
Definition not_sending (p : place) : Prop :=
  match p with
  | Closed | Checked _ _ | Numbered _ _ _ | Applying _ _ _ _ | Acquired _ _ _ _ _ | Counted _ _ _ _
  | Sending _ _ | Forcing | Sent true => False
  | _ => True
  end.

Definition dead (k : config shm thread) : Prop :=
  cc_ (shared k) = 0 ∧ ∀ t h p, pcs k !! t = Some (h, p) → not_sending p.

Lemma recv_iter_shared acq m h s ret h' s' :
  recv_iter acq m h s = Ok (ret, h', s') →
  que s' = que s ∧ cc_ s' = cc_ s ∧ acc_ s' = acc_ s ∧ cls_ s' = cls_ s.
Proof.
  unfold recv_iter. case_decide; [by intros [= <- <- <-]|]. destruct (recv_cache h !! id_ m).
  - case_decide; by intros [= <- <- <-].
  - case_decide; [by intros [= <- <- <-]|]. destruct (storage_ m); [|by intros [= <- <- <-]].
    destruct (find_storage _ _ _ _ _) as [[[buf|] mp]|]; by intros [= <- <- <-].
Qed.

Lemma next_dead x h p s :
  cc_ s = 0 → not_sending p →
  cc_ (next_stays x (h, p) s).2 = 0 ∧ not_sending (next_stays x (h, p) s).1.2.
Proof.
  destruct x as [acq c]. intros Hcc Hp. unfold next_stays. cbn [fst snd].
  destruct (stays c h) eqn:Hc; [|done].
  assert (Hsend : ∀ force data, not_sending (call_send force data h s).2).
  { intros force data. unfold call_send, send_checks. case_decide; [done|].
    destruct (ready_sending h) as [[] h1]; cbn [negb]; [|done]. by rewrite decide_True. }
  destruct p as [| | | | | | |f todo| |ret| |m|b|id size|n|ret|e]; try done; cbn [next fst snd].
  - destruct c; try done; cbn [call]; [split; [done|apply Hsend]..|by case_decide| |by destruct (elems_ h)].
    cbn in Hc. unfold reconnect. rewrite decide_True; [done|]. by apply bool_decide_eq_true in Hc.
  - destruct c; try done; by destruct (que s).
  - unfold next_received. destruct (recv_iter acq m h s) as [[[[b|] h'] s']|e] eqn:E; try done;
      apply recv_iter_shared in E as (_ & E & _); cbn; (split; [congruence|done]).
  - unfold free_buffer. destruct b as [[c1 [[id size]|]]|]; try done.
    by destruct (drop_receiver _ _ _ _) as [[[] st]|].
  - unfold next_release. by destruct (release_storage _ _ _ _ _) as [[st mp]|].
  - case_decide; [by destruct c|done].
Qed.

Lemma dead_forever k0 k : dead k0 → reachable next_stays k0 k → dead k.
Proof.
  intros Hdead Hr. revert k Hr. apply (reachable_invariant next_stays dead); [done|].
  intros s m t [h p] x [Hcc Hp] Ht. cbn [shared pcs] in *.
  destruct (next_dead x h p s Hcc (Hp t h p Ht)) as [Hcc' Hp']. split; cbn [shared pcs]; [done|].
  intros t2 h2 p2 H2. apply lookup_insert_Some in H2 as [[<- E]|[_ H2]]; [|by eapply Hp].
  rewrite E in Hp'. done.
Qed.

(** C31: when the wait of a [send] runs out on a channel with its one receiver (the queue
    stayed full for 100 ms), the receiver is taken off the count although it is there and
    goes on receiving; the channel is then dead: until a connection is opened or closed,
    whatever its users do, no [send] succeeds, the count stays zero, and a wait for a
    receiver, which the scheduler and the executors start after a failed [send], ends
    only by a time-out. *)
Theorem full_channel_dies k t h m todo :
  pcs k !! t = Some (h, Sending true (m :: todo)) → cc_ (shared k) = 1 →
  (∀ t' h' p', t' ≠ t → pcs k !! t' = Some (h', p') → not_sending p') →
  ∃ k1, reachable next_stays k k1 ∧ pcs k1 !! t = Some (h, Sent false) ∧
    que (shared k1) = que (shared k) ∧
    ∀ k2, reachable next_stays k1 k2 →
      cc_ (shared k2) = 0 ∧
      (∀ t' h', pcs k2 !! t' ≠ Some (h', Sent true)) ∧
      (∀ t' h' n acq c, pcs k2 !! t' = Some (h', WaitingRecv n) → 0 < n → c ≠ Timeout →
         next acq c (h', WaitingRecv n) (shared k2) = ((h', WaitingRecv n), shared k2)).
Proof.
  intros Ht Hcc Hothers. destruct k as [s mm]. cbn [shared pcs] in *.
  exists {| shared := set_cc 0 s; pcs := <[t := (h, Sent false)]> mm |}. split_and!.
  - pose proof (run_thread_reachable next_stays t [(λ _, true, Timeout); (λ _, true, Go)] (h, Sending true (m :: todo)) s mm Ht) as Hr.
    unfold run_thread in Hr. cbn in Hr. unfold ConnHead.udisconnect in Hr. rewrite Hcc in Hr. exact Hr.
  - apply lookup_insert_eq.
  - done.
  - intros k2 Hr. apply dead_forever in Hr as [Hcc2 Hp2].
    + split_and!; [done|by intros t' h' H'%Hp2|]. intros t' h' n acq c _ Hn Hc. cbn. rewrite Hcc2, decide_True by lia.
      by destruct c.
    + split; [done|]. intros t' h' p' H'. cbn in H'. apply lookup_insert_Some in H' as [[_ [= <- <-]]|[Hne H']]; [done|].
      by eapply Hothers.
Qed.

(** A sender and the receiver of a full channel. *)
Definition demo_send : handle := {| proc_ := 1%nat; cc_id_ := 1; elems_ := true; acc_ok := true; connected_ := 0; sender_flag_ := true;
  recv_cache := ∅; mode_ := sender; ok_ := true |}.
Definition demo_recv : handle := {| proc_ := 2%nat; cc_id_ := 2; elems_ := true; acc_ok := true; connected_ := 1; sender_flag_ := false;
  recv_cache := ∅; mode_ := receiver; ok_ := true |}.
Definition demo_full : config shm thread :=
  {| shared := {| que := replicate 255 (make_msg 1 0 0 (Some [5]) 1); cc_ := 1; acc_ := 1; cc_acc_ := 3; cls_ := ∅; procs := λ _, ∅ |};
     pcs := {[0%nat := (demo_send, Sending true [make_msg 1 0 0 (Some [6]) 1]); 1%nat := (demo_recv, Idle)]} |}.

Lemma full_channel_dies_witness :
  (length (que (shared demo_full)) = elem_max - 1)%nat ∧
  ∃ k1, reachable next_stays demo_full k1 ∧ pcs k1 !! 0%nat = Some (demo_send, Sent false) ∧
    que (shared k1) = que (shared demo_full) ∧
    ∀ k2, reachable next_stays k1 k2 →
      cc_ (shared k2) = 0 ∧
      (∀ t' h', pcs k2 !! t' ≠ Some (h', Sent true)) ∧
      (∀ t' h' n acq c, pcs k2 !! t' = Some (h', WaitingRecv n) → 0 < n → c ≠ Timeout →
         next acq c (h', WaitingRecv n) (shared k2) = ((h', WaitingRecv n), shared k2)).
Proof.
  split; [done|]. apply (full_channel_dies demo_full 0%nat demo_send (make_msg 1 0 0 (Some [6]) 1) []); [done|done|].
  intros t' h' p' Hne H'. cbn in H'. apply lookup_insert_Some in H' as [[? _]|[_ H']]; [done|].
  by apply lookup_singleton_Some in H' as [_ [= _ <-]].
Defined.

(** Two senders whose waits run out take the one receiver off twice: the count wraps
    around, and blocks are then shared out to 2^32 - 1 receivers. *)
Example two_timeouts : ConnHead.udisconnect (ConnHead.udisconnect 1 1) 1 = 2 ^ 32 - 1.
Proof. reflexivity. Qed.

(** With messages of one consumer, a block counts all receivers but only one releases
    it: with two receivers connected it is never free again. *)
Definition demo_shm (cc : Z) : shm :=
  {| que := []; cc_ := cc; acc_ := 0; cc_acc_ := 3; cls_ := ∅; procs := λ _, ∅ |}.
Definition demo_run (cs : list choice) (h : handle) (s : shm) : thread * shm :=
  run_thread (next (λ _, true)) cs (h, Idle) s.
Definition demo_large (cc : Z) : thread * shm :=
  let x := demo_run [Send (repeat 7 100); Go; Go; Go; Go; Go; Go; Go; Go] demo_send (demo_shm cc) in
  demo_run [Recv; Go; Go; Go; Go] demo_recv x.2.

Example block_never_free :
  let block cc := (receivers (block_of 128 0 (cls_ (demo_large cc).2)), IdPool.cursor_ (pool_ (cls_of 128 (cls_ (demo_large cc).2))),
                   (demo_large cc).1.2) in
  block 2 = (1, 1, Idle) ∧ block 1 = (0, 0, Idle).
Proof. by vm_compute. Qed.

(** [clear_storage] and a receiver that releases the same block free its id twice. *)
Example cleared_and_released :
  let s := cls_ (demo_run [Send (repeat 7 100); Go; Go; Go; Go; Go; Go; Go] demo_send (demo_shm 1)).2 in
  (c ← clear_storage (λ _, true) 0 100 s ∅;
   d ← drop_receiver 0 100 c.1 c.2;
   st ← release_storage (λ _, true) 0 100 d.2 c.2;
   a ← acquire_id 128 st.1;
   b ← acquire_id 128 a.2;
   Ok (d.1, a.1, b.1)) = Ok (true, 0, 0).
Proof. by vm_compute. Qed.
