(* ===== verification/IpcStorage.v ===== *)
(** * The blocks for large messages ([ipc.cpp])

    The pools of the machine: [acquire_id] hands out an id that nobody holds and
    [release_id] takes back one that is held; counters and bytes are written to one block
    and do not disturb the others. *)

From S2P Require Import Prelude.
From S2P Require Import IpcBase.
From S2P Require Import IpcChannel.
#[local] Open Scope Z_scope.

Lemma cls_of_insert c c' x st : cls_of c (<[c' := x]> st) = if decide (c = c') then x else cls_of c st.
Proof.
  unfold cls_of. case_decide as E; [by rewrite E, lookup_insert_eq|by rewrite lookup_insert_ne by done].
Qed.

Lemma block_of_set_block c i c' i' b st :
  block_of c i (set_block c' i' b st) = if decide (c = c' ∧ i = i') then b else block_of c i st.
Proof.
  unfold block_of, set_block. rewrite cls_of_insert. destruct (decide (c = c')) as [->|].
  - cbn [mems_]. destruct (decide (i = i')) as [->|].
    + rewrite lookup_insert_eq, decide_True by done. done.
    + rewrite lookup_insert_ne, decide_False by naive_solver. done.
  - rewrite decide_False by naive_solver. done.
Qed.

Lemma block_of_set_pool c i c' p st : block_of c i (set_pool c' p st) = block_of c i st.
Proof. unfold block_of, set_pool. rewrite cls_of_insert. case_decide as E; [by rewrite E|done]. Qed.

Lemma pool_of_set_block c c' i' b st : pool_ (cls_of c (set_block c' i' b st)) = pool_ (cls_of c st).
Proof. unfold set_block. rewrite cls_of_insert. case_decide as E; [by rewrite E|done]. Qed.

Lemma pool_of_set_pool c c' p st : pool_ (cls_of c (set_pool c' p st)) = if decide (c = c') then p else pool_ (cls_of c st).
Proof. unfold set_pool. rewrite cls_of_insert. by case_decide. Qed.

(** The pools and the ids in use. *)
Definition pool_held (p : IdPool.id_pool) (held : gset Z) : Prop :=
  IdPool.pool_ok p held ∨ (p = IdPool.zero_pool ∧ held = ∅).
Definition pools_ok (st : storages) (held : Z → gset Z) : Prop :=
  ∀ c, pool_held (pool_ (cls_of c st)) (held c).

Definition with_held (c : Z) (ids : gset Z) (held : Z → gset Z) : Z → gset Z :=
  λ c', if decide (c' = c) then ids else held c'.

Lemma prepare_held p held : pool_held p held → IdPool.pool_ok (IdPool.prepare p) held.
Proof.
  intros [Hok|[-> ->]]; [|apply IdPool.prepared_pool_ok].
  destruct p as [n c pr], Hok as (? & Hpr & ?). cbn in Hpr. subst pr. by repeat split.
Qed.

Lemma pools_ok_set_pool st held c p ids :
  pools_ok st held → IdPool.pool_ok p ids → pools_ok (set_pool c p st) (with_held c ids held).
Proof.
  intros Hst Hp c'. rewrite pool_of_set_pool. unfold with_held. case_decide; [by left|apply Hst].
Qed.

Lemma pools_ok_set_block st held c i b : pools_ok st held → pools_ok (set_block c i b st) held.
Proof. intros Hst c'. rewrite pool_of_set_block. apply Hst. Qed.

Lemma held_range st held c id : pools_ok st held → id ∈ held c → 0 ≤ id < 32.
Proof.
  intros Hst Hid. destruct (Hst c) as [(_ & _ & free & _ & _ & Hall & _)|[_ E]].
  - change 32 with (Z.of_nat IdPool.max_count). apply Hall. by right.
  - rewrite E in Hid. by apply not_elem_of_empty in Hid.
Qed.

(** An id that is handed out was free. *)
Lemma acquire_id_spec c st held : pools_ok st held →
  ∃ id p ids, acquire_id c st = Ok (id, set_pool c p st) ∧ pools_ok (set_pool c p st) (with_held c ids held) ∧
    (id = invalid_value ∧ ids = held c ∨ 0 ≤ id < 32 ∧ (id ∉ held c) ∧ ids = {[id]} ∪ held c).
Proof.
  intros Hst. unfold acquire_id. pose proof (prepare_held _ _ (Hst c)) as Hp. set (p := IdPool.prepare _) in *.
  destruct (IdPool.acquire_spec p (held c) Hp) as ([|id l] & _ & Hspec).
  - destruct Hspec as [-> _]. exists invalid_value, p, (held c). split_and!; [done|by apply pools_ok_set_pool|by left].
  - destruct Hspec as (p' & -> & Hr & Hfresh & Hp'). exists id, p', ({[id]} ∪ held c).
    split_and!; [done|by apply pools_ok_set_pool|by right].
Qed.

(** Giving back an id that is held. *)
Lemma release_id_spec c id st held : pools_ok st held → id ∈ held c →
  ∃ p, release_id c id st = Ok (set_pool c p st) ∧ pools_ok (set_pool c p st) (with_held c (held c ∖ {[id]}) held).
Proof.
  intros Hst Hid. unfold release_id.
  destruct (Hst c) as [Hp|[_ E]]; [|rewrite E in Hid; by apply not_elem_of_empty in Hid].
  destruct (IdPool.release_spec _ _ id Hp Hid) as (p & -> & Hp'). exists p. split; [done|by apply pools_ok_set_pool].
Qed.

(** A block is there or not. *)
Lemma cls_storage_mem_spec acq c id mp : 0 ≤ id < 32 →
  ∃ mp', cls_storage_mem acq c id mp = Ok (bool_decide ((c, Some id) ∈ mp) || acq (mem_name c id), mp').
Proof.
  intros Hid. unfold cls_storage_mem. rewrite decide_False by (unfold invalid_value; lia).
  rewrite decide_False by (change (Z.of_nat IdPool.max_count) with 32; lia).
  case_decide; [eexists; by rewrite bool_decide_true|]. rewrite bool_decide_false by done.
  by destruct (acq _); eexists.
Qed.

Lemma cls_storage_mem_range acq c id mp mp' : cls_storage_mem acq c id mp = Ok (true, mp') → 0 ≤ id < 32 ∧ id ≠ invalid_value.
Proof.
  unfold cls_storage_mem. case_decide; [done|]. change (Z.of_nat IdPool.max_count) with 32. case_decide; [done|]. lia.
Qed.

Lemma find_storage_spec acq id size st mp : 0 ≤ id < 32 →
  let c := calc_cls_size size in
  receivers (block_of c id st) ≠ 0 →
  ∃ mp', find_storage acq id size st mp =
    Ok (if bool_decide ((c, Some id) ∈ mp) || acq (mem_name c id) then Some (bytes (block_of c id st)) else None, mp').
Proof.
  intros Hid c Hrec. unfold find_storage. fold c. destruct (cls_storage_mem_spec acq c id mp Hid) as [mp' ->].
  exists mp'. cbn [mbind result_bind]. destruct (_ || _); [by rewrite decide_False|done].
Qed.
