(* ===== verification/IpcMachine.v ===== *)
(** * The channels of a machine ([ipc.cpp])

    The pools and blocks for large messages are named by their size only: every channel
    of every process uses the same.  A [machine] has any number of channels, a user of it
    is a thread with a handle to one of them ([IpcChannel.next]), and the answers of the
    operating system to requests for memory may differ from step to step.  A block is
    owned by at most one thread or queued element, whatever the channels do:
    [blocks_owned]. *)

From stdpp Require Import functions.
From S2P Require Import Prelude.
From S2P Require Import Interleaving.
From S2P Require Import IpcBase.
From S2P Require Import IpcChannel.
From S2P Require Import IpcStorage.
#[local] Open Scope Z_scope.

(** ** The machine *)

(** What belongs to one channel. *)
Record channel := { c_que : list msg; c_cc : Z; c_acc : Z }.

(** [conns] is [cc_acc]. *)
Record machine := { chans : nat → channel; conns : Z; blocks : storages; maps : nat → mapped }.

(** What a handle to the channel [n] works on. *)
Definition view (n : nat) (M : machine) : shm := {|
  que := c_que (chans M n); cc_ := c_cc (chans M n); acc_ := c_acc (chans M n);
  cc_acc_ := conns M; cls_ := blocks M; procs := maps M |}.

Definition put (n : nat) (s : shm) (M : machine) : machine := {|
  chans := <[n := {| c_que := que s; c_cc := cc_ s; c_acc := acc_ s |}]> (chans M);
  conns := cc_acc_ s; blocks := cls_ s; maps := procs s |}.

(** A thread and its channel. *)
Definition user : Type := nat * thread.

Definition mnext (x : (string → bool) * choice) (u : user) (M : machine) : user * machine :=
  let (t, s) := next x.1 x.2 u.2 (view u.1 M) in ((u.1, t), put u.1 s M).

Lemma view_put n s M : view n (put n s M) = s.
Proof. unfold view, put. cbn [chans conns blocks maps]. rewrite fn_lookup_insert. by destruct s. Qed.

Lemma chans_put_ne n n' s M : n ≠ n' → chans (put n s M) n' = chans M n'.
Proof. intros. unfold put. cbn [chans]. by rewrite fn_lookup_insert_ne. Qed.

(** ** Who owns a block *)

(** The block an element stands for: its size and id. *)
Definition tok_msg (m : msg) : option (Z * Z) :=
  if storage_ m then Some (calc_cls_size (u64 (data_length + remain_ m)), of_bytes (take 8 (data_ m))) else None.

Definition tok_data (data : list Z) (id : Z) : Z * Z := (calc_cls_size (Z.of_nat (length data)), id).

Definition tok (p : place) : option (Z * Z) :=
  match p with
  | Acquired _ data _ _ id => if decide (id = invalid_value) then None else Some (tok_data data id)
  | Counted _ data _ id => Some (tok_data data id)
  | Sending _ (m :: _) => tok_msg m
  | Popped m => tok_msg m
  | Received (Some b) => (λ x, (calc_cls_size x.2, x.1)) <$> lent b
  | Releasing id size => Some (calc_cls_size size, id)
  | _ => None
  end.

(** Threads and queued elements. *)
Definition owner (M : machine) (m : gmap nat user) (o : nat + nat * nat) : option (Z * Z) :=
  match o with
  | inl t => u ← m !! t; tok u.2.2
  | inr (n, j) => e ← c_que (chans M n) !! j; tok_msg e
  end.

(** What a thread in the middle of a call has computed. *)
Definition well (p : place) : Prop :=
  match p with
  | Checked _ data => 0 < Z.of_nat (length data) < 2 ^ 31
  | Numbered _ data _ | Applying _ data _ _ | Acquired _ data _ _ _ => 64 < Z.of_nat (length data) < 2 ^ 31
  | Counted _ data _ id => 64 < Z.of_nat (length data) < 2 ^ 31 ∧ 0 ≤ id < 32
  | Sending _ todo => (∃ e, todo = [e]) ∨ Forall (λ e, tok_msg e = None) todo
  | Crashed _ => False
  | _ => True
  end.

(** Messages are shorter than 2^31 bytes. *)
Definition sized (c : choice) : Prop :=
  match c with Send data | TrySend data => Z.of_nat (length data) < 2 ^ 31 | _ => True end.

Record owned (M : machine) (m : gmap nat user) (held : Z → gset Z) : Prop := {
  ow_pools : pools_ok (blocks M) held;
  ow_held o c id : owner M m o = Some (c, id) → id ∈ held c;
  ow_unique o o' b : owner M m o = Some b → owner M m o' = Some b → o = o';
  ow_well t u : m !! t = Some u → well u.2.2 }.

(** *** Elements *)

Lemma of_bytes_of n x : 0 ≤ x < 2 ^ (8 * Z.of_nat n) → of_bytes (bytes_of n x) = x.
Proof.
  revert x. induction n as [|n IH]; intros x Hx; [cbn in *; lia|]. cbn [bytes_of of_bytes].
  replace (8 * Z.of_nat (S n)) with (8 + 8 * Z.of_nat n) in Hx by lia. rewrite Z.pow_add_r in Hx by lia.
  rewrite IH by (split; [apply Z.div_pos|apply Z.div_lt_upper_bound]; lia).
  unfold u8. pose proof (Z.div_mod x (2 ^ 8) ltac:(lia)). lia.
Qed.

Lemma length_bytes_of n x : length (bytes_of n x) = n.
Proof. revert x. induction n as [|n IH]; intros x; cbn; [done|by rewrite IH]. Qed.

Lemma block_msg_fields c i data id : 64 < Z.of_nat (length data) < 2 ^ 31 → 0 ≤ id < 32 →
  block_msg c i data id = {| conn_ := c; id_ := i; remain_ := Z.of_nat (length data) - 64; storage_ := true;
                             data_ := pad (bytes_of 8 id) |} ∧ of_bytes (take 8 (pad (bytes_of 8 id))) = id.
Proof.
  intros Hn Hid. unfold block_msg, make_msg, data_length. rewrite (i32_small (Z.of_nat _)), i32_small by lia.
  rewrite bool_decide_true by done. rewrite take_ge by (rewrite length_bytes_of; lia). split; [done|].
  rewrite take_pad by (rewrite length_bytes_of; lia). rewrite take_ge by (rewrite length_bytes_of; lia).
  apply of_bytes_of. lia.
Qed.

Lemma tok_block_msg c i data id : 64 < Z.of_nat (length data) < 2 ^ 31 → 0 ≤ id < 32 →
  tok_msg (block_msg c i data id) = Some (tok_data data id).
Proof.
  intros Hn Hid. destruct (block_msg_fields c i data id Hn Hid) as [-> Hof]. unfold tok_msg. cbn [storage_ remain_ data_].
  rewrite Hof. unfold data_length. rewrite u64_small by lia. unfold tok_data. do 2 f_equal. f_equal. lia.
Qed.

Lemma tok_frag c i data k : 0 ≤ k → k * 64 < Z.of_nat (length data) < 2 ^ 31 → tok_msg (frag c i data k) = None.
Proof. intros. unfold tok_msg. by rewrite frag_fields by lia. Qed.

Lemma frag_count_bounds data : 64 * (frag_count data - 1) < Z.of_nat (length data) ≤ 64 * frag_count data ∨ length data = 0%nat.
Proof.
  unfold frag_count. pose proof (Z.div_mod (Z.of_nat (length data) + 63) 64 ltac:(lia)).
  pose proof (Z.mod_pos_bound (Z.of_nat (length data) + 63) 64 ltac:(lia)). lia.
Qed.

Lemma tok_fragments c i data : 0 < Z.of_nat (length data) < 2 ^ 31 → Forall (λ e, tok_msg e = None) (fragments c i data).
Proof.
  intros Hn. rewrite fragments_eq by lia. apply Forall_fmap, Forall_seqZ. intros k Hk. cbn.
  apply tok_frag; [lia|]. pose proof (frag_count_bounds data). lia.
Qed.

Lemma tok_todo f todo : Forall (λ e, tok_msg e = None) todo → tok (Sending f todo) = None.
Proof. destruct 1; done. Qed.

(** ** The effect of a step on queues and blocks *)

Inductive effect (p : place) (s : shm) : place → shm → Prop :=
| quiet p' s' :
    que s' = que s → cls_ s' = cls_ s → tok p' = None ∨ tok p' = tok p → effect p s p' s'
| pushes f e todo s' :
    p = Sending f (e :: todo) → que s' = que s ++ [e] → cls_ s' = cls_ s → tok (Sending f todo) = None →
    effect p s (Sending f todo) s'
| pops e s' :
    p = Receiving → que s = e :: que s' → cls_ s' = cls_ s → effect p s (Popped e) s'
| acquires p' s' c id :
    tok p = None → que s' = que s → acquire_id c (cls_ s) = Ok (id, cls_ s') →
    tok p' = (if decide (id = invalid_value) then None else Some (c, id)) → effect p s p' s'
| writes p' s' c id b :
    tok p = Some (c, id) → que s' = que s → cls_ s' = set_block c id b (cls_ s) →
    tok p' = None ∨ tok p' = tok p → effect p s p' s'
| releases p' s' c id :
    tok p = Some (c, id) → que s' = que s → release_id c id (cls_ s) = Ok (cls_ s') → tok p' = None → effect p s p' s'.

Section effect.
Variable acq : string → bool.

Lemma recv_iter_effect e h s ret h' s' :
  recv_iter acq e h s = Ok (ret, h', s') →
  que s' = que s ∧ cls_ s' = cls_ s ∧
  tok (match ret with Some b => Received (Some b) | None => Receiving end) ∈ [None; tok_msg e].
Proof.
  intros E. destruct (recv_iter_shared _ _ _ _ _ _ _ E) as (? & _ & _ & ?). split_and!; [done..|].
  destruct ret as [b|]; [|cbn; set_solver]. destruct (lent b) as [[id size]|] eqn:Hl; [|cbn; rewrite Hl; set_solver].
  unfold recv_iter in E. case_decide; [done|]. destruct (recv_cache h !! id_ e).
  { case_decide; [|done]. injection E as <- _ _. cbn in Hl. done. }
  case_decide; [injection E as <- _ _; cbn in Hl; done|].
  destruct (storage_ e) eqn:Hs; [|done]. destruct (find_storage _ _ _ _ _) as [[[buf|] mp]|]; try done.
  cbn in E. injection E as <- _ _. cbn in Hl. injection Hl as <- <-. unfold tok, tok_msg. rewrite Hs. cbn. set_solver.
Qed.

Lemma quiet_fragments p s f data i h s' :
  0 < Z.of_nat (length data) < 2 ^ 31 → que s' = que s → cls_ s' = cls_ s →
  effect p s (send_fragments f data i h s').1.2 (send_fragments f data i h s').2.
Proof. intros. apply quiet; [done..|]. left. by apply tok_todo, tok_fragments. Qed.

Lemma call_effect c h s : effect Idle s (call c h s).1.2 (call c h s).2.
Proof.
  destruct c as [| | | |mode| |n| |]; cbn [call]; try (apply quiet; cbn; auto; fail).
  - unfold call_send. destruct (send_checks _ _ _) as [[] ?]; apply quiet; cbn; auto.
  - unfold call_send. destruct (send_checks _ _ _) as [[] ?]; apply quiet; cbn; auto.
  - case_decide; apply quiet; cbn; auto.
  - destruct (reconnect mode h s) as [[ret h'] s'] eqn:E. revert E. cbn [fst snd].
    unfold reconnect, reconnect_impl, connect_queue, disconnect_receiver, ready_sending.
    intros E. apply quiet; [repeat case_match; simplify_eq/=; done..|by left].
  - destruct (disconnect h s) as [h' s'] eqn:E. revert E. cbn [fst snd]. unfold disconnect, disconnect_receiver.
    intros E. apply quiet; [repeat case_match; simplify_eq/=; done..|by left].
  - destruct (elems_ h); apply quiet; cbn; auto.
Qed.

Lemma next_effect c h p s : well p →
  effect p s (next acq c (h, p) s).1.2 (next acq c (h, p) s).2.
Proof.
  intros Hp. destruct p as [| |f data|f data i|f data i k|f data i k id|f data i id|f [|e todo]| |ret| |e|b|id size|n|ret|x];
    cbn [next fst snd]; try (apply quiet; cbn; auto; fail).
  - destruct c; try (apply quiet; cbn; auto; fail). unfold open_channel.
    destruct (reconnect_impl _ _ _) as [[ret h'] s'] eqn:E. revert E. cbn [fst snd].
    unfold reconnect_impl, connect_queue, disconnect_receiver, ready_sending.
    intros E. apply quiet; [repeat case_match; simplify_eq/=; done..|by left].
  - apply call_effect.
  - unfold next_number. case_decide; [apply quiet; cbn; auto|by apply quiet_fragments].
  - cbn in Hp. unfold next_apply. case_decide; [apply quiet_fragments; (done || lia)|].
    destruct (cls_storage_info _ _ _) as [[] mp]; [apply quiet; cbn; auto|apply quiet_fragments; (done || lia)].
  - unfold next_acquire. destruct (acquire_id _ _) as [[id st]|] eqn:E; [|apply quiet; cbn; auto].
    eapply acquires; cbn; done.
  - cbn in Hp. unfold next_count. destruct (cls_storage_mem _ _ _ _) as [[[] mp]|] eqn:E; cbn [fst snd].
    + destruct (cls_storage_mem_range _ _ _ _ _ E) as [_ Hne].
      eapply writes; [cbn; by rewrite decide_False by done|done|reflexivity|cbn; rewrite decide_False by done; by right].
    + apply quiet_fragments; (done || lia).
    + apply quiet; cbn; auto.
  - destruct Hp as [Hn Hid]. eapply writes; [done|done|reflexivity|]. right. cbn. by apply tok_block_msg.
  - destruct c; try (apply quiet; [done|done|left; by destruct f]); (case_decide; [|apply quiet; auto]);
      (eapply pushes; [done|done|done|]); (destruct Hp as [[e' [= -> ->]]|Hall]; [done|apply tok_todo; by inversion Hall]).
  - destruct c; try (apply quiet; cbn; auto; fail); (destruct (que s) eqn:Hq; [apply quiet; cbn; auto|by apply pops]).
  - unfold next_received. destruct (recv_iter acq e h s) as [[[[b|] h'] s']|] eqn:E; [| |apply quiet; cbn; auto];
      destruct (recv_iter_effect _ _ _ _ _ _ E) as (? & ? & Ht); cbn [fst snd]; (apply quiet; [done..|]);
      cbn [tok] in *; set_solver.
  - unfold free_buffer. destruct b as [[cs [[id size]|]]|]; try (apply quiet; cbn; auto; fail).
    unfold drop_receiver. case_decide; [apply quiet; cbn; auto|]. case_decide; [apply quiet; cbn; auto|].
    case_decide; [apply quiet; cbn; auto|]. cbn [fst snd].
    eapply writes; [done|done|reflexivity|]. case_bool_decide; cbn; auto.
  - unfold next_release, release_storage. destruct (cls_storage_info _ _ _) as [[] mp]; [|apply quiet; cbn; auto].
    destruct (release_id _ _ _) as [st|] eqn:E; [|apply quiet; cbn; auto]. by eapply releases.
  - case_decide; [destruct c|]; apply quiet; cbn; auto.
Qed.

(** Only the block that a thread owns changes. *)
Lemma effect_blocks p s p' s' c id : effect p s p' s' → tok p ≠ Some (c, id) →
  block_of c id (cls_ s') = block_of c id (cls_ s).
Proof.
  intros [p1 s1 _ E _|f e todo s1 _ _ E _|e s1 _ _ E|p1 s1 c1 id1 _ _ E _|p1 s1 c1 id1 b Ht _ E _|p1 s1 c1 id1 _ _ E _] Hne;
    try (by rewrite E).
  - unfold acquire_id in E. destruct (IdPool.acquire _) as [[x q]|]; [|done]. injection E as _ <-. apply block_of_set_pool.
  - rewrite E, block_of_set_block, decide_False; [done|]. intros [-> ->]. done.
  - unfold release_id in E. destruct (IdPool.release _ _) as [[x q]|]; [|done]. injection E as <-. apply block_of_set_pool.
Qed.

End effect.

(** ** A step keeps every block with one owner *)

Lemma fragments_well f c i data : 0 < Z.of_nat (length data) < 2 ^ 31 → well (Sending f (fragments c i data)).
Proof. intros. right. by apply tok_fragments. Qed.

Lemma call_well c h s : sized c → well (call c h s).1.2.
Proof.
  intros Hc. assert (Hsend : ∀ f data, Z.of_nat (length data) < 2 ^ 31 → well (call_send f data h s).2).
  { intros f data Hn. unfold call_send, send_checks. case_decide; [done|].
    destruct (ready_sending h) as [[] h1]; cbn [negb]; [|done]. case_decide; [done|].
    destruct (acc_ok h1); cbn; [lia|done]. }
  destruct c; cbn [call]; try done; [by apply Hsend..|by case_decide| | |by destruct (elems_ h)].
  - by destruct (reconnect _ _ _) as [[? ?] ?].
  - by destruct (disconnect _ _) as [? ?].
Qed.

Lemma popped_well acq e h s : (∀ c id, tok_msg e = Some (c, id) → 0 ≤ id < 32) → well (next_received acq e h s).1.2.
Proof.
  intros Hr. unfold next_received. destruct (recv_iter acq e h s) as [[[[b|] h'] s']|x] eqn:E; [done..|].
  unfold recv_iter in E. case_decide; [done|]. destruct (recv_cache h !! id_ e); [by case_decide|]. case_decide; [done|].
  unfold tok_msg in Hr. destruct (storage_ e); [|done]. unfold find_storage in E.
  destruct (cls_storage_mem_spec acq (calc_cls_size (u64 (data_length + remain_ e))) (of_bytes (take 8 (data_ e)))
    (mapped_ h s)) as [mp' Hmem]; [by eapply Hr|].
  rewrite Hmem in E. cbn in E. destruct (_ || _); cbn in E; [case_decide|]; done.
Qed.

Lemma next_well acq c h p s held :
  well p → sized c → pools_ok (cls_ s) held → (∀ c id, tok p = Some (c, id) → id ∈ held c) →
  well (next acq c (h, p) s).1.2.
Proof.
  intros Hp Hc Hst Hheld.
  assert (Hrange : ∀ c id, tok p = Some (c, id) → 0 ≤ id < 32).
  { intros c0 id Ht. by eapply held_range; [|apply Hheld]. }
  destruct p as [| |f data|f data i|f data i k|f data i k id|f data i id|f [|e todo]| |ret| |e|b|id size|n|ret|x];
    cbn [next fst snd] in *; try done.
  - destruct c; try done. by destruct (open_channel _ _ _ _ _).
  - by apply call_well.
  - cbn in Hp. unfold next_number, large_msg_limit, data_length. case_decide; [cbn; lia|by apply fragments_well].
  - cbn in Hp. unfold next_apply. case_decide; [apply fragments_well; lia|].
    destruct (cls_storage_info _ _ _) as [[] mp]; [done|apply fragments_well; lia].
  - unfold next_acquire. destruct (acquire_id_spec (calc_cls_size (Z.of_nat (length data))) _ _ Hst) as (id & q & ids & -> & _). done.
  - cbn in Hp. unfold next_count. destruct (cls_storage_mem _ _ _ _) as [[[] mp]|x] eqn:E.
    + destruct (cls_storage_mem_range _ _ _ _ _ E). done.
    + apply fragments_well; lia.
    + cbn [tok] in Hrange. case_decide; [subst; by unfold cls_storage_mem in E; rewrite decide_True in E|].
      destruct (cls_storage_mem_spec acq (calc_cls_size (Z.of_nat (length data))) id (mapped_ h s) (Hrange _ _ eq_refl)) as [mp' E'].
      congruence.
  - cbn. left. by eexists.
  - assert (well (Sending f todo)). { destruct Hp as [[e' [= -> ->]]|Hall]; right; [constructor|by inversion Hall]. }
    destruct c; try (by destruct f); by case_decide.
  - destruct c; try done; by destruct (que s).
  - by apply popped_well.
  - unfold free_buffer. destruct b as [[cs [[id size]|]]|]; try done. unfold drop_receiver.
    specialize (Hrange _ _ eq_refl). cbn in Hrange. case_decide; [done|].
    rewrite decide_False by (change (Z.of_nat IdPool.max_count) with 32; lia). case_decide; [done|].
    by case_bool_decide.
  - unfold next_release, release_storage. destruct (cls_storage_info _ _ _) as [[] mp]; [|done].
    destruct (release_id_spec (calc_cls_size size) id (cls_ s) held Hst) as (q & -> & _); [by apply Hheld|done].
  - case_decide; [destruct c|]; done.
Qed.

(** Who owned a block before the step. *)
Lemma owned_map M m held M' m' held' (f : nat + nat * nat → nat + nat * nat) :
  owned M m held → pools_ok (blocks M') held' → map_Forall (λ _ u, well u.2.2) m' →
  (∀ o b, owner M' m' o = Some b → owner M m (f o) = Some b) →
  (∀ o o' b, owner M' m' o = Some b → owner M' m' o' = Some b → f o = f o' → o = o') →
  (∀ o c id, owner M' m' o = Some (c, id) → id ∈ held c → id ∈ held' c) →
  owned M' m' held'.
Proof.
  intros [H1 H2 H3 H4] Hst Hwell Hf Hinj Hheld. split; [done| | |done].
  - intros o c id Ho. eapply Hheld; [done|]. eapply H2. by apply Hf.
  - intros o o' b Ho Ho'. eapply Hinj; [done..|]. eapply H3; by apply Hf.
Qed.

Lemma owner_thread M m t u : m !! t = Some u → owner M m (inl t) = tok u.2.2.
Proof. intros Ht. unfold owner. by rewrite Ht. Qed.

Lemma owner_other M m t u t' : t ≠ t' → owner M (<[t := u]> m) (inl t') = owner M m (inl t').
Proof. intros. unfold owner. by rewrite lookup_insert_ne. Qed.

Lemma owner_this M m t u : owner M (<[t := u]> m) (inl t) = tok u.2.2.
Proof. unfold owner. by rewrite lookup_insert_eq. Qed.

Lemma owner_queue n s M m n' j :
  owner (put n s M) m (inr (n', j)) = e ← (if decide (n = n') then que s else c_que (chans M n')) !! j; tok_msg e.
Proof.
  unfold owner, put. cbn [chans]. case_decide as E; [by rewrite E, fn_lookup_insert|by rewrite fn_lookup_insert_ne].
Qed.

Section step.
Context (M : machine) (m : gmap nat user) (held : Z → gset Z) (t n : nat) (h h' : handle) (p p' : place) (s' : shm).
Hypothesis inv : owned M m held.
Hypothesis here : m !! t = Some (n, (h, p)).

Let M' := put n s' M.
Let m' := <[t := (n, (h', p'))]> m.

(** The owners but for the thread stay when the queue does. *)
Lemma owner_same_queue o : que s' = c_que (chans M n) → o ≠ inl t → owner M' m' o = owner M m o.
Proof.
  intros Hq Ho. destruct o as [t'|[n' j]].
  - unfold m'. rewrite owner_other by congruence. done.
  - unfold M'. rewrite owner_queue. case_decide as E; [by rewrite <- E, Hq|done].
Qed.

Lemma owned_keep held' :
  well p' → que s' = c_que (chans M n) → pools_ok (cls_ s') held' → tok p' = None ∨ tok p' = tok p →
  (∀ o c id, o ≠ inl t ∨ tok p' = Some (c, id) → owner M m o = Some (c, id) → id ∈ held' c) →
  owned M' m' held'.
Proof.
  intros Hwell Hq Hst Ht Hheld.
  assert (Hback : ∀ o b, owner M' m' o = Some b → owner M m o = Some b ∧ (o ≠ inl t ∨ tok p' = Some b)).
  { intros o b Ho. destruct (decide (o = inl t)) as [->|Hne]; [|rewrite owner_same_queue in Ho by done; auto].
    unfold m' in Ho. rewrite owner_this in Ho. cbn [snd] in Ho. rewrite (owner_thread _ _ _ _ here). cbn [snd].
    destruct Ht as [E|E]; [congruence|]. rewrite <- E. auto. }
  apply (owned_map M m held M' m' held' id); [done|done| | | |].
  - apply map_Forall_insert_2; [done|]. intros t2 u Hu. by apply (ow_well _ _ _ inv t2).
  - intros o b Ho. by apply Hback.
  - done.
  - intros o c id Ho _. destruct (Hback _ _ Ho) as [? ?]. by eapply Hheld.
Qed.

Lemma owned_push e :
  well p' → que s' = c_que (chans M n) ++ [e] → cls_ s' = blocks M → tok p = tok_msg e → tok p' = None →
  owned M' m' held.
Proof.
  intros Hwell Hq Hc Hp Hp'. pose (last := (inr (n, length (c_que (chans M n))) : nat + nat * nat)).
  assert (Hlast : owner M m last = None) by (cbn; by rewrite lookup_ge_None_2).
  assert (Hthis : owner M' m' (inl t) = None) by (unfold m'; by rewrite owner_this).
  assert (Helem : owner M' m' last = owner M m (inl t)).
  { unfold M', last. rewrite owner_queue, decide_True, Hq, list_lookup_middle by done. rewrite (owner_thread _ _ _ _ here). exact (eq_sym Hp). }
  assert (Hother : ∀ o, o ≠ last → o ≠ inl t → owner M' m' o = owner M m o).
  { intros [t'|[n' j]] Hl Ht; [unfold m'; rewrite owner_other by congruence; done|]. unfold M'. rewrite owner_queue.
    case_decide as E; [|done]. subst n'. rewrite Hq. cbn. destruct (decide (j < length (c_que (chans M n)))%nat).
    - by rewrite lookup_app_l by lia.
    - rewrite !lookup_ge_None_2; [done|lia|]. rewrite length_app. cbn. unfold last in Hl.
      assert (j ≠ length (c_que (chans M n))) by congruence. lia. }
  apply (owned_map M m held M' m' held (λ o, if decide (o = last) then inl t else o)); [done| | | | |done].
  - unfold M', put. cbn [blocks]. rewrite Hc. apply inv.
  - apply map_Forall_insert_2; [done|]. intros t2 u Hu. by apply (ow_well _ _ _ inv t2).
  - intros o b Ho. case_decide as E; [subst; by rewrite <- Helem|].
    destruct (decide (o = inl t)) as [->|]; [congruence|]. by rewrite <- Hother.
  - intros o o' b Ho Ho'. case_decide; case_decide; intros; subst; congruence.
Qed.

Lemma owned_pop e :
  well p' → c_que (chans M n) = e :: que s' → cls_ s' = blocks M → tok p' = tok_msg e → tok p = None →
  owned M' m' held.
Proof.
  intros Hwell Hq Hc Hp' Hp. pose (shift := λ o : nat + nat * nat, match o with
    | inl t' => if decide (t' = t) then inr (n, 0%nat) else inl t'
    | inr (n', j) => if decide (n' = n) then inr (n', S j) else inr (n', j)
    end).
  assert (Hshift : ∀ o, owner M' m' o = owner M m (shift o)).
  { intros [t'|[n' j]]; cbn [shift].
    - case_decide as E; [subst; unfold m'; rewrite owner_this; cbn; by rewrite Hq|].
      unfold m'. by rewrite owner_other by done.
    - unfold M'. rewrite owner_queue. case_decide as E; [subst; rewrite decide_True by done; cbn; by rewrite Hq|].
      by rewrite decide_False by done. }
  apply (owned_map M m held M' m' held shift); [done| | | | |done].
  - unfold M', put. cbn [blocks]. rewrite Hc. apply inv.
  - apply map_Forall_insert_2; [done|]. intros t2 u Hu. by apply (ow_well _ _ _ inv t2).
  - intros o b. by rewrite Hshift.
  - intros o o' b _ _. destruct o as [t1|[n1 j1]], o' as [t2|[n2 j2]]; cbn [shift]; repeat case_decide; congruence.
Qed.

Lemma owned_acquire c id ids :
  well p' → que s' = c_que (chans M n) → pools_ok (cls_ s') (with_held c ids held) →
  id = invalid_value ∧ ids = held c ∨ 0 ≤ id < 32 ∧ (id ∉ held c) ∧ ids = {[id]} ∪ held c →
  tok p' = (if decide (id = invalid_value) then None else Some (c, id)) →
  owned M' m' (with_held c ids held).
Proof.
  intros Hwell Hq Hst Hids Hp'.
  assert (Hsub : ∀ c' i, i ∈ held c' → i ∈ with_held c ids held c').
  { intros c' i Hi. unfold with_held. destruct (decide (c' = c)); [subst|done]. destruct Hids as [[_ ->]|(_ & _ & ->)]; set_solver. }
  destruct Hids as [[-> ->]|(Hr & Hfresh & ->)].
  { rewrite decide_True in Hp' by done. apply owned_keep; [done..|by left|]. intros o c' i _ Ho. apply Hsub. by eapply inv. }
  rewrite decide_False in Hp' by (unfold invalid_value; lia).
  assert (Hold : ∀ o b, o ≠ inl t → owner M' m' o = Some b → owner M m o = Some b ∧ b ≠ (c, id)).
  { intros o b Ho Hb. rewrite owner_same_queue in Hb by done. split; [done|]. intros ->.
    by apply (ow_held _ _ _ inv) in Hb. }
  assert (Hthis : ∀ b, owner M' m' (inl t) = Some b → b = (c, id)).
  { intros b. unfold m'. rewrite owner_this. cbn [snd]. rewrite Hp'. by intros [= <-]. }
  split; [done| | |].
  - intros o c' i Ho. destruct (decide (o = inl t)) as [->|Hne].
    + apply Hthis in Ho as [= -> ->]. unfold with_held. rewrite decide_True by done. set_solver.
    + apply Hold in Ho as [Ho _]; [|done]. apply Hsub. by eapply inv.
  - intros o o' b Ho Ho'. destruct (decide (o = inl t)) as [->|Hne], (decide (o' = inl t)) as [->|Hne']; [done| | |].
    + apply Hthis in Ho. apply Hold in Ho' as [_ ?]; done.
    + apply Hthis in Ho'. apply Hold in Ho as [_ ?]; done.
    + apply Hold in Ho as [Ho _], Ho' as [Ho' _]; [|done..]. by eapply inv.
  - intros t2 u [[_ <-]|[_ Hu]]%lookup_insert_Some; [done|]. by apply (ow_well _ _ _ inv t2).
Qed.

End step.

Lemma owned_effect M m held t n h h' p p' s' :
  owned M m held → m !! t = Some (n, (h, p)) → well p' → effect p (view n M) p' s' →
  ∃ held', owned (put n s' M) (<[t := (n, (h', p'))]> m) held'.
Proof.
  intros inv here Hwell He. pose proof (owner_thread M _ _ _ here) as Hhere. cbn [snd] in Hhere.
  inversion He as [p1 s1 Hq Hc Ht|f e todo s1 -> Hq Hc Ht|e s1 -> Hq Hc|p1 s1 c id Ht Hq Ha Ht'|p1 s1 c id b Ht Hq Hc Ht'|p1 s1 c id Ht Hq Hr Ht'];
    subst; cbn [view que cls_] in *.
  - exists held. eapply owned_keep; try done; [rewrite Hc; apply inv|]. intros o c id _ Ho. by eapply inv.
  - exists held. by eapply owned_push.
  - exists held. by eapply owned_pop.
  - destruct (acquire_id_spec c (blocks M) held) as (id' & q & ids & E & Hst & Hids); [apply inv|].
    rewrite E in Ha. injection Ha as -> Hs. rewrite Hs in Hst. eexists. by eapply owned_acquire.
  - exists held. eapply owned_keep; try done; [rewrite Hc; apply pools_ok_set_block; apply inv|].
    intros o c' i _ Ho. by eapply inv.
  - destruct (release_id_spec c id (blocks M) held) as (q & E & Hst); [apply inv|by eapply inv; rewrite Hhere|].
    rewrite E in Hr. injection Hr as Hs. rewrite Hs in Hst. eexists. eapply owned_keep; [done|done|done|done|exact Hst|by left|].
    intros o c' i Ho Hb. unfold with_held. case_decide; [subst c'|by eapply inv]. apply elem_of_difference.
    split; [by eapply inv|]. intros ->%elem_of_singleton.
    destruct Ho as [Ho|Ho]; [|congruence]. apply Ho. by eapply inv; [|rewrite Hhere].
Qed.

Lemma owned_step M m held t u x :
  owned M m held → m !! t = Some u → sized x.2 →
  ∃ held', owned (mnext x u M).2 (<[t := (mnext x u M).1]> m) held'.
Proof.
  destruct u as [n [h p]], x as [acq c]. intros Hinv Ht Hsized. unfold mnext. cbn [fst snd] in *.
  pose proof (ow_well _ _ _ Hinv _ _ Ht) as Hp. cbn [snd] in Hp.
  pose proof (next_effect acq c h p (view n M) Hp) as He.
  pose proof (next_well acq c h p (view n M) held Hp Hsized) as Hw.
  destruct (next acq c (h, p) (view n M)) as [[h' p'] s']. cbn [fst snd] in *.
  eapply owned_effect; [done|done| |exact He]. apply Hw; [apply Hinv|].
  intros c0 id Hid. eapply Hinv. by rewrite (owner_thread _ _ _ _ Ht).
Qed.

(** Steps with messages of less than 2^31 bytes. *)
Definition mnext_sized (x : (string → bool) * choice) (u : user) (M : machine) : user * machine :=
  match x.2 with
  | Send data | TrySend data => if decide (Z.of_nat (length data) < 2 ^ 31) then mnext x u M else (u, M)
  | _ => mnext x u M
  end.

(** A machine on which nothing is under way: the pools are as any earlier use has left
    them, the queues are empty and the threads idle. *)
Definition quiet_machine (k : config machine user) : Prop :=
  (∃ held, pools_ok (blocks (shared k)) held) ∧ (∀ n, c_que (chans (shared k) n) = []) ∧
  map_Forall (λ _ u, u.2.2 = Idle ∨ u.2.2 = Closed) (pcs k).

Lemma quiet_owned k : quiet_machine k → ∃ held, owned (shared k) (pcs k) held.
Proof.
  intros ([held Hst] & Hq & Hidle). exists held.
  assert (Hnone : ∀ o b, owner (shared k) (pcs k) o = Some b → False).
  { intros [t|[n j]] b; cbn; [|by rewrite Hq]. destruct (pcs k !! t) as [u|] eqn:E; [|done]. cbn.
    by destruct (Hidle _ _ E) as [-> | ->]. }
  split; [done| | |].
  - intros o c id Ho. by apply Hnone in Ho.
  - intros o o' b Ho. by apply Hnone in Ho.
  - intros t u E. by destruct (Hidle _ _ E) as [-> | ->].
Qed.

Lemma blocks_owned k0 k : quiet_machine k0 → reachable mnext_sized k0 k → ∃ held, owned (shared k) (pcs k) held.
Proof.
  intros Hq Hr. revert k Hr. apply (reachable_invariant mnext_sized (λ k, ∃ held, owned (shared k) (pcs k) held)).
  - by apply quiet_owned.
  - intros s m t u x [held Hinv] Ht. cbn [shared pcs] in *. unfold mnext_sized.
    assert (Hsame : owned s (<[t := u]> m) held) by (by rewrite insert_id).
    destruct x as [acq [| | | | | | | |]]; cbn [snd]; try (by eapply owned_step);
      (case_decide; [by eapply owned_step|by exists held]).
Qed.
