(* ===== verification/IpcDelivery.v ===== *)
(** * What is sent over a channel is received ([ipc.cpp])

    The composition of the parts of [IpcChannel.v] on a machine with any number of
    channels ([IpcMachine.v]): senders that cut messages into fragments or put them into
    blocks, the queue, the pools of blocks that all channels share, and the receiver that
    puts messages together and gives blocks back, as interleaved threads.  [gnext] logs
    what is sent, pushed, popped and received on one of the channels; the log is not state
    of the code. *)

From stdpp Require Import functions.
From S2P Require Import Prelude.
From S2P Require Import Interleaving.
From S2P Require Import IpcBase.
From S2P Require Import IpcChannel.
From S2P Require Import IpcStorage.
From S2P Require Import IpcMachine.
#[local] Open Scope Z_scope.

(** ** The log *)

(** A message: its bytes, the handle that sends it, and its block when it has one. *)
Record info := { i_data : list Z; i_conn : Z; i_block : option Z }.

(** The elements of a message. *)
Definition elements_of (i : Z) (x : info) : list msg :=
  match i_block x with
  | Some id => [block_msg (i_conn x) i (i_data x) id]
  | None => frag (i_conn x) i (i_data x) <$> seqZ 0 (frag_count (i_data x))
  end.

Record log := {
  mach : machine;
  sent : gmap Z info;                     (* messages with an id, by the id *)
  pushed : list msg;
  popped : list msg;
  taken : list msg;                       (* popped and looked at by [recv] *)
  got : list (Z * list (option Z));       (* what [recv] returned *)
  failed : gset Z;                        (* messages with a push that timed out *)
  lost : gset Z;                          (* messages in a block that the receiver could not map *)
  crowded : bool }.                       (* [recv] has cached more than 1024 messages *)

Definition log_sent (i : Z) (x : info) (g : log) : log :=
  {| mach := mach g; sent := <[i := x]> (sent g); pushed := pushed g; popped := popped g; taken := taken g; got := got g;
     failed := failed g; lost := lost g; crowded := crowded g |}.
Definition log_pushed (e : msg) (g : log) : log :=
  {| mach := mach g; sent := sent g; pushed := pushed g ++ [e]; popped := popped g; taken := taken g; got := got g;
     failed := failed g; lost := lost g; crowded := crowded g |}.
Definition log_failed (i : Z) (g : log) : log :=
  {| mach := mach g; sent := sent g; pushed := pushed g; popped := popped g; taken := taken g; got := got g;
     failed := {[i]} ∪ failed g; lost := lost g; crowded := crowded g |}.
Definition log_popped (e : msg) (g : log) : log :=
  {| mach := mach g; sent := sent g; pushed := pushed g; popped := popped g ++ [e]; taken := taken g; got := got g;
     failed := failed g; lost := lost g; crowded := crowded g |}.
Definition log_taken (e : msg) (ret : place) (refused crowd : bool) (g : log) : log :=
  {| mach := mach g; sent := sent g; pushed := pushed g; popped := popped g; taken := taken g ++ [e];
     got := got g ++ match ret with Received (Some b) => [(id_ e, contents b)] | _ => [] end;
     failed := failed g; lost := (if refused then {[id_ e]} else ∅) ∪ lost g; crowded := crowded g || crowd |}.
Definition set_mach (M : machine) (g : log) : log :=
  {| mach := M; sent := sent g; pushed := pushed g; popped := popped g; taken := taken g; got := got g;
     failed := failed g; lost := lost g; crowded := crowded g |}.

(** The operating system does not let the process map the block of an element. *)
Definition unmapped (acq : string → bool) (e : msg) (h : handle) (s : shm) : bool :=
  match tok_msg e with
  | Some (c, id) => negb (bool_decide ((c, Some id) ∈ mapped_ h s) || acq (mem_name c id))
  | None => false
  end.

Section delivery.
Context (n r : nat).   (* the channel and its receiver *)

Definition chan (g : log) : channel := chans (mach g) n.

(** The calls considered: messages have less than 2^31 bytes; connections to the channel
    [n] stay as they are, and its receiver does not send.  Other channels are opened,
    connected and disconnected at any time and have any number of receivers. *)
Definition allowed (c : choice) (u : user) : bool :=
  match c with
  | Send data | TrySend data =>
      bool_decide (Z.of_nat (length data) < 2 ^ 31 ∧ (u.1 = n → connected_ u.2.1 = 0))
  | Recv | WaitForRecv _ | Go | Timeout => true
  | Open _ _ _ | Reconnect _ | Disconnect => bool_decide (u.1 ≠ n)
  end.

(** What a step on the channel [n] adds to the log. *)
Definition record (x : (string → bool) * choice) (t : thread) (ret : place) (g : log) : log :=
  match t.2 with
  | Checked _ data => log_sent (c_acc (chan g)) {| i_data := data; i_conn := cc_id_ t.1; i_block := None |} g
  | Counted _ data i id => log_sent i {| i_data := data; i_conn := cc_id_ t.1; i_block := Some id |} g
  | Sending _ (e :: _) =>
      match x.2 with
      | Timeout => log_failed (id_ e) g
      | _ => if decide (length (c_que (chan g)) < elem_max - 1)%nat then log_pushed e g else g
      end
  | Receiving =>
      match x.2, c_que (chan g) with
      | Timeout, _ | _, [] => g
      | _, e :: _ => log_popped e g
      end
  | Popped e => log_taken e ret (unmapped x.1 e t.1 (view n (mach g))) (bool_decide (1024 < Z.of_nat (size (recv_cache t.1)))) g
  | _ => g
  end.

Definition gnext (x : (string → bool) * choice) (u : user) (g : log) : user * log :=
  if allowed x.2 u then
    let (u', M') := mnext x u (mach g) in
    (u', set_mach M' (if decide (u.1 = n) then record x u.2 u'.2.2 g else g))
  else (u, g).

(** ** The invariant *)

Definition with_id (i : Z) (l : list msg) : list msg := filter (λ m, id_ m = i) l.

#[local] Arguments with_id : simpl never.
#[local] Arguments elements_of : simpl never.

(** The message a thread is sending. *)
Definition message (p : place) : option Z :=
  match p with
  | Numbered _ _ i | Applying _ _ i _ | Acquired _ _ i _ _ | Counted _ _ i _ => Some i
  | Sending _ (e :: _) => Some (id_ e)
  | _ => None
  end.

Definition working (g : log) (h : handle) (p : place) : Prop :=
  match p with
  | Numbered _ data i | Applying _ data i _ | Acquired _ data i _ _ | Counted _ data i _ =>
      sent g !! i = Some {| i_data := data; i_conn := cc_id_ h; i_block := None |} ∧
      with_id i (pushed g) = [] ∧ i ∉ failed g
  | Sending _ (e :: todo) => ∃ x,
      sent g !! id_ e = Some x ∧ elements_of (id_ e) x = with_id (id_ e) (pushed g) ++ e :: todo ∧ id_ e ∉ failed g
  | _ => True
  end.

(** The element a thread has popped and not looked at. *)
Definition pending (p : place) : list msg := match p with Popped e => [e] | _ => [] end.

Definition receiving (p : place) : Prop :=
  match p with Receiving | Popped _ | Received (Some _) => True | _ => False end.
Definition calls_send (p : place) : Prop :=
  match p with
  | Checked _ _ | Numbered _ _ _ | Applying _ _ _ _ | Acquired _ _ _ _ _ | Counted _ _ _ _ | Sending _ _ => True
  | _ => False
  end.

(** A thread of the channel. *)
Definition at_ (m : gmap nat user) (t : nat) (h : handle) (p : place) : Prop := m !! t = Some (n, (h, p)).

Record send_inv (g : log) (m : gmap nat user) : Prop := {
  si_que : pushed g = popped g ++ c_que (chan g);
  si_acc : c_acc (chan g) = Z.of_nat (size (sent g));
  si_cc : 0 ≤ c_cc (chan g) < 2 ^ 32;
  si_ids i x : sent g !! i = Some x → 0 ≤ i < Z.of_nat (size (sent g));
  si_data i x : sent g !! i = Some x → 0 < Z.of_nat (length (i_data x)) < 2 ^ 31;
  si_block i x id : sent g !! i = Some x → i_block x = Some id → 64 < Z.of_nat (length (i_data x)) ∧ 0 ≤ id < 32;
  si_known e : e ∈ pushed g → is_Some (sent g !! id_ e);
  si_prefix i x : sent g !! i = Some x → with_id i (pushed g) `prefix_of` elements_of i x;
  si_work t h p : at_ m t h p → working g h p;
  si_unique t t' h h' p p' i : at_ m t h p → at_ m t' h' p' → message p = Some i → message p' = Some i → t = t';
  si_done i x : sent g !! i = Some x → i ∉ failed g → with_id i (pushed g) = elements_of i x ∨
    ∃ t h p, at_ m t h p ∧ message p = Some i;
  si_failed i : i ∈ failed g → is_Some (sent g !! i) }.

Record role_inv (cc_r : Z) (g : log) (m : gmap nat user) : Prop := {
  oi_conn i x : sent g !! i = Some x → i_conn x ≠ cc_r;
  oi_sender t h p : at_ m t h p → t ≠ r → connected_ h = 0 ∧ cc_id_ h ≠ cc_r ∧ ¬ receiving p }.

(** What the receiver holds and has returned is decided by the elements it took. *)
Record recv_inv (cc_r : Z) (g : log) (h : handle) (p : place) : Prop := {
  ri_conn : connected_ h ≠ 0 ∧ cc_id_ h = cc_r ∧ ¬ calls_send p;
  ri_taken : popped g = taken g ++ pending p;
  ri_cache i x : sent g !! i = Some x → i ∉ lost g → recv_cache h !! i =
    let j := length (with_id i (taken g)) in
    if decide (0 < j < length (elements_of i x))%nat then Some (cache_after (i_data x) (Z.of_nat j)) else None;
  ri_cached i c : recv_cache h !! i = Some c → is_Some (sent g !! i);
  ri_got i x : sent g !! i = Some x → filter (λ y, y.1 = i) (got g) =
    if decide (length (with_id i (taken g)) = length (elements_of i x) ∧ i ∉ lost g) then [(i, Some <$> i_data x)] else [];
  ri_known y : y ∈ got g → is_Some (sent g !! y.1);
  ri_lost i : i ∈ lost g → with_id i (taken g) ≠ [] ∧
    ∃ x, sent g !! i = Some x ∧ length (with_id i (taken g)) = length (elements_of i x) }.

(** An element that stands for a block: the block has the bytes of the message. *)
Definition flight (g : log) (e : msg) : Prop := ∀ c id, tok_msg e = Some (c, id) →
  receivers (block_of c id (blocks (mach g))) ≠ 0 ∧
  ∃ x, sent g !! id_ e = Some x ∧ take (length (i_data x)) (bytes (block_of c id (blocks (mach g)))) = i_data x.

Definition place_sound (g : log) (p : place) : Prop :=
  match p with
  | Applying _ _ _ k | Acquired _ _ _ k _ => 0 < k < 2 ^ 32
  | Counted _ data _ id => receivers (block_of (calc_cls_size (Z.of_nat (length data))) id (blocks (mach g))) ≠ 0
  | Sending _ (e :: _) | Popped e => flight g e
  | Received (Some b) => ∀ id size, lent b = Some (id, size) →
      contents b = Some <$> take (Z.to_nat size) (bytes (block_of (calc_cls_size size) id (blocks (mach g))))
  | _ => True
  end.

Record content_inv (g : log) (m : gmap nat user) : Prop := {
  ci_place t h p : at_ m t h p → place_sound g p;
  ci_queue e : e ∈ c_que (chan g) → flight g e }.

Definition inv (cc_r : Z) (k : config log user) : Prop :=
  send_inv (shared k) (pcs k) ∧ role_inv cc_r (shared k) (pcs k) ∧
  (∃ h p, at_ (pcs k) r h p ∧ recv_inv cc_r (shared k) h p) ∧
  content_inv (shared k) (pcs k) ∧
  ∃ held, owned (mach (shared k)) (pcs k) held.

(** ** Lemmas *)

Lemma filter_none {A} (P : A → Prop) `{∀ a, Decision (P a)} l : (∀ a, a ∈ l → ¬ P a) → filter P l = [].
Proof.
  intros Hl. induction l as [|a l IH]; [done|]. rewrite filter_cons, decide_False by (apply Hl; left).
  apply IH. intros b Hb. apply Hl. by right.
Qed.

Lemma with_id_app i l1 l2 : with_id i (l1 ++ l2) = with_id i l1 ++ with_id i l2.
Proof. apply filter_app. Qed.

Lemma with_id_one i e : with_id i [e] = if decide (id_ e = i) then [e] else [].
Proof. unfold with_id. rewrite filter_cons, filter_nil. done. Qed.

Lemma with_id_none i l : (∀ e, e ∈ l → id_ e ≠ i) → with_id i l = [].
Proof. intros Hl. by apply filter_none. Qed.

Lemma elements_id i x e : e ∈ elements_of i x → id_ e = i.
Proof.
  unfold elements_of. destruct (i_block x); [intros ->%list_elem_of_singleton; done|].
  intros (k & -> & _)%list_elem_of_fmap. done.
Qed.

Lemma elements_nonempty i x : 0 < Z.of_nat (length (i_data x)) → elements_of i x ≠ [].
Proof.
  unfold elements_of. intros Hn. destruct (i_block x); [done|]. intros E%(f_equal length).
  rewrite length_fmap, length_seqZ in E. pose proof (frag_count_bounds (i_data x)). cbn in E. lia.
Qed.

Lemma elements_fragments c i data : Z.of_nat (length data) < 2 ^ 31 →
  fragments c i data = elements_of i {| i_data := data; i_conn := c; i_block := None |}.
Proof. intros. by rewrite fragments_eq. Qed.

Lemma at_other {m t u t' h p} : at_ (<[t := u]> m) t' h p → t ≠ t' ∧ at_ m t' h p ∨ t = t' ∧ u = (n, (h, p)).
Proof. unfold at_. intros [[-> ->]|[? ?]]%lookup_insert_Some; auto. Qed.

Lemma at_insert m t h p : at_ (<[t := (n, (h, p))]> m) t h p.
Proof. unfold at_. by rewrite lookup_insert_eq. Qed.

Lemma at_insert_ne m t u t' h p : t ≠ t' → at_ m t' h p → at_ (<[t := u]> m) t' h p.
Proof. unfold at_. intros. by rewrite lookup_insert_ne. Qed.

(** The next element of a message. *)
Lemma next_element g m h e cc_r : send_inv g m → recv_inv cc_r g h (Popped e) →
  ∃ x, sent g !! id_ e = Some x ∧
    elements_of (id_ e) x !! length (with_id (id_ e) (taken g)) = Some e ∧
    (length (with_id (id_ e) (taken g)) < length (elements_of (id_ e) x))%nat.
Proof.
  intros Hinv Hrecv. assert (Hpushed : pushed g = taken g ++ [e] ++ c_que (chan g)).
  { rewrite (si_que _ _ Hinv), (ri_taken _ _ _ _ Hrecv). cbn [pending]. by rewrite <- app_assoc. }
  destruct (si_known _ _ Hinv e) as [x Hx]; [rewrite Hpushed; set_solver|]. exists x. split; [done|].
  destruct (si_prefix _ _ Hinv _ _ Hx) as [rest Hrest].
  rewrite Hpushed, !with_id_app, with_id_one, decide_True, <- !app_assoc in Hrest by done.
  rewrite Hrest. cbn [app]. split; [by apply list_lookup_middle|]. rewrite !length_app. cbn. lia.
Qed.

(** *** Senders *)

Lemma working_frame g g' h p :
  (∀ i, message p = Some i → sent g' !! i = sent g !! i ∧ with_id i (pushed g') = with_id i (pushed g) ∧ (i ∈ failed g' ↔ i ∈ failed g)) →
  working g h p → working g' h p.
Proof.
  intros Hsame. destruct p as [| |f data|f data i|f data i k|f data i k id|f data i id|f [|e todo]| |ret| |e|b|id size|c|ret|x]; try done; cbn;
    destruct (Hsame _ eq_refl) as (Es & Ep & Ef).
  5: { intros (x & Hx & He & Hf). exists x. by rewrite Es, Ep, Ef. }
  all: by rewrite Es, Ep, Ef.
Qed.

(** Steps that neither begin nor end a message, and steps on other channels. *)
Lemma send_inv_same g g' m m' :
  send_inv g m →
  sent g' = sent g → pushed g' = pushed g → failed g' = failed g →
  pushed g' = popped g' ++ c_que (chan g') → c_acc (chan g') = c_acc (chan g) → 0 ≤ c_cc (chan g') < 2 ^ 32 →
  (∀ t h p i, message p = Some i → at_ m' t h p ↔ at_ m t h p) →
  send_inv g' m'.
Proof.
  intros [H1 H2 H3 H4 H5 H6 H7 H8 H9 H10 H11 H12] Es Ep Ef Hq Ea Hcc Hat.
  split; rewrite ?Es, ?Ep, ?Ef, ?Ea; try done; [by rewrite <- Ep| | |].
  - intros t h p Ht. destruct (message p) as [i|] eqn:E; [|by destruct p as [| | | | | | |? []| | | | | | | | |]].
    apply (working_frame g); [|eapply H9; by eapply Hat]. intros j _. by rewrite Es, Ep, Ef.
  - intros t t' h h' p p' i Ht Ht' E E'. apply (H10 t t' h h' p p' i); [eapply Hat..| |]; done.
  - intros i x Hx Hi. destruct (H11 i x Hx Hi) as [?|(t & h & p & Ht & E)]; [by left|right].
    exists t, h, p. split; [|done]. by eapply Hat.
Qed.

Lemma at_keep m t h p h' p' : at_ m t h p → message p = None → message p' = None →
  ∀ t2 h2 p2 i, message p2 = Some i → at_ (<[t := (n, (h', p'))]> m) t2 h2 p2 ↔ at_ m t2 h2 p2.
Proof.
  intros Ht Hp Hp' t2 h2 p2 i E. split.
  - intros [[_ ?]|[_ [= -> ->]]]%at_other; [done|congruence].
  - intros H2. apply at_insert_ne; [|done]. intros ->. unfold at_ in *. congruence.
Qed.

Lemma at_elsewhere m t n1 h p h' p' : m !! t = Some (n1, (h, p)) → n1 ≠ n →
  ∀ t2 h2 p2, at_ (<[t := (n1, (h', p'))]> m) t2 h2 p2 ↔ at_ m t2 h2 p2.
Proof.
  intros Ht Hne t2 h2 p2. split.
  - by intros [[_ ?]|[_ [= -> _ _]]]%at_other.
  - intros H2. apply at_insert_ne; [|done]. intros ->. unfold at_ in *. congruence.
Qed.

(** A step on one message. *)
Lemma send_inv_at g g' m t h p h' p' i x :
  send_inv g m → at_ m t h p →
  message p = Some i ∨ message p = None ∧ sent g !! i = None →
  message p' = Some i ∨ message p' = None →
  pushed g' = popped g' ++ c_que (chan g') → c_acc (chan g') = Z.of_nat (size (sent g')) → 0 ≤ c_cc (chan g') < 2 ^ 32 →
  Z.of_nat (size (sent g)) ≤ Z.of_nat (size (sent g')) →
  (∀ j, j ≠ i → sent g' !! j = sent g !! j ∧ with_id j (pushed g') = with_id j (pushed g) ∧ (j ∈ failed g' ↔ j ∈ failed g)) →
  (∀ e, e ∈ pushed g' → e ∈ pushed g ∨ id_ e = i) →
  sent g' !! i = Some x → 0 ≤ i < Z.of_nat (size (sent g')) → 0 < Z.of_nat (length (i_data x)) < 2 ^ 31 →
  (∀ id, i_block x = Some id → 64 < Z.of_nat (length (i_data x)) ∧ 0 ≤ id < 32) →
  with_id i (pushed g') `prefix_of` elements_of i x →
  (i ∉ failed g' → with_id i (pushed g') = elements_of i x ∨ message p' = Some i) →
  working g' h' p' →
  send_inv g' (<[t := (n, (h', p'))]> m).
Proof.
  intros [H1 H2 H3 H4 H5 H6 H7 H8 H9 H10 H11 H12] Ht Hp Hp' Hq Ha Hcc Hsize Hj He Hx Hi Hdata Hblock Hpre Hdone Hwork.
  assert (Hfree : ∀ t2 h2 p2, t2 ≠ t → at_ m t2 h2 p2 → message p2 ≠ Some i).
  { intros t2 h2 p2 Hne Ht2 E. destruct Hp as [Hp|[Hp Hnone]]; [apply Hne; by eapply H10|].
    pose proof (H9 _ _ _ Ht2) as Hw. destruct p2 as [| | | | | | |f [|e todo]| | | | | | | | |]; try done; cbn in Hw, E; simplify_eq.
    5: { destruct Hw as (y & Hy & _). congruence. }
    all: destruct Hw as [Hw _]; congruence. }
  split; try done.
  - intros j y Hy. destruct (decide (j = i)) as [->|Hne]; [done|]. destruct (Hj j Hne) as [E _]. rewrite E in Hy. apply H4 in Hy. lia.
  - intros j y Hy. destruct (decide (j = i)) as [->|Hne]; [congruence|]. destruct (Hj j Hne) as [E _]. rewrite E in Hy. by eapply H5.
  - intros j y id Hy. destruct (decide (j = i)) as [->|Hne]; [simplify_eq; apply Hblock|].
    destruct (Hj j Hne) as [E _]. rewrite E in Hy. by eapply H6.
  - intros e Hin. destruct (decide (id_ e = i)) as [->|Hne]; [by exists x|]. destruct (Hj _ Hne) as [E _]. rewrite E.
    destruct (He e Hin); [by apply H7|done].
  - intros j y Hy. destruct (decide (j = i)) as [->|Hne]; [congruence|]. destruct (Hj j Hne) as (E & -> & _).
    rewrite E in Hy. by apply H8.
  - intros t2 h2 p2 [[Hne Ht2]|[<- [= <- <-]]]%at_other; [|done]. eapply (working_frame g); [|by eapply H9].
    intros j E. apply Hj. intros ->. by eapply (Hfree t2).
  - intros t2 t3 h2 h3 p2 p3 j [[Hne2 Ht2]|[<- [= <- <-]]]%at_other [[Hne3 Ht3]|[<- [= <- <-]]]%at_other E2 E3.
    + by eapply H10.
    + assert (j = i) as -> by (destruct Hp'; congruence). by destruct (Hfree t2 h2 p2).
    + assert (j = i) as -> by (destruct Hp'; congruence). by destruct (Hfree t3 h3 p3).
    + done.
  - intros j y Hy Hf. destruct (decide (j = i)) as [->|Hne].
    + assert (y = x) as -> by congruence. destruct (Hdone Hf) as [?|E]; [by left|right]. exists t, h', p'. split; [apply at_insert|done].
    + destruct (Hj j Hne) as (E & Ew & Ef). rewrite E in Hy. rewrite Ew. rewrite Ef in Hf.
      destruct (H11 j y Hy Hf) as [?|(t2 & h2 & p2 & Ht2 & E2)]; [by left|right].
      exists t2, h2, p2. split; [|done]. apply at_insert_ne; [|done]. intros <-.
      unfold at_ in *. rewrite Ht in Ht2. injection Ht2 as <- <-. destruct Hp as [?|[? _]]; congruence.
  - intros j Hf. destruct (decide (j = i)) as [->|Hne]; [by exists x|]. destruct (Hj j Hne) as (E & _ & Ef).
    rewrite E. apply H12. by apply Ef.
Qed.

(** *** Roles *)

Lemma role_inv_keep cc_r g g' m t h p h' p' :
  role_inv cc_r g m → at_ m t h p →
  (∀ i x, sent g' !! i = Some x → sent g !! i = Some x ∨ i_conn x = cc_id_ h ∧ t ≠ r) →
  cc_id_ h' = cc_id_ h → connected_ h' = connected_ h → (t ≠ r → ¬ receiving p') →
  role_inv cc_r g' (<[t := (n, (h', p'))]> m).
Proof.
  intros [H1 H2] Ht Hs Ecc Econn Hp. split.
  - intros i x Hx. destruct (Hs i x Hx) as [Hx'|[-> Hr]]; [by eapply H1|]. by eapply H2.
  - intros t2 h2 p2 [[Hne H]|[<- [= <- <-]]]%at_other Hr; [by eapply H2|].
    rewrite Econn, Ecc. destruct (H2 t h p Ht Hr) as (? & ? & _). by split_and!; [..|apply Hp].
Qed.

(** *** The receiver *)

Lemma recv_untouched cc_r g h p i : recv_inv cc_r g h p → with_id i (taken g) = [] →
  sent g !! i = None ∨ (∃ y, sent g !! i = Some y ∧ elements_of i y ≠ []) →
  recv_cache h !! i = None ∧ filter (λ y, y.1 = i) (got g) = [] ∧ i ∉ lost g.
Proof.
  intros [H1 H2 H3 H4 H5 H6 H7] Hw Hs.
  assert (Hl : i ∉ lost g) by (by intros [? _]%H7).
  destruct Hs as [Hs|(y & Hy & Hne)].
  - split_and!; [| |done].
    + destruct (recv_cache h !! i) eqn:E; [|done]. apply H4 in E as [? E]. congruence.
    + apply filter_none. intros y Hy E. apply H6 in Hy as [? Hy]. rewrite E in Hy. congruence.
  - split_and!; [| |done].
    + rewrite (H3 i y Hy Hl), Hw. cbn. by rewrite decide_False by lia.
    + rewrite (H5 i y Hy), Hw, decide_False; [done|]. intros [E _]. cbn in E. by destruct (elements_of i y).
Qed.

(** A message begins, or gets its block, while the receiver stays as it is. *)
Lemma recv_inv_sent cc_r g g' h p i x :
  recv_inv cc_r g h p → with_id i (taken g) = [] →
  sent g !! i = None ∨ (∃ y, sent g !! i = Some y ∧ elements_of i y ≠ []) →
  sent g' = <[i := x]> (sent g) → popped g' = popped g → taken g' = taken g → got g' = got g → lost g' = lost g →
  elements_of i x ≠ [] → recv_inv cc_r g' h p.
Proof.
  intros Hinv Hw Hs Es Epo Et Eg El Hne. destruct (recv_untouched _ _ _ _ _ Hinv Hw Hs) as (Hc & Hf & Hl).
  destruct Hinv as [H1 H2 H3 H4 H5 H6 H7]. split; rewrite ?Es, ?Epo, ?Et, ?Eg, ?El; try done.
  - intros j y [[<- <-]|[_ Hy]]%lookup_insert_Some; [|by apply H3]. intros _. rewrite Hw, Hc. cbn.
    by rewrite decide_False by lia.
  - intros j c Hj. apply lookup_insert_is_Some'. right. by eapply H4.
  - intros j y [[<- <-]|[_ Hy]]%lookup_insert_Some; [|by apply H5]. rewrite Hw, Hf, decide_False; [done|].
    intros [E _]. cbn in E. by destruct (elements_of i x).
  - intros y Hy. apply lookup_insert_is_Some'. right. by apply H6.
  - intros j Hj. destruct (H7 j Hj) as [? (y & ? & ?)]. split; [done|]. exists y. by rewrite lookup_insert_ne by congruence.
Qed.

Lemma recv_inv_keep cc_r g g' h h' p p' :
  recv_inv cc_r g h p → cc_id_ h' = cc_id_ h → connected_ h' = connected_ h → recv_cache h' = recv_cache h →
  ¬ calls_send p' → sent g' = sent g → popped g' = taken g' ++ pending p' → taken g' = taken g → got g' = got g →
  lost g' = lost g → recv_inv cc_r g' h' p'.
Proof.
  intros [(? & ? & ?) H2 H3 H4 H5 H6 H7] Ec Econn Er Hp Es Ep Et Eg El.
  split; rewrite ?Ec, ?Econn, ?Er, ?Es, ?Eg, ?El; try done; by rewrite Et.
Qed.

(** What the receiver does with the next element of a message: it completes the message
    with the last one, and else adds to its cache.  A block that it cannot map is lost. *)
Definition received (i : Z) (x : info) (j : nat) (refused : bool) (h h' : handle) (ret : option buffer) : Prop :=
  cc_id_ h' = cc_id_ h ∧ connected_ h' = connected_ h ∧
  if refused then
    ret = None ∧ S j = length (elements_of i x) ∧ ∀ k, k ≠ i → recv_cache h' !! k = recv_cache h !! k
  else if decide (S j = length (elements_of i x)) then
    recv_cache h' = delete i (recv_cache h) ∧ ∃ b, ret = Some b ∧ contents b = Some <$> i_data x
  else
    recv_cache h' = <[i := cache_after (i_data x) (Z.of_nat (S j))]> (recv_cache h) ∧ ret = None.

Lemma elements_frag i x k e : i_block x = None → elements_of i x !! k = Some e →
  e = frag (i_conn x) i (i_data x) (Z.of_nat k) ∧ length (elements_of i x) = Z.to_nat (frag_count (i_data x)).
Proof.
  unfold elements_of. intros -> Hk. rewrite length_fmap, length_seqZ. split; [|done].
  apply list_lookup_fmap_Some in Hk as (z & -> & Hz). apply lookup_seqZ in Hz as [-> _]. by rewrite Z.add_0_l.
Qed.

Lemma recv_frag acq i x j h s :
  i_block x = None → 0 < Z.of_nat (length (i_data x)) < 2 ^ 31 → (acc_ok h = true → i_conn x ≠ cc_id_ h) →
  Z.of_nat (size (recv_cache h)) ≤ 1024 →
  (j < length (elements_of i x))%nat → length (elements_of i x) = Z.to_nat (frag_count (i_data x)) →
  recv_cache h !! i = (if decide (0 < j < length (elements_of i x))%nat
    then Some (cache_after (i_data x) (Z.of_nat j)) else None) →
  ∃ ret h', recv_iter acq (frag (i_conn x) i (i_data x) (Z.of_nat j)) h s = Ok (ret, h', s) ∧ received i x j false h h' ret.
Proof.
  intros Hb Hdata Hc Hsize Hj Hlen Hcache. pose proof (frag_count_bounds (i_data x)) as Hcount.
  unfold received. rewrite Hlen in *. destruct (decide (j = 0%nat)) as [->|Hj0].
  - rewrite decide_False in Hcache by lia. destruct (decide (Z.of_nat (length (i_data x)) ≤ 64)) as [Hs|Hs].
    + case_decide; [|lia]. do 2 eexists. split; [by apply recv_only|]. rewrite delete_id by done.
      split_and!; [done..|]. by eexists.
    + case_decide; [lia|]. do 2 eexists. split; [apply recv_first; (done || lia)|].
      unfold gc. rewrite decide_False by lia. done.
  - rewrite decide_True in Hcache by lia. case_decide.
    + do 2 eexists. split; [apply recv_last; (done || lia)|]. split_and!; [done..|]. by eexists.
    + do 2 eexists. split; [apply recv_middle; (done || lia)|]. split_and!; try done.
      cbn [recv_cache set_cache]. by replace (Z.of_nat (S j)) with (Z.of_nat j + 1) by lia.
Qed.

Lemma recv_block acq i x id h s :
  64 < Z.of_nat (length (i_data x)) < 2 ^ 31 → 0 ≤ id < 32 → i_block x = Some id →
  (acc_ok h = true → i_conn x ≠ cc_id_ h) → recv_cache h !! i = None → Z.of_nat (size (recv_cache h)) ≤ 1024 →
  let e := block_msg (i_conn x) i (i_data x) id in
  let b := block_of (calc_cls_size (Z.of_nat (length (i_data x)))) id (cls_ s) in
  receivers b ≠ 0 → take (length (i_data x)) (bytes b) = i_data x →
  ∃ ret h' s', recv_iter acq e h s = Ok (ret, h', s') ∧ received i x 0 (unmapped acq e h s) h h' ret.
Proof.
  intros Hn Hid Hb Hc Hrc Hsize e b Hrec Hdata.
  assert (Htok : unmapped acq e h s = negb (bool_decide ((calc_cls_size (Z.of_nat (length (i_data x))), Some id) ∈ mapped_ h s)
    || acq (mem_name (calc_cls_size (Z.of_nat (length (i_data x)))) id))).
  { unfold unmapped, e. by rewrite tok_block_msg. }
  unfold received. assert (Hlen : length (elements_of i x) = 1%nat) by (unfold elements_of; by rewrite Hb). rewrite Hlen, Htok.
  unfold e. destruct (block_msg_fields (i_conn x) i (i_data x) id Hn Hid) as [-> Hof].
  unfold recv_iter. cbn [conn_ remain_ id_ storage_ data_]. rewrite decide_False by tauto. rewrite Hrc.
  assert (Hrem : u64 (data_length + (Z.of_nat (length (i_data x)) - 64)) = Z.of_nat (length (i_data x))).
  { unfold data_length. rewrite u64_small; lia. }
  rewrite Hrem, decide_False by (unfold data_length; lia). rewrite Hof.
  destruct (find_storage_spec acq id (Z.of_nat (length (i_data x))) (cls_ s) (mapped_ h s) Hid Hrec) as [mp' ->].
  cbn [mbind result_bind]. destruct (_ || _); cbn [mbind result_bind negb]; do 3 eexists; (split; [done|]).
  - rewrite decide_True, delete_id by done. split_and!; [done..|]. eexists. split; [done|]. cbn [contents].
    rewrite Nat2Z.id. fold b. by rewrite Hdata.
  - split_and!; [done..|]. intros k Hk. cbn [recv_cache set_cache]. rewrite lookup_insert_ne by done.
    unfold gc. by rewrite decide_False by lia.
Qed.

(** The effect of an element on what the receiver knows. *)
Lemma recv_inv_take cc_r g g' h h' p' e x ret refused :
  recv_inv cc_r g h (Popped e) → sent g !! id_ e = Some x →
  (length (with_id (id_ e) (taken g)) < length (elements_of (id_ e) x))%nat →
  received (id_ e) x (length (with_id (id_ e) (taken g))) refused h h' ret → ¬ calls_send p' → pending p' = [] →
  sent g' = sent g → popped g' = popped g → taken g' = taken g ++ [e] →
  got g' = got g ++ match ret with Some b => [(id_ e, contents b)] | None => [] end →
  lost g' = (if refused then {[id_ e]} else ∅) ∪ lost g →
  recv_inv cc_r g' h' p'.
Proof.
  intros [(H1 & H1' & _) H2 H3 H4 H5 H6 H7] Hx Hlt (Ecc & Econn & Hret) Hp Hpend Es Epo Et Eg El.
  set (j := length _) in *.
  assert (Hnl : id_ e ∉ lost g). { intros [_ (y & Hy & E)]%H7. assert (y = x) as -> by congruence. unfold j in Hlt. lia. }
  assert (Hthis : length (with_id (id_ e) (taken g')) = S j).
  { rewrite Et, with_id_app, with_id_one, decide_True, length_app by done. cbn. unfold j. lia. }
  assert (Hother : ∀ i, i ≠ id_ e → with_id i (taken g') = with_id i (taken g)).
  { intros i Hi. by rewrite Et, with_id_app, with_id_one, decide_False, app_nil_r. }
  assert (Hgot : ∀ i, i ≠ id_ e → filter (λ y, y.1 = i) (got g') = filter (λ y, y.1 = i) (got g)).
  { intros i Hi. rewrite Eg, filter_app. destruct ret; rewrite ?filter_cons, ?filter_nil, ?decide_False, ?app_nil_r; done. }
  assert (Hcache : ∀ i, i ≠ id_ e → recv_cache h' !! i = recv_cache h !! i).
  { intros i Hi. destruct refused; [by apply Hret|].
    destruct (decide (S j = _)); destruct Hret as [-> _]; by rewrite ?lookup_delete_ne, ?lookup_insert_ne by done. }
  assert (Hlost : ∀ i, i ≠ id_ e → i ∈ lost g' ↔ i ∈ lost g). { intros i Hi. rewrite El. destruct refused; set_solver. }
  assert (Hlost' : id_ e ∈ lost g' ↔ refused = true). { rewrite El. destruct refused; set_solver. }
  split.
  - rewrite Ecc, Econn. done.
  - rewrite Epo, H2, Hpend, app_nil_r. by rewrite Et.
  - intros i y. rewrite Es. intros Hy Hl. destruct (decide (i = id_ e)) as [->|Hi].
    + assert (y = x) as -> by congruence. rewrite Hthis. destruct refused; [by rewrite Hlost' in Hl|].
      destruct (decide (S j = _)) as [E|E]; destruct Hret as [-> _].
      * by rewrite lookup_delete_eq, decide_False by lia.
      * by rewrite lookup_insert_eq, decide_True by lia.
    + rewrite Hcache, Hother by done. apply H3; [done|]. by rewrite <- Hlost.
  - intros i c Hc. rewrite Es. destruct (decide (i = id_ e)) as [->|Hi]; [by exists x|].
    rewrite Hcache in Hc by done. by eapply H4.
  - intros i y. rewrite Es. intros Hy. destruct (decide (i = id_ e)) as [->|Hi].
    2:{ rewrite Hgot, (H5 i y Hy) by done. apply decide_ext. by rewrite Hother, Hlost by done. }
    assert (y = x) as -> by congruence. rewrite Hthis, Eg, filter_app, (H5 _ _ Hy). fold j.
    rewrite (decide_False (P := j = _ ∧ _)) by lia. destruct refused.
    { destruct Hret as [-> _]. rewrite decide_False; [done|]. intros [_ Hn]. by apply Hn, Hlost'. }
    destruct (decide (S j = _)) as [E|E].
    + destruct Hret as [_ (b & -> & Hb)]. rewrite decide_True by (split; [done|by rewrite Hlost']). by rewrite filter_cons, filter_nil, decide_True, Hb.
    + destruct Hret as [_ ->]. rewrite decide_False by (by intros [? _]). done.
  - intros y. rewrite Es, Eg. intros [Hy|Hy]%elem_of_app; [by apply H6|].
    destruct ret; [|by apply elem_of_nil in Hy]. apply list_elem_of_singleton in Hy as ->. by exists x.
  - intros i. rewrite Es. destruct (decide (i = id_ e)) as [->|Hi]; [|rewrite Hlost, Hother by done; apply H7].
    rewrite Hlost'. intros ->. destruct Hret as (_ & E & _). split; [intros E'; by rewrite E' in Hthis|].
    exists x. by rewrite Hthis.
Qed.

(** *** Blocks along the steps *)

Definition sent_le (g g' : log) : Prop :=
  ∀ i x, sent g !! i = Some x → ∃ x', sent g' !! i = Some x' ∧ i_data x' = i_data x.

Lemma flight_frame g g' e :
  (∀ c id, tok_msg e = Some (c, id) → block_of c id (blocks (mach g')) = block_of c id (blocks (mach g))) →
  sent_le g g' → flight g e → flight g' e.
Proof.
  intros Hb Hs Hf c id Ht. destruct (Hf c id Ht) as (Hr & x & Hx & Hd). rewrite (Hb c id Ht). split; [done|].
  destruct (Hs _ _ Hx) as (x' & Hx' & E). exists x'. by rewrite E.
Qed.

Lemma place_frame g g' p :
  (∀ c id, tok p = Some (c, id) → block_of c id (blocks (mach g')) = block_of c id (blocks (mach g))) →
  sent_le g g' → place_sound g p → place_sound g' p.
Proof.
  intros Hb Hs. destruct p as [| | | | | |f data i id|f [|e todo]| | | |e|[b|]| | | |]; try done; cbn [place_sound tok] in *.
  - by rewrite (Hb _ _ eq_refl).
  - by apply flight_frame.
  - by apply flight_frame.
  - intros Hc id size Hl. rewrite Hl in Hb. cbn in Hb. rewrite (Hb _ _ eq_refl). by apply Hc.
Qed.

Lemma content_step g g' m held t n1 h p h' p' s' :
  content_inv g m → owned (mach g) m held → m !! t = Some (n1, (h, p)) →
  effect p (view n1 (mach g)) p' s' → mach g' = put n1 s' (mach g) → sent_le g g' →
  (n1 = n → place_sound g' p') →
  (∀ e, e ∈ c_que (chan g') → e ∈ c_que (chan g) ∨ flight g' e) →
  content_inv g' (<[t := (n1, (h', p'))]> m).
Proof.
  intros [H1 H2] Hown Ht He Hm Hs Hp Hq.
  assert (Hother : ∀ o c id, o ≠ inl t → owner (mach g) m o = Some (c, id) →
    block_of c id (blocks (mach g')) = block_of c id (blocks (mach g))).
  { intros o c id Ho Hid. rewrite Hm. cbn [blocks put]. apply (effect_blocks _ _ _ _ _ _ He). intros E.
    apply Ho. eapply (ow_unique _ _ _ Hown); [done|]. by rewrite (owner_thread _ _ _ _ Ht). }
  split.
  - intros t2 h2 p2 [[Hne Ht2]|[<- [= -> -> ->]]]%at_other; [|by apply Hp].
    apply (place_frame g); [|done|by eapply H1]. intros c id Hid. apply (Hother (inl t2)); [congruence|].
    by rewrite (owner_thread _ _ _ _ Ht2).
  - intros e Hin. destruct (Hq e Hin) as [Hold|?]; [|done]. apply (flight_frame g); [|done|by apply H2].
    intros c id Hid. apply list_elem_of_lookup in Hold as [j Hj]. apply (Hother (inr (n, j))); [done|].
    unfold chan in Hj. cbn. by rewrite Hj.
Qed.

(** *** Every step keeps the invariant *)

Lemma udisconnect_bound cc id : 0 ≤ ConnHead.udisconnect cc id < 2 ^ 32.
Proof. unfold ConnHead.udisconnect. case_decide; [lia|apply u32_bound]. Qed.

Lemma chan_put g n1 s' : chan (set_mach (put n1 s' (mach g)) g) =
  if decide (n1 = n) then {| c_que := que s'; c_cc := cc_ s'; c_acc := acc_ s' |} else chan g.
Proof.
  unfold chan. cbn [mach set_mach]. case_decide; [subst; unfold put; cbn [chans]; by rewrite fn_lookup_insert|by apply chans_put_ne].
Qed.

Lemma sent_le_refl g g' : sent g' = sent g → sent_le g g'.
Proof. intros E i x Hx. exists x. by rewrite E. Qed.

(** A step of a thread of another channel. *)
Lemma inv_elsewhere cc_r g m t n1 h p acq c :
  inv cc_r {| shared := g; pcs := m |} → m !! t = Some (n1, (h, p)) → n1 ≠ n → sized c →
  let k := mnext (acq, c) (n1, (h, p)) (mach g) in
  inv cc_r {| shared := set_mach k.2 g; pcs := <[t := k.1]> m |}.
Proof.
  intros (Hsend & Hrole & (hr & pr & Hr & Hrecv) & Hcont & held & Hown) Ht Hne Hsized k. cbn [shared pcs] in *.
  destruct (owned_step _ _ _ _ _ (acq, c) Hown Ht Hsized) as [held' Hown'].
  pose proof (next_effect acq c h p (view n1 (mach g)) (ow_well _ _ _ Hown _ _ Ht)) as He.
  unfold k, mnext in *. cbn [fst snd] in *. destruct (next acq c (h, p) (view n1 (mach g))) as [[h' p'] s']. cbn [fst snd] in *.
  pose proof (chan_put g n1 s') as Hchan. rewrite decide_False in Hchan by done.
  pose proof (at_elsewhere m t n1 h p h' p' Ht Hne) as Hat.
  split_and!; cbn [shared pcs].
  - apply (send_inv_same g _ m); rewrite ?Hchan; try done; try apply Hsend.
  - destruct Hrole as [H1 H2]. split; [done|]. intros t2 h2 p2 H'%Hat. by eapply H2.
  - exists hr, pr. split; [by apply Hat|]. by destruct Hrecv.
  - eapply content_step; try done; [by apply sent_le_refl|]. intros e. rewrite Hchan. auto.
  - by exists held'.
Qed.

Definition same_handle (h h' : handle) : Prop :=
  cc_id_ h' = cc_id_ h ∧ connected_ h' = connected_ h ∧ recv_cache h' = recv_cache h.

(** A step of a thread of the channel, from what it does to the parts of the invariant. *)
Lemma inv_acting cc_r g g' m t h p h' p' acq c s' :
  inv cc_r {| shared := g; pcs := m |} → at_ m t h p → sized c →
  next acq c (h, p) (view n (mach g)) = ((h', p'), s') → mach g' = put n s' (mach g) →
  send_inv g' (<[t := (n, (h', p'))]> m) → role_inv cc_r g' (<[t := (n, (h', p'))]> m) →
  (∃ h2 p2, at_ (<[t := (n, (h', p'))]> m) r h2 p2 ∧ recv_inv cc_r g' h2 p2) →
  sent_le g g' → place_sound g' p' → (∀ e, e ∈ que s' → e ∈ c_que (chan g) ∨ flight g' e) →
  inv cc_r {| shared := g'; pcs := <[t := (n, (h', p'))]> m |}.
Proof.
  intros (_ & _ & _ & Hcont & held & Hown) Ht Hsized E Hm Hsend Hrole Hrecv Hle Hp Hq. cbn [shared pcs] in *.
  destruct (owned_step _ _ _ _ _ (acq, c) Hown Ht Hsized) as [held' Hown'].
  pose proof (next_effect acq c h p (view n (mach g)) (ow_well _ _ _ Hown _ _ Ht)) as He. rewrite E in He.
  unfold mnext in Hown'. cbn [fst snd] in *. rewrite E in Hown'. cbn [fst snd] in *.
  split_and!; cbn [shared pcs]; [done..| |exists held'; by rewrite Hm].
  eapply content_step; try done. intros e. unfold chan at 1. rewrite Hm. unfold put. cbn [chans].
  rewrite fn_lookup_insert. apply Hq.
Qed.

(** Steps outside of a message. *)
Lemma inv_quiet cc_r g m t h p h' p' acq c s' :
  inv cc_r {| shared := g; pcs := m |} → at_ m t h p → sized c →
  next acq c (h, p) (view n (mach g)) = ((h', p'), s') →
  same_handle h h' → message p = None → message p' = None →
  que s' = c_que (chan g) → acc_ s' = c_acc (chan g) → 0 ≤ cc_ s' < 2 ^ 32 →
  (t = r → ¬ calls_send p' ∧ pending p' = pending p) → (t ≠ r → ¬ receiving p') →
  place_sound (set_mach (put n s' (mach g)) g) p' →
  inv cc_r {| shared := set_mach (put n s' (mach g)) g; pcs := <[t := (n, (h', p'))]> m |}.
Proof.
  intros Hinv Ht Hsized E (Ec & Econn & Er) Hp Hp' Hq Ha Hcc Hrt Hst Hsound.
  pose proof Hinv as (Hsend & Hrole & (hr & pr & Hr & Hrecv) & _). cbn [shared pcs] in *.
  eapply inv_acting; try done.
  - apply (send_inv_same g _ m); rewrite ?chan_put, ?decide_True by done; cbn [c_que c_acc c_cc]; try done.
    + rewrite Hq. apply Hsend.
    + by eapply at_keep.
  - eapply role_inv_keep; [done|done|by left|done..].
  - destruct (decide (t = r)) as [->|Hne].
    + assert (hr = h ∧ pr = p) as [-> ->] by (unfold at_ in *; by simplify_eq). destruct (Hrt eq_refl) as [? Hpend].
      exists h', p'. split; [apply at_insert|]. eapply recv_inv_keep; try done. cbn [popped taken set_mach]. rewrite Hpend. apply Hrecv.
    + exists hr, pr. split; [by apply at_insert_ne|]. by destruct Hrecv.
  - by apply sent_le_refl.
  - intros e. rewrite Hq. auto.
Qed.

Lemma calls_send_receiving p : calls_send p → ¬ receiving p.
Proof. destruct p; cbn; tauto. Qed.

Lemma place_quiet g p : message p = None → ¬ receiving p → place_sound g p.
Proof. by destruct p as [| | | | | | |? []| | | | |[]| | | |]. Qed.

Lemma not_receiver cc_r g m t h p :
  inv cc_r {| shared := g; pcs := m |} → at_ m t h p → calls_send p → t ≠ r.
Proof.
  intros (_ & _ & (hr & pr & Hr & Hrecv) & _) Ht Hp ->. cbn [shared pcs] in *.
  assert (pr = p) as -> by (unfold at_ in *; by simplify_eq). by destruct (ri_conn _ _ _ _ Hrecv) as (_ & _ & []).
Qed.

(** *** A send *)

Lemma fragments_work g h f data i :
  0 < Z.of_nat (length data) < 2 ^ 31 →
  sent g !! i = Some {| i_data := data; i_conn := cc_id_ h; i_block := None |} → with_id i (pushed g) = [] → i ∉ failed g →
  message (Sending f (fragments (cc_id_ h) i data)) = Some i ∧ working g h (Sending f (fragments (cc_id_ h) i data)) ∧
  place_sound g (Sending f (fragments (cc_id_ h) i data)).
Proof.
  intros Hn Hs Hw Hf. pose proof (tok_fragments (cc_id_ h) i data Hn) as Htok. rewrite elements_fragments in * by lia.
  set (x := {| i_data := data; i_conn := cc_id_ h; i_block := None |}) in *.
  pose proof (elements_nonempty i x (proj1 Hn)) as Hne.
  destruct (elements_of i x) as [|e todo] eqn:E; [done|]. assert (Hid : id_ e = i) by (apply (elements_id i x); rewrite E; left).
  cbn. rewrite Hid. split_and!; [done| |].
  - exists x. by rewrite Hw, E.
  - apply Forall_cons in Htok as [Htok _]. intros c id Ht. congruence.
Qed.

(** A step within one message, of a thread that is not the receiver. *)
Lemma inv_message cc_r g m t h p h' p' acq c s' i x :
  inv cc_r {| shared := g; pcs := m |} → at_ m t h p → sized c →
  next acq c (h, p) (view n (mach g)) = ((h', p'), s') → same_handle h h' → calls_send p → calls_send p' →
  message p = Some i ∨ message p = None ∧ i = c_acc (chan g) → message p' = Some i →
  que s' = c_que (chan g) → cc_ s' = c_cc (chan g) →
  (message p = Some i → with_id i (pushed g) = [] ∧ (i ∉ failed g) ∧ acc_ s' = c_acc (chan g) ∧
     ∃ y, sent g !! i = Some y ∧ i_data y = i_data x) →
  (message p = None → acc_ s' = c_acc (chan g) + 1) →
  i_conn x = cc_id_ h → 0 < Z.of_nat (length (i_data x)) < 2 ^ 31 →
  (∀ id, i_block x = Some id → 64 < Z.of_nat (length (i_data x)) ∧ 0 ≤ id < 32) →
  let g' := set_mach (put n s' (mach g)) (log_sent i x g) in
  (with_id i (pushed g) = [] → i ∉ failed g → working g' h' p') → place_sound g' p' →
  inv cc_r {| shared := g'; pcs := <[t := (n, (h', p'))]> m |}.
Proof.
  intros Hinv Ht Hsized E (Ec & Econn & Er) Hcs Hcs' Hp Hp' Hq Hcc Hold Hnew Hconn Hdata Hblock g' Hwork Hsound.
  pose proof (not_receiver _ _ _ _ _ _ Hinv Ht Hcs) as Hne.
  pose proof Hinv as (Hsend & Hrole & (hr & pr & Hr & Hrecv) & _). cbn [shared pcs] in *.
  assert (Hfresh : message p = None → sent g !! i = None).
  { intros Hnone. destruct Hp as [Hp|[_ ->]]; [congruence|]. destruct (sent g !! _) as [y|] eqn:Ey; [|done].
    apply (si_ids _ _ Hsend) in Ey. rewrite (si_acc _ _ Hsend) in Ey. lia. }
  assert (Hw : with_id i (pushed g) = [] ∧ i ∉ failed g).
  { destruct Hp as [Hp|[Hp _]]; [by destruct (Hold Hp) as (? & ? & _)|]. specialize (Hfresh Hp). split.
    - apply with_id_none. intros e He Hid. apply (si_known _ _ Hsend) in He as [y Hy]. congruence.
    - intros [y Hy]%(si_failed _ _ Hsend). congruence. }
  destruct Hw as [Hw Hf].
  assert (Htaken : with_id i (taken g) = []).
  { rewrite (si_que _ _ Hsend), (ri_taken _ _ _ _ Hrecv), !with_id_app in Hw. by apply app_eq_nil in Hw as [[? _]%app_eq_nil _]. }
  assert (Hchan : chan g' = {| c_que := que s'; c_cc := cc_ s'; c_acc := acc_ s' |}).
  { unfold chan, g'. cbn [mach set_mach]. unfold put. cbn [chans]. by rewrite fn_lookup_insert. }
  assert (Hsize : acc_ s' = Z.of_nat (size (sent g')) ∧ 0 ≤ i < Z.of_nat (size (sent g')) ∧
    Z.of_nat (size (sent g)) ≤ Z.of_nat (size (sent g'))).
  { cbn [sent g' log_sent set_mach]. pose proof (si_acc _ _ Hsend) as Hacc. destruct (message p) as [j|] eqn:Ep.
    - destruct Hp as [[= ->]|[? _]]; [|done]. destruct (Hold eq_refl) as (_ & _ & Ha & y & Hy & _).
      rewrite map_size_insert_Some by (by exists y). apply (si_ids _ _ Hsend) in Hy. lia.
    - destruct Hp as [?|[_ Hi]]; [done|]. rewrite map_size_insert_None by (by apply Hfresh). specialize (Hnew eq_refl). lia. }
  destruct Hsize as (Hacc & Hi & Hsize).
  eapply inv_acting; try done.
  - apply (send_inv_at g g' m t h p h' p' i x); rewrite ?Hchan; cbn [c_que c_acc c_cc]; try done.
    + destruct Hp as [?|[? _]]; [by left|right; auto].
    + by left.
    + rewrite Hq. apply Hsend.
    + rewrite Hcc. apply Hsend.
    + intros j Hj. cbn [sent g' log_sent set_mach pushed failed]. by rewrite lookup_insert_ne.
    + intros e He. by left.
    + cbn. by rewrite lookup_insert_eq.
    + cbn [pushed g' log_sent set_mach]. rewrite Hw. apply prefix_nil.
    + by right.
    + by apply Hwork.
  - eapply role_inv_keep; try done; [|by intros _; apply calls_send_receiving].
    intros j y. cbn. intros [[<- <-]|[_ ?]]%lookup_insert_Some; [by right|by left].
  - exists hr, pr. split; [by apply at_insert_ne|]. eapply (recv_inv_sent cc_r g g' hr pr i x); try done.
    + destruct (sent g !! i) as [y|] eqn:Ey; [right|by left]. exists y. split; [done|]. apply elements_nonempty.
      by destruct (si_data _ _ Hsend _ _ Ey).
    + apply elements_nonempty, Hdata.
  - intros j y Hy. cbn. destruct (decide (j = i)) as [->|Hj]; [|rewrite lookup_insert_ne by done; eauto].
    rewrite lookup_insert_eq. exists x. split; [done|]. destruct (message p) as [k|] eqn:Ep.
    + destruct Hp as [[= ->]|[? _]]; [|done]. destruct (Hold eq_refl) as (_ & _ & _ & z & Hz & Ez). congruence.
    + rewrite Hfresh in Hy; done.
  - intros e. rewrite Hq. auto.
Qed.

Lemma log_sent_id i x g : sent g !! i = Some x → log_sent i x g = g.
Proof. intros Hx. unfold log_sent. rewrite insert_id by done. by destruct g. Qed.

Lemma same_refl h : same_handle h h.
Proof. done. Qed.

(** The message keeps its id while its thread looks for a block. *)
Lemma inv_within cc_r g m t h p p' acq c s' i data :
  inv cc_r {| shared := g; pcs := m |} → at_ m t h p → sized c →
  next acq c (h, p) (view n (mach g)) = ((h, p'), s') → calls_send p → calls_send p' →
  message p = Some i → message p' = Some i →
  sent g !! i = Some {| i_data := data; i_conn := cc_id_ h; i_block := None |} → with_id i (pushed g) = [] → i ∉ failed g →
  que s' = c_que (chan g) → cc_ s' = c_cc (chan g) → acc_ s' = c_acc (chan g) → 0 < Z.of_nat (length data) < 2 ^ 31 →
  working g h p' → place_sound (set_mach (put n s' (mach g)) g) p' →
  inv cc_r {| shared := set_mach (put n s' (mach g)) g; pcs := <[t := (n, (h, p'))]> m |}.
Proof.
  intros Hinv Ht Hsized E Hcs Hcs' Hp Hp' Hx Hw Hf Hq Hcc Ha Hn Hwork Hsound.
  pose (x := {| i_data := data; i_conn := cc_id_ h; i_block := None |}).
  pose proof (inv_message cc_r g m t h p h p' acq c s' i x Hinv Ht Hsized E (same_refl h) Hcs Hcs') as H.
  rewrite (log_sent_id i x) in H by done. apply H; try done; [by left| |congruence].
  intros _. split_and!; [done..|]. by exists x.
Qed.

Lemma chans_view g : que (view n (mach g)) = c_que (chan g) ∧ cc_ (view n (mach g)) = c_cc (chan g) ∧
  acc_ (view n (mach g)) = c_acc (chan g) ∧ cls_ (view n (mach g)) = blocks (mach g).
Proof. done. Qed.

Lemma fragments_within cc_r g m t h p acq c s' f i data :
  inv cc_r {| shared := g; pcs := m |} → at_ m t h p → sized c →
  next acq c (h, p) (view n (mach g)) = send_fragments f data i h s' → calls_send p → message p = Some i →
  sent g !! i = Some {| i_data := data; i_conn := cc_id_ h; i_block := None |} → with_id i (pushed g) = [] → i ∉ failed g →
  que s' = c_que (chan g) → cc_ s' = c_cc (chan g) → acc_ s' = c_acc (chan g) → 0 < Z.of_nat (length data) < 2 ^ 31 →
  let k := next acq c (h, p) (view n (mach g)) in
  inv cc_r {| shared := set_mach (put n k.2 (mach g)) g; pcs := <[t := (n, k.1)]> m |}.
Proof.
  intros Hinv Ht Hsized E Hcs Hp Hx Hw Hf Hq Hcc Ha Hn k. unfold k. rewrite E.
  destruct (fragments_work g h f data i Hn Hx Hw Hf) as (Hm & Hwork & _).
  destruct (fragments_work (set_mach (put n s' (mach g)) g) h f data i Hn Hx Hw Hf) as (_ & _ & Hsound).
  by eapply (inv_within cc_r g m t h p _ acq c s' i data).
Qed.

Lemma inv_number cc_r g m t h f data acq c :
  inv cc_r {| shared := g; pcs := m |} → at_ m t h (Checked f data) → sized c →
  let k := next acq c (h, Checked f data) (view n (mach g)) in
  let i := c_acc (chan g) in
  let x := {| i_data := data; i_conn := cc_id_ h; i_block := None |} in
  Z.of_nat (size (<[i := x]> (sent g))) < 2 ^ 32 →
  inv cc_r {| shared := set_mach (put n k.2 (mach g)) (log_sent i x g); pcs := <[t := (n, k.1)]> m |}.
Proof.
  intros Hinv Ht Hsized k i x Hsize. pose proof Hinv as (Hsend & _ & _ & _ & held & Hown). cbn [shared pcs] in *.
  pose proof (ow_well _ _ _ Hown _ _ Ht) as Hn. cbn [snd well] in Hn.
  assert (Hacc : u32 (i + 1) = i + 1).
  { rewrite map_size_insert_None in Hsize.
    - pose proof (si_acc _ _ Hsend). apply u32_small. unfold i in *. lia.
    - destruct (sent g !! i) as [y|] eqn:Ey; [|done]. apply (si_ids _ _ Hsend) in Ey. pose proof (si_acc _ _ Hsend). unfold i in *. lia. }
  assert (E : next acq c (h, Checked f data) (view n (mach g)) = k) by done.
  assert (Hgo : ∀ p' s', k = ((h, p'), s') → s' = set_acc (u32 (i + 1)) (view n (mach g)) → calls_send p' → message p' = Some i →
    (sent (log_sent i x g) !! i = Some x → with_id i (pushed g) = [] → i ∉ failed g →
      working (set_mach (put n s' (mach g)) (log_sent i x g)) h p' ∧ place_sound (set_mach (put n s' (mach g)) (log_sent i x g)) p') →
    place_sound (set_mach (put n s' (mach g)) (log_sent i x g)) p' →
    inv cc_r {| shared := set_mach (put n k.2 (mach g)) (log_sent i x g); pcs := <[t := (n, k.1)]> m |}).
  { intros p' s' Ek -> Hcs Hm Hwork Hsound. rewrite Ek in E |- *. cbn [fst snd].
    eapply (inv_message cc_r g m t h _ h p' acq c _ i x); try done; [by right|].
    intros Hw Hf. apply Hwork; [|done..]. cbn. by rewrite lookup_insert_eq. }
  unfold k, next in *. cbn [fst snd] in *. unfold next_number in *. destruct (chans_view g) as (_ & _ & Ea & _). rewrite Ea in *. fold i in E, Hgo |- *.
  case_decide as Hlarge.
  - by eapply Hgo.
  - assert (Hlook : sent (log_sent i x g) !! i = Some x) by (cbn; by rewrite lookup_insert_eq).
    pose proof (λ M Hw Hf, fragments_work (set_mach M (log_sent i x g)) h f data i Hn Hlook Hw Hf) as Hfrag.
    assert (Hm : message (Sending f (fragments (cc_id_ h) i data)) = Some i).
    { rewrite elements_fragments by lia. pose proof (elements_nonempty i x (proj1 Hn)) as Hne. fold x.
      destruct (elements_of i x) as [|e todo] eqn:Ee; [done|]. cbn. f_equal. apply (elements_id i x). rewrite Ee. left. }
    eapply Hgo; try done; [intros _ Hw Hf; by apply Hfrag|].
    destruct (fragments (cc_id_ h) i data) as [|e todo] eqn:Ee; [done|]. intros c0 id Htok.
    pose proof (tok_fragments (cc_id_ h) i data Hn) as Hall. rewrite Ee in Hall. apply Forall_cons in Hall as [Hall _]. congruence.
Qed.

Lemma inv_apply cc_r g m t h f data i acq c :
  inv cc_r {| shared := g; pcs := m |} → at_ m t h (Numbered f data i) → sized c →
  let k := next acq c (h, Numbered f data i) (view n (mach g)) in
  inv cc_r {| shared := set_mach (put n k.2 (mach g)) g; pcs := <[t := (n, k.1)]> m |}.
Proof.
  intros Hinv Ht Hsized k. pose proof Hinv as (Hsend & _ & _ & _ & held & Hown). cbn [shared pcs] in *.
  pose proof (ow_well _ _ _ Hown _ _ Ht) as Hn. cbn [snd well] in Hn.
  destruct (si_work _ _ Hsend _ _ _ Ht) as (Hx & Hw & Hf). pose proof (si_cc _ _ Hsend) as Hcc.
  assert (E : k = next_apply acq f data i h (view n (mach g))) by done. unfold next_apply in E. cbn [cc_ view] in E.
  case_decide as Hzero.
  - eapply fragments_within; try done. lia.
  - destruct (cls_storage_info _ _ _) as [[] mp].
    + unfold k in *. rewrite E. eapply inv_within; try done; [lia|]. unfold chan in Hcc. cbn. lia.
    + eapply fragments_within; try done. lia.
Qed.

Lemma inv_acquire cc_r g m t h f data i kk acq c :
  inv cc_r {| shared := g; pcs := m |} → at_ m t h (Applying f data i kk) → sized c →
  let k := next acq c (h, Applying f data i kk) (view n (mach g)) in
  inv cc_r {| shared := set_mach (put n k.2 (mach g)) g; pcs := <[t := (n, k.1)]> m |}.
Proof.
  intros Hinv Ht Hsized k. pose proof Hinv as (Hsend & _ & _ & Hcont & held & Hown). cbn [shared pcs] in *.
  pose proof (ow_well _ _ _ Hown _ _ Ht) as Hn. cbn [snd well] in Hn.
  destruct (si_work _ _ Hsend _ _ _ Ht) as (Hx & Hw & Hf). pose proof (ci_place _ _ Hcont _ _ _ Ht) as Hk.
  assert (E : k = next_acquire f data i kk h (view n (mach g))) by done. unfold next_acquire in E. cbn [cls_ view] in E.
  destruct (acquire_id_spec (calc_cls_size (Z.of_nat (length data))) _ _ (ow_pools _ _ _ Hown)) as (id & q & ids & Ha & _).
  rewrite Ha in E. unfold k in *. rewrite E. eapply inv_within; try done. lia.
Qed.

Lemma inv_count cc_r g m t h f data i kk id acq c :
  inv cc_r {| shared := g; pcs := m |} → at_ m t h (Acquired f data i kk id) → sized c →
  let k := next acq c (h, Acquired f data i kk id) (view n (mach g)) in
  inv cc_r {| shared := set_mach (put n k.2 (mach g)) g; pcs := <[t := (n, k.1)]> m |}.
Proof.
  intros Hinv Ht Hsized k. pose proof Hinv as (Hsend & _ & _ & Hcont & held & Hown). cbn [shared pcs] in *.
  pose proof (ow_well _ _ _ Hown _ _ Ht) as Hn. cbn [snd well] in Hn.
  destruct (si_work _ _ Hsend _ _ _ Ht) as (Hx & Hw & Hf). pose proof (ci_place _ _ Hcont _ _ _ Ht) as Hk.
  assert (E : k = next_count acq f data i kk id h (view n (mach g))) by done. unfold next_count in E.
  destruct (cls_storage_mem acq _ id _) as [[[] mp]|x] eqn:Hmem.
  - unfold k in *. rewrite E. eapply inv_within; try done; [lia|]. cbn. unfold store_count.
    rewrite block_of_set_block, decide_True by done. cbn in *. rewrite u32_small; lia.
  - eapply fragments_within; try done. lia.
  - exfalso. destruct (decide (id = invalid_value)) as [Hid|Hid].
    + unfold cls_storage_mem in Hmem. by rewrite decide_True in Hmem.
    + assert (id ∈ held (calc_cls_size (Z.of_nat (length data)))) as Hin.
      { apply (ow_held _ _ _ Hown (inl t)). rewrite (owner_thread _ _ _ _ Ht). cbn. by rewrite decide_False. }
      destruct (cls_storage_mem_spec acq (calc_cls_size (Z.of_nat (length data))) id (mapped_ h (view n (mach g)))) as [mp E'];
        [by eapply held_range; [apply Hown|]|]. congruence.
Qed.

Lemma inv_copy cc_r g m t h f data i id acq c :
  inv cc_r {| shared := g; pcs := m |} → at_ m t h (Counted f data i id) → sized c →
  let k := next acq c (h, Counted f data i id) (view n (mach g)) in
  let x := {| i_data := data; i_conn := cc_id_ h; i_block := Some id |} in
  inv cc_r {| shared := set_mach (put n k.2 (mach g)) (log_sent i x g); pcs := <[t := (n, k.1)]> m |}.
Proof.
  intros Hinv Ht Hsized k x. pose proof Hinv as (Hsend & _ & _ & Hcont & held & Hown). cbn [shared pcs] in *.
  pose proof (ow_well _ _ _ Hown _ _ Ht) as [Hn Hid]. cbn [snd] in *.
  destruct (si_work _ _ Hsend _ _ _ Ht) as (Hx & Hw & Hf). pose proof (ci_place _ _ Hcont _ _ _ Ht) as Hk. cbn in Hk.
  assert (E : k = next_copy f data i id h (view n (mach g))) by done. unfold next_copy in E.
  set (s' := set_cls _ _) in E. unfold k in *. rewrite E. cbn [fst snd].
  eapply (inv_message cc_r g m t h _ h (Sending f [block_msg (cc_id_ h) i data id]) acq c s' i x); try done.
  - by left.
  - intros _. split_and!; [done..|]. by eexists.
  - cbn. lia.
  - intros id' [= <-]. cbn. lia.
  - intros _ _. exists x. cbn. rewrite lookup_insert_eq, Hw. done.
  - intros c0 id0. rewrite tok_block_msg by done. intros [= <- <-]. cbn [mach set_mach blocks put s' set_cls cls_ sent log_sent id_ block_msg make_msg].
    unfold write_block. rewrite block_of_set_block, decide_True by done. cbn [receivers bytes]. split; [done|].
    exists x. rewrite lookup_insert_eq. split; [done|]. cbn [i_data x]. by rewrite take_app_length.
Qed.

(** A push, and one that times out. *)
Lemma inv_push cc_r g m t h f e todo acq c :
  inv cc_r {| shared := g; pcs := m |} → at_ m t h (Sending f (e :: todo)) → sized c →
  next acq c (h, Sending f (e :: todo)) (view n (mach g)) =
    ((h, Sending f todo), set_que (c_que (chan g) ++ [e]) (view n (mach g))) →
  inv cc_r {| shared := set_mach (put n (set_que (c_que (chan g) ++ [e]) (view n (mach g))) (mach g)) (log_pushed e g);
              pcs := <[t := (n, (h, Sending f todo))]> m |}.
Proof.
  intros Hinv Ht Hsized E. pose proof (not_receiver _ _ _ _ _ _ Hinv Ht I) as Hne.
  pose proof Hinv as (Hsend & Hrole & (hr & pr & Hr & Hrecv) & Hcont & held & Hown). cbn [shared pcs] in *.
  pose proof (ow_well _ _ _ Hown _ _ Ht) as Hwell. cbn [snd] in Hwell.
  destruct (si_work _ _ Hsend _ _ _ Ht) as (x & Hx & Hel & Hf).
  assert (Htodo : ∀ e' todo', todo = e' :: todo' → id_ e' = id_ e).
  { intros e' todo' ->. apply (elements_id _ x). rewrite Hel. set_solver. }
  set (g' := set_mach _ _).
  assert (Hthis : with_id (id_ e) (pushed g') = with_id (id_ e) (pushed g) ++ [e]).
  { cbn [pushed g' set_mach log_pushed]. by rewrite with_id_app, with_id_one, decide_True. }
  assert (Hchan : chan g' = {| c_que := c_que (chan g) ++ [e]; c_cc := c_cc (chan g); c_acc := c_acc (chan g) |}).
  { unfold chan, g'. cbn [mach set_mach]. unfold put. cbn [chans]. by rewrite fn_lookup_insert. }
  eapply inv_acting; try done.
  - apply (send_inv_at g g' m t h (Sending f (e :: todo)) h (Sending f todo) (id_ e) x); rewrite ?Hchan; cbn [c_que c_acc c_cc]; try done.
    + by left.
    + destruct todo as [|e' todo']; [by right|left]. cbn. by rewrite (Htodo e' todo').
    + cbn [pushed popped g' set_mach log_pushed]. rewrite (si_que _ _ Hsend). by rewrite <- app_assoc.
    + apply Hsend.
    + apply Hsend.
    + intros j Hj. cbn [sent pushed failed g' set_mach log_pushed]. by rewrite with_id_app, with_id_one, decide_False, app_nil_r by done.
    + intros e'. cbn. intros [?| ->%list_elem_of_singleton]%elem_of_app; auto.
    + by eapply Hsend.
    + by eapply Hsend.
    + intros id Hid. by eapply Hsend.
    + rewrite Hthis, Hel. exists todo. by rewrite <- app_assoc.
    + intros _. rewrite Hthis, Hel. destruct todo as [|e' todo']; [by left|right]. cbn. by rewrite (Htodo e' todo').
    + destruct todo as [|e' todo']; [done|]. cbn [working]. rewrite (Htodo e' todo') by done. exists x. rewrite Hthis, Hel, <- app_assoc. done.
  - eapply role_inv_keep; try done; [by left|by intros _ []].
  - exists hr, pr. split; [by apply at_insert_ne|]. by destruct Hrecv.
  - by apply sent_le_refl.
  - destruct todo as [|e' todo']; [done|]. intros c0 id Htok.
    destruct Hwell as [[? [=]]|Hall]. apply Forall_cons in Hall as [_ Hall]. apply Forall_cons in Hall as [Hall _]. congruence.
  - intros e' [?| ->%list_elem_of_singleton]%elem_of_app; [by left|right].
    apply (flight_frame g); [done|by apply sent_le_refl|]. exact (ci_place _ _ Hcont _ _ _ Ht).
Qed.

Lemma inv_timeout cc_r g m t h f e todo :
  inv cc_r {| shared := g; pcs := m |} → at_ m t h (Sending f (e :: todo)) →
  let p' := if f then Forcing else Sent false in
  inv cc_r {| shared := set_mach (put n (view n (mach g)) (mach g)) (log_failed (id_ e) g);
              pcs := <[t := (n, (h, p'))]> m |}.
Proof.
  intros Hinv Ht p'. pose proof (not_receiver _ _ _ _ _ _ Hinv Ht I) as Hne.
  pose proof Hinv as (Hsend & Hrole & (hr & pr & Hr & Hrecv) & Hcont & held & Hown). cbn [shared pcs] in *.
  destruct (si_work _ _ Hsend _ _ _ Ht) as (x & Hx & Hel & Hf). set (g' := set_mach _ _).
  assert (Hchan : chan g' = chan g).
  { unfold chan, g'. cbn [mach set_mach]. unfold put. cbn [chans]. rewrite fn_lookup_insert. unfold view. cbn. by destruct (chans (mach g) n). }
  assert (Hm : message p' = None ∧ ¬ receiving p' ∧ working g' h p' ∧ place_sound g' p') by (unfold p'; destruct f; (split_and!; [done|by intros []|done|done])).
  destruct Hm as (Hm & Hrec & Hwork & Hsound).
  eapply (inv_acting _ _ _ _ _ _ _ _ _ (λ _, true) Timeout); try done.
  - apply (send_inv_at g g' m t h (Sending f (e :: todo)) h p' (id_ e) x); rewrite ?Hchan; try done; try (by eapply Hsend).
    + by left.
    + by right.
    + intros j Hj. cbn [sent pushed failed g' set_mach log_failed]. set_solver.
    + intros e'. by left.
    + intros id Hid. by eapply Hsend.
    + intros []. cbn. set_solver.
  - eapply role_inv_keep; try done. by left.
  - exists hr, pr. split; [by apply at_insert_ne|]. by destruct Hrecv.
  - by apply sent_le_refl.
  - intros e'. by left.
Qed.

(** *** The receiver *)

Lemma receiver_only cc_r g m t h p :
  inv cc_r {| shared := g; pcs := m |} → at_ m t h p → receiving p →
  t = r ∧ cc_r = cc_id_ h ∧ recv_inv cc_r g h p.
Proof.
  intros (_ & Hrole & (hr & pr & Hr & Hrecv) & _) Ht Hp. cbn [shared pcs] in *.
  destruct (decide (t = r)) as [->|Hne]; [|by destruct (oi_sender _ _ _ Hrole t h p Ht Hne) as (_ & _ & [])].
  assert (hr = h ∧ pr = p) as [-> ->] by (unfold at_ in *; by simplify_eq). split_and!; [done| |done].
  by destruct (ri_conn _ _ _ _ Hrecv) as (_ & <- & _).
Qed.

Lemma inv_pop cc_r g m t h e q acq c :
  inv cc_r {| shared := g; pcs := m |} → at_ m t h Receiving → sized c → c_que (chan g) = e :: q →
  next acq c (h, Receiving) (view n (mach g)) = ((h, Popped e), set_que q (view n (mach g))) →
  inv cc_r {| shared := set_mach (put n (set_que q (view n (mach g))) (mach g)) (log_popped e g);
              pcs := <[t := (n, (h, Popped e))]> m |}.
Proof.
  intros Hinv Ht Hsized Hq E. destruct (receiver_only _ _ _ _ _ _ Hinv Ht I) as (-> & -> & Hrecv).
  pose proof Hinv as (Hsend & Hrole & _ & Hcont & _). cbn [shared pcs] in *. set (g' := set_mach _ _).
  assert (Hchan : chan g' = {| c_que := q; c_cc := c_cc (chan g); c_acc := c_acc (chan g) |}).
  { unfold chan, g'. cbn [mach set_mach]. unfold put. cbn [chans]. by rewrite fn_lookup_insert. }
  eapply inv_acting; try done.
  - apply (send_inv_same g _ m); rewrite ?Hchan; try done; try apply Hsend; [|by eapply at_keep].
    cbn [pushed popped g' set_mach log_popped c_que]. rewrite (si_que _ _ Hsend), Hq. by rewrite <- app_assoc.
  - eapply role_inv_keep; try done. by left.
  - exists h, (Popped e). split; [apply at_insert|]. eapply recv_inv_keep; try done; [by intros []|].
    cbn [popped taken g' set_mach log_popped pending]. by rewrite (ri_taken _ _ _ _ Hrecv), app_nil_r.
  - by apply sent_le_refl.
  - apply (flight_frame g); [done|by apply sent_le_refl|]. apply (ci_queue _ _ Hcont). rewrite Hq. left.
  - intros e' He'. left. rewrite Hq. by right.
Qed.

Lemma recv_iter_contents acq e h s b h' s' id size :
  recv_iter acq e h s = Ok (Some b, h', s') → lent b = Some (id, size) →
  contents b = Some <$> take (Z.to_nat size) (bytes (block_of (calc_cls_size size) id (cls_ s))).
Proof.
  unfold recv_iter. case_decide; [done|]. destruct (recv_cache h !! id_ e).
  { case_decide; [|done]. by intros [= <- _ _]. }
  case_decide; [by intros [= <- _ _]|]. destruct (storage_ e); [|done].
  destruct (find_storage _ _ _ _ _) as [[[buf|] mp]|] eqn:E; try done. cbn. intros [= <- _ _]. cbn. intros [= <- <-].
  unfold find_storage in E. destruct (cls_storage_mem _ _ _ _) as [[[] mp']|]; try done. cbn in E. by case_decide; simplify_eq.
Qed.

(** The receiver looks at an element. *)
Lemma recv_step cc_r g m h e acq :
  inv cc_r {| shared := g; pcs := m |} → at_ m r h (Popped e) → Z.of_nat (size (recv_cache h)) ≤ 1024 →
  let s := view n (mach g) in
  ∃ x ret h' s', sent g !! id_ e = Some x ∧
    (length (with_id (id_ e) (taken g)) < length (elements_of (id_ e) x))%nat ∧
    recv_iter acq e h s = Ok (ret, h', s') ∧
    received (id_ e) x (length (with_id (id_ e) (taken g))) (unmapped acq e h s) h h' ret.
Proof.
  intros Hinv Ht Hcrowd s. destruct (receiver_only _ _ _ _ _ _ Hinv Ht I) as (_ & -> & Hrecv).
  pose proof Hinv as (Hsend & Hrole & _ & Hcont & held & Hown). cbn [shared pcs] in *.
  destruct (next_element g m h e _ Hsend Hrecv) as (x & Hx & Hel & Hlt). exists x.
  pose proof (si_data _ _ Hsend _ _ Hx) as Hdata. pose proof (oi_conn _ _ _ Hrole _ _ Hx) as Hconn.
  assert (Hnl : id_ e ∉ lost g).
  { intros [_ (y & Hy & E)]%(ri_lost _ _ _ _ Hrecv). assert (y = x) as -> by congruence. lia. }
  pose proof (ri_cache _ _ _ _ Hrecv _ _ Hx Hnl) as Hcache. cbn zeta in Hcache.
  destruct (i_block x) as [id|] eqn:Hblock.
  - destruct (si_block _ _ Hsend _ _ _ Hx Hblock) as [Hlarge Hid].
    assert (Hels : elements_of (id_ e) x = [block_msg (i_conn x) (id_ e) (i_data x) id]) by (unfold elements_of; by rewrite Hblock).
    rewrite Hels in Hlt, Hel, Hcache. cbn [length] in Hlt.
    assert (Hj : with_id (id_ e) (taken g) = []) by (destruct (with_id (id_ e) (taken g)); [done|cbn in Hlt; lia]).
    rewrite Hj in Hel, Hcache |- *. cbn in Hcache. injection Hel as Hel.
    assert (Htok : tok_msg e = Some (tok_data (i_data x) id)) by (rewrite <- Hel; apply tok_block_msg; lia).
    destruct (ci_place _ _ Hcont _ _ _ Ht _ _ Htok) as (Hrec & y & Hy & Hbytes). assert (y = x) as -> by congruence.
    destruct (recv_block acq (id_ e) x id h s) as (ret & h' & s' & Hiter & Hret); try done; [lia|].
    rewrite Hel in Hiter, Hret. exists ret, h', s'. split_and!; [done|rewrite Hels; cbn; lia|done|done].
  - destruct (elements_frag _ _ _ _ Hblock Hel) as [He Hlen].
    destruct (recv_frag acq (id_ e) x (length (with_id (id_ e) (taken g))) h s) as (ret & h' & Hiter & Hret); try done.
    rewrite <- He in Hiter. exists ret, h', s. split_and!; try done.
    assert (Htok : tok_msg e = None).
    { rewrite He. apply tok_frag; [lia|]. pose proof (frag_count_bounds (i_data x)). lia. }
    unfold unmapped. by rewrite Htok.
Qed.

Lemma inv_look cc_r g m t h e acq c :
  inv cc_r {| shared := g; pcs := m |} → at_ m t h (Popped e) → sized c → Z.of_nat (size (recv_cache h)) ≤ 1024 →
  let k := next acq c (h, Popped e) (view n (mach g)) in
  inv cc_r {| shared := set_mach (put n k.2 (mach g))
                (log_taken e k.1.2 (unmapped acq e h (view n (mach g))) (bool_decide (1024 < Z.of_nat (size (recv_cache h)))) g);
              pcs := <[t := (n, k.1)]> m |}.
Proof.
  intros Hinv Ht Hsized Hcrowd k. destruct (receiver_only _ _ _ _ _ _ Hinv Ht I) as (-> & -> & Hrecv).
  destruct (recv_step _ g m h e acq Hinv Ht Hcrowd) as (x & ret & h' & s' & Hx & Hlt & Hiter & Hret).
  pose proof Hinv as (Hsend & Hrole & _ & Hcont & _). cbn [shared pcs] in *.
  destruct (recv_iter_shared _ _ _ _ _ _ _ Hiter) as (Hq & Hcc & Ha & Hcls).
  set (p' := match ret with Some b => Received (Some b) | None => Receiving end).
  assert (E : next acq c (h, Popped e) (view n (mach g)) = ((h', p'), s')).
  { cbn [next fst snd]. unfold next_received. rewrite Hiter. by destruct ret. }
  unfold k. rewrite E. cbn [fst snd]. set (g' := set_mach _ _).
  assert (Hchan : chan g' = {| c_que := que s'; c_cc := cc_ s'; c_acc := acc_ s' |}).
  { unfold chan, g'. cbn [mach set_mach]. unfold put. cbn [chans]. by rewrite fn_lookup_insert. }
  pose proof Hret as (Ec & Econn & _).
  assert (Hp' : message p' = None ∧ ¬ calls_send p' ∧ pending p' = []) by (unfold p'; destruct ret; (split_and!; [done|by intros []|done])).
  destruct Hp' as (Hm & Hcs & Hpend).
  eapply inv_acting; try done.
  - apply (send_inv_same g _ m); rewrite ?Hchan, ?Hq, ?Hcc, ?Ha; try done; try apply Hsend. by eapply at_keep.
  - eapply role_inv_keep; try done. by left.
  - exists h', p'. split; [apply at_insert|]. eapply (recv_inv_take _ g g'); try done. cbn. by destruct ret.
  - by apply sent_le_refl.
  - unfold p'. destruct ret as [b|]; [|done]. intros id size Hl. cbn [mach g' set_mach blocks put]. rewrite Hcls.
    by eapply recv_iter_contents.
  - intros e' He'. left. by rewrite Hq in He'.
Qed.

(** *** Idle threads, and every step *)

(** What a step may not exceed. *)
Definition within (g : log) : Prop := Z.of_nat (size (sent g)) < 2 ^ 32 ∧ crowded g = false.

(** The side conditions of a step outside of a message. *)
Ltac quiet_step := try done; try (by intros _ []); try (by intros _; split; [intros []|]).

Lemma inv_idle cc_r g m t h acq c :
  inv cc_r {| shared := g; pcs := m |} → at_ m t h Idle → allowed c (n, (h, Idle)) = true → sized c →
  let k := next acq c (h, Idle) (view n (mach g)) in
  inv cc_r {| shared := set_mach (put n k.2 (mach g)) g; pcs := <[t := (n, k.1)]> m |}.
Proof.
  intros Hinv Ht Hallow Hsized k. pose proof Hinv as (Hsend & Hrole & (hr & pr & Hr & Hrecv) & _). cbn [shared pcs] in *.
  assert (Hquiet : ∀ h' p', k = ((h', p'), view n (mach g)) → same_handle h h' → message p' = None →
    (t = r → ¬ calls_send p' ∧ pending p' = []) → (t ≠ r → ¬ receiving p') → place_sound (set_mach (put n (view n (mach g)) (mach g)) g) p' →
    inv cc_r {| shared := set_mach (put n k.2 (mach g)) g; pcs := <[t := (n, k.1)]> m |}).
  { intros h' p' Ek ? ? ? ? ?. rewrite Ek. eapply (inv_quiet cc_r g m t h Idle h' p' acq c); try done. apply Hsend. }
  assert (Hcall : ∀ f data, connected_ h = 0 → k = (call_send f data h (view n (mach g)), view n (mach g)) →
    inv cc_r {| shared := set_mach (put n k.2 (mach g)) g; pcs := <[t := (n, k.1)]> m |}).
  { intros f data Hconn Ek.
    assert (t ≠ r). { intros ->. assert (hr = h) as -> by (unfold at_ in *; by simplify_eq). by destruct (ri_conn _ _ _ _ Hrecv). }
    assert (Hsame : same_handle h (send_checks data h (view n (mach g))).2).
    { unfold send_checks, ready_sending. case_decide; [done|]. destruct (elems_ h); cbn [negb]; [|done]. by case_decide. }
    unfold call_send in Ek. destruct (send_checks data h (view n (mach g))) as [[] h']; (eapply Hquiet; try done; by intros _ []). }
  unfold allowed in Hallow. cbn [fst snd] in Hallow.
  destruct c as [elems acc mode|data|data| |mode| |nn| |]; try (apply bool_decide_eq_true in Hallow; done).
  - apply bool_decide_eq_true in Hallow as [_ Hc]. by eapply (Hcall true data); [apply Hc|].
  - apply bool_decide_eq_true in Hallow as [_ Hc]. by eapply (Hcall false data); [apply Hc|].
  - unfold k, next, call in *. cbn [fst snd] in *. case_decide as Hd.
    + eapply Hquiet; quiet_step.
    + eapply Hquiet; quiet_step. intros Hne _.
      destruct (oi_sender _ _ _ Hrole _ _ _ Ht Hne) as (E & _). destruct Hd. by right.
  - unfold k, next, call in *. cbn [fst snd] in *. destruct (elems_ h); eapply Hquiet; quiet_step.
  - unfold k, next, call in *. cbn [fst snd] in *. eapply Hquiet; quiet_step.
  - unfold k, next, call in *. cbn [fst snd] in *. eapply Hquiet; quiet_step.
Qed.

(** A thread that waits. *)
Lemma inv_stay cc_r g m t h p :
  inv cc_r {| shared := g; pcs := m |} → at_ m t h p →
  inv cc_r {| shared := set_mach (put n (view n (mach g)) (mach g)) g; pcs := <[t := (n, (h, p))]> m |}.
Proof.
  intros (Hsend & Hrole & (hr & pr & Hr & Hrecv) & Hcont & held & Hown) Ht. rewrite insert_id by done. cbn [shared pcs] in *.
  assert (Hchan : chan (set_mach (put n (view n (mach g)) (mach g)) g) = chan g).
  { rewrite chan_put, decide_True by done. unfold view, chan. cbn. by destruct (chans (mach g) n). }
  assert (Hall : ∀ o, owner (put n (view n (mach g)) (mach g)) m o = owner (mach g) m o).
  { intros [t'|[n' j]]; [done|]. rewrite owner_queue. case_decide as E; [by rewrite <- E|done]. }
  split_and!; cbn [shared pcs].
  - apply (send_inv_same g _ m); rewrite ?Hchan; try done; apply Hsend.
  - by destruct Hrole.
  - exists hr, pr. split; [done|]. by destruct Hrecv.
  - destruct Hcont as [H1 H2]. split; [done|]. intros e. rewrite Hchan. apply H2.
  - exists held. destruct Hown as [H1 H2 H3 H4]. split; [done| | |done].
    + intros o c id. rewrite Hall. apply H2.
    + intros o o' b. rewrite !Hall. apply H3.
Qed.

Lemma allowed_sized c u : allowed c u = true → sized c.
Proof. destruct c; try done; cbn; by intros [? _]%bool_decide_eq_true. Qed.

Lemma next_receiving acq c h s : c ≠ Timeout →
  next acq c (h, Receiving) s = match que s with [] => ((h, Receiving), s) | e :: q => ((h, Popped e), set_que q s) end.
Proof. by destruct c. Qed.

Lemma record_receiving acq c h ret g : c ≠ Timeout →
  record (acq, c) (h, Receiving) ret g = match c_que (chan g) with [] => g | e :: _ => log_popped e g end.
Proof. by destruct c. Qed.

Lemma inv_here cc_r g m t h p acq c :
  inv cc_r {| shared := g; pcs := m |} → at_ m t h p → allowed c (n, (h, p)) = true →
  let k := next acq c (h, p) (view n (mach g)) in
  let g' := set_mach (put n k.2 (mach g)) (record (acq, c) (h, p) k.1.2 g) in
  within g' → inv cc_r {| shared := g'; pcs := <[t := (n, k.1)]> m |}.
Proof.
  intros Hinv Ht Hallow k g' Hwithin. pose proof (allowed_sized _ _ Hallow) as Hsized.
  pose proof Hinv as (Hsend & _ & _ & _ & held & Hown). cbn [shared pcs] in *. pose proof (si_cc _ _ Hsend) as Hcc.
  assert (Hquiet : ∀ p' s', k = ((h, p'), s') → message p = None → message p' = None →
    record (acq, c) (h, p) k.1.2 g = g →
    que s' = c_que (chan g) → acc_ s' = c_acc (chan g) → 0 ≤ cc_ s' < 2 ^ 32 →
    (t = r → ¬ calls_send p' ∧ pending p' = pending p) → (t ≠ r → ¬ receiving p') →
    place_sound (set_mach (put n s' (mach g)) g) p' →
    inv cc_r {| shared := g'; pcs := <[t := (n, k.1)]> m |}).
  { intros p' s' Ek ? ? Hrec ? ? ? ? ? ?. unfold g'. rewrite Hrec, Ek. by eapply (inv_quiet cc_r g m t h p h p' acq c). }
  assert (Hwell : well k.1.2).
  { eapply next_well; [exact (ow_well _ _ _ Hown _ _ Ht)|done|apply Hown|]. intros c0 id Hid. apply (ow_held _ _ _ Hown (inl t)).
    by rewrite (owner_thread _ _ _ _ Ht). }
  destruct p as [| |f data|f data i|f data i kk|f data i kk id|f data i id|f [|e todo]| |ret| |e|b|id size|nn|ret|x].
  - unfold g', k. destruct c; try (by apply inv_stay). unfold allowed in Hallow. by apply bool_decide_eq_true in Hallow.
  - by apply inv_idle.
  - apply inv_number; [done..|]. destruct Hwithin as [Hw _]. exact Hw.
  - by apply inv_apply.
  - by apply inv_acquire.
  - by apply inv_count.
  - by apply inv_copy.
  - eapply Hquiet; quiet_step.
  - unfold g', k. destruct c; try exact (inv_timeout cc_r g m t h f e todo Hinv Ht);
      (cbn [next record fst snd que view]; fold (chan g);
       destruct (decide (length (c_que (chan g)) < elem_max - 1)%nat) as [Hlen|Hlen]; [|by apply inv_stay];
       eapply (inv_push cc_r g m t h f e todo acq); [done|done|exact Hsized|cbn [next fst snd que view]; fold (chan g); by rewrite decide_True]).
  - eapply Hquiet; quiet_step. apply udisconnect_bound.
  - eapply Hquiet; quiet_step.
  - assert (c = Timeout ∨ c ≠ Timeout) as [->|Hc] by (destruct c; (by left) || (by right)); [eapply Hquiet; quiet_step|].
    unfold g', k. rewrite next_receiving, record_receiving by done. change (que (view n (mach g))) with (c_que (chan g)).
    destruct (c_que (chan g)) as [|e q] eqn:Hq; [by apply inv_stay|]. eapply (inv_pop _ _ _ _ _ _ _ acq c); try done.
    rewrite next_receiving by done. change (que (view n (mach g))) with (c_que (chan g)). by rewrite Hq.
  - unfold g' in *. destruct Hwithin as [_ Hcr]. cbn in Hcr. apply orb_false_iff in Hcr as [_ Hcr%bool_decide_eq_false].
    apply inv_look; [done..|lia].
  - unfold k, next, free_buffer in *. cbn [fst snd] in *. destruct b as [[cs [[id size]|]]|]; [|eapply Hquiet; quiet_step..].
    destruct (drop_receiver _ _ _ _) as [[[] st]|]; [eapply Hquiet; quiet_step..|done].
  - unfold k, next, next_release in *. cbn [fst snd] in *.
    destruct (release_storage _ _ _ _ _) as [[st mp]|]; [eapply Hquiet; quiet_step|done].
  - unfold g', k in *. unfold next, record in *. cbn [fst snd] in *. destruct (decide (cc_ (view n (mach g)) < nn)); [|eapply Hquiet; quiet_step].
    destruct c; try (by apply inv_stay); eapply Hquiet; quiet_step.
  - eapply Hquiet; quiet_step.
  - by destruct (ow_well _ _ _ Hown _ _ Ht).
Qed.

(** Every step of every thread keeps the invariant. *)
Lemma gnext_inv cc_r g m t u x :
  inv cc_r {| shared := g; pcs := m |} → m !! t = Some u → within (gnext x u g).2 →
  inv cc_r {| shared := (gnext x u g).2; pcs := <[t := (gnext x u g).1]> m |}.
Proof.
  intros Hinv Ht Hwithin. unfold gnext in *. destruct (allowed x.2 u) eqn:Hallow; [|cbn [fst snd]; by rewrite insert_id].
  destruct (mnext x u (mach g)) as [u' M'] eqn:E. destruct u as [n1 [h p]], x as [acq c]. cbn [fst snd] in *.
  destruct (decide (n1 = n)) as [->|Hne].
  - pose proof (inv_here cc_r g m t h p acq c Hinv Ht Hallow) as H. cbn zeta in H. unfold mnext in E. cbn [fst snd] in E.
    destruct (next acq c (h, p) (view n (mach g))) as [[h' p'] s']. injection E as <- <-. by apply H.
  - pose proof (inv_elsewhere cc_r g m t n1 h p acq c Hinv Ht Hne (allowed_sized _ _ Hallow)) as H. cbn zeta in H.
    exact (eq_ind _ (λ k, inv cc_r {| shared := set_mach k.2 g; pcs := <[t := k.1]> m |}) H _ E).
Qed.

(** The log watches the steps of the machine and does not change them. *)
Lemma gnext_next x u g : allowed x.2 u = true → ((gnext x u g).1, mach (gnext x u g).2) = mnext x u (mach g).
Proof. intros Ha. unfold gnext. rewrite Ha. by destruct (mnext x u (mach g)). Qed.

Lemma record_within x t ret g : within (record x t ret g) → within g.
Proof.
  assert (Hlog : ∀ i y, within (log_sent i y g) → within g).
  { intros i y [Hsize Hcr]. split; [|done]. cbn in Hsize. destruct (sent g !! i) as [z|] eqn:E.
    - by rewrite map_size_insert_Some in Hsize by (by exists z).
    - rewrite map_size_insert_None in Hsize by done. lia. }
  destruct t as [h p]. unfold record. cbn [fst snd].
  destruct p as [| |f data|f data i|f data i kk|f data i kk id|f data i id|f [|e todo]| |r0| |e|b|id size|nn|r0|y]; try done; try apply Hlog.
  - destruct x.2; cbn; try done; by case_decide.
  - destruct x.2, (c_que (chan g)); done.
  - intros [? Hcr]. cbn in Hcr. by apply orb_false_iff in Hcr as [? _].
Qed.

Lemma gnext_within x u g : within (gnext x u g).2 → within g.
Proof.
  unfold gnext. destruct (allowed x.2 u); [|done]. destruct (mnext x u (mach g)) as [u' M']. cbn [snd]. case_decide; [|done].
  apply (record_within x u.2 u'.2.2).
Qed.

(** A machine in use, on which the channel [n] was just opened: its message ids start at 0
    and one handle is connected to receive; the others have ids of their own. *)
Record start (k : config log user) : Prop := {
  st_machine : quiet_machine {| shared := mach (shared k); pcs := pcs k |};
  st_log : sent (shared k) = ∅ ∧ pushed (shared k) = [] ∧ popped (shared k) = [] ∧ taken (shared k) = [] ∧
    got (shared k) = [] ∧ failed (shared k) = ∅ ∧ lost (shared k) = ∅ ∧ crowded (shared k) = false;
  st_channel : c_acc (chan (shared k)) = 0 ∧ 0 ≤ c_cc (chan (shared k)) < 2 ^ 32;
  st_receiver : ∃ h, at_ (pcs k) r h Idle ∧ connected_ h ≠ 0 ∧ recv_cache h = ∅ ∧
    ∀ t h' p, t ≠ r → at_ (pcs k) t h' p → connected_ h' = 0 ∧ cc_id_ h' ≠ cc_id_ h }.

Lemma start_inv k : start k → ∃ cc_r, inv cc_r k.
Proof.
  intros [Hm (Es & Ep & Epo & Et & Eg & Ef & El & _) (Hacc & Hcc) (h & Hr & Hconn & Hrc & Hdist)].
  exists (cc_id_ h). destruct (quiet_owned _ Hm) as [held Hown]. cbn [shared pcs] in Hown.
  destruct Hm as (_ & Hq & Hidle). cbn [shared pcs] in *. destruct k as [g m]. cbn [shared pcs] in *.
  assert (Hplace : ∀ t h' p, at_ m t h' p → message p = None ∧ (¬ receiving p) ∧ working g h' p ∧ place_sound g p).
  { intros t h' p Ht. destruct (Hidle _ _ Ht) as [E|E]; cbn in E; subst; (split_and!; [done|by intros []|done|done]). }
  assert (Hque : c_que (chan g) = []) by apply Hq.
  split_and!; cbn [shared pcs].
  - split; rewrite ?Es, ?Ep, ?Epo, ?Ef, ?Hque, ?Hacc; try done.
    + intros e He. by apply elem_of_nil in He.
    + intros t h' p Ht. by destruct (Hplace t h' p Ht) as (_ & _ & ? & _).
    + intros t t' h1 h2 p p' i Ht _ Hp. destruct (Hplace _ _ _ Ht) as [? _]. congruence.
  - split; [intros i x; by rewrite Es|]. intros t h' p Ht Hne. destruct (Hdist t h' p Hne Ht). split_and!; [done..|].
    by destruct (Hplace t h' p Ht) as (_ & ? & _).
  - exists h, Idle. split; [done|]. split; rewrite ?Es, ?Epo, ?Et, ?Eg, ?El; try done.
    + by split_and!; [..|intros []].
    + intros i c. by rewrite Hrc, lookup_empty.
    + intros y Hy. by apply elem_of_nil in Hy.
  - split; [intros t h' p Ht; by destruct (Hplace t h' p Ht) as (_ & _ & _ & ?)|]. rewrite Hque. intros e He. by apply elem_of_nil in He.
  - by exists held.
Qed.

Lemma reachable_inv k0 k : start k0 → reachable gnext k0 k → within (shared k) → ∃ cc_r, inv cc_r k.
Proof.
  intros Hstart Hr. destruct (start_inv k0 Hstart) as [cc_r Hinv]. intros Hw. exists cc_r. revert k Hr Hw.
  apply (reachable_invariant gnext (λ k, within (shared k) → inv cc_r k)); [done|].
  intros s m t u x Hs Ht Hw. cbn [shared] in *. apply gnext_inv; [|done|done]. apply Hs. by eapply gnext_within.
Qed.

Lemma NoDup_by_key {A} (l : list (Z * A)) : (∀ i, length (filter (λ y, y.1 = i) l) ≤ 1)%nat → NoDup l.*1.
Proof.
  induction l as [|[i a] l IH]; intros Hl; [constructor|]. cbn. constructor.
  - intros ([j b] & E & Hin)%list_elem_of_fmap. cbn in E. subst j. specialize (Hl i).
    rewrite filter_cons, decide_True in Hl by done.
    assert (Hin' : (i, b) ∈ filter (λ y, y.1 = i) l) by (by apply list_elem_of_filter).
    destruct (filter (λ y, y.1 = i) l); [by apply elem_of_nil in Hin'|cbn in Hl; lia].
  - apply IH. intros j. specialize (Hl j). rewrite filter_cons in Hl. case_decide; cbn in Hl; lia.
Qed.

(** ** What is sent is received *)

(** C20: on a machine with any number of channels and processes, which share the pools of
    blocks, any number of handles send messages of any length below 2^31 bytes over a
    channel with one receiver, interrupted at every step, through fragments or through
    blocks: every buffer that [recv] returns is the whole of one message, byte for byte;
    no message is returned twice; once the queue is drained and nobody is inside a call,
    every message has been returned unless one of its pushes timed out or the operating
    system did not let the receiver map its block; as long as a received buffer that lies
    in a block is not released, the block keeps its bytes, whatever the other channels do;
    and no thread runs into undefined behaviour.  The connections to the channel are
    fixed, its handles have different ids and its receiver does not send; this holds for
    the first 2^32 messages, while the receiver never caches more than 1024 incomplete
    ones. *)
Theorem messages_delivered k0 k :
  start k0 → reachable gnext k0 k → within (shared k) →
  let g := shared k in
  (∀ i c, (i, c) ∈ got g → ∃ x, sent g !! i = Some x ∧ c = Some <$> i_data x) ∧
  NoDup (got g).*1 ∧
  (c_que (chan g) = [] → (∀ t h p, pcs k !! t = Some (n, (h, p)) → message p = None ∧ pending p = []) →
     ∀ i x, sent g !! i = Some x → i ∉ failed g → i ∉ lost g → (i, Some <$> i_data x) ∈ got g) ∧
  (∀ t h b id size, pcs k !! t = Some (n, (h, Received (Some b))) → lent b = Some (id, size) →
     contents b = Some <$> take (Z.to_nat size) (bytes (block_of (calc_cls_size size) id (blocks (mach g))))) ∧
  (∀ t u e, pcs k !! t = Some u → u.2.2 ≠ Crashed e).
Proof.
  intros Hstart Hr Hw g. destruct (reachable_inv k0 k Hstart Hr Hw) as (cc_r & Hsend & _ & (h & p & Hp & Hrecv) & Hcont & held & Hown).
  fold g in Hsend, Hrecv, Hcont. pose proof Hrecv as [_ Htaken _ _ Hgot Hknown _]. split_and!.
  - intros i c Hin. destruct (Hknown _ Hin) as [x Hx]. cbn in Hx. exists x. split; [done|].
    assert (Hf : (i, c) ∈ filter (λ y, y.1 = i) (got g)) by (by apply list_elem_of_filter).
    rewrite (Hgot i x Hx) in Hf. case_decide; [|by apply elem_of_nil in Hf]. apply list_elem_of_singleton in Hf. congruence.
  - apply NoDup_by_key. intros i. destruct (sent g !! i) as [x|] eqn:E.
    + rewrite (Hgot i x E). case_decide; cbn; lia.
    + rewrite filter_none; [cbn; lia|]. intros y [x Hx]%Hknown <-. congruence.
  - intros Hq Hidle i x Hx Hi Hl. destruct (Hidle _ _ _ Hp) as [_ Hpend].
    assert (Hall : with_id i (taken g) = elements_of i x).
    { destruct (si_done _ _ Hsend i x Hx Hi) as [E|(t & h' & p' & Ht & Hm)].
      - rewrite <- E, (si_que _ _ Hsend), Hq, Htaken, Hpend, !app_nil_r. done.
      - destruct (Hidle _ _ _ Ht). congruence. }
    assert (Hf : (i, Some <$> i_data x) ∈ filter (λ y, y.1 = i) (got g)).
    { rewrite (Hgot i x Hx), decide_True by (by rewrite Hall). by apply list_elem_of_singleton. }
    by apply list_elem_of_filter in Hf as [_ ?].
  - intros t h' b id size Ht Hlent. exact (ci_place _ _ Hcont _ _ _ Ht id size Hlent).
  - intros t u e Ht E. pose proof (ow_well _ _ _ Hown _ _ Ht) as Hwell. by rewrite E in Hwell.
Qed.

End delivery.

(** ** An example: two channels that share the pool of blocks of 128 bytes

    A message goes over the first channel in a block and a short one in one fragment; in
    between a message of the same size goes over the second channel in another block. *)

Definition demo_sender : handle := {| proc_ := 1%nat; cc_id_ := 1; elems_ := true; acc_ok := true; connected_ := 0; sender_flag_ := false;
  recv_cache := ∅; mode_ := sender; ok_ := true |}.
Definition demo_receiver : handle := {| proc_ := 2%nat; cc_id_ := 2; elems_ := true; acc_ok := true; connected_ := 1; sender_flag_ := false;
  recv_cache := ∅; mode_ := receiver; ok_ := true |}.
Definition demo_machine : machine :=
  {| chans := λ _, {| c_que := []; c_cc := 1; c_acc := 0 |}; conns := 3; blocks := ∅; maps := λ _, ∅ |}.
Definition demo_log : log :=
  {| mach := demo_machine; sent := ∅; pushed := []; popped := []; taken := []; got := []; failed := ∅; lost := ∅; crowded := false |}.
Definition demo_data : list Z := seqZ 1 100.
Definition demo_start : config log user :=
  {| shared := demo_log; pcs := list_to_map [(0%nat, (0%nat, (demo_sender, Idle))); (1%nat, (0%nat, (demo_receiver, Idle)));
                                             (2%nat, (1%nat, (demo_sender, Idle)))] |}.

(** The receiver may map all blocks but those of the ids in [no]. *)
Definition demo_steps (no : list Z) : list (nat * ((string → bool) * choice)) :=
  let go t c := (t, ((λ _, true), c)) in
  let acq s := negb (bool_decide (s ∈ mem_name 128 <$> no)) in
  (go 0%nat <$> [Send demo_data; Go; Go; Go]) ++ (go 2%nat <$> [Send demo_data; Go; Go; Go; Go; Go; Go]) ++
  (go 0%nat <$> [Go; Go; Go; Go; Go; Send [7; 8]; Go; Go; Go; Go]) ++
  ((λ c, (1%nat, (acq, c))) <$> [Recv; Go; Go; Go; Go; Recv; Go; Go]).
Definition demo_end (no : list Z) : config log user := run_schedule (gnext 0) (demo_steps no) demo_start.

Lemma demo_starts : start 0 1 demo_start.
Proof.
  assert (Hall : ∀ t u, pcs demo_start !! t = Some u →
    t = 0%nat ∧ u = (0%nat, (demo_sender, Idle)) ∨ t = 1%nat ∧ u = (0%nat, (demo_receiver, Idle)) ∨ t = 2%nat ∧ u = (1%nat, (demo_sender, Idle))).
  { intros t u Ht. apply elem_of_list_to_map_2 in Ht. set_solver. }
  split.
  - split; [exists (λ _, ∅); intros c; by right|]. split; [done|]. intros t u Ht. left.
    by destruct (Hall _ _ Ht) as [[_ ->]|[[_ ->]|[_ ->]]].
  - done.
  - done.
  - exists demo_receiver. split_and!; [done|done|done|]. intros t h p Hne Ht.
    by destruct (Hall _ _ Ht) as [[-> [= -> ->]]|[[-> _]|[-> [=]]]].
Qed.

Lemma messages_delivered_witness :
  got (shared (demo_end [])) = [(0, Some <$> demo_data); (1, [Some 7; Some 8])] ∧
  (∀ i c, (i, c) ∈ got (shared (demo_end [])) → ∃ x, sent (shared (demo_end [])) !! i = Some x ∧ c = Some <$> i_data x).
Proof.
  split; [by vm_compute|].
  assert (Hr : reachable (gnext 0) demo_start (demo_end [])) by exact (run_schedule_reachable (gnext 0) (demo_steps []) demo_start).
  assert (Hw : within (shared (demo_end []))) by (split; by vm_compute).
  exact (proj1 (messages_delivered 0 1 demo_start (demo_end []) demo_starts Hr Hw)).
Defined.

(** The first message has the block 0, the other channel the block 1; when the receiver
    cannot map the block 0 its message is lost. *)
Example demo_two_blocks :
  i_block <$> sent (shared (demo_end [])) !! 0 = Some (Some 0) ∧
  IdPool.cursor_ (pool_ (cls_of 128 (blocks (mach (shared (demo_end [])))))) = 0 ∧
  c_que (chans (mach (shared (demo_end []))) 1) ≠ [].
Proof. by vm_compute. Qed.

Example block_lost :
  lost (shared (demo_end [0])) = {[0]} ∧ got (shared (demo_end [0])) = [(1, [Some 7; Some 8])].
Proof. by vm_compute. Qed.
